(* ===== verification/_CoqProject ===== *)
-Q . S2P
Krate.v
Prelude.v
GoFloat.v
LocalBucket.v
Window.v
Bucket.v
Go.v
Quiet.v
Rely.v
Runs.v
Owns.v
Redis.v
Json.v
PoolState.v
SortDesc.v
Shard.v
Sizer.v
BorrowManager.v
Metrics.v
Gossip.v
Router.v
Options.v
Cluster.v
Mesh.v
Peer.v
Limiter.v
Ledger.v
Safety.v
Admission.v
RateLimit.v
WellFormed.v
Locks.v
Progress.v
Termination.v
Behaviour.v
Eviction.v
Probing.v
Borrowing.v
Transfer.v
Shutdown.v
Cms.v
Compress.v
Clock.v
Accuracy.v
GoFmt.v
Bench.v
Api.v
BenchRun.v
Cleaning.v
Report.v
Liveness.v
