(* ===== verification/Krate.v ===== *)
(** * Krate: a distributed rate limiter

    A development beside the Go library of this repository: a rate limiter
    whose instances share one token pool per key in Redis, keep borrowed
    tokens in local buckets, and lend each other tokens over gRPC, guided by
    gossip about who has a surplus.

    ** How the program is put together

    - A caller of [AllowN(key, n)] (limiter.go) takes [n] tokens from the
      local [bucket] of the key (bucket.go, local.go, window.go).  When the
      bucket is short, the limiter resets an expired window through Redis, and
      then loops: a router (routing/) says whether to borrow from the pool in
      Redis (internal/borrow), to ask the peers (internal/peer), or to give
      up.  When the bucket runs low, a goroutine borrows ahead.
    - Background goroutines refresh the instance's record in Redis
      (internal/cluster), follow the membership and connect to the other
      instances (internal/peer/mesh.go), send what changed in the instance's
      loans and consumption to them ([gossipOnce]; internal/sketch/gossip.go
      on the receiving side), and evict idle keys (eviction.go).
    - The token server of an instance (internal/peer/server.go) hands part of
      a bucket to another instance, above a reserved minimum.

    ** How the model reads

    Go code that touches shared state is a program of [Go.go], a small language of
    atomic steps on a state, questions to the environment (the clock, how a
    Redis command or a call between instances ends, whether a context is
    cancelled, the order of a map iteration, whether a singleflight call
    joins one in flight, a random number), started goroutines and panics.
    [Go.exec] runs one
    goroutine alone; [Go.pool_step] interleaves any number of them, action by
    action, with new ones started at any time.  A component's code is written
    against a lens to its state, so the same code runs on the component by
    itself and inside the state of a whole cluster ([Limiter.world]).
    Machine integers are [Z] with their wrap-around written out
    ([Prelude.to_i64], [to_u64], [to_u32]); floats are IEEE binary64
    ([GoFloat]); times are nanoseconds.

    ** Files

    - [Prelude], [SortDesc], [Shard]: integers, time, list lemmas, the
      decreasing sort, and the FNV-1a sharded tables that five source files
      share, with the proof that they behave as one flat map.
    - [GoFloat]: binary64 as Go uses it; what a conversion out of range does
      is the class [FloatConv].
    - [Go]: the goroutine language, its two semantics, the credit logic [wp]
      with its soundness theorem [pool_safe], lenses, [post].
    - [Quiet]: the frame rule (code that leaves the accounts alone is free).
      [Rely]: rely-guarantee assertions [rg], which also exclude panics, and
      their soundness [pool_stays_safe].  [Owns]: which goroutine holds a
      lock, with the soundness theorems [pool_held] and [holder_gives_back].
      [Runs]: no run is infinite, and what it is bound to reach.
    - [LocalBucket] (local.go), [Window] (window.go), [Bucket] (bucket.go,
      eviction.go).
    - [Redis] (internal/borrow/pool.go): the server is the class
      [RedisStore] with the laws [RedisLaws]; both Lua scripts; script
      loading, lost replies.  [PoolState]: what [GetState] reads back.
    - [Json]: the part of encoding/json the program uses, as functions on
      byte strings with the proof that what is written is read back.
    - [Sizer] (internal/borrow/adaptive.go), [BorrowManager]
      (internal/borrow/manager.go).
    - [Metrics] (internal/metrics), [Gossip] (internal/sketch/gossip.go),
      [Router] (routing/), [Options] (options.go, types.go, New of krate.go),
      [Cluster] (internal/cluster), [Mesh] (internal/peer/mesh.go), [Peer]
      (server.go, client.go, protocol.go and acquirer.go of internal/peer).
    - [Limiter] (limiter.go): an instance's state is the record [limiter],
      with a field per field of the Go struct that changes (the listener and
      the grpc server of its token server are [l_server]); [world] has every
      instance, every bucket and channel ever made, and Redis.  [AllowN],
      [resetWindow], [gossipOnce], [evictInactiveKeys], [newLimiter] and
      [Close] follow the Go methods statement by statement.
    - [Cms] and [Compress] (cms.go, merge.go, compress.go of
      internal/sketch), [Clock] (internal/clock).
    - [Ledger], [Safety], [Admission], [RateLimit]: the accounts of a
      cluster, what each method does to them, and the rate limit.
    - [WellFormed]: the components' invariants in every reachable state, and
      the absence of panics.
      [Locks]: who holds which mutex, and what it protects; [Progress]: no
      run of a cluster nobody calls is stuck, so [Close] waits for nobody in
      vain.
    - [Termination], [Behaviour], [Eviction], [Probing], [Borrowing],
      [Transfer], [Shutdown]: the loop of [AllowN], and what the methods do on
      their branches.  [Liveness]: a request is answered and leaves no lock
      behind.
    - [Api]: the [Limiter] interface of krate.go with the value [New] returns,
      and the server of cmd/krate-example written against it.
    - [Accuracy], [Bench], [BenchRun], [Cleaning], [Report] (cmd/krate-bench):
      the accuracy tracker; the scenarios, latency samples, counters and
      reports; the two runs, whose state [bench] is a [world] with the counters
      of the workers; the clean-up of Redis between runs, over the classes
      [RedisKeys] and [ScanLaws]; the tables printed, and [main].  [GoFmt] has
      the verbs of fmt the tables use.

    Interfaces between components are classes with instances: [PoolClient]
    (the manager's view of Redis), [PeerLookup], [PeerRanker] and
    [TokenRequester] (the acquirer's view of mesh, gossip and client),
    [Router] with [RouterLaws] (the limiter's view of a router, obeyed by both
    routers), [EvictionPolicy].

    ** What the theorems show

    - The rate limit ([RateLimit]): in every state a cluster can reach, for
      every interleaving, with Redis commands and calls that fail before or
      after they took effect, any clocks, and a Redis that may lose data, the
      tokens of a key that were admitted or are still anywhere in the system
      are at most what window resets put into the pool; so a cluster admits
      at most the limit per window opened, and windows open once each, in
      order.  It holds for requests and limits of at most [2^53], as Lua
      numbers are doubles; for keys whose counters stay below [2^63]
      ([Ledger.ledger_lim]); and for instance names that cannot make a
      "borrowed" key equal to a pool key ([Ledger.id_ok]).  When all
      instances have the same window, the windows opened start at its
      multiples, which turns the bound into one per stretch of time
      ([rate_limit_over_time]).
    - [AllowN] returns ([Termination]): the loop is a [Fixpoint] on fuel, and
      fuel above the larger of pool and limit, plus two, is always enough for
      a goroutine running alone, because a round that does not return either
      marks the pool exhausted, or asks the peers for the only time, or takes
      at least a token from the pool.
    - Branch by branch ([Behaviour], [Borrowing], [Transfer], [Eviction],
      [Redis], [Shutdown]): closed limiter, local hit, the slow path through
      Redis when the pool has enough, too little or cannot be reached, the
      slow path through a peer together with what the peer's server does,
      bucket creation, window reset with and without Redis, borrowing over a
      failing connection, what the janitor evicts, and [Close].
    - No reachable state is out of shape and none panics ([WellFormed]), if
      the options name a router, a window of at least a millisecond, a
      number of probes that is not negative and intervals of gossip and
      heartbeat that are positive; [New] checks none of these.
    - The locks do their work ([Locks]): in every reachable state of a cluster
      each mutex of a bucket, of a shard of buckets and of the mesh is held by
      at most one goroutine (readers apart), which gives it back, and what it
      protects changes only while it is held; the two wait groups count the
      goroutines that will call [Done], so [Close] waits for none that has
      ended, and no counter goes below zero.  A goroutine that holds one of the
      mutexes waits for nothing: running alone it gives the mutex back, so no
      set of goroutines deadlocks on them.  The starts of the instances' own
      loops are told apart here, and the options are those of the previous
      item.  If nobody is called any more, every run reaches a point where no
      mutex is held and nobody is left of those a closed instance waits for
      ([Progress]).  The one thing a bucket's mutex protects throughout is the
      start of its window: the rest of a bucket is atomic words the request
      path writes without it.
    - A request that runs alone is answered ([Liveness]) if its instance asks
      its peers in sequence or knows none: from a cluster at rest, whatever
      fails, [AllowN] returns within the fuel above and every mutex is free
      again.  Parallel probes are goroutines of their own, which a request
      that runs alone would wait for; they are not covered there.
    - The predictive router ([Router.EMA_decide_spec]): the models of the
      ranked peers and the decision, against a description of both apart
      from the code ([reported], [expected]).  The mesh
      ([Mesh.refresh_spec]): peers, connections and removal callbacks after a
      refresh, peer by peer ([refreshed]).
    - The benchmark measures what it says: [ComputeAccuracy] reports exactly
      the admissions above the limit and the rejections below it of the
      requests recorded; the script of the Redis-only run never leaks; the
      clusters of all scenarios have sound options and obey the rate limit;
      workers count every request once; each run starts with nothing of an
      earlier one in Redis, by FLUSHDB or by SCAN.  The example's handler answers 429
      exactly when the limiter refuses.
    - Components: [TryConsume]'s compare-and-swap loop refines an atomic
      operation; the loan book; the gossip report; the ranking of peers on
      both of its code paths; forgetting peers and keys; the router contract;
      gossip deltas; membership, mesh and connection hygiene; member records
      that instances of another version can read; what a token server refuses
      and never exceeds; count-min bounds; encoding and
      compression round trips; the fake clock; metric arity.

    ** Bounds

    Loops without a bound in Go are cut by fuel in [allow_loop] (see above)
    and by a number of ticks in the background loops ([ticker_loop],
    [hb_loop]), which wait for their end when these are used up: the theorems
    about them hold for every number of ticks, and every run of the
    goroutines that are there is finite ([Runs.steps_end]).  The benchmark's
    workers stop after a number of requests; [workers_count] holds
    for every number.

    ** Outside the model

    Logging; the generated gRPC code (a call is the handler run on its
    arguments, or a failure, [Peer.rpc]); sockets (what [net.Listen] answers is
    the class [NetListen]), the Prometheus client (what a registry gathers is
    the class [Gatherer]); the expiry of Redis keys, which is one of the data
    losses [redis_drift] allows; [time.Now] and when a ticker ticks, which are
    questions to the environment, and the channels of [time.After]
    ([RuntimeTimers]); of the programs under cmd/, the flags, the HTTP and signal machinery and
    the lines on standard error, with the goroutine of the benchmark that prints
    its progress.  Three operations differ from the code in their steps:
    [BorrowManager.bm_EvictKeys] forgets the keys of all shards at once, where
    [EvictKeys] locks shard by shard; [Peer.srv_Stop] does not wait for the
    calls [GracefulStop] would let finish; and the predictive router reads the
    clock before its locked section instead of within.

    A member record is read back as written if its strings are UTF-8
    ([Cluster.encodable]); the codec replaces other bytes, as Go's does.

    ** Plan

    Next: [Close] also waits for the heartbeat, which [Progress] leaves out
    ([Shutdown] starts when it has ended); the peer branch when several peers
    are probed in parallel ([Transfer] has the sequential mode), and that such
    a request is answered. *)

From Stdlib Require Import ZArith String.

(** ** types.go *)

(** [WindowType], types.go. *)
Inductive WindowType : Type :=
| Fixed
| Sliding.
