(* ===== verification/Prelude.v ===== *)
(** * Prelude: machine integers, sums over finite maps and list lemmas

    The generic part of the development: Go's fixed-width integers as [Z]
    with explicit wrap-around, the total of a function over a finite map
    (used to count tokens), Go's truncated time units, and the tactics and
    hints the component files share. *)

From stdpp Require Export base list gmap strings fin_maps sorting.
From Stdlib Require Export ZArith Lia.
From S2P Require Export Krate.
#[global] Open Scope Z_scope.

(** ** Fixed-width integers

    A Go integer is the [Z] it denotes; a conversion or an arithmetic
    operation wraps.  [to_u64] is Go's [uint64(x)], [to_i64] is [int64(x)]. *)

Definition to_u64 (z : Z) : Z := z mod 2 ^ 64.
Definition to_i64 (z : Z) : Z := (z + 2 ^ 63) mod 2 ^ 64 - 2 ^ 63.
Definition to_u32 (z : Z) : Z := z mod 2 ^ 32.

Definition is_u64 (z : Z) : Prop := 0 <= z < 2 ^ 64.
Definition is_i64 (z : Z) : Prop := - 2 ^ 63 <= z < 2 ^ 63.
Definition is_u32 (z : Z) : Prop := 0 <= z < 2 ^ 32.

Definition max_u64 : Z := 2 ^ 64 - 1.

Create HintDb krate discriminated.

Lemma to_u64_range z : is_u64 (to_u64 z).
Proof. apply Z.mod_pos_bound. lia. Qed.

Lemma to_i64_range z : is_i64 (to_i64 z).
Proof.
  unfold is_i64, to_i64.
  pose proof (Z.mod_pos_bound (z + 2 ^ 63) (2 ^ 64)). lia.
Qed.

Lemma to_u32_range z : is_u32 (to_u32 z).
Proof. apply Z.mod_pos_bound. lia. Qed.

Lemma to_u64_small z : is_u64 z → to_u64 z = z.
Proof. apply Z.mod_small. Qed.

Lemma to_i64_small z : is_i64 z → to_i64 z = z.
Proof. unfold is_i64, to_i64. intros. rewrite Z.mod_small; lia. Qed.

Lemma to_u64_to_i64 z : to_u64 (to_i64 z) = to_u64 z.
Proof.
  unfold to_u64, to_i64.
  rewrite Zminus_mod_idemp_l. f_equal. lia.
Qed.

Lemma to_i64_to_u64 z : to_i64 (to_u64 z) = to_i64 z.
Proof.
  unfold to_u64, to_i64. by rewrite Zplus_mod_idemp_l.
Qed.

(** Wrapping once at the end is wrapping at every step. *)
Lemma to_i64_add_l a b : to_i64 (to_i64 a + b) = to_i64 (a + b).
Proof.
  unfold to_i64. f_equal.
  replace ((a + 2 ^ 63) `mod` 2 ^ 64 - 2 ^ 63 + b + 2 ^ 63)
    with ((a + 2 ^ 63) `mod` 2 ^ 64 + b) by lia.
  rewrite Zplus_mod_idemp_l. f_equal. lia.
Qed.

Lemma to_i64_idem a : to_i64 (to_i64 a) = to_i64 a.
Proof. apply to_i64_small, to_i64_range. Qed.

(** A [uint64] of at least [2^63] becomes negative as an [int64]. *)
Lemma to_i64_wrap z : 2 ^ 63 <= z < 2 ^ 64 → to_i64 z = z - 2 ^ 64.
Proof.
  unfold to_i64. intros.
  replace (z + 2 ^ 63) with ((z - 2 ^ 63) + 1 * 2 ^ 64) by lia.
  rewrite Z.mod_add by lia. rewrite Z.mod_small; lia.
Qed.

#[export] Hint Resolve to_u64_range to_i64_range to_u32_range : krate.

(** [go_lia]: arithmetic goals about ranges. *)
Ltac go_lia :=
  unfold is_u64, is_i64, is_u32, max_u64 in *; lia.

(** ** The total of a function over a finite map *)

Section msum.
Context {K V : Type} `{Countable K}.

Definition msum (f : K → V → Z) (m : gmap K V) : Z :=
  map_fold (λ k v acc, f k v + acc) 0 m.

Lemma msum_empty f : msum f ∅ = 0.
Proof. done. Qed.

Lemma msum_insert_new f m k v :
  m !! k = None → msum f (<[k:=v]> m) = f k v + msum f m.
Proof.
  intros Hk. unfold msum. rewrite map_fold_insert_L; [done| |done].
  intros. lia.
Qed.

Lemma msum_delete f m k v :
  m !! k = Some v → msum f m = f k v + msum f (delete k m).
Proof.
  intros Hk. rewrite <- (insert_delete_id m k v Hk) at 1.
  by rewrite msum_insert_new by apply lookup_delete_eq.
Qed.

Lemma msum_insert f m k v v0 :
  m !! k = Some v0 →
  msum f (<[k:=v]> m) = msum f m + f k v - f k v0.
Proof.
  intros Hk. rewrite (msum_delete f m k v0 Hk).
  rewrite <- insert_delete_eq.
  rewrite msum_insert_new by apply lookup_delete_eq. lia.
Qed.

Lemma msum_ext f g m :
  (∀ k v, m !! k = Some v → f k v = g k v) → msum f m = msum g m.
Proof.
  intros Hfg. revert m Hfg. refine (map_ind _ _ _); [done|].
  intros k v m Hk IH Hfg. rewrite !msum_insert_new by done.
  rewrite Hfg by apply lookup_insert_eq. rewrite IH; [done|].
  intros k' v' Hk'. apply Hfg. rewrite lookup_insert_ne; [done|congruence].
Qed.

Lemma msum_nonneg f m :
  (∀ k v, m !! k = Some v → 0 <= f k v) → 0 <= msum f m.
Proof.
  intros Hf. revert m Hf. refine (map_ind _ _ _); [done|].
  intros k v m Hk IH Hf. rewrite msum_insert_new by done.
  assert (0 <= f k v) by (apply Hf, lookup_insert_eq).
  assert (0 <= msum f m); [|lia].
  apply IH. intros k' v' Hk'. apply Hf.
  rewrite lookup_insert_ne; [done|congruence].
Qed.

(** One entry never exceeds the total of a non-negative function. *)
Lemma msum_lookup_le f m k v :
  (∀ k v, m !! k = Some v → 0 <= f k v) →
  m !! k = Some v → f k v <= msum f m.
Proof.
  intros Hf Hk. rewrite (msum_delete f m k v Hk).
  assert (0 <= msum f (delete k m)); [|lia].
  apply msum_nonneg. intros k' v' [_ ?]%lookup_delete_Some. eauto.
Qed.
End msum.

(** ** List lemmas *)

Lemma fmap_lookup_seq {A B} (g : option A → B) (h : A → B) (l : list A) o :
  (∀ x, g (Some x) = h x) →
  ((λ j, g (l !! (j - o)%nat)) <$> seq o (length l)) = h <$> l.
Proof.
  intros Hg. apply list_eq. intros i. rewrite !list_lookup_fmap.
  destruct (l !! i) as [x|] eqn:Hi.
  - rewrite lookup_seq_lt by (by eapply lookup_lt_Some). cbn.
    replace (o + i - o)%nat with i by lia. by rewrite Hi, Hg.
  - rewrite lookup_seq_ge by (by apply lookup_ge_None). done.
Qed.

Lemma join_omap {A B C} (f : B → option C) (g : A → list B) (l : list A) :
  mjoin ((λ x, omap f (g x)) <$> l) = omap f (mjoin (g <$> l)).
Proof.
  induction l as [|x l IH]; [done|].
  change (omap f (g x) ++ mjoin ((λ x, omap f (g x)) <$> l)
          = omap f (g x ++ mjoin (g <$> l))).
  rewrite omap_app. f_equal. exact IH.
Qed.

(** Inserting a list of entries with distinct keys into a map. *)
Section foldl_insert.
Context {E V : Type} (key : E → string) (val : E → V).

Lemma lookup_foldl_insert l :
  ∀ m : gmap string V, NoDup (key <$> l) →
  ∀ k v, foldl (λ m e, <[key e := val e]> m) m l !! k = Some v ↔
    (∃ e, e ∈ l ∧ key e = k ∧ val e = v) ∨
    (k ∉ (key <$> l) ∧ m !! k = Some v).
Proof.
  induction l as [|e l IH]; intros m Hnd k v; cbn [foldl].
  - split; [intros H; right; split; [apply not_elem_of_nil|done]|].
    intros [(e & He & _)|[_ H]]; [by apply not_elem_of_nil in He|done].
  - rewrite fmap_cons in *. apply NoDup_cons in Hnd as [He Hnd].
    rewrite (IH _ Hnd). clear IH. split.
    + intros [(e' & Hin & Hk & Hv)|[Hk Hm]].
      * left. exists e'. split; [by right|done].
      * destruct (decide (key e = k)) as [<-|Hne].
        -- rewrite lookup_insert_eq in Hm. left. exists e.
           split; [by left|]. naive_solver.
        -- rewrite lookup_insert_ne in Hm by done. right.
           split; [|done]. rewrite not_elem_of_cons. done.
    + intros [(e' & Hin & Hk & Hv)|[Hk Hm]].
      * apply elem_of_cons in Hin as [->|Hin].
        -- right. subst. split; [done|]. apply lookup_insert_eq.
        -- left. by exists e'.
      * apply not_elem_of_cons in Hk as [Hk1 Hk2]. right.
        split; [done|]. by rewrite lookup_insert_ne.
Qed.

Lemma size_foldl_insert l :
  ∀ m : gmap string V, NoDup (key <$> l) → (∀ e, e ∈ l → m !! key e = None) →
  size (foldl (λ m e, <[key e := val e]> m) m l) = (size m + length l)%nat.
Proof.
  induction l as [|e l IH]; intros m Hnd Hm; cbn [foldl length]; [lia|].
  rewrite fmap_cons in Hnd. apply NoDup_cons in Hnd as [He Hnd].
  rewrite IH; [|done|].
  - rewrite map_size_insert_None by (apply Hm; by left). lia.
  - intros e' He'. rewrite lookup_insert_ne; [apply Hm; by right|].
    intros Heq. apply He. rewrite Heq. by apply list_elem_of_fmap_2.
Qed.
End foldl_insert.

(** ** Time

    [time.Time] is the [Z] of nanoseconds since the Unix epoch, and
    [time.Duration] an [int64] of nanoseconds. *)

Definition Nanosecond : Z := 1.
Definition Millisecond : Z := 1000000.
Definition Second : Z := 1000000000.

(** [time.Duration.Milliseconds]: truncated toward zero. *)
Definition Milliseconds (d : Z) : Z := Z.quot d Millisecond.

(** [time.Time.UnixMilli]. *)
Definition UnixMilli (t : Z) : Z := to_i64 (t / Millisecond).
#[global] Arguments UnixMilli : simpl never.

(** [time.Time.Sub]: saturates at the ends of [int64]. *)
Definition time_Sub (t u : Z) : Z :=
  Z.max (- 2 ^ 63) (Z.min (2 ^ 63 - 1) (t - u)).

(** The zero [time.Time], year 1. *)
Definition time_zero : Z := - 62135596800 * Second.

(** ** Strings by their last characters *)

Definition chars : string → list Ascii.ascii := String.list_ascii_of_string.

Lemma chars_app a b : chars (a +:+ b) = chars a ++ chars b.
Proof.
  induction a as [|c a IH]; [done|].
  change (c :: chars (a +:+ b) = c :: chars a ++ chars b). by rewrite IH.
Qed.

#[export] Instance chars_inj : Inj (=) (=) chars.
Proof.
  intros a b H. rewrite <- (String.string_of_list_ascii_of_string a),
    <- (String.string_of_list_ascii_of_string b). by f_equal.
Qed.

Lemma string_app_inj_l a b s : a +:+ s = b +:+ s → a = b.
Proof.
  intros H. apply (f_equal chars) in H. rewrite !chars_app in H.
  by apply app_inv_tail, (inj chars) in H.
Qed.

(** The last character of a string. *)
Definition str_last (s : string) : option Ascii.ascii := last (chars s).
