(* ===== verification/GoFloat.v ===== *)
(** * GoFloat: Go's float64

    Go's [float64] is IEEE 754 binary64.  The model uses the Standard
    Library's executable specification of it ([SpecFloat], precision 53,
    maximal exponent 1024), so every floating-point expression of the source
    is evaluated with its rounding, infinities and NaN.

    The language leaves one thing open: the result of converting a
    floating-point value that does not fit the integer type is
    implementation-dependent.  It is a parameter here ([FloatConv]). *)

From Stdlib Require Export Floats.SpecFloat.
From S2P Require Export Prelude.

Abbreviation float64 := spec_float.

Definition f64_add : float64 → float64 → float64 := SFadd 53 1024.
Definition f64_sub : float64 → float64 → float64 := SFsub 53 1024.
Definition f64_mul : float64 → float64 → float64 := SFmul 53 1024.
Definition f64_div : float64 → float64 → float64 := SFdiv 53 1024.
Definition f64_ltb : float64 → float64 → bool := SFltb.
Definition f64_leb : float64 → float64 → bool := SFleb.

(** [float64(z)] of an integer [z]. *)
Definition f64_of_Z (z : Z) : float64 := binary_normalize 53 1024 z 0 false.

Definition f64_zero : float64 := S754_zero false.
Definition f64_one : float64 := f64_of_Z 1.

(** A decimal constant [num/den] of the source, correctly rounded. *)
Definition f64_const (num den : Z) : float64 :=
  f64_div (f64_of_Z num) (f64_of_Z den).

(** The integer part of a finite value, toward zero; [None] for the
    infinities and NaN. *)
Definition f64_trunc (f : float64) : option Z :=
  match f with
  | S754_zero _ => Some 0
  | S754_finite s m e =>
      let q := if e <? 0 then Z.pos m / 2 ^ (- e) else Z.pos m * 2 ^ e in
      Some (if s then - q else q)
  | _ => None
  end.

(** What the implementation returns for an out-of-range conversion. *)
Class FloatConv := {
  f2u_out_of_range : float64 → Z;
  f2u_out_of_range_u64 : ∀ f, is_u64 (f2u_out_of_range f);
  f2i_out_of_range : float64 → Z;
  f2i_out_of_range_i64 : ∀ f, is_i64 (f2i_out_of_range f);
}.

(** [uint64(f)]. *)
Definition f64_to_u64 `{FloatConv} (f : float64) : Z :=
  match f64_trunc f with
  | Some q => if (0 <=? q) && (q <? 2 ^ 64) then q else f2u_out_of_range f
  | None => f2u_out_of_range f
  end.

(** [int64(f)], and [int(f)] on a 64-bit machine. *)
Definition f64_to_i64 `{FloatConv} (f : float64) : Z :=
  match f64_trunc f with
  | Some q => if (- 2 ^ 63 <=? q) && (q <? 2 ^ 63) then q else f2i_out_of_range f
  | None => f2i_out_of_range f
  end.

(** [math.Round]: half away from zero. *)
Definition math_Round (f : float64) : float64 :=
  match f with
  | S754_finite s m e =>
      if 0 <=? e then f
      else
        let q := (2 * Z.pos m + 2 ^ (- e)) / (2 ^ (- e + 1)) in
        binary_normalize 53 1024 (if s then - q else q) 0 s
  | _ => f
  end.

(** [time.Duration.Seconds]. *)
Definition duration_Seconds (d : Z) : float64 :=
  f64_add (f64_of_Z (Z.quot d Second))
          (f64_div (f64_of_Z (Z.rem d Second)) (f64_of_Z Second)).

Lemma f64_to_u64_range `{FloatConv} f : is_u64 (f64_to_u64 f).
Proof.
  unfold f64_to_u64. destruct (f64_trunc f) as [q|];
    [|apply f2u_out_of_range_u64].
  destruct ((0 <=? q) && (q <? 2 ^ 64)) eqn:E;
    [|apply f2u_out_of_range_u64].
  apply andb_prop in E as [?%Z.leb_le ?%Z.ltb_lt]. split; assumption.
Qed.

Lemma f64_to_i64_range `{FloatConv} f : is_i64 (f64_to_i64 f).
Proof.
  unfold f64_to_i64. destruct (f64_trunc f) as [q|];
    [|apply f2i_out_of_range_i64].
  destruct ((- 2 ^ 63 <=? q) && (q <? 2 ^ 63)) eqn:E;
    [|apply f2i_out_of_range_i64].
  apply andb_prop in E as [?%Z.leb_le ?%Z.ltb_lt]. split; assumption.
Qed.

#[export] Hint Resolve f64_to_u64_range f64_to_i64_range : krate.

(** amd64 returns [2^63] and [-2^63] for a conversion out of range. *)
#[export] Program Instance amd64_conv : FloatConv :=
  {| f2u_out_of_range _ := 2 ^ 63; f2i_out_of_range _ := - 2 ^ 63 |}.
Next Obligation. go_lia. Qed.
Next Obligation. go_lia. Qed.

Example f64_tenth_of_limit :
  f64_to_u64 (f64_mul (f64_of_Z 10000) (f64_const 1 10)) = 1000.
Proof. vm_compute. reflexivity. Qed.

Example math_Round_half : math_Round (f64_const 5 2) = f64_of_Z 3.
Proof. vm_compute. reflexivity. Qed.

(** ** Exactness: a [uint64] below [2^53] survives the trip through
    [float64].  Used for every [uint64(float64(x) * c)] of the source whose
    product is exact, and for the surpluses the gossiper computes. *)

Lemma digits2_pos_bound p :
  2 ^ (Z.pos (digits2_pos p) - 1) <= Z.pos p < 2 ^ Z.pos (digits2_pos p).
Proof.
  assert (Hstep : ∀ d z b, 0 < d → 2 ^ (d - 1) <= z < 2 ^ d → 0 <= b <= 1 →
    2 ^ (Z.succ d - 1) <= 2 * z + b < 2 ^ Z.succ d).
  { intros d z b Hd [Hlo Hhi] Hb.
    replace (Z.succ d - 1) with (Z.succ (d - 1)) by lia.
    rewrite !Z.pow_succ_r by lia. lia. }
  induction p as [p IH|p IH|]; cbn [digits2_pos].
  - rewrite Pos2Z.inj_succ, (Pos2Z.inj_xI p). by apply Hstep.
  - rewrite Pos2Z.inj_succ, (Pos2Z.inj_xO p).
    rewrite <- (Z.add_0_r (2 * Z.pos p)). by apply Hstep.
  - by split.
Qed.

Lemma digits2_pos_le p n :
  0 < n → Z.pos p < 2 ^ n → Z.pos (digits2_pos p) <= n.
Proof.
  intros Hn Hp. destruct (digits2_pos_bound p) as [Hlo _].
  assert (2 ^ (Z.pos (digits2_pos p) - 1) < 2 ^ n) as Hlt by lia.
  apply Z.pow_lt_mono_r_iff in Hlt; lia.
Qed.

Lemma iter_xO p n : Z.pos (Pos.iter xO p n) = Z.pos p * 2 ^ Z.pos n.
Proof.
  induction n as [|n IH] using Pos.peano_ind; [cbn; lia|].
  rewrite Pos.iter_succ, (Pos2Z.inj_xO (Pos.iter _ _ _)), IH.
  rewrite Pos2Z.inj_succ, Z.pow_succ_r by lia. lia.
Qed.

Lemma digits2_iter_xO p n :
  Z.pos (digits2_pos (Pos.iter xO p n)) = Z.pos (digits2_pos p) + Z.pos n.
Proof.
  induction n as [|n IH] using Pos.peano_ind; [cbn; lia|].
  rewrite Pos.iter_succ. cbn [digits2_pos]. lia.
Qed.

(** The binary64 form of a positive integer below [2^53]. *)
Lemma f64_of_Z_normal p :
  Z.pos p < 2 ^ 53 →
  ∃ m e, f64_of_Z (Z.pos p) = S754_finite false m e ∧ e <= 0 ∧
         Z.pos m = Z.pos p * 2 ^ (- e) ∧ Z.pos (digits2_pos m) = 53.
Proof.
  intros Hp. pose proof (digits2_pos_le p 53 ltac:(lia) Hp) as Hd.
  set (d := Z.pos (digits2_pos p)) in *.
  assert (Hfexp : ∀ k, -1074 + 53 <= k → fexp 53 1024 k = k - 53).
  { intros k Hk. unfold fexp, emin. lia. }
  unfold f64_of_Z, binary_normalize, binary_round, shl_align.
  fold d. rewrite Z.add_0_r, Hfexp, Z.sub_0_r by lia.
  assert (Haux : ∀ q e, Z.pos (digits2_pos q) = 53 → e <= 0 → -1074 <= e →
    binary_round_aux 53 1024 false (Z.pos q) e loc_Exact = S754_finite false q e).
  { intros q e Hq He He'. unfold binary_round_aux, shr_fexp.
    cbn [Zdigits2]. rewrite Hq, Hfexp by lia.
    replace (53 + e - 53 - e) with 0 by lia. cbn [shr shr_record_of_loc].
    cbn [loc_of_shr_record shr_m round_nearest_even Zdigits2].
    rewrite Hq, Hfexp by lia. replace (53 + e - 53 - e) with 0 by lia.
    cbn [shr shr_record_of_loc shr_m].
    rewrite (proj2 (Z.leb_le e (1024 - 53))) by lia. done. }
  destruct (d - 53) as [|k|k] eqn:E; [|lia|].
  - exists p, 0. rewrite Haux by lia. split; [done|]. split; [lia|].
    change (- 0) with 0. split; lia.
  - exists (Pos.iter xO p k), (Z.neg k).
    rewrite Haux; [|rewrite digits2_iter_xO; subst d; lia|lia|subst d; lia].
    split; [done|]. split; [lia|].
    split; [apply iter_xO|rewrite digits2_iter_xO; subst d; lia].
Qed.

Lemma f64_of_Z_exact p :
  Z.pos p < 2 ^ 53 →
  ∃ m e, f64_of_Z (Z.pos p) = S754_finite false m e ∧ e <= 0 ∧
         Z.pos m = Z.pos p * 2 ^ (- e).
Proof.
  intros Hp. destruct (f64_of_Z_normal p Hp) as (m & e & H1 & H2 & H3 & _). eauto.
Qed.

(** Of two numbers in that form, the one with the smaller exponent is the
    smaller. *)
Lemma normal_lt p1 p2 m1 m2 e1 e2 :
  Z.pos m1 = Z.pos p1 * 2 ^ (- e1) → Z.pos m2 = Z.pos p2 * 2 ^ (- e2) →
  Z.pos (digits2_pos m1) = 53 → Z.pos (digits2_pos m2) = 53 →
  e1 < e2 → e2 <= 0 → Z.pos p1 < Z.pos p2.
Proof.
  intros H1 H2 Hd1 Hd2 Hlt He2.
  pose proof (digits2_pos_bound m1) as [_ Hm1]. pose proof (digits2_pos_bound m2) as [Hm2 _].
  rewrite Hd1 in Hm1. rewrite Hd2 in Hm2.
  assert (Hpow : 2 ^ (- e2 + 1) <= 2 ^ (- e1)) by (apply Z.pow_le_mono_r; lia).
  rewrite Z.pow_add_r in Hpow by lia.
  pose proof (Z.pow_pos_nonneg 2 (- e2) ltac:(lia) ltac:(lia)). nia.
Qed.

Lemma f64_compare_of_Z a b :
  0 <= a < 2 ^ 53 → 0 <= b < 2 ^ 53 →
  SFcompare (f64_of_Z a) (f64_of_Z b) = Some (a ?= b).
Proof.
  intros [Ha0 Ha] [Hb0 Hb]. destruct a as [|p1|]; [|destruct b as [|p2|]|lia];
    [destruct b as [|p2|]; [done| |lia]| | |lia].
  1-2: (match goal with |- context [f64_of_Z (Z.pos ?p)] =>
      destruct (f64_of_Z_normal p ltac:(assumption)) as (m & e & -> & _) end); done.
  destruct (f64_of_Z_normal p1 Ha) as (m1 & e1 & -> & He1 & Hm1 & Hd1).
  destruct (f64_of_Z_normal p2 Hb) as (m2 & e2 & -> & He2 & Hm2 & Hd2). cbn [SFcompare].
  destruct (Z.compare_spec e1 e2) as [->|Hlt|Hlt].
  - change (Some (Z.pos m1 ?= Z.pos m2) = Some (Z.pos p1 ?= Z.pos p2)). f_equal.
    rewrite Hm1, Hm2. pose proof (Z.pow_pos_nonneg 2 (- e2) ltac:(lia) ltac:(lia)).
    destruct (Z.compare_spec (Z.pos p1) (Z.pos p2)) as [->|?|?];
      [apply Z.compare_refl|apply Z.compare_lt_iff; nia|apply Z.compare_gt_iff; nia].
  - f_equal. symmetry. apply Z.compare_lt_iff.
    by apply (normal_lt p1 p2 m1 m2 e1 e2).
  - f_equal. symmetry. apply Z.compare_gt_iff.
    by apply (normal_lt p2 p1 m2 m1 e2 e1).
Qed.

(** Comparing two such integers as [float64] is comparing the integers. *)
Lemma f64_leb_of_Z a b :
  0 <= a < 2 ^ 53 → 0 <= b < 2 ^ 53 →
  f64_leb (f64_of_Z a) (f64_of_Z b) = (a <=? b).
Proof.
  intros Ha Hb. unfold f64_leb, SFleb. rewrite f64_compare_of_Z by done.
  unfold Z.leb. by destruct (a ?= b).
Qed.

Lemma f64_roundtrip `{FloatConv} z :
  0 <= z < 2 ^ 53 → f64_to_u64 (f64_of_Z z) = z.
Proof.
  intros [H0 Hz]. destruct z as [|p|p]; [done| |lia].
  destruct (f64_of_Z_exact p Hz) as (m & e & -> & He & Hm).
  unfold f64_to_u64, f64_trunc.
  assert (Hq : (if e <? 0 then Z.pos m / 2 ^ (- e) else Z.pos m * 2 ^ e)
               = Z.pos p).
  { destruct (Z.ltb_spec e 0).
    - rewrite Hm. apply Z.div_mul. lia.
    - replace e with 0 in * by lia. lia. }
  rewrite Hq. rewrite (proj2 (Z.leb_le 0 _)), (proj2 (Z.ltb_lt _ _)) by lia.
  done.
Qed.

(** ** The order is total away from NaN *)

Lemma f64_compare_antisym a b :
  SFcompare b a = option_map CompOpp (SFcompare a b).
Proof.
  destruct a as [[]|[]| |[] m1 e1], b as [[]|[]| |[] m2 e2]; try done;
    cbn; rewrite (Z.compare_antisym e1 e2);
    change (Pos.compare_cont Eq m1 m2) with (Pos.compare m1 m2);
    change (Pos.compare_cont Eq m2 m1) with (Pos.compare m2 m1);
    rewrite (Pos.compare_antisym m1 m2);
    by destruct (Z.compare e1 e2), (Pos.compare m1 m2).
Qed.

Lemma f64_compare_some a b :
  a ≠ S754_nan → b ≠ S754_nan → is_Some (SFcompare a b).
Proof. intros Ha Hb. destruct a, b; try done; cbn; eauto. Qed.

Lemma f64_leb_not_ltb a b :
  a ≠ S754_nan → b ≠ S754_nan → f64_ltb a b = negb (f64_leb b a).
Proof.
  intros Ha Hb. unfold f64_ltb, f64_leb, SFltb, SFleb.
  rewrite (f64_compare_antisym a b).
  destruct (f64_compare_some a b Ha Hb) as [c ->]. by destruct c.
Qed.
