(* ===== verification/LocalBucket.v ===== *)
(** * LocalBucket: the lock-free local token counter (local.go)

    [LocalBucket] is one atomic [int64].  The first section models each
    method as the atomic operation its callers see; the second models the
    compare-and-swap loop of [TryConsume] instruction by instruction, with any
    number of goroutines interleaved, and shows that the loop implements the
    atomic operation. *)

From S2P Require Export Prelude.

Definition cacheLineSize : Z := 64.

Record LocalBucket := mkLocalBucket { tokens : Z }.

Definition NewLocalBucket (_key : string) (initial : Z) : LocalBucket :=
  mkLocalBucket (to_i64 initial).

(** [TryConsume]: one pass of the loop on the value it loads. *)
Definition TryConsume (n : Z) (b : LocalBucket) : bool * LocalBucket :=
  let in_ := to_i64 n in
  let current := tokens b in
  if current <? in_ then (false, b)
  else (true, mkLocalBucket (to_i64 (current - in_))).

Definition Refill (n : Z) (b : LocalBucket) : LocalBucket :=
  mkLocalBucket (to_i64 (tokens b + to_i64 n)).

Definition Remaining (b : LocalBucket) : Z :=
  let v := tokens b in
  if v <? 0 then 0 else to_u64 v.

Definition Drain (b : LocalBucket) : Z * LocalBucket :=
  let old := tokens b in
  (if old <? 0 then 0 else to_u64 old, mkLocalBucket 0).

(** ** The counter as a non-negative [int64] *)

Definition lb_wf (b : LocalBucket) : Prop := 0 <= tokens b < 2 ^ 63.

Lemma lb_wf_i64 b : lb_wf b → is_i64 (tokens b).
Proof. unfold lb_wf. go_lia. Qed.

Lemma Remaining_wf b : lb_wf b → Remaining b = tokens b.
Proof.
  intros Hb. unfold Remaining, lb_wf in *.
  destruct (Z.ltb_spec (tokens b) 0); [lia|]. apply to_u64_small. go_lia.
Qed.

Lemma Drain_wf b : lb_wf b → Drain b = (tokens b, mkLocalBucket 0).
Proof.
  intros Hb. unfold Drain, lb_wf in *.
  destruct (Z.ltb_spec (tokens b) 0); [lia|]. rewrite to_u64_small; [done|].
  go_lia.
Qed.

(** For a request below [2^63], [TryConsume] compares and subtracts. *)
Lemma TryConsume_spec n b :
  0 <= n < 2 ^ 63 → lb_wf b →
  TryConsume n b =
    if tokens b <? n then (false, b)
    else (true, mkLocalBucket (tokens b - n)).
Proof.
  intros Hn Hb. unfold TryConsume, lb_wf in *.
  rewrite (to_i64_small n) by go_lia.
  destruct (Z.ltb_spec (tokens b) n); [done|].
  rewrite to_i64_small by go_lia. done.
Qed.

Lemma TryConsume_wf n b r b' :
  0 <= n < 2 ^ 63 → lb_wf b → TryConsume n b = (r, b') → lb_wf b'.
Proof.
  intros Hn Hb. rewrite TryConsume_spec by done.
  destruct (Z.ltb_spec (tokens b) n); intros; simplify_eq; [done|].
  unfold lb_wf in *. cbn. lia.
Qed.

Lemma Refill_spec n b :
  0 <= n → 0 <= tokens b → tokens b + n < 2 ^ 63 →
  Refill n b = mkLocalBucket (tokens b + n).
Proof.
  intros. unfold Refill. by rewrite (to_i64_small n), to_i64_small by go_lia.
Qed.

(** ** The compare-and-swap loop, interleaved

    [tc_pc] is the program point of one goroutine inside [TryConsume(n)]. *)

Inductive tc_pc :=
| TCLoad                      (* about to load [b.tokens] *)
| TCCas (current : Z)         (* loaded [current >= in], about to swap *)
| TCDone (result : bool).

Record caller := mkCaller { tc_n : Z; tc_at : tc_pc }.

(** One instruction of a caller against the shared counter. *)
Definition tc_step (t : Z) (c : caller) : option (Z * caller) :=
  let in_ := to_i64 (tc_n c) in
  match tc_at c with
  | TCLoad =>
      if t <? in_ then Some (t, mkCaller (tc_n c) (TCDone false))
      else Some (t, mkCaller (tc_n c) (TCCas t))
  | TCCas current =>
      if t =? current
      then Some (to_i64 (current - in_), mkCaller (tc_n c) (TCDone true))
      else Some (t, mkCaller (tc_n c) TCLoad)
  | TCDone _ => None
  end.

(** The other two writers are single atomic instructions. *)
Inductive lb_step : Z * list caller → Z * list caller → Prop :=
| LB_caller t t' cs i c c' :
    cs !! i = Some c → tc_step t c = Some (t', c') →
    lb_step (t, cs) (t', <[i:=c']> cs)
| LB_enter t cs n :
    lb_step (t, cs) (t, cs ++ [mkCaller n TCLoad])
| LB_refill t cs n :
    lb_step (t, cs) (tokens (Refill n (mkLocalBucket t)), cs)
| LB_drain t cs :
    lb_step (t, cs) (tokens (Drain (mkLocalBucket t)).2, cs).

(** *** The atomic specification: a call happens at one instant *)

Record acaller := mkACaller { ac_n : Z; ac_result : option bool }.

Inductive lb_atomic : Z * list acaller → Z * list acaller → Prop :=
| LA_consume t cs i n r b' :
    cs !! i = Some (mkACaller n None) →
    TryConsume n (mkLocalBucket t) = (r, b') →
    lb_atomic (t, cs) (tokens b', <[i:=mkACaller n (Some r)]> cs)
| LA_enter t cs n :
    lb_atomic (t, cs) (t, cs ++ [mkACaller n None])
| LA_refill t cs n :
    lb_atomic (t, cs) (tokens (Refill n (mkLocalBucket t)), cs)
| LA_drain t cs :
    lb_atomic (t, cs) (tokens (Drain (mkLocalBucket t)).2, cs).

(** What the specification sees of a caller. *)
Definition abs_pc (pc : tc_pc) : option bool :=
  match pc with TCDone r => Some r | _ => None end.
Definition abs_caller (c : caller) : acaller :=
  mkACaller (tc_n c) (abs_pc (tc_at c)).
Definition abs_state (s : Z * list caller) : Z * list acaller :=
  (s.1, abs_caller <$> s.2).

(** A caller at the swap has loaded enough tokens. *)
Definition caller_ok (c : caller) : Prop :=
  match tc_at c with
  | TCCas current => to_i64 (tc_n c) <= current
  | _ => True
  end.

Definition callers_ok (s : Z * list caller) : Prop := Forall caller_ok s.2.

Lemma tc_step_ok t c t' c' :
  caller_ok c → tc_step t c = Some (t', c') → caller_ok c'.
Proof.
  unfold tc_step, caller_ok. intros Hc.
  destruct (tc_at c) as [|current|r]; [..|done].
  - destruct (Z.ltb_spec t (to_i64 (tc_n c))); intros; by simplify_eq/=.
  - destruct (Z.eqb_spec t current); intros; by simplify_eq/=.
Qed.

Lemma lb_step_ok s s' : callers_ok s → lb_step s s' → callers_ok s'.
Proof.
  unfold callers_ok. intros Hok Hs.
  destruct Hs as [t t' cs i c c' Hi Hc| | |]; cbn in *; try done.
  - apply Forall_insert; [done|]. eapply tc_step_ok; [|done].
    by eapply Forall_lookup_1.
  - apply Forall_app. by repeat constructor.
Qed.

(** One instruction is either invisible or the whole atomic call. *)
Lemma lb_step_simulation s s' :
  callers_ok s → lb_step s s' →
  abs_state s' = abs_state s ∨ lb_atomic (abs_state s) (abs_state s').
Proof.
  intros Hok Hs. destruct Hs as [t t' cs i c c' Hi Hc|t cs n| |];
    unfold abs_state; cbn [fst snd].
  - rewrite list_fmap_insert.
    assert (Hai : (abs_caller <$> cs) !! i = Some (abs_caller c))
      by (rewrite list_lookup_fmap, Hi; done).
    assert (Hc0 : caller_ok c) by (by eapply Forall_lookup_1).
    revert Hc. unfold tc_step, caller_ok in *.
    destruct c as [n [|current|r]]; cbn in *; [..|done].
    + destruct (t <? to_i64 n) eqn:E; intros [= <- <-].
      * right. apply (LA_consume t _ i n false (mkLocalBucket t)); [done|].
        unfold TryConsume. cbn. by rewrite E.
      * left. cbn. by rewrite list_insert_id.
    + destruct (Z.eqb_spec t current) as [<-|Hne]; intros [= <- <-].
      * right.
        apply (LA_consume t _ i n true
                 (mkLocalBucket (to_i64 (t - to_i64 n)))); [done|].
        unfold TryConsume. cbn.
        destruct (Z.ltb_spec t (to_i64 n)); [lia|done].
      * left. cbn. by rewrite list_insert_id.
  - right. rewrite fmap_app. constructor.
  - right. constructor.
  - right. constructor.
Qed.

(** C10: the compare-and-swap loop of [LocalBucket.TryConsume] is
    linearizable: every run of interleaved [Load]/[CompareAndSwap]
    instructions of any number of goroutines, with [Refill] and [Drain]
    interleaved, is a run of the specification in which each [TryConsume]
    happens atomically, with the same counter and the same results. *)
Theorem TryConsume_linearizable t cs s' :
  Forall (λ c, tc_at c = TCLoad) cs →
  rtc lb_step (t, cs) s' →
  rtc lb_atomic (abs_state (t, cs)) (abs_state s').
Proof.
  intros Hcs Hrun.
  assert (Hok : callers_ok (t, cs)).
  { unfold callers_ok; cbn. eapply Forall_impl; [exact Hcs|].
    intros c Hc. unfold caller_ok. cbn in Hc. by rewrite Hc. }
  clear Hcs. revert Hok Hrun. generalize (t, cs). intros s0 Hok Hrun.
  induction Hrun as [s|s s1 s2 Hstep Hrun IH]; [done|].
  specialize (IH (lb_step_ok _ _ Hok Hstep)).
  destruct (lb_step_simulation _ _ Hok Hstep) as [Heq|Ha].
  - by rewrite <- Heq.
  - by eapply rtc_l.
Qed.

Lemma TryConsume_linearizable_witness :
  Forall (λ c, tc_at c = TCLoad) [mkCaller 2 TCLoad] ∧
  rtc lb_atomic (abs_state (5, [mkCaller 2 TCLoad]))
                (abs_state (3, [mkCaller 2 (TCDone true)])).
Proof.
  split; [by repeat constructor|].
  apply TryConsume_linearizable; [by repeat constructor|].
  eapply rtc_l; [apply (LB_caller 5 5 _ 0 (mkCaller 2 TCLoad)
                          (mkCaller 2 (TCCas 5))); reflexivity|].
  eapply rtc_l; [apply (LB_caller 5 3 _ 0 (mkCaller 2 (TCCas 5))
                          (mkCaller 2 (TCDone true))); reflexivity|].
  apply rtc_refl.
Defined.

(** *** The loop terminates when nobody interferes *)

Fixpoint tc_run (fuel : nat) (t : Z) (c : caller) : Z * caller :=
  match fuel with
  | O => (t, c)
  | S fuel =>
      match tc_step t c with
      | Some (t', c') => tc_run fuel t' c'
      | None => (t, c)
      end
  end.

Lemma tc_run_solo n t :
  let '(r, b') := TryConsume n (mkLocalBucket t) in
  tc_run 2 t (mkCaller n TCLoad) = (tokens b', mkCaller n (TCDone r)).
Proof.
  unfold TryConsume. cbn.
  destruct (t <? to_i64 n) eqn:E; cbn; [done|].
  rewrite Z.eqb_refl. done.
Qed.

(** A failed swap means another goroutine changed the counter: a caller that
    loaded [t] and still finds [t] swaps. *)
Lemma tc_cas_lock_free n t :
  tc_step t (mkCaller n (TCCas t)) =
    Some (to_i64 (t - to_i64 n), mkCaller n (TCDone true)).
Proof. unfold tc_step. cbn. by rewrite Z.eqb_refl. Qed.

(** ** Requests of [2^63] and more

    [int64(n)] is then negative, so the comparison succeeds and the
    subtraction adds. *)
Lemma try_consume_huge n b :
  2 ^ 63 <= n < 2 ^ 64 → lb_wf b →
  TryConsume n b = (true, mkLocalBucket (to_i64 (tokens b + (2 ^ 64 - n)))).
Proof.
  intros Hn Hb. unfold TryConsume, lb_wf in *.
  rewrite to_i64_wrap by done.
  destruct (Z.ltb_spec (tokens b) (n - 2 ^ 64)); [lia|].
  do 3 f_equal. lia.
Qed.

(** C31: what [TryConsume] does on every [uint64].  Below [2^63] it is the
    comparison and subtraction it reads as: it succeeds exactly when the
    tokens are there, takes exactly [n], and leaves a failed bucket alone;
    the counter stays a non-negative [int64].  From [2^63] on it always
    succeeds, and adds [2^64 - n] tokens. *)
Theorem TryConsume_behaviour n b :
  is_u64 n → lb_wf b →
  let '(ok, b') := TryConsume n b in
  (n < 2 ^ 63 →
     (ok = true ↔ n <= tokens b) ∧
     tokens b' = (if ok then tokens b - n else tokens b) ∧ lb_wf b') ∧
  (2 ^ 63 <= n → ok = true ∧ tokens b' = to_i64 (tokens b + (2 ^ 64 - n))).
Proof.
  intros Hn Hb. unfold is_u64 in Hn. destruct (decide (n < 2 ^ 63)) as [Hs|Hs].
  - destruct (TryConsume n b) as [ok b'] eqn:E.
    pose proof (TryConsume_wf n b ok b' ltac:(lia) Hb E).
    rewrite TryConsume_spec in E by (try done; lia).
    destruct (Z.ltb_spec (tokens b) n); simplify_eq/=; (split; [intros _|lia]);
      (split; [split; (done || lia)|split; (done || lia)]).
  - rewrite try_consume_huge by (try done; lia). split; [lia|done].
Qed.

Lemma TryConsume_behaviour_witness :
  let '(ok, b') := TryConsume (2 ^ 64 - 7) (mkLocalBucket 5) in
  ok = true ∧ tokens b' = to_i64 (5 + (2 ^ 64 - (2 ^ 64 - 7))).
Proof.
  assert (Hn : is_u64 (2 ^ 64 - 7)) by (unfold is_u64; lia).
  assert (Hb : lb_wf (mkLocalBucket 5)) by (unfold lb_wf; cbn [tokens]; lia).
  generalize (TryConsume_behaviour (2 ^ 64 - 7) (mkLocalBucket 5) Hn Hb).
  destruct (TryConsume (2 ^ 64 - 7) (mkLocalBucket 5)) as [ok b'].
  intros [_ H]. apply H. lia.
Defined.
