(* ===== verification/Window.v ===== *)
(** * Window: the rate-limit window of a bucket (window.go) *)

From S2P Require Export Prelude.

Record Window := mkWindow {
  windowType : WindowType;
  w_limit : Z;          (* [limit uint64] *)
  windowMs : Z;         (* [windowMs int64] *)
  windowSize : Z;       (* [windowSize time.Duration] *)
  windowStart : Z;      (* [windowStart atomic.Int64] *)
}.

Definition NewWindow (wt : WindowType) (size limit : Z) : Window :=
  mkWindow wt limit (Milliseconds size) size 0.

Definition NeedsReset (w : Window) (nowUnixMs : Z) : bool :=
  to_i64 (windowStart w + windowMs w) <=? nowUnixMs.

Definition UpdateWindowStart (startMs : Z) (w : Window) : Window :=
  mkWindow (windowType w) (w_limit w) (windowMs w) (windowSize w) startMs.

Definition WindowStartMs (w : Window) : Z := windowStart w.
Definition Limit (w : Window) : Z := w_limit w.
Definition WindowSize (w : Window) : Z := windowSize w.

(** [EffectiveLimit]: the sliding branch weighs the previous window by the
    elapsed fraction, in [int64] arithmetic; the division truncates. *)
Definition EffectiveLimit (w : Window) (elapsedMs windowMs prevCount currCount : Z)
  : Z :=
  match windowType w with
  | Sliding =>
      if windowMs <=? 0 then 0
      else
        let slidingPrev :=
          to_u64 (Z.quot (to_i64 (to_i64 prevCount * elapsedMs)) windowMs) in
        let effective := to_u64 (slidingPrev + currCount) in
        if w_limit w <=? effective then 0
        else to_u64 (w_limit w - effective)
  | Fixed =>
      if w_limit w <=? currCount then 0
      else to_u64 (w_limit w - currCount)
  end.

(** [EffectiveLimit] never exceeds the configured limit, whatever the
    counters and whatever wraps. *)
Lemma EffectiveLimit_bound w e wm p c :
  is_u64 (w_limit w) → is_u64 c →
  0 <= EffectiveLimit w e wm p c <= w_limit w.
Proof.
  intros Hl Hc. unfold EffectiveLimit.
  destruct (windowType w).
  - destruct (Z.leb_spec (w_limit w) c); [go_lia|].
    rewrite to_u64_small by go_lia. go_lia.
  - destruct (wm <=? 0); [go_lia|].
    set (eff := to_u64 _).
    assert (is_u64 eff) by apply to_u64_range.
    destruct (Z.leb_spec (w_limit w) eff); [go_lia|].
    rewrite to_u64_small by go_lia. go_lia.
Qed.

(** In the range where nothing wraps, the sliding branch is the textbook
    weighted count. *)
Lemma EffectiveLimit_sliding w e wm p c :
  windowType w = Sliding → 0 < wm → 0 <= e → 0 <= p → p * e < 2 ^ 63 →
  0 <= c → p * e / wm + c < 2 ^ 63 → is_u64 (w_limit w) →
  EffectiveLimit w e wm p c = Z.max 0 (w_limit w - (p * e / wm + c)).
Proof.
  intros Hw Hwm He Hp Hpe Hc Hs Hl. unfold EffectiveLimit. rewrite Hw.
  destruct (Z.leb_spec wm 0); [lia|].
  assert (0 <= p * e) by nia.
  assert (0 <= p * e / wm) by (apply Z.div_pos; lia).
  assert (Heff : to_u64 (to_u64 (Z.quot (to_i64 (to_i64 p * e)) wm) + c)
                 = p * e / wm + c).
  { destruct (Z.eq_dec e 0) as [->|].
    - rewrite !Z.mul_0_r in *. cbn [Z.div Z.div_eucl] in *.
      change (to_i64 0) with 0. rewrite Z.quot_0_l by lia.
      change (to_u64 0) with 0. rewrite Z.div_0_l by lia.
      apply to_u64_small. rewrite Z.div_0_l in Hs by lia. go_lia.
    - assert (p < 2 ^ 63) by nia.
      rewrite (to_i64_small p) by go_lia.
      rewrite to_i64_small by go_lia.
      rewrite Z.quot_div_nonneg by lia.
      rewrite (to_u64_small (p * e / wm)) by go_lia.
      apply to_u64_small. go_lia. }
  rewrite Heff. destruct (Z.leb_spec (w_limit w) (p * e / wm + c)); [lia|].
  rewrite to_u64_small by go_lia. lia.
Qed.

(** A fresh window is due for a reset at every time of the epoch from its
    own length on. *)
Lemma NewWindow_NeedsReset wt size limit now :
  is_i64 (Milliseconds size) → Milliseconds size <= now →
  NeedsReset (NewWindow wt size limit) now = true.
Proof.
  intros Hs Hn. unfold NeedsReset, NewWindow. cbn.
  rewrite to_i64_small by done. by apply Z.leb_le.
Qed.

Lemma NeedsReset_after_update w start now :
  is_i64 (start + windowMs w) →
  NeedsReset (UpdateWindowStart start w) now = (start + windowMs w <=? now).
Proof.
  intros H. unfold NeedsReset, UpdateWindowStart. cbn.
  by rewrite to_i64_small.
Qed.

(** C32: the remaining allowance.  [EffectiveLimit] is between 0 and the
    limit whatever the counters are and whatever wraps; on a fixed window it
    is the limit less the current count, and on a sliding window, where
    nothing overflows, the limit less the current count and the elapsed
    share of the previous one, cut off at 0. *)
Theorem EffectiveLimit_spec w e wm p c :
  is_u64 (w_limit w) → is_u64 c →
  0 <= EffectiveLimit w e wm p c <= w_limit w ∧
  (windowType w = Fixed → EffectiveLimit w e wm p c = Z.max 0 (w_limit w - c)) ∧
  (windowType w = Sliding → 0 < wm → 0 <= e → 0 <= p → p * e < 2 ^ 63 →
   p * e / wm + c < 2 ^ 63 →
   EffectiveLimit w e wm p c = Z.max 0 (w_limit w - (p * e / wm + c))).
Proof.
  intros Hl Hc. split; [by apply EffectiveLimit_bound|]. split.
  - intros Hw. unfold EffectiveLimit. rewrite Hw.
    destruct (Z.leb_spec (w_limit w) c); [lia|].
    rewrite to_u64_small by go_lia. go_lia.
  - intros. apply EffectiveLimit_sliding; try done. go_lia.
Qed.

Lemma EffectiveLimit_spec_witness :
  EffectiveLimit (NewWindow Sliding Second 100) 250 1000 80 30 = 50.
Proof.
  apply (EffectiveLimit_spec (NewWindow Sliding Second 100) 250 1000 80 30);
    (reflexivity || discriminate || (split; (reflexivity || discriminate))).
Defined.
