(* ===== verification/Bucket.v ===== *)
(** * Bucket: the per-key state of one instance (bucket.go, eviction.go)

    A [bucket] bundles the local counter, the window and the atomic flags of
    a key; each method is one atomic operation on it.  The mutex [mu] that
    [resetWindow] holds is a boolean. *)

From S2P Require Export GoFloat LocalBucket Window.

Record bucket := mkBucket {
  b_mu : bool;
  b_local : LocalBucket;
  b_window : Window;
  b_key : string;
  b_consumed : Z;          (* atomic.Uint64 *)
  b_lastAccess : Z;        (* atomic.Int64, Unix milliseconds *)
  b_redisExhausted : bool;
  b_preBorrowing : bool;
}.

(** [newBucket]; [now] is the [time.Now()] it reads. *)
Definition newBucket (key : string) (limit : Z) (wt : WindowType)
    (size now : Z) : bucket :=
  mkBucket false (NewLocalBucket key 0) (NewWindow wt size limit) key 0
    (UnixMilli now) false false.

Definition with_local (l : LocalBucket) (b : bucket) : bucket :=
  mkBucket (b_mu b) l (b_window b) (b_key b) (b_consumed b) (b_lastAccess b)
    (b_redisExhausted b) (b_preBorrowing b).
Definition with_window (w : Window) (b : bucket) : bucket :=
  mkBucket (b_mu b) (b_local b) w (b_key b) (b_consumed b) (b_lastAccess b)
    (b_redisExhausted b) (b_preBorrowing b).
Definition with_consumed (c : Z) (b : bucket) : bucket :=
  mkBucket (b_mu b) (b_local b) (b_window b) (b_key b) c (b_lastAccess b)
    (b_redisExhausted b) (b_preBorrowing b).
Definition with_mu (m : bool) (b : bucket) : bucket :=
  mkBucket m (b_local b) (b_window b) (b_key b) (b_consumed b)
    (b_lastAccess b) (b_redisExhausted b) (b_preBorrowing b).
Definition with_redisExhausted (f : bool) (b : bucket) : bucket :=
  mkBucket (b_mu b) (b_local b) (b_window b) (b_key b) (b_consumed b)
    (b_lastAccess b) f (b_preBorrowing b).
Definition with_preBorrowing (f : bool) (b : bucket) : bucket :=
  mkBucket (b_mu b) (b_local b) (b_window b) (b_key b) (b_consumed b)
    (b_lastAccess b) (b_redisExhausted b) f.

Definition updateAccess (nowUnixMs : Z) (b : bucket) : bucket :=
  mkBucket (b_mu b) (b_local b) (b_window b) (b_key b) (b_consumed b)
    nowUnixMs (b_redisExhausted b) (b_preBorrowing b).
Definition getLastAccess (b : bucket) : Z := b_lastAccess b.

Definition tryConsume (n : Z) (b : bucket) : bool * bucket :=
  let '(r, l) := TryConsume n (b_local b) in (r, with_local l b).
Definition refill (n : Z) (b : bucket) : bucket :=
  with_local (Refill n (b_local b)) b.
Definition needsReset (nowUnixMs : Z) (b : bucket) : bool :=
  NeedsReset (b_window b) nowUnixMs.
Definition remaining (b : bucket) : Z := Remaining (b_local b).
Definition drain (b : bucket) : Z * bucket :=
  let '(v, l) := Drain (b_local b) in (v, with_local l b).

Definition MarkRedisExhausted (b : bucket) : bucket := with_redisExhausted true b.
Definition ClearRedisExhausted (b : bucket) : bucket := with_redisExhausted false b.
Definition IsRedisExhausted (b : bucket) : bool := b_redisExhausted b.

(** [CompareAndSwap(false, true)]. *)
Definition TryMarkPreBorrowing (b : bucket) : bool * bucket :=
  if b_preBorrowing b then (false, b) else (true, with_preBorrowing true b).
Definition ClearPreBorrowing (b : bucket) : bucket := with_preBorrowing false b.
Definition isPreBorrowing (b : bucket) : bool := b_preBorrowing b.

Definition belowPreBorrowThreshold `{FloatConv} (minBorrow : Z)
    (threshold : float64) (b : bucket) : bool :=
  let trigger := f64_to_u64 (f64_mul (f64_of_Z minBorrow) threshold) in
  let trigger := if trigger =? 0 then 1 else trigger in
  remaining b <? trigger.

Definition recordConsumption (n : Z) (b : bucket) : bucket :=
  with_consumed (to_u64 (b_consumed b + n)) b.
Definition getConsumed (b : bucket) : Z := b_consumed b.
Definition resetConsumed (b : bucket) : bucket := with_consumed 0 b.

(** ** Eviction policies

    [EvictionPolicy] is a Go interface with one method. *)

Class EvictionPolicy := { ShouldEvict : bucket → Z → bool }.

Record IdleEvictionPolicy := mkIdle { idleTimeout : Z }.

Definition NewIdleEvictionPolicy (timeout : Z) : IdleEvictionPolicy :=
  mkIdle (if timeout <=? 0 then 60 * Second else timeout).

Definition Idle_ShouldEvict (p : IdleEvictionPolicy) (b : bucket) (nowMs : Z)
  : bool :=
  let idleFor := to_i64 (to_i64 (nowMs - getLastAccess b) * Millisecond) in
  idleTimeout p <? idleFor.

Definition idle_policy (p : IdleEvictionPolicy) : EvictionPolicy :=
  {| ShouldEvict := Idle_ShouldEvict p |}.

(** [NewJanitor]'s interval; [Start] calls the eviction function on every
    tick, which the limiter model does as one of its steps. *)
Definition NewJanitor_interval (interval : Z) : Z :=
  if interval <=? 0 then 10 * Second else interval.

(** ** The token view of a bucket *)

Definition b_tokens (b : bucket) : Z := tokens (b_local b).

Lemma tryConsume_false n b b' : tryConsume n b = (false, b') → b' = b.
Proof.
  unfold tryConsume, TryConsume.
  destruct (tokens (b_local b) <? to_i64 n); intros; simplify_eq.
  by destruct b.
Qed.

Lemma tryConsume_key n b r b' : tryConsume n b = (r, b') → b_key b' = b_key b.
Proof.
  unfold tryConsume. destruct (TryConsume n (b_local b)). intros.
  by simplify_eq.
Qed.

(** A pre-borrow is claimed by one goroutine at a time. *)
Lemma TryMarkPreBorrowing_exclusive b r b' :
  TryMarkPreBorrowing b = (r, b') →
  (r = negb (b_preBorrowing b)) ∧ b_preBorrowing b' = true ∧
  (TryMarkPreBorrowing b').1 = false.
Proof.
  unfold TryMarkPreBorrowing. destruct (b_preBorrowing b) eqn:E;
    intros; simplify_eq; cbn; rewrite ?E; done.
Qed.

(** The default threshold trigger: with at least one token left the trigger
    never fires below one token, and an empty bucket always fires. *)
Lemma belowPreBorrowThreshold_empty `{FloatConv} mb th b :
  remaining b = 0 → belowPreBorrowThreshold mb th b = true.
Proof.
  intros Hr. unfold belowPreBorrowThreshold. rewrite Hr. cbv zeta.
  pose proof (f64_to_u64_range (f64_mul (f64_of_Z mb) th)) as Hu.
  destruct (Z.eqb_spec (f64_to_u64 (f64_mul (f64_of_Z mb) th)) 0); [done|].
  apply Z.ltb_lt. go_lia.
Qed.

(** [ShouldEvict] in the range of realistic clocks: strictly more than the
    timeout since the last access. *)
Lemma Idle_ShouldEvict_spec p b nowMs :
  0 <= nowMs - getLastAccess b → (nowMs - getLastAccess b) * Millisecond < 2 ^ 63 →
  Idle_ShouldEvict p b nowMs = true ↔
  idleTimeout p < (nowMs - getLastAccess b) * Millisecond.
Proof.
  intros H0 H1. unfold Idle_ShouldEvict, Millisecond in *.
  rewrite (to_i64_small (nowMs - _)) by go_lia.
  rewrite to_i64_small by go_lia. apply Z.ltb_lt.
Qed.
