(* ===== verification/Go.v ===== *)
(** * Go: goroutines over shared state, and a credit logic for them

    [go S A] is the code of a goroutine over shared state [S] that returns an
    [A]: a sequence of atomic actions.  A [Step] reads and writes the state at
    one instant and may block (a held mutex, an empty channel); [Ask] takes an
    answer from outside the program (the clock, the network, another caller of
    a singleflight group); [Fork] is the [go] statement; [Panic] a run-time
    panic.  [exec] runs a goroutine alone; [pool_step] interleaves any number
    of them, one action at a time.

    [wp p c Q] is a program logic with credits: [p], started with [c] credits,
    never gives out more than it was given or the state released, and ends
    with a result and credits in [Q].  [pool_safe] lifts it to every
    interleaving. *)

From S2P Require Export Prelude.

(** ** What a goroutine may ask of its environment *)

(** The errors the program returns: its own sentinels and messages. *)
Inductive error :=
| ErrPoolExhausted | ErrNoPeerTokens | ErrGlobalLimit | ErrInstanceExists
| ErrKeyNotFound | ErrClosed | ErrCycle
| ErrMsg (msg : string)
| ErrWrap (prefix : string) (e : error).

#[export] Instance error_eq_dec : EqDecision error.
Proof. solve_decision. Defined.

(** [err.Error()]. *)
Fixpoint err_Error (e : error) : string :=
  match e with
  | ErrPoolExhausted => "krate: redis pool exhausted"
  | ErrNoPeerTokens => "krate: no peer tokens available"
  | ErrGlobalLimit => "krate: global rate limit reached"
  | ErrInstanceExists => "krate: instance already registered"
  | ErrKeyNotFound => "krate: rate limit key not found"
  | ErrClosed => "krate: limiter is closed"
  | ErrCycle => "krate: request cycle detected"
  | ErrMsg m => m
  | ErrWrap p e => p +:+ ": " +:+ err_Error e
  end.

(** How a command sent to the Redis server ends. *)
Inductive transport :=
| TOk                        (* executed, the reply arrived *)
| TNotRun (e : error)        (* not executed: NOSCRIPT, refused, timed out *)
| TReplyLost (e : error).    (* executed, the client saw an error *)

(** How a call to a peer ends. *)
Inductive rpc_end :=
| ROk                        (* the handler ran, the response arrived *)
| RRefused (e : error)       (* the handler never ran *)
| RAbandoned (e : error).    (* the caller gave up, the handler still runs *)

(** [question X] is a question with an answer in [X]. *)
Inductive question : Type → Type :=
| QNow : question Z                                   (* [time.Now()] *)
| QShared (key : string) : question (option (Z * option error))
    (* singleflight: the result of a call already in flight, if any *)
| QTransport : question transport
| QRpc : question rpc_end
| QCtxErr : question (option error)                   (* [ctx.Err()] *)
| QSelect : question bool                 (* which ready case a [select] takes *)
| QOrder : question (∀ A, list A → list A)            (* map iteration *)
| QRand (n : Z) : question Z.             (* a random number below [n] *)

(** The promises an answer makes: a map iteration visits each entry once, and
    a random number is in its range. *)
Definition valid_answer {X} (q : question X) : X → Prop :=
  match q with
  | QOrder => λ f, ∀ A (l : list A), f A l ≡ₚ l
  | QRand n => λ x, 0 < n → 0 <= x < n
  | _ => λ _, True
  end.

(** ** Programs *)

Inductive go (S : Type) (A : Type) : Type :=
| Ret (a : A)
| Step {X : Type} (f : S → option (X * S)) (k : X → go S A)
| Ask {X : Type} (q : question X) (k : X → go S A)
| Fork (t : go S unit) (k : go S A)
| Panic (msg : string).
Arguments Ret {S A} a.
Arguments Step {S A X} f k.
Arguments Ask {S A X} q k.
Arguments Fork {S A} t k.
Arguments Panic {S A} msg.

Fixpoint bind {S A B : Type} (p : go S A) (k : A → go S B) : go S B :=
  match p with
  | Ret a => k a
  | Step f h => Step f (λ x, bind (h x) k)
  | Ask q h => Ask q (λ x, bind (h x) k)
  | Fork t h => Fork t (bind h k)
  | Panic m => Panic m
  end.

Declare Scope go_scope.
Delimit Scope go_scope with go.
Notation "'do!' x <- p ; k" := (bind p (λ x, k))
  (at level 10, x pattern, p at level 100, k at level 200) : go_scope.
Notation "p ;;; k" := (bind p (λ _, k))
  (at level 100, k at level 200, right associativity) : go_scope.
#[global] Open Scope go_scope.

Section actions.
Context {S : Type}.

(** Read and write the state at one instant. *)
Definition atomically {X} (f : S → X * S) : go S X :=
  Step (λ s, Some (f s)) Ret.
Definition modify (f : S → S) : go S unit := atomically (λ s, (tt, f s)).
Definition reads {X} (f : S → X) : go S X := atomically (λ s, (f s, s)).
(** Wait until [f] is enabled. *)
Definition await {X} (f : S → option (X * S)) : go S X := Step f Ret.
Definition ask {X} (q : question X) : go S X := Ask q Ret.
Definition fork (t : go S unit) : go S unit := Fork t (Ret tt).

(** [time.NewTicker]; when it ticks is a question of the loop that reads it. *)
Definition NewTicker (d : Z) : go S unit :=
  if d <=? 0 then Panic "non-positive interval for NewTicker" else Ret tt.

(** [for _, x := range l]. *)
Fixpoint for_each {A} (f : A → go S unit) (l : list A) : go S unit :=
  match l with
  | [] => Ret tt
  | x :: l => f x ;;; for_each f l
  end.
End actions.

(** ** Running one goroutine alone

    [env] answers the questions in order; the goroutines it starts are
    returned, not run. *)

Inductive outcome (S A : Type) :=
| Done (a : A) (s : S) (forked : list (go S unit)) (asked : nat)
| Blocked
| Panicked (msg : string).
Arguments Done {S A} a s forked asked.
Arguments Blocked {S A}.
Arguments Panicked {S A} msg.

Definition environment := ∀ X, question X → nat → X.

(** An environment in which nothing fails and nobody interferes. *)
Definition clock_env (t : Z) : environment := λ X q _,
  match q in question X return X with
  | QNow => t | QShared _ => None | QTransport => TOk | QRpc => ROk
  | QCtxErr => None | QSelect => true | QOrder => λ _ l, l
  | QRand _ => 0
  end.

Fixpoint exec {S A : Type} (env : environment) (i : nat) (p : go S A) (s : S)
  : outcome S A :=
  match p with
  | Ret a => Done a s [] i
  | Step f k =>
      match f s with
      | Some (x, s') => exec env i (k x) s'
      | None => Blocked
      end
  | Ask q k => exec env (Datatypes.S i) (k (env _ q i)) s
  | Fork t k =>
      match exec env i k s with
      | Done a s' fs j => Done a s' (t :: fs) j
      | o => o
      end
  | Panic m => Panicked m
  end.

Definition push_forks {S A} (fs : list (go S unit)) (o : outcome S A)
  : outcome S A :=
  match o with
  | Done a s fs' j => Done a s (fs ++ fs') j
  | _ => o
  end.

Lemma push_forks_nil {S A} (o : outcome S A) : push_forks [] o = o.
Proof. by destruct o. Qed.

Lemma exec_bind {S A} env (p : go S A) :
  ∀ B (k : A → go S B) i s,
  exec env i (bind p k) s =
    match exec env i p s with
    | Done a s' fs j => push_forks fs (exec env j (k a) s')
    | Blocked => Blocked
    | Panicked m => Panicked m
    end.
Proof.
  induction p as [A a|A X f h IH|A X q h IH|A t _ h IH|A m]; intros B k i s;
    cbn [bind exec].
  - by rewrite push_forks_nil.
  - destruct (f s) as [[x s']|]; [apply IH|done].
  - apply IH.
  - rewrite IH. destruct (exec env i h s) as [a s' fs j| |m]; [|done..].
    cbn. by destruct (exec env j (k a) s').
  - done.
Qed.

(** A loop that re-establishes [I] of what is left to visit ends with [I] of
    nothing left. *)
Lemma exec_for_each {S A} env (f : A → go S unit) (I : list A → S → Prop) :
  (∀ x l i s, I (x :: l) s →
     ∃ s' fs j, exec env i (f x) s = Done tt s' fs j ∧ I l s') →
  ∀ l i s, I l s →
  ∃ s' fs j, exec env i (for_each f l) s = Done tt s' fs j ∧ I [] s'.
Proof.
  intros Hf l. induction l as [|x l IH]; intros i s Hs; cbn [for_each].
  - by exists s, [], i.
  - destruct (Hf x l i s Hs) as (s1 & fs1 & j1 & H1 & Hs1).
    destruct (IH j1 s1 Hs1) as (s2 & fs2 & j2 & H2 & Hs2).
    rewrite exec_bind, H1, H2. cbn. eauto.
Qed.

(** ** Goroutines interleaved *)

Section pool.
Context {S : Type}.

(** One action of a goroutine: the rest of it, the new state and the
    goroutines it started. *)
Definition thread_step (p : go S unit) (s : S)
    (p' : go S unit) (s' : S) (fs : list (go S unit)) : Prop :=
  match p with
  | Ret _ | Panic _ => False
  | Step f k => ∃ x, f s = Some (x, s') ∧ p' = k x ∧ fs = []
  | Ask q k => ∃ x, valid_answer q x ∧ p' = k x ∧ s' = s ∧ fs = []
  | Fork t k => p' = k ∧ s' = s ∧ fs = [t]
  end.

(** A configuration: the goroutines and the shared state. *)
Definition conf : Type := list (go S unit) * S.

(** [entry] is the code anybody may start at any time; [env_step] what
    happens to the state outside the program. *)
Context (entry : go S unit → Prop) (env_step : S → S → Prop).

Inductive pool_step : conf → conf → Prop :=
| PS_thread ts s i p p' s' fs :
    ts !! i = Some p → thread_step p s p' s' fs →
    pool_step (ts, s) (<[i:=p']> ts ++ fs, s')
| PS_spawn ts s p :
    entry p → pool_step (ts, s) (ts ++ [p], s)
| PS_env ts s s' :
    env_step s s' → pool_step (ts, s) (ts, s').
End pool.

(** ** The credit logic *)

Fixpoint zsum (l : list Z) : Z :=
  match l with [] => 0 | x :: l => x + zsum l end.

Lemma zsum_app l1 l2 : zsum (l1 ++ l2) = zsum l1 + zsum l2.
Proof. induction l1 as [|x l1 IH]; cbn; [done|]. rewrite IH. lia. Qed.

Lemma zsum_nonneg l : Forall (λ c, 0 <= c) l → 0 <= zsum l.
Proof. induction 1; cbn; lia. Qed.

Lemma zsum_perm l1 l2 : l1 ≡ₚ l2 → zsum l1 = zsum l2.
Proof. induction 1; cbn; lia. Qed.

Lemma zsum_join {A} (f : A → Z) ls :
  zsum (f <$> mjoin ls) = zsum ((λ l, zsum (f <$> l)) <$> ls).
Proof.
  induction ls as [|l ls IH]; [done|].
  change (zsum (f <$> l ++ mjoin ls) = zsum (f <$> l) + zsum ((λ l, zsum (f <$> l)) <$> ls)).
  by rewrite fmap_app, zsum_app, IH.
Qed.

Lemma zsum_bind {A B} (f : B → Z) (g : A → list B) l :
  zsum (f <$> (l ≫= g)) = zsum ((λ x, zsum (f <$> g x)) <$> l).
Proof.
  induction l as [|x l IH]; [done|]. rewrite bind_cons, fmap_app, zsum_app, IH. done.
Qed.

Lemma zsum_le {A} (f g : A → Z) l :
  (∀ x, x ∈ l → f x <= g x) → zsum (f <$> l) <= zsum (g <$> l).
Proof.
  induction l as [|x l IH]; intros H; cbn; [done|].
  pose proof (H x ltac:(by left)). enough (zsum (f <$> l) <= zsum (g <$> l)) by lia.
  apply IH. intros y Hy. apply H. by right.
Qed.

Lemma zsum_insert l i c c' :
  l !! i = Some c → zsum (<[i:=c']> l) = zsum l - c + c'.
Proof.
  revert i. induction l as [|x l IH]; intros [|i] Hi; simplify_eq/=; [lia|].
  change (x + zsum (<[i:=c']> l) = x + zsum l - c + c').
  rewrite (IH i Hi). lia.
Qed.

Section wp.
Context {S : Type}.
(** [Inv] holds of every reachable state; [Lim] restricts the runs under
    consideration (a bound under which nothing overflows); [Φ] is what the
    state still holds in reserve for the goroutines. *)
Context (Inv Lim : S → Prop) (Φ : S → Z).

Fixpoint wp {A : Type} (p : go S A) (c : Z) (Q : A → Z → Prop) {struct p} : Prop :=
  match p with
  | Ret a => λ Q, Q a c
  | Step f k => λ Q,
      ∀ s x s', Inv s → Lim s → Lim s' → c <= Φ s → f s = Some (x, s') →
        Inv s' ∧ ∃ c', 0 <= c' ∧ c' <= c + Φ s' - Φ s ∧ wp (k x) c' Q
  | Ask q k => λ Q, ∀ x, valid_answer q x → wp (k x) c Q
  | Fork t k => λ Q,
      ∃ c1 c2, 0 <= c1 ∧ 0 <= c2 ∧ c1 + c2 <= c ∧
        wp t c1 (λ _ _, True) ∧ wp k c2 Q
  | Panic _ => λ _, True
  end Q.

(** Frame and consequence in one rule. *)
Lemma wp_frame {A} (p : go S A) :
  ∀ c d Q (Q' : A → Z → Prop),
  0 <= d → (∀ a c', Q a c' → Q' a (c' + d)) →
  wp p c Q → wp p (c + d) Q'.
Proof.
  induction p as [A a|A X f k IH|A X q k IH|A t IHt k IH|A m];
    intros c d Q Q' Hd HQ; cbn.
  - apply HQ.
  - intros H s x s' Hi Hl Hl' HΦ Hf.
    destruct (H s x s' Hi Hl Hl' ltac:(lia) Hf) as (Hi' & c' & H0 & Hc & Hw).
    split; [done|]. exists (c' + d). repeat split; [lia|lia|].
    by eapply IH.
  - intros H x Hx. eapply IH; eauto.
  - intros (c1 & c2 & H1 & H2 & Hc & Ht & Hk).
    exists c1, (c2 + d). repeat split; [done|lia|lia|done|].
    by eapply IH.
  - done.
Qed.

Lemma wp_mono {A} (p : go S A) c (Q Q' : A → Z → Prop) :
  (∀ a c', Q a c' → Q' a c') → wp p c Q → wp p c Q'.
Proof.
  intros HQ H. rewrite <- (Z.add_0_r c).
  eapply wp_frame; [done| |exact H]. intros a c' Ha.
  rewrite Z.add_0_r. by apply HQ.
Qed.

(** Credits may be kept aside. *)
Lemma wp_weaken {A} (p : go S A) c c' (Q Q' : A → Z → Prop) :
  c <= c' → (∀ a d, Q a d → Q' a (d + (c' - c))) →
  wp p c Q → wp p c' Q'.
Proof.
  intros Hc HQ H. replace c' with (c + (c' - c)) by lia.
  eapply wp_frame; [lia|exact HQ|exact H].
Qed.

Lemma wp_bind {A} (p : go S A) :
  ∀ B (k : A → go S B) c Q,
  wp p c (λ a c', wp (k a) c' Q) → wp (bind p k) c Q.
Proof.
  induction p as [A a|A X f h IH|A X q h IH|A t IHt h IH|A m];
    intros B k c Q; cbn.
  - done.
  - intros H s x s' Hi Hl Hl' HΦ Hf.
    destruct (H s x s' Hi Hl Hl' HΦ Hf) as (Hi' & c' & H0 & Hc & Hw).
    split; [done|]. exists c'. eauto.
  - intros H x Hx. eauto.
  - intros (c1 & c2 & H1 & H2 & Hc & Ht & Hk).
    exists c1, c2. eauto 10.
  - done.
Qed.

(** The rules of the derived actions. *)
Lemma wp_atomically {A} (f : S → A * S) c Q :
  (∀ s, Inv s → Lim s → Lim (f s).2 → c <= Φ s →
     Inv (f s).2 ∧
     ∃ c', 0 <= c' ∧ c' <= c + Φ (f s).2 - Φ s ∧ Q (f s).1 c') →
  wp (atomically f) c Q.
Proof.
  cbn. intros H s x s' Hi Hl Hl' HΦ [= Hf].
  specialize (H s). rewrite Hf in H. cbn in H. by apply H.
Qed.

Lemma wp_reads {A} (f : S → A) c Q :
  0 <= c → (∀ s, Inv s → Lim s → Q (f s) c) → wp (reads f) c Q.
Proof.
  intros Hc HQ. apply wp_atomically. cbn. intros s Hi Hl _ _.
  split; [done|]. exists c. repeat split; [done|lia|by apply HQ].
Qed.

(** A state change that neither uses nor frees credits. *)
Lemma wp_modify_neutral (f : S → S) c Q :
  0 <= c →
  (∀ s, Inv s → Lim s → Lim (f s) → Inv (f s) ∧ Φ s <= Φ (f s)) →
  Q tt c → wp (modify f) c Q.
Proof.
  intros Hc Hf HQ. apply wp_atomically. cbn. intros s Hi Hl Hl' _.
  destruct (Hf s Hi Hl Hl') as [Hi' HΦ].
  split; [done|]. exists c. repeat split; [done|lia|done].
Qed.

Lemma wp_ask {X} (q : question X) c Q :
  (∀ x, valid_answer q x → Q x c) → wp (ask q) c Q.
Proof. done. Qed.

Lemma wp_fork (t : go S unit) c Q :
  0 <= c → wp t 0 (λ _ _, True) → Q tt c → wp (fork t) c Q.
Proof. intros. exists 0, c. repeat split; [done|done|lia|done|done]. Qed.

Lemma wp_for_each {A} (f : A → go S unit) l c (Q : unit → Z → Prop) :
  (∀ x, x ∈ l → wp (f x) c (λ _ c', c' = c)) → Q tt c →
  wp (for_each f l) c Q.
Proof.
  intros Hf HQ. induction l as [|x l IH]; cbn [for_each]; [done|].
  apply wp_bind. eapply wp_mono; [|apply Hf; constructor].
  cbn. intros _ ? ->. apply IH. intros y Hy. apply Hf. by constructor.
Qed.

(** *** Soundness *)

Definition threads_ok (ts : list (go S unit)) (cs : list Z) : Prop :=
  Forall2 (λ p c, 0 <= c ∧ wp p c (λ _ _, True)) ts cs.

Definition conf_ok (x : @conf S) : Prop :=
  Inv x.2 ∧ ∃ cs, threads_ok x.1 cs ∧ zsum cs <= Φ x.2.

Lemma threads_ok_credit ts cs i c :
  threads_ok ts cs → cs !! i = Some c → c <= zsum cs.
Proof.
  intros Hts Hi. assert (Hf : Forall (λ c, 0 <= c) cs).
  { eapply Forall2_Forall_r; [exact Hts|]. apply Forall_true. naive_solver. }
  apply list_elem_of_lookup_2, list_elem_of_split in Hi as (l1 & l2 & ->).
  apply Forall_app in Hf as [H1 H2]. apply Forall_cons in H2 as [H2 H3].
  apply zsum_nonneg in H1, H3. rewrite zsum_app. cbn. lia.
Qed.

Lemma thread_step_wp p s p' s' fs c :
  Inv s → Lim s → Lim s' → 0 <= c → c <= Φ s → wp p c (λ _ _, True) →
  thread_step p s p' s' fs →
  Inv s' ∧ ∃ c' cs, 0 <= c' ∧ wp p' c' (λ _ _, True) ∧ threads_ok fs cs ∧
    c' + zsum cs <= c + Φ s' - Φ s.
Proof.
  destruct p as [a|X f k|X q k|t k|m]; cbn; intros Hi Hl Hl' Hc HΦ Hw Hstep;
    [done| | | |done].
  - destruct Hstep as (x & Hf & -> & ->).
    destruct (Hw s x s' Hi Hl Hl' HΦ Hf) as (Hi' & c' & H0 & Hle & Hk).
    split; [done|]. exists c', []. repeat split; [done|done|constructor|].
    cbn. lia.
  - destruct Hstep as (x & Hx & -> & -> & ->).
    split; [done|]. exists c, []. repeat split; [done|by apply Hw| |].
    + constructor.
    + cbn. lia.
  - destruct Hstep as (-> & -> & ->).
    destruct Hw as (c1 & c2 & H1 & H2 & Hle & Ht & Hk).
    split; [done|]. exists c2, [c1]. repeat split; [done|done| |].
    + by repeat constructor.
    + cbn. lia.
Qed.

Context (entry : go S unit → Prop) (env_step : S → S → Prop).
Context (entry_wp : ∀ p, entry p → wp p 0 (λ _ _, True)).
Context (env_ok : ∀ s s', Inv s → Lim s → env_step s s' →
                    Inv s' ∧ Φ s <= Φ s').

(** A step of a run within the limit. *)
Definition lim_step (x y : @conf S) : Prop :=
  Lim x.2 ∧ Lim y.2 ∧ pool_step entry env_step x y.

Lemma pool_step_ok x y : conf_ok x → lim_step x y → conf_ok y.
Proof.
  intros (Hi & cs & Hts & Hsum) (Hl & Hl' & Hs).
  destruct Hs as [ts s i p p' s' fs Hp Ht|ts s p Hp|ts s s' He];
    cbn in *.
  - destruct (Forall2_lookup_l _ _ _ _ _ Hts Hp) as (c & Hci & Hc & Hw).
    assert (c <= Φ s) as HΦ by (pose proof (threads_ok_credit _ _ _ _ Hts Hci); lia).
    destruct (thread_step_wp p s p' s' fs c Hi Hl Hl' Hc HΦ Hw Ht)
      as (Hi' & c' & cs' & Hc' & Hw' & Hfs & Hle).
    split; [done|]. exists (<[i:=c']> cs ++ cs'). split.
    + apply Forall2_app; [|exact Hfs]. by apply Forall2_insert.
    + rewrite zsum_app, (zsum_insert _ _ _ _ Hci). cbn. lia.
  - split; [done|]. exists (cs ++ [0]). split.
    + apply Forall2_app; [done|]. 
      constructor; [|constructor]. split; [done|]. by apply entry_wp.
    + rewrite zsum_app. cbn. lia.
  - destruct (env_ok s s' Hi Hl He) as [Hi' HΦ].
    split; [done|]. exists cs. split; [done|]. cbn. lia.
Qed.

Theorem pool_safe x y : conf_ok x → rtc lim_step x y → conf_ok y.
Proof.
  intros Hx Hr. induction Hr as [|x y z Hs Hr IH]; [done|].
  eauto using pool_step_ok.
Qed.

(** The reserve is never overdrawn. *)
Corollary pool_reserve x : conf_ok x → 0 <= Φ x.2.
Proof.
  intros (_ & cs & Hts & Hsum).
  assert (0 <= zsum cs); [|lia].
  apply zsum_nonneg. eapply Forall2_Forall_r; [exact Hts|].
  apply Forall_true. by intros p c [Hc _].
Qed.
End wp.

(** ** Lenses: a component's state inside the shared state *)

Record lens (S T : Type) := mkLens {
  lget : S → T;
  lput : T → S → S;
  lget_put : ∀ t s, lget (lput t s) = t;
}.
Arguments mkLens {S T} lget lput lget_put.
Arguments lget {S T} l s.
Arguments lput {S T} l t s.
Arguments lget_put {S T} l t s.

(** An operation of the component, at one instant. *)
Definition zoom {S T X} (l : lens S T) (f : T → X * T) : go S X :=
  atomically (λ s, let '(x, t) := f (lget l s) in (x, lput l t s)).
Definition zoom_modify {S T} (l : lens S T) (f : T → T) : go S unit :=
  modify (λ s, lput l (f (lget l s)) s).
Definition zoom_reads {S T X} (l : lens S T) (f : T → X) : go S X :=
  reads (λ s, f (lget l s)).

Definition lens_id {S} : lens S S := mkLens (λ s, s) (λ t _, t) (λ _ _, eq_refl).

Program Definition lens_compose {S T U} (l : lens S T) (m : lens T U) : lens S U :=
  {| lget s := lget m (lget l s);
     lput u s := lput l (lput m u (lget l s)) s |}.
Next Obligation. intros. cbn. by rewrite !lget_put. Qed.

(** ** Locked shards, visited one after the other

    [for i := range shards { shards[i].mu.Lock(); ...; Unlock() }]: the body
    is atomic per shard, not over the whole loop. *)

Section each_shard.
Context {S T : Type} (l : lens S (list T)).

Definition each_shard (f : nat → T → T) (idxs : list nat) : go S unit :=
  for_each (λ i, zoom_modify l (alter (f i) i)) idxs.

(** Alone, the loop applies [f i] to shard [i]. *)
Lemma exec_each_shard env f idxs :
  ∀ i s, NoDup idxs →
  ∃ s', exec env i (each_shard f idxs) s = Done tt s' [] i ∧
    ∀ j, lget l s' !! j =
      if decide (j ∈ idxs) then f j <$> lget l s !! j else lget l s !! j.
Proof.
  unfold each_shard. induction idxs as [|n idxs IH]; intros i s Hnd.
  - exists s. split; [done|]. intros j.
    by rewrite decide_False by apply not_elem_of_nil.
  - apply NoDup_cons in Hnd as [Hn Hnd]. cbn.
    destruct (IH i (lput l (alter (f n) n (lget l s)) s) Hnd) as (s' & -> & Hs').
    exists s'. split; [done|]. intros j. rewrite Hs', lget_put.
    destruct (decide (j = n)) as [->|Hne].
    + rewrite decide_False, decide_True by (by (done || left)).
      by rewrite list_lookup_alter_eq.
    + rewrite list_lookup_alter_ne by done.
      destruct (decide (j ∈ idxs)) as [Hj|Hj].
      * by rewrite decide_True by (by right).
      * rewrite decide_False; [done|]. by apply not_elem_of_cons.
Qed.
End each_shard.

(** ** Postconditions

    [post p Q]: whatever the environment answers and whatever other
    goroutines do to the state in between, a result of [p] satisfies [Q]. *)

Definition post {S A : Type} (p : go S A) (Q : A → Prop) : Prop :=
  wp (λ _, True) (λ _, True) (λ _, 0) p 0 (λ a _, Q a).

Section post.
Context {S : Type}.

Lemma post_ret {A} (a : A) Q : Q a → post (S:=S) (Ret a) Q.
Proof. done. Qed.

Lemma post_bind {A B} (p : go S A) (k : A → go S B) (P : A → Prop) Q :
  post p P → (∀ a, P a → post (k a) Q) → post (bind p k) Q.
Proof.
  intros Hp Hk. apply wp_bind. revert Hp. unfold post.
  induction p as [A a|A X f h IH|A X q h IH|A t _ h IH|A m]; cbn.
  - apply Hk.
  - intros H s x s' Hi Hl Hl' HΦ Hf.
    destruct (H s x s' Hi Hl Hl' HΦ Hf) as (_ & c' & H0 & Hc & Hw).
    assert (c' = 0) as -> by lia. split; [done|].
    exists 0. repeat split; [done|lia|]. by eapply IH.
  - intros H x Hx. eapply IH; [done|by apply H].
  - intros (c1 & c2 & H1 & H2 & Hc & Ht & Hh).
    assert (c1 = 0) as -> by lia. assert (c2 = 0) as -> by lia.
    exists 0, 0. repeat split; [done|done|lia|done|]. by eapply IH.
  - done.
Qed.

Lemma post_mono {A} (p : go S A) (Q Q' : A → Prop) :
  post p Q → (∀ a, Q a → Q' a) → post p Q'.
Proof. intros Hp HQ. eapply wp_mono; [|exact Hp]. eauto. Qed.

Lemma post_atomically {A} (f : S → A * S) (Q : A → Prop) :
  (∀ s, Q (f s).1) → post (atomically f) Q.
Proof.
  intros HQ. apply wp_atomically. intros s _ _ _ _. split; [done|].
  exists 0. repeat split; [done|lia|apply HQ].
Qed.

Lemma post_ask {X} (q : question X) (Q : X → Prop) :
  (∀ x, valid_answer q x → Q x) → post (S:=S) (ask q) Q.
Proof. done. Qed.

Lemma post_fork (t : go S unit) (Q : unit → Prop) :
  post t (λ _, True) → Q tt → post (fork t) Q.
Proof. intros Ht HQ. by apply wp_fork. Qed.

(** Running alone is one of the possibilities. *)
Lemma post_exec {A} env (p : go S A) (Q : A → Prop) :
  (∀ X (q : question X) i, valid_answer q (env X q i)) →
  post p Q →
  ∀ i s a s' fs j, exec env i p s = Done a s' fs j → Q a.
Proof.
  intros He Hp. revert Hp. unfold post.
  induction p as [A a|A X f h IH|A X q h IH|A t _ h IH|A m];
    cbn; intros Hp i s a' s' fs j Hex.
  - by simplify_eq.
  - destruct (f s) as [[x s1]|] eqn:Hf; [|done].
    destruct (Hp s x s1 I I I (Z.le_refl 0) Hf) as (_ & c' & H0 & Hc & Hw).
    assert (c' = 0) as -> by lia. by eapply IH.
  - eapply IH; [|done]. by apply Hp.
  - destruct Hp as (c1 & c2 & H1 & H2 & Hc & _ & Hh).
    assert (c2 = 0) as -> by lia.
    destruct (exec env i h s) as [a1 s1 fs1 j1| |] eqn:E; [|done..].
    simplify_eq. by eapply IH.
  - done.
Qed.
End post.
