(* ===== verification/Quiet.v ===== *)
(** * Quiet: code that leaves part of the state alone

    [quiet E p]: every action of [p], and of the goroutines it starts,
    relates the state before and after by [E].  With [E] "the token accounts
    are the same" this is the frame rule of the credit logic: quiet code runs
    for free ([wp_quiet]).  The [quiet] hint database proves it by walking
    over the code. *)

From S2P Require Export Go.

Fixpoint quiet {S A : Type} (E : S → S → Prop) (p : go S A) : Prop :=
  match p with
  | Ret _ => True
  | Step f k => (∀ s x s', f s = Some (x, s') → E s s') ∧ ∀ x, quiet E (k x)
  | Ask q k => ∀ x, valid_answer q x → quiet E (k x)
  | Fork t k => quiet E t ∧ quiet E k
  | Panic _ => True
  end.

(** A component whose state [E] does not look at. *)
Class QuietLens {S T} (E : S → S → Prop) (l : lens S T) : Prop :=
  quiet_lput s t : E s (lput l t s).

#[export] Instance QuietLens_compose {S T U} (E : S → S → Prop)
  (l : lens S T) (m : lens T U) : QuietLens E l → QuietLens E (lens_compose l m).
Proof. intros Hl s t. apply Hl. Qed.

Section quiet.
Context {S : Type} (E : S → S → Prop).

Lemma quiet_ret {A} (a : A) : quiet E (Ret (S:=S) a).
Proof. exact I. Qed.

Lemma quiet_NewTicker d : quiet E (NewTicker (S:=S) d).
Proof. unfold NewTicker. by destruct (_ <=? 0). Qed.
Lemma quiet_panic {A} m : quiet E (Panic (S:=S) (A:=A) m).
Proof. exact I. Qed.

Lemma quiet_bind {A} (p : go S A) :
  ∀ B (k : A → go S B),
  quiet E p → (∀ a, quiet E (k a)) → quiet E (bind p k).
Proof.
  induction p as [A a|A X f h IH|A X q h IH|A t _ h IH|A m]; intros B k; cbn.
  - auto.
  - intros [H1 H2] Hk. split; [done|]. intros x. by apply IH.
  - intros H1 Hk x Hx. apply IH; [by apply H1|done].
  - intros [H1 H2] Hk. split; [done|]. by apply IH.
  - done.
Qed.

Lemma quiet_ask {X} (q : question X) : quiet E (ask q).
Proof. intros x _. exact I. Qed.

Lemma quiet_fork t : quiet E t → quiet E (fork t).
Proof. intros Ht. split; [done|exact I]. Qed.

Lemma quiet_atomically {X} (f : S → X * S) :
  (∀ s, E s (f s).2) → quiet E (atomically f).
Proof. intros H. split; [|done]. intros s x s' [= Hf]. specialize (H s).
  by rewrite Hf in H. Qed.

Lemma quiet_await {X} (f : S → option (X * S)) :
  (∀ s x s', f s = Some (x, s') → E s s') → quiet E (await f).
Proof. by split. Qed.

Lemma quiet_zoom {T X} (l : lens S T) `{!QuietLens E l} (f : T → X * T) :
  quiet E (zoom l f).
Proof.
  apply quiet_atomically. intros s. destruct (f (lget l s)).
  apply quiet_lput.
Qed.

Lemma quiet_zoom_modify {T} (l : lens S T) `{!QuietLens E l} (f : T → T) :
  quiet E (zoom_modify l f).
Proof. apply quiet_atomically. intros s. apply quiet_lput. Qed.

Lemma quiet_zoom_reads {T X} (l : lens S T) (f : T → X) :
  (∀ s, E s s) → quiet E (zoom_reads l f).
Proof. intros H. apply quiet_atomically. intros s. apply H. Qed.

Lemma quiet_for_each {A} (f : A → go S unit) l :
  (∀ x, quiet E (f x)) → quiet E (for_each f l).
Proof.
  intros Hf. induction l as [|x l IH]; [exact I|].
  apply quiet_bind; [done|]. by intros _.
Qed.

Lemma quiet_each_shard {T} (l : lens S (list T)) `{!QuietLens E l} f idxs :
  quiet E (each_shard l f idxs).
Proof. apply quiet_for_each. intros i. by apply quiet_zoom_modify. Qed.

(** Weaker observations. *)
Lemma quiet_mono {A} (E' : S → S → Prop) (p : go S A) :
  (∀ s s', E s s' → E' s s') → quiet E p → quiet E' p.
Proof.
  intros HE. induction p as [A a|A X f h IH|A X q h IH|A t IHt h IH|A m];
    cbn; naive_solver.
Qed.

(** Quiet code is free. *)
Lemma wp_quiet (Inv Lim : S → Prop) (Φ : S → Z) {A} (p : go S A) :
  (∀ s s', E s s' → Inv s → Inv s' ∧ Φ s' = Φ s) →
  ∀ c, 0 <= c → quiet E p → wp Inv Lim Φ p c (λ _ c', c' = c).
Proof.
  intros HE. induction p as [A a|A X f h IH|A X q h IH|A t IHt h IH|A m];
    intros c Hc; cbn.
  - done.
  - intros [H1 H2] s x s' Hi _ _ _ Hf.
    destruct (HE s s' (H1 s x s' Hf) Hi) as [Hi' HΦ].
    split; [done|]. exists c. repeat split; [done|lia|]. by apply IH.
  - intros H x Hx. apply IH; [done|by apply H].
  - intros [H1 H2]. exists 0, c. repeat split; [done|done|lia| |by apply IH].
    eapply wp_mono; [|by apply IHt]. done.
  - done.
Qed.
End quiet.

(** Walks over the code; what is left is what the database does not know. *)
Create HintDb quiet.
#[export] Hint Resolve quiet_ret quiet_panic quiet_ask quiet_each_shard
  quiet_zoom quiet_zoom_modify : quiet.

Ltac quiet_step :=
  match goal with
  | |- quiet _ (bind _ _) => apply quiet_bind; [|intros ?]
  | |- quiet _ (fork _) => apply quiet_fork
  | |- quiet _ (for_each _ _) => apply quiet_for_each; intros ?
  | |- quiet _ (match ?x with _ => _ end) => destruct x
  | |- quiet _ (let '_ := ?x in _) => destruct x
  | |- quiet _ _ => solve [eauto with quiet typeclass_instances]
  end.
Ltac quiet := repeat (cbv zeta; quiet_step).

(** Alone, quiet code relates the first and the last state. *)
Lemma quiet_exec {S A} (E : S → S → Prop) `{!Reflexive E, !Transitive E}
    (env : environment) (p : go S A) :
  (∀ X (q : question X) i, valid_answer q (env X q i)) → quiet E p →
  ∀ i s a s' fs j, exec env i p s = Done a s' fs j → E s s'.
Proof.
  intros He. induction p as [A a|A X f h IH|A X q h IH|A t _ h IH|A m];
    cbn; intros Hq i s a' s' fs j Hex.
  - by simplify_eq.
  - destruct Hq as [H1 H2]. destruct (f s) as [[x s1]|] eqn:Hf; [|done].
    transitivity s1; [by eapply H1|]. eapply IH; eauto.
  - eapply IH; [|exact Hex]. apply Hq, He.
  - destruct Hq as [_ H2].
    destruct (exec env i h s) as [a1 s1 fs1 j1| |] eqn:E1; [|done..].
    simplify_eq. by eapply IH.
  - done.
Qed.
