(* ===== verification/Rely.v ===== *)
(** * Rely: assertions that survive the other goroutines

    [rg p s Q]: started in [s], or in any state the other goroutines make of
    it, [p] never panics, keeps the invariant [I], changes the state only as
    [G] allows, and when it returns its result and the state satisfy [Q].
    [G] is both what a goroutine may do and what it may rely on the others to
    do at most, so that what is stable under [G] and was true once stays
    true.  The [safe] hint database proves it by walking over the code. *)

From S2P Require Export Go.

Section rg.
Context {S : Type} (I : S → Prop) (G : S → S → Prop) `{!PreOrder G}.

Fixpoint rg {A : Type} (p : go S A) (s : S) (Q : A → S → Prop) {struct p} : Prop :=
  match p with
  | Ret a => λ Q, ∀ s', G s s' → Q a s'
  | Step f k => λ Q,
      ∀ s1 x s2, G s s1 → I s1 → f s1 = Some (x, s2) →
        I s2 ∧ G s1 s2 ∧ rg (k x) s2 Q
  | Ask q k => λ Q, ∀ x, valid_answer q x → rg (k x) s Q
  | Fork t k => λ Q, rg t s (λ _ _, True) ∧ rg k s Q
  | Panic _ => λ _, False
  end Q.

(** Nothing is asked of the state it starts in. *)
Definition safe {A} (p : go S A) : Prop := ∀ s, rg p s (λ _ _, True).

(** The others may go on before it starts. *)
Lemma rg_later {A} (p : go S A) :
  ∀ s s' (Q : A → S → Prop), G s s' → rg p s Q → rg p s' Q.
Proof.
  induction p as [A a|A X f k IH|A X q k IH|A t IHt k IH|A m]; cbn;
    intros s s' Q HG.
  - intros HQ s1 H1. apply HQ. by etransitivity.
  - intros H s1 x s2 H1. apply H. by etransitivity.
  - intros H x Hx. by eapply IH; [|apply H].
  - intros [Ht Hk]. eauto.
  - done.
Qed.

(** What it returns in comes after what it started in. *)
Lemma rg_frame {A} (p : go S A) :
  ∀ s0 s (Q : A → S → Prop), G s0 s → rg p s Q → rg p s (λ a s', Q a s' ∧ G s0 s').
Proof.
  induction p as [A a|A X f k IH|A X q k IH|A t IHt k IH|A m]; cbn;
    intros s0 s Q HG.
  - intros HQ s1 H1. split; [by apply HQ|by etransitivity].
  - intros H s1 x s2 H1 Hi Hf. destruct (H s1 x s2 H1 Hi Hf) as (Hi2 & HG2 & Hk).
    split; [done|]. split; [done|]. apply IH; [|done].
    etransitivity; [exact HG|]. by etransitivity.
  - intros H x Hx. by apply IH; [|apply H].
  - intros [Ht Hk]. eauto.
  - done.
Qed.

Lemma rg_mono {A} (p : go S A) :
  ∀ s (Q Q' : A → S → Prop), (∀ a s', Q a s' → Q' a s') → rg p s Q → rg p s Q'.
Proof.
  induction p as [A a|A X f k IH|A X q k IH|A t IHt k IH|A m]; cbn;
    intros s Q Q' HQ; [by eauto| |by eauto| |done].
  - intros H s1 x s2 H1 Hi Hf. destruct (H s1 x s2 H1 Hi Hf) as (Hi2 & HG2 & Hk).
    eauto.
  - intros [Ht Hk]. eauto.
Qed.

Lemma rg_bind {A} (p : go S A) :
  ∀ B (k : A → go S B) s (Q : B → S → Prop),
  rg p s (λ a s', rg (k a) s' Q) → rg (bind p k) s Q.
Proof.
  induction p as [A a|A X f h IH|A X q h IH|A t IHt h IH|A m]; cbn;
    intros B k s Q.
  - intros H. by apply H.
  - intros H s1 x s2 H1 Hi Hf. destruct (H s1 x s2 H1 Hi Hf) as (Hi2 & HG2 & Hk).
    eauto.
  - eauto.
  - intros [Ht Hk]. eauto.
  - done.
Qed.

(** What is stable is still there after [p]. *)
Lemma rg_bind_keep (P : S → Prop) {A B} (p : go S A) (k : A → go S B) s P1 Q :
  (∀ s s', G s s' → P s → P s') → P s →
  rg p s P1 → (∀ a s', P s' → P1 a s' → rg (k a) s' Q) → rg (bind p k) s Q.
Proof.
  intros HP Hs Hp Hk. apply rg_bind. eapply rg_mono; [|by apply (rg_frame p s)].
  cbn. intros a s' [H1 HG]. eauto.
Qed.

Lemma rg_step {X} (f : S → option (X * S)) s (Q : X → S → Prop) :
  (∀ s1 x s2, G s s1 → I s1 → f s1 = Some (x, s2) →
     I s2 ∧ G s1 s2 ∧ ∀ s3, G s2 s3 → Q x s3) →
  rg (await f) s Q.
Proof. intros H s1 x s2. apply H. Qed.

(** *** Code that asks nothing of the state *)

Lemma safe_NewTicker d : 0 < d → safe (NewTicker d).
Proof. intros Hd. unfold NewTicker. by destruct (Z.leb_spec d 0); [lia|]. Qed.
Lemma safe_ret {A} (a : A) : safe (Ret a).
Proof. done. Qed.
Lemma safe_bind {A B} (p : go S A) (k : A → go S B) :
  safe p → (∀ a, safe (k a)) → safe (bind p k).
Proof.
  intros Hp Hk s. apply rg_bind. eapply rg_mono; [|apply Hp].
  intros a s' _. apply Hk.
Qed.
Lemma safe_ask {X} (q : question X) : safe (ask q).
Proof. done. Qed.
Lemma safe_fork t : safe t → safe (fork t).
Proof. intros Ht s. split; [apply Ht|done]. Qed.
Lemma safe_await {X} (f : S → option (X * S)) :
  (∀ s x s', I s → f s = Some (x, s') → I s' ∧ G s s') → safe (await f).
Proof.
  intros H s s1 x s2 _ Hi Hf. destruct (H s1 x s2 Hi Hf). by repeat split.
Qed.
Lemma safe_atomically {X} (f : S → X * S) :
  (∀ s, I s → I (f s).2 ∧ G s (f s).2) → safe (atomically f).
Proof.
  intros H s s1 x s2 _ Hi [= Hf]. specialize (H s1 Hi). rewrite Hf in H.
  destruct H. by repeat split.
Qed.
Lemma safe_reads {X} (f : S → X) : safe (reads f).
Proof. apply safe_atomically. intros s Hs. by split. Qed.
Lemma safe_for_each {A} (f : A → go S unit) l :
  (∀ x, safe (f x)) → safe (for_each f l).
Proof. intros Hf. induction l; [apply safe_ret|by apply safe_bind]. Qed.

(** Waiting changes nothing. *)
Lemma safe_wait {X} (f : S → option X) :
  safe (await (λ s, match f s with Some x => Some (x, s) | None => None end)).
Proof.
  apply safe_await. intros s x s' Hs. destruct (f s); [|done].
  by intros [= _ <-].
Qed.

(** A component whose updates keep [P] of it. *)
Class SafeLens {T} (l : lens S T) (P : T → Prop) : Prop := {
  safe_lget s : I s → P (lget l s);
  safe_lput s t : I s → P t → I (lput l t s) ∧ G s (lput l t s);
}.

Lemma safe_zoom {T X} (l : lens S T) (P : T → Prop) `{!SafeLens l P} (f : T → X * T) :
  (∀ t, P t → P (f t).2) → safe (zoom l f).
Proof.
  intros Hf. apply safe_atomically. intros s Hs.
  specialize (Hf _ (safe_lget s Hs)). destruct (f _) as [x t]. by apply safe_lput.
Qed.
Lemma safe_zoom_modify {T} (l : lens S T) (P : T → Prop) `{!SafeLens l P} (f : T → T) :
  (∀ t, P t → P (f t)) → safe (zoom_modify l f).
Proof.
  intros Hf. apply (safe_zoom l P (λ t, (tt, f t))). exact Hf.
Qed.
Lemma safe_each_shard {T} (l : lens S (list T)) (P : list T → Prop) `{!SafeLens l P}
    f idxs :
  (∀ i t, P t → P (alter (f i) i t)) → safe (each_shard l f idxs).
Proof. intros Hf. apply safe_for_each. intros i. apply (safe_zoom_modify l P), Hf. Qed.

(** *** Soundness *)

Definition conf_safe (x : @conf S) : Prop :=
  I x.2 ∧ Forall (λ p, rg p x.2 (λ _ _, True)) x.1.

Lemma thread_step_safe p s p' s' fs :
  I s → rg p s (λ _ _, True) → thread_step p s p' s' fs →
  I s' ∧ G s s' ∧ rg p' s' (λ _ _, True) ∧ Forall (λ t, rg t s' (λ _ _, True)) fs.
Proof.
  destruct p as [a|X f k|X q k|t k|m]; cbn; intros Hi Hp Hstep; [done| | | |done].
  - destruct Hstep as (x & Hf & -> & ->).
    by destruct (Hp s x s' ltac:(done) Hi Hf) as (Hi2 & HG2 & Hk).
  - destruct Hstep as (x & Hx & -> & -> & ->). split; [done|]. split; [done|].
    by split; [apply Hp|].
  - destruct Hstep as (-> & -> & ->). destruct Hp as [Ht Hk].
    split; [done|]. split; [done|]. split; [done|]. by constructor.
Qed.

Context (entry : go S unit → Prop) (env_step : S → S → Prop).
Context (entry_safe : ∀ p, entry p → safe p).
Context (env_safe : ∀ s s', I s → env_step s s' → I s' ∧ G s s').

Lemma pool_step_safe x y :
  conf_safe x → pool_step entry env_step x y → conf_safe y ∧ G x.2 y.2.
Proof.
  assert (Hlater : ∀ s s' (ts : list (go S unit)), G s s' →
            Forall (λ p, rg p s (λ _ _, True)) ts → Forall (λ p, rg p s' (λ _ _, True)) ts).
  { intros s s' ts HG Hts. eapply Forall_impl; [exact Hts|]. intros p.
    by apply rg_later. }
  intros [Hi Hts] Hs. destruct Hs as [ts s i p p' s' fs Hp Ht|ts s p Hp|ts s s' He];
    cbn in *.
  - assert (Hrg : rg p s (λ _ _, True)) by exact (Forall_lookup_1 _ _ _ _ Hts Hp).
    destruct (thread_step_safe p s p' s' fs Hi Hrg Ht) as (Hi' & HG & Hp' & Hfs).
    split; [|done]. split; [done|]. apply Forall_app. split; [|exact Hfs].
    apply Forall_insert; [by eapply Hlater|exact Hp'].
  - split; [|reflexivity]. split; [done|]. apply Forall_app. split; [done|].
    constructor; [exact (entry_safe p Hp s)|constructor].
  - destruct (env_safe s s' Hi He) as [Hi' HG]. split; [|done].
    split; [done|]. by eapply Hlater.
Qed.

Theorem pool_stays_safe x y :
  conf_safe x → rtc (pool_step entry env_step) x y → conf_safe y.
Proof.
  intros Hx Hr. induction Hr as [|x y z Hs Hr IH]; [done|].
  destruct (pool_step_safe x y Hx Hs) as [Hy _]. by apply IH.
Qed.

(** No goroutine is about to panic. *)
Corollary conf_safe_no_panic x m : conf_safe x → Panic m ∉ x.1.
Proof.
  intros [_ Hts] Hin. rewrite Forall_forall in Hts. exact (Hts _ Hin).
Qed.
End rg.

Create HintDb safe.
#[export] Hint Resolve safe_ret safe_ask safe_reads safe_wait : safe.

(** Walks over the code, like [quiet]; what is known of a component is passed
    on to the goal about its update. *)
Ltac safe_step :=
  match goal with
  | |- safe ?I ?G (bind _ _) => apply (safe_bind I G); [|intros ?]
  | |- safe _ _ (fork _) => apply safe_fork
  | |- safe ?I ?G (for_each _ _) => apply (safe_for_each I G); intros ?
  | |- safe _ _ (match ?x with _ => _ end) => destruct x
  | |- safe _ _ (let '_ := ?x in _) => destruct x
  | |- safe ?I ?G (zoom_reads _ _) => apply (safe_reads I G)
  | |- safe _ _ (zoom_modify _ _) =>
      eapply safe_zoom_modify; [apply _|try done; intros ? ?]
  | |- safe _ _ (zoom _ _) => eapply safe_zoom; [apply _|try done; intros ? ?]
  | |- safe _ _ (each_shard _ _ _) =>
      eapply safe_each_shard; [apply _|apply _|try done; intros ? ? ?]
  | |- safe _ _ _ => solve [eauto with safe typeclass_instances]
  end.
Ltac safe := repeat (cbv zeta; safe_step).
