(* ===== verification/Runs.v ===== *)
(** * Runs: what the goroutines at work are bound to reach

    With nobody started from outside, every run of a configuration ends: the
    code of a goroutine is a well-founded tree, and a step replaces one tree
    by some of its branches ([steps_end]).  So whatever is not reached yet
    while somebody can go on will be reached, whoever goes on and whatever is
    answered: [inevitably], with [inevitably_intro] to prove it. *)

From Stdlib Require Import Wellfounded.List_Extension.
From S2P Require Export Go.

Section runs.
Context {S : Type}.

(** A step of goroutine [i]. *)
Definition step_of (i : nat) (x y : @conf S) : Prop :=
  ∃ p p' fs, x.1 !! i = Some p ∧ thread_step p x.2 p' y.2 fs ∧ y.1 = <[i:=p']> x.1 ++ fs.

(** If only goroutines of [turn] run then, whichever does and whatever the
    answers are, one of them can go on until [P] holds, and [P] holds after
    finitely many steps. *)
Inductive inevitably (turn : nat → Prop) (P : @conf S → Prop) (x : @conf S) : Prop :=
| I_now : P x → inevitably turn P x
| I_step : (∃ i y, turn i ∧ step_of i x y) →
    (∀ i y, turn i → step_of i x y → inevitably turn P y) → inevitably turn P x.

Lemma inevitably_mono (turn : nat → Prop) (P Q : @conf S → Prop) x :
  (∀ y, P y → Q y) → inevitably turn P x → inevitably turn Q x.
Proof. intros HPQ. induction 1 as [x Hx|x Hcan _ IH]; [by apply I_now, HPQ|by apply I_step]. Qed.

(** ** No run is infinite *)

(** Induction on the code of a goroutine and of those it starts. *)
Lemma goroutine_ind (P : go S unit → Prop) :
  (∀ a, P (Ret a)) → (∀ X f (k : X → go S unit), (∀ x, P (k x)) → P (Step f k)) →
  (∀ X (q : question X) k, (∀ x, P (k x)) → P (Ask q k)) →
  (∀ t k, P t → P k → P (Fork t k)) → (∀ m, P (Panic m)) → ∀ p, P p.
Proof.
  intros Hr Hs Ha Hf Hp. fix IH 1. intros [a|X f k|X q k|t k|m].
  - apply Hr.
  - apply Hs. intros x. apply IH.
  - apply Ha. intros x. apply IH.
  - apply Hf; apply IH.
  - apply Hp.
Qed.

(** What is left of [p] after a step, or was started by it. *)
Definition branch (q p : go S unit) : Prop :=
  ∃ s p' s' fs, thread_step p s p' s' fs ∧ q ∈ p' :: fs.

Lemma branch_wf : well_founded branch.
Proof.
  intros p. induction p as [a|X f k IH|X q k IH|t k IHt IHk|m] using goroutine_ind;
    constructor; intros r (s & p' & s' & fs & Hstep & Hr); cbn in Hstep; [done| | | |done].
  - destruct Hstep as (x & _ & -> & ->). apply list_elem_of_singleton in Hr as ->. apply IH.
  - destruct Hstep as (x & _ & -> & _ & ->). apply list_elem_of_singleton in Hr as ->. apply IH.
  - destruct Hstep as (-> & _ & ->). apply elem_of_cons in Hr as [-> |Hr]; [done|].
    by apply list_elem_of_singleton in Hr as ->.
Qed.

(** A step replaces a goroutine by branches of it. *)
Lemma step_of_branches i x y (l : list (go S unit)) :
  step_of i x y → x.1 ≡ₚ l → ∃ l', list_ext _ branch l' l ∧ y.1 ≡ₚ l'.
Proof.
  intros (p & p' & fs & Hp & Ht & ->) Hl.
  assert (Hin : p ∈ l) by (rewrite <- Hl; by eapply list_elem_of_lookup_2).
  apply list_elem_of_split in Hin as (l1 & l2 & ->). exists (l1 ++ (p' :: fs) ++ l2). split.
  { constructor. apply Forall_forall. intros q Hq. exists x.2, p', y.2, fs. by split. }
  apply list_elem_of_split_length in Hp as (k1 & k2 & E & ->). rewrite E in Hl |- *.
  apply Permutation_app_inv in Hl. rewrite insert_app_r_alt, Nat.sub_diag by done. cbn.
  rewrite <- !Permutation_middle. cbn. apply Permutation_skip.
  by rewrite Hl, <- (assoc_L (++)), (Permutation_app_comm l2 fs).
Qed.

Theorem steps_end (x : @conf S) : Acc (λ y x, ∃ i, step_of i x y) x.
Proof.
  enough (∀ l, Acc (list_ext _ branch) l →
    ∀ x : @conf S, x.1 ≡ₚ l → Acc (λ y x, ∃ i, step_of i x y) x) as H.
  { by apply (H x.1); [apply wf_list_ext, branch_wf|]. }
  clear x. induction 1 as [l _ IH]. intros x Hx. constructor. intros y [i Hy].
  destruct (step_of_branches i x y l Hy Hx) as (l' & Hl' & Hyl). by apply (IH l').
Qed.

(** Progress and preservation. *)
Theorem inevitably_intro (turn : nat → Prop) (I P : @conf S → Prop) :
  (∀ x, I x → P x ∨ ∃ i y, turn i ∧ step_of i x y) →
  (∀ i x y, I x → turn i → step_of i x y → I y) →
  ∀ x, I x → inevitably turn P x.
Proof.
  intros Hprog Hpres x. induction (steps_end x) as [x _ IH]. intros Hx.
  destruct (Hprog x Hx) as [HP|Hcan]; [by apply I_now|]. apply I_step; [done|].
  intros i y Hi Hy. apply IH; [by exists i|]. by eapply Hpres.
Qed.

(** ** One step *)

Lemma valid_answer_exists {X} (q : question X) : ∃ x, valid_answer q x.
Proof. exists (clock_env 0 X q 0%nat). by destruct q; cbn. Qed.

Lemma step_of_can i x p p' s' fs :
  x.1 !! i = Some p → thread_step p x.2 p' s' fs → ∃ y, step_of i x y.
Proof. intros Hi Ht. by exists (<[i:=p']> x.1 ++ fs, s'), p, p', fs. Qed.

Lemma step_of_pool entry env_step i x y : step_of i x y → pool_step entry env_step x y.
Proof.
  intros (p & p' & fs & Hp & Ht & E). destruct x as [ts s], y as [ts' s']. cbn in *. subst.
  by econstructor.
Qed.
End runs.
