(* ===== verification/Owns.v ===== *)
(** * Owns: which goroutine holds a lock

    [owns p c s Q]: started in [s], or in any state the other goroutines make
    of it, [p], while it holds the lock [c] times, changes how often the lock
    is held exactly by what it takes and gives back itself, ends holding it as
    often as [Q] says, and changes the state only as [D] says of one who holds
    the lock [c] times.  A goroutine it starts may be handed some of what it
    holds, and ends without.  While it holds a [firm] lock it never has to
    wait; so whoever holds a mutex gives it back (theorem
    [holder_gives_back]).  The same rules count the goroutines a wait group
    waits for: these never have to wait while the state is [calm].  What is
    known of the states, [J] and [G], is the invariant and the guarantee of
    Rely.  [balanced] code ends holding the lock as often as it started; the
    [locks] hint database proves it by walking over the code. *)

From S2P Require Export Rely Runs.

(** How patient the code asks to be. *)
Inductive patience :=
| Prompt                    (* never waits *)
| Locking                   (* waits for mutexes only *)
| Waiting.

Section owns.
Context {S : Type} (J : S → Prop) (G : S → S → Prop) `{!PreOrder G}.
Context (Inv : S → Prop) (held : S → Z) (D : Z → S → S → Prop).
Context (firm : bool) (calm : S → Prop).

(** Who holds the lock [c] times is to be able to go on. *)
Definition must (c : Z) (s : S) : Prop := 1 <= c ∧ (firm = true ∨ calm s).

Fixpoint owns {A : Type} (p : go S A) (c : Z) (s : S) (Q : A → Z → S → Prop)
    {struct p} : Prop :=
  match p with
  | Ret a => λ Q, ∀ s', G s s' → Q a c s'
  | Step f k => λ Q,
      ∀ s1, G s s1 → J s1 → Inv s1 → c <= held s1 →
        (must c s1 → is_Some (f s1)) ∧
        ∀ x s2, f s1 = Some (x, s2) →
          Inv s2 ∧ D c s1 s2 ∧ 0 <= c + (held s2 - held s1) ∧
          (J s2 → G s1 s2 → owns (k x) (c + (held s2 - held s1)) s2 Q)
  | Ask q k => λ Q, ∀ x, valid_answer q x → owns (k x) c s Q
  | Fork t k => λ Q,
      ∃ d, 0 <= d <= c ∧ (firm = true → d = 0) ∧ owns t d s (λ _ c' _, c' = 0) ∧ owns k (c - d) s Q
  | Panic _ => λ _, True
  end Q.

Lemma owns_later {A} (p : go S A) :
  ∀ c s s' (Q : A → Z → S → Prop), G s s' → owns p c s Q → owns p c s' Q.
Proof.
  induction p as [A a|A X f k IH|A X q k IH|A t IHt k IH|A m]; cbn; intros c s s' Q HG.
  - intros HQ s1 H1. apply HQ. by etransitivity.
  - intros H s1 H1. apply H. by etransitivity.
  - intros H x Hx. by eapply IH; [|apply H].
  - intros (d & Hd & Hd0 & Ht & Hk). exists d. eauto 6.
  - done.
Qed.

Lemma owns_mono {A} (p : go S A) :
  ∀ c s (Q Q' : A → Z → S → Prop),
  (∀ a c' s', G s s' → Q a c' s' → Q' a c' s') → owns p c s Q → owns p c s Q'.
Proof.
  induction p as [A a|A X f k IH|A X q k IH|A t _ k IH|A m]; cbn; intros c s Q Q' HQ;
    [by eauto| |by eauto|intros (d & Hd & Hd0 & Ht & Hk); eauto 7|done].
  intros H s1 H1 HJ Hi Hc. destruct (H s1 H1 HJ Hi Hc) as [He Hs]. split; [done|].
  intros x s2 Hf. destruct (Hs x s2 Hf) as (Hi2 & HD & H0 & Hk).
  split; [done|]. split; [done|]. split; [done|]. intros HJ2 HG2.
  eapply IH; [|by apply Hk]. intros a c' s' H2. apply HQ.
  etransitivity; [exact H1|]. by etransitivity.
Qed.

Lemma owns_bind {A} (p : go S A) :
  ∀ B (k : A → go S B) c s (Q : B → Z → S → Prop),
  owns p c s (λ a c' s', owns (k a) c' s' Q) → owns (bind p k) c s Q.
Proof.
  induction p as [A a|A X f h IH|A X q h IH|A t _ h IH|A m]; cbn; intros B k c s Q;
    [intros H; by apply H| |by eauto|intros (d & Hd & Hd0 & Ht & Hk); eauto 7|done].
  intros H s1 H1 HJ Hi Hc. destruct (H s1 H1 HJ Hi Hc) as [He Hs]. split; [done|].
  intros x s2 Hf. destruct (Hs x s2 Hf) as (Hi2 & HD & H0 & Hk). repeat split; auto.
Qed.

(** Who may run the code: anybody; whoever holds no mutex; whoever holds
    nothing. *)
Definition allowed (w : patience) (c : Z) : Prop :=
  match w with
  | Prompt => True | Locking => firm = true → c = 0 | Waiting => c = 0
  end.

Lemma allowed_0 w : allowed w 0.
Proof. by destruct w. Qed.
Lemma allowed_not_must w c s :
  allowed w c → must c s → w = Prompt ∨ w = Locking ∧ firm = false ∧ calm s.
Proof.
  intros Hw [Hc Hm]. destruct w; [by left| |cbn in Hw; lia]. right.
  assert (firm = false) as Hf by (apply not_true_is_false; intros E; specialize (Hw E); lia).
  split; [done|]. split; [done|]. destruct Hm as [Hm|Hm]; [congruence|done].
Qed.

(** What is known when the code starts, and stays true. *)
Class Stable (F : S → Prop) : Prop := stable s s' : G s s' → F s → F s'.
#[export] Instance Stable_true : Stable (λ _, True).
Proof. done. Qed.

Definition balanced (F : S → Prop) (w : patience) {A} (p : go S A) : Prop :=
  ∀ c s, F s → 0 <= c → allowed w c → owns p c s (λ _ c' _, c' = c).

Lemma balanced_prompt F w {A} (p : go S A) : balanced F Prompt p → balanced F w p.
Proof. intros Hp c s HF Hc _. by apply Hp. Qed.
Lemma balanced_locking F {A} (p : go S A) : balanced F Locking p → balanced F Waiting p.
Proof. intros Hp c s HF Hc Hw. apply Hp; [done..|]. by intros _. Qed.

(** An action that does not touch the lock, nor what it protects. *)
Definition unlocking (s s' : S) : Prop :=
  held s' = held s ∧ (∀ c, D c s s') ∧ (Inv s → Inv s').

Section any.
Context (F : S → Prop) `{!Stable F} (w : patience).
Abbreviation bal := (balanced F w).

Lemma balanced_NewTicker d : bal (NewTicker d).
Proof. intros c s _ _ _. unfold NewTicker. by destruct (_ <=? 0). Qed.
Lemma balanced_ret {A} (a : A) : bal (Ret a).
Proof. by intros c s _ _ _ s' _. Qed.
Lemma balanced_panic {A} m : bal (Panic (A:=A) m).
Proof. by intros c s _ _ _. Qed.
Lemma balanced_bind {A B} (p : go S A) (k : A → go S B) :
  bal p → (∀ a, bal (k a)) → bal (bind p k).
Proof.
  intros Hp Hk c s HF Hc Hw. apply owns_bind. eapply owns_mono; [|by apply Hp].
  intros a c' s' HG ->. apply Hk; [by eapply stable|done..].
Qed.
Lemma balanced_ask {X} (q : question X) : bal (ask q).
Proof. by intros c s _ _ _ x _ s' _. Qed.
(** Handing a new goroutine what it is to give back. *)
Lemma owns_fork t d c s (Q : unit → Z → S → Prop) :
  0 <= d <= c → (firm = true → d = 0) → owns t d s (λ _ c' _, c' = 0) →
  (∀ s', G s s' → Q tt (c - d) s') →
  owns (fork t) c s Q.
Proof. intros Hd Hd0 Ht HQ. by exists d. Qed.
Lemma balanced_fork t : balanced F Waiting t → bal (fork t).
Proof.
  intros Ht c s HF Hc _. apply (owns_fork t 0); [lia|done|by apply Ht|]. intros. lia.
Qed.
Lemma balanced_atomically {X} (f : S → X * S) :
  (∀ s, unlocking s (f s).2) → bal (atomically f).
Proof.
  intros H c s _ Hc _ s1 _ _ Hi _. split; [by eexists|]. intros x s2 [= Hf].
  specialize (H s1). rewrite Hf in H. destruct H as (Eh & HD & Hi2).
  cbn [snd] in *. rewrite Eh.
  rewrite Z.sub_diag, Z.add_0_r. by repeat split; auto.
Qed.
Lemma balanced_for_each {A} (f : A → go S unit) l :
  (∀ x, bal (f x)) → bal (for_each f l).
Proof. intros Hf. induction l; [apply balanced_ret|by apply balanced_bind]. Qed.

(** An action that may have to wait, and one that need not. *)
Lemma balanced_await {X} (f : S → option (X * S)) :
  (∀ s x s', f s = Some (x, s') → unlocking s s') →
  (∀ s, F s → J s → w = Prompt ∨ w = Locking ∧ firm = false ∧ calm s → is_Some (f s)) →
  bal (await f).
Proof.
  intros H Hb c s HF Hc Hw s1 HG HJ Hi _. split.
  - intros Hm. apply Hb; [by eapply stable|done|by eapply allowed_not_must].
  - intros x s2 Hf. destruct (H s1 x s2 Hf) as (-> & HD & Hi2).
    rewrite Z.sub_diag, Z.add_0_r. by repeat split; auto.
Qed.

(** A component the lock is no part of. *)
Class LockLens {T} (l : lens S T) (P : T → T → Prop) : Prop :=
  lock_lput s t : P (lget l s) t → unlocking s (lput l t s).

Context (D_refl : ∀ c s, D c s s).

Lemma unlocking_refl s : unlocking s s.
Proof. by repeat split. Qed.
Lemma balanced_reads {X} (f : S → X) : bal (reads f).
Proof. apply balanced_atomically. intros s. apply unlocking_refl. Qed.
Lemma balanced_zoom {T X} (l : lens S T) (P : T → T → Prop) `{!LockLens l P}
    (f : T → X * T) :
  (∀ t, P t (f t).2) → bal (zoom l f).
Proof.
  intros Hf. apply balanced_atomically. intros s. specialize (Hf (lget l s)).
  destruct (f (lget l s)) as [x t]. by apply lock_lput.
Qed.
Lemma balanced_zoom_modify {T} (l : lens S T) (P : T → T → Prop) `{!LockLens l P}
    (f : T → T) :
  (∀ t, P t (f t)) → bal (zoom_modify l f).
Proof. intros Hf. apply balanced_atomically. intros s. apply lock_lput, Hf. Qed.
Lemma balanced_each_shard {T} (l : lens S (list T)) (P : list T → list T → Prop)
    `{!LockLens l P} f idxs :
  (∀ i t, P t (alter (f i) i t)) → bal (each_shard l f idxs).
Proof.
  intros Hf. apply balanced_for_each. intros i.
  apply (balanced_zoom_modify l P). intros t. apply Hf.
Qed.
End any.

Lemma balanced_wait F `{!Stable F} {X} (f : S → option X) :
  (∀ c s, D c s s) →
  balanced F Waiting (await (λ s, match f s with Some x => Some (x, s) | None => None end)).
Proof.
  intros HD. apply balanced_await; [done| |by intros s _ _ [|[]]].
  intros s x s'. destruct (f s); [|done].
  intros [= _ <-]. by apply unlocking_refl.
Qed.

(** *** Soundness *)

Definition holder_ok (s : S) (p : go S unit) (c : Z) : Prop :=
  0 <= c ∧ owns p c s (λ _ c' _, c' = 0).

(** Every time the lock is held, some goroutine holds it. *)
Definition conf_held (x : @conf S) : Prop :=
  Inv x.2 ∧ ∃ cs, Forall2 (holder_ok x.2) x.1 cs ∧ zsum cs = held x.2.

Lemma holders_later s s' ts cs :
  G s s' → Forall2 (holder_ok s) ts cs → Forall2 (holder_ok s') ts cs.
Proof.
  intros HG H. eapply Forall2_impl; [exact H|]. intros p c [Hc Hp].
  split; [done|]. by eapply owns_later.
Qed.

Lemma holders_nonneg s ts cs : Forall2 (holder_ok s) ts cs → Forall (λ c, 0 <= c) cs.
Proof.
  intros H. eapply Forall2_Forall_r; [exact H|]. apply Forall_true. by intros p c [].
Qed.

Lemma zsum_lookup cs i c : Forall (λ c, 0 <= c) cs → cs !! i = Some c → c <= zsum cs.
Proof.
  intros Hf Hi. apply list_elem_of_lookup_2, list_elem_of_split in Hi as (l1 & l2 & ->).
  apply Forall_app in Hf as [H1 H2]. apply Forall_cons in H2 as [H2 H3].
  apply zsum_nonneg in H1, H3. rewrite zsum_app. cbn. lia.
Qed.

(** Two holders. *)
Lemma zsum_lookup2 cs : ∀ i j c d,
  Forall (λ c, 0 <= c) cs → i ≠ j → cs !! i = Some c → cs !! j = Some d → c + d <= zsum cs.
Proof.
  induction cs as [|e cs IH]; intros i j c d Hf Hij Hi Hj; [done|].
  apply Forall_cons in Hf as [He Hf]. cbn.
  destruct i as [|i], j as [|j]; cbn in Hi, Hj; simplify_eq.
  - pose proof (zsum_lookup cs j d Hf Hj). lia.
  - pose proof (zsum_lookup cs i c Hf Hi). lia.
  - specialize (IH i j c d Hf ltac:(congruence) Hi Hj). lia.
Qed.

(** If it is held, there is a holder. *)
Lemma zsum_pos cs : Forall (λ c, 0 <= c) cs → 1 <= zsum cs → ∃ i c, cs !! i = Some c ∧ 1 <= c.
Proof.
  induction 1 as [|c cs Hc Hcs IH]; cbn; intros Hs; [lia|].
  destruct (decide (1 <= c)) as [|Hlt]; [by exists 0%nat, c|].
  destruct IH as (i & d & Hi & Hd); [lia|]. by exists (Datatypes.S i), d.
Qed.

Lemma thread_step_owns p s p' s' fs c :
  J s → Inv s → 0 <= c <= held s → owns p c s (λ _ c' _, c' = 0) → thread_step p s p' s' fs →
  J s' → G s s' →
  Inv s' ∧ ((∀ c s, D c s s) → D c s s') ∧ ∃ c' ds, holder_ok s' p' c' ∧
  Forall2 (holder_ok s') fs ds ∧ (firm = true → zsum ds = 0) ∧
  c' + zsum ds = c + (held s' - held s).
Proof.
  destruct p as [a|X f k|X q k|t k|m]; cbn; intros HJ Hi Hc Hp Hstep HJ' HG;
    [done| | | |done].
  - destruct Hstep as (x & Hf & -> & ->).
    destruct (Hp s ltac:(done) HJ Hi ltac:(lia)) as [_ Hs].
    destruct (Hs x s' Hf) as (Hi' & HD & H0 & Hk). split; [done|]. split; [auto|].
    exists (c + (held s' - held s)), []. split; [by split; [|apply Hk]|].
    split; [constructor|split; [done|cbn; lia]].
  - destruct Hstep as (x & Hx & -> & -> & ->). split; [done|]. split; [auto|].
    exists c, []. split; [split; [lia|by apply Hp]|]. split; [constructor|split; [done|cbn; lia]].
  - destruct Hstep as (-> & -> & ->). destruct Hp as (d & Hd & Hd0 & Ht & Hk).
    split; [done|]. split; [auto|]. exists (c - d), [d]. split; [by split; [lia|]|].
    split; [constructor; [by split; [lia|]|constructor]|]. cbn. split; [|lia].
    intros Hf. specialize (Hd0 Hf). lia.
Qed.

Section pool.
Context (entry : go S unit → Prop) (env_step : S → S → Prop).
Context (entry_safe : ∀ p, entry p → safe J G p).
Context (env_safe : ∀ s s', J s → env_step s s' → J s' ∧ G s s').
Context (entry_owns : ∀ p s, entry p → owns p 0 s (λ _ c' _, c' = 0)).
Context (env_unlocking : ∀ s s', env_step s s' → unlocking s s').
Context (D_refl : ∀ c s, D c s s).

(** A step keeps count, and changes what is protected only when the lock is
    held. *)
Lemma pool_step_held x y :
  conf_safe J G x → conf_held x → pool_step entry env_step x y →
  conf_held y ∧ ∃ c, 0 <= c <= held x.2 ∧ D c x.2 y.2.
Proof.
  intros Hsafe [Hi (cs & Hts & Hsum)] Hs.
  destruct (pool_step_safe J G entry env_step entry_safe env_safe x y Hsafe Hs) as [[HJ' _] HG].
  destruct Hsafe as [HJ _]. pose proof (zsum_nonneg _ (holders_nonneg _ _ _ Hts)).
  destruct Hs as [ts s i p p' s' fs Hp Ht|ts s p Hp|ts s s' He]; cbn in *.
  - destruct (Forall2_lookup_l _ _ _ _ _ Hts Hp) as (c & Hci & Hc & Hw).
    pose proof (zsum_lookup cs i c (holders_nonneg s ts cs Hts) Hci) as Hle.
    destruct (thread_step_owns p s p' s' fs c HJ Hi ltac:(lia) Hw Ht HJ' HG)
      as (Hi' & HD & c' & ds & Hp' & Hfs & _ & Hc').
    split; [|exists c; split; [lia|auto]]. split; [done|].
    exists (<[i:=c']> cs ++ ds). split.
    + apply Forall2_app; [|done]. apply Forall2_insert; [by eapply holders_later|done].
    + cbn. rewrite zsum_app, (zsum_insert _ _ _ _ Hci). lia.
  - split; [|exists 0; split; [lia|done]]. split; [done|]. exists (cs ++ [0]). split.
    + apply Forall2_app; [done|]. constructor; [by split; [|apply entry_owns]|constructor].
    + rewrite zsum_app. cbn. lia.
  - destruct (env_unlocking s s' He) as (Eh & HD & Hi'). split; [|exists 0; split; [lia|done]].
    split; [by apply Hi'|]. exists cs. split; [by eapply holders_later|]. cbn. lia.
Qed.

Lemma pool_held x y :
  conf_safe J G x → conf_held x → rtc (pool_step entry env_step) x y → conf_held y.
Proof.
  intros Hs Hx Hr. induction Hr as [|x y z Hxy Hr IH]; [done|]. apply IH.
  - by eapply pool_step_safe.
  - by apply (pool_step_held x y).
Qed.
End pool.

(** *** A holder goes on *)

(** Whoever has to be able to take a step takes one. *)
Lemma holder_steps i x p c :
  conf_safe J G x → Inv x.2 → c <= held x.2 → x.1 !! i = Some p → holder_ok x.2 p c →
  must c x.2 → ∃ y, step_of i x y.
Proof.
  intros [HJ Hsafe] Hi Hle Hp [Hc Ho] Hm. pose proof Hm as [Hc1 _].
  pose proof (Forall_lookup_1 _ _ _ _ Hsafe Hp) as Hs.
  destruct p as [a|X f k|X q k|t k|m].
  - specialize (Ho x.2 ltac:(reflexivity)). cbn in Ho. lia.
  - destruct (Ho x.2 ltac:(reflexivity) HJ Hi Hle) as [Hsome _].
    destruct (Hsome Hm) as [[a s'] Hf]. eapply (step_of_can i x); [exact Hp|].
    by exists a.
  - destruct (valid_answer_exists q) as [a Ha]. eapply (step_of_can i x); [exact Hp|].
    by exists a.
  - by eapply (step_of_can i x).
  - done.
Qed.

Lemma step_of_safe i x y :
  conf_safe J G x → step_of i x y → conf_safe J G y ∧ G x.2 y.2.
Proof.
  intros Hs Hy. eapply (pool_step_safe J G (λ _, False) (λ _ _, False)); [done|done|done|].
  by eapply step_of_pool.
Qed.

(** A step of a holder, which nobody else may take notice of. *)
Lemma step_of_holder i x y p c :
  conf_safe J G x → Inv x.2 → c <= held x.2 → x.1 !! i = Some p → holder_ok x.2 p c →
  step_of i x y →
  Inv y.2 ∧ ((∀ c s, D c s s) → D c x.2 y.2) ∧ ∃ p' c' fs ds,
    y.1 = <[i:=p']> x.1 ++ fs ∧ holder_ok y.2 p' c' ∧ Forall2 (holder_ok y.2) fs ds ∧
    (firm = true → zsum ds = 0) ∧ c' + zsum ds = c + (held y.2 - held x.2).
Proof.
  intros Hsafe Hi Hle Hp [Hc Ho] Hy. destruct (step_of_safe i x y Hsafe Hy) as [[HJ' _] HG].
  destruct Hy as (q & p' & fs & Hq & Ht & E). simplify_eq.
  destruct (thread_step_owns p x.2 p' y.2 fs c (proj1 Hsafe) Hi ltac:(lia) Ho Ht HJ' HG)
    as (Hi' & HD & c' & ds & Hp' & Hfs & Hds & Hc').
  split; [done|]. split; [done|]. by exists p', c', fs, ds.
Qed.

(** If all that is held is accounted for, it still is after the step. *)
Lemma step_of_held i x y :
  (∀ c s, D c s s) → conf_safe J G x → conf_held x → step_of i x y →
  conf_safe J G y ∧ conf_held y ∧ ∃ c, D c x.2 y.2.
Proof.
  intros HD Hsafe Hx Hy. split; [by apply (step_of_safe i x)|].
  destruct (pool_step_held (λ _, False) (λ _ _, False) ltac:(done) ltac:(done) ltac:(done)
    ltac:(done) HD x y Hsafe Hx) as (Hh & c & _ & HDc); [by eapply step_of_pool|].
  eauto.
Qed.

(** Running alone, a holder of a mutex gives it back. *)
Lemma holder_gives_back i x p c h :
  firm = true → conf_safe J G x → Inv x.2 → x.1 !! i = Some p → holder_ok x.2 p c →
  c <= held x.2 < h + c → inevitably (λ j, j = i) (λ y, held y.2 < h) x.
Proof.
  intros Hfirm. revert p c. pose (I x := conf_safe J G x ∧ Inv x.2 ∧ ∃ p c,
    x.1 !! i = Some p ∧ holder_ok x.2 p c ∧ c <= held x.2 < h + c).
  intros p c Hs Hi Hp Ho Hc. apply (inevitably_intro _ I);
    [| |by refine (conj Hs (conj Hi _)); exists p, c].
  - clear x p c Hs Hi Hp Ho Hc. intros x (Hs & Hi & p & c & Hp & Ho & Hc).
    destruct (decide (c = 0)) as [->|Hc0]; [left; lia|right]. exists i.
    destruct (holder_steps i x p c) as [y Hy]; [done|done|lia|done|done|..|by exists y].
    destruct Ho. split; [lia|by left].
  - clear x p c Hs Hi Hp Ho Hc. intros j x y (Hs & Hi & p & c & Hp & Ho & Hc) -> Hy.
    destruct (step_of_holder i x y p c Hs Hi ltac:(lia) Hp Ho Hy)
      as (Hi' & _ & p' & c' & fs & ds & E & Ho' & _ & Hds & Hc').
    split; [by apply (step_of_safe i x)|]. split; [done|]. exists p', c'.
    specialize (Hds Hfirm). split; [|split; [done|lia]]. rewrite E.
    apply lookup_app_l_Some, list_lookup_insert_eq. by eapply lookup_lt_Some.
Qed.
End owns.

Create HintDb locks.
#[export] Hint Resolve balanced_NewTicker balanced_ret balanced_panic balanced_ask
  balanced_reads balanced_wait : locks.

Ltac locks_step :=
  match goal with
  | |- balanced ?J ?G _ _ _ _ _ _ _ (bind _ _) =>
      apply (balanced_bind J G); [apply _|..|intros ?]
  | |- balanced _ _ _ _ _ _ _ _ _ (fork _) => apply balanced_fork
  | |- balanced ?J ?G _ _ _ _ _ _ _ (for_each _ _) =>
      apply (balanced_for_each J G); [apply _|intros ?]
  | |- balanced _ _ _ _ _ _ _ _ _ (match ?x with _ => _ end) => destruct x
  | |- balanced _ _ _ _ _ _ _ _ _ (let '_ := ?x in _) => destruct x
  | |- balanced _ _ _ _ _ _ _ _ _ (zoom_reads _ _) =>
      apply balanced_reads; solve [eauto with locks typeclass_instances]
  | |- balanced _ _ _ _ _ _ _ _ _ (zoom_modify _ _) =>
      eapply balanced_zoom_modify; [apply _|try done; intros ?]
  | |- balanced _ _ _ _ _ _ _ _ _ (zoom _ _) =>
      eapply balanced_zoom; [apply _|try done; intros ?]
  | |- balanced _ _ _ _ _ _ _ _ _ (each_shard _ _ _) =>
      eapply balanced_each_shard; [apply _|apply _|apply _|try done; intros ? ?]
  | |- balanced _ _ _ _ _ _ _ _ _ _ => solve [eauto with locks typeclass_instances]
  end.
Ltac locks := repeat (cbv zeta; locks_step).
