(* ===== verification/Redis.v ===== *)
(** * Redis: the token pool kept in Redis (internal/borrow/pool.go)

    The Redis server is outside the repository: its store and its commands
    are the class [RedisStore], and [RedisLaws] states the documented
    behaviour the code relies on.  The two Lua scripts of pool.go are
    translated over these commands; [RedisPool]'s methods are goroutine code
    that sends a script to the server, where a command may also fail before
    or after it ran. *)

From Stdlib Require Import Ascii.
From stdpp Require Import pretty.
From S2P Require Export Go.

(** ** Key names *)

Definition PoolKey (key : string) : string := "krate:" +:+ key +:+ ":pool".
Definition BorrowedKey (key id : string) : string :=
  "krate:" +:+ key +:+ ":borrowed:" +:+ id.
Definition WindowStartKey (key : string) : string :=
  "krate:" +:+ key +:+ ":window_start".
Definition ConfigKey (key : string) : string := "krate:" +:+ key +:+ ":config".
Definition ClusterKey (id : string) : string := "krate:cluster:" +:+ id.

(** ** The server *)

Class RedisStore (R : Type) := {
  redis_GET : string → R → option Z;
  redis_SET : string → Z → R → R;
  redis_DECRBY : string → Z → R → R;
  redis_INCRBY : string → Z → R → R;
  redis_PEXPIRE : string → Z → R → R;
  redis_HSET : string → list (string * string) → R → R;
  redis_HGETALL : string → R → gmap string string;
  redis_HDEL : string → list string → R → R;
  (** Lua's [tonumber] of an integer argument: its numbers are doubles. *)
  lua_tonumber : Z → Z;
}.

Class RedisLaws (R : Type) `{RedisStore R} := {
  GET_SET k v r : redis_GET k (redis_SET k v r) = Some v;
  GET_SET_ne k k' v r : k ≠ k' → redis_GET k (redis_SET k' v r) = redis_GET k r;
  GET_DECRBY k d r :
    redis_GET k (redis_DECRBY k d r) = Some (default 0 (redis_GET k r) - d);
  GET_DECRBY_ne k k' d r :
    k ≠ k' → redis_GET k (redis_DECRBY k' d r) = redis_GET k r;
  GET_INCRBY_ne k k' d r :
    k ≠ k' → redis_GET k (redis_INCRBY k' d r) = redis_GET k r;
  GET_PEXPIRE_ne k k' t r :
    k ≠ k' → redis_GET k (redis_PEXPIRE k' t r) = redis_GET k r;
  GET_HSET k k' fs r : redis_GET k (redis_HSET k' fs r) = redis_GET k r;
  GET_HDEL k k' fs r : redis_GET k (redis_HDEL k' fs r) = redis_GET k r;
  HGETALL_HSET k fs r :
    redis_HGETALL k (redis_HSET k fs r)
      = foldl (λ m '(f, v), <[f:=v]> m) (redis_HGETALL k r) fs;
  HGETALL_HDEL k fs r :
    redis_HGETALL k (redis_HDEL k fs r)
      = foldl (λ m f, delete f m) (redis_HGETALL k r) fs;
  tonumber_exact z : - 2 ^ 53 <= z <= 2 ^ 53 → lua_tonumber z = z;
}.

(** ** The scripts

    [borrowLua] and [windowResetLua], command by command. *)

Section scripts.
Context {R : Type} `{RedisStore R}.

Definition borrowLua (pool_key borrowed_key : string)
    (requested lease_ttl now : Z) (r : R) : Z * R :=
  let requested := lua_tonumber requested in
  let lease_ttl := lua_tonumber lease_ttl in
  let available := lua_tonumber (default 0 (redis_GET pool_key r)) in
  if available <=? 0 then (0, r)
  else
    let granted := Z.min requested available in
    let r := redis_DECRBY pool_key granted r in
    let r := redis_INCRBY borrowed_key granted r in
    let r := redis_PEXPIRE borrowed_key lease_ttl r in
    (granted, r).

Definition windowResetLua (pool_key window_start_key : string)
    (limit new_start : Z) (r : R) : Z * R :=
  let limit := lua_tonumber limit in
  let new_start := lua_tonumber new_start in
  let current_start :=
    lua_tonumber (default 0 (redis_GET window_start_key r)) in
  if current_start <? new_start then
    let r := redis_SET pool_key limit r in
    let r := redis_SET window_start_key new_start r in
    (1, r)
  else (0, r).
End scripts.

(** ** Replies and [strconv] *)

Inductive reply := RInt (val : Z) | RString (val : string) | ROther.

(** [strconv.ParseUint(s, 10, 64)]: the value and the error, both returned. *)
Definition digit_of (c : ascii) : option Z :=
  let n := Z.of_nat (Ascii.nat_of_ascii c) in
  if (48 <=? n) && (n <=? 57) then Some (n - 48) else None.

Fixpoint parse_digits (s : string) (n : Z) : Z * option error :=
  match s with
  | EmptyString => (n, None)
  | String c s =>
      match digit_of c with
      | None => (0, Some (ErrMsg "invalid syntax"))
      | Some d =>
          if max_u64 / 10 + 1 <=? n then (max_u64, Some (ErrMsg "value out of range"))
          else if max_u64 <? n * 10 + d
          then (max_u64, Some (ErrMsg "value out of range"))
          else parse_digits s (n * 10 + d)
      end
  end.

Definition ParseUint (s : string) : Z * option error :=
  match s with
  | EmptyString => (0, Some (ErrMsg "invalid syntax"))
  | _ => parse_digits s 0
  end.

(** [toUint64]. *)
Definition toUint64 (v : reply) : Z * option error :=
  match v with
  | RInt val => (to_u64 val, None)
  | RString val => ParseUint val
  | ROther => (0, Some (ErrMsg "unexpected redis result type"))
  end.

(** ** The pool client *)

(** What the server has executed, newest first: the model's record of the
    tokens it handed out and of the windows it opened. *)
Inductive script_event :=
| EvBorrow (pool_key : string) (granted : Z)
| EvReset (pool_key : string) (limit start : Z).

Record redis_world (R : Type) := mkRW {
  rw_store : R;
  rw_log : list script_event;
}.
Arguments mkRW {R}.
Arguments rw_store {R}.
Arguments rw_log {R}.

(** The bodies of [redis.NewScript(borrowLua)] and
    [redis.NewScript(windowResetLua)]. *)
Inductive Script := BorrowScript | ResetScript.

Record RedisPool := mkPool { scripts : gmap string Script }.

Definition NewRedisPool : RedisPool :=
  mkPool (<["borrow":=BorrowScript]> (<["reset":=ResetScript]> ∅)).

Section pool.
Context {S R : Type} `{RedisStore R} (rl : lens S (redis_world R)).

(** The server runs a script on its keys and arguments. *)
Definition run_body (sc : Script) (keys : list string) (args : list Z)
    (w : redis_world R) : reply * redis_world R :=
  match sc, keys, args with
  | BorrowScript, pk :: bk :: _, req :: ttl :: now :: _ =>
      let '(g, r) := borrowLua pk bk req ttl now (rw_store w) in
      (RInt g, mkRW r (EvBorrow pk g :: rw_log w))
  | ResetScript, pk :: wk :: _, limit :: start :: _ =>
      let '(v, r) := windowResetLua pk wk limit start (rw_store w) in
      (RInt v, mkRW r (if v =? 1 then EvReset pk limit start :: rw_log w
                       else rw_log w))
  | _, _, _ => (ROther, w)
  end.

(** [script.EvalSha] and [script.Eval]: one command to the server. *)
Definition redis_eval (sc : Script) (keys : list string) (args : list Z)
  : go S (reply * option error) :=
  do! t <- ask QTransport;
  match t with
  | TOk => do! v <- zoom rl (run_body sc keys args); Ret (v, None)
  | TNotRun e => Ret (ROther, Some e)
  | TReplyLost e =>
      do! _ <- zoom rl (run_body sc keys args); Ret (ROther, Some e)
  end.

Definition contains_NOSCRIPT (s : string) : bool :=
  match String.index 0 "NOSCRIPT" s with Some _ => true | None => false end.

Definition isNoScriptErr (err : option error) : bool :=
  match err with Some e => contains_NOSCRIPT (err_Error e) | None => false end.

(** [runScript]: [EvalSha], then [Eval] if the server does not know the
    script.  A name that is not in the map is a nil [*redis.Script]. *)
Definition runScript (rp : RedisPool) (name : string) (keys : list string)
    (args : list Z) : go S (reply * option error) :=
  match scripts rp !! name with
  | None => Panic "invalid memory address or nil pointer dereference"
  | Some script =>
      do! (result, err) <- redis_eval script keys args;
      if isNoScriptErr err then redis_eval script keys args
      else Ret (result, err)
  end.

Definition RP_Borrow (rp : RedisPool) (key instanceID : string)
    (requested leaseTTLms : Z) : go S (Z * option error) :=
  let keys := [PoolKey key; BorrowedKey key instanceID] in
  do! t <- ask QNow;
  let now := UnixMilli t in
  do! (result, err) <-
    runScript rp "borrow" keys [to_i64 requested; leaseTTLms; now];
  match err with
  | Some e => Ret (0, Some (ErrWrap "borrow script" e))
  | None => Ret (toUint64 result)
  end.

Definition RP_ResetWindow (rp : RedisPool) (key : string)
    (newLimit windowStartMs : Z) : go S (option error) :=
  let keys := [PoolKey key; WindowStartKey key; ConfigKey key] in
  do! (_, err) <- runScript rp "reset" keys [to_i64 newLimit; windowStartMs];
  Ret err.

Definition DeleteBorrowedKeys (keyPattern : string) : go S (option error) :=
  Ret None.

(** [types.go] and pool.go both declare this record. *)
Record PoolState := mkPoolState {
  ps_Remaining : Z; ps_WindowStart : Z; ps_Limit : Z; ps_WindowMs : Z;
}.

(** [strconv.ParseInt(s, 10, 64)]. *)
Definition ParseInt (s : string) : Z * option error :=
  let '(neg, digits) :=
    match s with
    | String "-" s' => (true, s')
    | String "+" s' => (false, s')
    | _ => (false, s)
    end in
  let '(u, err) := ParseUint digits in
  match err with
  | Some (ErrMsg "invalid syntax") => (0, err)
  | _ =>
      if negb neg && (2 ^ 63 <=? u) then (2 ^ 63 - 1, Some (ErrMsg "value out of range"))
      else if neg && (2 ^ 63 <? u) then (- 2 ^ 63, Some (ErrMsg "value out of range"))
      else (if neg then - u else u, None)
  end.

(** [GetState]: three reads in a pipeline, errors ignored field by field.
    [avail] says whether each command of the pipeline was answered. *)
Definition pool_state_of (pool window : option string)
    (config : option (gmap string string)) : PoolState :=
  mkPoolState
    (match pool with Some v => (ParseUint v).1 | None => 0 end)
    (match window with Some v => (ParseInt v).1 | None => 0 end)
    (match config ≫= (.!! "limit") with Some v => (ParseUint v).1 | None => 0 end)
    (match config ≫= (.!! "window_ms") with Some v => (ParseInt v).1 | None => 0 end).

Definition GetState (key : string) : go S (PoolState * option error) :=
  do! t <- ask QTransport;
  match t with
  | TOk =>
      do! st <- zoom_reads rl (λ w,
        let r := rw_store w in
        pool_state_of (pretty <$> redis_GET (PoolKey key) r)
          (pretty <$> redis_GET (WindowStartKey key) r)
          (Some (redis_HGETALL (ConfigKey key) r)));
      Ret (st, None)
  | _ => Ret (pool_state_of None None None, None)
  end.

Definition EnsureConfig (key : string) (limit windowMs : Z)
  : go S (option error) :=
  let write := zoom_modify rl (λ w,
    mkRW (redis_HSET (ConfigKey key)
            [("limit", pretty limit); ("window_ms", pretty windowMs)]
            (rw_store w)) (rw_log w)) in
  do! t <- ask QTransport;
  match t with
  | TOk => do! _ <- write; Ret None
  | TNotRun e => Ret (Some e)
  | TReplyLost e => do! _ <- write; Ret (Some e)
  end.
End pool.

(** ** The pool as a client sees it

    [PoolClient] is the interface of manager.go; [RedisPool] implements it. *)

Class PoolClient (S : Type) := {
  Borrow : string → string → Z → Z → go S (Z * option error);
}.

Definition redis_pool_client {S R} `{RedisStore R}
    (rl : lens S (redis_world R)) (rp : RedisPool) : PoolClient S :=
  {| Borrow := RP_Borrow rl rp |}.

(** ** A concrete server, for the witnesses *)

Record mem_redis := mkMem {
  mem_vals : gmap string Z;
  mem_hashes : gmap string (gmap string string);
}.

Definition upd_vals (f : gmap string Z → gmap string Z) (m : mem_redis) :=
  mkMem (f (mem_vals m)) (mem_hashes m).
Definition upd_hash (k : string)
    (f : gmap string string → gmap string string) (m : mem_redis) :=
  mkMem (mem_vals m) (<[k := f (default ∅ (mem_hashes m !! k))]> (mem_hashes m)).

#[export] Instance mem_store : RedisStore mem_redis := {
  redis_GET k m := mem_vals m !! k;
  redis_SET k v := upd_vals <[k:=v]>;
  redis_DECRBY k d m := upd_vals <[k:=default 0 (mem_vals m !! k) - d]> m;
  redis_INCRBY k d m := upd_vals <[k:=default 0 (mem_vals m !! k) + d]> m;
  redis_PEXPIRE k t m := m;
  redis_HSET k fs := upd_hash k (λ h, foldl (λ m '(f, v), <[f:=v]> m) h fs);
  redis_HGETALL k m := default ∅ (mem_hashes m !! k);
  redis_HDEL k fs := upd_hash k (λ h, foldl (λ m f, delete f m) h fs);
  lua_tonumber z := z;
}.

#[export] Instance mem_laws : RedisLaws mem_redis.
Proof.
  split; intros; cbn; rewrite ?lookup_insert_eq, ?lookup_insert_ne by congruence;
    done.
Qed.

(** ** Facts about the scripts *)

Section script_facts.
Context {R : Type} `{RedisLaws R}.

(** Small enough for Lua's doubles. *)
Definition lua_ok (z : Z) : Prop := - 2 ^ 53 <= z <= 2 ^ 53.

Lemma borrowLua_spec pk bk req ttl now r g r' :
  pk ≠ bk → 0 <= req → lua_ok req → lua_ok (default 0 (redis_GET pk r)) →
  0 <= default 0 (redis_GET pk r) →
  borrowLua pk bk req ttl now r = (g, r') →
  g = Z.min req (default 0 (redis_GET pk r)) ∧
  default 0 (redis_GET pk r') = default 0 (redis_GET pk r) - g.
Proof.
  intros Hne Hr Hreq Hpool Hp0. unfold borrowLua.
  rewrite !(tonumber_exact req) by done.
  rewrite (tonumber_exact (default 0 (redis_GET pk r))) by done.
  destruct (Z.leb_spec (default 0 (redis_GET pk r)) 0); intros [= <- <-].
  - lia.
  - rewrite GET_PEXPIRE_ne, GET_INCRBY_ne, GET_DECRBY by done. cbn. lia.
Qed.

Lemma borrowLua_other k pk bk req ttl now r :
  k ≠ pk → k ≠ bk →
  redis_GET k (borrowLua pk bk req ttl now r).2 = redis_GET k r.
Proof.
  intros H1 H2. unfold borrowLua.
  destruct (_ <=? 0); cbn; [done|].
  by rewrite GET_PEXPIRE_ne, GET_INCRBY_ne, GET_DECRBY_ne.
Qed.

Lemma windowResetLua_spec pk wk limit start r v r' :
  pk ≠ wk → lua_ok limit → lua_ok start →
  lua_ok (default 0 (redis_GET wk r)) →
  windowResetLua pk wk limit start r = (v, r') →
  let cur := default 0 (redis_GET wk r) in
  (start <= cur ∧ v = 0 ∧ r' = r) ∨
  (cur < start ∧ v = 1 ∧ redis_GET pk r' = Some limit ∧
   redis_GET wk r' = Some start).
Proof.
  intros Hne Hl Hs Hc. unfold windowResetLua. cbv zeta.
  rewrite (tonumber_exact limit), (tonumber_exact start) by done.
  rewrite (tonumber_exact (default 0 (redis_GET wk r))) by done.
  destruct (Z.ltb_spec (default 0 (redis_GET wk r)) start); intros [= <- <-].
  - right. rewrite GET_SET_ne, GET_SET, GET_SET by done. done.
  - left. done.
Qed.

Lemma windowResetLua_other k pk wk limit start r :
  k ≠ pk → k ≠ wk →
  redis_GET k (windowResetLua pk wk limit start r).2 = redis_GET k r.
Proof.
  intros H1 H2. unfold windowResetLua. cbv zeta.
  destruct (_ <? _); cbn; [|done]. by rewrite !GET_SET_ne.
Qed.
End script_facts.

(** ** Borrowing through a connection that fails *)

Lemma PoolKey_BorrowedKey key id : PoolKey key ≠ BorrowedKey key id.
Proof.
  intros E. apply (f_equal chars) in E. revert E.
  unfold PoolKey, BorrowedKey. rewrite !chars_app. intros E.
  repeat (apply app_inv_head in E || (rewrite <- app_assoc in E)).
  discriminate.
Qed.

Section borrow.
Context {S R : Type} `{RedisLaws R} (rl : lens S (redis_world R)).

(** What the pool of a key holds. *)
Definition pool_tokens (key : string) (s : S) : Z :=
  default 0 (redis_GET (PoolKey key) (rw_store (lget rl s))).

(** How the command that runs the script ends: a server that does not know
    the script is asked again with its text. *)
Definition script_end (env : environment) (i : nat) : transport :=
  match env _ QTransport i with
  | TNotRun e =>
      if contains_NOSCRIPT (err_Error e) then env _ QTransport (Datatypes.S i)
      else TNotRun e
  | t => t
  end.

Lemma exec_runScript_borrow (env : environment) i s pk bk req ttl now :
  (∀ j e, env _ QTransport j = TReplyLost e → contains_NOSCRIPT (err_Error e) = false) →
  let '(v, w) := run_body BorrowScript [pk; bk] [req; ttl; now] (lget rl s) in
  ∃ j, exec env i (runScript rl NewRedisPool "borrow" [pk; bk] [req; ttl; now]) s =
    match script_end env i with
    | TOk => Done (v, None) (lput rl w s) [] j
    | TNotRun e => Done (ROther, Some e) s [] j
    | TReplyLost e => Done (ROther, Some e) (lput rl w s) [] j
    end.
Proof.
  intros Hlost. destruct (run_body _ _ _ _) as [v w] eqn:Eb.
  assert (Hz : ∀ {B} j (k : reply → go S B),
    exec env j (do! v <- zoom rl (run_body BorrowScript [pk; bk] [req; ttl; now]); k v) s
      = exec env j (k v) (lput rl w s)).
  { intros B j k. cbn [bind exec zoom atomically]. by rewrite Eb. }
  unfold runScript, script_end.
  change (scripts NewRedisPool !! "borrow") with (Some BorrowScript).
  cbn [redis_eval bind ask exec].
  pose proof (Hlost i) as Hl. destruct (env transport QTransport i) as [|e|e] eqn:E1.
  - eexists. rewrite exec_bind, Hz. cbn. done.
  - cbn [bind exec isNoScriptErr].
    destruct (contains_NOSCRIPT (err_Error e)); [|by eexists].
    cbn [redis_eval bind ask exec].
    destruct (env transport QTransport (Datatypes.S i)) as [|e'|e'] eqn:E2.
    + eexists. rewrite Hz. done.
    + by eexists.
    + eexists. rewrite Hz. done.
  - eexists. rewrite exec_bind, Hz. cbn [exec push_forks bind app isNoScriptErr].
    rewrite (Hl e) by done. done.
Qed.

(** C18: borrowing.  [RedisPool.Borrow] gets what it asks for, or what the
    pool has if that is less, and exactly that leaves the pool; a command
    that did not run is an error and takes nothing; and one whose reply was
    lost is an error although the tokens are gone.  A server without the
    script is asked again. *)
Theorem RP_Borrow_spec (env : environment) i s key id req ttl :
  (∀ j e, env _ QTransport j = TReplyLost e → contains_NOSCRIPT (err_Error e) = false) →
  0 <= req <= 2 ^ 53 → 0 <= pool_tokens key s <= 2 ^ 53 →
  let g := Z.min req (pool_tokens key s) in
  ∃ res s' j,
    exec env i (RP_Borrow rl NewRedisPool key id req ttl) s = Done res s' [] j ∧
    match script_end env (Datatypes.S i) with
    | TOk => res = (g, None) ∧ pool_tokens key s' = pool_tokens key s - g
    | TNotRun e => res = (0, Some (ErrWrap "borrow script" e)) ∧ s' = s
    | TReplyLost e =>
        res = (0, Some (ErrWrap "borrow script" e)) ∧
        pool_tokens key s' = pool_tokens key s - g
    end.
Proof.
  intros Hlost Hreq Hpool g.
  pose proof (exec_runScript_borrow env (Datatypes.S i) s (PoolKey key)
    (BorrowedKey key id) (to_i64 req) ttl (UnixMilli (env _ QNow i)) Hlost) as HR.
  unfold RP_Borrow. cbn [bind ask exec].
  cbn [run_body] in HR.
  destruct (borrowLua _ _ _ _ _ _) as [g' r'] eqn:El.
  rewrite (to_i64_small req) in * by (unfold is_i64; lia).
  apply borrowLua_spec in El as [-> Hr']; [|apply PoolKey_BorrowedKey|
    lia|unfold lua_ok; lia|unfold lua_ok, pool_tokens in *; lia|apply Hpool].
  fold (pool_tokens key s) in HR, Hr'. fold g in HR, Hr'.
  destruct HR as [j HR]. rewrite exec_bind, HR.
  assert (Hput : ∀ ev, pool_tokens key (lput rl (mkRW r' ev) s) = pool_tokens key s - g).
  { intros ev. unfold pool_tokens at 1. by rewrite lget_put. }
  destruct (script_end env (Datatypes.S i)) as [|e|e]; cbn [push_forks app exec toUint64].
  - do 3 eexists. split; [done|]. split; [|apply Hput].
    rewrite to_u64_small; [done|]. unfold is_u64. lia.
  - do 3 eexists. split; [done|]. done.
  - do 3 eexists. split; [done|]. split; [done|]. apply Hput.
Qed.
End borrow.

Lemma RP_Borrow_spec_witness :
  let s := mkRW (redis_SET (PoolKey "k") 70 (mkMem ∅ ∅)) [] in
  ∃ res s' j,
    exec (clock_env 0) 0 (RP_Borrow lens_id NewRedisPool "k" "i" 100 1000) s
      = Done res s' [] j ∧
    res = (70, None) ∧ pool_tokens lens_id "k" s' = 0.
Proof.
  intros s.
  destruct (RP_Borrow_spec lens_id (clock_env 0) 0 s "k" "i" 100 1000)
    as (res & s' & j & H1 & H2 & H3).
  - discriminate.
  - lia.
  - vm_compute. split; discriminate.
  - exists res, s', j. split; [exact H1|]. split; [exact H2|]. exact H3.
Defined.
