(* ===== verification/Json.v ===== *)
(** * Json: the part of encoding/json the program uses

    Strings, decimal integers and objects of them are written as
    [json.Marshal] writes them, and any text is read as [json.Unmarshal] reads
    it: the grammar of JSON, the escapes of strings, malformed UTF-8 replaced
    by U+FFFD, and at most 10000 nested arrays and objects.  A Go string is a
    byte string, so a Rocq [string]. *)

From stdpp Require Import pretty.
From Stdlib Require Import Ascii.
From S2P Require Export Redis.

(** ** Bytes and UTF-8 *)

Definition code (c : ascii) : Z := Z.of_nat (nat_of_ascii c).
Definition chr (z : Z) : ascii := ascii_of_nat (Z.to_nat z).
Definition between (lo hi : Z) (c : ascii) : bool := (lo <=? code c) && (code c <=? hi).
Definition cont (c : ascii) : bool := between 128 191 c.

(** The byte sequences of length two, three and four that are a rune
    (unicode/utf8). *)
Definition utf8_2 (c1 c2 : ascii) : bool := between 194 223 c1 && cont c2.
Definition utf8_3 (c1 c2 c3 : ascii) : bool :=
  ((code c1 =? 224) && between 160 191 c2
   || (between 225 236 c1 || between 238 239 c1) && cont c2
   || (code c1 =? 237) && between 128 159 c2) && cont c3.
Definition utf8_4 (c1 c2 c3 c4 : ascii) : bool :=
  ((code c1 =? 240) && between 144 191 c2
   || between 241 243 c1 && cont c2
   || (code c1 =? 244) && between 128 143 c2) && cont c3 && cont c4.

(** [utf8.ValidString]. *)
Fixpoint valid_utf8 (s : string) : bool :=
  match s with
  | EmptyString => true
  | String c1 s1 =>
      if code c1 <? 128 then valid_utf8 s1 else
      match s1 with
      | EmptyString => false
      | String c2 s2 =>
          if utf8_2 c1 c2 then valid_utf8 s2 else
          match s2 with
          | EmptyString => false
          | String c3 s3 =>
              if utf8_3 c1 c2 c3 then valid_utf8 s3 else
              match s3 with
              | EmptyString => false
              | String c4 s4 => if utf8_4 c1 c2 c3 c4 then valid_utf8 s4 else false
              end
          end
      end
  end.

(** [utf8.AppendRune] of a rune that is not a surrogate. *)
Definition encode_rune (r : Z) : string :=
  let tail k := chr (Z.lor 128 (Z.land (Z.shiftr r k) 63)) in
  if r <? 128 then String (chr r) ""
  else if r <? 2048 then
    String (chr (Z.lor 192 (Z.shiftr r 6))) (String (tail 0) "")
  else if r <? 65536 then
    String (chr (Z.lor 224 (Z.shiftr r 12))) (String (tail 6) (String (tail 0) ""))
  else
    String (chr (Z.lor 240 (Z.shiftr r 18)))
      (String (tail 12) (String (tail 6) (String (tail 0) ""))).

(** [utf8.RuneError], U+FFFD. *)
Definition RuneError : string := encode_rune 65533.

(** ** Strings *)

Definition quote : ascii := "034"%char.
Definition backslash : ascii := "\"%char.

Definition hex_digit (z : Z) : ascii := chr (if z <? 10 then 48 + z else 87 + z).

(** One byte below 128; HTML is escaped too. *)
Definition escape_ascii (c : ascii) : string :=
  let z := code c in
  if (z =? 34) || (z =? 92) then String backslash (String c "")
  else if z =? 8 then "\b" else if z =? 12 then "\f" else if z =? 10 then "\n"
  else if z =? 13 then "\r" else if z =? 9 then "\t"
  else if (z <? 32) || (z =? 60) || (z =? 62) || (z =? 38)
  then "\u00" +:+ String (hex_digit (Z.shiftr z 4)) (String (hex_digit (Z.land z 15)) "")
  else String c "".

(** [appendString], without the quotes around. *)
Fixpoint escape (s : string) : string :=
  match s with
  | EmptyString => ""
  | String c1 s1 =>
      if code c1 <? 128 then escape_ascii c1 +:+ escape s1 else
      match s1 with
      | EmptyString => "\ufffd"
      | String c2 s2 =>
          if utf8_2 c1 c2 then String c1 (String c2 (escape s2)) else
          match s2 with
          | EmptyString => "\ufffd" +:+ escape s1
          | String c3 s3 =>
              if utf8_3 c1 c2 c3 then
                (if (code c1 =? 226) && (code c2 =? 128)
                    && ((code c3 =? 168) || (code c3 =? 169))
                 then "\u202" +:+ String (hex_digit (Z.land (code c3) 15)) ""
                 else String c1 (String c2 (String c3 ""))) +:+ escape s3
              else
              match s3 with
              | EmptyString => "\ufffd" +:+ escape s1
              | String c4 s4 =>
                  if utf8_4 c1 c2 c3 c4
                  then String c1 (String c2 (String c3 (String c4 (escape s4))))
                  else "\ufffd" +:+ escape s1
              end
          end
      end
  end.

Definition write_string (s : string) : string :=
  String quote (escape s +:+ String quote "").

(** An object of members that are written already. *)
Definition write_member (m : string * string) : string :=
  write_string m.1 +:+ ":" +:+ m.2.

Fixpoint write_members (l : list (string * string)) : string :=
  match l with
  | [] => ""
  | [m] => write_member m
  | m :: l => write_member m +:+ "," +:+ write_members l
  end.

Definition write_object (l : list (string * string)) : string :=
  "{" +:+ write_members l +:+ "}".

(** The escapes of one letter. *)
Definition unescape_letter (c : ascii) : option ascii :=
  let z := code c in
  if (z =? 34) || (z =? 92) || (z =? 47) then Some c
  else if z =? 98 then Some (chr 8) else if z =? 102 then Some (chr 12)
  else if z =? 110 then Some (chr 10) else if z =? 114 then Some (chr 13)
  else if z =? 116 then Some (chr 9) else None.

Definition hex_value (c : ascii) : option Z :=
  if between 48 57 c then Some (code c - 48)
  else if between 97 102 c then Some (code c - 87)
  else if between 65 70 c then Some (code c - 55) else None.

(** [getu4]. *)
Definition hex4 (a b c d : ascii) : option Z :=
  match hex_value a, hex_value b, hex_value c, hex_value d with
  | Some a, Some b, Some c, Some d => Some (((a * 16 + b) * 16 + c) * 16 + d)
  | _, _, _, _ => None
  end.

Definition in_front (p : string) (r : option (string * string))
  : option (string * string) :=
  match r with Some (t, rest) => Some (p +:+ t, rest) | None => None end.

(** From behind the opening quote: the string ([unquoteBytes]) and what
    follows the closing quote. *)
Fixpoint unescape (s : string) : option (string * string) :=
  match s with
  | EmptyString => None
  | String c1 s1 =>
      if code c1 =? 34 then Some ("", s1)
      else if code c1 <? 32 then None
      else if code c1 =? 92 then
        match s1 with
        | EmptyString => None
        | String e s2 =>
            match unescape_letter e with
            | Some c => in_front (String c "") (unescape s2)
            | None =>
                if code e =? 117 then
                  match s2 with
                  | String h1 (String h2 (String h3 (String h4 s6))) =>
                      match hex4 h1 h2 h3 h4 with
                      | None => None
                      | Some r =>
                          if (r <? 55296) || (57343 <? r)
                          then in_front (encode_rune r) (unescape s6) else
                          match s6 with
                          | String b (String u (String g1 (String g2
                              (String g3 (String g4 s12))))) =>
                              match hex4 g1 g2 g3 g4 with
                              | Some r2 =>
                                  if (code b =? 92) && (code u =? 117) && (r <? 56320)
                                     && (56320 <=? r2) && (r2 <? 57344)
                                  then in_front (encode_rune
                                         ((r - 55296) * 1024 + (r2 - 56320) + 65536))
                                         (unescape s12)
                                  else in_front RuneError (unescape s6)
                              | None => in_front RuneError (unescape s6)
                              end
                          | _ => in_front RuneError (unescape s6)
                          end
                      end
                  | _ => None
                  end
                else None
            end
        end
      else if code c1 <? 128 then in_front (String c1 "") (unescape s1)
      else
        match s1 with
        | EmptyString => None
        | String c2 s2 =>
            if utf8_2 c1 c2 then in_front (String c1 (String c2 "")) (unescape s2) else
            match s2 with
            | EmptyString => in_front RuneError (unescape s1)
            | String c3 s3 =>
                if utf8_3 c1 c2 c3
                then in_front (String c1 (String c2 (String c3 ""))) (unescape s3) else
                match s3 with
                | EmptyString => in_front RuneError (unescape s1)
                | String c4 s4 =>
                    if utf8_4 c1 c2 c3 c4
                    then in_front (String c1 (String c2 (String c3 (String c4 ""))))
                           (unescape s4)
                    else in_front RuneError (unescape s1)
                end
            end
        end
  end.

(** ** Values *)

(** A number is its literal; what it is read into decides its value. *)
Inductive json :=
| JNull | JBool (b : bool) | JNum (lit : string) | JStr (s : string)
| JArr (l : list json) | JObj (l : list (string * json)).

Fixpoint skip_space (s : string) : string :=
  match s with
  | String c s' =>
      if (code c =? 32) || (code c =? 9) || (code c =? 10) || (code c =? 13)
      then skip_space s' else s
  | EmptyString => s
  end.

Fixpoint take_digits (s : string) : string * string :=
  match s with
  | String c s' =>
      if between 48 57 c then let '(d, r) := take_digits s' in (String c d, r)
      else ("", s)
  | EmptyString => ("", "")
  end.

(** At least one digit. *)
Definition some_digits (s : string) : option (string * string) :=
  match take_digits s with
  | (EmptyString, _) => None
  | dr => Some dr
  end.

(** A number: an integer part without leading zeroes, a fraction, an
    exponent. *)
Definition parse_int_part (s : string) : option (string * string) :=
  match s with
  | String c s' =>
      if code c =? 48 then Some (String c "", s') else some_digits s
  | EmptyString => None
  end.

Definition parse_frac (s : string) : option (string * string) :=
  match s with
  | String c s' =>
      if code c =? 46 then in_front (String c "") (some_digits s') else Some ("", s)
  | EmptyString => Some ("", s)
  end.

Definition parse_exp (s : string) : option (string * string) :=
  match s with
  | String c s' =>
      if (code c =? 101) || (code c =? 69) then
        in_front (String c "")
          (match s' with
           | String d s'' =>
               if (code d =? 43) || (code d =? 45)
               then in_front (String d "") (some_digits s'') else some_digits s'
           | EmptyString => None
           end)
      else Some ("", s)
  | EmptyString => Some ("", s)
  end.

Definition parse_unsigned (s : string) : option (string * string) :=
  match parse_int_part s with
  | None => None
  | Some (i, s) =>
      in_front i (match parse_frac s with
                  | None => None
                  | Some (f, s) => in_front f (parse_exp s)
                  end)
  end.

Definition parse_number (s : string) : option (string * string) :=
  match s with
  | String c s' =>
      if code c =? 45 then in_front (String c "") (parse_unsigned s')
      else parse_unsigned s
  | EmptyString => None
  end.

(** [lit] and what follows it. *)
Fixpoint expect (lit s : string) : option string :=
  match lit, s with
  | EmptyString, _ => Some s
  | String a lit, String b s => if code a =? code b then expect lit s else None
  | String _ _, EmptyString => None
  end.

Section loops.
Context (value : string → option (json * string)).

(** From the start of an element to behind the closing bracket; [fuel] is at
    least the number of elements. *)
Fixpoint parse_elements (fuel : nat) (s : string) : option (list json * string) :=
  match fuel with
  | O => None
  | S fuel =>
      match value s with
      | None => None
      | Some (v, s) =>
          match skip_space s with
          | String c s =>
              if code c =? 93 then Some ([v], s)
              else if code c =? 44 then
                match parse_elements fuel s with
                | Some (l, s) => Some (v :: l, s)
                | None => None
                end
              else None
          | EmptyString => None
          end
      end
  end.

Definition parse_member (s : string) : option (string * json * string) :=
  match skip_space s with
  | String c s =>
      if code c =? 34 then
        match unescape s with
        | None => None
        | Some (k, s) =>
            match skip_space s with
            | String c s =>
                if code c =? 58 then
                  match value s with Some (v, s) => Some (k, v, s) | None => None end
                else None
            | EmptyString => None
            end
        end
      else None
  | EmptyString => None
  end.

Fixpoint parse_members (fuel : nat) (s : string)
  : option (list (string * json) * string) :=
  match fuel with
  | O => None
  | S fuel =>
      match parse_member s with
      | None => None
      | Some (k, v, s) =>
          match skip_space s with
          | String c s =>
              if code c =? 125 then Some ([(k, v)], s)
              else if code c =? 44 then
                match parse_members fuel s with
                | Some (l, s) => Some ((k, v) :: l, s)
                | None => None
                end
              else None
          | EmptyString => None
          end
      end
  end.
End loops.

(** A value and what follows it, with at most [depth] containers open. *)
Fixpoint parse_value (depth : nat) (s : string) : option (json * string) :=
  match skip_space s with
  | EmptyString => None
  | String c s1 =>
      if code c =? 34 then
        match unescape s1 with Some (t, r) => Some (JStr t, r) | None => None end
      else if code c =? 123 then
        match depth with
        | O => None
        | S depth =>
            match skip_space s1 with
            | EmptyString => None
            | String c2 s2 =>
                if code c2 =? 125 then Some (JObj [], s2) else
                match parse_members (parse_value depth) (String.length s1) s1 with
                | Some (l, r) => Some (JObj l, r)
                | None => None
                end
            end
        end
      else if code c =? 91 then
        match depth with
        | O => None
        | S depth =>
            match skip_space s1 with
            | EmptyString => None
            | String c2 s2 =>
                if code c2 =? 93 then Some (JArr [], s2) else
                match parse_elements (parse_value depth) (String.length s1) s1 with
                | Some (l, r) => Some (JArr l, r)
                | None => None
                end
            end
        end
      else if code c =? 110 then
        match expect "ull" s1 with Some r => Some (JNull, r) | None => None end
      else if code c =? 116 then
        match expect "rue" s1 with Some r => Some (JBool true, r) | None => None end
      else if code c =? 102 then
        match expect "alse" s1 with Some r => Some (JBool false, r) | None => None end
      else
        match parse_number (String c s1) with
        | Some (lit, r) => Some (JNum lit, r)
        | None => None
        end
  end.

Definition maxNestingDepth : nat := Z.to_nat 10000.

(** The whole text is one value. *)
Definition parse_json (s : string) : option json :=
  match parse_value maxNestingDepth s with
  | Some (v, r) => match skip_space r with EmptyString => Some v | _ => None end
  | None => None
  end.

(** ** What is written is read back *)

(** *** Strings *)

Lemma code_range c : 0 <= code c < 256.
Proof. unfold code. pose proof (nat_ascii_bounded c). lia. Qed.

Lemma code_inj c d : code c = code d → c = d.
Proof.
  unfold code. intros H. rewrite <- (ascii_nat_embedding c), <- (ascii_nat_embedding d).
  f_equal. lia.
Qed.

Lemma between_spec lo hi c : between lo hi c = true ↔ lo <= code c <= hi.
Proof. unfold between. rewrite andb_true_iff, !Z.leb_le. done. Qed.

(** Induction over the runes of a valid string. *)
Lemma utf8_ind (P : string → Prop) :
  P "" →
  (∀ c s, code c < 128 → P s → P (String c s)) →
  (∀ c1 c2 s, utf8_2 c1 c2 = true → P s → P (String c1 (String c2 s))) →
  (∀ c1 c2 c3 s, utf8_2 c1 c2 = false → utf8_3 c1 c2 c3 = true → P s →
     P (String c1 (String c2 (String c3 s)))) →
  (∀ c1 c2 c3 c4 s, utf8_2 c1 c2 = false → utf8_3 c1 c2 c3 = false →
     utf8_4 c1 c2 c3 c4 = true → P s →
     P (String c1 (String c2 (String c3 (String c4 s))))) →
  ∀ s, valid_utf8 s = true → P s.
Proof.
  intros H0' H1' H2' H3' H4'.
  assert (H : ∀ n s, (String.length s <= n)%nat → valid_utf8 s = true → P s).
  { induction n as [|n IH]; intros [|c1 s1] Hn Hv; cbn in Hn; [done|lia|done|].
    cbn [valid_utf8] in Hv. destruct (Z.ltb_spec (code c1) 128).
    { apply H1'; [done|]. apply IH; [lia|done]. }
    destruct s1 as [|c2 s2]; [done|]. cbn in Hn.
    destruct (utf8_2 c1 c2) eqn:E2. { apply H2'; [done|]. apply IH; [lia|done]. }
    destruct s2 as [|c3 s3]; [done|]. cbn in Hn.
    destruct (utf8_3 c1 c2 c3) eqn:E3. { apply H3'; [done..|]. apply IH; [lia|done]. }
    destruct s3 as [|c4 s4]; [done|]. cbn in Hn.
    destruct (utf8_4 c1 c2 c3 c4) eqn:E4; [|done].
    apply H4'; [done..|]. apply IH; [lia|done]. }
  intros s. by apply (H (String.length s)).
Qed.

Lemma utf8_2_first c1 c2 : utf8_2 c1 c2 = true → 194 <= code c1.
Proof. unfold utf8_2. intros [H _]%andb_true_iff. apply between_spec in H. lia. Qed.

Lemma utf8_3_first c1 c2 c3 : utf8_3 c1 c2 c3 = true → 224 <= code c1.
Proof.
  unfold utf8_3, between. rewrite !andb_true_iff, !orb_true_iff, !andb_true_iff,
    !orb_true_iff, !andb_true_iff, !Z.leb_le, !Z.eqb_eq. lia.
Qed.

Lemma utf8_4_first c1 c2 c3 c4 : utf8_4 c1 c2 c3 c4 = true → 240 <= code c1.
Proof.
  unfold utf8_4, between. rewrite !andb_true_iff, !orb_true_iff, !andb_true_iff,
    !Z.leb_le, !Z.eqb_eq. lia.
Qed.

(** A byte from 128 on starts no escape and ends nothing. *)
Lemma unescape_high c s :
  128 <= code c →
  unescape (String c s) =
    match s with
    | EmptyString => None
    | String c2 s2 =>
        if utf8_2 c c2 then in_front (String c (String c2 "")) (unescape s2) else
        match s2 with
        | EmptyString => in_front RuneError (unescape s)
        | String c3 s3 =>
            if utf8_3 c c2 c3
            then in_front (String c (String c2 (String c3 ""))) (unescape s3) else
            match s3 with
            | EmptyString => in_front RuneError (unescape s)
            | String c4 s4 =>
                if utf8_4 c c2 c3 c4
                then in_front (String c (String c2 (String c3 (String c4 ""))))
                       (unescape s4)
                else in_front RuneError (unescape s)
            end
        end
    end.
Proof.
  intros Hc. cbn [unescape].
  destruct (Z.eqb_spec (code c) 34); [lia|]. destruct (Z.ltb_spec (code c) 32); [lia|].
  destruct (Z.eqb_spec (code c) 92); [lia|]. destruct (Z.ltb_spec (code c) 128); [lia|].
  done.
Qed.

Lemma chr_code c : chr (code c) = c.
Proof. unfold chr, code. by rewrite Nat2Z.id, ascii_nat_embedding. Qed.

(** How the byte [c] is written: as it is, as a backslash and a letter, or as
    four hexadecimal digits; and that each is read back. *)
Definition plain_ok (c : ascii) : bool :=
  bool_decide (escape_ascii c = String c "") && (32 <=? code c)
  && negb (code c =? 34) && negb (code c =? 92) && (code c <? 128).

Definition escape_ok (c : ascii) : bool :=
  match escape_ascii c with
  | String b (String e EmptyString) =>
      (code b =? 92) && bool_decide (unescape_letter e = Some c)
  | String b (String u (String h1 (String h2 (String h3 (String h4 EmptyString))))) =>
      (code b =? 92) && (code u =? 117) && bool_decide (unescape_letter u = None)
      && bool_decide (hex4 h1 h2 h3 h4 = Some (code c))
      && bool_decide (encode_rune (code c) = String c "")
  | _ => false
  end.

Lemma escape_ascii_ok c : code c < 128 → plain_ok c || escape_ok c = true.
Proof.
  intros Hc. rewrite <- (chr_code c). pose proof (code_range c).
  assert (Hall : forallb (λ k, plain_ok (chr (Z.of_nat k)) || escape_ok (chr (Z.of_nat k)))
                   (seq 0 128) = true) by (vm_compute; reflexivity).
  rewrite forallb_forall in Hall. rewrite <- (Z2Nat.id (code c)) by lia.
  apply Hall, in_seq. lia.
Qed.

Lemma unescape_plain c s t r :
  plain_ok c = true → unescape s = Some (t, r) →
  unescape (escape_ascii c +:+ s) = Some (String c t, r).
Proof.
  unfold plain_ok. rewrite !andb_true_iff, bool_decide_eq_true, !negb_true_iff.
  intros [[[[-> Hc] Hq] Hb] Hlt] Hs. change (String c "" +:+ s) with (String c s).
  cbn [unescape]. rewrite Hq, Hb, Hlt, Hs.
  by rewrite (proj2 (Z.ltb_ge _ _)) by (apply Z.leb_le in Hc; lia).
Qed.

Lemma unescape_escaped c s t r :
  escape_ok c = true → code c < 128 → unescape s = Some (t, r) →
  unescape (escape_ascii c +:+ s) = Some (String c t, r).
Proof.
  unfold escape_ok. intros Hok Hc Hs.
  destruct (escape_ascii c) as [|b [|e [|h1 [|h2 [|h3 [|h4 []]]]]]]; try done.
  - rewrite andb_true_iff, bool_decide_eq_true in Hok. destruct Hok as [Hb He].
    change (String b (String e "") +:+ s) with (String b (String e s)).
    cbn [unescape]. apply Z.eqb_eq in Hb. rewrite Hb. cbn. by rewrite He, Hs.
  - rewrite !andb_true_iff, !bool_decide_eq_true in Hok.
    destruct Hok as [[[[Hb Hu] Hl] Hh] Hr].
    change (String b _ +:+ s)
      with (String b (String e (String h1 (String h2 (String h3 (String h4 s)))))).
    cbn [unescape]. apply Z.eqb_eq in Hb. rewrite Hb. cbn.
    rewrite Hl, Hu, Hh. rewrite (proj2 (Z.ltb_lt (code c) 55296)) by lia. cbn.
    by rewrite Hr, Hs.
Qed.

Lemma unescape_ascii c s t r :
  code c < 128 → unescape s = Some (t, r) →
  unescape (escape_ascii c +:+ s) = Some (String c t, r).
Proof.
  intros Hc. destruct (orb_prop _ _ (escape_ascii_ok c Hc)).
  - by apply unescape_plain.
  - by apply unescape_escaped.
Qed.

Lemma app_cons c (s t : string) : String c s +:+ t = String c (s +:+ t).
Proof. done. Qed.

Lemma app_assoc_str (a b c : string) : (a +:+ b) +:+ c = a +:+ (b +:+ c).
Proof. induction a as [|x a IH]; [done|]. by rewrite !app_cons, IH. Qed.

Lemma line_separator c1 c2 c3 :
  (code c1 =? 226) && (code c2 =? 128) && ((code c3 =? 168) || (code c3 =? 169)) = true →
  ∃ d, c1 = chr 226 ∧ c2 = chr 128 ∧ c3 = chr d ∧ (d = 168 ∨ d = 169).
Proof.
  rewrite !andb_true_iff, orb_true_iff, !Z.eqb_eq. intros [[H1' H2'] H3'].
  exists (code c3). repeat split; try (apply code_inj; rewrite ?H1', ?H2'; reflexivity); [|done].
  by rewrite chr_code.
Qed.

Lemma unescape_escape s :
  valid_utf8 s = true →
  ∀ r, unescape (escape s +:+ String quote r) = Some (s, r).
Proof.
  revert s. apply (utf8_ind (λ s, ∀ r, unescape (escape s +:+ String quote r) = Some (s, r))).
  - done.
  - intros c s Hc IH r. cbn [escape]. rewrite (proj2 (Z.ltb_lt _ _) Hc).
    rewrite app_assoc_str. by apply unescape_ascii.
  - intros c1 c2 s E2 IH r. pose proof (utf8_2_first _ _ E2). cbn [escape].
    destruct (Z.ltb_spec (code c1) 128); [lia|]. rewrite E2, !app_cons.
    rewrite unescape_high by lia. by rewrite E2, IH.
  - intros c1 c2 c3 s E2 E3 IH r. pose proof (utf8_3_first _ _ _ E3). cbn [escape].
    destruct (Z.ltb_spec (code c1) 128); [lia|]. rewrite E2, E3.
    destruct (_ && _ && _) eqn:El.
    + apply line_separator in El as (d & -> & -> & -> & Hd).
      rewrite app_assoc_str.
      destruct Hd as [-> | ->]; cbv -[unescape escape]; cbn [unescape];
        cbv -[unescape escape]; fold String.append; specialize (IH r);
        unfold quote in IH; rewrite IH; reflexivity.
    + rewrite !app_cons. cbn [String.append]. rewrite unescape_high by lia.
      by rewrite E2, E3, IH.
  - intros c1 c2 c3 c4 s E2 E3 E4 IH r. pose proof (utf8_4_first _ _ _ _ E4).
    cbn [escape]. destruct (Z.ltb_spec (code c1) 128); [lia|].
    rewrite E2, E3, E4, !app_cons, unescape_high by lia. by rewrite E2, E3, E4, IH.
Qed.

(** *** Decimal integers *)

Lemma digit_of_char d : (d < 10)%N → digit_of (pretty_N_char d) = Some (Z.of_N d).
Proof.
  intros Hd. assert (Hin : d ∈ [0;1;2;3;4;5;6;7;8;9]%N).
  { rewrite !elem_of_cons. lia. }
  rewrite !elem_of_cons, elem_of_nil in Hin. by repeat destruct Hin as [->|Hin].
Qed.

Lemma pretty_N_char_code d :
  (d < 10)%N → 48 <= code (pretty_N_char d) <= 57 ∧
  (code (pretty_N_char d) = 48 → d = 0%N).
Proof.
  intros Hd. assert (Hin : d ∈ [0;1;2;3;4;5;6;7;8;9]%N).
  { rewrite !elem_of_cons. lia. }
  rewrite !elem_of_cons, elem_of_nil in Hin.
  repeat destruct Hin as [->|Hin]; [vm_compute; intuition discriminate..|done].
Qed.

Lemma str_app_nil (s : string) : s +:+ "" = s.
Proof. induction s as [|c s IH]; [done|]. by rewrite app_cons, IH. Qed.

Lemma pretty_N_go_app x s : pretty_N_go x s = pretty_N_go x "" +:+ s.
Proof.
  revert s. induction (N.lt_wf_0 x) as [x _ IH]; intros s.
  destruct (decide (x = 0)%N) as [->|Hx]; [done|].
  rewrite !(pretty_N_go_step x) by lia. assert (x / 10 < x)%N by (apply N.div_lt; lia).
  by rewrite IH, (IH _ H (String _ "")), app_assoc_str by done.
Qed.

Lemma parse_digits_pretty x s :
  Z.of_N x <= max_u64 → parse_digits (pretty_N_go x s) 0 = parse_digits s (Z.of_N x).
Proof.
  revert s. induction (N.lt_wf_0 x) as [x _ IH]; intros s Hmax.
  destruct (decide (x = 0)%N) as [->|Hx]; [done|].
  rewrite pretty_N_go_step by lia. assert (x / 10 < x)%N by (apply N.div_lt; lia).
  rewrite IH; [|done|lia]. cbn [parse_digits].
  rewrite digit_of_char by (apply N.mod_lt; lia).
  rewrite N2Z.inj_div, N2Z.inj_mod. change (Z.of_N 10) with 10.
  set (z := Z.of_N x) in *. pose proof (Z.div_mod z 10 ltac:(lia)) as Hdm.
  pose proof (Z.mod_pos_bound z 10 ltac:(lia)).
  assert (z / 10 <= max_u64 / 10) by (apply Z.div_le_mono; lia).
  destruct (Z.leb_spec (max_u64 / 10 + 1) (z / 10)); [lia|].
  destruct (Z.ltb_spec max_u64 (z / 10 * 10 + z mod 10)); [lia|].
  f_equal. lia.
Qed.

Fixpoint all_digits (s : string) : Prop :=
  match s with
  | EmptyString => True
  | String c s => between 48 57 c = true ∧ all_digits s
  end.

Lemma pretty_N_go_digits x s : all_digits s → all_digits (pretty_N_go x s).
Proof.
  revert s. induction (N.lt_wf_0 x) as [x _ IH]; intros s Hs.
  destruct (decide (x = 0)%N) as [->|Hx]; [done|].
  rewrite pretty_N_go_step by lia. apply IH; [apply N.div_lt; lia|].
  split; [|done]. apply between_spec, pretty_N_char_code. apply N.mod_lt. lia.
Qed.

(** No leading zero. *)
Lemma pretty_N_go_head x s :
  (0 < x)%N → ∃ c t, pretty_N_go x s = String c t ∧ 49 <= code c <= 57.
Proof.
  revert s. induction (N.lt_wf_0 x) as [x _ IH]; intros s Hx.
  rewrite pretty_N_go_step by lia.
  destruct (decide (x / 10 = 0)%N) as [E|E].
  - rewrite E, pretty_N_go_0. do 2 eexists. split; [done|].
    assert (x mod 10 = x)%N as -> by (pose proof (N.div_mod x 10); lia).
    pose proof (pretty_N_char_code x) as [H1' H2'].
    { apply N.div_small_iff in E; lia. }
    destruct (decide (code (pretty_N_char x) = 48)) as [E'|E']; [apply H2' in E'|]; lia.
  - apply IH; [apply N.div_lt; lia|by apply N.neq_0_lt_0].
Qed.

Lemma take_digits_app d s :
  all_digits d → (∀ c t, s = String c t → between 48 57 c = false) →
  take_digits (d +:+ s) = (d, s).
Proof.
  intros Hd Hs. induction d as [|c d IH].
  - destruct s as [|c t]; [done|].
    change ((if between 48 57 c then let '(d, r) := take_digits t in (String c d, r)
      else ("", String c t)) = ("", String c t)). by rewrite (Hs c t).
  - destruct Hd as [Hc Hd]. rewrite app_cons. cbn [take_digits]. by rewrite Hc, IH.
Qed.

(** [strconv] reads back what it wrote. *)
Lemma ParseUint_pretty z : is_u64 z → ParseUint (pretty z) = (z, None).
Proof.
  unfold is_u64, pretty, pretty_Z. intros Hz. destruct z as [|p|p]; [done| |lia].
  unfold pretty, pretty_positive, pretty, pretty_N. rewrite decide_False by done.
  destruct (pretty_N_go_head (Npos p) "" ltac:(lia)) as (c & t & E & _).
  pose proof (parse_digits_pretty (Npos p) "" ltac:(unfold max_u64; lia)) as Hp.
  rewrite E in *. exact Hp.
Qed.

Lemma pretty_first z :
  0 <= z → ∃ c t, pretty z = String c t ∧ 48 <= code c <= 57 ∧
    (code c = 48 → t = "") ∧ all_digits (pretty z).
Proof.
  intros Hz. destruct z as [|p|p]; [| |lia].
  { exists "0"%char, "". split; [done|]. split; [vm_compute; intuition discriminate|].
    split; [done|]. by split. }
  change (pretty (Z.pos p)) with (pretty_N_go (Npos p) "").
  destruct (pretty_N_go_head (Npos p) "" ltac:(lia)) as (c & t & E & Hc).
  exists c, t. split; [done|]. split; [lia|]. split; [lia|].
  by apply pretty_N_go_digits.
Qed.

Lemma pretty_neg p : pretty (Z.neg p) = String "-" (pretty (Z.pos p)).
Proof. done. Qed.

Lemma ParseInt_pretty z : is_i64 z → ParseInt (pretty z) = (z, None).
Proof.
  unfold is_i64. intros Hz. destruct (Z.leb_spec 0 z) as [Hpos|Hneg].
  - destruct (pretty_first z Hpos) as (c & t & E & Hc & _).
    assert (Hp : ParseInt (pretty z) = (z, None) ↔
      (let '(u, err) := ParseUint (pretty z) in
       match err with
       | Some (ErrMsg "invalid syntax") => (0, err)
       | _ => if (2 ^ 63 <=? u) then (2 ^ 63 - 1, Some (ErrMsg "value out of range"))
              else (u, None)
       end) = (z, None)).
    { rewrite E. unfold ParseInt.
      rewrite <- (chr_code c).
      assert (Hin : code c ∈ map Z.of_nat (seq 48 10)).
      { cbn [seq map]. rewrite !elem_of_cons. lia. }
      cbn [seq map] in Hin. rewrite !elem_of_cons, elem_of_nil in Hin.
      repeat destruct Hin as [->|Hin]; [reflexivity..|done]. }
    apply Hp. rewrite ParseUint_pretty by (unfold is_u64; lia).
    by rewrite (proj2 (Z.leb_gt _ _)) by lia.
  - destruct z as [|p|p]; [lia..|]. rewrite pretty_neg. unfold ParseInt.
    rewrite ParseUint_pretty by (unfold is_u64; lia). cbn [negb andb].
    by rewrite (proj2 (Z.ltb_ge _ _)) by lia.
Qed.

(** An integer is a number of JSON, if a comma or a bracket follows. *)
Definition ends_number (s : string) : Prop :=
  ∃ c t, s = String c t ∧ (code c = 44 ∨ code c = 125).

Lemma parse_unsigned_pretty (z : Z) r :
  0 <= z → ends_number r → parse_unsigned (pretty z +:+ r) = Some (pretty z, r).
Proof.
  intros Hz (e & t' & -> & He).
  destruct (pretty_first z Hz) as (c & t & E & Hc & H0' & Hd).
  assert (Hint : parse_int_part (pretty z +:+ String e t') = Some (pretty z, String e t')).
  { rewrite E in *. rewrite app_cons. cbn [parse_int_part].
    destruct (Z.eqb_spec (code c) 48) as [Hz0|Hz0]; [by rewrite (H0' Hz0)|].
    unfold some_digits. rewrite <- app_cons, take_digits_app; [done|done|].
    intros ? ? [= <- <-]. unfold between.
    destruct (Z.leb_spec 48 (code e)), (Z.leb_spec (code e) 57); try done; lia. }
  unfold parse_unsigned. rewrite Hint. unfold parse_frac, parse_exp.
  destruct (Z.eqb_spec (code e) 46); [lia|].
  destruct (Z.eqb_spec (code e) 101); [lia|]. destruct (Z.eqb_spec (code e) 69); [lia|].
  cbn. by rewrite str_app_nil.
Qed.

Lemma parse_number_pretty (z : Z) r :
  ends_number r → parse_number (pretty z +:+ r) = Some (pretty z, r).
Proof.
  intros Hr. destruct (Z.leb_spec 0 z) as [Hz|Hz].
  - destruct (pretty_first z Hz) as (c & t & E & Hc & _).
    pose proof (parse_unsigned_pretty z r Hz Hr) as Hp. rewrite E in *.
    rewrite app_cons in *. unfold parse_number.
    destruct (Z.eqb_spec (code c) 45); [lia|]. exact Hp.
  - destruct z as [|p|p]; [lia..|]. rewrite pretty_neg, app_cons. unfold parse_number.
    cbn [code Z.eqb]. rewrite parse_unsigned_pretty by (done || lia). done.
Qed.

(** *** Values and objects *)

Section reads.
Context (value : string → option (json * string)).

(** [raw] is read as [v] wherever a member ends behind it. *)
Definition reads_as (raw : string) (v : json) : Prop :=
  ∀ r, ends_number r → value (raw +:+ r) = Some (v, r).

Record good_member (m : string * string) (e : string * json) : Prop := {
  gm_key : e.1 = m.1;
  gm_utf8 : valid_utf8 m.1 = true;
  gm_value : reads_as m.2 e.2;
}.

Lemma parse_member_write m e r :
  good_member m e → ends_number r →
  parse_member value (write_member m +:+ r) = Some (e, r).
Proof.
  destruct m as [k raw], e as [k' v]. intros [Hk Hu Hv] Hr. cbn in Hk, Hu, Hv. subst k'.
  assert (E : write_member (k, raw) +:+ r
    = String quote (escape k +:+ String quote (String ":" (raw +:+ r)))).
  { unfold write_member, write_string. cbn [fst snd].
    by rewrite !app_assoc_str, app_cons, !app_assoc_str. }
  rewrite E. pose proof (unescape_escape k Hu (String ":" (raw +:+ r))) as Hq.
  revert Hq. generalize (escape k +:+ String quote (String ":" (raw +:+ r))).
  intros t Ht. unfold parse_member.
  change (skip_space (String quote t)) with (String quote t).
  change (code quote =? 34) with true. cbn iota. rewrite Ht.
  change (skip_space (String ":" (raw +:+ r))) with (String ":" (raw +:+ r)).
  change (code ":" =? 58) with true. cbn iota. by rewrite Hv.
Qed.

Lemma parse_members_write ms es r fuel :
  Forall2 good_member ms es → ms ≠ [] → (length ms <= fuel)%nat →
  parse_members value fuel (write_members ms +:+ String "}" r) = Some (es, r).
Proof.
  intros H. revert fuel. induction H as [|m e ms es Hm Hms IH]; intros fuel Hne Hf; [done|].
  cbn [length] in Hf. destruct fuel as [|fuel]; [lia|]. cbn [parse_members].
  destruct ms as [|m2 ms].
  - inversion Hms; subst. cbn [write_members].
    rewrite (parse_member_write m e) by (done || (do 2 eexists; split; [done|by right])).
    destruct e as [k v]. change (skip_space (String "}" r)) with (String "}" r).
    by change (code "}" =? 125) with true.
  - change (write_members (m :: m2 :: ms))
      with (write_member m +:+ "," +:+ write_members (m2 :: ms)).
    rewrite !app_assoc_str.
    rewrite (parse_member_write m e) by (done || (do 2 eexists; split; [done|by left])).
    destruct e as [k v]. set (t := write_members (m2 :: ms) +:+ String "}" r) in *.
    change (skip_space ("," +:+ t)) with (String "," t).
    change (code "," =? 125) with false. change (code "," =? 44) with true.
    cbn iota. by rewrite IH by (done || lia).
Qed.
End reads.

Lemma str_length_app (a b : string) :
  String.length (a +:+ b) = (String.length a + String.length b)%nat.
Proof.
  induction a as [|c a IH]; [done|]. rewrite app_cons.
  change (S (String.length (a +:+ b)) = S (String.length a + String.length b)). by rewrite IH.
Qed.

Lemma write_members_length ms : (length ms <= String.length (write_members ms))%nat.
Proof.
  assert (Hm : ∀ m, (1 <= String.length (write_member m))%nat).
  { intros m. unfold write_member, write_string. rewrite !str_length_app.
    cbn. lia. }
  induction ms as [|m [|m2 ms] IH]; [done|exact (Hm m)|].
  change (write_members (m :: m2 :: ms))
    with (write_member m +:+ "," +:+ write_members (m2 :: ms)).
  specialize (Hm m). rewrite !str_length_app. change (String.length ",") with 1%nat.
  cbn [length] in *. lia.
Qed.

Lemma parse_value_quote d t :
  parse_value d (String quote t) =
    match unescape t with Some (u, r) => Some (JStr u, r) | None => None end.
Proof. by destruct d. Qed.

Lemma reads_string d s : valid_utf8 s = true → reads_as (parse_value d) (write_string s) (JStr s).
Proof.
  intros Hs r _. unfold write_string. rewrite app_cons, app_assoc_str.
  change (String quote "" +:+ r) with (String quote r).
  by rewrite parse_value_quote, unescape_escape.
Qed.

(** A value that starts with a digit or a sign is a number. *)
Lemma parse_value_number d c t :
  48 <= code c <= 57 ∨ code c = 45 →
  parse_value d (String c t) =
    match parse_number (String c t) with
    | Some (lit, r) => Some (JNum lit, r)
    | None => None
    end.
Proof.
  intros Hc. assert (Hs : skip_space (String c t) = String c t).
  { cbn [skip_space]. rewrite !(proj2 (Z.eqb_neq _ _)) by lia. done. }
  destruct d; cbn [parse_value]; rewrite Hs;
    by rewrite !(proj2 (Z.eqb_neq (code c) _)) by lia.
Qed.

Lemma reads_int d (z : Z) : reads_as (parse_value d) (pretty z) (JNum (pretty z)).
Proof.
  intros r Hr. pose proof (parse_number_pretty z r Hr) as Hp.
  destruct (Z.leb_spec 0 z) as [Hz|Hz].
  - destruct (pretty_first z Hz) as (c & t & E & Hc & _). rewrite E in *.
    rewrite app_cons in *. rewrite parse_value_number by lia. by rewrite Hp.
  - destruct z as [|p|p]; [lia..|]. rewrite pretty_neg, app_cons in *.
    rewrite parse_value_number by (by right). by rewrite Hp.
Qed.

Lemma parse_value_brace d t :
  parse_value (S d) (String "{" t) =
    match skip_space t with
    | EmptyString => None
    | String c s =>
        if code c =? 125 then Some (JObj [], s) else
        match parse_members (parse_value d) (String.length t) t with
        | Some (l, r) => Some (JObj l, r)
        | None => None
        end
    end.
Proof. done. Qed.

Lemma parse_value_object d ms es :
  Forall2 (good_member (parse_value d)) ms es →
  ∀ r, parse_value (S d) (write_object ms +:+ r) = Some (JObj es, r).
Proof.
  intros H r. set (text := write_members ms +:+ String "}" r).
  assert (E : write_object ms +:+ r = String "{" text).
  { unfold write_object, text. by rewrite !app_assoc_str. }
  rewrite E, parse_value_brace. destruct ms as [|m ms]; [by inversion H|].
  assert (Hm : ∃ t, text = String quote t) by (unfold text; destruct ms; eexists; reflexivity).
  destruct Hm as [t Ht]. rewrite Ht at 1.
  change (skip_space (String quote t)) with (String quote t).
  change (code quote =? 125) with false. cbn iota. unfold text.
  rewrite (parse_members_write _ (m :: ms) es); [done|exact H|done|].
  pose proof (write_members_length (m :: ms)). rewrite str_length_app. lia.
Qed.

Lemma parse_json_object ms es :
  Forall2 (good_member (parse_value (Z.to_nat 9999))) ms es →
  parse_json (write_object ms) = Some (JObj es).
Proof.
  intros H. unfold parse_json.
  replace maxNestingDepth with (S (Z.to_nat 9999)) by (unfold maxNestingDepth; lia).
  by rewrite <- (str_app_nil (write_object ms)), (parse_value_object _ _ _ H).
Qed.
