(* ===== verification/PoolState.v ===== *)
(** * PoolState: reading a pool back (internal/borrow/pool.go)

    [GetState] reads the keys [ResetWindow] and [EnsureConfig] write, as
    decimal text.  It reports what they wrote; a field that cannot be read is
    zero, and there is never an error. *)

From stdpp Require Import pretty.
From S2P Require Export Json.

Lemma pool_not_window key : PoolKey key ≠ WindowStartKey key.
Proof.
  unfold PoolKey, WindowStartKey. intros E%(inj (String.append _))%(inj (String.append _)).
  discriminate E.
Qed.

Section state.
Context {S R : Type} `{RedisLaws R} (rl : lens S (redis_world R)).

Definition store (s : S) : R := rw_store (lget rl s).

(** What an integer key reads as. *)
Lemma read_uint (z : Z) : is_u64 z → (ParseUint (pretty z)).1 = z.
Proof. intros Hz. by rewrite ParseUint_pretty. Qed.
Lemma read_int (z : Z) : is_i64 z → (ParseInt (pretty z)).1 = z.
Proof. intros Hz. by rewrite ParseInt_pretty. Qed.

(** The reset script on a window that is not open yet. *)
Lemma exec_ResetWindow (env : environment) i s key limit start :
  (∀ j, env _ QTransport j = TOk) →
  0 <= limit <= 2 ^ 53 → lua_ok start →
  lua_ok (default 0 (redis_GET (WindowStartKey key) (store s))) →
  default 0 (redis_GET (WindowStartKey key) (store s)) < start →
  ∃ s' j, exec env i (RP_ResetWindow rl NewRedisPool key limit start) s
      = Done None s' [] j ∧
    redis_GET (PoolKey key) (store s') = Some limit ∧
    redis_GET (WindowStartKey key) (store s') = Some start.
Proof.
  intros Ht Hl Hs Hc Hlt. unfold RP_ResetWindow, runScript.
  change (scripts NewRedisPool !! "reset") with (Some ResetScript).
  rewrite (to_i64_small limit) by (unfold is_i64; lia).
  cbn [redis_eval bind ask exec]. rewrite Ht. cbn [bind exec zoom atomically run_body].
  destruct (windowResetLua _ _ _ _ _) as [v r'] eqn:El.
  apply windowResetLua_spec in El as [[Hle _]|(_ & _ & Hp & Hw)];
    [unfold store in *; lia| |apply pool_not_window|unfold lua_ok; lia|done|exact Hc].
  cbn. do 2 eexists. split; [reflexivity|]. unfold store. by rewrite lget_put.
Qed.

Lemma exec_EnsureConfig (env : environment) i s key limit windowMs :
  (∀ j, env _ QTransport j = TOk) →
  ∃ s' j, exec env i (EnsureConfig rl key limit windowMs) s = Done None s' [] j ∧
    (∀ k, redis_GET k (store s') = redis_GET k (store s)) ∧
    redis_HGETALL (ConfigKey key) (store s') !! "limit" = Some (pretty limit) ∧
    redis_HGETALL (ConfigKey key) (store s') !! "window_ms" = Some (pretty windowMs).
Proof.
  intros Ht. unfold EnsureConfig. cbn [exec bind ask]. rewrite Ht. do 2 eexists.
  split; [reflexivity|]. unfold store. rewrite lget_put. cbn [rw_store].
  split; [intros k; apply GET_HSET|]. rewrite HGETALL_HSET. cbn [foldl]. split.
  - rewrite lookup_insert_ne by done. apply lookup_insert_eq.
  - apply lookup_insert_eq.
Qed.

(** C19: the state of a pool is read back as it was written.  After
    [ResetWindow] opened a window and [EnsureConfig] stored the configuration,
    [GetState] reports the full pool, the start of the window, the limit and
    the length of the window. *)
Theorem GetState_written (env : environment) i s key limit start windowMs :
  (∀ j, env _ QTransport j = TOk) →
  0 <= limit <= 2 ^ 53 → lua_ok start → is_i64 windowMs →
  let cur := default 0 (redis_GET (WindowStartKey key) (store s)) in
  lua_ok cur → cur < start →
  ∃ s' j, exec env i (do! _ <- RP_ResetWindow rl NewRedisPool key limit start;
                      do! _ <- EnsureConfig rl key limit windowMs;
                      GetState rl key) s
    = Done (mkPoolState limit start limit windowMs, None) s' [] j.
Proof.
  intros Ht Hl Hs Hw cur Hc Hlt.
  destruct (exec_ResetWindow env i s key limit start) as (s1 & j1 & E1 & Hp1 & Hw1); try done.
  destruct (exec_EnsureConfig env j1 s1 key limit windowMs Ht)
    as (s2 & j2 & E2 & Hg2 & Hl2 & Hm2).
  exists s2, (Datatypes.S j2). rewrite exec_bind, E1. cbn [push_forks].
  rewrite exec_bind, E2. cbn [push_forks]. unfold GetState. cbn [exec bind ask].
  rewrite Ht. cbn [exec bind zoom_reads reads atomically].
  fold (store s2). rewrite !Hg2, Hp1, Hw1. unfold pool_state_of. cbn [fmap option_fmap option_map].
  cbn [mbind option_bind]. rewrite Hl2, Hm2.
  rewrite !read_uint by (unfold is_u64; lia).
  rewrite !read_int by (unfold is_i64, lua_ok in *; lia). done.
Qed.
End state.

(** Whatever is in the keys, and whatever fails, there is no error. *)
Lemma GetState_unread {S R} `{RedisStore R} (rl : lens S (redis_world R))
    (env : environment) i s key :
  env _ QTransport i ≠ TOk →
  exec env i (GetState rl key) s = Done (mkPoolState 0 0 0 0, None) s [] (Datatypes.S i).
Proof.
  intros Ht. unfold GetState. cbn [exec bind ask].
  by destruct (env transport QTransport i).
Qed.

Lemma GetState_written_witness :
  let s := mkRW (mkMem ∅ ∅) [] in
  ∃ s' j, exec (clock_env 0) 0
    (do! _ <- RP_ResetWindow lens_id NewRedisPool "k" 10000 60000;
     do! _ <- EnsureConfig lens_id "k" 10000 60000; GetState lens_id "k") s
    = Done (mkPoolState 10000 60000 10000 60000, None) s' [] j.
Proof.
  intros s. apply (GetState_written lens_id (clock_env 0) 0 s "k" 10000 60000 60000).
  - reflexivity.
  - lia.
  - unfold lua_ok. lia.
  - unfold is_i64. lia.
  - vm_compute. split; discriminate.
  - vm_compute. reflexivity.
Defined.
