(* ===== verification/SortDesc.v ===== *)
(** * SortDesc: descending insertion and truncation

    The list operations behind the two "top N" computations of the program:
    [sort.Slice(.., >)] followed by a cut (manager.go, gossip.go) and the
    bounded insertion loop of [Gossiper.TopK]. *)

From S2P Require Export Prelude.

Section sort_desc.
Context {A : Type} (f : A → Z).

(** Insert before the first strictly smaller element. *)
Fixpoint insert_desc (x : A) (l : list A) : list A :=
  match l with
  | [] => [x]
  | y :: l' => if f y <? f x then x :: l else y :: insert_desc x l'
  end.

Definition sort_desc (l : list A) : list A :=
  foldl (λ acc x, insert_desc x acc) [] l.

Definition desc (x y : A) : Prop := f y <= f x.

Lemma insert_desc_perm x l : insert_desc x l ≡ₚ x :: l.
Proof.
  induction l as [|y l IH]; cbn; [done|].
  destruct (f y <? f x); [done|]. rewrite IH. apply perm_swap.
Qed.

Lemma foldl_insert_perm l acc :
  foldl (λ acc x, insert_desc x acc) acc l ≡ₚ acc ++ l.
Proof.
  revert acc. induction l as [|x l IH]; intros acc; cbn;
    [by rewrite app_nil_r|].
  rewrite IH, insert_desc_perm. cbn. by rewrite Permutation_middle.
Qed.

Lemma sort_desc_perm l : sort_desc l ≡ₚ l.
Proof. apply foldl_insert_perm. Qed.

Lemma insert_desc_sorted x l :
  StronglySorted desc l → StronglySorted desc (insert_desc x l).
Proof.
  induction 1 as [|y l Hl IH Hy]; cbn; [by repeat constructor|].
  destruct (Z.ltb_spec (f y) (f x)).
  - repeat constructor; [done|done|unfold desc; lia|].
    eapply Forall_impl; [exact Hy|]. unfold desc. intros z ?. lia.
  - constructor; [done|]. rewrite insert_desc_perm.
    constructor; [unfold desc; lia|done].
Qed.

Lemma sort_desc_sorted l : StronglySorted desc (sort_desc l).
Proof.
  unfold sort_desc.
  assert (H : StronglySorted desc []) by constructor. revert H.
  generalize (@nil A). induction l as [|x l IH]; intros acc Hacc; cbn; [done|].
  apply IH, insert_desc_sorted, Hacc.
Qed.

Lemma sort_desc_length l : length (sort_desc l) = length l.
Proof. by rewrite sort_desc_perm. Qed.

(** Cutting before an insertion loses nothing of the first [k]. *)
Lemma take_insert_desc k x l :
  take k (insert_desc x (take k l)) = take k (insert_desc x l).
Proof.
  revert k. induction l as [|y l IH]; intros [|k]; cbn; [done..|].
  destruct (f y <? f x); cbn; f_equal; [|apply IH].
  destruct k; cbn; [done|]. f_equal. rewrite take_take. f_equal. lia.
Qed.

Lemma foldl_take_insert k l acc :
  foldl (λ acc x, take k (insert_desc x acc)) (take k acc) l
    = take k (foldl (λ acc x, insert_desc x acc) acc l).
Proof.
  revert acc. induction l as [|x l IH]; intros acc; cbn; [done|].
  by rewrite take_insert_desc, IH.
Qed.

(** The bounded insertion loop computes the first [k] of the full sort. *)
Lemma bounded_insertion_sort k l :
  foldl (λ acc x, take k (insert_desc x acc)) [] l = take k (sort_desc l).
Proof.
  unfold sort_desc. rewrite <- (foldl_take_insert k l []).
  by rewrite take_nil.
Qed.

(** Every element kept is at least as large as every element cut. *)
Lemma sorted_take_drop k l x y :
  StronglySorted desc l → x ∈ take k l → y ∈ drop k l → f y <= f x.
Proof.
  intros Hs. revert k. induction Hs as [|z l Hl IH Hz]; intros k Hx Hy.
  - rewrite take_nil in Hx. by apply not_elem_of_nil in Hx.
  - destruct k as [|k]; cbn in *; [by apply not_elem_of_nil in Hx|].
    apply elem_of_cons in Hx as [->|Hx]; [|by eapply IH].
    rewrite Forall_forall in Hz. apply Hz.
    eapply elem_of_subseteq; [|exact Hy]. apply subseteq_drop.
Qed.
End sort_desc.
