(* ===== verification/Shard.v ===== *)
(** * Shard: FNV-1a sharding of the key space

    limiter.go, manager.go, gossip.go, ema_router.go and acquirer.go each
    carry the same [shardIndex]: FNV-1a over the bytes of the key in [uint32]
    arithmetic, masked to 64 shards.  A table is an array of 64 maps; the
    facts here say that such a table behaves as one flat map. *)

From Stdlib Require Import Ascii.
From S2P Require Export Prelude.

Definition shardCount : Z := 64.
Definition offset32 : Z := 2166136261.
Definition prime32 : Z := 16777619.

Definition fnv_byte (h : Z) (c : ascii) : Z :=
  to_u32 (Z.lxor h (Z.of_nat (nat_of_ascii c)) * prime32).

Fixpoint fnv1a (h : Z) (key : string) : Z :=
  match key with
  | EmptyString => h
  | String c key => fnv1a (fnv_byte h c) key
  end.

Definition shardIndex (key : string) : Z :=
  Z.land (fnv1a offset32 key) (shardCount - 1).

(** The copies of manager.go, gossip.go, ema_router.go and acquirer.go, each
    with its own shard count. *)
Definition managerShardCount : Z := 64.
Definition mgr_shardIndex (key : string) : Z :=
  Z.land (fnv1a offset32 key) (managerShardCount - 1).
Definition gossip_shardIndex (key : string) : Z :=
  Z.land (fnv1a offset32 key) (64 - 1).
Definition router_shardIndex (key : string) : Z :=
  Z.land (fnv1a offset32 key) (64 - 1).
Definition acquirerSfShardCount : Z := 64.
Definition acq_shardIndex (key : string) : Z :=
  Z.land (fnv1a offset32 key) (acquirerSfShardCount - 1).

(** They agree, so the components' tables share this file. *)
Lemma shardIndex_copies key :
  mgr_shardIndex key = shardIndex key ∧ gossip_shardIndex key = shardIndex key ∧
  router_shardIndex key = shardIndex key ∧ acq_shardIndex key = shardIndex key.
Proof. done. Qed.

Lemma shardIndex_range key : 0 <= shardIndex key < shardCount.
Proof.
  unfold shardIndex. change (shardCount - 1) with (Z.ones 6).
  rewrite Z.land_ones by lia. by apply Z.mod_pos_bound.
Qed.

(** The shard as an array position. *)
Definition shard_of (key : string) : nat := Z.to_nat (shardIndex key).

Lemma shard_of_lt key : (shard_of key < 64)%nat.
Proof.
  unfold shard_of. pose proof (shardIndex_range key). unfold shardCount in *. lia.
Qed.

#[export] Hint Resolve shard_of_lt : krate.

(** The published FNV-1a test vector. *)
Example fnv1a_foobar : fnv1a offset32 "foobar" = 0xbf9cf968.
Proof. vm_compute. reflexivity. Qed.

(** ** Tables of 64 maps *)

Abbreviation table V := (list (gmap string V)).

Section table.
Context {V : Type}.

Definition empty_table : table V := replicate 64 ∅.

Definition t_lookup (key : string) (t : table V) : option V :=
  t !! shard_of key ≫= λ m, m !! key.
(** Run [f] on the shard of [key]. *)
Definition t_alter (key : string) (f : gmap string V → gmap string V)
    (t : table V) : table V := alter f (shard_of key) t.
Definition t_insert (key : string) (v : V) : table V → table V :=
  t_alter key <[key:=v]>.
Definition t_delete (key : string) : table V → table V :=
  t_alter key (delete key).

(** [shardToKeys]: the keys of a batch, grouped by shard in order. *)
Definition group_keys (keys : list string) : list (list string) :=
  foldl (λ g k, alter (λ ks, ks ++ [k]) (shard_of k) g) (replicate 64 []) keys.

(** Every key is in its own shard. *)
Definition table_wf (t : table V) : Prop :=
  length t = 64%nat ∧
  ∀ i m k v, t !! i = Some m → m !! k = Some v → i = shard_of k.

Lemma empty_table_wf : table_wf empty_table.
Proof.
  split; [apply length_replicate|]. intros i m k v Hi Hk.
  apply lookup_replicate in Hi as [-> _]. by rewrite lookup_empty in Hk.
Qed.

Lemma t_alter_length key f (t : table V) : length (t_alter key f t) = length t.
Proof. apply length_alter. Qed.

Lemma t_lookup_shard k (t : table V) m :
  length t = 64%nat → t !! shard_of k = Some m → t_lookup k t = m !! k.
Proof. intros _ Hm. unfold t_lookup. by rewrite Hm. Qed.

Lemma shard_is_some k (t : table V) :
  length t = 64%nat → is_Some (t !! shard_of k).
Proof. intros Ht. apply lookup_lt_is_Some_2. rewrite Ht. auto with krate. Qed.

Lemma t_lookup_empty k : t_lookup k empty_table = None.
Proof.
  unfold t_lookup, empty_table.
  rewrite lookup_replicate_2 by auto with krate. apply lookup_empty.
Qed.

Lemma t_lookup_insert_eq k v (t : table V) :
  length t = 64%nat → t_lookup k (t_insert k v t) = Some v.
Proof.
  intros Ht. destruct (shard_is_some k t Ht) as [m Hm].
  unfold t_lookup, t_insert, t_alter.
  rewrite list_lookup_alter_eq, Hm. cbn. apply lookup_insert_eq.
Qed.

Lemma t_lookup_insert_ne k k' v (t : table V) :
  k ≠ k' → t_lookup k (t_insert k' v t) = t_lookup k t.
Proof.
  intros Hk. unfold t_lookup, t_insert, t_alter.
  destruct (decide (shard_of k' = shard_of k)) as [E|E].
  - rewrite E, list_lookup_alter_eq.
    destruct (t !! shard_of k) as [m|]; cbn; [|done].
    by rewrite lookup_insert_ne.
  - by rewrite list_lookup_alter_ne.
Qed.

Lemma t_lookup_delete_eq k (t : table V) : t_lookup k (t_delete k t) = None.
Proof.
  unfold t_lookup, t_delete, t_alter.
  rewrite list_lookup_alter_eq.
  destruct (t !! shard_of k) as [m|]; cbn; [|done].
  apply lookup_delete_eq.
Qed.

Lemma t_lookup_delete_ne k k' (t : table V) :
  k ≠ k' → t_lookup k (t_delete k' t) = t_lookup k t.
Proof.
  intros Hk. unfold t_lookup, t_delete, t_alter.
  destruct (decide (shard_of k' = shard_of k)) as [E|E].
  - rewrite E, list_lookup_alter_eq.
    destruct (t !! shard_of k) as [m|]; cbn; [|done].
    by rewrite lookup_delete_ne.
  - by rewrite list_lookup_alter_ne.
Qed.

Lemma t_alter_wf key f (t : table V) :
  (∀ m k v, f m !! k = Some v → k = key ∨ is_Some (m !! k)) →
  table_wf t → table_wf (t_alter key f t).
Proof.
  intros Hf [Hl Ht]. split; [by rewrite t_alter_length|].
  intros i m k v Hi Hk. unfold t_alter in Hi.
  destruct (decide (shard_of key = i)) as [<-|Hne].
  - rewrite list_lookup_alter_eq in Hi.
    destruct (t !! shard_of key) as [m0|] eqn:E; cbn in Hi; [|done].
    simplify_eq. destruct (Hf m0 k v Hk) as [->|[v' Hv']]; [done|].
    by eapply Ht.
  - rewrite list_lookup_alter_ne in Hi by done. by eapply Ht.
Qed.

Lemma t_insert_wf k v (t : table V) : table_wf t → table_wf (t_insert k v t).
Proof.
  apply t_alter_wf. intros m k' v' Hk'.
  destruct (decide (k' = k)) as [->|Hne]; [by left|right].
  rewrite lookup_insert_ne in Hk' by done. by eexists.
Qed.

Lemma t_delete_wf k (t : table V) : table_wf t → table_wf (t_delete k t).
Proof.
  apply t_alter_wf. intros m k' v' [_ Hk']%lookup_delete_Some.
  right. by eexists.
Qed.

(** *** A batch of deletions, shard by shard *)

Lemma group_keys_foldl keys :
  ∀ (g : list (list string)) i ks, g !! i = Some ks →
  foldl (λ g k, alter (λ ks, ks ++ [k]) (shard_of k) g) g keys !! i
    = Some (ks ++ filter (λ k, shard_of k = i) keys).
Proof.
  induction keys as [|k keys IH]; intros g i ks Hi; cbn.
  - by rewrite app_nil_r.
  - destruct (decide (shard_of k = i)) as [<-|Hne].
    + rewrite (IH _ (shard_of k) (ks ++ [k])); [by rewrite <- app_assoc|].
      by rewrite list_lookup_alter_eq, Hi.
    + apply IH. by rewrite list_lookup_alter_ne.
Qed.

Lemma group_keys_lookup keys i :
  (i < 64)%nat →
  group_keys keys !! i = Some (filter (λ k, shard_of k = i) keys).
Proof.
  intros Hi. unfold group_keys.
  rewrite (group_keys_foldl keys _ i []); [done|].
  by apply lookup_replicate_2.
Qed.

(** The loop [for idx, shKeys := range shardToKeys] over a table: delete
    the keys of each group from the shard of the group. *)
Definition evict_keys (keys : list string) (t : table V) : table V :=
  zip_with (λ ks m, foldl (λ m k, delete k m) m ks) (group_keys keys) t.

Lemma foldl_delete_lookup (ks : list string) (m : gmap string V) k :
  foldl (λ m k, delete k m) m ks !! k =
    if decide (k ∈ ks) then None else m !! k.
Proof.
  revert m. induction ks as [|x ks IH]; intros m; cbn.
  - by rewrite decide_False by apply not_elem_of_nil.
  - rewrite IH. destruct (decide (k ∈ ks)) as [Hin|Hin].
    + by rewrite decide_True by (by right).
    + destruct (decide (k = x)) as [->|Hne].
      * rewrite decide_True by (by left). apply lookup_delete_eq.
      * rewrite decide_False by (by rewrite elem_of_cons; naive_solver).
        by rewrite lookup_delete_ne.
Qed.

Lemma evict_keys_shard keys (t : table V) i m :
  t !! i = Some m → (i < 64)%nat →
  evict_keys keys t !! i =
    Some (foldl (λ m k, delete k m) m (filter (λ k, shard_of k = i) keys)).
Proof.
  intros Hm Hi. unfold evict_keys.
  by rewrite lookup_zip_with, group_keys_lookup, Hm.
Qed.

(** Grouped deletion is deletion: exactly the keys of the batch go. *)
Lemma t_lookup_evict_keys keys (t : table V) k :
  length t = 64%nat →
  t_lookup k (evict_keys keys t) =
    if decide (k ∈ keys) then None else t_lookup k t.
Proof.
  intros Ht. destruct (shard_is_some k t Ht) as [m Hm].
  unfold t_lookup. rewrite (evict_keys_shard _ _ _ m), Hm by auto with krate.
  cbn. rewrite foldl_delete_lookup.
  destruct (decide (k ∈ keys)) as [Hin|Hin].
  - rewrite decide_True; [done|]. by apply list_elem_of_filter.
  - rewrite decide_False; [done|]. rewrite list_elem_of_filter. tauto.
Qed.

Lemma group_keys_length keys : length (group_keys keys) = 64%nat.
Proof.
  unfold group_keys.
  assert (H : length (replicate 64 (@nil string)) = 64%nat) by done.
  revert H. generalize (replicate 64 (@nil string)).
  induction keys as [|k keys IH]; intros g Hg; cbn; [done|].
  apply IH. by rewrite length_alter.
Qed.

Lemma evict_keys_length keys (t : table V) :
  length t = 64%nat → length (evict_keys keys t) = 64%nat.
Proof.
  intros Ht. unfold evict_keys. by rewrite length_zip_with, Ht, group_keys_length.
Qed.

Lemma evict_keys_wf keys (t : table V) : table_wf t → table_wf (evict_keys keys t).
Proof.
  intros [Hl Ht]. split; [by apply evict_keys_length|].
  intros i m k v Hi Hk.
  assert (Hlt : (i < 64)%nat).
  { apply lookup_lt_Some in Hi. by rewrite evict_keys_length in Hi. }
  destruct (lookup_lt_is_Some_2 t i) as [m0 Hm0]; [lia|].
  rewrite (evict_keys_shard _ _ _ _ Hm0 Hlt) in Hi. simplify_eq.
  rewrite foldl_delete_lookup in Hk. case_decide; [done|]. by eapply Ht.
Qed.

(** *** The entries of a table *)

Definition t_entries (t : table V) : list (string * V) :=
  mjoin (map_to_list <$> t).

Lemma entries_NoDup (t : table V) :
  ∀ o, (∀ i m k v, t !! i = Some m → m !! k = Some v → (o + i)%nat = shard_of k) →
  NoDup (t_entries t).*1.
Proof.
  induction t as [|m t IH]; intros o Ht; cbn; [constructor|].
  rewrite fmap_app. apply NoDup_app. split; [apply NoDup_fst_map_to_list|].
  split.
  - intros k Hk Hk'.
    apply list_elem_of_fmap in Hk as ([k0 v0] & -> & Hk).
    apply elem_of_map_to_list in Hk.
    pose proof (Ht 0%nat m k0 v0 eq_refl Hk) as E0.
    apply list_elem_of_fmap in Hk' as ([k1 v1] & E & Hk').
    apply list_elem_of_join in Hk' as (l & Hl & Hin).
    apply list_elem_of_fmap in Hin as (m' & -> & Hm').
    apply list_elem_of_lookup in Hm' as (i & Hi).
    apply elem_of_map_to_list in Hl.
    pose proof (Ht (S i) m' k1 v1 Hi Hl) as E1. cbn in *. simplify_eq. lia.
  - apply (IH (S o)). intros i m' k v Hi Hk.
    rewrite <- (Ht (S i) m' k v Hi Hk). lia.
Qed.

Lemma t_entries_NoDup (t : table V) : table_wf t → NoDup (t_entries t).*1.
Proof. intros [_ Ht]. by apply (entries_NoDup t 0). Qed.

Lemma elem_of_t_entries (t : table V) k v :
  table_wf t → (k, v) ∈ t_entries t ↔ t_lookup k t = Some v.
Proof.
  intros [Hl Ht]. unfold t_entries, t_lookup. split.
  - intros (l & Hkv & Hin)%list_elem_of_join.
    apply list_elem_of_fmap in Hin as (m & -> & Hm).
    apply list_elem_of_lookup in Hm as (i & Hi).
    apply elem_of_map_to_list in Hkv.
    rewrite <- (Ht i m k v Hi Hkv), Hi. done.
  - destruct (t !! shard_of k) as [m|] eqn:Hm; [|done]. cbn. intros Hk.
    apply list_elem_of_join. exists (map_to_list m).
    split; [by apply elem_of_map_to_list|].
    apply list_elem_of_fmap_2. by eapply list_elem_of_lookup_2.
Qed.
End table.
