(* ===== verification/Sizer.v ===== *)
(** * Sizer: the adaptive borrow size (internal/borrow/adaptive.go) *)

From S2P Require Export GoFloat.

Record AdaptiveSizer := mkSizer {
  emaRate : float64;
  sz_alpha : float64;
  minBorrow : Z;
  maxBorrow : Z;
  refillSec : float64;
  sz_enabled : bool;
  hasData : bool;
}.

Definition NewAdaptiveSizer (alpha : float64) (minB maxB refillInterval : Z)
    (enabled : bool) : AdaptiveSizer :=
  mkSizer f64_zero alpha minB maxB (duration_Seconds refillInterval) enabled
    false.

(** [Record] of adaptive.go: one step of the moving average. *)
Definition sizer_Record (consumed : Z) (s : AdaptiveSizer) : AdaptiveSizer :=
  mkSizer
    (f64_add (f64_mul (sz_alpha s) (f64_of_Z consumed))
             (f64_mul (f64_sub f64_one (sz_alpha s)) (emaRate s)))
    (sz_alpha s) (minBorrow s) (maxBorrow s) (refillSec s) (sz_enabled s) true.

Definition ComputeBorrowSize `{FloatConv} (s : AdaptiveSizer) : Z :=
  if negb (sz_enabled s) || negb (hasData s) then maxBorrow s
  else
    let target := f64_mul (f64_mul (emaRate s) (refillSec s)) (f64_of_Z 2) in
    let result := f64_to_u64 (math_Round target) in
    if result <? minBorrow s then minBorrow s
    else if maxBorrow s <? result then maxBorrow s
    else result.

Definition sizer_Reset (s : AdaptiveSizer) : AdaptiveSizer :=
  mkSizer f64_zero (sz_alpha s) (minBorrow s) (maxBorrow s) (refillSec s)
    (sz_enabled s) false.

Definition CurrentRate (s : AdaptiveSizer) : float64 := emaRate s.

(** The configuration never changes. *)
Definition sizer_same (s s' : AdaptiveSizer) : Prop :=
  minBorrow s' = minBorrow s ∧ maxBorrow s' = maxBorrow s ∧
  sz_alpha s' = sz_alpha s ∧ sz_enabled s' = sz_enabled s ∧
  refillSec s' = refillSec s.

Lemma sizer_Record_same n s : sizer_same s (sizer_Record n s).
Proof. by repeat split. Qed.

(** Whatever the moving average holds (rounding, infinities and NaN
    included) the borrow size lies between the two configured bounds; with
    adaptive sizing off, or before any data, it is [maxBorrow]. *)
Theorem ComputeBorrowSize_bounds `{FloatConv} s :
  minBorrow s <= maxBorrow s →
  minBorrow s <= ComputeBorrowSize s <= maxBorrow s ∧
  (sz_enabled s = false ∨ hasData s = false → ComputeBorrowSize s = maxBorrow s).
Proof.
  intros Hb. unfold ComputeBorrowSize.
  destruct (sz_enabled s), (hasData s); cbn; try (split; [lia|done]).
  split; [|by intros []].
  set (result := f64_to_u64 _).
  destruct (Z.ltb_spec result (minBorrow s)); [lia|].
  destruct (Z.ltb_spec (maxBorrow s) result); lia.
Qed.

Definition sizer_example : AdaptiveSizer :=
  NewAdaptiveSizer (f64_const 3 10) 100 1000 (60 * Second) true.

Lemma ComputeBorrowSize_bounds_witness :
  (100 <= ComputeBorrowSize (sizer_Record 1 sizer_example) <= 1000 ∧
   (true = false ∨ true = false →
    ComputeBorrowSize (sizer_Record 1 sizer_example) = 1000)).
Proof.
  apply (ComputeBorrowSize_bounds (sizer_Record 1 sizer_example)).
  vm_compute. discriminate.
Defined.

(** The bound that holds for any configuration. *)
Lemma ComputeBorrowSize_le `{FloatConv} s :
  ComputeBorrowSize s <= Z.max (minBorrow s) (maxBorrow s).
Proof.
  unfold ComputeBorrowSize. destruct (_ || _); [lia|]. cbv zeta.
  set (result := f64_to_u64 _).
  destruct (Z.ltb_spec result (minBorrow s)); [lia|].
  destruct (Z.ltb_spec (maxBorrow s) result); lia.
Qed.

Lemma ComputeBorrowSize_nonneg `{FloatConv} s :
  0 <= minBorrow s → 0 <= maxBorrow s → 0 <= ComputeBorrowSize s.
Proof.
  intros. unfold ComputeBorrowSize. destruct (_ || _); [done|]. cbv zeta.
  destruct (_ <? minBorrow s); [done|].
  destruct (maxBorrow s <? _); [done|].
  apply f64_to_u64_range.
Qed.

(** The EMA of the documented example: 0.3 * 100 = 30 tokens, over a
    60-second window with factor 2. *)
Example ComputeBorrowSize_example :
  ComputeBorrowSize (sizer_Record 10 sizer_example) = 360.
Proof. vm_compute. reflexivity. Qed.
