(* ===== verification/BorrowManager.v ===== *)
(** * BorrowManager: borrowing tokens from the pool (internal/borrow/manager.go)

    The manager sizes each borrow, sends it through the [PoolClient] once per
    key at a time (a singleflight group per shard), and remembers per key how
    much this instance has borrowed and when, in 64 locked shards. *)

From S2P Require Export Redis Sizer Shard SortDesc.

Record keyState := mkKeyState { borrowed : Z; lastBorrow : Z }.

Record keyVal := mkKeyVal { kv_key : string; kv_val : Z }.

Record BorrowManager := mkManager {
  bm_sizer : AdaptiveSizer;
  bm_instanceID : string;
  leaseTTL : Z;
  leaseTTLms : Z;
  activeKeys : table keyState;
}.

Definition NewBorrowManager (instanceID : string) (sizer : AdaptiveSizer)
    (ttl : Z) : BorrowManager :=
  mkManager sizer instanceID ttl (Milliseconds ttl) empty_table.

Definition with_sizer (sz : AdaptiveSizer) (m : BorrowManager) : BorrowManager :=
  mkManager sz (bm_instanceID m) (leaseTTL m) (leaseTTLms m) (activeKeys m).
Definition with_activeKeys (t : table keyState) (m : BorrowManager)
  : BorrowManager :=
  mkManager (bm_sizer m) (bm_instanceID m) (leaseTTL m) (leaseTTLms m) t.

(** ** The operations on the shards *)

(** The condition both readers test: something is borrowed and the lease
    has run out. *)
Definition lease_expired (ttl now : Z) (ks : keyState) : bool :=
  (0 <? borrowed ks) && (ttl <? time_Sub now (lastBorrow ks)).

(** The critical section of [Acquire]; [t1] and [t2] are its two clock
    readings. *)
Definition note_borrow (key : string) (granted t1 t2 : Z) (m : BorrowManager)
  : BorrowManager :=
  let base :=
    match t_lookup key (activeKeys m) with
    | None => 0
    | Some ks => if lease_expired (leaseTTL m) t1 ks then 0 else borrowed ks
    end in
  with_activeKeys
    (t_insert key (mkKeyState (to_u64 (base + granted)) t2) (activeKeys m)) m.

(** [Borrowed]; [now] is its clock reading. *)
Definition Borrowed (key : string) (now : Z) (m : BorrowManager)
  : Z * BorrowManager :=
  match t_lookup key (activeKeys m) with
  | Some ks =>
      if lease_expired (leaseTTL m) now ks
      then (0, with_activeKeys (t_delete key (activeKeys m)) m)
      else (borrowed ks, m)
  | None => (0, m)
  end.

(** One shard of [AllBorrowed]: the entries in the order the runtime
    iterates the map. *)
Definition scan_entry (ttl now : Z) (acc : list keyVal * gmap string keyState)
    (e : string * keyState) : list keyVal * gmap string keyState :=
  let '(active, m) := acc in
  let '(k, ks) := e in
  if lease_expired ttl now ks then (active, delete k m)
  else if 0 <? borrowed ks then (active ++ [mkKeyVal k (borrowed ks)], m)
  else (active, m).

Definition scan_shard (ttl now : Z)
    (order : ∀ A, list A → list A) (m : gmap string keyState)
  : list keyVal * gmap string keyState :=
  foldl (scan_entry ttl now) ([], m) (order _ (map_to_list m)).

(** The cut to the [maxKeys] largest; [order] decides between equals, which
    [sort.Slice] leaves open. *)
Definition cut_active (maxKeys : Z) (order : ∀ A, list A → list A)
    (active : list keyVal) : list keyVal :=
  if (0 <? maxKeys) && (maxKeys <? Z.of_nat (length active))
  then take (Z.to_nat maxKeys) (sort_desc kv_val (order _ active))
  else active.

Definition to_out (active : list keyVal) : gmap string Z :=
  foldl (λ out kv, <[kv_key kv := kv_val kv]> out) ∅ active.

(** [Reset]. *)
Definition bm_Reset (key : string) (m : BorrowManager) : BorrowManager :=
  match t_lookup key (activeKeys m) with
  | Some ks =>
      with_activeKeys (t_insert key (mkKeyState 0 (lastBorrow ks)) (activeKeys m)) m
  | None => m
  end.

(** [EvictKeys]. *)
Definition bm_EvictKeys (keys : list string) (m : BorrowManager)
  : BorrowManager :=
  with_activeKeys (evict_keys keys (activeKeys m)) m.

(** ** The operations as goroutine code *)

Section manager.
Context {S : Type} `{FloatConv} `{PoolClient S} (ml : lens S BorrowManager).
(** The [OnBorrow] hook of [BorrowManagerOpts]. *)
Context (onBorrow_hook : option (string → Z → go S unit)).

(** The function [Acquire] hands to the singleflight group. *)
Definition acquire_leader (key : string) (need : Z)
    (onBorrow : option (Z → go S unit)) : go S (Z * option error) :=
  do! borrowSize <- zoom_reads ml (λ m, ComputeBorrowSize (bm_sizer m));
  let borrowSize := if borrowSize <? need then need else borrowSize in
  do! (id, ttl) <- zoom_reads ml (λ m, (bm_instanceID m, leaseTTLms m));
  do! (granted, err) <- Borrow key id borrowSize ttl;
  match err with
  | Some e => Ret (0, Some e)
  | None =>
      if 0 <? granted then
        (match onBorrow with Some cb => cb granted | None => Ret tt end) ;;;
        do! t1 <- ask QNow;
        do! t2 <- ask QNow;
        zoom_modify ml (note_borrow key granted t1 t2) ;;;
        Ret (granted, None)
      else Ret (granted, None)
  end.

Definition Acquire (key : string) (need : Z)
    (onBorrow : option (Z → go S unit)) : go S (Z * option error) :=
  do! shared <- ask (QShared key);
  do! (granted, err) <-
    match shared with
    | Some r => Ret r
    | None => acquire_leader key need onBorrow
    end;
  match err with
  | Some e => Ret (0, Some e)
  | None =>
      if granted =? 0 then Ret (0, None)
      else
        zoom_modify ml (λ m, with_sizer (sizer_Record granted (bm_sizer m)) m) ;;;
        (match onBorrow_hook with
         | Some h => h key granted
         | None => Ret tt
         end) ;;;
        Ret (granted, None)
  end.

Definition RecordConsumption (key : string) (consumed : Z) : go S unit :=
  zoom_modify ml (λ m, with_sizer (sizer_Record consumed (bm_sizer m)) m).

Definition bm_Borrowed (key : string) : go S Z :=
  do! now <- ask QNow;
  zoom ml (Borrowed key now).

Fixpoint scan_shards (now : Z) (idxs : list nat) (active : list keyVal)
  : go S (list keyVal) :=
  match idxs with
  | [] => Ret active
  | i :: idxs =>
      do! order <- ask QOrder;
      do! found <- zoom ml (λ m,
        match activeKeys m !! i with
        | Some sh =>
            let '(found, sh') := scan_shard (leaseTTL m) now order sh in
            (found, with_activeKeys (<[i:=sh']> (activeKeys m)) m)
        | None => ([], m)
        end);
      scan_shards now idxs (active ++ found)
  end.

Definition AllBorrowed (maxKeys : Z) : go S (gmap string Z) :=
  do! now <- ask QNow;
  do! active <- scan_shards now (seq 0 64) [];
  do! order <- ask QOrder;
  Ret (to_out (cut_active maxKeys order active)).
End manager.

(** ** The manager's table is a map from keys to loans *)

Definition bm_wf (m : BorrowManager) : Prop := table_wf (activeKeys m).

Lemma NewBorrowManager_wf id sz ttl : bm_wf (NewBorrowManager id sz ttl).
Proof. apply empty_table_wf. Qed.

Lemma note_borrow_wf key g t1 t2 m : bm_wf m → bm_wf (note_borrow key g t1 t2 m).
Proof. apply t_insert_wf. Qed.

Lemma bm_Reset_wf key m : bm_wf m → bm_wf (bm_Reset key m).
Proof.
  intros Hm. unfold bm_Reset. destruct (t_lookup key (activeKeys m)); [|done].
  by apply t_insert_wf.
Qed.

Lemma Borrowed_wf key now m : bm_wf m → bm_wf (Borrowed key now m).2.
Proof.
  intros Hm. unfold Borrowed. destruct (t_lookup key (activeKeys m)) as [ks|];
    [|done].
  destruct (lease_expired _ _ _); cbn; [|done]. by apply t_delete_wf.
Qed.

Lemma bm_EvictKeys_wf keys m : bm_wf m → bm_wf (bm_EvictKeys keys m).
Proof. apply evict_keys_wf. Qed.

Lemma bm_wf_length m : bm_wf m → length (activeKeys m) = 64%nat.
Proof. by intros []. Qed.

(** ** What the manager reports about a key *)

(** A loan as [Borrowed] reports it at [now]. *)
Definition loan_at (ttl now : Z) (ks : option keyState) : Z :=
  match ks with
  | Some ks => if lease_expired ttl now ks then 0 else borrowed ks
  | None => 0
  end.

Lemma Borrowed_value key now m :
  (Borrowed key now m).1 = loan_at (leaseTTL m) now (t_lookup key (activeKeys m)).
Proof.
  unfold Borrowed, loan_at.
  destruct (t_lookup key (activeKeys m)) as [ks|]; [|done].
  by destruct (lease_expired _ _ _).
Qed.

(** The loan book.  After a grant [g] for [key], the amount reported
    for [key] within the lease is the previous live loan plus [g]; no other
    key's entry changes; once the lease has run out with nothing newer, the
    key reports 0 and its entry is gone. *)
Theorem note_borrow_loan key g t1 t2 now m :
  bm_wf m → is_u64 (loan_at (leaseTTL m) t1 (t_lookup key (activeKeys m)) + g) →
  let m' := note_borrow key g t1 t2 m in
  (time_Sub now t2 <= leaseTTL m →
     (Borrowed key now m').1
       = loan_at (leaseTTL m) t1 (t_lookup key (activeKeys m)) + g) ∧
  (leaseTTL m < time_Sub now t2 →
     0 < loan_at (leaseTTL m) t1 (t_lookup key (activeKeys m)) + g →
     (Borrowed key now m').1 = 0 ∧
     t_lookup key (activeKeys (Borrowed key now m').2) = None) ∧
  (∀ k, k ≠ key →
     t_lookup k (activeKeys m') = t_lookup k (activeKeys m)).
Proof.
  intros Hwf Hu m'.
  assert (Hm' : t_lookup key (activeKeys m') = Some (mkKeyState
            (loan_at (leaseTTL m) t1 (t_lookup key (activeKeys m)) + g) t2)).
  { subst m'. unfold note_borrow. cbn.
    rewrite t_lookup_insert_eq by (by apply bm_wf_length).
    do 2 f_equal. by rewrite <- (to_u64_small _ Hu). }
  split; [|split].
  - intros Ht. rewrite Borrowed_value, Hm'. cbn. unfold lease_expired. cbn.
    destruct (Z.ltb_spec (leaseTTL m) (time_Sub now t2)); [lia|].
    by rewrite andb_false_r.
  - intros Ht Hpos. unfold Borrowed. rewrite Hm'. unfold lease_expired. cbn.
    rewrite (proj2 (Z.ltb_lt 0 _)), (proj2 (Z.ltb_lt (leaseTTL m) _)) by done.
    cbn. split; [done|]. apply t_lookup_delete_eq.
  - intros k Hk. subst m'. unfold note_borrow. cbn.
    by apply t_lookup_insert_ne.
Qed.

Definition manager_example : BorrowManager :=
  note_borrow "k" 40 0 0
    (NewBorrowManager "i" sizer_example (30 * Second)).

Lemma note_borrow_loan_witness :
  (Borrowed "k" (5 * Second) (note_borrow "k" 60 Second Second manager_example)).1
    = 100.
Proof.
  apply (note_borrow_loan "k" 60 Second Second (5 * Second) manager_example).
  - apply note_borrow_wf, NewBorrowManager_wf.
  - vm_compute. split; [discriminate|reflexivity].
  - vm_compute. discriminate.
Defined.

(** ** AllBorrowed *)

(** A live loan, as an entry of the report. *)
Definition live_kv (ttl now : Z) (e : string * keyState) : option keyVal :=
  if lease_expired ttl now e.2 then None
  else if 0 <? borrowed e.2 then Some (mkKeyVal e.1 (borrowed e.2)) else None.

Definition drop_expired (ttl now : Z) (m : gmap string keyState)
  : gmap string keyState :=
  filter (λ e, lease_expired ttl now e.2 = false) m.

Lemma scan_entry_eq ttl now active m k ks :
  scan_entry ttl now (active, m) (k, ks) =
    if lease_expired ttl now ks then (active, delete k m)
    else (active ++ option_list (live_kv ttl now (k, ks)), m).
Proof.
  unfold scan_entry, live_kv. cbn. destruct (lease_expired ttl now ks); [done|].
  destruct (0 <? borrowed ks); cbn; by rewrite ?app_nil_r.
Qed.

Lemma live_kv_expired ttl now k ks :
  lease_expired ttl now ks = true → live_kv ttl now (k, ks) = None.
Proof. unfold live_kv. cbn. by intros ->. Qed.

Lemma omap_cons_option {A B} (f : A → option B) x l :
  omap f (x :: l) = option_list (f x) ++ omap f l.
Proof. cbn. by destruct (f x). Qed.

Lemma scan_entries_spec ttl now l :
  ∀ active m,
  (∀ k ks, (k, ks) ∈ l → m !! k = Some ks) → NoDup l.*1 →
  ∃ m', foldl (scan_entry ttl now) (active, m) l
          = (active ++ omap (live_kv ttl now) l, m') ∧
        ∀ k, m' !! k = if decide (Exists (λ e, e.1 = k ∧
                 lease_expired ttl now e.2 = true) l) then None else m !! k.
Proof.
  induction l as [|[k ks] l IH]; intros active m Hl Hnd.
  - exists m. cbn. rewrite app_nil_r. split; [done|]. intros k.
    rewrite decide_False; [done|]. rewrite Exists_nil. tauto.
  - rewrite fmap_cons in Hnd. apply NoDup_cons in Hnd as [Hk Hnd].
    assert (Hrest : ∀ k' ks', (k', ks') ∈ l → k' ≠ k).
    { intros k' ks' Hin ->. apply Hk. by apply (list_elem_of_fmap_2 fst) in Hin. }
    cbn [foldl]. rewrite scan_entry_eq, omap_cons_option.
    destruct (lease_expired ttl now ks) eqn:E.
    + rewrite live_kv_expired by done.
      destruct (IH active (delete k m)) as (m' & Hm' & Hlk); [|done|].
      { intros k' ks' Hin. rewrite lookup_delete_ne; [apply Hl; by right|].
        intros ->. by eapply Hrest. }
      exists m'. split; [done|]. intros k'. rewrite Hlk.
      destruct (decide (Exists _ l)) as [Hex|Hex].
      * rewrite decide_True; [done|]. by apply Exists_cons; right.
      * destruct (decide (k' = k)) as [->|Hne].
        -- rewrite lookup_delete_eq, decide_True; [done|].
           by apply Exists_cons; left.
        -- rewrite lookup_delete_ne by done. rewrite decide_False; [done|].
           rewrite Exists_cons. cbn. naive_solver.
    + destruct (IH (active ++ option_list (live_kv ttl now (k, ks))) m)
        as (m' & Hm' & Hlk); [intros k' ks' Hin; apply Hl; by right|done|].
      exists m'. rewrite app_assoc. split; [done|].
      intros k'. rewrite Hlk. apply decide_ext.
      rewrite Exists_cons. cbn. rewrite E. naive_solver.
Qed.

Definition order_ok (order : ∀ A, list A → list A) : Prop :=
  ∀ A (l : list A), order A l ≡ₚ l.

Lemma scan_shard_spec ttl now order m :
  order_ok order →
  ∃ found, scan_shard ttl now order m = (found, drop_expired ttl now m) ∧
           found ≡ₚ omap (live_kv ttl now) (map_to_list m).
Proof.
  intros Ho. unfold scan_shard.
  pose proof (Ho _ (map_to_list m)) as Hp.
  destruct (scan_entries_spec ttl now (order _ (map_to_list m)) [] m)
    as (m' & -> & Hlk).
  - intros k ks Hin. rewrite Hp in Hin. by apply elem_of_map_to_list.
  - rewrite Hp. apply NoDup_fst_map_to_list.
  - exists (omap (live_kv ttl now) (order _ (map_to_list m))). split.
    + cbn. f_equal. apply map_eq. intros k. rewrite Hlk. unfold drop_expired.
      rewrite map_lookup_filter.
      destruct (m !! k) as [ks|] eqn:Hk; cbn.
      * destruct (lease_expired ttl now ks) eqn:E.
        -- rewrite decide_True; [by rewrite option_guard_False|].
           apply Exists_exists. exists (k, ks). split; [|done].
           rewrite Hp. by apply elem_of_map_to_list.
        -- rewrite decide_False; [by rewrite option_guard_True|].
           rewrite Exists_exists. intros ([k' ks'] & Hin & E1 & E2).
           rewrite Hp in Hin. apply elem_of_map_to_list in Hin.
           cbn in *. congruence.
      * by case_decide.
    + by rewrite Hp.
Qed.

(** *** All shards *)

(** The live entries of the shards [idxs]. *)
Definition live_in (ttl now : Z) (t : table keyState) (idxs : list nat)
  : list keyVal :=
  mjoin ((λ j, omap (live_kv ttl now) (map_to_list (default ∅ (t !! j)))) <$> idxs).

Definition drop_in (ttl now : Z) (idxs : list nat) (t : table keyState)
  : table keyState :=
  foldl (λ t j, alter (drop_expired ttl now) j t) t idxs.

Definition env_ok (env : environment) : Prop :=
  ∀ X (q : question X) i, valid_answer q (env X q i).

Lemma live_in_alter ttl now f j t idxs :
  j ∉ idxs → live_in ttl now (alter f j t) idxs = live_in ttl now t idxs.
Proof.
  intros Hj. unfold live_in. f_equal. apply list_fmap_ext.
  intros i x Hx. rewrite list_lookup_alter_ne; [done|].
  intros ->. apply Hj. by eapply list_elem_of_lookup_2.
Qed.

Section exec_all.
Context {S : Type} (ml : lens S BorrowManager).

Lemma exec_scan_shards env now idxs :
  env_ok env →
  ∀ i active s,
  NoDup idxs → (∀ j, j ∈ idxs → is_Some (activeKeys (lget ml s) !! j)) →
  ∃ found s' j,
    exec env i (scan_shards ml now idxs active) s = Done (active ++ found) s' [] j ∧
    found ≡ₚ live_in (leaseTTL (lget ml s)) now (activeKeys (lget ml s)) idxs ∧
    lget ml s' = with_activeKeys
      (drop_in (leaseTTL (lget ml s)) now idxs (activeKeys (lget ml s)))
      (lget ml s).
Proof.
  intros He. induction idxs as [|j idxs IH]; intros i active s Hnd Hs.
  - exists [], s, i. cbn. rewrite app_nil_r. split; [done|]. split; [done|].
    by destruct (lget ml s).
  - apply NoDup_cons in Hnd as [Hj Hnd].
    destruct (Hs j) as [sh Hsh]; [by left|].
    set (m := lget ml s) in *.
    cbn [scan_shards bind ask atomically zoom exec].
    fold m. rewrite Hsh.
    destruct (scan_shard_spec (leaseTTL m) now (env _ QOrder i) sh)
      as (found & -> & Hfound); [exact (He _ QOrder i)|].
    set (m1 := with_activeKeys (<[j:=drop_expired (leaseTTL m) now sh]>
                 (activeKeys m)) m).
    assert (Halt : <[j:=drop_expired (leaseTTL m) now sh]> (activeKeys m)
                   = alter (drop_expired (leaseTTL m) now) j (activeKeys m)).
    { apply list_eq. intros i'.
      destruct (decide (i' = j)) as [->|Hne].
      - rewrite list_lookup_insert_eq by (by eapply lookup_lt_Some).
        by rewrite list_lookup_alter_eq, Hsh.
      - by rewrite list_lookup_insert_ne, list_lookup_alter_ne. }
    destruct (IH (Datatypes.S i) (active ++ found) (lput ml m1 s) Hnd)
      as (found' & s' & j' & Hex & Hf' & Hs').
    { intros k Hk. rewrite lget_put. subst m1. cbn. rewrite Halt.
      rewrite list_lookup_alter_ne; [apply Hs; by right|]. congruence. }
    exists (found ++ found'), s', j'.
    rewrite lget_put in Hf', Hs'. subst m1. cbn in Hf', Hs'.
    rewrite Halt in Hf', Hs'. rewrite live_in_alter in Hf' by done.
    split; [by rewrite app_assoc|]. split.
    + cbn. rewrite Hsh. cbn. by rewrite Hfound, Hf'.
    + rewrite Hs'. done.
Qed.
End exec_all.

(** A loan the manager counts at [now]. *)
Definition live (m : BorrowManager) (now : Z) (k : string) (v : Z) : Prop :=
  ∃ ks, t_lookup k (activeKeys m) = Some ks ∧
    lease_expired (leaseTTL m) now ks = false ∧ borrowed ks = v ∧ 0 < v.

Section all_borrowed.
Context (m : BorrowManager) (Hwf : bm_wf m) (now : Z).

Definition live_list : list keyVal :=
  live_in (leaseTTL m) now (activeKeys m) (seq 0 64).

Lemma live_list_entries :
  live_list = omap (live_kv (leaseTTL m) now) (t_entries (activeKeys m)).
Proof.
  unfold live_list, live_in, t_entries. rewrite <- join_omap. f_equal.
  rewrite <- (bm_wf_length m Hwf).
  rewrite <- (fmap_lookup_seq
    (λ o : option (gmap string keyState),
       omap (live_kv (leaseTTL m) now) (map_to_list (default ∅ o)))
    (λ sh, omap (live_kv (leaseTTL m) now) (map_to_list sh))
    (activeKeys m) 0) by done.
  apply list_fmap_ext. intros i j _. by rewrite Nat.sub_0_r.
Qed.

Lemma elem_of_live_list kv :
  kv ∈ live_list ↔ live m now (kv_key kv) (kv_val kv).
Proof.
  rewrite live_list_entries, list_elem_of_omap. split.
  - intros ([k ks] & Hin & Hkv). apply elem_of_t_entries in Hin; [|done].
    unfold live_kv in Hkv. cbn in Hkv.
    destruct (lease_expired _ _ _) eqn:E; [done|].
    destruct (Z.ltb_spec 0 (borrowed ks)); simplify_eq/=.
    by exists ks.
  - intros (ks & Hk & He & Hv & Hp). exists (kv_key kv, ks).
    split; [by apply elem_of_t_entries|]. unfold live_kv. cbn.
    rewrite He, (proj2 (Z.ltb_lt _ _)) by lia. rewrite Hv. by destruct kv.
Qed.

Lemma live_list_NoDup : NoDup (kv_key <$> live_list).
Proof.
  rewrite live_list_entries.
  pose proof (t_entries_NoDup _ Hwf) as Hnd. revert Hnd.
  generalize (t_entries (activeKeys m)). intros l.
  induction l as [|[k ks] l IH]; cbn; [constructor|].
  intros [Hk Hnd]%NoDup_cons. unfold live_kv at 1. cbn.
  destruct (lease_expired _ _ ks); [by apply IH|].
  destruct (0 <? borrowed ks); [|by apply IH].
  cbn. apply NoDup_cons. split; [|by apply IH].
  intros ([k' v'] & -> & Hin)%list_elem_of_fmap. cbn in Hk.
  apply list_elem_of_omap in Hin as ([k1 ks1] & Hin & Hkv). apply Hk.
  unfold live_kv in Hkv. cbn in Hkv.
  destruct (lease_expired _ _ _); [done|]. destruct (0 <? _); simplify_eq/=.
  by apply (list_elem_of_fmap_2 fst) in Hin.
Qed.

Lemma to_out_lookup active k v :
  NoDup (kv_key <$> active) →
  to_out active !! k = Some v ↔ mkKeyVal k v ∈ active.
Proof.
  intros Hnd. unfold to_out.
  rewrite (lookup_foldl_insert kv_key kv_val active ∅ Hnd).
  rewrite lookup_empty. split.
  - intros [([k' v'] & Hin & Hk & Hv)|[_ ?]]; [|done]. by simplify_eq/=.
  - intros Hin. left. by exists (mkKeyVal k v).
Qed.

Lemma to_out_size active :
  NoDup (kv_key <$> active) → size (to_out active) = length active.
Proof.
  intros Hnd. unfold to_out. by rewrite (size_foldl_insert kv_key kv_val).
Qed.

Lemma drop_in_lookup t k :
  table_wf t →
  t_lookup k (drop_in (leaseTTL m) now (seq 0 64) t) =
    t_lookup k t ≫= λ ks,
      if lease_expired (leaseTTL m) now ks then None else Some ks.
Proof.
  intros [Hl _].
  assert (Hd : ∀ idxs t i, NoDup idxs →
    drop_in (leaseTTL m) now idxs t !! i =
      if decide (i ∈ idxs) then drop_expired (leaseTTL m) now <$> t !! i
      else t !! i).
  { clear. unfold drop_in. induction idxs as [|j idxs IH]; intros t i Hnd; cbn.
    - by rewrite decide_False by apply not_elem_of_nil.
    - apply NoDup_cons in Hnd as [Hj Hnd]. rewrite IH by done.
      destruct (decide (i = j)) as [->|Hne].
      + rewrite decide_False, decide_True by (by (left || done)).
        by rewrite list_lookup_alter_eq.
      + rewrite list_lookup_alter_ne by done.
        apply decide_ext. rewrite elem_of_cons. naive_solver. }
  unfold t_lookup. rewrite Hd by apply NoDup_seq.
  rewrite decide_True by (apply elem_of_seq; pose proof (shard_of_lt k); lia).
  destruct (t !! shard_of k) as [sh|]; cbn; [|done].
  unfold drop_expired. rewrite map_lookup_filter.
  destruct (sh !! k) as [ks|]; cbn; [|done].
  destruct (lease_expired _ _ ks); [by rewrite option_guard_False|].
  by rewrite option_guard_True.
Qed.
End all_borrowed.

(** The cut keeps a sublist, bounded, of the largest. *)
Lemma cut_active_spec maxKeys order active :
  order_ok order →
  let out := cut_active maxKeys order active in
  (∃ rest, out ++ rest ≡ₚ active) ∧
  (0 < maxKeys → Z.of_nat (length out) <= maxKeys) ∧
  (∀ x, x ∈ active → x ∉ out →
     0 < maxKeys ∧ Z.of_nat (length out) = maxKeys ∧
     ∀ y, y ∈ out → kv_val x <= kv_val y).
Proof.
  intros Ho. unfold cut_active. cbv zeta.
  destruct (Z.ltb_spec 0 maxKeys), (Z.ltb_spec maxKeys (Z.of_nat (length active)));
    cbn [andb].
  1: {
    set (srt := sort_desc kv_val (order _ active)).
    assert (Hp : srt ≡ₚ active) by (unfold srt; rewrite sort_desc_perm; apply Ho).
    assert (Hlen : length (take (Z.to_nat maxKeys) srt) = Z.to_nat maxKeys).
    { rewrite length_take, Hp. lia. }
    split; [|split].
    - exists (drop (Z.to_nat maxKeys) srt). by rewrite take_drop.
    - lia.
    - intros x Hx Hx'. split; [done|]. split; [lia|]. intros y Hy.
      eapply sorted_take_drop; [apply sort_desc_sorted|exact Hy|].
      rewrite <- Hp, <- (take_drop (Z.to_nat maxKeys) srt) in Hx.
      by apply elem_of_app in Hx as [?|?]. }
  all: split; [exists []; by rewrite app_nil_r|split; [lia|done]].
Qed.

Section all_borrowed_spec.
Context {S : Type} (ml : lens S BorrowManager).

(** C20: the gossip report.  [AllBorrowed(maxKeys)] returns only keys with
    a live loan, with the amount on loan; never more than [maxKeys] of
    them when a cap is set; a live key is left out only when the cap is
    reached, and then every reported key has at least as much on loan;
    and expired entries, and only those, leave the table. *)
Theorem AllBorrowed_spec env i s maxKeys :
  env_ok env → bm_wf (lget ml s) →
  let m := lget ml s in
  let now := env _ QNow i in
  ∃ out s' j,
    exec env i (AllBorrowed ml maxKeys) s = Done out s' [] j ∧
    (∀ k v, out !! k = Some v → live m now k v) ∧
    (0 < maxKeys → Z.of_nat (size out) <= maxKeys) ∧
    (∀ k v, live m now k v → out !! k = None →
       0 < maxKeys ∧ Z.of_nat (size out) = maxKeys ∧
       ∀ k' v', out !! k' = Some v' → v <= v') ∧
    (∀ k, t_lookup k (activeKeys (lget ml s')) =
       t_lookup k (activeKeys m) ≫= λ ks,
         if lease_expired (leaseTTL m) now ks then None else Some ks).
Proof.
  intros He Hwf m now.
  destruct (exec_scan_shards ml env now (seq 0 64) He (Datatypes.S i) [] s)
    as (found & s' & j & Hex & Hfound & Hs'); [apply NoDup_seq| |].
  { intros k Hk%elem_of_seq. apply lookup_lt_is_Some_2.
    rewrite bm_wf_length by done. lia. }
  fold m in Hfound, Hs'. change (live_in _ _ _ _) with (live_list m now) in Hfound.
  set (order := env _ QOrder j).
  assert (Ho : order_ok order) by exact (He _ QOrder j).
  destruct (cut_active_spec maxKeys order found Ho)
    as ((rest & Hperm) & Hlen & Htop).
  set (out := cut_active maxKeys order found) in *.
  assert (Hnd : NoDup (kv_key <$> out)).
  { eapply (NoDup_app (kv_key <$> out) (kv_key <$> rest)).
    rewrite <- fmap_app, Hperm, Hfound. by apply live_list_NoDup. }
  assert (Hsub : ∀ x, x ∈ out → x ∈ live_list m now).
  { intros x Hx. rewrite <- Hfound, <- Hperm. apply elem_of_app. by left. }
  exists (to_out out), s', (Datatypes.S j).
  split; [|split; [|split; [|split]]].
  - unfold AllBorrowed. cbn [bind ask exec]. rewrite exec_bind.
    fold now. rewrite Hex. cbn. fold order. done.
  - intros k v Hk. apply to_out_lookup in Hk; [|done].
    apply Hsub in Hk. by apply elem_of_live_list in Hk.
  - intros Hmax. rewrite to_out_size by done. by apply Hlen.
  - intros k v Hlive Hnone.
    apply (elem_of_live_list m Hwf now (mkKeyVal k v)) in Hlive.
    rewrite <- Hfound in Hlive.
    destruct (Htop _ Hlive) as (H1 & H2 & H3).
    { intros Hin. apply to_out_lookup in Hin; [|done]. congruence. }
    rewrite to_out_size by done. split; [done|]. split; [done|].
    intros k' v' Hk'. apply to_out_lookup in Hk'; [|done].
    exact (H3 _ Hk').
  - intros k. rewrite Hs'. cbn. by apply drop_in_lookup.
Qed.
End all_borrowed_spec.

(** A shard's iteration is some permutation; this one is the identity. *)
Lemma clock_env_ok t : env_ok (clock_env t).
Proof.
  intros X q i. destruct q; try exact I.
  - intros A l. reflexivity.
  - intros Hn. split; [reflexivity|exact Hn].
Qed.

Lemma AllBorrowed_spec_witness :
  ∃ out s' j,
    exec (clock_env Second) 0 (AllBorrowed lens_id 1) manager_example
      = Done out s' [] j ∧
    (∀ k v, out !! k = Some v → live manager_example Second k v) ∧
    Z.of_nat (size out) <= 1.
Proof.
  destruct (AllBorrowed_spec lens_id (clock_env Second) 0 manager_example 1)
    as (out & s' & j & H1 & H2 & H3 & _).
  - apply clock_env_ok.
  - apply note_borrow_wf, NewBorrowManager_wf.
  - exists out, s', j. split; [exact H1|]. split; [exact H2|]. apply H3. lia.
Defined.
