(* ===== verification/Metrics.v ===== *)
(** * Metrics: the Prometheus collector (internal/metrics)

    Prometheus is outside the repository: a collector is the log of the calls
    made on its vectors, or [None] for the nil collector every method
    tolerates.  What is checked is what the library checks at run time: the
    registered names are distinct and every call carries as many label values
    as its vector declares. *)

From S2P Require Export GoFloat.

(** The fields of [Collector]. *)
Inductive vec :=
| RequestsTotal | LocalHitsTotal | RedisBorrowsTotal | RedisSkipsTotal
| PreBorrowsTotal | PeerProbesTotal | PeerProbeStaleTotal | TokensTransferred
| TokensReturned | WindowResetsTotal | GossipsSentTotal | GossipsReceivedTotal
| RequestDuration | BorrowSize | LocalTokensRemaining | LocalTokens
| BorrowedTokens | KnownPeers | CMSStaleness.

Inductive vkind := Counter | Gauge | Histogram.

#[export] Instance vkind_eq_dec : EqDecision vkind.
Proof. solve_decision. Defined.

(** [NewCollector]: the kind, name and labels of each field, in the order
    they are registered. *)
Definition collector_fields : list (vec * (vkind * string * list string)) :=
  [ (RequestsTotal, (Counter, "krate_requests_total", ["key"; "result"]));
    (LocalHitsTotal, (Counter, "krate_local_hits_total", ["key"]));
    (RedisBorrowsTotal, (Counter, "krate_redis_borrows_total", ["key"; "result"]));
    (RedisSkipsTotal, (Counter, "krate_redis_skips_total", ["key"]));
    (PreBorrowsTotal, (Counter, "krate_pre_borrows_total", ["key"]));
    (PeerProbesTotal, (Counter, "krate_peer_probes_total", ["key"; "result"]));
    (PeerProbeStaleTotal, (Counter, "krate_peer_probe_stale_total", ["key"; "peer_id"]));
    (TokensTransferred, (Counter, "krate_tokens_transferred_total", ["direction"]));
    (TokensReturned, (Counter, "krate_tokens_returned_total", []));
    (WindowResetsTotal, (Counter, "krate_window_resets_total", ["key"]));
    (GossipsSentTotal, (Counter, "krate_gossips_sent_total", []));
    (GossipsReceivedTotal, (Counter, "krate_gossips_received_total", []));
    (RequestDuration, (Histogram, "krate_request_duration_seconds", ["phase"]));
    (BorrowSize, (Histogram, "krate_borrow_size", []));
    (LocalTokensRemaining, (Histogram, "krate_local_tokens_remaining", []));
    (LocalTokens, (Gauge, "krate_local_tokens", ["key"]));
    (BorrowedTokens, (Gauge, "krate_borrowed_tokens", ["key"]));
    (KnownPeers, (Gauge, "krate_known_peers", []));
    (CMSStaleness, (Gauge, "krate_cms_staleness_seconds", ["peer_id"])) ].

(** A call on a vector, with its label values. *)
Inductive mop :=
| Inc (v : vec) (labels : list string)
| Add (v : vec) (labels : list string) (x : float64)
| Set_ (v : vec) (labels : list string) (x : float64)
| Observe (v : vec) (labels : list string) (x : float64).

(** [*Collector]: nil, or the calls made so far, newest first. *)
Definition Collector : Type := option (list mop).

Definition NewCollector : Collector := Some [].
Definition NoopCollector : Collector := None.

Definition call (o : mop) (c : Collector) : Collector := cons o <$> c.

(** ** record.go *)

Definition RecordAllowed (key : string) : Collector → Collector :=
  call (Inc RequestsTotal [key; "allowed"]).
Definition RecordRejected (key : string) : Collector → Collector :=
  call (Inc RequestsTotal [key; "rejected"]).
Definition RecordLocalHit (key : string) : Collector → Collector :=
  call (Inc LocalHitsTotal [key]).
Definition RecordRedisBorrow (key : string) (granted : bool)
  : Collector → Collector :=
  call (Inc RedisBorrowsTotal [key; if granted then "granted" else "exhausted"]).
Definition RecordPeerProbe (key result : string) : Collector → Collector :=
  call (Inc PeerProbesTotal [key; result]).
Definition RecordPeerStale (key peerID : string) : Collector → Collector :=
  call (Inc PeerProbeStaleTotal [key; peerID]).
Definition RecordTokenSent (count : Z) : Collector → Collector :=
  call (Add TokensTransferred ["sent"] (f64_of_Z count)).
Definition RecordTokenReceived (count : Z) : Collector → Collector :=
  call (Add TokensTransferred ["received"] (f64_of_Z count)).
Definition RecordTokensReturned (count : Z) : Collector → Collector :=
  call (Add TokensReturned [] (f64_of_Z count)).
Definition RecordWindowReset (key : string) : Collector → Collector :=
  call (Inc WindowResetsTotal [key]).
Definition RecordGossipSent : Collector → Collector :=
  call (Inc GossipsSentTotal []).
Definition RecordGossipReceived : Collector → Collector :=
  call (Inc GossipsReceivedTotal []).
Definition ObserveRequestDuration (phase : string) (d : Z)
  : Collector → Collector :=
  call (Observe RequestDuration [phase] (duration_Seconds d)).
Definition SetLocalTokens (key : string) (tokens : Z) : Collector → Collector :=
  call (Set_ LocalTokens [key] (f64_of_Z tokens)).
Definition SetBorrowedTokens (key : string) (tokens : Z)
  : Collector → Collector :=
  call (Set_ BorrowedTokens [key] (f64_of_Z tokens)).
Definition SetKnownPeers (count : Z) : Collector → Collector :=
  call (Set_ KnownPeers [] (f64_of_Z count)).
Definition ObserveBorrowSize (size : Z) : Collector → Collector :=
  call (Observe BorrowSize [] (f64_of_Z size)).
Definition ObserveLocalTokensRemaining (tokens : Z) : Collector → Collector :=
  call (Observe LocalTokensRemaining [] (f64_of_Z tokens)).
Definition SetCMSStaleness (peerID : string) (ageSeconds : float64)
  : Collector → Collector :=
  call (Set_ CMSStaleness [peerID] ageSeconds).
Definition RecordRedisSkip (key : string) : Collector → Collector :=
  call (Inc RedisSkipsTotal [key]).
Definition RecordPreBorrow (key : string) : Collector → Collector :=
  call (Inc PreBorrowsTotal [key]).

(** ** What Prometheus requires of these calls *)

#[export] Instance vec_eq_dec : EqDecision vec.
Proof. solve_decision. Defined.

(** The kinds an operation is defined on. *)
Definition op_ok (o : mop) : Prop :=
  let check v labels kinds :=
    ∃ k n ls, (v, (k, n, ls)) ∈ collector_fields ∧ k ∈ kinds ∧
      length labels = length ls in
  match o with
  | Inc v ls => check v ls [Counter; Gauge]
  | Add v ls _ => check v ls [Counter; Gauge]
  | Set_ v ls _ => check v ls [Gauge]
  | Observe v ls _ => check v ls [Histogram]
  end.

Definition collector_ok (c : Collector) : Prop :=
  match c with Some log => Forall op_ok log | None => True end.

(** The methods of record.go. *)
Inductive record_call : (Collector → Collector) → Prop :=
| RC_allowed k : record_call (RecordAllowed k)
| RC_rejected k : record_call (RecordRejected k)
| RC_local k : record_call (RecordLocalHit k)
| RC_borrow k g : record_call (RecordRedisBorrow k g)
| RC_probe k r : record_call (RecordPeerProbe k r)
| RC_stale k p : record_call (RecordPeerStale k p)
| RC_sent n : record_call (RecordTokenSent n)
| RC_received n : record_call (RecordTokenReceived n)
| RC_returned n : record_call (RecordTokensReturned n)
| RC_reset k : record_call (RecordWindowReset k)
| RC_gsent : record_call RecordGossipSent
| RC_grecv : record_call RecordGossipReceived
| RC_duration p d : record_call (ObserveRequestDuration p d)
| RC_tokens k n : record_call (SetLocalTokens k n)
| RC_borrowed k n : record_call (SetBorrowedTokens k n)
| RC_peers n : record_call (SetKnownPeers n)
| RC_size n : record_call (ObserveBorrowSize n)
| RC_remaining n : record_call (ObserveLocalTokensRemaining n)
| RC_cms p x : record_call (SetCMSStaleness p x)
| RC_skip k : record_call (RecordRedisSkip k)
| RC_pre k : record_call (RecordPreBorrow k).

Lemma collector_names_distinct :
  NoDup ((λ e, e.2.1.2) <$> collector_fields).
Proof. apply (bool_decide_unpack _). vm_compute. exact I. Qed.

Ltac field_at n :=
  do 3 eexists; split; [apply (list_elem_of_lookup_2 _ n); reflexivity|];
  split; [apply (bool_decide_unpack _); vm_compute; exact I|reflexivity].

(** Every method of the collector is safe to call on a nil collector,
    where it does nothing, and on a live one it makes a call whose vector is
    registered, is of the right kind and has exactly as many labels as the
    call has values; so no sequence of them can make Prometheus panic. *)
Theorem record_calls_ok f c :
  record_call f → collector_ok c → f None = None ∧ collector_ok (f c).
Proof.
  intros Hf Hc. split; [by destruct Hf|].
  destruct c as [log|]; [|by destruct Hf].
  cbn in Hc. destruct Hf; cbn; (constructor; [|exact Hc]);
    first [ field_at 0%nat | field_at 1%nat | field_at 2%nat | field_at 3%nat
          | field_at 4%nat | field_at 5%nat | field_at 6%nat | field_at 7%nat
          | field_at 8%nat | field_at 9%nat | field_at 10%nat | field_at 11%nat
          | field_at 12%nat | field_at 13%nat | field_at 14%nat
          | field_at 15%nat | field_at 16%nat | field_at 17%nat
          | field_at 18%nat ].
Qed.

Lemma record_calls_ok_witness :
  RecordAllowed "k" None = None ∧ collector_ok (RecordAllowed "k" NewCollector).
Proof.
  apply record_calls_ok; [constructor|]. constructor.
Defined.
