(* ===== verification/Gossip.v ===== *)
(** * Gossip: what an instance knows of its peers (internal/sketch/gossip.go)

    Per shard, six two-level maps from peer and key to what the peer last
    reported: tokens consumed and borrowed, when, and a moving average of its
    consumption rate.  [TopK] predicts each peer's surplus for a key and
    ranks the peers. *)

From S2P Require Export GoFloat Go Shard SortDesc.

Record PeerEntry := mkEntry {
  pe_ID : string; Surplus : Z; pe_Consumed : Z; LastUpdated : Z;
}.

Abbreviation nested V := (gmap string (gmap string V)).

Record gossipShard := mkGShard {
  peerConsumed : nested Z;
  peerBorrowed : nested Z;
  peerUpdated : nested Z;
  gs_lastConsumed : nested Z;
  gs_velocityEMA : nested float64;
  gs_lastUpdated : nested Z;
}.

Record Gossiper := mkGossiper {
  g_alpha : float64;
  g_shards : list gossipShard;
  g_peers : gset string;
}.

Definition gossipShardCount : nat := 64.

Definition empty_gshard : gossipShard := mkGShard ∅ ∅ ∅ ∅ ∅ ∅.

Definition NewGossiper : Gossiper :=
  mkGossiper (f64_const 1 2) (replicate gossipShardCount empty_gshard) ∅.

Definition SetAlpha (alpha : float64) (g : Gossiper) : Gossiper :=
  if f64_ltb f64_zero alpha && f64_leb alpha f64_one
  then mkGossiper alpha (g_shards g) (g_peers g) else g.

(** ** Two-level maps *)

(** [m[id][k]], and the zero value [z] when absent. *)
Definition nget {V} (id k : string) (m : nested V) : option V :=
  m !! id ≫= (.!! k).
Definition nput {V} (id k : string) (v : V) (m : nested V) : nested V :=
  <[id := <[k := v]> (default ∅ (m !! id))]> m.
Definition ndel {V} (id k : string) (m : nested V) : nested V :=
  alter (delete k) id m.
(** [if _, ok := m[id]; !ok { m[id] = make(..) }]. *)
Definition nmake {V} (id : string) (m : nested V) : nested V :=
  match m !! id with Some _ => m | None => <[id := ∅]> m end.

(** ** The moving average *)

(** [(alpha * diff/dt) + ((1 - alpha) * prev)], [diff] counting a restarted
    counter from zero. *)
Definition ema_step (alpha : float64) (v lastCon : Z) (dt prevEMA : float64)
  : float64 :=
  let diff := if lastCon <=? v then f64_of_Z (v - lastCon) else f64_of_Z v in
  let currentVelocity := f64_div diff dt in
  f64_add (f64_mul alpha currentVelocity)
          (f64_mul (f64_sub f64_one alpha) prevEMA).

(** ** UpdatePeer *)

Section update.
Context (id : string) (alpha : float64) (now : Z).

(** The body of the loop over [consumed]. *)
Definition update_consumed (sh : gossipShard) (e : string * Z) : gossipShard :=
  let '(k, v) := e in
  if v =? 0 then
    mkGShard (ndel id k (peerConsumed sh)) (peerBorrowed sh) (peerUpdated sh)
      (ndel id k (gs_lastConsumed sh)) (ndel id k (gs_velocityEMA sh))
      (ndel id k (gs_lastUpdated sh))
  else
    let vel :=
      match nget id k (gs_lastUpdated sh), nget id k (gs_lastConsumed sh) with
      | Some lastTime, Some lastCon =>
          let dt := duration_Seconds (time_Sub now lastTime) in
          if f64_ltb f64_zero dt then
            nput id k (ema_step alpha v lastCon dt
               (default f64_zero (nget id k (gs_velocityEMA sh))))
              (gs_velocityEMA sh)
          else gs_velocityEMA sh
      | _, _ => gs_velocityEMA sh
      end in
    mkGShard (nput id k v (peerConsumed sh)) (peerBorrowed sh) (peerUpdated sh)
      (nput id k v (gs_lastConsumed sh)) vel (nput id k now (gs_lastUpdated sh)).

Definition update_borrowed (sh : gossipShard) (e : string * Z) : gossipShard :=
  let '(k, v) := e in
  mkGShard (peerConsumed sh)
    (if v =? 0 then ndel id k (peerBorrowed sh) else nput id k v (peerBorrowed sh))
    (peerUpdated sh) (gs_lastConsumed sh) (gs_velocityEMA sh) (gs_lastUpdated sh).

Definition touch_updated (sh : gossipShard) (e : string * Z) : gossipShard :=
  mkGShard (peerConsumed sh) (peerBorrowed sh) (nput id e.1 now (peerUpdated sh))
    (gs_lastConsumed sh) (gs_velocityEMA sh) (gs_lastUpdated sh).

(** [updateShardPeerLocked]; the two lists are the maps in the order the
    runtime iterates them. *)
Definition updateShardPeerLocked (consumed borrowed : list (string * Z))
    (sh : gossipShard) : gossipShard :=
  let mk_last := match gs_lastConsumed sh !! id with
                 | Some _ => false | None => true end in
  let sh := mkGShard (nmake id (peerConsumed sh)) (peerBorrowed sh) (peerUpdated sh)
    (if mk_last then <[id:=∅]> (gs_lastConsumed sh) else gs_lastConsumed sh)
    (if mk_last then <[id:=∅]> (gs_velocityEMA sh) else gs_velocityEMA sh)
    (if mk_last then <[id:=∅]> (gs_lastUpdated sh) else gs_lastUpdated sh) in
  let sh := foldl update_consumed sh consumed in
  let sh := mkGShard (peerConsumed sh) (nmake id (peerBorrowed sh)) (peerUpdated sh)
    (gs_lastConsumed sh) (gs_velocityEMA sh) (gs_lastUpdated sh) in
  let sh := foldl update_borrowed sh borrowed in
  let sh := mkGShard (peerConsumed sh) (peerBorrowed sh) (nmake id (peerUpdated sh))
    (gs_lastConsumed sh) (gs_velocityEMA sh) (gs_lastUpdated sh) in
  let sh := foldl touch_updated sh consumed in
  foldl touch_updated sh borrowed.
End update.

(** ** RemovePeer and EvictKeys, per shard *)

Definition remove_peer_shard (id : string) (sh : gossipShard) : gossipShard :=
  mkGShard (delete id (peerConsumed sh)) (delete id (peerBorrowed sh))
    (delete id (peerUpdated sh)) (delete id (gs_lastConsumed sh))
    (delete id (gs_velocityEMA sh)) (delete id (gs_lastUpdated sh)).

(** [for id := range m { delete(m[id], key) }]. *)
Definition ndel_all {V} (k : string) (m : nested V) : nested V :=
  delete k <$> m.

Definition evict_key_shard (sh : gossipShard) (k : string) : gossipShard :=
  mkGShard (ndel_all k (peerConsumed sh)) (ndel_all k (peerBorrowed sh))
    (ndel_all k (peerUpdated sh)) (ndel_all k (gs_lastConsumed sh))
    (ndel_all k (gs_velocityEMA sh)) (ndel_all k (gs_lastUpdated sh)).

(** ** TopK *)

(** [predictedSurplus], shared with the predictive router: the surplus less
    what the peer is expected to have consumed since. *)
Definition predict (surplus : Z) (velocity dt : float64) : float64 :=
  let dt := if f64_ltb dt f64_zero then f64_zero else dt in
  let expectedDecay := f64_mul velocity dt in
  if f64_ltb f64_zero expectedDecay then
    if f64_ltb expectedDecay (f64_of_Z surplus)
    then f64_sub (f64_of_Z surplus) expectedDecay else f64_zero
  else f64_of_Z surplus.

Section topk.
Context `{FloatConv} (key : string) (now : Z) (sh : gossipShard).

Definition raw_surplus (borrowed consumed : Z) : Z :=
  if consumed <? borrowed then borrowed - consumed else 0.

(** The loop body up to the entry: [None] is one of its [continue]s. *)
Definition candidate (e : string * gmap string Z) : option PeerEntry :=
  let '(id, bm) := e in
  let borrowed := default 0 (bm !! key) in
  if borrowed =? 0 then None
  else
    let consumed := default 0 (nget id key (peerConsumed sh)) in
    let rawSurplus := raw_surplus borrowed consumed in
    if rawSurplus =? 0 then None
    else
      let lastTime := default time_zero (nget id key (peerUpdated sh)) in
      let velocity := default f64_zero (nget id key (gs_velocityEMA sh)) in
      let predictedSurplus :=
        predict rawSurplus velocity (duration_Seconds (time_Sub now lastTime)) in
      if f64_ltb f64_zero predictedSurplus
      then Some (mkEntry id (f64_to_u64 predictedSurplus) consumed lastTime)
      else None.

(** The insertion into the 16-entry buffer, cut back to [k]. *)
Definition insert_top (k : nat) (top : list PeerEntry) (entry : PeerEntry)
  : list PeerEntry :=
  let top :=
    match list_find (λ t, Surplus t < Surplus entry) top with
    | Some (insertIdx, _) => take insertIdx top ++ entry :: drop insertIdx top
    | None => if (length top <? k)%nat then top ++ [entry] else top
    end in
  if (k <? length top)%nat then take k top else top.

Definition insert_candidate (k : nat) (top : list PeerEntry)
    (e : string * gmap string Z) : list PeerEntry :=
  match candidate e with
  | Some entry => insert_top k top entry
  | None => top
  end.

(** [order1] is the iteration order of the peers, [order2] the order
    [sort.Slice] leaves equals in.  [None] is the slice-bounds panic of
    [entries[:k]] for a negative [k]. *)
Definition TopK (k : Z) (order1 order2 : ∀ A : Type, list A → list A)
  : option (list PeerEntry) :=
  let peers := order1 _ (map_to_list (peerBorrowed sh)) in
  if (k <=? 15) && (0 <? k) then
    Some (foldl (insert_candidate (Z.to_nat k)) [] peers)
  else
    let entries := sort_desc Surplus (order2 _ (omap candidate peers)) in
    if k <? Z.of_nat (length entries) then
      if k <? 0 then None else Some (take (Z.to_nat k) entries)
    else Some entries.
End topk.

(** ** The methods as goroutine code *)

Program Definition shards_lens : lens Gossiper (list gossipShard) :=
  {| lget := g_shards;
     lput t g := mkGossiper (g_alpha g) t (g_peers g) |}.
Next Obligation. done. Qed.

Section gossiper.
Context {S : Type} `{FloatConv} (gl : lens S Gossiper).

Definition add_peer (id : string) (g : Gossiper) : Gossiper :=
  mkGossiper (g_alpha g) (g_shards g) ({[id]} ∪ g_peers g).
Definition del_peer (id : string) (g : Gossiper) : Gossiper :=
  mkGossiper (g_alpha g) (g_shards g) (g_peers g ∖ {[id]}).

Definition in_shard (i : nat) (m : gmap string Z) : gmap string Z :=
  filter (λ e, shard_of e.1 = i) m.

Definition UpdatePeer (id : string) (consumed borrowed : gmap string Z)
  : go S unit :=
  zoom_modify gl (add_peer id) ;;;
  do! now <- ask QNow;
  do! alpha <- zoom_reads gl g_alpha;
  do! order <- ask QOrder;
  let updates :=
    filter (λ i, ¬ (in_shard i consumed = ∅ ∧ in_shard i borrowed = ∅))
           (seq 0 gossipShardCount) in
  for_each (λ i,
    do! order <- ask QOrder;
    zoom_modify (lens_compose gl shards_lens)
      (alter (updateShardPeerLocked id alpha now
                (order _ (map_to_list (in_shard i consumed)))
                (order _ (map_to_list (in_shard i borrowed)))) i))
    (order _ updates).

Definition RemovePeer (id : string) : go S unit :=
  zoom_modify gl (del_peer id) ;;;
  each_shard (lens_compose gl shards_lens) (λ _, remove_peer_shard id)
    (seq 0 gossipShardCount).

Definition g_EvictKeys (keys : list string) : go S unit :=
  each_shard (lens_compose gl shards_lens)
    (λ i sh, foldl evict_key_shard sh (default [] (group_keys keys !! i)))
    (seq 0 gossipShardCount).

Definition PeerIDs : go S (list string) :=
  do! order <- ask QOrder;
  zoom_reads gl (λ g, order _ (elements (g_peers g))).

(** The whole of [TopK] runs under the read lock of one shard. *)
Definition g_TopK (k : Z) (key : string) : go S (list PeerEntry) :=
  do! now <- ask QNow;
  do! order1 <- ask QOrder;
  do! order2 <- ask QOrder;
  do! r <- zoom_reads gl (λ g,
    match g_shards g !! shard_of key with
    | Some sh => TopK key now sh k order1 order2
    | None => Some []
    end);
  match r with
  | Some es => Ret es
  | None => Panic "slice bounds out of range"
  end.
End gossiper.

(** ** The ranking *)

Lemma insert_desc_find {A} (f : A → Z) x l :
  insert_desc f x l =
    match list_find (λ t, f t < f x) l with
    | Some (i, _) => take i l ++ x :: drop i l
    | None => l ++ [x]
    end.
Proof.
  induction l as [|y l IH]; cbn; [done|].
  destruct (Z.ltb_spec (f y) (f x)).
  - by rewrite decide_True.
  - rewrite decide_False by lia. rewrite IH.
    by destruct (list_find _ l) as [[i z]|].
Qed.

(** The insertion with its guards is insertion followed by the cut. *)
Lemma insert_top_desc k top entry :
  (length top <= k)%nat →
  insert_top k top entry = take k (insert_desc Surplus entry top).
Proof.
  intros Hk. unfold insert_top. rewrite insert_desc_find.
  assert (Hcut : ∀ l : list PeerEntry,
    (if (k <? length l)%nat then take k l else l) = take k l).
  { intros l. destruct (Nat.ltb_spec k (length l)); [done|].
    by rewrite take_ge. }
  destruct (list_find _ top) as [[i z]|]; [apply Hcut|].
  destruct (Nat.ltb_spec (length top) k); [apply Hcut|].
  rewrite Hcut, take_app_le by lia. done.
Qed.

Section topk_facts.
Context `{FloatConv} (key : string) (now : Z) (sh : gossipShard).
Context (order1 order2 : ∀ A : Type, list A → list A).
Context (Ho1 : ∀ A (l : list A), order1 A l ≡ₚ l).
Context (Ho2 : ∀ A (l : list A), order2 A l ≡ₚ l).

Let cands : list PeerEntry :=
  omap (candidate key now sh) (map_to_list (peerBorrowed sh)).

Lemma insert_candidates k peers :
  foldl (insert_candidate key now sh k) [] peers
    = take k (sort_desc Surplus (omap (candidate key now sh) peers)).
Proof.
  rewrite <- bounded_insertion_sort.
  assert (Hlen : (length (@nil PeerEntry) <= k)%nat) by (cbn; lia).
  revert Hlen. generalize (@nil PeerEntry).
  induction peers as [|e peers IH]; intros top Hlen; [done|].
  cbn [foldl omap list_omap]. unfold insert_candidate at 2.
  destruct (candidate key now sh e) as [entry|]; [|by apply IH].
  cbn [foldl]. rewrite insert_top_desc by done. apply IH.
  rewrite length_take. lia.
Qed.

(** Both branches of [TopK] are the same computation. *)
Lemma TopK_sort k :
  0 < k →
  ∃ l, l ≡ₚ cands ∧
    TopK key now sh k order1 order2
      = Some (take (Z.to_nat k) (sort_desc Surplus l)).
Proof.
  intros Hk. unfold TopK. rewrite (proj2 (Z.ltb_lt 0 k)) by done.
  rewrite andb_true_r. destruct (Z.leb_spec k 15).
  - exists (omap (candidate key now sh) (order1 _ (map_to_list (peerBorrowed sh)))).
    split; [by rewrite Ho1|]. by rewrite insert_candidates.
  - set (l := order2 _ (omap (candidate key now sh)
                (order1 _ (map_to_list (peerBorrowed sh))))).
    exists l. split; [unfold l; by rewrite Ho2, Ho1|].
    cbv zeta. fold l. rewrite sort_desc_length.
    destruct (Z.ltb_spec k (Z.of_nat (length l))) as [Hlt|Hge].
    + by rewrite (proj2 (Z.ltb_ge k 0)) by lia.
    + rewrite take_ge; [done|]. rewrite sort_desc_length. lia.
Qed.

Lemma elem_of_cands e :
  e ∈ cands ↔ ∃ bm, peerBorrowed sh !! pe_ID e = Some bm ∧
                   candidate key now sh (pe_ID e, bm) = Some e.
Proof.
  unfold cands. rewrite list_elem_of_omap. split.
  - intros ([id bm] & Hin%elem_of_map_to_list & Hc).
    assert (pe_ID e = id) as ->; [|by eexists].
    unfold candidate in Hc. by repeat case_match; simplify_eq/=.
  - intros (bm & Hbm & Hc). exists (pe_ID e, bm).
    by rewrite elem_of_map_to_list.
Qed.

(** Whatever is ranked is a candidate. *)
Lemma TopK_sound k :
  0 < k →
  ∃ es, TopK key now sh k order1 order2 = Some es ∧
    ∀ e, e ∈ es → ∃ bm, peerBorrowed sh !! pe_ID e = Some bm ∧
                        candidate key now sh (pe_ID e, bm) = Some e.
Proof.
  intros Hk. destruct (TopK_sort k Hk) as (l & Hl & ->).
  exists (take (Z.to_nat k) (sort_desc Surplus l)). split; [done|].
  intros e He. apply elem_of_cands. rewrite <- Hl, <- (sort_desc_perm Surplus l).
  eapply elem_of_subseteq; [|exact He]. apply subseteq_take.
Qed.

(** No peer is ranked twice, and a surplus is a [uint64]. *)
Lemma candidate_id e p : candidate key now sh e = Some p → pe_ID p = e.1.
Proof. destruct e as [id bm]. unfold candidate. intros Hc. by repeat case_match; simplify_eq/=. Qed.

Lemma candidates_NoDup l :
  NoDup l.*1 → NoDup (pe_ID <$> omap (candidate key now sh) l).
Proof.
  induction l as [|e l IH]; intros Hl; [constructor|]. cbn in Hl.
  apply NoDup_cons in Hl as [He Hl]. cbn [omap list_omap].
  destruct (candidate key now sh e) as [p|] eqn:Hc; [|by apply IH].
  cbn. apply NoDup_cons. split; [|by apply IH].
  rewrite (candidate_id e p Hc). intros (q & Hq & Hin)%list_elem_of_fmap. apply He.
  apply list_elem_of_omap in Hin as (e' & Hin & Hc').
  rewrite Hq, (candidate_id e' q Hc'). by apply list_elem_of_fmap_2.
Qed.

Lemma TopK_facts k es :
  0 < k → TopK key now sh k order1 order2 = Some es →
  NoDup (pe_ID <$> es) ∧ ∀ p, p ∈ es → is_u64 (Surplus p).
Proof.
  intros Hk. destruct (TopK_sort k Hk) as (l & Hl & ->). intros [= <-].
  set (srt := sort_desc Surplus l).
  assert (Hsrt : srt ≡ₚ cands) by (unfold srt; by rewrite sort_desc_perm).
  split.
  - assert (Hnd : NoDup (pe_ID <$> srt)).
    { rewrite Hsrt. apply candidates_NoDup, NoDup_fst_map_to_list. }
    rewrite <- (take_drop (Z.to_nat k) srt), fmap_app in Hnd. by apply NoDup_app in Hnd as [? _].
  - intros p Hp. assert (Hin : p ∈ cands).
    { rewrite <- Hsrt. eapply elem_of_subseteq; [|exact Hp]. apply subseteq_take. }
    apply elem_of_cands in Hin as (bm & _ & Hc). unfold candidate in Hc.
    repeat case_match; simplify_eq/=. rewrite <- Hc. cbn [Surplus]. auto with krate.
Qed.

(** C21: the ranking.  For a positive [k], [TopK] returns at most [k]
    peers, by decreasing predicted surplus; each is a peer with a live
    surplus for the key; and a candidate that is left out is no better than
    any peer returned.  It holds on both code paths (the bounded insertion
    used up to 15 and the full sort above), for every map iteration order
    and every way [sort.Slice] may order equals. *)
Theorem TopK_ranking k :
  0 < k →
  ∃ es, TopK key now sh k order1 order2 = Some es ∧
    Z.of_nat (length es) <= k ∧
    StronglySorted (λ x y, Surplus y <= Surplus x) es ∧
    (∀ e, e ∈ es → ∃ bm, peerBorrowed sh !! pe_ID e = Some bm ∧
                        candidate key now sh (pe_ID e, bm) = Some e) ∧
    (∀ id bm e, peerBorrowed sh !! id = Some bm →
       candidate key now sh (id, bm) = Some e → e ∉ es →
       Z.of_nat (length es) = k ∧ ∀ e', e' ∈ es → Surplus e <= Surplus e').
Proof.
  intros Hk. destruct (TopK_sort k Hk) as (l & Hl & ->).
  set (srt := sort_desc Surplus l).
  assert (Hsrt : srt ≡ₚ cands) by (unfold srt; by rewrite sort_desc_perm).
  assert (Hsorted : StronglySorted (desc Surplus) srt) by apply sort_desc_sorted.
  exists (take (Z.to_nat k) srt). split; [done|].
  split; [rewrite length_take; lia|]. split; [|split].
  - rewrite <- (take_drop (Z.to_nat k) srt) in Hsorted.
    by eapply StronglySorted_app_1_l.
  - intros e He. apply elem_of_cands. rewrite <- Hsrt.
    eapply elem_of_subseteq; [|exact He]. apply subseteq_take.
  - intros id bm e Hbm Hc Hout.
    assert (Hin : e ∈ srt).
    { rewrite Hsrt. unfold cands. apply list_elem_of_omap.
      exists (id, bm). by rewrite elem_of_map_to_list. }
    rewrite <- (take_drop (Z.to_nat k) srt) in Hin.
    apply elem_of_app in Hin as [?|Hdrop]; [done|]. split.
    + rewrite length_take.
      assert (length (drop (Z.to_nat k) srt) ≠ 0%nat).
      { destruct (drop _ srt); [by apply not_elem_of_nil in Hdrop|done]. }
      rewrite length_drop in *. lia.
    + intros e' He'. by eapply sorted_take_drop.
Qed.
End topk_facts.

Definition gossip_example : gossipShard :=
  foldl (λ sh id, updateShardPeerLocked id (f64_const 1 2) 0
           [("k", 10)] [("k", if String.eqb id "a" then 30 else 90)] sh)
    empty_gshard ["a"; "b"; "c"].

Lemma TopK_ranking_witness :
  ∃ es, TopK "k" Second gossip_example 2 (λ _ l, l) (λ _ l, l) = Some es ∧
    Z.of_nat (length es) <= 2.
Proof.
  destruct (TopK_ranking "k" Second gossip_example (λ _ l, l) (λ _ l, l)
    ltac:(done) ltac:(done) 2 ltac:(lia)) as (es & Hes & Hlen & _).
  exists es. exact (conj Hes Hlen).
Defined.

Example TopK_example :
  option_map (map Surplus)
    (TopK "k" Second gossip_example 2 (λ _ l, rev l) (λ _ l, l))
  = Some [80; 80].
Proof. vm_compute. reflexivity. Qed.

(** ** The entry computed for a peer *)

Lemma predict_no_velocity n dt : predict n f64_zero dt = f64_of_Z n.
Proof.
  unfold predict. cbv zeta.
  assert (H : ∀ x, f64_ltb f64_zero (f64_mul f64_zero x) = false)
    by (by intros []).
  by rewrite H.
Qed.

(** Without a recorded rate, the predicted surplus is the exact difference
    between what the peer reported borrowed and consumed. *)
Lemma candidate_exact `{FloatConv} key now sh id bm b c :
  bm !! key = Some b → nget id key (peerConsumed sh) = Some c →
  nget id key (gs_velocityEMA sh) = None → 0 <= c < b → b < 2 ^ 53 →
  candidate key now sh (id, bm) =
    Some (mkEntry id (b - c) c (default time_zero (nget id key (peerUpdated sh)))).
Proof.
  intros Hb Hc Hv Hcb Hlt. unfold candidate. rewrite Hb, Hc, Hv. cbn [from_option].
  change (@Datatypes.id Z) with (λ x : Z, x). cbv beta.
  destruct (Z.eqb_spec b 0); [lia|]. unfold raw_surplus.
  rewrite (proj2 (Z.ltb_lt c b)) by lia.
  destruct (Z.eqb_spec (b - c) 0); [lia|].
  rewrite predict_no_velocity.
  assert (Hpos : f64_ltb f64_zero (f64_of_Z (b - c)) = true).
  { destruct (b - c) as [|p|p] eqn:E; [lia| |lia].
    destruct (f64_of_Z_exact p) as (m & e & -> & _); [lia|]. done. }
  rewrite Hpos, f64_roundtrip by lia. done.
Qed.

(** Nothing borrowed, or everything consumed: not a candidate. *)
Lemma candidate_none `{FloatConv} key now sh id bm :
  default 0 (bm !! key) <= default 0 (nget id key (peerConsumed sh)) →
  0 <= default 0 (bm !! key) →
  candidate key now sh (id, bm) = None.
Proof.
  intros Hle H0. unfold candidate.
  destruct (_ =? 0); [done|]. cbv zeta. unfold raw_surplus.
  rewrite (proj2 (Z.ltb_ge _ _)) by done. done.
Qed.

(** ** Forgetting *)

Lemma elem_of_map_some {A B} (f : A → option B) x y :
  f x = Some y → is_Some (f x).
Proof. by intros ->. Qed.

(** A shard with no trace of a peer, and with no trace of a key. *)
Definition forgot_peer (id : string) (sh : gossipShard) : Prop :=
  peerConsumed sh !! id = None ∧ peerBorrowed sh !! id = None ∧
  peerUpdated sh !! id = None ∧ gs_lastConsumed sh !! id = None ∧
  gs_velocityEMA sh !! id = None ∧ gs_lastUpdated sh !! id = None.

Definition forgot_key (k : string) (sh : gossipShard) : Prop :=
  ∀ id, nget id k (peerConsumed sh) = None ∧
    nget id k (peerBorrowed sh) = None ∧ nget id k (peerUpdated sh) = None ∧
    nget id k (gs_lastConsumed sh) = None ∧
    nget id k (gs_velocityEMA sh) = None ∧ nget id k (gs_lastUpdated sh) = None.

Lemma nget_ndel_all {V} id k k' (m : nested V) :
  nget id k (ndel_all k' m) = if decide (k = k') then None else nget id k m.
Proof.
  unfold nget, ndel_all. rewrite lookup_fmap.
  destruct (m !! id) as [sub|]; cbn; [|by case_decide].
  case_decide as Hk; [subst; apply lookup_delete_eq|].
  by rewrite lookup_delete_ne.
Qed.

Lemma evict_key_shard_forgets k sh : forgot_key k (evict_key_shard sh k).
Proof.
  intros id. cbn. rewrite !nget_ndel_all. by rewrite !decide_True.
Qed.

Lemma evict_key_shard_keeps k k' sh :
  forgot_key k sh → forgot_key k (evict_key_shard sh k').
Proof.
  intros Hk id. cbn. rewrite !nget_ndel_all.
  destruct (decide (k = k')); [done|]. apply Hk.
Qed.

Lemma evict_keys_shard_forgets ks k sh :
  k ∈ ks → forgot_key k (foldl evict_key_shard sh ks).
Proof.
  assert (Hkeep : ∀ ks sh, forgot_key k sh →
    forgot_key k (foldl evict_key_shard sh ks)).
  { clear. intros ks. induction ks as [|k' ks IH]; intros sh Hk; cbn; [done|].
    apply IH. by apply evict_key_shard_keeps. }
  revert sh. induction ks as [|k' ks IH]; intros sh Hin;
    [by apply not_elem_of_nil in Hin|].
  cbn. apply elem_of_cons in Hin as [->|Hin]; [|by apply IH].
  apply Hkeep, evict_key_shard_forgets.
Qed.

Section forgetting.
Context {S : Type} (gl : lens S Gossiper).

Definition gossiper_wf (g : Gossiper) : Prop :=
  length (g_shards g) = gossipShardCount.

Lemma exec_RemovePeer env i s id :
  gossiper_wf (lget gl s) →
  ∃ s', exec env i (RemovePeer gl id) s = Done tt s' [] i ∧
    ∀ j, g_shards (lget gl s') !! j
           = remove_peer_shard id <$> g_shards (lget gl s) !! j.
Proof.
  intros Hwf. unfold RemovePeer. rewrite exec_bind. cbn [exec zoom_modify modify atomically].
  set (s1 := lput gl (del_peer id (lget gl s)) s).
  destruct (exec_each_shard (lens_compose gl shards_lens) env
    (λ _, remove_peer_shard id) (seq 0 gossipShardCount) i s1 (NoDup_seq _ _))
    as (s' & -> & Hs').
  exists s'. split; [done|]. intros j. specialize (Hs' j).
  cbn [lens_compose lget shards_lens] in Hs'.
  subst s1. rewrite lget_put in Hs'. cbn [g_shards del_peer] in Hs'.
  rewrite Hs'.
  destruct (decide (j ∈ seq 0 gossipShardCount)) as [Hj|Hj]; [done|].
  rewrite (lookup_ge_None_2 (g_shards (lget gl s)) j); [done|].
  rewrite Hwf. rewrite elem_of_seq in Hj. lia.
Qed.

(** Forgetting a peer.  After [RemovePeer(id)] no shard holds
    anything about [id], so [TopK] never ranks it, for any key, number or
    iteration order, until it reports again. *)
Theorem RemovePeer_forgets `{FloatConv} env i s id :
  gossiper_wf (lget gl s) →
  ∃ s', exec env i (RemovePeer gl id) s = Done tt s' [] i ∧
    ∀ j sh, g_shards (lget gl s') !! j = Some sh →
      forgot_peer id sh ∧
      ∀ key now k (order1 order2 : ∀ A : Type, list A → list A) es,
        (∀ A (l : list A), order1 A l ≡ₚ l) →
        (∀ A (l : list A), order2 A l ≡ₚ l) → 0 < k →
        TopK key now sh k order1 order2 = Some es →
        id ∉ pe_ID <$> es.
Proof.
  intros Hwf. destruct (exec_RemovePeer env i s id Hwf) as (s' & Hex & Hs').
  exists s'. split; [done|]. intros j sh Hsh.
  assert (Hf : forgot_peer id sh).
  { rewrite Hs' in Hsh. apply fmap_Some in Hsh as (sh0 & _ & ->).
    clear. unfold forgot_peer, remove_peer_shard. cbn.
    by rewrite !lookup_delete_eq. }
  split; [done|]. intros key now k order1 order2 es Ho1 Ho2 Hk Htop.
  destruct (TopK_sound key now sh order1 order2 Ho1 Ho2 k Hk)
    as (es' & Htop' & Hsound).
  rewrite Htop in Htop'. injection Htop' as <-. clear Hex Hs'.
  intros (e & -> & He)%list_elem_of_fmap.
  destruct (Hsound e He) as (bm & Hbm & _).
  destruct Hf as (_ & Hb & _). congruence.
Qed.

(** Evicting keys.  After [EvictKeys(keys)] the shard of each evicted
    key holds nothing about it, in any of the six maps, so [TopK] finds no
    peer for it. *)
Theorem g_EvictKeys_forgets `{FloatConv} env i s keys :
  gossiper_wf (lget gl s) →
  ∃ s', exec env i (g_EvictKeys gl keys) s = Done tt s' [] i ∧
    ∀ k sh, k ∈ keys → g_shards (lget gl s') !! shard_of k = Some sh →
      forgot_key k sh ∧
      ∀ now n (order1 order2 : ∀ A : Type, list A → list A),
        (∀ A (l : list A), order1 A l ≡ₚ l) →
        (∀ A (l : list A), order2 A l ≡ₚ l) → 0 < n →
        TopK k now sh n order1 order2 = Some [].
Proof.
  intros Hwf. unfold g_EvictKeys.
  destruct (exec_each_shard (lens_compose gl shards_lens) env
    (λ j sh, foldl evict_key_shard sh (default [] (group_keys keys !! j)))
    (seq 0 gossipShardCount) i s (NoDup_seq _ _)) as (s' & -> & Hs').
  exists s'. split; [done|]. intros k sh Hk Hsh.
  specialize (Hs' (shard_of k)). cbn [lens_compose lget shards_lens] in Hs'.
  rewrite decide_True in Hs'.
  2: { apply elem_of_seq. pose proof (shard_of_lt k).
       unfold gossipShardCount. lia. }
  rewrite Hsh in Hs'. rewrite group_keys_lookup in Hs' by auto with krate.
  symmetry in Hs'. apply fmap_Some in Hs' as (sh0 & _ & Hsh0).
  change (sh = foldl evict_key_shard sh0
            (filter (λ k0, shard_of k0 = shard_of k) keys)) in Hsh0.
  clear Hsh. subst sh.
  assert (Hf : forgot_key k (foldl evict_key_shard sh0
                 (filter (λ k0, shard_of k0 = shard_of k) keys))).
  { apply evict_keys_shard_forgets. by apply list_elem_of_filter. }
  split; [done|]. intros now n order1 order2 Ho1 Ho2 Hn.
  destruct (TopK_sound k now (foldl evict_key_shard sh0
    (filter (λ k0, shard_of k0 = shard_of k) keys)) order1 order2 Ho1 Ho2 n Hn)
    as ([|e es] & Htop & Hsound); [done|exfalso].
  destruct (Hsound e) as (bm & Hbm & Hc); [by left|].
  destruct (Hf (pe_ID e)) as (_ & Hb & _).
  unfold nget in Hb. rewrite Hbm in Hb. cbn in Hb.
  unfold candidate in Hc. rewrite Hb in Hc. done.
Qed.
End forgetting.

Definition gossiper_example : Gossiper :=
  mkGossiper (f64_const 1 2)
    (<[shard_of "k" := gossip_example]> (g_shards NewGossiper)) {["a"; "b"; "c"]}.

Lemma RemovePeer_forgets_witness :
  ∃ s', exec (clock_env 0) 0 (RemovePeer lens_id "a") gossiper_example
          = Done tt s' [] 0%nat.
Proof.
  destruct (RemovePeer_forgets lens_id (clock_env 0) 0 gossiper_example "a")
    as (s' & Hs' & _); [vm_compute; reflexivity|exists s'; exact Hs'].
Defined.

Lemma g_EvictKeys_forgets_witness :
  ∃ s', exec (clock_env 0) 0 (g_EvictKeys lens_id ["k"]) gossiper_example
          = Done tt s' [] 0%nat.
Proof.
  destruct (g_EvictKeys_forgets lens_id (clock_env 0) 0 gossiper_example ["k"])
    as (s' & Hs' & _); [vm_compute; reflexivity|exists s'; exact Hs'].
Defined.
