(* ===== verification/Router.v ===== *)
(** * Router: where to look for tokens next (routing/)

    [Router] is the Go interface as a record of operations, with the optional
    methods of [PeerAwareRouter] and [EvictionAwareRouter]; [RouterLaws] is
    what the limiter's loop relies on.  [DefaultRouter] and
    [EMAPredictiveRouter] are its two implementations. *)

From S2P Require Export Gossip.

Inductive Decision := DecisionRedis | DecisionPeer | DecisionDeny.

#[export] Instance Decision_eq_dec : EqDecision Decision.
Proof. solve_decision. Defined.

Record RouteContext := mkRC {
  rc_Key : string; rc_Need : Z; rc_RedisExhausted : bool; rc_HasPeers : bool;
}.

Record Router (S : Type) := mkRouter {
  Decide : RouteContext → go S (Decision * option error);
  r_RemovePeer : option (string → go S unit);      (* [PeerAwareRouter] *)
  r_EvictKeys : option (list string → go S unit);  (* [EvictionAwareRouter] *)
}.
Arguments mkRouter {S}.
Arguments Decide {S} r rc.
Arguments r_RemovePeer {S} r.
Arguments r_EvictKeys {S} r.

(** A decision the limiter can act on: never Redis when its pool is known to
    be empty, never the peers when they were tried. *)
Definition decision_ok (rc : RouteContext) (r : Decision * option error) : Prop :=
  r.2 = None →
  (r.1 = DecisionRedis → rc_RedisExhausted rc = false) ∧
  (r.1 = DecisionPeer → rc_HasPeers rc = true).

Class RouterLaws {S} (r : Router S) := {
  Decide_ok rc : post (Decide r rc) (decision_ok rc);
}.

(** ** DefaultRouter *)

Definition Default_Decide (rc : RouteContext) : Decision :=
  if rc_HasPeers rc then DecisionPeer
  else if rc_RedisExhausted rc then DecisionDeny
  else DecisionRedis.

Definition NewDefaultRouter {S} : Router S :=
  mkRouter (λ rc, Ret (Default_Decide rc, None)) None None.

(** ** EMAPredictiveRouter *)

Record routerShard := mkRShard {
  lastConsumed : nested Z;
  velocityEMA : nested float64;
  lastUpdated : nested Z;
}.

Record EMARouter := mkEMA { ema_alpha : float64; ema_shards : list routerShard }.

Definition routerShardCount : nat := 64.
Definition empty_rshard : routerShard := mkRShard ∅ ∅ ∅.

Definition NewEMAPredictiveRouter (alpha : float64) : EMARouter :=
  mkEMA (if f64_leb alpha f64_zero || f64_ltb f64_one alpha
         then f64_const 1 2 else alpha)
        (replicate routerShardCount empty_rshard).

(** [if _, ok := shard.lastConsumed[p.ID]; !ok { .. }]: the inner maps. *)
Definition make_peer (id : string) (sh : routerShard) : routerShard :=
  match lastConsumed sh !! id with
  | Some _ => sh
  | None => mkRShard (<[id:=∅]> (lastConsumed sh)) (<[id:=∅]> (velocityEMA sh))
              (<[id:=∅]> (lastUpdated sh))
  end.

(** The body of the loop of [updateModelsLocked]. *)
Definition update_model (alpha : float64) (key : string) (sh : routerShard)
    (p : PeerEntry) : routerShard :=
  let id := pe_ID p in
  let sh := make_peer id sh in
  let lastTime := nget id key (lastUpdated sh) in
  let lastCon := nget id key (lastConsumed sh) in
  let '(vel, upd) :=
    match lastTime, lastCon with
    | Some lt, Some lc =>
        if lt <? LastUpdated p then
          let dt := duration_Seconds (time_Sub (LastUpdated p) lt) in
          (if f64_ltb f64_zero dt then
             nput id key (ema_step alpha (pe_Consumed p) lc dt
                (default f64_zero (nget id key (velocityEMA sh))))
               (velocityEMA sh)
           else velocityEMA sh,
           nput id key (LastUpdated p) (lastUpdated sh))
        else (velocityEMA sh, lastUpdated sh)
    | None, _ => (velocityEMA sh, nput id key (LastUpdated p) (lastUpdated sh))
    | Some _, None => (velocityEMA sh, lastUpdated sh)
    end in
  mkRShard (nput id key (pe_Consumed p) (lastConsumed sh)) vel upd.

Definition updateModelsLocked (alpha : float64) (key : string)
    (peers : list PeerEntry) (sh : routerShard) : routerShard :=
  foldl (update_model alpha key) sh peers.

(** The test of the second loop of [Decide]: the predicted surplus of a peer
    covers the need. *)
Definition covers (key : string) (need now : Z) (sh : routerShard)
    (p : PeerEntry) : bool :=
  let velocity := default f64_zero (nget (pe_ID p) key (velocityEMA sh)) in
  let lastTime := default time_zero (nget (pe_ID p) key (lastUpdated sh)) in
  f64_leb (f64_of_Z need)
    (predict (Surplus p) velocity (duration_Seconds (time_Sub now lastTime))).

(** The locked part of [Decide]. *)
Definition decide_locked (alpha : float64) (rc : RouteContext)
    (topPeers : list PeerEntry) (now : Z) (sh : routerShard)
  : Decision * routerShard :=
  let sh := updateModelsLocked alpha (rc_Key rc) topPeers sh in
  (if existsb (covers (rc_Key rc) (rc_Need rc) now sh) topPeers
   then DecisionPeer
   else if rc_RedisExhausted rc then DecisionDeny else DecisionRedis, sh).

(** What is left when no peer can help. *)
Definition no_peer (rc : RouteContext) : Decision :=
  if rc_RedisExhausted rc then DecisionDeny else DecisionRedis.

Definition evict_key_rshard (sh : routerShard) (k : string) : routerShard :=
  mkRShard (ndel_all k (lastConsumed sh)) (ndel_all k (velocityEMA sh))
    (ndel_all k (lastUpdated sh)).

Definition remove_peer_rshard (id : string) (sh : routerShard) : routerShard :=
  mkRShard (delete id (lastConsumed sh)) (delete id (velocityEMA sh))
    (delete id (lastUpdated sh)).

Program Definition rshards_lens : lens EMARouter (list routerShard) :=
  {| lget := ema_shards; lput t m := mkEMA (ema_alpha m) t |}.
Next Obligation. done. Qed.

Section ema.
Context {S : Type} `{FloatConv} (el : lens S EMARouter).
(** [m.gossiper], nil before [Init]. *)
Context (gossiper : option (lens S Gossiper)).

Definition EMA_Decide (rc : RouteContext) : go S (Decision * option error) :=
  match gossiper, rc_HasPeers rc with
  | Some gl, true =>
      do! ids <- PeerIDs gl;
      let k := if 5 <? Z.of_nat (length ids) + 1 then 3 else 2 in
      do! topPeers <- g_TopK gl k (rc_Key rc);
      match topPeers with
      | [] => Ret (no_peer rc, None)
      | _ =>
          do! now <- ask QNow;
          do! d <- zoom el (λ m,
            match ema_shards m !! shard_of (rc_Key rc) with
            | Some sh =>
                let '(d, sh') := decide_locked (ema_alpha m) rc topPeers now sh in
                (d, mkEMA (ema_alpha m)
                      (<[shard_of (rc_Key rc) := sh']> (ema_shards m)))
            | None => (no_peer rc, m)
            end);
          Ret (d, None)
      end
  | _, _ => Ret (no_peer rc, None)
  end.

Definition EMA_EvictKeys (keys : list string) : go S unit :=
  each_shard (lens_compose el rshards_lens)
    (λ i sh, foldl evict_key_rshard sh (default [] (group_keys keys !! i)))
    (seq 0 routerShardCount).

Definition EMA_RemovePeer (id : string) : go S unit :=
  each_shard (lens_compose el rshards_lens) (λ _, remove_peer_rshard id)
    (seq 0 routerShardCount).

Definition EMA_router : Router S :=
  mkRouter EMA_Decide (Some EMA_RemovePeer) (Some EMA_EvictKeys).
End ema.

(** ** Both routers obey the contract *)

#[export] Instance Default_laws {S} : RouterLaws (NewDefaultRouter (S:=S)).
Proof.
  split. intros rc. apply post_ret. intros _. unfold Default_Decide. cbn.
  by destruct (rc_HasPeers rc), (rc_RedisExhausted rc).
Qed.

Lemma no_peer_ok rc : decision_ok rc (no_peer rc, None).
Proof.
  intros _. unfold no_peer. cbn. by destruct (rc_RedisExhausted rc).
Qed.

Lemma decide_locked_ok alpha rc top now sh d sh' :
  rc_HasPeers rc = true → decide_locked alpha rc top now sh = (d, sh') →
  decision_ok rc (d, None).
Proof.
  intros Hp [= <- _] _. cbn.
  destruct (existsb _ _); [done|]. by destruct (rc_RedisExhausted rc).
Qed.

Lemma g_TopK_post {S} `{FloatConv} (gl : lens S Gossiper) k key :
  post (g_TopK gl k key) (λ _, True).
Proof.
  unfold g_TopK. repeat (apply post_bind with (λ _, True);
    [by first [apply post_ask|apply post_atomically]|intros ? _]).
  by case_match.
Qed.

#[export] Instance EMA_RouterLaws {S} `{FloatConv} (el : lens S EMARouter) g :
  RouterLaws (EMA_router el g).
Proof.
  split. intros rc. cbn [Decide EMA_router]. unfold EMA_Decide.
  destruct g as [gl|]; [|apply no_peer_ok].
  destruct (rc_HasPeers rc) eqn:Hp; [|apply no_peer_ok].
  apply post_bind with (λ _, True).
  { unfold PeerIDs. apply post_bind with (λ _, True); [by apply post_ask|].
    intros order _. by apply post_atomically. }
  intros ids _. apply post_bind with (λ _, True); [apply g_TopK_post|].
  intros [|p top] _; [apply no_peer_ok|].
  apply post_bind with (λ _, True); [by apply post_ask|].
  intros now _. apply post_bind with (λ d, decision_ok rc (d, None)); [|done].
  apply post_atomically. intros s.
  destruct (ema_shards (lget el s) !! shard_of (rc_Key rc)) as [sh|];
    [|apply no_peer_ok].
  destruct (decide_locked _ rc _ now sh) as [d sh'] eqn:E.
  by eapply decide_locked_ok.
Qed.

(** The contract of the limiter's loop.  Neither router ever answers
    "Redis" for a request whose pool is known to be exhausted, nor "peers"
    for one whose peers were already tried, whatever the gossip tables hold,
    however maps iterate and whatever other goroutines do meanwhile. *)
Theorem routers_contract {S} `{FloatConv} (el : lens S EMARouter)
    (gossiper : option (lens S Gossiper)) (rc : RouteContext) :
  post (Decide (EMA_router el gossiper) rc) (decision_ok rc) ∧
  post (Decide (NewDefaultRouter (S:=S)) rc) (decision_ok rc).
Proof. split; apply Decide_ok. Qed.

(** The diagram of the README rejects a request as soon as the local bypass
    flag is set; the default router still tries the peers. *)
Lemma bypass_still_tries_peers key need :
  Default_Decide (mkRC key need true true) = DecisionPeer.
Proof. done. Qed.

(** ** What the predictive router does

    The models and the decision, described apart from the code: [model] is what
    a shard knows of one peer for one key, [reported] how a report of the peer
    changes it, [expected] the surplus left after the consumption the model
    predicts. *)

Record model := mkModel {
  m_last : option Z; m_count : option Z; m_rate : option float64;
}.

Definition model_of (id key : string) (sh : routerShard) : model :=
  mkModel (nget id key (lastUpdated sh)) (nget id key (lastConsumed sh))
    (nget id key (velocityEMA sh)).

Inductive reported (alpha : float64) (p : PeerEntry) : model → model → Prop :=
| R_first :
    reported alpha p (mkModel None None None)
      (mkModel (Some (LastUpdated p)) (Some (pe_Consumed p)) None)
| R_stale t c v :
    LastUpdated p <= t →
    reported alpha p (mkModel (Some t) (Some c) v) (mkModel (Some t) (Some (pe_Consumed p)) v)
| R_instant t c v :
    t < LastUpdated p →
    f64_ltb f64_zero (duration_Seconds (time_Sub (LastUpdated p) t)) = false →
    reported alpha p (mkModel (Some t) (Some c) v)
      (mkModel (Some (LastUpdated p)) (Some (pe_Consumed p)) v)
| R_rate t c v dt used :
    t < LastUpdated p →
    dt = duration_Seconds (time_Sub (LastUpdated p) t) → f64_ltb f64_zero dt = true →
    (* a counter that went back was restarted from zero *)
    (c <= pe_Consumed p → used = pe_Consumed p - c) →
    (pe_Consumed p < c → used = pe_Consumed p) →
    reported alpha p (mkModel (Some t) (Some c) v)
      (mkModel (Some (LastUpdated p)) (Some (pe_Consumed p))
         (Some (f64_add (f64_mul alpha (f64_div (f64_of_Z used) dt))
                  (f64_mul (f64_sub f64_one alpha) (default f64_zero v))))).

(** [decay] is the consumption expected in [dt] seconds at [rate]. *)
Inductive expected (surplus : Z) (rate dt : float64) : float64 → Prop :=
| X_kept decay :
    decay = f64_mul rate (if f64_ltb dt f64_zero then f64_zero else dt) →
    f64_ltb f64_zero decay = false →
    expected surplus rate dt (f64_of_Z surplus)
| X_less decay :
    decay = f64_mul rate (if f64_ltb dt f64_zero then f64_zero else dt) →
    f64_ltb f64_zero decay = true → f64_ltb decay (f64_of_Z surplus) = true →
    expected surplus rate dt (f64_sub (f64_of_Z surplus) decay)
| X_none decay :
    decay = f64_mul rate (if f64_ltb dt f64_zero then f64_zero else dt) →
    f64_ltb f64_zero decay = true → f64_ltb decay (f64_of_Z surplus) = false →
    expected surplus rate dt f64_zero.

(** A peer whose expected surplus at [now] covers the need. *)
Definition can_lend (key : string) (need now : Z) (sh : routerShard) (p : PeerEntry) : Prop :=
  ∃ x, expected (Surplus p) (default f64_zero (m_rate (model_of (pe_ID p) key sh)))
         (duration_Seconds
            (time_Sub now (default time_zero (m_last (model_of (pe_ID p) key sh))))) x ∧
       f64_leb (f64_of_Z need) x = true.

(** The three tables of a shard agree on what was reported. *)
Definition rshard_ok (sh : routerShard) : Prop :=
  (∀ id, lastConsumed sh !! id = None →
     velocityEMA sh !! id = None ∧ lastUpdated sh !! id = None) ∧
  ∀ id key, (nget id key (lastConsumed sh) = None ↔ nget id key (lastUpdated sh) = None) ∧
    (nget id key (lastUpdated sh) = None → nget id key (velocityEMA sh) = None).

Lemma expected_predict surplus rate dt x :
  expected surplus rate dt x ↔ x = predict surplus rate dt.
Proof.
  unfold predict. cbv zeta. split.
  - destruct 1 as [d -> H|d -> H H'|d -> H H']; by rewrite H, ?H'.
  - intros ->. destruct (f64_ltb f64_zero _) eqn:H1; [destruct (f64_ltb _ (f64_of_Z _)) eqn:H2|];
      by econstructor.
Qed.

Lemma covers_can_lend key need now sh p :
  covers key need now sh p = true ↔ can_lend key need now sh p.
Proof.
  unfold can_lend. split.
  - intros Hc. eexists. split; [by apply expected_predict|exact Hc].
  - intros (x & ->%expected_predict & Hx). exact Hx.
Qed.

Lemma nget_nput {V} id k (v : V) m id' k' :
  nget id' k' (nput id k v m) =
    if decide (id' = id ∧ k' = k) then Some v else nget id' k' m.
Proof.
  unfold nget, nput. destruct (decide (id' = id)) as [->|Hid].
  - rewrite lookup_insert_eq. cbn. destruct (decide (k' = k)) as [->|Hk].
    + rewrite lookup_insert_eq, decide_True by done. done.
    + rewrite lookup_insert_ne, decide_False by naive_solver.
      destruct (m !! id); [done|]. cbn. apply lookup_empty.
  - by rewrite lookup_insert_ne, decide_False by naive_solver.
Qed.

Lemma nget_make {V} id (m : nested V) id' k :
  m !! id = None → nget id' k (<[id:=∅]> m) = nget id' k m.
Proof.
  intros Hm. unfold nget. destruct (decide (id' = id)) as [->|Hid].
  - rewrite lookup_insert_eq, Hm. cbn. apply lookup_empty.
  - by rewrite lookup_insert_ne.
Qed.

Lemma nput_None {V} id k (v : V) m id' :
  nput id k v m !! id' = None ↔ id' ≠ id ∧ m !! id' = None.
Proof.
  unfold nput. rewrite lookup_insert_None. naive_solver.
Qed.

(** Making the inner maps of a peer changes no model. *)
Lemma make_peer_models id sh :
  rshard_ok sh →
  rshard_ok (make_peer id sh) ∧ lastConsumed (make_peer id sh) !! id ≠ None ∧
  ∀ id' k, model_of id' k (make_peer id sh) = model_of id' k sh.
Proof.
  intros [Hnone Hget]. unfold make_peer. destruct (lastConsumed sh !! id) eqn:Hc.
  { split; [by split|]. split; [by rewrite Hc|done]. }
  destruct (Hnone id Hc) as [Hv Hu].
  split; [split; cbn|split; cbn].
  - intros id'. rewrite !lookup_insert_None. naive_solver.
  - intros id' k. rewrite !nget_make by done. apply Hget.
  - by rewrite lookup_insert_eq.
  - intros id' k. unfold model_of. cbn. by rewrite !nget_make.
Qed.

(** One report. *)
Lemma update_model_reported alpha key sh p :
  rshard_ok sh →
  let sh' := update_model alpha key sh p in
  rshard_ok sh' ∧
  reported alpha p (model_of (pe_ID p) key sh) (model_of (pe_ID p) key sh') ∧
  ∀ id k, ¬ (id = pe_ID p ∧ k = key) → model_of id k sh' = model_of id k sh.
Proof.
  intros Hok. cbv zeta. unfold update_model. cbv zeta.
  destruct (make_peer_models (pe_ID p) sh Hok) as (Hok1 & Hid & Hm).
  rewrite <- (Hm (pe_ID p) key). setoid_rewrite <- Hm. clear Hm Hok.
  generalize dependent (make_peer (pe_ID p) sh).
  clear sh. intros sh [Hnone Hget] Hid. destruct (Hget (pe_ID p) key) as [Hcu Huv].
  unfold model_of.
  destruct (nget (pe_ID p) key (lastUpdated sh)) as [t|] eqn:Hu;
    destruct (nget (pe_ID p) key (lastConsumed sh)) as [c|] eqn:Hc;
    [destruct (Z.ltb_spec t (LastUpdated p)) as [Ht|Ht];
       [destruct (f64_ltb f64_zero _) eqn:Hdt|]|naive_solver..|rewrite Huv by done];
    cbn [lastConsumed lastUpdated velocityEMA];
    (split; [split; cbn [lastConsumed lastUpdated velocityEMA];
       [intros id; rewrite ?nput_None; naive_solver|
        intros id k; rewrite ?nget_nput; case_decide as E;
          [destruct E; subst; rewrite ?Hu, ?Huv by done; naive_solver|apply Hget]]|]);
    (split; [rewrite !nget_nput, ?decide_True by done|
       intros id k Hne; by rewrite ?nget_nput, ?decide_False by done]).
  - unfold ema_step.
    destruct (Z.leb_spec c (pe_Consumed p)); eapply R_rate; [done|done|done|lia|lia|done..|lia|lia].
  - by apply R_instant.
  - rewrite Hu. by apply R_stale.
  - rewrite Huv by done. apply R_first.
Qed.

(** The reports of one ranking: each peer's model takes its own, once. *)
Lemma updateModels_reported alpha key top sh :
  rshard_ok sh → NoDup (pe_ID <$> top) →
  let sh' := updateModelsLocked alpha key top sh in
  rshard_ok sh' ∧
  (∀ p, p ∈ top →
     reported alpha p (model_of (pe_ID p) key sh) (model_of (pe_ID p) key sh')) ∧
  ∀ id k, k ≠ key ∨ id ∉ pe_ID <$> top → model_of id k sh' = model_of id k sh.
Proof.
  revert sh. induction top as [|p top IH]; intros sh Hok Hnd.
  { split; [done|]. split; [by intros p ?%elem_of_nil|done]. }
  cbn in Hnd. apply NoDup_cons in Hnd as [Hp Hnd].
  destruct (update_model_reported alpha key sh p Hok) as (Hok1 & Hrep1 & Hsame1).
  destruct (IH (update_model alpha key sh p) Hok1 Hnd) as (Hok' & Hrep & Hsame).
  cbv zeta. split; [exact Hok'|].
  change (updateModelsLocked alpha key (p :: top) sh)
    with (updateModelsLocked alpha key top (update_model alpha key sh p)).
  split.
  - intros q [->|Hq]%elem_of_cons.
    + rewrite Hsame by by right. exact Hrep1.
    + rewrite <- (Hsame1 (pe_ID q) key); [by apply Hrep|]. intros [Heq _].
      apply Hp. rewrite <- Heq. by apply list_elem_of_fmap_2.
  - intros id k. cbn. rewrite not_elem_of_cons. intros Hne.
    rewrite Hsame, Hsame1; naive_solver.
Qed.

(** What else changes a shard keeps it so. *)
Lemma empty_rshard_ok : rshard_ok empty_rshard.
Proof. split; [done|]. intros id key. unfold nget. cbn. by rewrite lookup_empty. Qed.

Lemma evict_key_rshard_ok sh k : rshard_ok sh → rshard_ok (evict_key_rshard sh k).
Proof.
  intros [Hnone Hget]. split; cbn.
  - intros id. unfold ndel_all. rewrite !lookup_fmap, !fmap_None. apply Hnone.
  - intros id key. rewrite !nget_ndel_all. case_decide; [done|apply Hget].
Qed.

Lemma remove_peer_rshard_ok id sh : rshard_ok sh → rshard_ok (remove_peer_rshard id sh).
Proof.
  intros [Hnone Hget]. split; cbn.
  - intros id'. rewrite !lookup_delete_None. naive_solver.
  - intros id' key. unfold nget. destruct (decide (id' = id)) as [->|Hne].
    + by rewrite !lookup_delete_eq.
    + rewrite !lookup_delete_ne by done. apply Hget.
Qed.

(** ** The decision *)

Lemma decide_locked_spec alpha rc top now sh :
  rshard_ok sh → NoDup (pe_ID <$> top) →
  ∃ d sh', decide_locked alpha rc top now sh = (d, sh') ∧ rshard_ok sh' ∧
    (∀ p, p ∈ top → reported alpha p (model_of (pe_ID p) (rc_Key rc) sh)
                      (model_of (pe_ID p) (rc_Key rc) sh')) ∧
    (∀ id k, k ≠ rc_Key rc ∨ id ∉ pe_ID <$> top → model_of id k sh' = model_of id k sh) ∧
    (d = DecisionPeer ↔ ∃ p, p ∈ top ∧ can_lend (rc_Key rc) (rc_Need rc) now sh' p) ∧
    (d ≠ DecisionPeer → d = if rc_RedisExhausted rc then DecisionDeny else DecisionRedis).
Proof.
  intros Hok Hnd. unfold decide_locked. cbv zeta.
  destruct (updateModels_reported alpha (rc_Key rc) top sh Hok Hnd) as (Hok' & Hrep & Hsame).
  set (sh' := updateModelsLocked alpha (rc_Key rc) top sh) in *.
  do 2 eexists. split; [reflexivity|]. do 3 (split; [done|]).
  assert (Hex : existsb (covers (rc_Key rc) (rc_Need rc) now sh') top = true ↔
    ∃ p, p ∈ top ∧ can_lend (rc_Key rc) (rc_Need rc) now sh' p).
  { rewrite existsb_exists. setoid_rewrite <- list_elem_of_In.
    by setoid_rewrite covers_can_lend. }
  rewrite <- Hex. destruct (existsb _ _); [done|].
  by destruct (rc_RedisExhausted rc).
Qed.

(** A peer without a rate lends what it reported: the test is exact. *)
Lemma can_lend_exact key need now sh p :
  m_rate (model_of (pe_ID p) key sh) = None →
  0 <= need < 2 ^ 53 → 0 <= Surplus p < 2 ^ 53 →
  can_lend key need now sh p ↔ need <= Surplus p.
Proof.
  intros Hr Hn Hs. rewrite <- covers_can_lend. unfold covers.
  cbn [m_rate model_of] in Hr. rewrite Hr. cbn [from_option default].
  rewrite predict_no_velocity, f64_leb_of_Z by done. apply Z.leb_le.
Qed.

Section decision.
Context {S : Type} `{FloatConv} (el : lens S EMARouter) (gl : lens S Gossiper).

Lemma exec_PeerIDs (env : environment) i s :
  exec env i (PeerIDs gl) s
    = Done (env _ QOrder i _ (elements (g_peers (lget gl s)))) s [] (Datatypes.S i).
Proof. done. Qed.

Lemma exec_g_TopK (env : environment) i s k key gsh top :
  g_shards (lget gl s) !! shard_of key = Some gsh →
  TopK key (env _ QNow i) gsh k (env _ QOrder (1 + i)%nat) (env _ QOrder (2 + i)%nat)
    = Some top →
  exec env i (g_TopK gl k key) s = Done top s [] (3 + i)%nat.
Proof. intros Hg Htop. unfold g_TopK. cbn. rewrite Hg. cbn in Htop. by rewrite Htop. Qed.

(** The locked part of [Decide], from its clock reading on. *)
Definition decide_tail (rc : RouteContext) (top : list PeerEntry)
  : go S (Decision * option error) :=
  do! now <- ask QNow;
  do! d <- zoom el (λ m,
    match ema_shards m !! shard_of (rc_Key rc) with
    | Some sh =>
        let '(d, sh') := decide_locked (ema_alpha m) rc top now sh in
        (d, mkEMA (ema_alpha m) (<[shard_of (rc_Key rc) := sh']> (ema_shards m)))
    | None => (no_peer rc, m)
    end);
  Ret (d, None).

(** How many peers are ranked. *)
Definition ranked (g : Gossiper) : Z := if Z.of_nat (size (g_peers g)) <=? 4 then 2 else 3.

Lemma exec_EMA_Decide (env : environment) i s rc gsh :
  (∀ j, valid_answer QOrder (env _ QOrder j)) →
  rc_HasPeers rc = true →
  g_shards (lget gl s) !! shard_of (rc_Key rc) = Some gsh →
  ∃ top, TopK (rc_Key rc) (env _ QNow (1 + i)%nat) gsh (ranked (lget gl s))
           (env _ QOrder (2 + i)%nat) (env _ QOrder (3 + i)%nat) = Some top ∧
    NoDup (pe_ID <$> top) ∧ (∀ p, p ∈ top → is_u64 (Surplus p)) ∧
    exec env i (EMA_Decide el (Some gl) rc) s =
      exec env (4 + i)%nat (if decide (top = []) then Ret (no_peer rc, None)
                            else decide_tail rc top) s.
Proof.
  intros Hord Hp Hg. set (k := ranked (lget gl s)).
  assert (Hk : 0 < k) by (unfold k, ranked; by case_match).
  destruct (TopK_sort (rc_Key rc) (env _ QNow (1 + i)%nat) gsh (env _ QOrder (2 + i)%nat)
    (env _ QOrder (3 + i)%nat) ltac:(apply Hord) ltac:(apply Hord) k Hk) as (l & _ & Htop).
  destruct (TopK_facts (rc_Key rc) _ gsh _ _ ltac:(apply Hord) ltac:(apply Hord) k _ Hk Htop)
    as [Hnd Hu].
  eexists. split; [exact Htop|]. split; [exact Hnd|]. split; [exact Hu|].
  unfold EMA_Decide. rewrite Hp, exec_bind, exec_PeerIDs, push_forks_nil. cbv zeta.
  set (ids := env _ QOrder i _ _).
  assert (Hlen : (if 5 <? Z.of_nat (length ids) + 1 then 3 else 2) = k).
  { unfold ids. rewrite (Hord i). unfold k, ranked. change (length (elements (g_peers (lget gl s))))
      with (size (g_peers (lget gl s))).
    destruct (Z.ltb_spec 5 (Z.of_nat (size (g_peers (lget gl s))) + 1)),
      (Z.leb_spec (Z.of_nat (size (g_peers (lget gl s)))) 4); lia. }
  rewrite Hlen, exec_bind. change (Datatypes.S i) with (1 + i)%nat.
  rewrite (exec_g_TopK env _ s k _ gsh _ Hg Htop), push_forks_nil.
  by destruct (take _ _).
Qed.

(** C22: the predictive rule.  With no peers to try, or before [Init], the
    EMA router falls back to Redis, or denies when the pool is exhausted, and
    touches nothing.  Otherwise it ranks two peers, or three when it knows
    five or more, and takes in what each of them reported: the first report
    of a peer for the key is its baseline; a later one moves the peer's rate
    to [alpha] times what it consumed per second since, plus [1 - alpha]
    times the old rate, a counter that went back counting from zero; one that
    is not newer leaves the rate.  Models of other keys and of peers not
    ranked stay.  Then it answers "peers" exactly when some ranked peer's
    surplus, less its rate times the seconds since it reported, covers the
    need, which for a peer without a rate is the comparison of the two
    integers; and if none does it is Redis, or denial when the pool is
    exhausted. *)
Theorem EMA_decide_spec (env : environment) i s rc gsh sh :
  (∀ j, valid_answer QOrder (env _ QOrder j)) →
  let m := lget el s in let key := rc_Key rc in
  g_shards (lget gl s) !! shard_of key = Some gsh →
  ema_shards m !! shard_of key = Some sh → rshard_ok sh →
  let fallback := if rc_RedisExhausted rc then DecisionDeny else DecisionRedis in
  (∀ g, g = None ∨ rc_HasPeers rc = false →
     exec env i (EMA_Decide el g rc) s = Done (fallback, None) s [] i) ∧
  (rc_HasPeers rc = true →
   ∃ top d s' j sh',
     TopK key (env _ QNow (1 + i)%nat) gsh (ranked (lget gl s))
       (env _ QOrder (2 + i)%nat) (env _ QOrder (3 + i)%nat) = Some top ∧
     exec env i (EMA_Decide el (Some gl) rc) s = Done (d, None) s' [] j ∧
     (top = [] → s' = s ∧ sh' = sh) ∧
     (top ≠ [] →
        s' = lput el (mkEMA (ema_alpha m) (<[shard_of key := sh']> (ema_shards m))) s) ∧
     rshard_ok sh' ∧
     (∀ p, p ∈ top →
        reported (ema_alpha m) p (model_of (pe_ID p) key sh) (model_of (pe_ID p) key sh')) ∧
     (∀ id k, k ≠ key ∨ id ∉ pe_ID <$> top → model_of id k sh' = model_of id k sh) ∧
     (d = DecisionPeer ↔
        ∃ p, p ∈ top ∧ can_lend key (rc_Need rc) (env _ QNow (4 + i)%nat) sh' p) ∧
     (∀ p, p ∈ top → m_rate (model_of (pe_ID p) key sh') = None →
        0 <= rc_Need rc < 2 ^ 53 → Surplus p < 2 ^ 53 →
        can_lend key (rc_Need rc) (env _ QNow (4 + i)%nat) sh' p ↔
          rc_Need rc <= Surplus p) ∧
     (d ≠ DecisionPeer → d = fallback)).
Proof.
  intros Hord m key Hg Hsh Hok fallback. split.
  { intros g Hno. unfold EMA_Decide. destruct g; [|done].
    by destruct Hno as [?| ->]. }
  intros Hp. destruct (exec_EMA_Decide env i s rc gsh Hord Hp Hg) as (top & Htop & Hnd & Hu & Hex).
  destruct (decide_locked_spec (ema_alpha m) rc top (env _ QNow (4 + i)%nat) sh Hok Hnd)
    as (d & sh' & Hd & Hok' & Hrep & Hsame & Hpeer & Hfall).
  destruct (decide (top = [])) as [->|Hne].
  - exists [], fallback, s, (4 + i)%nat, sh. split; [done|]. split; [exact Hex|].
    do 3 (split; [done|]). split; [by intros p ?%elem_of_nil|]. split; [done|].
    split; [|split; [by intros p ?%elem_of_nil|done]].
    split; [unfold fallback; by case_match|]. by intros (p & ?%elem_of_nil & _).
  - eexists top, d, _, _, sh'. split; [done|]. split.
    { rewrite Hex. unfold decide_tail. cbn [exec bind ask zoom atomically]. fold m key.
      rewrite Hsh. change (4 + i)%nat with (Datatypes.S (3 + i)) in Hd |- *.
      rewrite Hd. reflexivity. }
    do 6 (split; [done|]). split; [|done]. intros p Hin Hrate Hneed Hlt.
    apply can_lend_exact; [done|done|]. split; [apply (Hu p Hin)|done].
Qed.
End decision.

(** A router and the gossip tables it reads. *)
Program Definition demo_gossip : lens (Gossiper * EMARouter) Gossiper :=
  {| lget := fst; lput g s := (g, s.2) |}.
Next Obligation. done. Qed.
Program Definition demo_router : lens (Gossiper * EMARouter) EMARouter :=
  {| lget := snd; lput m s := (s.1, m) |}.
Next Obligation. done. Qed.

(** The first report of a peer gives it no rate. *)
Lemma first_report_rate alpha p m :
  reported alpha p (mkModel None None None) m → m_rate m = None.
Proof. by inversion 1. Qed.

(** Three peers have reported 20, 80 and 80 spare tokens; 50 are needed. *)
Lemma EMA_decide_spec_witness :
  ∃ s' j, exec (clock_env (2 * Second)) 0
    (EMA_Decide demo_router (Some demo_gossip) (mkRC "k" 50 true true))
    (gossiper_example, NewEMAPredictiveRouter (f64_const 1 2))
  = Done (DecisionPeer, None) s' [] j.
Proof.
  destruct (EMA_decide_spec demo_router demo_gossip (clock_env (2 * Second)) 0
    (gossiper_example, NewEMAPredictiveRouter (f64_const 1 2))
    (mkRC "k" 50 true true) gossip_example empty_rshard) as [_ H].
  - intros j A l. reflexivity.
  - vm_compute. reflexivity.
  - vm_compute. reflexivity.
  - apply empty_rshard_ok.
  - destruct (H eq_refl) as (top & d & s' & j & sh' & Htop & Hex & _ & _ & _ & Hrep & _ &
      Hpeer & Hexact & _).
    exists s', j. rewrite Hex. assert (d = DecisionPeer) as ->; [|reflexivity].
    vm_compute in Htop. injection Htop as <-. apply Hpeer.
    set (p := mkEntry "c" 80 10 0).
    assert (Hp : p ∈ [p; mkEntry "b" 80 10 0]) by apply list_elem_of_here.
    exists p. split; [exact Hp|]. apply (Hexact p Hp).
    + exact (first_report_rate _ p _ (Hrep p Hp)).
    + split; [discriminate|reflexivity].
    + reflexivity.
    + discriminate.
Defined.
