(* ===== verification/Options.v ===== *)
(** * Options: the configuration of an instance (options.go, types.go)

    [options] has the fields of the Go struct, in its order, less the logger;
    of the metrics registry and the clock only whether one is given matters
    here.  An [Option] is a function on it, as in the source. *)

From stdpp Require Import pretty.
From S2P Require Export Bucket Router.

(** ** types.go *)

Inductive PeerStrategy := Highest | Random.
Inductive ProbeMode := Parallel | Sequential.

Record Member := mkMemberT {
  mem_ID : string; mem_Addr : string; mem_Metadata : gmap string string;
}.
Record PeerInfo := mkPeerInfo {
  pi_ID : string; pi_Addr : string; pi_GRPCAddr : string;
}.

(** ** options.go *)

(** The [EvictionPolicy] interface value: nil, the policy of eviction.go, or
    another one. *)
Inductive eviction_choice :=
| NoPolicy
| IdlePolicy (p : IdleEvictionPolicy)
| OtherPolicy (p : EvictionPolicy).

Definition policy_of (c : eviction_choice) : option EvictionPolicy :=
  match c with
  | NoPolicy => None
  | IdlePolicy p => Some (idle_policy p)
  | OtherPolicy p => Some p
  end.

Record options (S : Type) := mkOptions {
  o_instanceID : string;
  o_window : Z;
  o_windowType : WindowType;
  o_limit : Z;
  o_minBorrow : Z;
  o_maxBorrow : Z;
  o_adaptiveBorrow : bool;
  o_emaAlpha : float64;
  o_leaseTTL : Z;
  o_peerListen : string;
  o_peerGRPCAddr : string;
  o_peerStrategy : PeerStrategy;
  o_probeK : Z;
  o_probeTimeout : Z;
  o_probeMode : ProbeMode;
  o_gossipInterval : Z;
  o_gossipAddr : string;
  o_cmsWidth : Z;
  o_cmsDepth : Z;
  o_cmsSeed : Z;
  o_reservedMinimum : float64;
  o_heartbeatInterval : Z;
  o_heartbeatTimeout : Z;
  o_preBorrowThreshold : float64;
  o_preBorrowEnabled : bool;
  o_metrics : bool;
  o_clock : bool;
  o_router : option (Router S);
  o_maxGossipKeys : Z;
  o_gzipCompression : bool;
  o_evictionInterval : Z;
  o_idleTimeout : Z;
  o_evictionPolicy : eviction_choice;
}.
Arguments mkOptions {S}.
Arguments o_instanceID {S} o.
Arguments o_window {S} o.
Arguments o_windowType {S} o.
Arguments o_limit {S} o.
Arguments o_minBorrow {S} o.
Arguments o_maxBorrow {S} o.
Arguments o_adaptiveBorrow {S} o.
Arguments o_emaAlpha {S} o.
Arguments o_leaseTTL {S} o.
Arguments o_peerListen {S} o.
Arguments o_peerGRPCAddr {S} o.
Arguments o_peerStrategy {S} o.
Arguments o_probeK {S} o.
Arguments o_probeTimeout {S} o.
Arguments o_probeMode {S} o.
Arguments o_gossipInterval {S} o.
Arguments o_gossipAddr {S} o.
Arguments o_cmsWidth {S} o.
Arguments o_cmsDepth {S} o.
Arguments o_cmsSeed {S} o.
Arguments o_reservedMinimum {S} o.
Arguments o_heartbeatInterval {S} o.
Arguments o_heartbeatTimeout {S} o.
Arguments o_preBorrowThreshold {S} o.
Arguments o_preBorrowEnabled {S} o.
Arguments o_metrics {S} o.
Arguments o_clock {S} o.
Arguments o_router {S} o.
Arguments o_maxGossipKeys {S} o.
Arguments o_gzipCompression {S} o.
Arguments o_evictionInterval {S} o.
Arguments o_idleTimeout {S} o.
Arguments o_evictionPolicy {S} o.

Definition defaultOptions {S} : options S :=
  mkOptions
    "" (60 * Second) Fixed 10000 100 1000 true (f64_const 3 10) (30 * Second)
    ":7100" "" Highest 3 (2 * Millisecond) Parallel (100 * Millisecond) ""
    256 4 42 (f64_const 1 10) Second (5 * Second) (f64_const 2 10) true false
    false (Some NewDefaultRouter) 3000 false (10 * Second) (60 * Second)
    (IdlePolicy (NewIdleEvictionPolicy (60 * Second))).

Definition Option (S : Type) : Type := options S → options S.

Section with_options.
Context {S : Type}.

Definition WithInstanceID (x : string) : Option S := λ o,
  mkOptions
    x (o_window o) (o_windowType o) (o_limit o) (o_minBorrow o)
    (o_maxBorrow o) (o_adaptiveBorrow o) (o_emaAlpha o) (o_leaseTTL o)
    (o_peerListen o) (o_peerGRPCAddr o) (o_peerStrategy o) (o_probeK o)
    (o_probeTimeout o) (o_probeMode o) (o_gossipInterval o)
    (o_gossipAddr o) (o_cmsWidth o) (o_cmsDepth o) (o_cmsSeed o)
    (o_reservedMinimum o) (o_heartbeatInterval o) (o_heartbeatTimeout o)
    (o_preBorrowThreshold o) (o_preBorrowEnabled o) (o_metrics o)
    (o_clock o) (o_router o) (o_maxGossipKeys o) (o_gzipCompression o)
    (o_evictionInterval o) (o_idleTimeout o) (o_evictionPolicy o).

Definition WithWindow (x : Z) : Option S := λ o,
  mkOptions
    (o_instanceID o) x (o_windowType o) (o_limit o) (o_minBorrow o)
    (o_maxBorrow o) (o_adaptiveBorrow o) (o_emaAlpha o) (o_leaseTTL o)
    (o_peerListen o) (o_peerGRPCAddr o) (o_peerStrategy o) (o_probeK o)
    (o_probeTimeout o) (o_probeMode o) (o_gossipInterval o)
    (o_gossipAddr o) (o_cmsWidth o) (o_cmsDepth o) (o_cmsSeed o)
    (o_reservedMinimum o) (o_heartbeatInterval o) (o_heartbeatTimeout o)
    (o_preBorrowThreshold o) (o_preBorrowEnabled o) (o_metrics o)
    (o_clock o) (o_router o) (o_maxGossipKeys o) (o_gzipCompression o)
    (o_evictionInterval o) (o_idleTimeout o) (o_evictionPolicy o).

Definition WithWindowType (x : WindowType) : Option S := λ o,
  mkOptions
    (o_instanceID o) (o_window o) x (o_limit o) (o_minBorrow o)
    (o_maxBorrow o) (o_adaptiveBorrow o) (o_emaAlpha o) (o_leaseTTL o)
    (o_peerListen o) (o_peerGRPCAddr o) (o_peerStrategy o) (o_probeK o)
    (o_probeTimeout o) (o_probeMode o) (o_gossipInterval o)
    (o_gossipAddr o) (o_cmsWidth o) (o_cmsDepth o) (o_cmsSeed o)
    (o_reservedMinimum o) (o_heartbeatInterval o) (o_heartbeatTimeout o)
    (o_preBorrowThreshold o) (o_preBorrowEnabled o) (o_metrics o)
    (o_clock o) (o_router o) (o_maxGossipKeys o) (o_gzipCompression o)
    (o_evictionInterval o) (o_idleTimeout o) (o_evictionPolicy o).

Definition WithLimit (x : Z) : Option S := λ o,
  mkOptions
    (o_instanceID o) (o_window o) (o_windowType o) x (o_minBorrow o)
    (o_maxBorrow o) (o_adaptiveBorrow o) (o_emaAlpha o) (o_leaseTTL o)
    (o_peerListen o) (o_peerGRPCAddr o) (o_peerStrategy o) (o_probeK o)
    (o_probeTimeout o) (o_probeMode o) (o_gossipInterval o)
    (o_gossipAddr o) (o_cmsWidth o) (o_cmsDepth o) (o_cmsSeed o)
    (o_reservedMinimum o) (o_heartbeatInterval o) (o_heartbeatTimeout o)
    (o_preBorrowThreshold o) (o_preBorrowEnabled o) (o_metrics o)
    (o_clock o) (o_router o) (o_maxGossipKeys o) (o_gzipCompression o)
    (o_evictionInterval o) (o_idleTimeout o) (o_evictionPolicy o).

Definition WithMinBorrow (x : Z) : Option S := λ o,
  mkOptions
    (o_instanceID o) (o_window o) (o_windowType o) (o_limit o) x
    (o_maxBorrow o) (o_adaptiveBorrow o) (o_emaAlpha o) (o_leaseTTL o)
    (o_peerListen o) (o_peerGRPCAddr o) (o_peerStrategy o) (o_probeK o)
    (o_probeTimeout o) (o_probeMode o) (o_gossipInterval o)
    (o_gossipAddr o) (o_cmsWidth o) (o_cmsDepth o) (o_cmsSeed o)
    (o_reservedMinimum o) (o_heartbeatInterval o) (o_heartbeatTimeout o)
    (o_preBorrowThreshold o) (o_preBorrowEnabled o) (o_metrics o)
    (o_clock o) (o_router o) (o_maxGossipKeys o) (o_gzipCompression o)
    (o_evictionInterval o) (o_idleTimeout o) (o_evictionPolicy o).

Definition WithMaxBorrow (x : Z) : Option S := λ o,
  mkOptions
    (o_instanceID o) (o_window o) (o_windowType o) (o_limit o)
    (o_minBorrow o) x (o_adaptiveBorrow o) (o_emaAlpha o) (o_leaseTTL o)
    (o_peerListen o) (o_peerGRPCAddr o) (o_peerStrategy o) (o_probeK o)
    (o_probeTimeout o) (o_probeMode o) (o_gossipInterval o)
    (o_gossipAddr o) (o_cmsWidth o) (o_cmsDepth o) (o_cmsSeed o)
    (o_reservedMinimum o) (o_heartbeatInterval o) (o_heartbeatTimeout o)
    (o_preBorrowThreshold o) (o_preBorrowEnabled o) (o_metrics o)
    (o_clock o) (o_router o) (o_maxGossipKeys o) (o_gzipCompression o)
    (o_evictionInterval o) (o_idleTimeout o) (o_evictionPolicy o).

Definition WithAdaptiveBorrow (x : bool) : Option S := λ o,
  mkOptions
    (o_instanceID o) (o_window o) (o_windowType o) (o_limit o)
    (o_minBorrow o) (o_maxBorrow o) x (o_emaAlpha o) (o_leaseTTL o)
    (o_peerListen o) (o_peerGRPCAddr o) (o_peerStrategy o) (o_probeK o)
    (o_probeTimeout o) (o_probeMode o) (o_gossipInterval o)
    (o_gossipAddr o) (o_cmsWidth o) (o_cmsDepth o) (o_cmsSeed o)
    (o_reservedMinimum o) (o_heartbeatInterval o) (o_heartbeatTimeout o)
    (o_preBorrowThreshold o) (o_preBorrowEnabled o) (o_metrics o)
    (o_clock o) (o_router o) (o_maxGossipKeys o) (o_gzipCompression o)
    (o_evictionInterval o) (o_idleTimeout o) (o_evictionPolicy o).

Definition WithEMAAlpha (x : float64) : Option S := λ o,
  mkOptions
    (o_instanceID o) (o_window o) (o_windowType o) (o_limit o)
    (o_minBorrow o) (o_maxBorrow o) (o_adaptiveBorrow o) x (o_leaseTTL o)
    (o_peerListen o) (o_peerGRPCAddr o) (o_peerStrategy o) (o_probeK o)
    (o_probeTimeout o) (o_probeMode o) (o_gossipInterval o)
    (o_gossipAddr o) (o_cmsWidth o) (o_cmsDepth o) (o_cmsSeed o)
    (o_reservedMinimum o) (o_heartbeatInterval o) (o_heartbeatTimeout o)
    (o_preBorrowThreshold o) (o_preBorrowEnabled o) (o_metrics o)
    (o_clock o) (o_router o) (o_maxGossipKeys o) (o_gzipCompression o)
    (o_evictionInterval o) (o_idleTimeout o) (o_evictionPolicy o).

Definition WithLeaseTTL (x : Z) : Option S := λ o,
  mkOptions
    (o_instanceID o) (o_window o) (o_windowType o) (o_limit o)
    (o_minBorrow o) (o_maxBorrow o) (o_adaptiveBorrow o) (o_emaAlpha o) x
    (o_peerListen o) (o_peerGRPCAddr o) (o_peerStrategy o) (o_probeK o)
    (o_probeTimeout o) (o_probeMode o) (o_gossipInterval o)
    (o_gossipAddr o) (o_cmsWidth o) (o_cmsDepth o) (o_cmsSeed o)
    (o_reservedMinimum o) (o_heartbeatInterval o) (o_heartbeatTimeout o)
    (o_preBorrowThreshold o) (o_preBorrowEnabled o) (o_metrics o)
    (o_clock o) (o_router o) (o_maxGossipKeys o) (o_gzipCompression o)
    (o_evictionInterval o) (o_idleTimeout o) (o_evictionPolicy o).

Definition WithPeerListen (x : string) : Option S := λ o,
  mkOptions
    (o_instanceID o) (o_window o) (o_windowType o) (o_limit o)
    (o_minBorrow o) (o_maxBorrow o) (o_adaptiveBorrow o) (o_emaAlpha o)
    (o_leaseTTL o) x (o_peerGRPCAddr o) (o_peerStrategy o) (o_probeK o)
    (o_probeTimeout o) (o_probeMode o) (o_gossipInterval o)
    (o_gossipAddr o) (o_cmsWidth o) (o_cmsDepth o) (o_cmsSeed o)
    (o_reservedMinimum o) (o_heartbeatInterval o) (o_heartbeatTimeout o)
    (o_preBorrowThreshold o) (o_preBorrowEnabled o) (o_metrics o)
    (o_clock o) (o_router o) (o_maxGossipKeys o) (o_gzipCompression o)
    (o_evictionInterval o) (o_idleTimeout o) (o_evictionPolicy o).

Definition WithPeerGRPCAddr (x : string) : Option S := λ o,
  mkOptions
    (o_instanceID o) (o_window o) (o_windowType o) (o_limit o)
    (o_minBorrow o) (o_maxBorrow o) (o_adaptiveBorrow o) (o_emaAlpha o)
    (o_leaseTTL o) (o_peerListen o) x (o_peerStrategy o) (o_probeK o)
    (o_probeTimeout o) (o_probeMode o) (o_gossipInterval o)
    (o_gossipAddr o) (o_cmsWidth o) (o_cmsDepth o) (o_cmsSeed o)
    (o_reservedMinimum o) (o_heartbeatInterval o) (o_heartbeatTimeout o)
    (o_preBorrowThreshold o) (o_preBorrowEnabled o) (o_metrics o)
    (o_clock o) (o_router o) (o_maxGossipKeys o) (o_gzipCompression o)
    (o_evictionInterval o) (o_idleTimeout o) (o_evictionPolicy o).

Definition WithPeerStrategy (x : PeerStrategy) : Option S := λ o,
  mkOptions
    (o_instanceID o) (o_window o) (o_windowType o) (o_limit o)
    (o_minBorrow o) (o_maxBorrow o) (o_adaptiveBorrow o) (o_emaAlpha o)
    (o_leaseTTL o) (o_peerListen o) (o_peerGRPCAddr o) x (o_probeK o)
    (o_probeTimeout o) (o_probeMode o) (o_gossipInterval o)
    (o_gossipAddr o) (o_cmsWidth o) (o_cmsDepth o) (o_cmsSeed o)
    (o_reservedMinimum o) (o_heartbeatInterval o) (o_heartbeatTimeout o)
    (o_preBorrowThreshold o) (o_preBorrowEnabled o) (o_metrics o)
    (o_clock o) (o_router o) (o_maxGossipKeys o) (o_gzipCompression o)
    (o_evictionInterval o) (o_idleTimeout o) (o_evictionPolicy o).

Definition WithProbeK (x : Z) : Option S := λ o,
  mkOptions
    (o_instanceID o) (o_window o) (o_windowType o) (o_limit o)
    (o_minBorrow o) (o_maxBorrow o) (o_adaptiveBorrow o) (o_emaAlpha o)
    (o_leaseTTL o) (o_peerListen o) (o_peerGRPCAddr o) (o_peerStrategy o) x
    (o_probeTimeout o) (o_probeMode o) (o_gossipInterval o)
    (o_gossipAddr o) (o_cmsWidth o) (o_cmsDepth o) (o_cmsSeed o)
    (o_reservedMinimum o) (o_heartbeatInterval o) (o_heartbeatTimeout o)
    (o_preBorrowThreshold o) (o_preBorrowEnabled o) (o_metrics o)
    (o_clock o) (o_router o) (o_maxGossipKeys o) (o_gzipCompression o)
    (o_evictionInterval o) (o_idleTimeout o) (o_evictionPolicy o).

Definition WithProbeTimeout (x : Z) : Option S := λ o,
  mkOptions
    (o_instanceID o) (o_window o) (o_windowType o) (o_limit o)
    (o_minBorrow o) (o_maxBorrow o) (o_adaptiveBorrow o) (o_emaAlpha o)
    (o_leaseTTL o) (o_peerListen o) (o_peerGRPCAddr o) (o_peerStrategy o)
    (o_probeK o) x (o_probeMode o) (o_gossipInterval o) (o_gossipAddr o)
    (o_cmsWidth o) (o_cmsDepth o) (o_cmsSeed o) (o_reservedMinimum o)
    (o_heartbeatInterval o) (o_heartbeatTimeout o) (o_preBorrowThreshold o)
    (o_preBorrowEnabled o) (o_metrics o) (o_clock o) (o_router o)
    (o_maxGossipKeys o) (o_gzipCompression o) (o_evictionInterval o)
    (o_idleTimeout o) (o_evictionPolicy o).

Definition WithProbeMode (x : ProbeMode) : Option S := λ o,
  mkOptions
    (o_instanceID o) (o_window o) (o_windowType o) (o_limit o)
    (o_minBorrow o) (o_maxBorrow o) (o_adaptiveBorrow o) (o_emaAlpha o)
    (o_leaseTTL o) (o_peerListen o) (o_peerGRPCAddr o) (o_peerStrategy o)
    (o_probeK o) (o_probeTimeout o) x (o_gossipInterval o) (o_gossipAddr o)
    (o_cmsWidth o) (o_cmsDepth o) (o_cmsSeed o) (o_reservedMinimum o)
    (o_heartbeatInterval o) (o_heartbeatTimeout o) (o_preBorrowThreshold o)
    (o_preBorrowEnabled o) (o_metrics o) (o_clock o) (o_router o)
    (o_maxGossipKeys o) (o_gzipCompression o) (o_evictionInterval o)
    (o_idleTimeout o) (o_evictionPolicy o).

Definition WithGossipInterval (x : Z) : Option S := λ o,
  mkOptions
    (o_instanceID o) (o_window o) (o_windowType o) (o_limit o)
    (o_minBorrow o) (o_maxBorrow o) (o_adaptiveBorrow o) (o_emaAlpha o)
    (o_leaseTTL o) (o_peerListen o) (o_peerGRPCAddr o) (o_peerStrategy o)
    (o_probeK o) (o_probeTimeout o) (o_probeMode o) x (o_gossipAddr o)
    (o_cmsWidth o) (o_cmsDepth o) (o_cmsSeed o) (o_reservedMinimum o)
    (o_heartbeatInterval o) (o_heartbeatTimeout o) (o_preBorrowThreshold o)
    (o_preBorrowEnabled o) (o_metrics o) (o_clock o) (o_router o)
    (o_maxGossipKeys o) (o_gzipCompression o) (o_evictionInterval o)
    (o_idleTimeout o) (o_evictionPolicy o).

Definition WithGossipAddr (x : string) : Option S := λ o,
  mkOptions
    (o_instanceID o) (o_window o) (o_windowType o) (o_limit o)
    (o_minBorrow o) (o_maxBorrow o) (o_adaptiveBorrow o) (o_emaAlpha o)
    (o_leaseTTL o) (o_peerListen o) (o_peerGRPCAddr o) (o_peerStrategy o)
    (o_probeK o) (o_probeTimeout o) (o_probeMode o) (o_gossipInterval o) x
    (o_cmsWidth o) (o_cmsDepth o) (o_cmsSeed o) (o_reservedMinimum o)
    (o_heartbeatInterval o) (o_heartbeatTimeout o) (o_preBorrowThreshold o)
    (o_preBorrowEnabled o) (o_metrics o) (o_clock o) (o_router o)
    (o_maxGossipKeys o) (o_gzipCompression o) (o_evictionInterval o)
    (o_idleTimeout o) (o_evictionPolicy o).

Definition WithCMSWidth (x : Z) : Option S := λ o,
  mkOptions
    (o_instanceID o) (o_window o) (o_windowType o) (o_limit o)
    (o_minBorrow o) (o_maxBorrow o) (o_adaptiveBorrow o) (o_emaAlpha o)
    (o_leaseTTL o) (o_peerListen o) (o_peerGRPCAddr o) (o_peerStrategy o)
    (o_probeK o) (o_probeTimeout o) (o_probeMode o) (o_gossipInterval o)
    (o_gossipAddr o) x (o_cmsDepth o) (o_cmsSeed o) (o_reservedMinimum o)
    (o_heartbeatInterval o) (o_heartbeatTimeout o) (o_preBorrowThreshold o)
    (o_preBorrowEnabled o) (o_metrics o) (o_clock o) (o_router o)
    (o_maxGossipKeys o) (o_gzipCompression o) (o_evictionInterval o)
    (o_idleTimeout o) (o_evictionPolicy o).

Definition WithCMSDepth (x : Z) : Option S := λ o,
  mkOptions
    (o_instanceID o) (o_window o) (o_windowType o) (o_limit o)
    (o_minBorrow o) (o_maxBorrow o) (o_adaptiveBorrow o) (o_emaAlpha o)
    (o_leaseTTL o) (o_peerListen o) (o_peerGRPCAddr o) (o_peerStrategy o)
    (o_probeK o) (o_probeTimeout o) (o_probeMode o) (o_gossipInterval o)
    (o_gossipAddr o) (o_cmsWidth o) x (o_cmsSeed o) (o_reservedMinimum o)
    (o_heartbeatInterval o) (o_heartbeatTimeout o) (o_preBorrowThreshold o)
    (o_preBorrowEnabled o) (o_metrics o) (o_clock o) (o_router o)
    (o_maxGossipKeys o) (o_gzipCompression o) (o_evictionInterval o)
    (o_idleTimeout o) (o_evictionPolicy o).

Definition WithCMSSeed (x : Z) : Option S := λ o,
  mkOptions
    (o_instanceID o) (o_window o) (o_windowType o) (o_limit o)
    (o_minBorrow o) (o_maxBorrow o) (o_adaptiveBorrow o) (o_emaAlpha o)
    (o_leaseTTL o) (o_peerListen o) (o_peerGRPCAddr o) (o_peerStrategy o)
    (o_probeK o) (o_probeTimeout o) (o_probeMode o) (o_gossipInterval o)
    (o_gossipAddr o) (o_cmsWidth o) (o_cmsDepth o) x (o_reservedMinimum o)
    (o_heartbeatInterval o) (o_heartbeatTimeout o) (o_preBorrowThreshold o)
    (o_preBorrowEnabled o) (o_metrics o) (o_clock o) (o_router o)
    (o_maxGossipKeys o) (o_gzipCompression o) (o_evictionInterval o)
    (o_idleTimeout o) (o_evictionPolicy o).

Definition WithReservedMinimum (x : float64) : Option S := λ o,
  mkOptions
    (o_instanceID o) (o_window o) (o_windowType o) (o_limit o)
    (o_minBorrow o) (o_maxBorrow o) (o_adaptiveBorrow o) (o_emaAlpha o)
    (o_leaseTTL o) (o_peerListen o) (o_peerGRPCAddr o) (o_peerStrategy o)
    (o_probeK o) (o_probeTimeout o) (o_probeMode o) (o_gossipInterval o)
    (o_gossipAddr o) (o_cmsWidth o) (o_cmsDepth o) (o_cmsSeed o) x
    (o_heartbeatInterval o) (o_heartbeatTimeout o) (o_preBorrowThreshold o)
    (o_preBorrowEnabled o) (o_metrics o) (o_clock o) (o_router o)
    (o_maxGossipKeys o) (o_gzipCompression o) (o_evictionInterval o)
    (o_idleTimeout o) (o_evictionPolicy o).

Definition WithHeartbeatInterval (x : Z) : Option S := λ o,
  mkOptions
    (o_instanceID o) (o_window o) (o_windowType o) (o_limit o)
    (o_minBorrow o) (o_maxBorrow o) (o_adaptiveBorrow o) (o_emaAlpha o)
    (o_leaseTTL o) (o_peerListen o) (o_peerGRPCAddr o) (o_peerStrategy o)
    (o_probeK o) (o_probeTimeout o) (o_probeMode o) (o_gossipInterval o)
    (o_gossipAddr o) (o_cmsWidth o) (o_cmsDepth o) (o_cmsSeed o)
    (o_reservedMinimum o) x (o_heartbeatTimeout o) (o_preBorrowThreshold o)
    (o_preBorrowEnabled o) (o_metrics o) (o_clock o) (o_router o)
    (o_maxGossipKeys o) (o_gzipCompression o) (o_evictionInterval o)
    (o_idleTimeout o) (o_evictionPolicy o).

Definition WithHeartbeatTimeout (x : Z) : Option S := λ o,
  mkOptions
    (o_instanceID o) (o_window o) (o_windowType o) (o_limit o)
    (o_minBorrow o) (o_maxBorrow o) (o_adaptiveBorrow o) (o_emaAlpha o)
    (o_leaseTTL o) (o_peerListen o) (o_peerGRPCAddr o) (o_peerStrategy o)
    (o_probeK o) (o_probeTimeout o) (o_probeMode o) (o_gossipInterval o)
    (o_gossipAddr o) (o_cmsWidth o) (o_cmsDepth o) (o_cmsSeed o)
    (o_reservedMinimum o) (o_heartbeatInterval o) x
    (o_preBorrowThreshold o) (o_preBorrowEnabled o) (o_metrics o)
    (o_clock o) (o_router o) (o_maxGossipKeys o) (o_gzipCompression o)
    (o_evictionInterval o) (o_idleTimeout o) (o_evictionPolicy o).

Definition WithPreBorrowEnabled (x : bool) : Option S := λ o,
  mkOptions
    (o_instanceID o) (o_window o) (o_windowType o) (o_limit o)
    (o_minBorrow o) (o_maxBorrow o) (o_adaptiveBorrow o) (o_emaAlpha o)
    (o_leaseTTL o) (o_peerListen o) (o_peerGRPCAddr o) (o_peerStrategy o)
    (o_probeK o) (o_probeTimeout o) (o_probeMode o) (o_gossipInterval o)
    (o_gossipAddr o) (o_cmsWidth o) (o_cmsDepth o) (o_cmsSeed o)
    (o_reservedMinimum o) (o_heartbeatInterval o) (o_heartbeatTimeout o)
    (o_preBorrowThreshold o) x (o_metrics o) (o_clock o) (o_router o)
    (o_maxGossipKeys o) (o_gzipCompression o) (o_evictionInterval o)
    (o_idleTimeout o) (o_evictionPolicy o).

Definition WithMetrics (x : bool) : Option S := λ o,
  mkOptions
    (o_instanceID o) (o_window o) (o_windowType o) (o_limit o)
    (o_minBorrow o) (o_maxBorrow o) (o_adaptiveBorrow o) (o_emaAlpha o)
    (o_leaseTTL o) (o_peerListen o) (o_peerGRPCAddr o) (o_peerStrategy o)
    (o_probeK o) (o_probeTimeout o) (o_probeMode o) (o_gossipInterval o)
    (o_gossipAddr o) (o_cmsWidth o) (o_cmsDepth o) (o_cmsSeed o)
    (o_reservedMinimum o) (o_heartbeatInterval o) (o_heartbeatTimeout o)
    (o_preBorrowThreshold o) (o_preBorrowEnabled o) x (o_clock o)
    (o_router o) (o_maxGossipKeys o) (o_gzipCompression o)
    (o_evictionInterval o) (o_idleTimeout o) (o_evictionPolicy o).

Definition WithClock (x : bool) : Option S := λ o,
  mkOptions
    (o_instanceID o) (o_window o) (o_windowType o) (o_limit o)
    (o_minBorrow o) (o_maxBorrow o) (o_adaptiveBorrow o) (o_emaAlpha o)
    (o_leaseTTL o) (o_peerListen o) (o_peerGRPCAddr o) (o_peerStrategy o)
    (o_probeK o) (o_probeTimeout o) (o_probeMode o) (o_gossipInterval o)
    (o_gossipAddr o) (o_cmsWidth o) (o_cmsDepth o) (o_cmsSeed o)
    (o_reservedMinimum o) (o_heartbeatInterval o) (o_heartbeatTimeout o)
    (o_preBorrowThreshold o) (o_preBorrowEnabled o) (o_metrics o) x
    (o_router o) (o_maxGossipKeys o) (o_gzipCompression o)
    (o_evictionInterval o) (o_idleTimeout o) (o_evictionPolicy o).

Definition WithPreBorrowThreshold (x : float64) : Option S := λ o,
  let x := if f64_leb x f64_zero then f64_const 1 100 else x in
  let x := if f64_ltb f64_one x then f64_one else x in
  mkOptions
    (o_instanceID o) (o_window o) (o_windowType o) (o_limit o)
    (o_minBorrow o) (o_maxBorrow o) (o_adaptiveBorrow o) (o_emaAlpha o)
    (o_leaseTTL o) (o_peerListen o) (o_peerGRPCAddr o) (o_peerStrategy o)
    (o_probeK o) (o_probeTimeout o) (o_probeMode o) (o_gossipInterval o)
    (o_gossipAddr o) (o_cmsWidth o) (o_cmsDepth o) (o_cmsSeed o)
    (o_reservedMinimum o) (o_heartbeatInterval o) (o_heartbeatTimeout o) x
    (o_preBorrowEnabled o) (o_metrics o) (o_clock o) (o_router o)
    (o_maxGossipKeys o) (o_gzipCompression o) (o_evictionInterval o)
    (o_idleTimeout o) (o_evictionPolicy o).

Definition WithRouter (x : option (Router S)) : Option S := λ o,
  mkOptions
    (o_instanceID o) (o_window o) (o_windowType o) (o_limit o)
    (o_minBorrow o) (o_maxBorrow o) (o_adaptiveBorrow o) (o_emaAlpha o)
    (o_leaseTTL o) (o_peerListen o) (o_peerGRPCAddr o) (o_peerStrategy o)
    (o_probeK o) (o_probeTimeout o) (o_probeMode o) (o_gossipInterval o)
    (o_gossipAddr o) (o_cmsWidth o) (o_cmsDepth o) (o_cmsSeed o)
    (o_reservedMinimum o) (o_heartbeatInterval o) (o_heartbeatTimeout o)
    (o_preBorrowThreshold o) (o_preBorrowEnabled o) (o_metrics o)
    (o_clock o) x (o_maxGossipKeys o) (o_gzipCompression o)
    (o_evictionInterval o) (o_idleTimeout o) (o_evictionPolicy o).

Definition WithMaxGossipKeys (x : Z) : Option S := λ o,
  mkOptions
    (o_instanceID o) (o_window o) (o_windowType o) (o_limit o)
    (o_minBorrow o) (o_maxBorrow o) (o_adaptiveBorrow o) (o_emaAlpha o)
    (o_leaseTTL o) (o_peerListen o) (o_peerGRPCAddr o) (o_peerStrategy o)
    (o_probeK o) (o_probeTimeout o) (o_probeMode o) (o_gossipInterval o)
    (o_gossipAddr o) (o_cmsWidth o) (o_cmsDepth o) (o_cmsSeed o)
    (o_reservedMinimum o) (o_heartbeatInterval o) (o_heartbeatTimeout o)
    (o_preBorrowThreshold o) (o_preBorrowEnabled o) (o_metrics o)
    (o_clock o) (o_router o) x (o_gzipCompression o) (o_evictionInterval o)
    (o_idleTimeout o) (o_evictionPolicy o).

Definition WithGzipCompression (x : bool) : Option S := λ o,
  mkOptions
    (o_instanceID o) (o_window o) (o_windowType o) (o_limit o)
    (o_minBorrow o) (o_maxBorrow o) (o_adaptiveBorrow o) (o_emaAlpha o)
    (o_leaseTTL o) (o_peerListen o) (o_peerGRPCAddr o) (o_peerStrategy o)
    (o_probeK o) (o_probeTimeout o) (o_probeMode o) (o_gossipInterval o)
    (o_gossipAddr o) (o_cmsWidth o) (o_cmsDepth o) (o_cmsSeed o)
    (o_reservedMinimum o) (o_heartbeatInterval o) (o_heartbeatTimeout o)
    (o_preBorrowThreshold o) (o_preBorrowEnabled o) (o_metrics o)
    (o_clock o) (o_router o) (o_maxGossipKeys o) x (o_evictionInterval o)
    (o_idleTimeout o) (o_evictionPolicy o).

Definition WithEvictionInterval (x : Z) : Option S := λ o,
  mkOptions
    (o_instanceID o) (o_window o) (o_windowType o) (o_limit o)
    (o_minBorrow o) (o_maxBorrow o) (o_adaptiveBorrow o) (o_emaAlpha o)
    (o_leaseTTL o) (o_peerListen o) (o_peerGRPCAddr o) (o_peerStrategy o)
    (o_probeK o) (o_probeTimeout o) (o_probeMode o) (o_gossipInterval o)
    (o_gossipAddr o) (o_cmsWidth o) (o_cmsDepth o) (o_cmsSeed o)
    (o_reservedMinimum o) (o_heartbeatInterval o) (o_heartbeatTimeout o)
    (o_preBorrowThreshold o) (o_preBorrowEnabled o) (o_metrics o)
    (o_clock o) (o_router o) (o_maxGossipKeys o) (o_gzipCompression o) x
    (o_idleTimeout o) (o_evictionPolicy o).

Definition WithIdleTimeout (x : Z) : Option S := λ o,
  let policy := match o_evictionPolicy o with
                | IdlePolicy _ => IdlePolicy (mkIdle x)
                | p => p
                end in
  mkOptions
    (o_instanceID o) (o_window o) (o_windowType o) (o_limit o)
    (o_minBorrow o) (o_maxBorrow o) (o_adaptiveBorrow o) (o_emaAlpha o)
    (o_leaseTTL o) (o_peerListen o) (o_peerGRPCAddr o) (o_peerStrategy o)
    (o_probeK o) (o_probeTimeout o) (o_probeMode o) (o_gossipInterval o)
    (o_gossipAddr o) (o_cmsWidth o) (o_cmsDepth o) (o_cmsSeed o)
    (o_reservedMinimum o) (o_heartbeatInterval o) (o_heartbeatTimeout o)
    (o_preBorrowThreshold o) (o_preBorrowEnabled o) (o_metrics o)
    (o_clock o) (o_router o) (o_maxGossipKeys o) (o_gzipCompression o)
    (o_evictionInterval o) x policy.

Definition WithEvictionPolicy (x : eviction_choice) : Option S := λ o,
  mkOptions
    (o_instanceID o) (o_window o) (o_windowType o) (o_limit o)
    (o_minBorrow o) (o_maxBorrow o) (o_adaptiveBorrow o) (o_emaAlpha o)
    (o_leaseTTL o) (o_peerListen o) (o_peerGRPCAddr o) (o_peerStrategy o)
    (o_probeK o) (o_probeTimeout o) (o_probeMode o) (o_gossipInterval o)
    (o_gossipAddr o) (o_cmsWidth o) (o_cmsDepth o) (o_cmsSeed o)
    (o_reservedMinimum o) (o_heartbeatInterval o) (o_heartbeatTimeout o)
    (o_preBorrowThreshold o) (o_preBorrowEnabled o) (o_metrics o)
    (o_clock o) (o_router o) (o_maxGossipKeys o) (o_gzipCompression o)
    (o_evictionInterval o) (o_idleTimeout o) x.

End with_options.

(** [New] applies the options to the defaults in order. *)
Definition apply_options {S} (opts : list (Option S)) : options S :=
  foldl (λ o opt, opt o) defaultOptions opts.

(** [New]'s instance identifier when none was given; [host] is
    [os.Hostname()] and [nanos] the clock. *)
Definition New_instanceID {S} (host : string) (nanos : Z) (o : options S)
  : options S :=
  if decide (o_instanceID o = "")
  then WithInstanceID (host +:+ "-" +:+ pretty nanos) o else o.

(** What the accounting of the limiter needs of a configuration: sizes that
    fit Lua's numbers. *)
Definition opts_ok {S} (o : options S) : Prop :=
  0 <= o_limit o <= 2 ^ 53 ∧ 0 <= o_minBorrow o <= 2 ^ 53 ∧
  0 <= o_maxBorrow o <= 2 ^ 53.

Lemma defaultOptions_ok {S} : opts_ok (defaultOptions (S:=S)).
Proof. unfold opts_ok. cbn. lia. Qed.

(** The guard of [WithPreBorrowThreshold].  Whatever number is given, the
    threshold stored is in (0, 1]; the one value that passes through both
    tests is NaN. *)
Theorem WithPreBorrowThreshold_range {S} f (o : options S) :
  f ≠ S754_nan →
  let t := o_preBorrowThreshold (WithPreBorrowThreshold f o) in
  f64_ltb f64_zero t = true ∧ f64_leb t f64_one = true.
Proof.
  intros Hf. cbn [o_preBorrowThreshold WithPreBorrowThreshold].
  assert (Hz : f64_zero ≠ S754_nan) by discriminate.
  assert (H1 : f64_one ≠ S754_nan) by (vm_compute; discriminate).
  destruct (f64_leb f f64_zero) eqn:Ez; [vm_compute; by split|].
  destruct (f64_ltb f64_one f) eqn:E1; [vm_compute; by split|].
  split.
  - by rewrite f64_leb_not_ltb, Ez.
  - rewrite f64_leb_not_ltb in E1 by done. by apply negb_false_iff in E1.
Qed.

Lemma WithPreBorrowThreshold_range_witness :
  f64_leb (o_preBorrowThreshold
    (WithPreBorrowThreshold (f64_of_Z 7) (defaultOptions (S:=unit)))) f64_one = true.
Proof.
  apply (WithPreBorrowThreshold_range (f64_of_Z 7) (defaultOptions (S:=unit))).
  vm_compute. discriminate.
Defined.
