(* ===== verification/Cluster.v ===== *)
(** * Cluster: who is in the cluster (internal/cluster)

    [Membership] keeps one hash in Redis with a JSON record per instance;
    [Heartbeat] refreshes an instance's own record until it is stopped.  A
    record is written and read the way encoding/json treats the struct and
    its tags. *)

From Stdlib Require Import Ascii.
From stdpp Require Import pretty.
From S2P Require Export Redis Json.

Record MemberInfo := mkMember {
  mi_ID : string; mi_GossipAddr : string; mi_GRPCAddr : string;
  Metadata : gmap string string; RegisteredAt : Z;
}.

(** ** The JSON record

    [json.Marshal]: the fields in the order of the struct, the metadata left
    out when empty ([omitempty]), its keys sorted. *)

Definition key_le (x y : string * string) : Prop := String.le x.1 y.1.
#[export] Instance key_le_dec : RelDecision key_le.
Proof. intros x y. unfold key_le. apply _. Defined.

Definition write_map (m : gmap string string) : string :=
  write_object ((λ e, (e.1, write_string e.2)) <$> merge_sort key_le (map_to_list m)).

Definition member_fields (i : MemberInfo) : list (string * string) :=
  [("id", write_string (mi_ID i)); ("gossip_addr", write_string (mi_GossipAddr i));
   ("grpc_addr", write_string (mi_GRPCAddr i))] ++
  (if decide (Metadata i = ∅) then [] else [("metadata", write_map (Metadata i))]) ++
  [("registered_at", pretty (RegisteredAt i))].

Definition Marshal (i : MemberInfo) : string := write_object (member_fields i).

(** A key names the field it equals up to case; the long s and the Kelvin
    sign fold to letters of ASCII. *)
Fixpoint fold_name (s : string) : string :=
  match s with
  | EmptyString => ""
  | String c s1 =>
      if between 65 90 c then String (chr (code c + 32)) (fold_name s1) else
      match s1 with
      | String d s2 =>
          if (code c =? 197) && (code d =? 191) then String "s" (fold_name s2) else
          match s2 with
          | String e s3 =>
              if (code c =? 226) && (code d =? 132) && (code e =? 170)
              then String "k" (fold_name s3) else String c (fold_name s1)
          | EmptyString => String c (fold_name s1)
          end
      | EmptyString => String c ""
      end
  end.

(** Reading a value into what a field holds; null leaves a scalar as it is.
    A value of the wrong kind is an error. *)
Definition read_string (v : json) (old : string) : option string :=
  match v with JStr s => Some s | JNull => Some old | _ => None end.

Definition read_int64 (v : json) (old : Z) : option Z :=
  match v with
  | JNum lit => match ParseInt lit with (n, None) => Some n | _ => None end
  | JNull => Some old
  | _ => None
  end.

Definition read_entry (m : option (gmap string string)) (e : string * json)
  : option (gmap string string) :=
  match m, read_string e.2 "" with
  | Some m, Some s => Some (<[e.1:=s]> m)
  | _, _ => None
  end.

Definition read_map (v : json) (old : gmap string string)
  : option (gmap string string) :=
  match v with
  | JObj l => foldl read_entry (Some old) l
  | JNull => Some ∅
  | _ => None
  end.

(** One member of the object; keys that are no field are skipped. *)
Definition set_field (i : option MemberInfo) (e : string * json) : option MemberInfo :=
  match i with
  | None => None
  | Some (mkMember id g r m t) =>
      let k := fold_name e.1 in
      if decide (k = "id") then
        (λ id, mkMember id g r m t) <$> read_string e.2 id
      else if decide (k = "gossip_addr") then
        (λ g, mkMember id g r m t) <$> read_string e.2 g
      else if decide (k = "grpc_addr") then
        (λ r, mkMember id g r m t) <$> read_string e.2 r
      else if decide (k = "metadata") then
        (λ m, mkMember id g r m t) <$> read_map e.2 m
      else if decide (k = "registered_at") then
        (λ t, mkMember id g r m t) <$> read_int64 e.2 t
      else i
  end.

(** [json.Unmarshal] into a zero [MemberInfo]; [None] is an error. *)
Definition Unmarshal (s : string) : option MemberInfo :=
  let zero := mkMember "" "" "" ∅ 0 in
  match parse_json s with
  | Some (JObj l) => foldl set_field (Some zero) l
  | Some JNull => Some zero
  | _ => None
  end.

#[global] Arguments Marshal : simpl never.
#[global] Arguments Unmarshal : simpl never.

(** What JSON can carry: text in UTF-8, and an int64. *)
Record encodable (i : MemberInfo) : Prop := {
  en_id : valid_utf8 (mi_ID i) = true;
  en_gossip : valid_utf8 (mi_GossipAddr i) = true;
  en_grpc : valid_utf8 (mi_GRPCAddr i) = true;
  en_metadata : map_Forall (λ k v, valid_utf8 k = true ∧ valid_utf8 v = true) (Metadata i);
  en_registered : is_i64 (RegisteredAt i);
}.

(** The values a record is written as. *)
Definition map_values (m : gmap string string) : list (string * json) :=
  (λ e, (e.1, JStr e.2)) <$> merge_sort key_le (map_to_list m).

Definition member_values (i : MemberInfo) : list (string * json) :=
  [("id", JStr (mi_ID i)); ("gossip_addr", JStr (mi_GossipAddr i));
   ("grpc_addr", JStr (mi_GRPCAddr i))] ++
  (if decide (Metadata i = ∅) then [] else [("metadata", JObj (map_values (Metadata i)))]) ++
  [("registered_at", JNum (pretty (RegisteredAt i)))].

Lemma good_map d (m : gmap string string) :
  map_Forall (λ k v, valid_utf8 k = true ∧ valid_utf8 v = true) m →
  Forall2 (good_member (parse_value d))
    ((λ e, (e.1, write_string e.2)) <$> merge_sort key_le (map_to_list m)) (map_values m).
Proof.
  intros Hm. unfold map_values. apply Forall2_fmap_2, Forall_Forall2_diag, Forall_forall.
  intros [k v] Hin. rewrite merge_sort_Permutation, elem_of_map_to_list in Hin.
  apply Hm in Hin as [Hk Hv]. split; [done|done|]. by apply reads_string.
Qed.

Lemma good_fields d i :
  encodable i →
  Forall2 (good_member (parse_value (S d))) (member_fields i) (member_values i).
Proof.
  intros [H1' H2' H3' H4' H5']. unfold member_fields, member_values.
  apply Forall2_app; [|apply Forall2_app].
  - repeat first [apply List.Forall2_nil|apply List.Forall2_cons];
      (split; [done|done|by apply reads_string]).
  - destruct (decide _); [by apply List.Forall2_nil|].
    apply List.Forall2_cons; [|apply List.Forall2_nil].
    split; [done..|]. intros r _. by apply parse_value_object, good_map.
  - apply List.Forall2_cons; [|apply List.Forall2_nil].
    split; [done|done|apply reads_int].
Qed.

Lemma read_map_values (m : gmap string string) l :
  foldl read_entry (Some m) ((λ e, (e.1, JStr e.2)) <$> l)
    = Some (foldl (λ m e, <[e.1:=e.2]> m) m l).
Proof. revert m. induction l as [|[k v] l IH]; intros m; [done|]. apply IH. Qed.

Lemma read_map_written (m : gmap string string) : read_map (JObj (map_values m)) ∅ = Some m.
Proof.
  unfold read_map, map_values. rewrite read_map_values. f_equal.
  set (l := merge_sort key_le (map_to_list m)).
  assert (Hl : l ≡ₚ map_to_list m) by apply merge_sort_Permutation.
  assert (Hnd : NoDup l.*1) by (rewrite Hl; apply NoDup_fst_map_to_list).
  apply map_eq. intros k. apply option_eq. intros v.
  rewrite (lookup_foldl_insert fst snd l ∅ Hnd), lookup_empty. split.
  - intros [([k' v'] & Hin & <- & <-)|[_ ?]]; [|done].
    by rewrite Hl, elem_of_map_to_list in Hin.
  - intros Hk. left. exists (k, v). by rewrite Hl, elem_of_map_to_list.
Qed.

(** The names of the fields are their own folding. *)
Lemma set_fields id g r m t :
  (∀ v, set_field (Some (mkMember id g r m t)) ("id", v)
     = (λ id, mkMember id g r m t) <$> read_string v id) ∧
  (∀ v, set_field (Some (mkMember id g r m t)) ("gossip_addr", v)
     = (λ g, mkMember id g r m t) <$> read_string v g) ∧
  (∀ v, set_field (Some (mkMember id g r m t)) ("grpc_addr", v)
     = (λ r, mkMember id g r m t) <$> read_string v r) ∧
  (∀ v, set_field (Some (mkMember id g r m t)) ("metadata", v)
     = (λ m, mkMember id g r m t) <$> read_map v m) ∧
  (∀ v, set_field (Some (mkMember id g r m t)) ("registered_at", v)
     = (λ t, mkMember id g r m t) <$> read_int64 v t).
Proof.
  assert (E : fold_name "id" = "id" ∧ fold_name "gossip_addr" = "gossip_addr" ∧
    fold_name "grpc_addr" = "grpc_addr" ∧ fold_name "metadata" = "metadata" ∧
    fold_name "registered_at" = "registered_at") by (vm_compute; done).
  destruct E as (E1 & E2 & E3 & E4 & E5). unfold set_field. cbn [fst snd].
  rewrite E1, E2, E3, E4, E5. done.
Qed.

(** Reading the fields of a record fills a zero record. *)
Lemma fields_read i :
  is_i64 (RegisteredAt i) →
  foldl set_field (Some (mkMember "" "" "" ∅ 0)) (member_values i) = Some i.
Proof.
  destruct i as [id g r m t]. intros Ht. unfold member_values.
  cbn [mi_ID mi_GossipAddr mi_GRPCAddr Metadata RegisteredAt] in *.
  assert (Hint : ∀ old, read_int64 (JNum (pretty t)) old = Some t).
  { intros old. unfold read_int64. by rewrite ParseInt_pretty. }
  destruct (decide (m = ∅)) as [->|Hm]; cbn [app foldl];
    rewrite (proj1 (set_fields _ _ _ _ _)); cbn [fmap option_fmap option_map read_string];
    rewrite (proj1 (proj2 (set_fields _ _ _ _ _)));
    cbn [fmap option_fmap option_map read_string];
    rewrite (proj1 (proj2 (proj2 (set_fields _ _ _ _ _))));
    cbn [fmap option_fmap option_map read_string].
  - rewrite (proj2 (proj2 (proj2 (proj2 (set_fields _ _ _ _ _))))). by rewrite Hint.
  - rewrite (proj1 (proj2 (proj2 (proj2 (set_fields _ _ _ _ _))))), read_map_written.
    cbn [fmap option_fmap option_map].
    rewrite (proj2 (proj2 (proj2 (proj2 (set_fields _ _ _ _ _))))). by rewrite Hint.
Qed.

(** The names [set_field] knows; any other member is skipped. *)
Definition field_names : list string :=
  ["id"; "gossip_addr"; "grpc_addr"; "metadata"; "registered_at"].
Definition is_field (e : string * json) : Prop := fold_name e.1 ∈ field_names.
#[export] Instance is_field_dec e : Decision (is_field e).
Proof. unfold is_field. apply _. Defined.

Lemma skip_member i e : ¬ is_field e → set_field i e = i.
Proof.
  destruct i as [[id g r m t]|]; [|done]. intros He. unfold set_field, is_field in *.
  repeat (destruct (decide _) as [Hd|_] in |- *;
    [destruct He; rewrite Hd; by apply (bool_decide_unpack _)|]).
  done.
Qed.

Lemma skip_members l : ∀ i, foldl set_field i l = foldl set_field i (filter is_field l).
Proof.
  induction l as [|e l IH]; intros i; [done|]. rewrite filter_cons.
  case_decide as He; cbn [foldl]; [apply IH|]. by rewrite skip_member.
Qed.

(** An object is read as the record when the members with the names of its
    fields, in their order, are those of the record. *)
Lemma Unmarshal_members i fields values :
  is_i64 (RegisteredAt i) →
  Forall2 (good_member (parse_value (Z.to_nat 9999))) fields values →
  filter is_field values = member_values i →
  Unmarshal (write_object fields) = Some i.
Proof.
  intros Hi Hf Hv. unfold Unmarshal. rewrite (parse_json_object _ values) by done.
  rewrite skip_members, Hv. by apply fields_read.
Qed.

Lemma member_values_fields i : filter is_field (member_values i) = member_values i.
Proof.
  destruct i as [id g r m t]. unfold member_values. cbn [mi_ID Metadata].
  destruct (decide (m = ∅)); cbn [app];
    repeat (rewrite filter_cons_True by (by apply (bool_decide_unpack _))); done.
Qed.

Lemma not_fields l : Forall (λ e, ¬ is_field e) l → filter is_field l = [].
Proof. induction 1; [done|]. by rewrite filter_cons_False. Qed.

(** A record is read back as it was written. *)
Lemma Unmarshal_Marshal i : encodable i → Unmarshal (Marshal i) = Some i.
Proof.
  intros Hi. apply (Unmarshal_members _ _ (member_values i)).
  - by apply en_registered.
  - replace (Z.to_nat 9999) with (S (Z.to_nat 9998)) by lia. by apply good_fields.
  - apply member_values_fields.
Qed.

(** C24: instances of different versions read each other's records.  An object
    that carries the members of a record, with any members before and after
    them whose names are no field of the record, is read as that record. *)
Theorem Unmarshal_compatible i pre post before after :
  encodable i →
  Forall2 (good_member (parse_value (Z.to_nat 9999))) pre before →
  Forall2 (good_member (parse_value (Z.to_nat 9999))) post after →
  Forall (λ e, ¬ is_field e) (before ++ after) →
  Unmarshal (write_object (pre ++ member_fields i ++ post)) = Some i.
Proof.
  intros Hi Hpre Hpost [Hb Ha]%Forall_app.
  apply (Unmarshal_members _ _ (before ++ member_values i ++ after)).
  - by apply en_registered.
  - apply Forall2_app; [done|]. apply Forall2_app; [|done].
    replace (Z.to_nat 9999) with (S (Z.to_nat 9998)) by lia. by apply good_fields.
  - rewrite !filter_app, member_values_fields.
    by rewrite (not_fields before Hb), (not_fields after Ha), app_nil_r.
Qed.

Lemma Unmarshal_compatible_witness :
  let info := mkMember "a" "a:1" "a:2" {["zone" := String quote "eu"]} 5 in
  Unmarshal (write_object (("version", "-7") :: member_fields info
    ++ [("tags", write_object [("id", write_string "b")])])) = Some info.
Proof.
  intros info.
  apply (Unmarshal_compatible info [("version", "-7")]
    [("tags", write_object [("id", write_string "b")])]
    [("version", JNum "-7")] [("tags", JObj [("id", JStr "b")])]).
  - split; [reflexivity|reflexivity|reflexivity| |vm_compute; split; [discriminate|reflexivity]].
    apply map_Forall_singleton. split; reflexivity.
  - apply List.Forall2_cons; [|apply List.Forall2_nil].
    split; [reflexivity|reflexivity|]. apply (reads_int _ (-7)).
  - apply List.Forall2_cons; [|apply List.Forall2_nil].
    split; [reflexivity|reflexivity|]. intros r _.
    apply (parse_value_object _ [("id", write_string "b")]).
    apply List.Forall2_cons; [|apply List.Forall2_nil].
    split; [reflexivity|reflexivity|apply reads_string; reflexivity].
  - repeat constructor; by apply (bool_decide_unpack _).
Defined.

(** An identifier that is not UTF-8 comes back with the replacement character
    in place of the byte, so its owner does not recognise it. *)
Lemma Unmarshal_not_utf8 :
  Unmarshal (Marshal (mkMember (String "255" "") "a:1" "a:2" ∅ 5))
    = Some (mkMember RuneError "a:1" "a:2" ∅ 5) ∧ RuneError ≠ String "255" "".
Proof. split; [vm_compute; reflexivity|discriminate]. Qed.

Record Membership := mkMembership { m_ttl : Z; m_prefix : string }.

Definition NewMembership (ttl : Z) : Membership :=
  mkMembership ttl "krate:cluster:".

Definition hashKey (m : Membership) : string := m_prefix m +:+ "members".

Definition with_RegisteredAt (t : Z) (info : MemberInfo) : MemberInfo :=
  mkMember (mi_ID info) (mi_GossipAddr info) (mi_GRPCAddr info)
    (Metadata info) t.

(** A command that writes the store, and how the client saw it end. *)
Definition redis_write {S R} (rl : lens S (redis_world R)) (f : R → R)
  : go S (option error) :=
  let write := zoom_modify rl (λ w, mkRW (f (rw_store w)) (rw_log w)) in
  do! t <- ask QTransport;
  match t with
  | TOk => do! _ <- write; Ret None
  | TNotRun e => Ret (Some e)
  | TReplyLost e => do! _ <- write; Ret (Some e)
  end.

(** The loop of [Discover] over the hash: the live members and the
    identifiers to delete. *)
Definition discover_entry (now ttlMs : Z)
    (acc : list MemberInfo * list string) (e : string * string)
  : list MemberInfo * list string :=
  let '(members, toDelete) := acc in
  let '(id, s) := e in
  match Unmarshal s with
  | None => (members, toDelete)
  | Some info =>
      if ttlMs <? to_i64 (now - RegisteredAt info)
      then (members, toDelete ++ [id])
      else (members ++ [info], toDelete)
  end.

Section membership.
Context {S R : Type} `{RedisStore R}
  (rl : lens S (redis_world R)) (m : Membership).

Definition Register (info : MemberInfo) : go S (option error) :=
  do! info <- (if RegisteredAt info =? 0
               then do! t <- ask QNow; Ret (with_RegisteredAt (UnixMilli t) info)
               else Ret info);
  do! err <- redis_write rl (redis_HSET (hashKey m) [(mi_ID info, Marshal info)]);
  match err with
  | Some e => Ret (Some (ErrWrap ("register member " +:+ mi_ID info) e))
  | None => Ret None
  end.

Definition redis_Nil : error := ErrMsg "redis: nil".

Definition Deregister (id : string) : go S (option error) :=
  do! err <- redis_write rl (redis_HDEL (hashKey m) [id]);
  match err with
  | Some e =>
      if decide (e = redis_Nil) then Ret None
      else Ret (Some (ErrWrap ("deregister member " +:+ id) e))
  | None => Ret None
  end.

Definition Discover : go S (list MemberInfo * option error) :=
  do! t <- ask QTransport;
  match t with
  | TNotRun e | TReplyLost e => Ret ([], Some (ErrWrap "hgetall members" e))
  | TOk =>
      do! vals <- zoom_reads rl (λ w, redis_HGETALL (hashKey m) (rw_store w));
      if decide (vals = ∅) then Ret ([], None)
      else
        do! t <- ask QNow;
        let now := UnixMilli t in
        let ttlMs := Milliseconds (m_ttl m) in
        do! order <- ask QOrder;
        let '(members, toDelete) :=
          foldl (discover_entry now ttlMs) ([], []) (order _ (map_to_list vals)) in
        (match toDelete with
         | [] => Ret tt
         | _ => fork (redis_write rl (redis_HDEL (hashKey m) toDelete) ;;; Ret tt)
         end) ;;;
        Ret (members, None)
  end.

Definition Refresh (info : MemberInfo) : go S (option error) :=
  do! t <- ask QNow;
  Register (with_RegisteredAt (UnixMilli t) info).
End membership.

(** ** Heartbeat *)

(** The two channels of a [Heartbeat]: closed or not. *)
Record Heartbeat := mkHeartbeat { hb_stopCh : bool; hb_doneCh : bool }.

Definition NewHeartbeat : Heartbeat := mkHeartbeat false false.

Section heartbeat.
Context {S R : Type} `{RedisStore R}
  (rl : lens S (redis_world R)) (hl : lens S Heartbeat)
  (m : Membership) (info : MemberInfo) (OnFail : option (error → go S unit)).

Definition hb_report (err : option error) : go S unit :=
  match err, OnFail with
  | Some e, Some f => f e
  | _, _ => Ret tt
  end.

(** [defer close(h.doneCh)]. *)
Definition close_done : go S unit :=
  zoom_modify hl (λ h, mkHeartbeat (hb_stopCh h) true).

(** The end of the goroutine of [Start]: its context is cancelled, or [Stop]
    was called. *)
Definition hb_stopped : go S unit :=
  do! cancelled <- ask QCtxErr;
  (match cancelled with
   | Some _ => Ret tt
   | None => await (λ s, if hb_stopCh (lget hl s) then Some (tt, s) else None)
   end) ;;;
  close_done.

(** The goroutine; after [ticks] beats it only waits for its end. *)
Fixpoint hb_loop (ticks : nat) : go S unit :=
  match ticks with
  | O => hb_stopped
  | Datatypes.S ticks =>
      do! tick <- ask QSelect;
      if (tick : bool) then
        do! err <- Refresh rl m info;
        hb_report err ;;;
        hb_loop ticks
      else hb_stopped
  end.

Definition hb_Start (interval : Z) (ticks : nat) : go S unit :=
  do! err <- Register rl m info;
  hb_report err ;;;
  fork (NewTicker interval ;;; hb_loop ticks).

(** [stopOnce] makes a second [Stop] close nothing; both wait. *)
Definition hb_Stop : go S unit :=
  zoom_modify hl (λ h, mkHeartbeat true (hb_doneCh h)) ;;;
  await (λ s, if hb_doneCh (lget hl s) then Some (tt, s) else None).
End heartbeat.

(** ** What [Discover] returns *)

Definition member_live (now ttlMs : Z) (s : string)
    (info : MemberInfo) : Prop :=
  Unmarshal s = Some info ∧ to_i64 (now - RegisteredAt info) <= ttlMs.
Definition member_expired (now ttlMs : Z) (s : string) : Prop :=
  ∃ info, Unmarshal s = Some info ∧ ttlMs < to_i64 (now - RegisteredAt info).

Lemma discover_entries now ttlMs l :
  ∀ ms del,
  let r := foldl (discover_entry now ttlMs) (ms, del) l in
  (∀ info, info ∈ r.1 ↔
     info ∈ ms ∨ ∃ id s, (id, s) ∈ l ∧ member_live now ttlMs s info) ∧
  (∀ id, id ∈ r.2 ↔
     id ∈ del ∨ ∃ s, (id, s) ∈ l ∧ member_expired now ttlMs s).
Proof.
  induction l as [|[id s] l IH]; intros ms del; cbn [foldl].
  { cbn. split; intros; split; [tauto| |tauto|].
    - intros [?|(? & ? & []%elem_of_nil & _)]; done.
    - intros [?|(? & []%elem_of_nil & _)]; done. }
  unfold discover_entry at 2 4. destruct (Unmarshal s) as [info0|] eqn:E;
    [destruct (Z.ltb_spec ttlMs (to_i64 (now - RegisteredAt info0)))|].
  - destruct (IH ms (del ++ [id])) as [H1 H2]. split; intros x.
    + rewrite H1. unfold member_live. set_unfold. split; [naive_solver|].
      intros [?|(id1 & s1 & [[= -> ->]|?] & Hs & ?)]; [by left|simplify_eq; lia|].
      right; eauto.
    + rewrite H2. unfold member_expired. set_unfold. naive_solver.
  - destruct (IH (ms ++ [info0]) del) as [H1 H2]. split; intros x.
    + rewrite H1. unfold member_live. set_unfold. naive_solver.
    + rewrite H2. unfold member_expired. set_unfold. split; [naive_solver|].
      intros [?|(s1 & [[= -> ->]|?] & i1 & Hs & ?)]; [by left|simplify_eq; lia|].
      right; eauto.
  - destruct (IH ms del) as [H1 H2]. split; intros x.
    + rewrite H1. unfold member_live. set_unfold. naive_solver.
    + rewrite H2. unfold member_expired. set_unfold. naive_solver.
Qed.

Section membership_facts.
Context {S R : Type} `{RedisLaws R}
  (rl : lens S (redis_world R)) (m : Membership).

Definition members_hash (s : S) : gmap string string :=
  redis_HGETALL (hashKey m) (rw_store (lget rl s)).

Lemma exec_Discover (env : environment) i s :
  (∀ j, valid_answer QOrder (env _ QOrder j)) →
  env _ QTransport i = TOk →
  ∃ ms fs j, exec env i (Discover rl m) s = Done (ms, None) s fs j ∧
  (members_hash s = ∅ ∧ ms = [] ∧ fs = [] ∨
   members_hash s ≠ ∅ ∧
   let now := UnixMilli (env _ QNow (Datatypes.S i)) in
   let ttlMs := Milliseconds (m_ttl m) in
   (∀ info, info ∈ ms ↔
      ∃ id v, members_hash s !! id = Some v ∧ member_live now ttlMs v info) ∧
   ∃ dead,
   (∀ id, id ∈ dead ↔
      ∃ v, members_hash s !! id = Some v ∧ member_expired now ttlMs v) ∧
   fs = match dead with
        | [] => []
        | _ => [redis_write rl (redis_HDEL (hashKey m) dead) ;;; Ret tt]
        end).
Proof.
  intros Hord Ht. unfold Discover. cbn. rewrite Ht. cbn.
  fold (members_hash s). destruct (decide (members_hash s = ∅)) as [He|He].
  { do 3 eexists. split; [reflexivity|by left]. }
  cbn. set (now := UnixMilli _). set (ttlMs := Milliseconds _).
  set (l := env _ QOrder _ _ _).
  assert (Hl : l ≡ₚ map_to_list (members_hash s)) by apply Hord.
  destruct (discover_entries now ttlMs l [] []) as [Hms Hdead].
  assert (Hin : ∀ id v, (id, v) ∈ l ↔ members_hash s !! id = Some v).
  { intros. by rewrite Hl, elem_of_map_to_list. }
  destruct (foldl (discover_entry now ttlMs) ([], []) l) as [ms dead].
  cbn in Hms, Hdead. exists ms.
  destruct dead as [|d dead]; cbn; do 2 eexists; (split; [reflexivity|]);
    right; (split; [done|]); (split;
      [intros info; rewrite Hms, elem_of_nil; setoid_rewrite Hin; tauto|]).
  - exists []. split; [|done]. intros id. rewrite Hdead. setoid_rewrite Hin.
    rewrite elem_of_nil. tauto.
  - exists (d :: dead). split; [|done]. intros id. rewrite Hdead.
    setoid_rewrite Hin. rewrite elem_of_nil. tauto.
Qed.

Lemma exec_Refresh (env : environment) i s info :
  env _ QTransport (Datatypes.S i) = TOk →
  let t0 := UnixMilli (env _ QNow i) in
  let info' := with_RegisteredAt t0 info in
  t0 ≠ 0 →
  exec env i (Refresh rl m info) s
    = Done None
        (lput rl (mkRW (redis_HSET (hashKey m) [(mi_ID info, Marshal info')]
                          (rw_store (lget rl s))) (rw_log (lget rl s))) s)
        [] (Datatypes.S (Datatypes.S i)).
Proof.
  intros Ht t0 info' Ht0. unfold Refresh, Register, redis_write.
  cbn [exec bind ask]. fold t0. fold info'.
  assert (E : (RegisteredAt info' =? 0) = false) by by apply Z.eqb_neq.
  rewrite E. cbn [exec bind ask]. rewrite Ht. done.
Qed.

(** C23: a heartbeat makes its instance discoverable.  After a [Refresh] of
    [info] that reached Redis, a [Discover] not more than the time-to-live
    later returns the record just written, and the clean-up it may start
    never deletes that record, provided JSON can carry the record. *)
Theorem Refresh_Discover (env : environment) i s info :
  (∀ j, valid_answer QOrder (env _ QOrder j)) →
  (∀ j, env _ QTransport j = TOk) →
  let t0 := UnixMilli (env _ QNow i) in
  let now := UnixMilli (env _ QNow (i + 3)%nat) in
  t0 ≠ 0 → to_i64 (now - t0) <= Milliseconds (m_ttl m) →
  encodable (with_RegisteredAt t0 info) →
  ∃ ms s' fs j,
    exec env i (Refresh rl m info ;;; Discover rl m) s
      = Done (ms, None) s' fs j ∧
    with_RegisteredAt t0 info ∈ ms ∧
    ∀ t, t ∈ fs → ∃ dead, mi_ID info ∉ dead ∧
      t = (redis_write rl (redis_HDEL (hashKey m) dead) ;;; Ret tt).
Proof.
  intros Hord Ht t0 now Ht0 Hlive Henc.
  rewrite exec_bind, exec_Refresh by done. fold t0.
  set (info' := with_RegisteredAt t0 info).
  set (s1 := lput rl _ s). rewrite push_forks_nil.
  assert (Hs1 : members_hash s1 !! mi_ID info = Some (Marshal info')).
  { unfold members_hash, s1. rewrite lget_put. cbn. rewrite HGETALL_HSET.
    cbn. by rewrite lookup_insert_eq. }
  destruct (exec_Discover env (Datatypes.S (Datatypes.S i)) s1 Hord (Ht _))
    as (ms & fs & j & Hex & [(He & _ & _)|(_ & Hms & dead & Hdead & Hfs)]).
  { rewrite He, lookup_empty in Hs1. done. }
  assert (Hnow : UnixMilli (env Z QNow (Datatypes.S (Datatypes.S (Datatypes.S i)))) = now).
  { subst now. do 3 f_equal. lia. }
  rewrite Hnow in Hms, Hdead.
  exists ms, s1, fs, j. split; [exact Hex|]. split.
  - apply Hms. exists (mi_ID info), (Marshal info'). split; [done|].
    split; [by apply Unmarshal_Marshal|done].
  - intros t Htf. exists dead. split.
    + intros (v & Hv & info1 & Hu & Hex1)%Hdead.
      rewrite Hs1 in Hv. injection Hv as <-.
      rewrite Unmarshal_Marshal in Hu by done. injection Hu as <-. cbn in Hex1. lia.
    + destruct dead as [|d dead]; subst fs; [by apply elem_of_nil in Htf|].
      by apply list_elem_of_singleton in Htf.
Qed.
End membership_facts.

Lemma Refresh_Discover_witness :
  let m := NewMembership (5 * Second) in
  let info := mkMember "a" "a:1" "a:2" ∅ 0 in
  let s := mkRW (mkMem ∅ ∅) [] in
  ∃ ms s' fs j,
    exec (clock_env Second) 0
      (@Refresh _ _ _ lens_id m info ;;;
       @Discover _ _ _ lens_id m) s = Done (ms, None) s' fs j ∧
    with_RegisteredAt 1000 info ∈ ms.
Proof.
  intros m info s.
  destruct (@Refresh_Discover _ mem_redis _ _ lens_id m (clock_env Second) 0 s info)
    as (ms & s' & fs & j & Hex & Hin & _).
  - intros n A l. reflexivity.
  - reflexivity.
  - discriminate.
  - vm_compute. discriminate.
  - split; [reflexivity|reflexivity|reflexivity|apply map_Forall_empty|].
    vm_compute. split; [discriminate|reflexivity].
  - exists ms, s', fs, j. split; [exact Hex|exact Hin].
Defined.
