(* ===== verification/Mesh.v ===== *)
(** * Mesh: the connections to the other instances (internal/peer/mesh.go)

    [refresh] compares the cluster's membership with the peers it has, closes
    the connections of those that left, and dials those that are new.  grpc
    is outside the repository: whether it accepts an address is the parameter
    [NewClient_err]; what it holds open is kept in the model as the set
    [open_conns]. *)

From S2P Require Export Cluster.

(** [grpc.NewClient(addr, opts)]: its error. *)
Class GrpcDial := { NewClient_err : string → option error }.

(** A [*grpc.ClientConn]: which one, and the address it was made for. *)
Record conn := mkConn { c_id : nat; c_addr : string }.

(** [Client] is the stub on [Conn]. *)
Record Peer := mkPeer {
  p_ID : string; p_GRPCAddr : string; p_GossipAddr : string;
  p_Client : option conn; p_Conn : option conn;
  p_LastSeen : Z; p_Healthy : bool;
}.

Record Mesh := mkMesh {
  mesh_instanceID : string;
  mesh_mu : bool;
  peers : gmap string Peer;
  conns : gmap string conn;
  open_conns : gset nat;
  next_conn : nat;
}.

Definition NewMesh (instanceID : string) : Mesh :=
  mkMesh instanceID false ∅ ∅ ∅ 0.

Definition with_mesh_mu (b : bool) (m : Mesh) : Mesh :=
  mkMesh (mesh_instanceID m) b (peers m) (conns m) (open_conns m) (next_conn m).
Definition with_peers (ps : gmap string Peer) (m : Mesh) : Mesh :=
  mkMesh (mesh_instanceID m) (mesh_mu m) ps (conns m) (open_conns m) (next_conn m).

(** [conn.Close(); delete(m.conns, id)], if there is one. *)
Definition close_conn (id : string) (m : Mesh) : Mesh :=
  match conns m !! id with
  | Some c =>
      mkMesh (mesh_instanceID m) (mesh_mu m) (peers m) (delete id (conns m))
        (open_conns m ∖ {[c_id c]}) (next_conn m)
  | None => m
  end.

(** A peer that left: the body of the first loop of [refresh]. *)
Definition drop_peer (id : string) (m : Mesh) : Mesh :=
  let m := close_conn id m in with_peers (delete id (peers m)) m.

Section dial.
Context `{GrpcDial}.

(** [grpc.NewClient] and, when it succeeds, [m.conns[id] = conn]. *)
Definition dial (id addr : string) (m : Mesh) : option conn * Mesh :=
  match NewClient_err addr with
  | Some _ => (None, m)
  | None =>
      let c := mkConn (next_conn m) addr in
      (Some c,
       mkMesh (mesh_instanceID m) (mesh_mu m) (peers m) (<[id:=c]> (conns m))
         ({[next_conn m]} ∪ open_conns m) (Datatypes.S (next_conn m)))
  end.

(** A member: the body of the second loop; [now] is its clock reading. *)
Definition join_peer (now : Z) (id : string) (member : MemberInfo) (m : Mesh)
  : Mesh :=
  match peers m !! id with
  | Some p =>
      let p := mkPeer (p_ID p) (p_GRPCAddr p) (p_GossipAddr p) (p_Client p)
                 (p_Conn p) now (p_Healthy p) in
      let m := with_peers (<[id:=p]> (peers m)) m in
      if p_Healthy p then m
      else
        let '(c, m) := dial id (p_GRPCAddr p) m in
        match c with
        | Some c =>
            with_peers (<[id := mkPeer (p_ID p) (p_GRPCAddr p) (p_GossipAddr p)
                                  (Some c) (Some c) now true]> (peers m)) m
        | None => m
        end
  | None =>
      let grpcAddr := if decide (mi_GRPCAddr member = "")
                      then mi_GossipAddr member else mi_GRPCAddr member in
      let '(c, m) := dial id grpcAddr m in
      let p := mkPeer id grpcAddr (mi_GossipAddr member) c c now
                 (match c with Some _ => true | None => false end) in
      with_peers (<[id:=p]> (peers m)) m
  end.
End dial.

(** The map of the other members. *)
Definition current_members (self : string) (members : list MemberInfo)
  : gmap string MemberInfo :=
  foldl (λ cur mem, if decide (mi_ID mem = self) then cur
                    else <[mi_ID mem := mem]> cur) ∅ members.

Section mesh.
Context {S : Type} `{GrpcDial} (ml : lens S Mesh).

Definition mesh_Lock : go S unit :=
  await (λ s, if mesh_mu (lget ml s) then None
              else Some (tt, lput ml (with_mesh_mu true (lget ml s)) s)).
Definition mesh_Unlock : go S unit := zoom_modify ml (with_mesh_mu false).

(** A read under [RLock]. *)
Definition mesh_read {X} (f : Mesh → X) : go S X :=
  await (λ s, if mesh_mu (lget ml s) then None else Some (f (lget ml s), s)).

Section refresh.
Context (Discover : go S (list MemberInfo * option error))
        (onPeerRemoved : option (string → go S unit)).

Definition drop_if_gone (current : gmap string MemberInfo) (id : string)
  : go S unit :=
  match current !! id with
  | Some _ => Ret tt
  | None =>
      zoom_modify ml (drop_peer id) ;;;
      match onPeerRemoved with Some f => f id | None => Ret tt end
  end.

Definition join_one (e : string * MemberInfo) : go S unit :=
  do! now <- ask QNow; zoom_modify ml (join_peer now e.1 e.2).

Definition refresh : go S unit :=
  do! (members, err) <- Discover;
  match err with
  | Some _ => Ret tt
  | None =>
      do! self <- zoom_reads ml mesh_instanceID;
      let current := current_members self members in
      mesh_Lock ;;;
      do! order <- ask QOrder;
      do! ids <- zoom_reads ml (λ m, order _ (map_to_list (peers m)).*1);
      for_each (drop_if_gone current) ids ;;;
      do! order <- ask QOrder;
      for_each join_one (order _ (map_to_list current)) ;;;
      mesh_Unlock
  end.
End refresh.

Definition GetPeer (id : string) : go S (option Peer) :=
  mesh_read (λ m, peers m !! id).

Definition GetPeers : go S (list Peer) :=
  do! order <- ask QOrder;
  mesh_read (λ m, filter (λ p, p_Healthy p = true)
                    (order _ (map_to_list (peers m))).*2).

Definition peer_client (id : string) (m : Mesh) : option conn :=
  match peers m !! id with
  | Some p => if p_Healthy p then p_Client p else None
  | None => None
  end.
Definition GetPeerClient (id : string) : go S (option conn) :=
  mesh_read (peer_client id).

Definition GossipAddrs : go S (list string) :=
  do! order <- ask QOrder;
  mesh_read (λ m, filter (λ a, a ≠ "")
                    (map p_GossipAddr (order _ (map_to_list (peers m))).*2)).

Definition PeerCount : go S nat :=
  mesh_read (λ m, length (filter (λ p, p_Healthy p = true)
                            (map_to_list (peers m)).*2)).

(** [Stop], after its loop ended: every connection is closed. *)
Definition mesh_Stop : go S unit :=
  mesh_Lock ;;;
  do! order <- ask QOrder;
  do! ids <- zoom_reads ml (λ m, order _ (map_to_list (conns m)).*1);
  for_each (λ id, zoom_modify ml (close_conn id)) ids ;;;
  mesh_Unlock.
End mesh.

(** ** The mesh and its connections agree

    [accounted] holds of every mesh a limiter ever has: no connection is held
    open that [conns] does not know, none is shared, none belongs to nobody.
    [mesh_wf] adds what holds until [Stop]: a healthy peer's connection is
    open. *)

Record accounted (m : Mesh) : Prop := {
  (** a healthy peer's client is its connection, an unhealthy one has none *)
  ac_peer id p : peers m !! id = Some p →
    p_ID p = id ∧
    if p_Healthy p
    then ∃ c, p_Client p = Some c ∧ p_Conn p = Some c ∧ c_addr c = p_GRPCAddr p ∧
              (conns m !! id = None ∨ conns m !! id = Some c)
    else p_Client p = None ∧ p_Conn p = None ∧ conns m !! id = None;
  (** a connection belongs to a peer *)
  ac_conn id c : conns m !! id = Some c → is_Some (peers m !! id);
  (** the connections grpc holds open are exactly those of [conns] *)
  ac_open n : n ∈ open_conns m ↔ ∃ id c, conns m !! id = Some c ∧ c_id c = n;
  ac_fresh n : n ∈ open_conns m → (n < next_conn m)%nat;
  ac_inj id1 id2 c1 c2 : conns m !! id1 = Some c1 → conns m !! id2 = Some c2 →
    c_id c1 = c_id c2 → id1 = id2;
}.

Record mesh_wf (m : Mesh) : Prop := {
  wf_accounted : accounted m;
  wf_live id p : peers m !! id = Some p → p_Healthy p = true → is_Some (conns m !! id);
}.

Lemma NewMesh_accounted id : accounted (NewMesh id).
Proof.
  split; cbn; try (intros *; rewrite lookup_empty; done).
  - intros n. split; [set_solver|]. intros (? & ? & Hc & _).
    by rewrite lookup_empty in Hc.
  - set_solver.
Qed.

Lemma NewMesh_wf id : mesh_wf (NewMesh id).
Proof. split; [apply NewMesh_accounted|done]. Qed.

(** Locking, or a new [LastSeen], changes none of it. *)
Lemma accounted_mu b m : accounted m → accounted (with_mesh_mu b m).
Proof. by intros []; split. Qed.

Lemma mesh_wf_mu b m : mesh_wf m → mesh_wf (with_mesh_mu b m).
Proof. intros [Ha Hl]. split; [by apply accounted_mu|done]. Qed.

Lemma close_conn_some id c m :
  conns m !! id = Some c →
  close_conn id m = mkMesh (mesh_instanceID m) (mesh_mu m) (peers m)
    (delete id (conns m)) (open_conns m ∖ {[c_id c]}) (next_conn m).
Proof. unfold close_conn. by intros ->. Qed.

Lemma close_conn_peers id m : peers (close_conn id m) = peers m.
Proof. unfold close_conn. by destruct (conns m !! id). Qed.

Lemma close_conn_conns id m : conns (close_conn id m) = delete id (conns m).
Proof.
  unfold close_conn. destruct (conns m !! id) eqn:E; [done|].
  by rewrite delete_id.
Qed.

Lemma drop_peer_peers id m : peers (drop_peer id m) = delete id (peers m).
Proof. unfold drop_peer. cbn. by rewrite close_conn_peers. Qed.

Lemma drop_peer_mu id m : mesh_mu (drop_peer id m) = mesh_mu m.
Proof. unfold drop_peer, close_conn. by destruct (conns m !! id). Qed.

Lemma close_conn_accounted id m : accounted m → accounted (close_conn id m).
Proof.
  intros [Hp Hc Ho Hf Hi]. unfold close_conn.
  destruct (conns m !! id) as [c|] eqn:Hid; [|done]. split; cbn.
  - intros id' p Hid'. destruct (Hp id' p Hid') as [H1 H2]. split; [done|].
    rewrite lookup_delete. destruct (decide (id = id')) as [->|]; [|done].
    destruct (p_Healthy p); [|naive_solver].
    destruct H2 as (c' & ? & ? & ? & _). exists c'. naive_solver.
  - intros id' c' [Hne Hid']%lookup_delete_Some. by eapply Hc.
  - intros n. rewrite elem_of_difference, elem_of_singleton, Ho. split.
    + intros [(id' & c' & Hid' & <-) Hn]. exists id', c'.
      rewrite lookup_delete_ne; [done|]. intros <-. by simplify_eq.
    + intros (id' & c' & [Hne Hid']%lookup_delete_Some & <-).
      split; [eauto|]. intros Heq. by eapply Hne, Hi.
  - intros n [Hn _]%elem_of_difference. by apply Hf.
  - intros id1 id2 c1 c2 [_ H1]%lookup_delete_Some [_ H2]%lookup_delete_Some.
    by apply Hi.
Qed.

Lemma drop_peer_accounted id m : accounted m → accounted (drop_peer id m).
Proof.
  intros Hm. apply (close_conn_accounted id) in Hm.
  assert (Hnone : conns (close_conn id m) !! id = None)
    by by rewrite close_conn_conns, lookup_delete_eq.
  unfold drop_peer. cbv zeta. generalize dependent (close_conn id m).
  intros m1 [Hp Hc Ho Hf Hi] Hnone. split; cbn; [| |done..].
  - intros id' p [Hne Hid']%lookup_delete_Some. by apply Hp.
  - intros id' c' Hid'. rewrite lookup_delete_ne; [by eapply Hc|]. congruence.
Qed.

Lemma drop_peer_wf id m : mesh_wf m → mesh_wf (drop_peer id m).
Proof.
  intros [Ha Hl]. split; [by apply drop_peer_accounted|].
  intros id' p. rewrite drop_peer_peers. intros [Hne Hid']%lookup_delete_Some Hh.
  cbn. rewrite close_conn_conns, lookup_delete_ne by done. by eapply Hl.
Qed.

Section join.
Context `{GrpcDial}.

(** A dial on behalf of a peer without a connection. *)
Lemma dial_peer_accounted id p m c m' :
  accounted m → conns m !! id = None →
  p_ID p = id → dial id (p_GRPCAddr p) m = (c, m') →
  p_Client p = c → p_Conn p = c →
  p_Healthy p = (match c with Some _ => true | None => false end) →
  accounted (with_peers (<[id:=p]> (peers m')) m').
Proof.
  intros [Hp Hc Ho Hf Hi] Hnone Hid Hd Hcl Hcn Hh. unfold dial in Hd.
  assert (Hfr : ∀ id' c', conns m !! id' = Some c' → (c_id c' < next_conn m)%nat)
    by (intros; apply Hf, Ho; eauto).
  subst id.
  destruct (NewClient_err (p_GRPCAddr p)); injection Hd as <- <-; split; cbn.
  - intros id' p' [[<- <-]|[Hne Hid']]%lookup_insert_Some; [|by apply Hp].
    split; [done|]. by rewrite Hh, Hcl, Hcn.
  - intros id' c' Hid'. apply lookup_insert_is_Some'. right. by eapply Hc.
  - done.
  - done.
  - done.
  - intros id' p' [[<- <-]|[Hne Hid']]%lookup_insert_Some.
    + split; [done|]. rewrite Hh, Hcl, Hcn. eexists.
      rewrite lookup_insert_eq. naive_solver.
    + rewrite lookup_insert_ne by done. by apply Hp.
  - intros id' c' Hid'. apply lookup_insert_is_Some'.
    apply lookup_insert_Some in Hid' as [[-> _]|[_ Hid']]; [by left|right].
    by eapply Hc.
  - intros n. rewrite elem_of_union, elem_of_singleton, Ho. split.
    + intros [->|(id' & c' & Hid' & <-)].
      * eexists _, _. by rewrite lookup_insert_eq.
      * exists id', c'. rewrite lookup_insert_ne; [done|].
        intros <-. by simplify_eq.
    + intros (id' & c' & [[<- <-]|[Hne Hid']]%lookup_insert_Some & <-);
        [by left|right; eauto].
  - intros n [->%elem_of_singleton|Hn]%elem_of_union; [lia|].
    apply Hf in Hn. lia.
  - intros id1 id2 c1 c2 [[<- <-]|[Hn1 H1]]%lookup_insert_Some
      [[<- <-]|[Hn2 H2]]%lookup_insert_Some; cbn; [done| | |by apply Hi].
    + intros He. apply Hfr in H2. lia.
    + intros He. apply Hfr in H1. lia.
Qed.

(** Refreshing a peer's [LastSeen] alone. *)
Lemma seen_accounted id p now m :
  accounted m → peers m !! id = Some p →
  accounted (with_peers (<[id := mkPeer (p_ID p) (p_GRPCAddr p) (p_GossipAddr p)
             (p_Client p) (p_Conn p) now (p_Healthy p)]> (peers m)) m).
Proof.
  intros [Hp Hc Ho Hf Hi] Hid. split; cbn; [| |done..].
  - intros id' p' [[<- <-]|[Hne Hid']]%lookup_insert_Some; [|by apply Hp].
    by apply (Hp _ _ Hid).
  - intros id' c' Hid'. apply lookup_insert_is_Some'. right. by eapply Hc.
Qed.

Lemma join_peer_accounted now id member m :
  accounted m → accounted (join_peer now id member m).
Proof.
  intros Hm. unfold join_peer. destruct (peers m !! id) as [p|] eqn:Hid.
  - pose proof (seen_accounted id p now m Hm Hid) as Hs. cbn.
    destruct (p_Healthy p) eqn:Hh; [done|].
    destruct (dial id (p_GRPCAddr p) _) as [[c|] m'] eqn:Hd; cbn.
    + destruct (ac_peer m Hm id p Hid) as [Hpid Hp].
      rewrite Hh in Hp. destruct Hp as (_ & _ & Hnone).
      by eapply (dial_peer_accounted id (mkPeer (p_ID p) (p_GRPCAddr p)
        (p_GossipAddr p) (Some c) (Some c) now true) _ (Some c) m' Hs).
    + unfold dial in Hd.
      destruct (NewClient_err (p_GRPCAddr p)); [|done].
      by injection Hd as <-.
  - destruct (dial id _ m) as [c m'] eqn:Hd.
    assert (Hnone : conns m !! id = None).
    { destruct (conns m !! id) eqn:E; [|done].
      apply (ac_conn m Hm) in E as [? ?]. congruence. }
    eapply (dial_peer_accounted id (mkPeer id _ _ c c now _) m c m' Hm Hnone);
      [done|exact Hd|done..].
Qed.

(** The peers after a join, and which of them got a connection. *)
Lemma join_peer_live now id member m :
  (∀ id p, peers m !! id = Some p → p_Healthy p = true → is_Some (conns m !! id)) →
  ∀ id' p, peers (join_peer now id member m) !! id' = Some p →
    p_Healthy p = true → is_Some (conns (join_peer now id member m) !! id').
Proof.
  intros Hl id' p. unfold join_peer, dial.
  destruct (peers m !! id) as [q|] eqn:Hid; cbn.
  - destruct (p_Healthy q) eqn:Hh; [|destruct (NewClient_err _)]; cbn.
    1-2: intros [[<- <-]|[Hne Hp]]%lookup_insert_Some Hhp; cbn in *; [|by eauto].
    1: by eapply Hl. 1: congruence.
    rewrite insert_insert_eq.
    intros [[<- <-]|[Hne Hp]]%lookup_insert_Some Hhp;
      apply lookup_insert_is_Some'; [by left|right; by eapply Hl].
  - destruct (NewClient_err _); cbn;
      (intros [[<- <-]|[Hne Hp]]%lookup_insert_Some Hhp; cbn in *);
      [done|by eauto|by rewrite lookup_insert_eq|].
    apply lookup_insert_is_Some'. right. by eapply Hl.
Qed.

Lemma join_peer_wf now id member m :
  mesh_wf m → mesh_wf (join_peer now id member m).
Proof.
  intros [Ha Hl]. split; [by apply join_peer_accounted|by apply join_peer_live].
Qed.

(** What a refresh makes of a member: of the peer and connection it had, if
    any, the peer and connection it has afterwards.  [seen] are the times the
    clock gave, [n] the connections made before. *)
Inductive refreshed (seen : Z → Prop) (n : nat) (id : string) (member : MemberInfo)
  : option Peer → option conn → Peer → option conn → Prop :=
| F_kept p c t :
    seen t → p_Healthy p = true →
    refreshed seen n id member (Some p) c
      (mkPeer (p_ID p) (p_GRPCAddr p) (p_GossipAddr p) (p_Client p) (p_Conn p) t true) c
| F_redialled p c t :
    seen t → p_Healthy p = false → NewClient_err (p_GRPCAddr p) = None →
    c_addr c = p_GRPCAddr p → (n <= c_id c)%nat →
    refreshed seen n id member (Some p) None
      (mkPeer (p_ID p) (p_GRPCAddr p) (p_GossipAddr p) (Some c) (Some c) t true) (Some c)
| F_still_down p t e :
    seen t → p_Healthy p = false → NewClient_err (p_GRPCAddr p) = Some e →
    refreshed seen n id member (Some p) None
      (mkPeer (p_ID p) (p_GRPCAddr p) (p_GossipAddr p) None None t false) None
| F_new addr c t :
    seen t →
    (mi_GRPCAddr member ≠ "" → addr = mi_GRPCAddr member) →
    (mi_GRPCAddr member = "" → addr = mi_GossipAddr member) →
    NewClient_err addr = None → c_addr c = addr → (n <= c_id c)%nat →
    refreshed seen n id member None None
      (mkPeer id addr (mi_GossipAddr member) (Some c) (Some c) t true) (Some c)
| F_new_down addr t e :
    seen t →
    (mi_GRPCAddr member ≠ "" → addr = mi_GRPCAddr member) →
    (mi_GRPCAddr member = "" → addr = mi_GossipAddr member) →
    NewClient_err addr = Some e →
    refreshed seen n id member None None
      (mkPeer id addr (mi_GossipAddr member) None None t false) None.

Lemma refreshed_le (seen : Z → Prop) n n' id member p c p' c' :
  (n <= n')%nat → refreshed seen n' id member p c p' c' → refreshed seen n id member p c p' c'.
Proof.
  intros Hn. destruct 1; [by apply F_kept|by apply F_redialled; [..|lia]
    |by eapply F_still_down|by apply F_new; [..|lia]|by eapply F_new_down].
Qed.

(** What a join does: to the peer and connection of its member, and to
    nothing else. *)
Lemma join_peer_refreshed (seen : Z → Prop) now id member m :
  accounted m → seen now →
  let m' := join_peer now id member m in
  (∃ p', peers m' = <[id:=p']> (peers m) ∧
     refreshed seen (next_conn m) id member (peers m !! id) (conns m !! id) p' (conns m' !! id)) ∧
  (∀ id', id' ≠ id → conns m' !! id' = conns m !! id') ∧
  (next_conn m <= next_conn m')%nat ∧ mesh_mu m' = mesh_mu m.
Proof.
  intros Ha Hnow. unfold join_peer, dial. cbv zeta.
  destruct (peers m !! id) as [p|] eqn:Hid.
  - destruct (ac_peer m Ha id p Hid) as [_ Hp]. cbn.
    destruct (p_Healthy p) eqn:Hh.
    { cbn. split; [|by repeat split]. eexists. split; [done|].
      apply (F_kept seen (next_conn m) id member p); done. }
    destruct Hp as (Hcl & Hcn & Hnone). rewrite Hcl, Hcn, Hnone.
    destruct (NewClient_err (p_GRPCAddr p)) as [e|] eqn:He; cbn.
    + split; [|by repeat split]. eexists. split; [done|]. rewrite Hnone.
      by eapply F_still_down.
    + split; [|split; [intros; by apply lookup_insert_ne|split; [lia|done]]].
      eexists. rewrite insert_insert_eq. split; [done|]. rewrite lookup_insert_eq.
      by apply F_redialled.
  - assert (Hnone : conns m !! id = None).
    { destruct (conns m !! id) eqn:E; [|done].
      apply (ac_conn m Ha) in E as [? ?]. congruence. }
    rewrite Hnone. set (addr := if decide _ then _ else _).
    assert (Haddr : (mi_GRPCAddr member ≠ "" → addr = mi_GRPCAddr member) ∧
      (mi_GRPCAddr member = "" → addr = mi_GossipAddr member))
      by (unfold addr; by case_decide).
    destruct Haddr as [H1 H2]. destruct (NewClient_err addr) as [e|] eqn:He; cbn.
    + split; [|by repeat split]. eexists. split; [done|]. rewrite Hnone.
      by eapply F_new_down.
    + split; [|split; [intros; by apply lookup_insert_ne|split; [lia|done]]].
      eexists. split; [done|]. rewrite lookup_insert_eq. by apply F_new.
Qed.
End join.

(** ** [refresh] follows the membership *)

Lemma current_members_dom self members id :
  is_Some (current_members self members !! id) ↔
    id ≠ self ∧ ∃ mem, mem ∈ members ∧ mi_ID mem = id.
Proof.
  unfold current_members.
  assert (H : ∀ cur : gmap string MemberInfo,
    is_Some (foldl (λ cur mem, if decide (mi_ID mem = self) then cur
                     else <[mi_ID mem := mem]> cur) cur members !! id) ↔
    is_Some (cur !! id) ∨ id ≠ self ∧ ∃ mem, mem ∈ members ∧ mi_ID mem = id).
  { induction members as [|mem members IH]; intros cur; cbn.
    - split; [by left|]. intros [?|(_ & ? & []%elem_of_nil & _)]; done.
    - rewrite IH. destruct (decide (mi_ID mem = self)) as [Hs|Hs].
      + set_unfold. naive_solver.
      + rewrite lookup_insert_is_Some'. set_unfold. naive_solver. }
  rewrite H, lookup_empty. split; [intros [[? ?]|?]; done|by right].
Qed.

Section refresh_facts.
Context {S : Type} `{GrpcDial} (ml : lens S Mesh).
Context (onPeerRemoved : option (string → go S unit)).

(** The callback returns, leaves the mesh alone, and its calls are recorded
    in [log]. *)
Definition callback_logs (log : S → list string) : Prop :=
  (∀ m s, log (lput ml m s) = log s) ∧
  ∀ cb env i s id, onPeerRemoved = Some cb →
    ∃ s' fs j, exec env i (cb id) s = Done tt s' fs j ∧
      lget ml s' = lget ml s ∧ log s' = log s ++ [id].

Context (log : S → list string) (callback_ok : callback_logs log).

(** The calls that removing [ids] makes. *)
Definition calls (ids : list string) : list string :=
  match onPeerRemoved with Some _ => ids | None => [] end.

Lemma exec_drop_if_gone env i s current id :
  ∃ s' fs j, exec env i (drop_if_gone ml onPeerRemoved current id) s
               = Done tt s' fs j ∧
    match current !! id with
    | Some _ => lget ml s' = lget ml s ∧ log s' = log s
    | None => lget ml s' = drop_peer id (lget ml s) ∧ log s' = log s ++ calls [id]
    end.
Proof.
  destruct callback_ok as [Hput Hcb]. unfold drop_if_gone, calls. destruct (current !! id).
  { by exists s, [], i. }
  cbn. set (s1 := lput ml _ s).
  assert (Hs1 : lget ml s1 = drop_peer id (lget ml s)) by apply lget_put.
  destruct onPeerRemoved as [cb|].
  - destruct (Hcb cb env i s1 id eq_refl) as (s' & fs & j & -> & Hs' & Hlog).
    exists s', fs, j. rewrite Hs', Hs1, Hlog. by unfold s1; rewrite Hput.
  - exists s1, [], i. split; [done|]. split; [done|]. unfold s1.
    by rewrite Hput, app_nil_r.
Qed.

Context (current : gmap string MemberInfo) (m : Mesh) (s0 : S).

(** The invariant of the first loop: [l] is what is left to visit of [ids]. *)
Definition gone (ids : list string) : list string :=
  filter (λ id, current !! id = None) ids.

Definition dropping (ids l : list string) (s : S) : Prop :=
  mesh_wf (lget ml s) ∧ mesh_mu (lget ml s) = true ∧
  next_conn (lget ml s) = next_conn m ∧
  (∀ id, peers (lget ml s) !! id =
     if decide (id ∈ l ∨ is_Some (current !! id)) then peers m !! id else None) ∧
  (∀ id, conns (lget ml s) !! id =
     if decide (id ∈ l ∨ is_Some (current !! id)) then conns m !! id else None) ∧
  ∃ past, ids = past ++ l ∧ log s = log s0 ++ calls (gone past).

Lemma calls_snoc past id :
  calls (gone past) ++ (if decide (current !! id = None) then calls [id] else [])
    = calls (gone (past ++ [id])).
Proof.
  unfold calls, gone. rewrite filter_app, filter_cons. change (filter _ []) with (@nil string).
  destruct (decide _), onPeerRemoved; rewrite ?app_nil_r; done.
Qed.

Lemma drop_peer_fields id n :
  next_conn (drop_peer id n) = next_conn n ∧
  conns (drop_peer id n) = delete id (conns n).
Proof.
  unfold drop_peer. cbn. rewrite close_conn_conns. split; [|done].
  unfold close_conn. by destruct (conns n !! id).
Qed.

Lemma exec_dropping env ids l i s :
  NoDup ids → dropping ids l s →
  ∃ s' fs j, exec env i (for_each (drop_if_gone ml onPeerRemoved current) l) s
               = Done tt s' fs j ∧ dropping ids [] s'.
Proof.
  intros Hnd. apply exec_for_each. clear l i s.
  intros id l i s (Hwf & Hmu & Hn & Hp & Hc & past & Hids & Hlog).
  assert (Hid : id ∉ l).
  { rewrite Hids in Hnd. apply NoDup_app in Hnd as (_ & _ & Hnd).
    by apply NoDup_cons in Hnd as [? _]. }
  destruct (exec_drop_if_gone env i s current id) as (s' & fs & j & Hex & Hs').
  exists s', fs, j. split; [done|].
  assert (Hlog' : ∀ c, log s' = log s ++ c →
    c = (if decide (current !! id = None) then calls [id] else []) →
    ∃ past, ids = past ++ l ∧ log s' = log s0 ++ calls (gone past)).
  { intros c -> ->. exists (past ++ [id]). rewrite <- app_assoc.
    split; [exact Hids|]. by rewrite <- calls_snoc, Hlog, app_assoc. }
  destruct (current !! id) as [mem|] eqn:Hcur; destruct Hs' as [Hs' Hl'];
    unfold dropping; rewrite Hs'.
  - do 3 (split; [done|]). rewrite (decide_False (P:=Some mem = None)) in Hlog' by done.
    assert (Hkeep : ∀ id', id' ∈ id :: l ∨ is_Some (current !! id') ↔
                           id' ∈ l ∨ is_Some (current !! id')).
    { intros id'. rewrite elem_of_cons. split; [|tauto].
      intros [[->|]|]; [right; eauto|tauto|tauto]. }
    split; [intros id'; rewrite Hp; apply decide_ext, Hkeep|].
    split; [intros id'; rewrite Hc; apply decide_ext, Hkeep|].
    apply (Hlog' []); [|done]. by rewrite app_nil_r.
  - destruct (drop_peer_fields id (lget ml s)) as [Hn' Hc'].
    split; [by apply drop_peer_wf|]. split; [by rewrite drop_peer_mu|].
    split; [by rewrite Hn'|]. rewrite decide_True in Hlog' by done.
    split; [|split; [|by apply (Hlog' (calls [id]))]]; intros id'.
    + rewrite drop_peer_peers. destruct (decide (id' = id)) as [->|Hne].
      * rewrite lookup_delete_eq, decide_False; [done|]. intros [?|[? ?]]; [done|congruence].
      * rewrite lookup_delete_ne, Hp by done. apply decide_ext. rewrite elem_of_cons. tauto.
    + rewrite Hc'. destruct (decide (id' = id)) as [->|Hne].
      * rewrite lookup_delete_eq, decide_False; [done|]. intros [?|[? ?]]; [done|congruence].
      * rewrite lookup_delete_ne, Hc by done. apply decide_ext. rewrite elem_of_cons. tauto.
Qed.

(** The invariant of the second loop: [l] is what is left to join. *)
Definition joining (seen : Z → Prop) (l : list (string * MemberInfo)) (s : S) : Prop :=
  NoDup l.*1 ∧ (∀ e, e ∈ l → current !! e.1 = Some e.2) ∧
  mesh_wf (lget ml s) ∧ mesh_mu (lget ml s) = true ∧
  (next_conn m <= next_conn (lget ml s))%nat ∧ log s = log s0 ∧
  ∀ id,
    let p' := peers (lget ml s) !! id in let c' := conns (lget ml s) !! id in
    match current !! id with
    | None => p' = None ∧ c' = None
    | Some member =>
        if decide (id ∈ l.*1) then p' = peers m !! id ∧ c' = conns m !! id
        else ∃ p, p' = Some p ∧
               refreshed seen (next_conn m) id member (peers m !! id) (conns m !! id) p c'
    end.

Lemma exec_joining (env : environment) l i s :
  let seen t := ∃ j, t = env _ QNow j in
  joining seen l s →
  ∃ s' fs j, exec env i (for_each (join_one ml) l) s = Done tt s' fs j ∧
    joining seen [] s'.
Proof.
  intros seen. apply exec_for_each. clear l i s.
  intros [id member] l i s (Hnd & Hcur & Hwf & Hmu & Hn & Hlog & Hid).
  cbn [fmap list_fmap fst] in Hnd. apply NoDup_cons in Hnd as [Hnotin Hnd].
  unfold join_one. cbn. do 3 eexists. split; [reflexivity|].
  set (now := env _ QNow i). set (m1 := lget ml s) in *.
  destruct (join_peer_refreshed seen now id member m1 (wf_accounted m1 Hwf)
    ltac:(by exists i)) as ((p' & Hps & Href) & Hcs & Hn' & Hmu').
  unfold joining. rewrite lget_put.
  split; [done|]. split; [intros; apply Hcur; by right|].
  split; [by apply join_peer_wf|]. split; [congruence|]. split; [lia|].
  split; [rewrite <- Hlog; apply callback_ok|].
  assert (Hmem : current !! id = Some member) by (apply (Hcur (id, member)); by left).
  intros id'. cbv zeta. rewrite Hps. specialize (Hid id').
  destruct (decide (id' = id)) as [->|Hne].
  - rewrite Hmem in Hid |- *. rewrite decide_False by done. rewrite lookup_insert_eq.
    rewrite decide_True in Hid by (by left). destruct Hid as [Hp Hc].
    exists p'. split; [done|]. rewrite <- Hp, <- Hc. by eapply refreshed_le.
  - rewrite lookup_insert_ne, Hcs by done. destruct (current !! id') as [mem'|]; [|done].
    destruct (decide (id' ∈ l.*1)) as [Hin|Hout].
    + rewrite decide_True in Hid by (by right). exact Hid.
    + rewrite decide_False in Hid; [exact Hid|]. cbn. by apply not_elem_of_cons.
Qed.
End refresh_facts.

(** A connection of a peer that left is closed. *)
Lemma departed_closed `{GrpcDial} seen (m m' : Mesh) (current : gmap string MemberInfo) :
  mesh_wf m → mesh_wf m' →
  (∀ id, match current !! id with
         | None => peers m' !! id = None ∧ conns m' !! id = None
         | Some member => ∃ p, peers m' !! id = Some p ∧
             refreshed seen (next_conn m) id member (peers m !! id) (conns m !! id) p
               (conns m' !! id)
         end) →
  ∀ id c, conns m !! id = Some c → current !! id = None → c_id c ∉ open_conns m'.
Proof.
  intros Hm Hm' Hall id c Hc Hgone Hopen.
  apply (ac_open m' (wf_accounted m' Hm')) in Hopen as (id2 & c2 & Hc2 & Heq).
  specialize (Hall id2). destruct (current !! id2) as [mem|] eqn:E; [|naive_solver].
  destruct Hall as (p & _ & Href). rewrite Hc2 in Href.
  assert (Hopen : c_id c ∈ open_conns m) by (apply (ac_open m (wf_accounted m Hm)); eauto).
  apply (ac_fresh m (wf_accounted m Hm)) in Hopen.
  inversion Href; subst; [|lia..].
  assert (id2 = id) as -> by (by eapply (ac_inj m (wf_accounted m Hm))). congruence.
Qed.

(** The members that are kept are members. *)
Lemma current_members_elem self members id mem :
  current_members self members !! id = Some mem → mem ∈ members ∧ mi_ID mem = id.
Proof.
  unfold current_members.
  assert (H : ∀ cur : gmap string MemberInfo,
    foldl (λ cur mem, if decide (mi_ID mem = self) then cur
             else <[mi_ID mem := mem]> cur) cur members !! id = Some mem →
    cur !! id = Some mem ∨ mem ∈ members ∧ mi_ID mem = id).
  { induction members as [|m members IH]; intros cur; cbn; [by left|].
    intros [Hc|[Hin Hid]]%IH; [|right; split; [by right|done]].
    destruct (decide _); [by left|].
    apply lookup_insert_Some in Hc as [[<- <-]|[_ Hc]]; [right; split; [by left|done]|by left]. }
  intros Hm. apply H in Hm as [Hm|?]; [|done]. by rewrite lookup_empty in Hm.
Qed.

Lemma elem_of_keys {V} (t : gmap string V) id :
  id ∈ (map_to_list t).*1 ↔ is_Some (t !! id).
Proof.
  rewrite list_elem_of_fmap. split.
  - intros ([k v] & -> & Hk%elem_of_map_to_list). by eexists.
  - intros [v Hv]. exists (id, v). by rewrite elem_of_map_to_list.
Qed.

(** Both loops, one after the other. *)
Lemma exec_refresh {S} `{GrpcDial} (ml : lens S Mesh) Discover removed
    (log : S → list string) (env : environment) i s members s1 fs1 j1 :
  callback_logs ml removed log →
  (∀ j, valid_answer QOrder (env _ QOrder j)) →
  exec env i Discover s = Done (members, None) s1 fs1 j1 →
  mesh_wf (lget ml s1) → mesh_mu (lget ml s1) = false →
  let m := lget ml s1 in
  let current := current_members (mesh_instanceID m) members in
  ∃ s' fs j ids s4, exec env i (refresh ml Discover removed) s = Done tt s' fs j ∧
    lget ml s' = with_mesh_mu false (lget ml s4) ∧ log s' = log s4 ∧
    ids ≡ₚ (map_to_list (peers m)).*1 ∧
    ∃ s3, log s3 = log s1 ++ calls removed (gone current ids) ∧
      joining ml log current m s3 (λ t, ∃ j, t = env _ QNow j) [] s4.
Proof.
  intros Hcb Hord Hdisc Hwf Hmu m current. unfold refresh.
  rewrite exec_bind, Hdisc. cbn. rewrite Hmu. fold m current.
  set (s2 := lput ml _ s1).
  assert (Hm2 : lget ml s2 = with_mesh_mu true m) by apply lget_put.
  set (ids := env _ QOrder j1 _ _).
  assert (Hids : ids ≡ₚ (map_to_list (peers m)).*1).
  { subst ids. rewrite (Hord j1), Hm2. done. }
  assert (Hnd : NoDup ids) by (rewrite Hids; apply NoDup_fst_map_to_list).
  destruct (exec_dropping ml removed log Hcb current m s1 env ids ids
              (Datatypes.S j1) s2 Hnd) as (s3 & fs3 & j3 & Hex3 & H3).
  { unfold dropping. rewrite Hm2. split; [by apply mesh_wf_mu|]. do 2 (split; [done|]).
    assert (Hin : ∀ id, is_Some (peers m !! id) → id ∈ ids)
      by (intros id Hid; rewrite Hids; by apply elem_of_keys).
    split; [|split]; [intros id..|exists []; split; [done|]]; cbn.
    - destruct (decide _) as [|Hn]; [done|]. apply eq_None_not_Some. auto.
    - destruct (decide _) as [|Hn]; [done|]. apply eq_None_not_Some. intros [c Hc].
      apply Hn. left. apply Hin. by apply (ac_conn m (wf_accounted m Hwf) id c).
    - unfold s2, calls, gone. rewrite (proj1 Hcb). destruct removed; by rewrite app_nil_r. }
  rewrite exec_bind, Hex3. cbn. destruct H3 as (Hwf3 & Hmu3 & Hn3 & Hp3 & Hc3 & past & E & Hlog3).
  rewrite app_nil_r in E. subst past.
  set (l := env _ QOrder j3 _ _).
  assert (Hl : l ≡ₚ map_to_list current) by apply Hord.
  destruct (exec_joining ml removed log Hcb current m s3 env l (Datatypes.S j3) s3)
    as (s4 & fs4 & j4 & Hex4 & H4).
  { split; [rewrite Hl; apply NoDup_fst_map_to_list|].
    split; [intros [k v]; rewrite Hl; apply elem_of_map_to_list|].
    do 2 (split; [done|]). split; [lia|]. split; [done|]. intros id.
    cbv zeta. rewrite Hp3, Hc3. destruct (current !! id) as [mem|] eqn:Hid.
    - rewrite (decide_True (P:=id ∈ l.*1)), !decide_True; [done|by right; eauto..|].
      rewrite Hl. apply elem_of_keys. eauto.
    - rewrite !decide_False; [done|..]; (intros [?%elem_of_nil|[? ?]]; done). }
  rewrite exec_bind, Hex4. cbn. do 3 eexists. exists ids, s4. split; [reflexivity|].
  rewrite lget_put, (proj1 Hcb). do 3 (split; [done|]). by exists s3.
Qed.

(** C25: the mesh follows the membership.  When the discovery succeeds, a
    refresh ends, with the mesh unlocked, with one peer per other member and
    no others.  Each is connected, unless dialling its address fails: a peer
    that was connected keeps its connection, one that was not is dialled
    again at the address it had, and a new one at its gRPC address, or at its
    gossip address when it has none.  Every peer's [LastSeen] is a reading of
    the clock.  The removal callback ran once for each peer that left and for
    no other, and the connections of those are closed; every connection grpc
    holds open belongs to exactly one healthy peer. *)
Theorem refresh_spec {S} `{GrpcDial} (ml : lens S Mesh) Discover removed
    (log : S → list string) (env : environment) i s members s1 fs1 j1 :
  callback_logs ml removed log →
  (∀ j, valid_answer QOrder (env _ QOrder j)) →
  exec env i Discover s = Done (members, None) s1 fs1 j1 →
  mesh_wf (lget ml s1) → mesh_mu (lget ml s1) = false →
  ∃ s' fs j left, exec env i (refresh ml Discover removed) s = Done tt s' fs j ∧
    let m := lget ml s1 in let m' := lget ml s' in
    mesh_wf m' ∧ mesh_mu m' = false ∧
    (∀ id, is_Some (peers m' !! id) ↔
       id ≠ mesh_instanceID m ∧ ∃ mem, mem ∈ members ∧ mi_ID mem = id) ∧
    (∀ id p', peers m' !! id = Some p' →
       ∃ mem, mem ∈ members ∧ mi_ID mem = id ∧
         refreshed (λ t, ∃ j, t = env _ QNow j) (next_conn m) id mem
           (peers m !! id) (conns m !! id) p' (conns m' !! id)) ∧
    (NoDup left ∧ ∀ id, id ∈ left ↔ is_Some (peers m !! id) ∧ peers m' !! id = None) ∧
    log s' = log s1 ++ match removed with Some _ => left | None => [] end ∧
    (∀ id c, id ∈ left → conns m !! id = Some c →
       conns m' !! id = None ∧ c_id c ∉ open_conns m').
Proof.
  intros Hcb Hord Hdisc Hwf Hmu.
  destruct (exec_refresh ml Discover removed log env i s members s1 fs1 j1 Hcb Hord Hdisc Hwf Hmu)
    as (s' & fs & j & ids & s4 & Hex & Hm' & Hlog' & Hids & s3 & Hlog3 & H4).
  set (m := lget ml s1) in *. set (current := current_members (mesh_instanceID m) members) in *.
  destruct H4 as (_ & _ & Hwf4 & _ & _ & Hlog4 & Hall).
  exists s', fs, j, (gone current ids). split; [exact Hex|]. cbv zeta.
  rewrite Hm', Hlog', Hlog4, Hlog3. cbn.
  assert (Hdom : ∀ id, is_Some (peers (lget ml s4) !! id) ↔ is_Some (current !! id)).
  { intros id. specialize (Hall id). cbv zeta in Hall. destruct (current !! id).
    - destruct Hall as (p & -> & _). by split; eauto.
    - destruct Hall as [-> _]. done. }
  assert (Hgone : ∀ id, id ∈ gone current ids ↔ current !! id = None ∧ is_Some (peers m !! id)).
  { intros id. unfold gone. rewrite list_elem_of_filter, Hids. by rewrite elem_of_keys. }
  split; [by apply mesh_wf_mu|]. split; [done|].
  split; [intros id; rewrite Hdom; apply current_members_dom|]. split; [|split; [split|split]].
  - intros id p' Hp'. specialize (Hall id). cbv zeta in Hall.
    destruct (current !! id) as [mem|] eqn:Hmem; [|by destruct Hall; congruence].
    destruct Hall as (p & Hp & Href). rewrite Hp' in Hp. injection Hp as <-.
    exists mem. destruct (current_members_elem _ _ _ _ Hmem). done.
  - unfold gone. apply NoDup_filter. rewrite Hids. apply NoDup_fst_map_to_list.
  - intros id. rewrite Hgone, !eq_None_not_Some, Hdom. tauto.
  - done.
  - intros id c [Hid _]%Hgone Hc. specialize (Hall id) as Hid'. cbv zeta in Hid'.
    rewrite Hid in Hid'. split; [apply Hid'|].
    by apply (departed_closed (λ t, ∃ j, t = env _ QNow j) m (lget ml s4) current Hwf Hwf4 Hall id).
Qed.

Definition always_dials : GrpcDial := {| NewClient_err _ := None |}.

(** A mesh beside the list of the peers reported gone. *)
Program Definition logged_mesh : lens (Mesh * list string) Mesh :=
  {| lget := fst; lput m s := (m, s.2) |}.
Next Obligation. done. Qed.
Definition report_gone (id : string) : go (Mesh * list string) unit :=
  atomically (λ s, (tt, (s.1, s.2 ++ [id]))).

(** "old" left and "a" came: "a" is connected, "old" is reported. *)
Lemma refresh_spec_witness :
  let disc : go (Mesh * list string) _ :=
    Ret ([mkMember "a" "a:1" "" ∅ 1; mkMember "me" "" "" ∅ 1], None) in
  let m := @join_peer always_dials 1 "old" (mkMember "old" "o:1" "" ∅ 1) (NewMesh "me") in
  ∃ s' fs j p c,
    exec (clock_env 5) 0 (@refresh _ always_dials logged_mesh disc (Some report_gone)) (m, [])
      = Done tt s' fs j ∧
    peers s'.1 !! "a" = Some p ∧ p_Client p = Some c ∧ conns s'.1 !! "a" = Some c ∧
    s'.2 = ["old"] ∧ 0%nat ∉ open_conns s'.1.
Proof.
  intros disc m.
  destruct (@refresh_spec _ always_dials logged_mesh disc (Some report_gone) snd (clock_env 5) 0
              (m, []) [mkMember "a" "a:1" "" ∅ 1; mkMember "me" "" "" ∅ 1] (m, []) [] 0)
    as (s' & fs & j & left & Hex & _ & _ & Hdom & Href & [Hnd Hleft] & Hlog & Hclosed).
  - split; [done|]. intros cb env i s id [= <-]. by do 3 eexists.
  - intros j A l. reflexivity.
  - reflexivity.
  - apply join_peer_wf, NewMesh_wf.
  - reflexivity.
  - assert (Hs : is_Some (peers s'.1 !! "a")).
    { apply Hdom. split; [discriminate|]. eexists. split; [by left|done]. }
    destruct Hs as [p Hp].
    destruct (Href "a" p Hp) as (mem & _ & _ & Hr).
    assert (Hold : left ≡ₚ ["old"]).
    { apply NoDup_Permutation; [exact Hnd|apply NoDup_singleton|]. intros id.
      rewrite list_elem_of_singleton, Hleft. split.
      - intros [Hid _]. destruct (decide (id = "old")) as [|Hne]; [done|]. exfalso.
        assert (Hm : ∃ q, peers m = <["old":=q]> ∅) by (eexists; reflexivity).
        destruct Hm as [q Hm]. change (is_Some (peers m !! id)) in Hid. rewrite Hm in Hid.
        rewrite lookup_insert_ne, lookup_empty in Hid by done. by destruct Hid.
      - intros ->. split; [by eexists|]. apply eq_None_not_Some.
        intros [_ (mem' & Hin & E)]%Hdom. cbn in Hin.
        apply elem_of_cons in Hin as [->|Hin%list_elem_of_singleton]; [discriminate E|].
        subst mem'. discriminate E. }
    apply Permutation_singleton_r in Hold as ->.
    destruct (Hclosed "old" (mkConn 0 "o:1")) as [_ Hcl]; [by left|reflexivity|].
    exists s', fs, j, p. change (peers (lget logged_mesh (m, [])) !! "a") with (@None Peer) in Hr.
    inversion Hr as [| | |addr c t H1 H2 H3 Herr H4 H5 E1 E2 E3 E4|addr t e H1 H2 H3 Herr];
      [|discriminate Herr].
    exists c. split; [exact Hex|]. split; [rewrite E3; exact Hp|]. split; [reflexivity|].
    split; [reflexivity|]. split; [exact Hlog|exact Hcl].
Defined.

(** ** [Stop] *)

(** The invariant of the loop of [Stop]: [l] is what is left to close. *)
Definition closing (l : list string) (m : Mesh) : Prop :=
  (∀ id c, conns m !! id = Some c → id ∈ l) ∧ accounted m.

Lemma closing_step id l m : closing (id :: l) m → closing l (close_conn id m).
Proof.
  intros [Hc Ha]. split; [|by apply close_conn_accounted].
  intros id' c. rewrite close_conn_conns. intros [Hne Hid]%lookup_delete_Some.
  apply Hc, elem_of_cons in Hid as [->|]; done.
Qed.

Lemma exec_closing {S} (ml : lens S Mesh) env l i s :
  closing l (lget ml s) →
  ∃ s' fs j,
    exec env i (for_each (λ id, zoom_modify ml (close_conn id)) l) s
      = Done tt s' fs j ∧ closing [] (lget ml s').
Proof.
  apply (exec_for_each env _ (λ l s, closing l (lget ml s))).
  clear. intros id l i s Hs. cbn. do 3 eexists. split; [reflexivity|].
  rewrite lget_put. by apply closing_step.
Qed.

Lemma closing_nil m : closing [] m → conns m = ∅ ∧ open_conns m = ∅.
Proof.
  intros [Hc Ha].
  assert (He : conns m = ∅).
  { apply map_eq. intros id. rewrite lookup_empty.
    destruct (conns m !! id) eqn:E; [|done]. by apply Hc, elem_of_nil in E. }
  split; [done|]. apply set_eq. intros n.
  rewrite (ac_open m Ha), He. split; [|by intros ?%elem_of_empty].
  intros (id & c & Hid & _). by rewrite lookup_empty in Hid.
Qed.

(** [Stop] leaves nothing open: from any mesh whose connections are
    accounted for, it ends with no connection in [conns] and none held open
    by grpc, and with the mesh unlocked. *)
Theorem mesh_Stop_closes {S} (ml : lens S Mesh) (env : environment) i s :
  (∀ j, valid_answer QOrder (env _ QOrder j)) →
  accounted (lget ml s) → mesh_mu (lget ml s) = false →
  ∃ s' fs j, exec env i (mesh_Stop ml) s = Done tt s' fs j ∧
    conns (lget ml s') = ∅ ∧ open_conns (lget ml s') = ∅ ∧
    mesh_mu (lget ml s') = false.
Proof.
  intros Hord Hwf Hmu. unfold mesh_Stop. cbn. rewrite Hmu.
  set (s1 := lput ml _ s).
  assert (Hm1 : lget ml s1 = with_mesh_mu true (lget ml s)) by apply lget_put.
  set (ids := env _ QOrder _ _ _).
  assert (Hids : ids ≡ₚ (map_to_list (conns (lget ml s))).*1).
  { subst ids. rewrite (Hord i), Hm1. done. }
  destruct (exec_closing ml env ids (Datatypes.S i) s1)
    as (s2 & fs & j & Hex & [Hc Ho]%closing_nil).
  { rewrite Hm1. cbn. split; [|by apply accounted_mu].
    intros id c Hid. rewrite Hids. apply elem_of_map_to_list in Hid.
    by apply (list_elem_of_fmap_2 fst) in Hid. }
  rewrite exec_bind, Hex. cbn. do 3 eexists. split; [reflexivity|].
  by rewrite lget_put.
Qed.

Lemma mesh_Stop_closes_witness :
  ∃ s' fs j, exec (clock_env 5) 0 (@mesh_Stop Mesh lens_id)
    (@join_peer always_dials 1 "a" (mkMember "a" "a:1" "" ∅ 1) (NewMesh "me"))
      = Done tt s' fs j ∧ open_conns s' = ∅.
Proof.
  destruct (@mesh_Stop_closes Mesh lens_id (clock_env 5) 0
    (@join_peer always_dials 1 "a" (mkMember "a" "a:1" "" ∅ 1) (NewMesh "me")))
    as (s' & fs & j & Hex & _ & Ho & _).
  - intros j A l. reflexivity.
  - apply join_peer_accounted, NewMesh_accounted.
  - reflexivity.
  - exists s', fs, j. split; [exact Hex|exact Ho].
Defined.
