(* ===== verification/Peer.v ===== *)
(** * Peer: moving tokens between instances (internal/peer)

    [TokenServer] answers transfer and gossip requests; [Acquirer] ranks the
    peers, asks them for tokens one after the other or all at once, and hands
    the tokens of late answers to a callback.  grpc carries the calls: a call
    may be refused, or abandoned by its caller while its handler still runs
    (a timeout).  The interfaces of acquirer.go are classes. *)

From S2P Require Export Mesh Router.

(** ** Requests (protocol.go) *)

(** The fields the code reads of [kratev1.TransferRequest]. *)
Record TransferRequest := mkTransfer {
  LimitKey : string; Requested : Z; OriginId : string;
}.

Definition ValidateTransferRequest (req : TransferRequest) : option error :=
  if decide (LimitKey req = "") then Some (ErrMsg "missing limit_key")
  else if Requested req =? 0 then Some (ErrMsg "requested must be > 0")
  else if decide (OriginId req = "") then Some (ErrMsg "missing origin_id")
  else None.

(** ** The server (server.go) *)

Inductive code := InvalidArgument | FailedPrecondition | Internal.

(** [status.Error(code, msg)]. *)
Record status := mkStatus { st_code : code; st_msg : string }.

Definition code_String (c : code) : string :=
  match c with
  | InvalidArgument => "InvalidArgument"
  | FailedPrecondition => "FailedPrecondition"
  | Internal => "Internal"
  end.

(** A status as the caller's error. *)
Definition status_error (st : status) : error :=
  ErrMsg ("rpc error: code = " +:+ code_String (st_code st) +:+ " desc = "
          +:+ st_msg st).

Record TokenServer (S : Type) := mkServer {
  srv_instanceID : string;
  tokenAccessor : option (string → Z → go S (Z * option error));
  tokenTransferer : option (string → Z → go S (Z * option error));
  gossipHandler : option (string → gmap string Z → gmap string Z →
                          go S (option error));
}.
Arguments mkServer {S}.
Arguments srv_instanceID {S} t.
Arguments tokenAccessor {S} t.
Arguments tokenTransferer {S} t.
Arguments gossipHandler {S} t.

Definition NewTokenServer {S} (instanceID : string) : TokenServer S :=
  mkServer instanceID None None None.
Definition SetTokenAccessor {S} fn (s : TokenServer S) : TokenServer S :=
  mkServer (srv_instanceID s) (Some fn) (tokenTransferer s) (gossipHandler s).
Definition SetTokenTransferer {S} fn (s : TokenServer S) : TokenServer S :=
  mkServer (srv_instanceID s) (tokenAccessor s) (Some fn) (gossipHandler s).
Definition SetGossipHandler {S} fn (s : TokenServer S) : TokenServer S :=
  mkServer (srv_instanceID s) (tokenAccessor s) (tokenTransferer s) (Some fn).

Section server.
Context {S : Type} (s : TokenServer S).

Definition TransferTokens (req : TransferRequest) : go S (status + Z) :=
  match ValidateTransferRequest req with
  | Some err => Ret (inl (mkStatus InvalidArgument (err_Error err)))
  | None =>
      if decide (OriginId req = srv_instanceID s)
      then Ret (inl (mkStatus FailedPrecondition "cycle detected"))
      else
        match tokenAccessor s, tokenTransferer s with
        | Some accessor, Some transferer =>
            do! (surplus, err) <- accessor (LimitKey req) (Requested req);
            match err with
            | Some e => Ret (inl (mkStatus Internal (err_Error e)))
            | None =>
                if surplus =? 0 then Ret (inr 0)
                else
                  let amount := if surplus <? Requested req then surplus
                                else Requested req in
                  do! (granted, err) <- transferer (LimitKey req) amount;
                  match err with
                  | Some e => Ret (inl (mkStatus Internal (err_Error e)))
                  | None => Ret (inr granted)
                  end
            end
        | _, _ => Ret (inl (mkStatus Internal "token functions not configured"))
        end
  end.

Definition Ping : go S (status + unit) := Ret (inr tt).

Definition Gossip (originId : string) (consumed borrowed : gmap string Z)
  : go S (status + unit) :=
  match gossipHandler s with
  | None => Ret (inr tt)
  | Some h =>
      do! err <- h originId consumed borrowed;
      match err with
      | Some e => Ret (inl (mkStatus Internal (err_Error e)))
      | None => Ret (inr tt)
      end
  end.
End server.

(** ** Listening

    The other half of the Go struct: the listener ([lis], as the address it
    got) and the grpc server object, which is nil before [Start] and refuses
    new calls once it was stopped.  [net.Listen] is the operating system's. *)

Class NetListen := {
  Listen_err : string → option error;
  Listen_addr : string → string;
}.

Record listener := mkListener {
  ln_lis : option string; ln_server : bool; ln_stopped : bool;
}.

Definition no_listener : listener := mkListener None false false.

Section listening.
Context {S : Type} `{NetListen} (sl : lens S listener).

(** [Serve] returns when the server was stopped. *)
Definition srv_Serve : go S unit :=
  await (λ s, if ln_stopped (lget sl s) then Some (tt, s) else None).

Definition srv_Start (port : string) : go S (option error) :=
  match Listen_err port with
  | Some err => Ret (Some err)
  | None =>
      zoom_modify sl (λ v, mkListener (Some (Listen_addr port)) (ln_server v)
                             (ln_stopped v)) ;;;
      zoom_modify sl (λ v, mkListener (ln_lis v) true false) ;;;
      fork srv_Serve ;;;
      Ret None
  end.

Definition srv_Addr : go S string :=
  zoom_reads sl (λ v, default "" (ln_lis v)).

(** [GracefulStop]; the calls still running are other goroutines. *)
Definition srv_Stop : go S unit :=
  zoom_modify sl (λ v, if ln_server v then mkListener (ln_lis v) true true else v).
End listening.

(** ** Calls (client.go)

    [serve] says whose server listens at an address. *)

Section calls.
Context {S : Type} (serve : string → option (TokenServer S)).

Definition rpc {A} (addr : string) (handler : TokenServer S → go S (status + A))
  : go S (error + A) :=
  do! e <- ask QRpc;
  match e, serve addr with
  | RRefused e, _ => Ret (inl e)
  | ROk, Some srv =>
      do! r <- handler srv;
      Ret (match r with inl st => inl (status_error st) | inr a => inr a end)
  | RAbandoned e, Some srv => fork (handler srv ;;; Ret tt) ;;; Ret (inl e)
  | ROk, None => Ret (inl (ErrMsg "connection refused"))
  | RAbandoned e, None => Ret (inl e)
  end.

(** [PeerClient.RequestTokens]; its timeout is one of the ways the call
    ends. *)
Definition PC_RequestTokens (client : conn) (originID limitKey : string)
    (need : Z) : go S (Z * option error) :=
  do! r <- rpc (c_addr client)
             (λ srv, TransferTokens srv (mkTransfer limitKey need originID));
  Ret (match r with inl e => (0, Some e) | inr g => (g, None) end).
End calls.

(** ** The acquirer (acquirer.go) *)

Class PeerLookup (S C : Type) := {
  lookup_client : string → go S (option C);
}.
Class PeerRanker (S : Type) := {
  rank_peers : Z → string → go S (list PeerEntry);
}.
Class TokenRequester (S C : Type) := {
  RequestTokens : C → string → string → Z → go S (Z * option error);
}.

(** The buffered channel of [probeParallel]. *)
Record chan := mkChan { ch_cap : nat; ch_buf : list (Z * option error) }.

(** The channels made so far, by the key they were made for. *)
Abbreviation chans := (gmap string (list chan)).

Inductive probe_mode := ProbeParallel | ProbeSequential.

Record Acquirer (S : Type) := mkAcquirer {
  originID : string;
  probeK : Z;
  mode : probe_mode;
  onProbeResult : option (string → string → string → go S unit);
  onExtraTokens : option (string → Z → go S unit);
}.
Arguments mkAcquirer {S}.
Arguments originID {S} a.
Arguments probeK {S} a.
Arguments mode {S} a.
Arguments onProbeResult {S} a.
Arguments onExtraTokens {S} a.

Definition NewAcquirer {S} (originID : string) (probeK : Z) (mode : probe_mode)
  : Acquirer S := mkAcquirer originID probeK mode None None.
Definition SetProbeResultCallback {S} fn (a : Acquirer S) : Acquirer S :=
  mkAcquirer (originID a) (probeK a) (mode a) (Some fn) (onExtraTokens a).
Definition SetExtraTokensCallback {S} fn (a : Acquirer S) : Acquirer S :=
  mkAcquirer (originID a) (probeK a) (mode a) (onProbeResult a) (Some fn).
Definition ProbeK {S} (a : Acquirer S) : Z := probeK a.

Section channels.
Context {S : Type} (cl : lens S chans).

Definition chans_of (key : string) (m : chans) : list chan := default [] (m !! key).

Definition make_chan (key : string) (cap : nat) : go S nat :=
  zoom cl (λ m, (length (chans_of key m),
                 <[key := chans_of key m ++ [mkChan cap []]]> m)).

Definition send (key : string) (ch : nat) (v : Z * option error) : go S unit :=
  await (λ s,
    let m := lget cl s in
    match chans_of key m !! ch with
    | Some c =>
        if (length (ch_buf c) <? ch_cap c)%nat
        then Some (tt, lput cl (<[key := <[ch := mkChan (ch_cap c)
                    (ch_buf c ++ [v])]> (chans_of key m)]> m) s)
        else None
    | None => None
    end).

Definition recv (key : string) (ch : nat) : go S (Z * option error) :=
  await (λ s,
    let m := lget cl s in
    match chans_of key m !! ch with
    | Some (mkChan cap (v :: buf)) =>
        Some (v, lput cl (<[key := <[ch := mkChan cap buf]> (chans_of key m)]> m) s)
    | _ => None
    end).
End channels.

Section acquirer.
Context {S C : Type} `{PeerLookup S C} `{PeerRanker S} `{TokenRequester S C}.
Context (cl : lens S chans) (a : Acquirer S).

Definition emitProbeResult (key peerID result : string) : go S unit :=
  match onProbeResult a with
  | Some f => f key peerID result
  | None => Ret tt
  end.

Definition probe (peerID key : string) (need estimatedSurplus : Z)
  : go S (Z * option error) :=
  do! client <- lookup_client peerID;
  match client with
  | None =>
      (if 0 <? estimatedSurplus then emitProbeResult key peerID "stale"
       else Ret tt) ;;;
      Ret (0, None)
  | Some peerClient =>
      do! (granted, err) <- RequestTokens peerClient (originID a) key need;
      match err with
      | Some e => emitProbeResult key peerID "error" ;;; Ret (0, Some e)
      | None =>
          if 0 <? granted then
            emitProbeResult key peerID "granted" ;;; Ret (granted, None)
          else
            emitProbeResult key peerID
              (if 0 <? estimatedSurplus then "stale" else "exhausted") ;;;
            Ret (0, None)
      end
  end.

Fixpoint probeSequential (candidates : list PeerEntry) (key : string)
    (need : Z) : go S (Z * option error) :=
  match candidates with
  | [] => Ret (0, None)
  | c :: rest =>
      do! cancelled <- ask QCtxErr;
      match cancelled with
      | Some e => Ret (0, Some e)
      | None =>
          do! (got, err) <- probe (pe_ID c) key need (Surplus c);
          match err with
          | Some _ => probeSequential rest key need
          | None => if 0 <? got then Ret (got, None)
                    else probeSequential rest key need
          end
      end
  end.

(** The goroutine that takes the [rem] answers nobody waits for. *)
Fixpoint drain_late (key : string) (ch : nat) (rem : nat) : go S unit :=
  match rem with
  | O => Ret tt
  | Datatypes.S rem =>
      do! (got, err) <- recv cl key ch;
      (match err, onExtraTokens a with
       | None, Some f => if 0 <? got then f key got else Ret tt
       | _, _ => Ret tt
       end) ;;;
      drain_late key ch rem
  end.

(** The [for active > 0] loop. *)
Fixpoint collect (key : string) (ch : nat) (active : nat)
  : go S (Z * option error) :=
  match active with
  | O => Ret (0, None)
  | Datatypes.S rest =>
      do! cancelled <- ask QCtxErr;
      match cancelled with
      | Some e => fork (drain_late key ch active) ;;; Ret (0, Some e)
      | None =>
          do! (got, err) <- recv cl key ch;
          match err with
          | Some _ => collect key ch rest
          | None =>
              if 0 <? got then fork (drain_late key ch rest) ;;; Ret (got, None)
              else collect key ch rest
          end
      end
  end.

Definition probeParallel (candidates : list PeerEntry) (key : string)
    (need : Z) : go S (Z * option error) :=
  do! ch <- make_chan cl key (length candidates);
  for_each (λ c,
    fork (do! r <- probe (pe_ID c) key need (Surplus c); send cl key ch r))
    candidates ;;;
  collect key ch (length candidates).

Definition acquire (key : string) (need : Z) : go S (Z * option error) :=
  do! candidates <- rank_peers (probeK a) key;
  match candidates with
  | [] => Ret (0, None)
  | _ =>
      match mode a with
      | ProbeParallel => probeParallel candidates key need
      | ProbeSequential => probeSequential candidates key need
      end
  end.

(** [Acquire]: one acquisition per key at a time. *)
Definition acq_Acquire (key : string) (need : Z)
    (onAcquire : option (Z → go S unit)) : go S (Z * option error) :=
  do! shared <- ask (QShared key);
  do! (v, err) <-
    match shared with
    | Some r => Ret r
    | None =>
        do! (granted, err) <- acquire key need;
        (match err, onAcquire with
         | None, Some f => if 0 <? granted then f granted else Ret tt
         | _, _ => Ret tt
         end) ;;;
        Ret (granted, err)
    end;
  match err with
  | Some e => Ret (0, Some e)
  | None => Ret (v, None)
  end.
End acquirer.

(** The mesh, the gossiper and the grpc client behind the interfaces. *)
Definition mesh_lookup {S} (ml : lens S Mesh) : PeerLookup S conn :=
  {| lookup_client := GetPeerClient ml |}.
Definition gossip_ranker {S} `{FloatConv} (gl : lens S Gossiper) : PeerRanker S :=
  {| rank_peers := g_TopK gl |}.
Definition grpc_requester {S} (serve : string → option (TokenServer S))
  : TokenRequester S conn :=
  {| RequestTokens := PC_RequestTokens serve |}.

(** ** The server refuses bad requests and never over-grants *)

Lemma ValidateTransferRequest_ok req :
  ValidateTransferRequest req = None ↔
  LimitKey req ≠ "" ∧ Requested req ≠ 0 ∧ OriginId req ≠ "".
Proof.
  unfold ValidateTransferRequest.
  destruct (decide (LimitKey req = "")); [naive_solver|].
  destruct (Z.eqb_spec (Requested req) 0); [naive_solver|].
  destruct (decide (OriginId req = "")); naive_solver.
Qed.

(** C27: what the server will not do.  A malformed request is answered
    InvalidArgument and an instance's request to itself FailedPrecondition,
    in both cases without calling the token functions: the state is as it
    was and nothing is asked or started. *)
Theorem TransferTokens_refuses {S} (srv : TokenServer S) req env i s :
  LimitKey req = "" ∨ Requested req = 0 ∨ OriginId req = "" ∨
    OriginId req = srv_instanceID srv →
  ∃ st, exec env i (TransferTokens srv req) s = Done (inl st) s [] i ∧
    st_code st = (if decide (LimitKey req ≠ "" ∧ Requested req ≠ 0 ∧
                             OriginId req ≠ "")
                  then FailedPrecondition else InvalidArgument).
Proof.
  intros Hbad. unfold TransferTokens.
  destruct (ValidateTransferRequest req) as [e|] eqn:E.
  - eexists. split; [reflexivity|]. rewrite decide_False; [done|].
    rewrite <- ValidateTransferRequest_ok. congruence.
  - apply ValidateTransferRequest_ok in E.
    rewrite !decide_True by naive_solver. eexists. split; reflexivity.
Qed.

Lemma TransferTokens_refuses_witness :
  ∃ st, exec (clock_env 0) 0 (TransferTokens (NewTokenServer (S:=unit) "me")
          (mkTransfer "k" 3 "me")) tt = Done (inl st) tt [] 0%nat ∧
    st_code st = FailedPrecondition.
Proof.
  destruct (TransferTokens_refuses (NewTokenServer (S:=unit) "me")
    (mkTransfer "k" 3 "me") (clock_env 0) 0 tt) as (st & Hex & Hst).
  - right. right. right. reflexivity.
  - exists st. split; [exact Hex|exact Hst].
Defined.

(** Whatever its token functions and the other goroutines do, as long
    as the transferer gives at most what it is asked for, a transfer grants
    at most what was requested and at most the surplus it was shown. *)
Theorem TransferTokens_bound {S} (srv : TokenServer S) req acc tr bound :
  tokenAccessor srv = Some acc → tokenTransferer srv = Some tr →
  0 < Requested req →
  post (acc (LimitKey req) (Requested req))
    (λ r, r.2 = None → 0 <= r.1 <= bound) →
  (∀ a, 0 <= a → post (tr (LimitKey req) a) (λ r, r.2 = None → 0 <= r.1 <= a)) →
  post (TransferTokens srv req)
    (λ r, ∀ g, r = inr g → 0 <= g <= Z.min (Requested req) (Z.max 0 bound)).
Proof.
  intros Ha Ht Hreq Hacc Htr. unfold TransferTokens. rewrite Ha, Ht.
  destruct (ValidateTransferRequest req); [by apply post_ret|].
  destruct (decide _); [by apply post_ret|].
  apply post_bind with (1 := Hacc). intros [surplus [e|]] Hs; cbn in Hs;
    [by apply post_ret|]. specialize (Hs eq_refl).
  destruct (Z.eqb_spec surplus 0).
  { apply post_ret. intros g [= <-]. lia. }
  assert (Ham : 0 <= if surplus <? Requested req then surplus else Requested req)
    by (destruct (surplus <? Requested req); lia).
  apply post_bind with (1 := Htr _ Ham). intros [g [e|]] Hg; cbn in Hg;
    apply post_ret; [done|]. specialize (Hg eq_refl).
  intros g' [= <-]. destruct (Z.ltb_spec surplus (Requested req)); lia.
Qed.

Definition toy_server (n : Z) : TokenServer Z :=
  SetTokenTransferer (λ _ a, zoom lens_id (λ s, ((Z.max 0 (Z.min a s), None), s - a)))
    (SetTokenAccessor (λ _ _, Ret (n, None)) (NewTokenServer "srv")).

Lemma TransferTokens_bound_witness :
  post (TransferTokens (toy_server 5) (mkTransfer "k" 3 "me"))
    (λ r, ∀ g, r = inr g → 0 <= g <= 3).
Proof.
  refine (TransferTokens_bound (toy_server 5) (mkTransfer "k" 3 "me") _ _ 5
    eq_refl eq_refl eq_refl _ _).
  - apply post_ret. intros _. cbn. lia.
  - intros a Ha. apply post_atomically. intros s _. cbn. lia.
Defined.

(** ** Sequential probing stops at the first grant *)

Section sequential.
Context {S C : Type} `{PeerLookup S C} `{PeerRanker S} `{TokenRequester S C}.
Context (a : Acquirer S) (env : environment) (key : string) (need : Z).

Definition probe_of (c : PeerEntry) : go S (Z * option error) :=
  probe a (pe_ID c) key need (Surplus c).

(** The peers [l] are asked in order from [s] and none of them gives. *)
Inductive passed_over : list PeerEntry → nat → S → nat → S → Prop :=
| PO_nil i s : passed_over [] i s i s
| PO_cons c l i s g err s1 fs i1 i2 s2 :
    env _ QCtxErr i = None →
    exec env (Datatypes.S i) (probe_of c) s = Done (g, err) s1 fs i1 →
    (err = None → g <= 0) →
    passed_over l i1 s1 i2 s2 →
    passed_over (c :: l) i s i2 s2.

Lemma passed_over_exec l i s i1 s1 rest :
  passed_over l i s i1 s1 →
  ∃ fs, exec env i (probeSequential a (l ++ rest) key need) s =
    push_forks fs (exec env i1 (probeSequential a rest key need) s1).
Proof.
  induction 1 as [i s|c l i s g err s1 fs i1 i2 s2 Hctx Hp Hg _ [fs' IH]].
  { exists []. by rewrite push_forks_nil. }
  exists (fs ++ fs'). cbn [app probeSequential].
  rewrite exec_bind. cbn [exec ask]. rewrite Hctx.
  rewrite push_forks_nil, exec_bind. fold (probe_of c). rewrite Hp.
  assert (Hnext : ∀ o : outcome S (Z * option error),
    push_forks fs (push_forks fs' o) = push_forks (fs ++ fs') o).
  { intros []; cbn; by rewrite ?app_assoc. }
  destruct err as [e|]; [by rewrite IH, Hnext|].
  rewrite (proj2 (Z.ltb_ge 0 g)) by auto. by rewrite IH, Hnext.
Qed.

(** C29: sequential probing returns the grant of the first peer, in ranking
    order, that gives any, in the state that peer's probe left: the peers
    after it are not asked.  If nobody gives, the result is 0 and no
    error, and if the context is cancelled in between, its error. *)
Theorem probeSequential_first l c rest i s i1 s1 g s2 fs i2 :
  passed_over l i s i1 s1 →
  (env _ QCtxErr i1 = None →
   exec env (Datatypes.S i1) (probe_of c) s1 = Done (g, None) s2 fs i2 →
   0 < g →
   ∃ fs', exec env i (probeSequential a (l ++ c :: rest) key need) s
            = Done (g, None) s2 fs' i2) ∧
  (∃ fs', exec env i (probeSequential a l key need) s
            = Done (0, None) s1 fs' i1) ∧
  (∀ e, env _ QCtxErr i1 = Some e →
   ∃ fs', exec env i (probeSequential a (l ++ c :: rest) key need) s
            = Done (0, Some e) s1 fs' (Datatypes.S i1)).
Proof.
  intros Hl. split; [|split].
  - intros Hctx Hp Hg.
    destruct (passed_over_exec l i s i1 s1 (c :: rest) Hl) as [fs1 ->].
    cbn [probeSequential]. rewrite exec_bind. cbn [exec ask].
    rewrite Hctx, push_forks_nil, exec_bind. fold (probe_of c). rewrite Hp.
    rewrite (proj2 (Z.ltb_lt 0 g)) by done. cbn. by eexists.
  - destruct (passed_over_exec l i s i1 s1 [] Hl) as [fs1 He].
    rewrite app_nil_r in He. rewrite He. cbn. by eexists.
  - intros e Hctx.
    destruct (passed_over_exec l i s i1 s1 (c :: rest) Hl) as [fs1 ->].
    cbn. rewrite Hctx. cbn. by eexists.
Qed.
End sequential.

(** Three peers: the first is unknown, the second has nothing, the third
    gives; the state logs whom was asked. *)
Definition toy_lookup : PeerLookup (list string) string :=
  {| lookup_client id := Ret (if decide (id = "a") then None else Some id) |}.
Definition toy_ranker : PeerRanker (list string) := {| rank_peers _ _ := Ret [] |}.
Definition toy_requester : TokenRequester (list string) string :=
  {| RequestTokens c _ _ need :=
       modify (cons c) ;;; Ret (if decide (c = "c") then need else 0, None) |}.

Lemma probeSequential_first_witness :
  ∃ fs, exec (clock_env 0) 0
    (@probeSequential _ _ toy_lookup toy_requester
       (NewAcquirer "me" 3 ProbeSequential)
       (map (λ id, mkEntry id 1 0 0) ["a"; "b"; "c"; "d"]) "k" 5) []
    = Done (5, None) ["c"; "b"] fs 3%nat.
Proof.
  destruct (@probeSequential_first _ _ toy_lookup toy_requester
    (NewAcquirer "me" 3 ProbeSequential) (clock_env 0) "k" 5
    [mkEntry "a" 1 0 0; mkEntry "b" 1 0 0] (mkEntry "c" 1 0 0)
    [mkEntry "d" 1 0 0] 0 [] 2 ["b"] 5 ["c"; "b"] [] 3) as (Hg & _ & _).
  - econstructor; [reflexivity|reflexivity|intros _; discriminate|].
    econstructor; [reflexivity|reflexivity|intros _; discriminate|].
    constructor.
  - apply Hg; reflexivity.
Defined.
