(* ===== verification/Limiter.v ===== *)
(** * Limiter: one instance of the rate limiter (limiter.go, krate.go)

    [limiter] is the state of an instance; [world] holds every instance of a
    cluster, the Redis server they share, and the objects that goroutines of
    all of them point to (buckets, channels).  Every method of limiter.go is
    goroutine code over the world, for the instance configured by [o]. *)

From S2P Require Export BorrowManager Metrics Options Peer.

(** ** The state of an instance *)

(** [sync.RWMutex]. *)
Record rwmutex := mkMutex { rw_writer : bool; rw_readers : nat }.

(** A shard of the bucket table.  A [*bucket] is named by its key and by how
    many buckets had been made for that key before it; the shard's map holds
    that number. *)
Record bucketShard := mkBShard { sh_mu : rwmutex; buckets : gmap string nat }.

(** What a peer is known to have received of our gossip. *)
Record peerState := mkPeerState {
  ps_borrowed : gmap string Z; ps_consumed : gmap string Z;
}.
Definition newPeerState : peerState := mkPeerState ∅ ∅.

Record limiter := mkLimiter {
  l_shards : list bucketShard;
  l_metrics : Collector;
  l_borrowMgr : BorrowManager;
  l_mesh : Mesh;
  l_gossiper : Gossiper;
  l_router : EMARouter;      (* the state of the router, if it keeps one *)
  l_heartbeat : Heartbeat;
  l_peerStates : gmap string peerState;
  l_closed : bool;
  l_cancelled : bool;        (* the context of the background goroutines *)
  l_wg : nat;                (* [limiter.wg] *)
  l_mesh_wg : nat;           (* [Mesh.wg] *)
  l_server : listener;
}.

Definition no_shards : list bucketShard :=
  replicate 64 (mkBShard (mkMutex false 0) ∅).

(** ** The world *)

Record world (R : Type) := mkWorld {
  w_heap : gmap string (list bucket);      (* every [bucket] made, by key *)
  w_chans : chans;                         (* every channel made *)
  w_redis : redis_world R;
  w_insts : gmap string limiter;
  w_admitted : list (string * Z);          (* what callers were told to do *)
}.
Arguments mkWorld {R}.
Arguments w_heap {R} w.
Arguments w_chans {R} w.
Arguments w_redis {R} w.
Arguments w_insts {R} w.
Arguments w_admitted {R} w.

Definition heap_of {R} (key : string) (s : world R) : list bucket :=
  default [] (w_heap s !! key).

Definition put_heap {R} (key : string) (bs : list bucket) (s : world R) : world R :=
  mkWorld (<[key:=bs]> (w_heap s)) (w_chans s) (w_redis s) (w_insts s)
    (w_admitted s).

Program Definition chans_lens {R} : lens (world R) chans :=
  {| lget := w_chans;
     lput c s := mkWorld (w_heap s) c (w_redis s) (w_insts s) (w_admitted s) |}.
Next Obligation. done. Qed.

Program Definition redis_lens {R} : lens (world R) (redis_world R) :=
  {| lget := w_redis;
     lput r s := mkWorld (w_heap s) (w_chans s) r (w_insts s) (w_admitted s) |}.
Next Obligation. done. Qed.

(** ** [newLimiter]'s initial state *)

Section init.
Context {S : Type} (o : options S).

Definition initial_limiter (ema : EMARouter) : limiter :=
  mkLimiter no_shards
    (if o_metrics o then NewCollector else NoopCollector)
    (NewBorrowManager (o_instanceID o)
       (NewAdaptiveSizer (o_emaAlpha o) (o_minBorrow o) (o_maxBorrow o)
          (o_window o) (o_adaptiveBorrow o))
       (o_leaseTTL o))
    (NewMesh (o_instanceID o)) NewGossiper ema NewHeartbeat ∅ false false 0 0
    no_listener.
End init.

(** An instance that was not started yet. *)
Definition no_limiter : limiter :=
  initial_limiter (defaultOptions (S:=unit)) (NewEMAPredictiveRouter f64_zero).

Section lenses.
Context {R : Type} (id : string).

Program Definition inst_lens : lens (world R) limiter :=
  {| lget s := default no_limiter (w_insts s !! id);
     lput l s := mkWorld (w_heap s) (w_chans s) (w_redis s)
                   (<[id:=l]> (w_insts s)) (w_admitted s) |}.
Next Obligation. intros. cbn. by rewrite lookup_insert_eq. Qed.

Program Definition f_shards : lens limiter (list bucketShard) :=
  {| lget := l_shards;
     lput x l := mkLimiter x (l_metrics l) (l_borrowMgr l) (l_mesh l)
       (l_gossiper l) (l_router l) (l_heartbeat l) (l_peerStates l)
       (l_closed l) (l_cancelled l) (l_wg l) (l_mesh_wg l) (l_server l) |}.
Next Obligation. done. Qed.
Program Definition f_metrics : lens limiter Collector :=
  {| lget := l_metrics;
     lput x l := mkLimiter (l_shards l) x (l_borrowMgr l) (l_mesh l)
       (l_gossiper l) (l_router l) (l_heartbeat l) (l_peerStates l)
       (l_closed l) (l_cancelled l) (l_wg l) (l_mesh_wg l) (l_server l) |}.
Next Obligation. done. Qed.
Program Definition f_mgr : lens limiter BorrowManager :=
  {| lget := l_borrowMgr;
     lput x l := mkLimiter (l_shards l) (l_metrics l) x (l_mesh l)
       (l_gossiper l) (l_router l) (l_heartbeat l) (l_peerStates l)
       (l_closed l) (l_cancelled l) (l_wg l) (l_mesh_wg l) (l_server l) |}.
Next Obligation. done. Qed.
Program Definition f_mesh : lens limiter Mesh :=
  {| lget := l_mesh;
     lput x l := mkLimiter (l_shards l) (l_metrics l) (l_borrowMgr l) x
       (l_gossiper l) (l_router l) (l_heartbeat l) (l_peerStates l)
       (l_closed l) (l_cancelled l) (l_wg l) (l_mesh_wg l) (l_server l) |}.
Next Obligation. done. Qed.
Program Definition f_gossip : lens limiter Gossiper :=
  {| lget := l_gossiper;
     lput x l := mkLimiter (l_shards l) (l_metrics l) (l_borrowMgr l)
       (l_mesh l) x (l_router l) (l_heartbeat l) (l_peerStates l)
       (l_closed l) (l_cancelled l) (l_wg l) (l_mesh_wg l) (l_server l) |}.
Next Obligation. done. Qed.
Program Definition f_router : lens limiter EMARouter :=
  {| lget := l_router;
     lput x l := mkLimiter (l_shards l) (l_metrics l) (l_borrowMgr l)
       (l_mesh l) (l_gossiper l) x (l_heartbeat l) (l_peerStates l)
       (l_closed l) (l_cancelled l) (l_wg l) (l_mesh_wg l) (l_server l) |}.
Next Obligation. done. Qed.
Program Definition f_heartbeat : lens limiter Heartbeat :=
  {| lget := l_heartbeat;
     lput x l := mkLimiter (l_shards l) (l_metrics l) (l_borrowMgr l)
       (l_mesh l) (l_gossiper l) (l_router l) x (l_peerStates l)
       (l_closed l) (l_cancelled l) (l_wg l) (l_mesh_wg l) (l_server l) |}.
Next Obligation. done. Qed.
Program Definition f_peerStates : lens limiter (gmap string peerState) :=
  {| lget := l_peerStates;
     lput x l := mkLimiter (l_shards l) (l_metrics l) (l_borrowMgr l)
       (l_mesh l) (l_gossiper l) (l_router l) (l_heartbeat l) x
       (l_closed l) (l_cancelled l) (l_wg l) (l_mesh_wg l) (l_server l) |}.
Next Obligation. done. Qed.
Program Definition f_closed : lens limiter bool :=
  {| lget := l_closed;
     lput x l := mkLimiter (l_shards l) (l_metrics l) (l_borrowMgr l)
       (l_mesh l) (l_gossiper l) (l_router l) (l_heartbeat l)
       (l_peerStates l) x (l_cancelled l) (l_wg l) (l_mesh_wg l) (l_server l) |}.
Next Obligation. done. Qed.
Program Definition f_cancelled : lens limiter bool :=
  {| lget := l_cancelled;
     lput x l := mkLimiter (l_shards l) (l_metrics l) (l_borrowMgr l)
       (l_mesh l) (l_gossiper l) (l_router l) (l_heartbeat l)
       (l_peerStates l) (l_closed l) x (l_wg l) (l_mesh_wg l) (l_server l) |}.
Next Obligation. done. Qed.
Program Definition f_wg : lens limiter nat :=
  {| lget := l_wg;
     lput x l := mkLimiter (l_shards l) (l_metrics l) (l_borrowMgr l)
       (l_mesh l) (l_gossiper l) (l_router l) (l_heartbeat l)
       (l_peerStates l) (l_closed l) (l_cancelled l) x (l_mesh_wg l) (l_server l) |}.
Next Obligation. done. Qed.
Program Definition f_mesh_wg : lens limiter nat :=
  {| lget := l_mesh_wg;
     lput x l := mkLimiter (l_shards l) (l_metrics l) (l_borrowMgr l)
       (l_mesh l) (l_gossiper l) (l_router l) (l_heartbeat l)
       (l_peerStates l) (l_closed l) (l_cancelled l) (l_wg l) x (l_server l) |}.
Next Obligation. done. Qed.
Program Definition f_server : lens limiter listener :=
  {| lget := l_server;
     lput x l := mkLimiter (l_shards l) (l_metrics l) (l_borrowMgr l)
       (l_mesh l) (l_gossiper l) (l_router l) (l_heartbeat l)
       (l_peerStates l) (l_closed l) (l_cancelled l) (l_wg l) (l_mesh_wg l) x |}.
Next Obligation. done. Qed.

Definition inst {T} (f : lens limiter T) : lens (world R) T :=
  lens_compose inst_lens f.

Definition mgr_lens := inst f_mgr.
Definition mesh_lens := inst f_mesh.
Definition gossip_lens := inst f_gossip.
Definition router_lens := inst f_router.
Definition heartbeat_lens := inst f_heartbeat.
Definition server_lens := inst f_server.
End lenses.

(** A router of routing/, wired to the instance's gossiper by [Init]. *)
Definition NewEMARouter {R} `{FloatConv} (id : string) : Router (world R) :=
  EMA_router (router_lens id) (Some (gossip_lens id)).

(** ** Locks, buckets and metrics of an instance *)

Section primitives.
Context {R : Type} (id : string).
Abbreviation W := (world R).

(** An action on one shard that waits until [f] allows it. *)
Definition with_shard {X} (i : nat) (f : bucketShard → option (X * bucketShard))
  : go W X :=
  await (λ s,
    let l := inst id f_shards in
    match lget l s !! i with
    | Some sh =>
        match f sh with
        | Some (x, sh') => Some (x, lput l (<[i:=sh']> (lget l s)) s)
        | None => None
        end
    | None => None
    end).

Definition shard_RLock (i : nat) : go W unit :=
  with_shard i (λ sh, if rw_writer (sh_mu sh) then None else
    Some (tt, mkBShard (mkMutex false (Datatypes.S (rw_readers (sh_mu sh))))
                (buckets sh))).
Definition shard_RUnlock (i : nat) : go W unit :=
  with_shard i (λ sh,
    Some (tt, mkBShard (mkMutex (rw_writer (sh_mu sh))
                          (pred (rw_readers (sh_mu sh)))) (buckets sh))).
Definition shard_Lock (i : nat) : go W unit :=
  with_shard i (λ sh,
    if rw_writer (sh_mu sh) || (0 <? rw_readers (sh_mu sh))%nat then None
    else Some (tt, mkBShard (mkMutex true 0) (buckets sh))).
Definition shard_Unlock (i : nat) : go W unit :=
  with_shard i (λ sh,
    Some (tt, mkBShard (mkMutex false (rw_readers (sh_mu sh))) (buckets sh))).

(** Reading and writing the map while the lock is held. *)
Definition shard_get {X} (i : nat) (f : gmap string nat → X) : go W X :=
  with_shard i (λ sh, Some (f (buckets sh), sh)).
Definition shard_set (i : nat) (f : gmap string nat → gmap string nat)
  : go W unit :=
  with_shard i (λ sh, Some (tt, mkBShard (sh_mu sh) (f (buckets sh)))).

(** A method of the bucket [p] of [key]. *)
Definition on_bucket {X} (key : string) (p : nat) (f : bucket → X * bucket)
  : go W X :=
  await (λ s,
    match heap_of key s !! p with
    | Some b => let '(x, b') := f b in
                Some (x, put_heap key (<[p:=b']> (heap_of key s)) s)
    | None => None
    end).
Definition bucket_do (key : string) (p : nat) (f : bucket → bucket) : go W unit :=
  on_bucket key p (λ b, (tt, f b)).
Definition bucket_get {X} (key : string) (p : nat) (f : bucket → X) : go W X :=
  on_bucket key p (λ b, (f b, b)).

(** [b.mu]. *)
Definition bucket_Lock (key : string) (p : nat) : go W unit :=
  await (λ s,
    match heap_of key s !! p with
    | Some b => if b_mu b then None
                else Some (tt, put_heap key (<[p:=with_mu true b]> (heap_of key s)) s)
    | None => None
    end).
Definition bucket_Unlock (key : string) (p : nat) : go W unit :=
  bucket_do key p (with_mu false).

(** [&bucket{..}]. *)
Definition alloc_bucket (key : string) (b : bucket) : go W nat :=
  atomically (λ s, (length (heap_of key s), put_heap key (heap_of key s ++ [b]) s)).

(** A method of [l.metrics]. *)
Definition metric (f : Collector → Collector) : go W unit :=
  zoom_modify (inst id f_metrics) f.

Definition wg_Add : go W unit := zoom_modify (inst id f_wg) Datatypes.S.
Definition wg_Done : go W unit := zoom_modify (inst id f_wg) pred.
End primitives.

(** ** The methods of [limiter] *)

Section limiter.
Context {R : Type} `{RedisStore R} `{FloatConv}.
Context (o : options (world R)).

Let id := o_instanceID o.

Definition limiter_pool : PoolClient (world R) :=
  redis_pool_client redis_lens NewRedisPool.
#[local] Existing Instance limiter_pool.

Definition getOrCreateBucket (key : string) : go (world R) nat :=
  let i := shard_of key in
  shard_RLock id i ;;;
  do! hit <- shard_get id i (.!! key);
  shard_RUnlock id i ;;;
  match hit with
  | Some p => Ret p
  | None =>
      shard_Lock id i ;;;
      do! hit <- shard_get id i (.!! key);
      match hit with
      | Some p => shard_Unlock id i ;;; Ret p
      | None =>
          do! now <- ask QNow;
          do! p <- alloc_bucket key
            (newBucket key (o_limit o) (o_windowType o) (o_window o) now);
          shard_set id i <[key:=p]> ;;;
          shard_Unlock id i ;;;
          Ret p
      end
  end.

(** The calls made when [n] tokens were taken from the bucket. *)
Definition record_allowed (key : string) (p : nat) (n : Z) (local : bool)
  : go (world R) unit :=
  do! rem <- bucket_get key p remaining;
  bucket_do key p (recordConsumption n) ;;;
  RecordConsumption (mgr_lens id) key n ;;;
  (if local then metric id (RecordLocalHit key) else Ret tt) ;;;
  metric id (RecordAllowed key) ;;;
  metric id (SetLocalTokens key rem) ;;;
  metric id (ObserveLocalTokensRemaining rem).

(** The callback of both calls of [borrowMgr.Acquire]. *)
Definition refill_cleared (key : string) (p : nat) (g : Z) : go (world R) unit :=
  bucket_do key p ClearRedisExhausted ;;;
  bucket_do key p (refill g).

Definition maybePreBorrow (key : string) (p : nat) : go (world R) unit :=
  do! ok <- on_bucket key p TryMarkPreBorrowing;
  if (ok : bool) then
    metric id (RecordPreBorrow key) ;;;
    wg_Add id ;;;
    fork (do! (granted, err) <- Acquire (mgr_lens id) None key 0
                                  (Some (refill_cleared key p));
          (match err with
           | Some _ => Ret tt
           | None => if 0 <? granted
                     then metric id (RecordRedisBorrow key true) else Ret tt
           end) ;;;
          bucket_do key p ClearPreBorrowing ;;;
          wg_Done id)
  else Ret tt.

(** The locked part of [resetWindow]. *)
Definition reset_locked (key : string) (p : nat) (nowMs : Z)
  : go (world R) (option error) :=
  let windowMs := Milliseconds (o_window o) in
  if windowMs =? 0 then Panic "integer divide by zero"
  else
    let newWindowStart := to_i64 (Z.quot nowMs windowMs * windowMs) in
    do! start <- bucket_get key p (λ b, WindowStartMs (b_window b));
    if newWindowStart <=? start then Ret None
    else
      do! err <- RP_ResetWindow redis_lens NewRedisPool key (o_limit o)
                   newWindowStart;
      match err with
      | Some e => Ret (Some (ErrWrap "reset window" e))
      | None =>
          do! _ <- on_bucket key p drain;
          bucket_do key p ClearRedisExhausted ;;;
          bucket_do key p resetConsumed ;;;
          bucket_do key p (λ b,
            with_window (UpdateWindowStart newWindowStart (b_window b)) b) ;;;
          metric id (RecordWindowReset key) ;;;
          zoom_modify (mgr_lens id) (bm_Reset key) ;;;
          Ret None
      end.

Definition resetWindow (key : string) (nowMs : Z) : go (world R) (option error) :=
  do! p <- getOrCreateBucket key;
  bucket_Lock key p ;;;
  do! err <- reset_locked key p nowMs;
  bucket_Unlock key p ;;;
  Ret err.

(** *** The token server's callbacks *)

Definition token_accessor (key : string) (requested : Z)
  : go (world R) (Z * option error) :=
  do! p <- getOrCreateBucket key;
  do! rem <- bucket_get key p remaining;
  let reserved := f64_to_u64 (f64_mul (f64_of_Z (o_limit o)) (o_reservedMinimum o)) in
  Ret (if rem <=? reserved then 0 else rem - reserved, None).

Definition token_transferer (key : string) (amount : Z)
  : go (world R) (Z * option error) :=
  do! p <- getOrCreateBucket key;
  do! rem <- bucket_get key p remaining;
  let transfer := if rem <? amount then rem else amount in
  if transfer =? 0 then Ret (0, None)
  else
    do! ok <- on_bucket key p (tryConsume transfer);
    Ret (if (ok : bool) then transfer else 0, None).

Definition gossip_handler (originID : string) (consumed borrowed : gmap string Z)
  : go (world R) (option error) :=
  UpdatePeer (gossip_lens id) originID consumed borrowed ;;; Ret None.

Definition token_server : TokenServer (world R) :=
  SetGossipHandler gossip_handler
    (SetTokenTransferer token_transferer
      (SetTokenAccessor token_accessor (NewTokenServer id))).

(** *** The acquirer and its callbacks *)

Definition extra_tokens (key : string) (tokens : Z) : go (world R) unit :=
  do! p <- getOrCreateBucket key;
  bucket_do key p (refill tokens) ;;;
  metric id (RecordTokenReceived tokens).

Definition probe_result (key peerID result : string) : go (world R) unit :=
  metric id (RecordPeerProbe key result) ;;;
  if decide (result = "stale") then metric id (RecordPeerStale key peerID)
  else Ret tt.

Definition limiter_acquirer : Acquirer (world R) :=
  let acq := NewAcquirer id (o_probeK o)
    (match o_probeMode o with
     | Parallel => ProbeParallel
     | Sequential => ProbeSequential
     end) in
  let acq := SetExtraTokensCallback extra_tokens acq in
  if o_metrics o then SetProbeResultCallback probe_result acq else acq.
End limiter.

(** ** [AllowN]

    [serve] says whose token server listens at an address. *)

Section allow.
Context {R : Type} `{RedisStore R} `{FloatConv}.
Context (serve : string → option (TokenServer (world R))).
Context (o : options (world R)).

Let id := o_instanceID o.

#[local] Existing Instance limiter_pool.
Definition limiter_lookup : PeerLookup (world R) conn := mesh_lookup (mesh_lens id).
Definition limiter_ranker : PeerRanker (world R) := gossip_ranker (gossip_lens id).
Definition limiter_requester : TokenRequester (world R) conn := grpc_requester serve.
#[local] Existing Instances limiter_lookup limiter_ranker limiter_requester.

(** [acquireFromPeers]; its callback is the one [AllowN] passes. *)
Definition refill_received (key : string) (p : nat) (g : Z) : go (world R) unit :=
  bucket_do key p (refill g) ;;;
  metric id (RecordTokenReceived g).

Definition acquireFromPeers (key : string) (need : Z)
    (onAcquire : Z → go (world R) unit) : go (world R) (Z * option error) :=
  do! (peerTokens, err) <- acq_Acquire chans_lens (limiter_acquirer o) key need
                             (Some onAcquire);
  match err with
  | Some e => Ret (0, Some e)
  | None => Ret (peerTokens, None)
  end.

(** One attempt to take [n] tokens; [next] is what follows a failure. *)
Definition consume_or (key : string) (p : nat) (n : Z)
    (next : go (world R) (option (bool * option error)))
  : go (world R) (option (bool * option error)) :=
  do! ok <- on_bucket key p (tryConsume n);
  if (ok : bool) then
    record_allowed o key p n false ;;; Ret (Some (true, None))
  else next.

(** The [DecisionRedis] branch of the loop: [inl] is a [return], [inr]
    goes on to the next iteration with the given [redisExhausted]. *)
Definition from_redis (key : string) (p : nat) (n : Z) (redisExhausted : bool)
    (again : bool → go (world R) (option (bool * option error)))
  : go (world R) (option (bool * option error)) :=
  do! redisStart <- ask QNow;
  do! (granted, err) <- Acquire (mgr_lens id) None key n
                          (Some (refill_cleared key p));
  do! t <- ask QNow;
  metric id (ObserveRequestDuration "redis" (time_Sub t redisStart)) ;;;
  match err with
  | Some e => Ret (Some (false, Some e))
  | None =>
      if 0 <? granted then
        metric id (RecordRedisBorrow key true) ;;;
        do! b <- bm_Borrowed (mgr_lens id) key;
        metric id (SetBorrowedTokens key b) ;;;
        consume_or key p n (again redisExhausted)
      else
        bucket_do key p MarkRedisExhausted ;;;
        metric id (RecordRedisBorrow key false) ;;;
        again true
  end.

(** The [DecisionPeer] branch. *)
Definition from_peers (key : string) (p : nat) (n : Z)
    (again : go (world R) (option (bool * option error)))
  : go (world R) (option (bool * option error)) :=
  do! peerStart <- ask QNow;
  do! (peerTokens, err) <- acquireFromPeers key n (refill_received key p);
  do! t <- ask QNow;
  metric id (ObserveRequestDuration "peer" (time_Sub t peerStart)) ;;;
  match err with
  | None => if 0 <? peerTokens then consume_or key p n again else again
  | Some _ => again
  end.

(** After the loop. *)
Definition reject (key : string) (p : nat)
  : go (world R) (option (bool * option error)) :=
  metric id (RecordRejected key) ;;;
  do! rem <- bucket_get key p remaining;
  metric id (ObserveLocalTokensRemaining rem) ;;;
  Ret (Some (false, None)).

(** The [for] loop, cut off after [fuel] iterations ([None]). *)
Fixpoint allow_loop (fuel : nat) (key : string) (p : nat) (n : Z)
    (redisExhausted peerChecked : bool)
  : go (world R) (option (bool * option error)) :=
  match fuel with
  | O => Ret None
  | Datatypes.S fuel =>
      match o_router o with
      | None => Panic "invalid memory address or nil pointer dereference"
      | Some r =>
          do! (decision, err) <-
            Decide r (mkRC key n redisExhausted (negb peerChecked));
          match err with
          | Some e => Ret (Some (false, Some e))
          | None =>
              match decision with
              | DecisionRedis =>
                  from_redis key p n redisExhausted
                    (λ ex, allow_loop fuel key p n ex peerChecked)
              | DecisionPeer =>
                  from_peers key p n
                    (allow_loop fuel key p n redisExhausted true)
              | DecisionDeny => reject key p
              end
          end
      end
  end.

(** From the second [clock.Now] on. *)
Definition allow_slow (fuel : nat) (key : string) (p : nat) (n : Z)
  : go (world R) (option (bool * option error)) :=
  do! t <- ask QNow;
  let nowMs := UnixMilli t in
  let rest :=
    do! redisExhausted <- bucket_get key p IsRedisExhausted;
    (if (redisExhausted : bool) then metric id (RecordRedisSkip key)
     else Ret tt) ;;;
    allow_loop fuel key p n redisExhausted false in
  do! due <- bucket_get key p (needsReset nowMs);
  if (due : bool) then
    do! _ <- resetWindow o key nowMs;
    consume_or key p n rest
  else rest.

(** The return of the fast path. *)
Definition allow_local (key : string) (p : nat) (n start : Z)
  : go (world R) (option (bool * option error)) :=
  record_allowed o key p n true ;;;
  do! t <- ask QNow;
  metric id (ObserveRequestDuration "local" (time_Sub t start)) ;;;
  (if o_preBorrowEnabled o then
     do! low <- bucket_get key p
       (belowPreBorrowThreshold (o_minBorrow o) (o_preBorrowThreshold o));
     if (low : bool) then maybePreBorrow o key p else Ret tt
   else Ret tt) ;;;
  Ret (Some (true, None)).

Definition AllowN (fuel : nat) (key : string) (n : Z)
  : go (world R) (option (bool * option error)) :=
  do! closed <- zoom_reads (inst id f_closed) (λ c, c);
  if (closed : bool) then Ret (Some (false, Some ErrClosed))
  else
    do! start <- ask QNow;
    do! p <- getOrCreateBucket o key;
    bucket_do key p (updateAccess (UnixMilli start)) ;;;
    do! ok <- on_bucket key p (tryConsume n);
    if (ok : bool) then allow_local key p n start
    else allow_slow fuel key p n.

Definition Allow (fuel : nat) (key : string)
  : go (world R) (option (bool * option error)) := AllowN fuel key 1.

(** *** Gossip *)

(** [getBucketConsumed]. *)
Definition getBucketConsumed (key : string) : go (world R) Z :=
  let i := shard_of key in
  shard_RLock id i ;;;
  do! hit <- shard_get id i (.!! key);
  do! v <- (match hit with
            | Some p => bucket_get key p getConsumed
            | None => Ret 0
            end);
  shard_RUnlock id i ;;;
  Ret v.

(** The keys of one shard, under its read lock. *)
Fixpoint consumed_in (i : nat) (keys : list string) (out : gmap string Z)
  : go (world R) (gmap string Z) :=
  match keys with
  | [] => Ret out
  | k :: keys =>
      do! hit <- shard_get id i (.!! k);
      match hit with
      | Some p =>
          do! val <- bucket_get k p getConsumed;
          consumed_in i keys (if 0 <? val then <[k:=val]> out else out)
      | None => consumed_in i keys out
      end
  end.

Fixpoint consumed_shards (i : nat) (groups : list (list string))
    (out : gmap string Z) : go (world R) (gmap string Z) :=
  match groups with
  | [] => Ret out
  | [] :: groups => consumed_shards (Datatypes.S i) groups out
  | keys :: groups =>
      shard_RLock id i ;;;
      do! out <- consumed_in i keys out;
      shard_RUnlock id i ;;;
      consumed_shards (Datatypes.S i) groups out
  end.

Definition getBucketsConsumed (keys : list string)
  : go (world R) (gmap string Z) :=
  consumed_shards 0 (group_keys keys) ∅.
End allow.

(** What a peer still has to be told: the values it has not acknowledged,
    and a zero for each key that is gone. *)
Definition delta (current known : gmap string Z) : gmap string Z :=
  filter (λ e, default 0 (known !! e.1) ≠ e.2) current ∪
  ((λ _, 0) <$> filter (λ e, current !! e.1 = None) known).

(** What it is known to have once it acknowledged [d]. *)
Definition acknowledge (d known : gmap string Z) : gmap string Z :=
  filter (λ e, e.2 ≠ 0) d ∪ filter (λ e, d !! e.1 = None) known.

(** ** The background goroutines, [newLimiter] and [Close] *)

Section lifecycle.
Context {R : Type} `{RedisStore R} `{FloatConv} `{GrpcDial}
  `{NetListen}.
Context (serve : string → option (TokenServer (world R))).
Context (o : options (world R)).

Let id := o_instanceID o.

(** One peer of the loop of [gossipOnce]. *)
Definition gossip_to (borrowed consumed : gmap string Z) (p : Peer)
  : go (world R) unit :=
  match p_Healthy p, p_Client p with
  | true, Some client =>
      (* LoadOrStore, and the deltas under the peer state's lock *)
      do! (db, dc) <- zoom (inst id f_peerStates) (λ m,
        let ps := default newPeerState (m !! p_ID p) in
        ((delta borrowed (ps_borrowed ps), delta consumed (ps_consumed ps)),
         <[p_ID p := ps]> m));
      if decide (db = ∅ ∧ borrowed = ∅ ∧ dc = ∅ ∧ consumed = ∅) then Ret tt
      else
        fork (
          do! r <- rpc serve (c_addr client) (λ srv, Gossip srv id dc db);
          match r with
          | inl _ => Ret tt
          | inr _ =>
              zoom_modify (inst id f_peerStates) (λ m,
                match m !! p_ID p with
                | Some ps =>
                    <[p_ID p := mkPeerState (acknowledge db (ps_borrowed ps))
                                  (acknowledge dc (ps_consumed ps))]> m
                | None => m
                end)
          end)
  | _, _ => Ret tt
  end.

Definition gossipOnce : go (world R) unit :=
  do! currentBorrowed <- AllBorrowed (mgr_lens id) (o_maxGossipKeys o);
  do! order <- ask QOrder;
  let keys := (order _ (map_to_list currentBorrowed)).*1 in
  do! currentConsumed <- getBucketsConsumed o keys;
  do! peers <- GetPeers (mesh_lens id);
  for_each (gossip_to currentBorrowed currentConsumed) peers.

(** A loop over a ticker until its context is cancelled; [ticks] bounds the
    ticks, after which it only waits to be cancelled. *)
Definition when_cancelled (done : go (world R) unit) : go (world R) unit :=
  await (λ s, if lget (inst id f_cancelled) s then Some (tt, s) else None) ;;; done.

Fixpoint ticker_loop (ticks : nat) (body done : go (world R) unit)
  : go (world R) unit :=
  match ticks with
  | O => when_cancelled done
  | Datatypes.S ticks =>
      do! tick <- ask QSelect;
      if (tick : bool) then body ;;; ticker_loop ticks body done
      else when_cancelled done
  end.

Definition gossipLoop (ticks : nat) : go (world R) unit :=
  let interval := o_gossipInterval o in
  let interval :=
    if interval <? 100 * Millisecond then 100 * Millisecond else interval in
  NewTicker interval ;;;
  ticker_loop ticks gossipOnce (wg_Done id).

(** *** Eviction *)

Section evict.
Context (policy : EvictionPolicy).

(** [policy.ShouldEvict(b, nowMs) && !b.isPreBorrowing()]. *)
Definition evictable (key : string) (p : nat) (nowMs : Z)
  : go (world R) bool :=
  do! idle <- bucket_get key p (λ b, ShouldEvict b nowMs);
  if (idle : bool) then
    do! busy <- bucket_get key p isPreBorrowing;
    Ret (negb busy)
  else Ret false.

Fixpoint scan_evictable (entries : list (string * nat)) (nowMs : Z)
  : go (world R) (list string) :=
  match entries with
  | [] => Ret []
  | (key, p) :: entries =>
      do! e <- evictable key p nowMs;
      do! rest <- scan_evictable entries nowMs;
      Ret (if (e : bool) then key :: rest else rest)
  end.

(** The second pass, under the write lock. *)
Fixpoint evict_locked (i : nat) (keys : list string) (nowMs : Z)
  : go (world R) (list string) :=
  match keys with
  | [] => Ret []
  | key :: keys =>
      do! hit <- shard_get id i (.!! key);
      do! gone <- (match hit with
                   | Some p =>
                       do! e <- evictable key p nowMs;
                       if (e : bool) then
                         shard_set id i (delete key) ;;; Ret [key]
                       else Ret []
                   | None => Ret []
                   end);
      do! rest <- evict_locked i keys nowMs;
      Ret (gone ++ rest)
  end.

Definition evict_shard (i : nat) (nowMs : Z) : go (world R) (list string) :=
  shard_RLock id i ;;;
  do! order <- ask QOrder;
  do! entries <- shard_get id i (λ m, order _ (map_to_list m));
  do! keysToEvict <- scan_evictable entries nowMs;
  shard_RUnlock id i ;;;
  match keysToEvict with
  | [] => Ret []
  | _ =>
      shard_Lock id i ;;;
      do! evicted <- evict_locked i keysToEvict nowMs;
      shard_Unlock id i ;;;
      Ret evicted
  end.

Fixpoint evict_shards (idxs : list nat) (nowMs : Z)
  : go (world R) (list string) :=
  match idxs with
  | [] => Ret []
  | i :: idxs =>
      do! evicted <- evict_shard i nowMs;
      do! rest <- evict_shards idxs nowMs;
      Ret (evicted ++ rest)
  end.

Definition evictInactiveKeys (nowMs : Z) : go (world R) unit :=
  do! allEvicted <- evict_shards (seq 0 64) nowMs;
  match allEvicted with
  | [] => Ret tt
  | _ =>
      zoom_modify (mgr_lens id) (bm_EvictKeys allEvicted) ;;;
      g_EvictKeys (gossip_lens id) allEvicted ;;;
      match o_router o with
      | Some r =>
          match r_EvictKeys r with
          | Some ev => ev allEvicted
          | None => Ret tt
          end
      | None => Ret tt
      end
  end.

(** [Janitor.Start] and its goroutine. *)
Definition janitor_loop (ticks : nat) : go (world R) unit :=
  ticker_loop ticks
    (do! now <- ask QNow; evictInactiveKeys (UnixMilli now)) (Ret tt).
Definition janitor_Start (ticks : nat) : go (world R) unit :=
  NewTicker (NewJanitor_interval (o_evictionInterval o)) ;;;
  fork (janitor_loop ticks).
End evict.

(** *** [newLimiter] *)

Definition limiter_membership : Membership := NewMembership (o_heartbeatTimeout o).

(** The callback given to the mesh. *)
Definition peer_removed (peerID : string) : go (world R) unit :=
  RemovePeer (gossip_lens id) peerID ;;;
  match o_router o with
  | Some r =>
      match r_RemovePeer r with
      | Some rm => rm peerID
      | None => Ret tt
      end
  | None => Ret tt
  end.

Definition mesh_refresh : go (world R) unit :=
  refresh (mesh_lens id) (Discover redis_lens limiter_membership)
    (Some peer_removed).

Definition mesh_loop (ticks : nat) : go (world R) unit :=
  mesh_refresh ;;;
  NewTicker (o_gossipInterval o) ;;;
  ticker_loop ticks mesh_refresh (zoom_modify (inst id f_mesh_wg) pred).

(** [Mesh.Start]. *)
Definition mesh_Start (ticks : nat) : go (world R) unit :=
  zoom_modify (inst id f_mesh_wg) Datatypes.S ;;;
  fork (mesh_loop ticks).

Definition member_info (actualAddr : string) : MemberInfo :=
  mkMember id
    (if decide (o_gossipAddr o = "") then actualAddr else o_gossipAddr o)
    actualAddr ∅ 0.

(** [ema] is the state of the router object of the options, if it has one;
    [ticks] bounds every background loop. *)
Definition newLimiter (ticks : nat) (ema : EMARouter)
  : go (world R) (option error) :=
  modify (λ s, lput (inst_lens id) (initial_limiter o ema) s) ;;;
  do! err <- srv_Start (server_lens id) (o_peerListen o);
  match err with
  | Some e =>
      zoom_modify (inst id f_cancelled) (λ _, true) ;;;
      Ret (Some (ErrWrap "start token server" e))
  | None =>
      do! actualAddr <- srv_Addr (server_lens id);
      hb_Start redis_lens (heartbeat_lens id) limiter_membership
        (member_info actualAddr) None (o_heartbeatInterval o) ticks ;;;
      mesh_Start ticks ;;;
      wg_Add id ;;;
      fork (gossipLoop ticks) ;;;
      (if 0 <? o_evictionInterval o then
         match policy_of (o_evictionPolicy o) with
         | Some policy => janitor_Start policy ticks
         | None => Ret tt
         end
       else Ret tt) ;;;
      Ret None
  end.

(** *** [Close] *)

Definition Close : go (world R) (option error) :=
  do! was <- zoom (inst id f_closed) (λ c, (c, true));
  if (was : bool) then Ret (Some ErrClosed)
  else
    zoom_modify (inst id f_cancelled) (λ _, true) ;;;
    await (λ s, if decide (lget (inst id f_wg) s = 0%nat)
                then Some (tt, s) else None) ;;;
    hb_Stop (heartbeat_lens id) ;;;
    do! _ <- Deregister redis_lens limiter_membership id;
    await (λ s, if decide (lget (inst id f_mesh_wg) s = 0%nat)
                then Some (tt, s) else None) ;;;
    mesh_Stop (mesh_lens id) ;;;
    srv_Stop (server_lens id) ;;;
    Ret None.

(** What a caller does: it acts on a request that was allowed. *)
Definition client (fuel : nat) (key : string) (n : Z) : go (world R) unit :=
  do! r <- AllowN serve o fuel key n;
  match r with
  | Some (true, _) =>
      modify (λ s, mkWorld (w_heap s) (w_chans s) (w_redis s) (w_insts s)
                     ((key, n) :: w_admitted s))
  | _ => Ret tt
  end.
End lifecycle.

(** ** [New]

    The options are applied to the defaults, an instance without identifier
    gets one from the host name and the clock, and the limiter is started.
    The [Limiter] it returns only forwards to the methods above. *)

Definition New {R : Type} `{RedisStore R} `{FloatConv} `{GrpcDial}
    `{NetListen} (serve : string → option (TokenServer (world R)))
    (host : string) (opts : list (Option (world R))) (ticks : nat) (ema : EMARouter)
  : go (world R) (option error) :=
  let o := apply_options opts in
  if decide (o_instanceID o = "") then
    do! nanos <- ask QNow;
    newLimiter serve (New_instanceID host nanos o) ticks ema
  else newLimiter serve o ticks ema.
