(* ===== verification/Ledger.v ===== *)
(** * Ledger: the token accounts of one key

    For a fixed key [κ] every token is in one of five places: the pool in
    Redis, a bucket of some instance, a message in a channel, the hands of a
    goroutine (its credits in the sense of [wp]), or spent.  [reserve] is what
    the windows opened so far have supplied less what is accounted for in the
    state.  This file gives the credit rules of the primitive actions. *)

From Stdlib Require Import Ascii.
From S2P Require Export Limiter Quiet.

(** ** Key names do not collide *)

Lemma PoolKey_inj k k' : PoolKey k = PoolKey k' → k = k'.
Proof.
  unfold PoolKey. intros H%(inj (String.append "krate:")).
  by apply string_app_inj_l in H.
Qed.

Lemma PoolKey_WindowStartKey k k' : PoolKey k ≠ WindowStartKey k'.
Proof.
  intros H. apply (f_equal str_last) in H.
  unfold PoolKey, WindowStartKey, str_last in H.
  rewrite !chars_app, !last_app in H. discriminate H.
Qed.

Lemma WindowStartKey_inj k k' : WindowStartKey k = WindowStartKey k' → k = k'.
Proof.
  unfold WindowStartKey. intros H%(inj (String.append "krate:")).
  by apply string_app_inj_l in H.
Qed.

(** An instance identifier whose lease keys are not mistaken for another
    key's pool or window: [BorrowedKey] puts it last, so "pool", or a name
    ending in ":pool", would name a pool. *)
Definition id_ok (id : string) : Prop :=
  ∀ key k, BorrowedKey key id ≠ PoolKey k ∧ BorrowedKey key id ≠ WindowStartKey k.

Lemma id_ok_last id c :
  str_last id = Some c → c ≠ "l"%char → c ≠ "t"%char → id_ok id.
Proof.
  intros Hid Hl Ht key k.
  split; intros H; apply (f_equal str_last) in H;
    unfold BorrowedKey, PoolKey, WindowStartKey, str_last in *;
    rewrite !chars_app, !last_app, Hid in H; by injection H as ->.
Qed.

Lemma id_ok_empty : id_ok "".
Proof.
  intros key k. split; intros H; apply (f_equal str_last) in H;
    unfold BorrowedKey, PoolKey, WindowStartKey, str_last in H;
    rewrite !chars_app, !last_app in H; discriminate H.
Qed.

(** ** The fields of an instance other than its borrow manager *)

Class KeepsMgr {T} (f : lens limiter T) : Prop :=
  keeps_mgr t l : l_borrowMgr (lput f t l) = l_borrowMgr l.

#[export] Instance f_shards_keeps : KeepsMgr f_shards. Proof. done. Qed.
#[export] Instance f_metrics_keeps : KeepsMgr f_metrics. Proof. done. Qed.
#[export] Instance f_mesh_keeps : KeepsMgr f_mesh. Proof. done. Qed.
#[export] Instance f_gossip_keeps : KeepsMgr f_gossip. Proof. done. Qed.
#[export] Instance f_router_keeps : KeepsMgr f_router. Proof. done. Qed.
#[export] Instance f_heartbeat_keeps : KeepsMgr f_heartbeat. Proof. done. Qed.
#[export] Instance f_peerStates_keeps : KeepsMgr f_peerStates. Proof. done. Qed.
#[export] Instance f_closed_keeps : KeepsMgr f_closed. Proof. done. Qed.
#[export] Instance f_cancelled_keeps : KeepsMgr f_cancelled. Proof. done. Qed.
#[export] Instance f_wg_keeps : KeepsMgr f_wg. Proof. done. Qed.
#[export] Instance f_mesh_wg_keeps : KeepsMgr f_mesh_wg. Proof. done. Qed.
#[export] Instance f_server_keeps : KeepsMgr f_server. Proof. done. Qed.

(** ** The accounts *)

Section ledger.
Context {R : Type} `{RedisLaws R} (κ : string) (P0 L : Z).
(** Where a window may start. *)
Context (Win : Z → Prop).
Abbreviation W := (world R).

Definition pool_of (s : W) : Z :=
  default 0 (redis_GET (PoolKey κ) (rw_store (w_redis s))).

Definition supply_of (e : script_event) : Z :=
  match e with
  | EvReset pk limit _ => if decide (pk = PoolKey κ) then limit else 0
  | EvBorrow _ _ => 0
  end.
(** What the executed window resets have put in the pool. *)
Definition supply (s : W) : Z := zsum (supply_of <$> rw_log (w_redis s)).

(** The windows opened for [κ], newest first, and the last one as Redis
    has it. *)
Definition start_of (e : script_event) : option Z :=
  match e with
  | EvReset pk _ start => if decide (pk = PoolKey κ) then Some start else None
  | EvBorrow _ _ => None
  end.
Definition starts (s : W) : list Z := omap start_of (rw_log (w_redis s)).
Definition window_start (s : W) : Z :=
  default 0 (redis_GET (WindowStartKey κ) (rw_store (w_redis s))).

Definition admitted_of (e : string * Z) : Z :=
  if decide (e.1 = κ) then e.2 else 0.
(** What callers were allowed to do. *)
Definition admitted (s : W) : Z := zsum (admitted_of <$> w_admitted s).

Definition local_tokens (s : W) : Z := zsum (b_tokens <$> heap_of κ s).

Definition msg_tokens (m : Z * option error) : Z :=
  match m.2 with None => m.1 | Some _ => 0 end.
Definition chan_tokens (c : chan) : Z := zsum (msg_tokens <$> ch_buf c).
Definition in_channels (s : W) : Z :=
  zsum (chan_tokens <$> chans_of κ (w_chans s)).

Definition reserve (s : W) : Z :=
  P0 + supply s - admitted s - local_tokens s - in_channels s - pool_of s.

(** The configuration a borrow manager carries. *)
Definition small (z : Z) : Prop := 0 <= z <= 2 ^ 53.
Definition mgr_ok (m : BorrowManager) : Prop :=
  small (minBorrow (bm_sizer m)) ∧ small (maxBorrow (bm_sizer m)) ∧
  id_ok (bm_instanceID m).
Definition mgrs_ok (s : W) : Prop := ∀ id, mgr_ok (lget (mgr_lens id) s).

Record ledger_inv (s : W) : Prop := {
  li_pool : 0 <= pool_of s;
  li_local : Forall (λ t, 0 <= t) (b_tokens <$> heap_of κ s);
  li_chans : Forall (λ c, Forall (λ m, 0 <= msg_tokens m) (ch_buf c))
               (chans_of κ (w_chans s));
  li_admitted : 0 <= admitted s;
  li_mgrs : mgrs_ok s;
  (** every window was opened once, with at most [L] tokens *)
  li_starts : StronglySorted Z.gt (starts s);
  li_window : Forall (λ x, x <= window_start s) (starts s);
  li_exact : lua_ok (window_start s);
  li_limits : supply s <= L * Z.of_nat (length (starts s));
  li_opened : Forall Win (starts s);
}.

(** The runs considered: supplies and window starts within Lua's exact
    integers. *)
Definition ledger_lim (s : W) : Prop :=
  P0 + supply s <= 2 ^ 53 ∧ Forall lua_ok (starts s).

(** The hands of a goroutine: [g] tokens of [key]. *)
Definition credit (key : string) (g : Z) : Z := if decide (key = κ) then g else 0.

(** What code leaves alone when it does not move tokens. *)
Record same_accounts (s s' : W) : Prop := {
  sa_local : b_tokens <$> heap_of κ s' = b_tokens <$> heap_of κ s;
  sa_chans : chans_of κ (w_chans s') = chans_of κ (w_chans s);
  sa_pool : pool_of s' = pool_of s;
  sa_supply : supply s' = supply s;
  sa_admitted : admitted s' = admitted s;
  sa_mgrs : mgrs_ok s → mgrs_ok s';
  sa_starts : starts s' = starts s;
  sa_window : window_start s' = window_start s;
}.

Lemma same_accounts_refl s : same_accounts s s.
Proof. by split. Qed.

Lemma same_accounts_ok s s' :
  same_accounts s s' → ledger_inv s → ledger_inv s' ∧ reserve s' = reserve s.
Proof.
  intros [Hl Hc Hp Hs Ha Hm Hst Hw] [Ip Il Ic Ia Im Is Iw Ie It Io]. split.
  - split; rewrite ?Hp, ?Hl, ?Hc, ?Ha, ?Hst, ?Hw, ?Hs; auto.
  - unfold reserve, local_tokens, in_channels. by rewrite Hl, Hc, Hp, Hs, Ha.
Qed.

Abbreviation lwp := (wp ledger_inv ledger_lim reserve).

Lemma lwp_quiet {A} (p : go W A) c Q :
  0 <= c → quiet same_accounts p → (∀ a, Q a c) → lwp p c Q.
Proof.
  intros Hc Hp HQ. eapply wp_mono;
    [|apply (wp_quiet same_accounts); [exact same_accounts_ok|done|done]].
  cbn. by intros a c' ->.
Qed.

(** *** Bounds: no account exceeds the supply *)

Lemma zsum_member_le l x : Forall (λ t, 0 <= t) l → x ∈ l → x <= zsum l.
Proof.
  intros Hl (l1 & l2 & ->)%list_elem_of_split.
  apply Forall_app in Hl as [H1 [H2 H3]%Forall_cons].
  apply zsum_nonneg in H1, H3. rewrite zsum_app. cbn. lia.
Qed.

Lemma local_nonneg s : ledger_inv s → 0 <= local_tokens s.
Proof. intros Hi. apply zsum_nonneg, Hi. Qed.

Lemma chan_nonneg s c :
  ledger_inv s → c ∈ chans_of κ (w_chans s) → 0 <= chan_tokens c.
Proof.
  intros Hi Hc. apply zsum_nonneg, Forall_fmap.
  exact (proj1 (Forall_forall _ _) (li_chans s Hi) c Hc).
Qed.

Lemma in_channels_nonneg s : ledger_inv s → 0 <= in_channels s.
Proof.
  intros Hi. apply zsum_nonneg, Forall_fmap, Forall_forall.
  intros c Hc. by apply (chan_nonneg s).
Qed.

(** With [c] credits in hand, a bucket of [κ] can take them. *)
Lemma bucket_room s p b c :
  ledger_inv s → ledger_lim s → 0 <= c <= reserve s →
  heap_of κ s !! p = Some b → 0 <= b_tokens b ∧ b_tokens b + c <= 2 ^ 53.
Proof.
  intros Hi [Hl _] Hc Hb. unfold reserve in *.
  pose proof (in_channels_nonneg s Hi). pose proof (li_pool s Hi).
  pose proof (li_admitted s Hi). pose proof (li_local s Hi) as Ht.
  assert (Hin : b_tokens b ∈ b_tokens <$> heap_of κ s).
  { apply list_elem_of_fmap_2. by eapply list_elem_of_lookup_2. }
  pose proof (zsum_member_le _ _ Ht Hin) as Hle. fold (local_tokens s) in Hle.
  rewrite Forall_forall in Ht. specialize (Ht _ Hin). lia.
Qed.

Lemma pool_small s c :
  ledger_inv s → ledger_lim s → 0 <= c <= reserve s → 0 <= pool_of s <= 2 ^ 53.
Proof.
  intros Hi [Hl _] Hc. unfold reserve in *.
  pose proof (in_channels_nonneg s Hi). pose proof (li_pool s Hi).
  pose proof (li_admitted s Hi). pose proof (local_nonneg s Hi). lia.
Qed.

(** *** Components that hold no tokens *)

Lemma same_accounts_inst id l s :
  (mgr_ok (lget (mgr_lens id) s) → mgr_ok (l_borrowMgr l)) →
  same_accounts s (lput (inst_lens id) l s).
Proof.
  intros Hm. split; try done. intros Hs id'.
  unfold mgr_lens, inst. cbn. destruct (decide (id' = id)) as [->|Hne].
  - rewrite lookup_insert_eq. apply Hm, Hs.
  - rewrite lookup_insert_ne by done. apply (Hs id').
Qed.

#[export] Instance QuietLens_inst {T} id (f : lens limiter T)
    `{!KeepsMgr f} : QuietLens same_accounts (inst id f).
Proof. intros s t. apply same_accounts_inst. by rewrite keeps_mgr. Qed.

Lemma quiet_mgr {X} id (f : BorrowManager → X * BorrowManager) :
  (∀ m, mgr_ok m → mgr_ok (f m).2) →
  quiet same_accounts (zoom (mgr_lens id) f).
Proof.
  intros Hf. apply quiet_atomically. intros s.
  destruct (f (lget (mgr_lens id) s)) as [x m] eqn:E.
  apply same_accounts_inst. intros Hm. apply Hf in Hm. by rewrite E in Hm.
Qed.

Lemma quiet_mgr_modify id (f : BorrowManager → BorrowManager) :
  (∀ m, mgr_ok m → mgr_ok (f m)) →
  quiet same_accounts (zoom_modify (mgr_lens id) f).
Proof. intros Hf. apply (quiet_mgr id (λ m, (tt, f m))), Hf. Qed.

Lemma quiet_reads {T X} (l : lens W T) (f : T → X) :
  quiet same_accounts (zoom_reads l f).
Proof. apply quiet_zoom_reads, same_accounts_refl. Qed.

Lemma quiet_with_shard {X} id i (f : bucketShard → option (X * bucketShard)) :
  quiet same_accounts (with_shard id i f).
Proof.
  apply quiet_await. cbv zeta. intros s x s' Hs.
  destruct (lget (inst id f_shards) s !! i) as [sh|]; [|done].
  destruct (f sh) as [[y sh']|]; [|done]. injection Hs as _ <-.
  apply (QuietLens_inst id f_shards).
Qed.

Lemma quiet_metric id f : quiet same_accounts (metric id f).
Proof. apply quiet_zoom_modify, _. Qed.

Lemma quiet_wg_Add id : quiet same_accounts (wg_Add (R:=R) id).
Proof. apply quiet_zoom_modify, _. Qed.
Lemma quiet_wg_Done id : quiet same_accounts (wg_Done (R:=R) id).
Proof. apply quiet_zoom_modify, _. Qed.

(** *** Buckets *)

Lemma heap_of_put key k bs s :
  heap_of k (put_heap (R:=R) key bs s) = if decide (k = key) then bs else heap_of k s.
Proof.
  unfold heap_of, put_heap. cbn. destruct (decide (k = key)) as [->|Hne].
  - by rewrite lookup_insert_eq.
  - by rewrite lookup_insert_ne.
Qed.

(** Replacing one bucket of [κ]. *)
Lemma put_bucket_accounts s p b b' :
  heap_of κ s !! p = Some b →
  let s' := put_heap κ (<[p:=b']> (heap_of κ s)) s in
  local_tokens s' = local_tokens s - b_tokens b + b_tokens b' ∧
  (ledger_inv s → 0 <= b_tokens b' → ledger_inv s').
Proof.
  intros Hb s'.
  assert (Hh : b_tokens <$> heap_of κ s' = <[p:=b_tokens b']> (b_tokens <$> heap_of κ s)).
  { unfold s'. by rewrite heap_of_put, decide_True, list_fmap_insert. }
  split.
  - unfold local_tokens. rewrite Hh. apply zsum_insert.
    by rewrite list_lookup_fmap, Hb.
  - intros [Ip Il Ic Ia Im Is Iw Ie It Io] H0'. split; try done. rewrite Hh.
    by apply Forall_insert.
Qed.

Lemma quiet_on_bucket {X} key p (f : bucket → X * bucket) :
  (∀ b, b_tokens (f b).2 = b_tokens b) →
  quiet same_accounts (on_bucket key p f).
Proof.
  intros Hf. apply quiet_await. intros s x s' Hs.
  destruct (heap_of key s !! p) as [b|] eqn:Hb; [|done].
  specialize (Hf b). destruct (f b) as [y b']. injection Hs as _ <-. cbn in Hf.
  split; try done. rewrite heap_of_put. destruct (decide (κ = key)) as [<-|];
    [|done]. rewrite list_fmap_insert, Hf. apply list_insert_id.
  by rewrite list_lookup_fmap, Hb.
Qed.

Lemma quiet_other_bucket {X} key p (f : bucket → X * bucket) :
  key ≠ κ → quiet same_accounts (on_bucket key p f).
Proof.
  intros Hne. apply quiet_await. intros s x s' Hs.
  destruct (heap_of key s !! p) as [b|]; [|done].
  destruct (f b) as [y b']. injection Hs as _ <-.
  split; try done. by rewrite heap_of_put, decide_False.
Qed.

Lemma quiet_bucket_do key p f :
  (∀ b, b_tokens (f b) = b_tokens b) → quiet same_accounts (bucket_do (R:=R) key p f).
Proof. intros Hf. by apply quiet_on_bucket. Qed.
Lemma quiet_bucket_get {X} key p (f : bucket → X) :
  quiet same_accounts (bucket_get (R:=R) key p f).
Proof. by apply quiet_on_bucket. Qed.

Lemma quiet_bucket_Lock key p : quiet same_accounts (bucket_Lock (R:=R) key p).
Proof.
  apply quiet_await. intros s x s' Hs.
  destruct (heap_of key s !! p) as [b|] eqn:Hb; [|done].
  destruct (b_mu b); [done|]. injection Hs as _ <-.
  split; try done. rewrite heap_of_put. destruct (decide (κ = key)) as [<-|];
    [|done]. rewrite list_fmap_insert. apply list_insert_id.
  by rewrite list_lookup_fmap, Hb.
Qed.

Lemma quiet_bucket_Unlock key p : quiet same_accounts (bucket_Unlock (R:=R) key p).
Proof. by apply quiet_bucket_do. Qed.

(** An operation on a bucket of [κ] pays for what it adds and is paid what
    it removes. *)
Lemma lwp_on_bucket {X} p (f : bucket → X * bucket) c Q :
  0 <= c →
  (∀ b x b', f b = (x, b') → 0 <= b_tokens b → b_tokens b + c <= 2 ^ 53 →
     0 <= b_tokens b' ∧
     ∃ c', 0 <= c' ∧ c' <= c + b_tokens b - b_tokens b' ∧ Q x c') →
  lwp (on_bucket κ p f) c Q.
Proof.
  intros Hc Hf s x s' Hi Hl _ HΦ Hs.
  destruct (heap_of κ s !! p) as [b|] eqn:Hb; [|done].
  destruct (f b) as [y b'] eqn:E. injection Hs as <- <-.
  destruct (bucket_room s p b c Hi Hl ltac:(lia) Hb) as [H0b Hroom].
  destruct (Hf b y b' E H0b Hroom) as (H0b' & c' & Hc' & Hle & HQ).
  destruct (put_bucket_accounts s p b b' Hb) as [Hlt Hinv].
  split; [by apply Hinv|]. exists c'. split; [done|]. split; [|done].
  set (s' := put_heap _ _ _) in *.
  assert (reserve s' = P0 + supply s - admitted s - local_tokens s'
                       - in_channels s - pool_of s) as -> by done.
  unfold reserve. lia.
Qed.

Lemma credit_self g : credit κ g = g.
Proof. unfold credit. by rewrite decide_True. Qed.
Lemma credit_other key g : key ≠ κ → credit key g = 0.
Proof. intros. unfold credit. by rewrite decide_False. Qed.
Lemma credit_nonneg key g : 0 <= g → 0 <= credit key g.
Proof. unfold credit. by destruct (decide _). Qed.
Lemma credit_zero key : credit key 0 = 0.
Proof. unfold credit. by destruct (decide _). Qed.

(** [tryConsume] pays the tokens it takes. *)
Lemma lwp_tryConsume key p n c (Q : bool → Z → Prop) :
  0 <= c → 0 <= n <= 2 ^ 53 →
  Q true (c + credit key n) → Q false c →
  lwp (on_bucket key p (tryConsume n)) c Q.
Proof.
  intros Hc Hn Ht Hf. destruct (decide (key = κ)) as [->|Hne].
  - rewrite credit_self in Ht. apply lwp_on_bucket; [done|].
    intros b x b' E H0b Hroom. unfold tryConsume in E.
    rewrite TryConsume_spec in E; [|lia|unfold lb_wf, b_tokens in *; lia].
    unfold b_tokens in *.
    destruct (Z.ltb_spec (tokens (b_local b)) n); injection E as <- <-; cbn.
    + split; [done|]. exists c. repeat split; [done|lia|done].
    + split; [lia|]. exists (c + n). repeat split; [lia|lia|done].
  - rewrite credit_other, Z.add_0_r in Ht by done.
    apply lwp_quiet; [done|by apply quiet_other_bucket|]. by intros [].
Qed.

(** [refill] costs what it puts in. *)
Lemma lwp_refill key p g c (Q : unit → Z → Prop) :
  0 <= g → credit key g <= c → Q tt (c - credit key g) →
  lwp (bucket_do key p (refill g)) c Q.
Proof.
  intros Hg Hc HQ. pose proof (credit_nonneg key g Hg).
  destruct (decide (key = κ)) as [->|Hne].
  - rewrite credit_self in *. apply lwp_on_bucket; [lia|].
    intros b x b' [= <- <-] H0b Hroom.
    unfold b_tokens, refill, Refill in *. cbn in *.
    rewrite (to_i64_small g) by go_lia. rewrite to_i64_small by go_lia.
    split; [lia|]. exists (c - g). repeat split; [lia|lia|done].
  - rewrite credit_other in * by done. rewrite Z.sub_0_r in HQ.
    apply lwp_quiet; [lia|by apply quiet_other_bucket|]. by intros [].
Qed.

Lemma lwp_drain key p c (Q : Z → Z → Prop) :
  0 <= c → (∀ v, Q v c) → lwp (on_bucket key p drain) c Q.
Proof.
  intros Hc HQ. destruct (decide (key = κ)) as [->|Hne].
  - apply lwp_on_bucket; [done|]. intros b x b' [= <- <-] H0b Hroom.
    unfold b_tokens in *. cbn. split; [lia|]. exists c.
    repeat split; [done|lia|done].
  - apply lwp_quiet; [done|by apply quiet_other_bucket|done].
Qed.

(** Reading a bucket. *)
Lemma lwp_bucket_get {X} key p (f : bucket → X) c (Q : X → Z → Prop) :
  0 <= c →
  (∀ b, (key = κ → 0 <= b_tokens b <= 2 ^ 53) → Q (f b) c) →
  lwp (bucket_get key p f) c Q.
Proof.
  intros Hc HQ. destruct (decide (key = κ)) as [->|Hne].
  - apply lwp_on_bucket; [done|]. intros b x b' [= <- <-] H0b Hroom.
    split; [done|]. exists c. repeat split; [done|lia|].
    apply HQ. intros _. lia.
  - intros s x s' Hi _ _ _ Hs.
    destruct (quiet_bucket_get key p f) as [HE _].
    destruct (same_accounts_ok s s' (HE s x s' Hs) Hi) as [Hi' HΦ].
    split; [done|]. exists c. repeat split; [done|lia|].
    destruct (heap_of key s !! p) as [b|]; [|done].
    injection Hs as <- _. by apply HQ.
Qed.

Lemma lwp_remaining key p c (Q : Z → Z → Prop) :
  0 <= c → (∀ v, 0 <= v → (key = κ → v <= 2 ^ 53) → Q v c) →
  lwp (bucket_get key p remaining) c Q.
Proof.
  intros Hc HQ. apply lwp_bucket_get; [done|]. intros b Hb.
  unfold remaining, Remaining, b_tokens in *. apply HQ.
  - destruct (Z.ltb_spec (tokens (b_local b)) 0); [done|].
    pose proof (to_u64_range (tokens (b_local b))). go_lia.
  - intros Hk. specialize (Hb Hk).
    destruct (Z.ltb_spec (tokens (b_local b)) 0); [lia|].
    rewrite to_u64_small; [lia|go_lia].
Qed.

(** A new bucket is empty. *)
Lemma lwp_alloc_bucket key b c (Q : nat → Z → Prop) :
  0 <= c → b_tokens b = 0 → (∀ p, Q p c) → lwp (alloc_bucket key b) c Q.
Proof.
  intros Hc Hb HQ. apply wp_atomically. cbn. intros s Hi _ _ _.
  set (s' := put_heap key _ s).
  assert (Hh : b_tokens <$> heap_of κ s' = (b_tokens <$> heap_of κ s) ++
                 if decide (κ = key) then [0] else []).
  { unfold s'. rewrite heap_of_put. destruct (decide (κ = key)) as [<-|];
      [by rewrite fmap_app; cbn; rewrite Hb|by rewrite app_nil_r]. }
  assert (Hlt : local_tokens s' = local_tokens s).
  { unfold local_tokens. rewrite Hh, zsum_app.
    destruct (decide (κ = key)); cbn; lia. }
  split.
  - destruct Hi as [Ip Il Ic Ia Im Is Iw Ie It Io]. split; try done. rewrite Hh.
    apply Forall_app. split; [done|]. destruct (decide (κ = key));
      repeat constructor. done.
  - exists c. repeat split; [done| |apply HQ].
    assert (reserve s' = reserve s) as ->; [|lia].
    unfold reserve. by rewrite Hlt.
Qed.

(** *** Channels *)

Definition set_chans (key : string) (l : list chan) (s : W) : W :=
  lput chans_lens (<[key:=l]> (w_chans s)) s.

Lemma chans_of_set key l s :
  chans_of κ (w_chans (set_chans key l s)) =
    if decide (κ = key) then l else chans_of κ (w_chans s).
Proof.
  unfold chans_of, set_chans. cbn. destruct (decide (κ = key)) as [->|Hne].
  - by rewrite lookup_insert_eq.
  - by rewrite lookup_insert_ne.
Qed.

Lemma set_chans_accounts l s :
  Forall (λ c, Forall (λ m, 0 <= msg_tokens m) (ch_buf c)) l →
  ledger_inv s →
  ledger_inv (set_chans κ l s) ∧
  reserve (set_chans κ l s)
    = reserve s + in_channels s - zsum (chan_tokens <$> l).
Proof.
  intros Hl [Ip Il Ic Ia Im Is Iw Ie It Io].
  assert (Hc : chans_of κ (w_chans (set_chans κ l s)) = l)
    by by rewrite chans_of_set, decide_True.
  split; [split; try done; by rewrite Hc|].
  assert (reserve (set_chans κ l s) = P0 + supply s - admitted s
    - local_tokens s - in_channels (set_chans κ l s) - pool_of s) as -> by done.
  unfold reserve. unfold in_channels at 1. rewrite Hc. lia.
Qed.

Lemma set_chans_other key l s : key ≠ κ → same_accounts s (set_chans key l s).
Proof.
  intros Hne. split; try done. rewrite chans_of_set. by rewrite decide_False.
Qed.

Lemma lwp_make_chan key cap c (Q : nat → Z → Prop) :
  0 <= c → (∀ ch, Q ch c) → lwp (make_chan chans_lens key cap) c Q.
Proof.
  intros Hc HQ. apply wp_atomically. intros s Hi _ _ _.
  cbn [fst snd lget chans_lens].
  fold (set_chans key (chans_of key (w_chans s) ++ [mkChan cap []]) s).
  destruct (decide (key = κ)) as [->|Hne].
  - destruct (set_chans_accounts
      (chans_of κ (w_chans s) ++ [mkChan cap []]) s) as [Hi' HΦ]; [|done|].
    { apply Forall_app. split; [apply Hi|]. by repeat constructor. }
    split; [exact Hi'|]. exists c. repeat split; [done| |apply HQ].
    fold (set_chans κ (chans_of κ (w_chans s) ++ [mkChan cap []]) s).
    rewrite HΦ, fmap_app, zsum_app. unfold in_channels. cbn. lia.
  - destruct (same_accounts_ok s _ (set_chans_other key
      (chans_of key (w_chans s) ++ [mkChan cap []]) s Hne) Hi) as [Hi' HΦ].
    split; [exact Hi'|]. exists c. repeat split; [done| |apply HQ].
    fold (set_chans key (chans_of key (w_chans s) ++ [mkChan cap []]) s).
    rewrite HΦ. lia.
Qed.

(** The tokens a message carries, as credits. *)
Definition msg_credit (key : string) (m : Z * option error) : Z :=
  credit key (msg_tokens m).

Lemma lwp_send key ch m c (Q : unit → Z → Prop) :
  0 <= msg_tokens m → msg_credit key m <= c → Q tt (c - msg_credit key m) →
  lwp (send chans_lens key ch m) c Q.
Proof.
  unfold msg_credit. intros Hm Hc HQ s x s' Hi _ _ _ Hs.
  cbv zeta in Hs. cbn [lget chans_lens] in Hs.
  destruct (chans_of key (w_chans s) !! ch) as [chn|] eqn:Hch; [|done].
  destruct (length (ch_buf chn) <? ch_cap chn)%nat; [|done].
  injection Hs as <- <-.
  set (chn' := mkChan (ch_cap chn) (ch_buf chn ++ [m])).
  fold (set_chans key (<[ch:=chn']> (chans_of key (w_chans s))) s).
  pose proof (credit_nonneg key _ Hm).
  destruct (decide (key = κ)) as [->|Hne].
  - assert (Hb : Forall (λ m, 0 <= msg_tokens m) (ch_buf chn)).
    { exact (Forall_lookup_1 _ _ _ _ (li_chans s Hi) Hch). }
    destruct (set_chans_accounts (<[ch:=chn']> (chans_of κ (w_chans s))) s)
      as [Hi' HΦ]; [|done|].
    { apply Forall_insert; [apply Hi|]. apply Forall_app. by repeat constructor. }
    split; [exact Hi'|]. rewrite credit_self in *.
    exists (c - msg_tokens m). repeat split; [lia| |exact HQ].
    change (c - msg_tokens m <= c + reserve
      (set_chans κ (<[ch:=chn']> (chans_of κ (w_chans s))) s) - reserve s).
    rewrite HΦ, list_fmap_insert, (zsum_insert _ _ (chan_tokens chn))
      by by rewrite list_lookup_fmap, Hch.
    unfold in_channels, chan_tokens at 3. cbn.
    rewrite fmap_app, zsum_app. cbn. fold (chan_tokens chn). lia.
  - destruct (same_accounts_ok s _ (set_chans_other key
      (<[ch:=chn']> (chans_of key (w_chans s))) s Hne) Hi) as [Hi' HΦ].
    split; [exact Hi'|]. rewrite credit_other in * by done.
    exists c. repeat split; [lia| |by rewrite Z.sub_0_r in HQ].
    change (c <= c + reserve
      (set_chans key (<[ch:=chn']> (chans_of key (w_chans s))) s) - reserve s).
    rewrite HΦ. lia.
Qed.

Lemma lwp_recv key ch c (Q : Z * option error → Z → Prop) :
  0 <= c →
  (∀ m, (key = κ → 0 <= msg_tokens m) → Q m (c + msg_credit key m)) →
  lwp (recv chans_lens key ch) c Q.
Proof.
  unfold msg_credit. intros Hc HQ s x s' Hi _ _ _ Hs.
  cbv zeta in Hs. cbn [lget chans_lens] in Hs.
  destruct (chans_of key (w_chans s) !! ch) as [[cap [|m buf]]|] eqn:Hch;
    [done| |done].
  injection Hs as <- <-.
  fold (set_chans key (<[ch:=mkChan cap buf]> (chans_of key (w_chans s))) s).
  destruct (decide (key = κ)) as [->|Hne].
  - pose proof (Forall_lookup_1 _ _ _ _ (li_chans s Hi) Hch) as Hb.
    cbn in Hb. apply Forall_cons in Hb as [Hm Hb].
    destruct (set_chans_accounts
      (<[ch:=mkChan cap buf]> (chans_of κ (w_chans s))) s) as [Hi' HΦ]; [|done|].
    { by apply Forall_insert; [apply Hi|]. }
    split; [exact Hi'|]. specialize (HQ m (λ _, Hm)). rewrite credit_self in HQ.
    exists (c + msg_tokens m). repeat split; [lia| |exact HQ].
    change (c + msg_tokens m <= c + reserve
      (set_chans κ (<[ch:=mkChan cap buf]> (chans_of κ (w_chans s))) s) - reserve s).
    rewrite HΦ, list_fmap_insert, (zsum_insert _ _ (chan_tokens (mkChan cap (m :: buf))))
      by by rewrite list_lookup_fmap, Hch.
    unfold in_channels. unfold chan_tokens at 3 4. cbn. lia.
  - destruct (same_accounts_ok s _ (set_chans_other key
      (<[ch:=mkChan cap buf]> (chans_of key (w_chans s))) s Hne) Hi) as [Hi' HΦ].
    split; [exact Hi'|]. specialize (HQ m (λ E, False_ind _ (Hne E))).
    rewrite credit_other in HQ by done.
    exists c. repeat split; [lia| |by rewrite Z.add_0_r in HQ].
    change (c <= c + reserve
      (set_chans key (<[ch:=mkChan cap buf]> (chans_of key (w_chans s))) s) - reserve s).
    rewrite HΦ. lia.
Qed.

Lemma lwp_quiet_bind {A B} (p : go W A) (k : A → go W B) c Q :
  0 <= c → quiet same_accounts p → (∀ a, lwp (k a) c Q) → lwp (bind p k) c Q.
Proof. intros Hc Hp Hk. apply wp_bind. by apply lwp_quiet. Qed.

(** Commands of the membership: no pool key is touched. *)
Lemma quiet_redis_write (f : R → R) :
  (∀ k r, redis_GET k (f r) = redis_GET k r) →
  quiet same_accounts (redis_write redis_lens f).
Proof.
  intros Hf. unfold redis_write.
  assert (Hw : quiet same_accounts (zoom_modify redis_lens
            (λ w, mkRW (f (rw_store w)) (rw_log w)))).
  { apply quiet_atomically. intros s. split; try done.
    - unfold pool_of. cbn. by rewrite Hf.
    - unfold window_start. cbn. by rewrite Hf. }
  apply quiet_bind; [apply quiet_ask|]. intros [| |]; [|exact I|];
    (apply quiet_bind; [exact Hw|intros; exact I]).
Qed.
End ledger.

#[export] Hint Resolve quiet_reads quiet_with_shard quiet_metric quiet_wg_Add
  quiet_wg_Done quiet_bucket_get quiet_bucket_Lock quiet_bucket_Unlock : quiet.
