(* ===== verification/Safety.v ===== *)
(** * Safety: the rate limit holds over every interleaving

    The credit rules of [Ledger] are lifted to the methods of every component
    and to [AllowN]; the soundness of the credit logic then bounds, in every
    reachable state of every cluster, the requests admitted for a key by what
    its windows supplied. *)

From S2P Require Export Ledger.

Section safety.
Context {R : Type} `{RedisLaws R} `{FloatConv} (κ : string) (P0 L : Z) (Win : Z → Prop).
Abbreviation W := (world R).
Abbreviation lwp := (wp (ledger_inv κ L Win) (ledger_lim κ P0) (reserve κ P0)).
Abbreviation same := (same_accounts κ).
Abbreviation cr := (credit κ).

(** The outcome of an operation that acquires tokens of [key]: without an
    error they are in the caller's hands. *)
Definition acquired (key : string) (c : Z) (r : Z * option error) (c' : Z) : Prop :=
  c <= c' ∧ (r.2 = None → 0 <= r.1 ∧ c + cr key r.1 <= c').

(** *** The scripts *)

Lemma borrow_script_accounts key id req ttl now s g r :
  id_ok id → small req → ledger_inv κ L Win s → 0 <= pool_of κ s <= 2 ^ 53 →
  borrowLua (PoolKey key) (BorrowedKey key id) req ttl now (rw_store (w_redis s))
    = (g, r) →
  let s' := lput redis_lens (mkRW r (EvBorrow (PoolKey key) g :: rw_log (w_redis s))) s in
  0 <= g <= req ∧ ledger_inv κ L Win s' ∧ reserve κ P0 s' = reserve κ P0 s + cr key g.
Proof.
  intros Hid Hreq Hi Hpool E s'.
  assert (Hg : 0 <= g <= req).
  { revert E. unfold borrowLua. unfold small in *.
    rewrite (tonumber_exact req) by lia.
    destruct (Z.leb_spec (lua_tonumber (default 0
      (redis_GET (PoolKey key) (rw_store (w_redis s))))) 0);
      intros [= <- _]; lia. }
  assert (Hspec : key = κ → g <= pool_of κ s ∧
            default 0 (redis_GET (PoolKey κ) r) = pool_of κ s - g).
  { intros ->. unfold small, pool_of in *.
    destruct (borrowLua_spec (PoolKey κ) (BorrowedKey κ id) req ttl now
                (rw_store (w_redis s)) g r) as [H1' H2'].
    - intros Heq. by apply (proj1 (Hid κ κ)).
    - lia.
    - unfold lua_ok. lia.
    - unfold lua_ok. lia.
    - lia.
    - exact E.
    - split; [lia|exact H2']. }
  assert (Hp : pool_of κ s' = pool_of κ s - cr key g).
  { unfold pool_of, s'. cbn. destruct (decide (key = κ)) as [->|Hne].
    - rewrite credit_self. by apply Hspec.
    - rewrite credit_other, Z.sub_0_r by done. f_equal.
      pose proof (borrowLua_other (PoolKey κ) (PoolKey key) (BorrowedKey key id)
        req ttl now (rw_store (w_redis s))) as Ho.
      rewrite E in Ho. cbn in Ho. apply Ho.
      + by intros ->%PoolKey_inj.
      + intros Heq. by apply (proj1 (Hid key κ)). }
  assert (Hnn : 0 <= pool_of κ s').
  { rewrite Hp. destruct (decide (key = κ)) as [->|Hne].
    - rewrite credit_self. destruct (Hspec eq_refl). lia.
    - rewrite credit_other by done. lia. }
  split; [done|]. split.
  - assert (Hw : window_start κ s' = window_start κ s).
    { unfold window_start, s'. cbn. f_equal.
      pose proof (borrowLua_other (WindowStartKey κ) (PoolKey key)
        (BorrowedKey key id) req ttl now (rw_store (w_redis s))) as Ho.
      rewrite E in Ho. cbn in Ho. apply Ho.
      - intros Heq. by apply (PoolKey_WindowStartKey key κ).
      - intros Heq. by apply (proj2 (Hid key κ)). }
    destruct Hi as [Ip Il Ic Ia Im Is Iw Ie It Io]. by split; rewrite ?Hw.
  - assert (reserve κ P0 s' = P0 + supply κ s - admitted κ s - local_tokens κ s
      - in_channels κ s - pool_of κ s') as -> by done.
    unfold reserve. lia.
Qed.

Lemma lwp_run_borrow key id req ttl now c (Q : reply → Z → Prop) :
  0 <= c → id_ok id → small req →
  (∀ g, 0 <= g <= req → Q (RInt g) (c + cr key g)) →
  lwp (zoom redis_lens (run_body BorrowScript
         [PoolKey key; BorrowedKey key id] [req; ttl; now])) c Q.
Proof.
  intros Hc Hid Hreq HQ. apply wp_atomically. intros s Hi Hl _ HΦ.
  pose proof (pool_small κ P0 L Win s c Hi Hl ltac:(lia)) as Hpool.
  cbn [lget redis_lens run_body].
  destruct (borrowLua (PoolKey key) (BorrowedKey key id) req ttl now
              (rw_store (w_redis s))) as [g r] eqn:E.
  destruct (borrow_script_accounts key id req ttl now s g r Hid Hreq Hi Hpool E)
    as (Hg & Hi' & HΦ'). cbn [fst snd].
  split; [exact Hi'|]. exists (c + cr key g).
  pose proof (credit_nonneg κ key g ltac:(lia)).
  repeat split; [lia|lia|by apply HQ].
Qed.

(** A reset that the script executed. *)
Definition after_reset (key : string) (limit start : Z) (s : W) : W :=
  lput redis_lens
    (mkRW (redis_SET (WindowStartKey key) (lua_tonumber start)
             (redis_SET (PoolKey key) limit (rw_store (w_redis s))))
          (EvReset (PoolKey key) limit start :: rw_log (w_redis s))) s.

Lemma after_reset_other key limit start s :
  key ≠ κ → same s (after_reset key limit start s).
Proof.
  intros Hne. split; try done.
  - unfold pool_of, after_reset. cbn. rewrite !GET_SET_ne; [done| |].
    + by intros ->%PoolKey_inj.
    + apply PoolKey_WindowStartKey.
  - unfold supply, after_reset. cbn. rewrite decide_False; [done|].
    by intros ->%PoolKey_inj.
  - unfold starts, after_reset. cbn. rewrite decide_False; [done|].
    by intros ->%PoolKey_inj.
  - unfold window_start, after_reset. cbn. rewrite !GET_SET_ne; [done| |].
    + intros Heq. by apply (PoolKey_WindowStartKey key κ).
    + by intros ->%WindowStartKey_inj.
Qed.

Lemma after_reset_self limit start s :
  let s' := after_reset κ limit start s in
  pool_of κ s' = limit ∧ supply κ s' = limit + supply κ s ∧
  starts κ s' = start :: starts κ s ∧ window_start κ s' = lua_tonumber start.
Proof.
  unfold pool_of, supply, starts, window_start, after_reset. cbn.
  rewrite !decide_True by done.
  rewrite GET_SET_ne by apply PoolKey_WindowStartKey. by rewrite !GET_SET.
Qed.

Lemma after_reset_accounts key limit start s :
  ledger_inv κ L Win s → ledger_lim κ P0 (after_reset key limit start s) →
  0 <= limit <= L → Win start →
  lua_tonumber (default 0 (redis_GET (WindowStartKey key) (rw_store (w_redis s))))
    < lua_tonumber start →
  ledger_inv κ L Win (after_reset key limit start s) ∧
  reserve κ P0 s <= reserve κ P0 (after_reset key limit start s).
Proof.
  intros Hi Hlim Hl Hwin Hlt. destruct (decide (key = κ)) as [->|Hne].
  - destruct (after_reset_self limit start s) as (Hp & Hs & Hst & Hw).
    set (s' := after_reset κ limit start s) in *.
    destruct Hlim as [_ Hlim]. rewrite Hst in Hlim.
    apply Forall_cons in Hlim as [Hstart _].
    destruct Hi as [Ip Il Ic Ia Im Is Iw Ie It Io].
    fold (window_start κ s) in Hlt.
    rewrite (tonumber_exact start) in Hw, Hlt by done.
    rewrite (tonumber_exact (window_start κ s)) in Hlt by done. split.
    + split; try done.
      * lia.
      * rewrite Hst. constructor; [done|].
        eapply Forall_impl; [exact Iw|]. cbn. lia.
      * rewrite Hst, Hw. constructor; [lia|].
        eapply Forall_impl; [exact Iw|]. cbn. lia.
      * by rewrite Hw.
      * rewrite Hst, Hs. cbn [length]. lia.
      * rewrite Hst. by constructor.
    + assert (reserve κ P0 s' = P0 + supply κ s' - admitted κ s
        - local_tokens κ s - in_channels κ s - pool_of κ s') as -> by done.
      rewrite Hp, Hs. unfold reserve. lia.
  - destruct (same_accounts_ok κ P0 L Win s _ (after_reset_other key limit start s Hne) Hi)
      as [Hi' HΦ]. split; [done|lia].
Qed.

Lemma lwp_run_reset key limit start c (Q : reply → Z → Prop) :
  0 <= c → small limit → limit <= L → Win start → (∀ v, Q v c) →
  lwp (zoom redis_lens (run_body ResetScript
         [PoolKey key; WindowStartKey key; ConfigKey key] [limit; start])) c Q.
Proof.
  intros Hc Hlim HL Hwin HQ. apply wp_atomically. intros s Hi _ Hl' HΦ. revert Hl'.
  cbn [lget redis_lens run_body].
  unfold windowResetLua. unfold small in *. rewrite (tonumber_exact limit) by lia.
  destruct (Z.ltb_spec (lua_tonumber (default 0 (redis_GET (WindowStartKey key)
    (rw_store (w_redis s))))) (lua_tonumber start)); cbn [fst snd].
  - change (1 =? 1) with true. cbn iota. fold (after_reset key limit start s).
    intros Hl'. destruct (after_reset_accounts key limit start s)
      as [Hi' HΦ']; [done|done|lia|done|done|].
    split; [done|]. exists c. repeat split; [done|lia|apply HQ].
  - change (0 =? 1) with false.
    assert (Hs : lput redis_lens
      (mkRW (rw_store (w_redis s)) (rw_log (w_redis s))) s = s)
      by by destruct s as [? ? [] ? ?].
    cbn iota. rewrite Hs. intros _. split; [done|]. exists c.
    repeat split; [done|lia|apply HQ].
Qed.

(** *** The pool client *)

Lemma lwp_redis_eval sc keys args c (Q : reply * option error → Z → Prop) :
  lwp (zoom redis_lens (run_body sc keys args)) c
    (λ v c', Q (v, None) c' ∧ ∀ e, Q (ROther, Some e) c') →
  (∀ e, Q (ROther, Some e) c) →
  lwp (redis_eval redis_lens sc keys args) c Q.
Proof.
  intros Hw He. unfold redis_eval. apply wp_bind, wp_ask. intros [| |e] _.
  - apply wp_bind. eapply wp_mono; [|exact Hw]. cbn. tauto.
  - apply He.
  - apply wp_bind. eapply wp_mono; [|exact Hw]. cbn. naive_solver.
Qed.

(** Either attempt of [runScript] gives the reply. *)
Lemma lwp_runScript name sc keys args c (Q : reply * option error → Z → Prop)
    (P : reply * option error → Z → Z → Prop) :
  scripts NewRedisPool !! name = Some sc →
  (∀ c0, c <= c0 → lwp (redis_eval redis_lens sc keys args) c0 (λ r c', P r c0 c')) →
  (∀ r c0 c', c <= c0 → P r c0 c' → c0 <= c' ∧ Q r c') →
  lwp (runScript redis_lens NewRedisPool name keys args) c Q.
Proof.
  intros Hsc Hev HQ. unfold runScript. rewrite Hsc. apply wp_bind.
  eapply wp_mono; [|by apply Hev]. intros [v err] c1 Hev1. cbn beta iota.
  destruct (HQ _ c c1 ltac:(lia) Hev1) as [Hc1 HQ1].
  destruct (isNoScriptErr err); [|exact HQ1].
  eapply wp_mono; [|by apply Hev]. intros r c2 Hev2.
  by apply (HQ r c1 c2).
Qed.

Lemma lwp_RP_Borrow key id requested ttl c (Q : Z * option error → Z → Prop) :
  0 <= c → id_ok id → small requested →
  (∀ r c', acquired key c r c' → Q r c') →
  lwp (RP_Borrow redis_lens NewRedisPool key id requested ttl) c Q.
Proof.
  intros Hc Hid Hreq HQ. unfold RP_Borrow. apply wp_bind, wp_ask.
  intros now _. rewrite (to_i64_small requested)
    by (unfold small in *; go_lia).
  apply wp_bind.
  apply (lwp_runScript "borrow" BorrowScript _ _ _ _ (λ r c0 c', c0 <= c' ∧
    (r.2 = None → ∃ g, r.1 = RInt g ∧ 0 <= g <= requested ∧ c0 + cr key g <= c')));
    [done| |].
  - intros c0 Hc0. apply lwp_redis_eval; [|intros e; split; [lia|done]].
    apply lwp_run_borrow; [lia|done|done|]. intros g Hg.
    pose proof (credit_nonneg κ key g ltac:(lia)).
    split; [|intros e; split; [lia|done]]. split; [lia|]. eauto with lia.
  - intros [v [e|]] c0 c' Hc0 [Hle Hr]; cbn in *; (split; [done|]).
    { apply HQ. split; [cbn; lia|done]. }
    destruct (Hr eq_refl) as (g & -> & Hg & Hle'). cbn.
    rewrite (to_u64_small g) by (unfold small in *; go_lia).
    apply HQ. split; cbn; [lia|]. intros _. lia.
Qed.

Lemma lwp_RP_ResetWindow key limit start c (Q : option error → Z → Prop) :
  0 <= c → small limit → limit <= L → Win start → (∀ err c', c <= c' → Q err c') →
  lwp (RP_ResetWindow redis_lens NewRedisPool key limit start) c Q.
Proof.
  intros Hc Hlim HL Hwin HQ. unfold RP_ResetWindow. apply wp_bind.
  rewrite (to_i64_small limit) by (unfold small in *; go_lia).
  apply (lwp_runScript "reset" ResetScript _ _ _ _ (λ _ c0 c', c0 <= c'));
    [done| |].
  - intros c0 Hc0. apply lwp_redis_eval; [|lia].
    apply lwp_run_reset; [lia|done|done|done|]. intros v. split; lia.
  - intros [v err] c0 c' Hc0 Hle. split; [done|]. apply HQ. lia.
Qed.

(** *** The borrow manager *)

Lemma ComputeBorrowSize_small s :
  small (minBorrow s) → small (maxBorrow s) → small (ComputeBorrowSize s).
Proof.
  intros Hmin Hmax. unfold ComputeBorrowSize. destruct (_ || _); [done|].
  set (r := f64_to_u64 _).
  destruct (Z.ltb_spec r (minBorrow s)); [done|].
  destruct (Z.ltb_spec (maxBorrow s) r); [done|]. unfold small in *. lia.
Qed.

#[local] Existing Instance limiter_pool.

Lemma quiet_sizer_Record id n :
  quiet same (zoom_modify (mgr_lens (R:=R) id)
    (λ m, with_sizer (sizer_Record n (bm_sizer m)) m)).
Proof. by apply quiet_mgr_modify. Qed.

Lemma quiet_note_borrow id key g t1 t2 :
  quiet same (zoom_modify (mgr_lens (R:=R) id) (note_borrow key g t1 t2)).
Proof. by apply quiet_mgr_modify. Qed.

(** A callback that puts [g] tokens of [key] where they belong. *)
Definition puts_back (key : string) (cb : Z → go W unit) : Prop :=
  ∀ g c, 0 <= g → 0 <= c → lwp (cb g) (c + cr key g) (λ _ c', c <= c').

Lemma puts_back_from key cb g c c' (Q : unit → Z → Prop) :
  puts_back key cb → 0 <= g → 0 <= c → c + cr key g <= c' →
  (∀ c'', c <= c'' → Q tt c'') → lwp (cb g) c' Q.
Proof.
  intros Hcb Hg Hc Hle HQ. replace c' with ((c' - cr key g) + cr key g) by lia.
  eapply wp_mono; [|apply Hcb; lia]. cbn. intros [] c'' Hc''. apply HQ. lia.
Qed.

Lemma lwp_Acquire id key need cb c (Q : Z * option error → Z → Prop) :
  0 <= c → small need → puts_back key cb →
  (∀ r c', c <= c' → Q r c') →
  lwp (Acquire (mgr_lens id) None key need (Some cb)) c Q.
Proof.
  intros Hc Hneed Hcb HQ. unfold Acquire. apply wp_bind, wp_ask.
  intros shared _. apply wp_bind.
  assert (Hrest : ∀ r c', c <= c' →
    lwp (let '(granted, err) := r in
         match err with
         | Some e => Ret (0, Some e)
         | None => if granted =? 0 then Ret (0, None)
             else zoom_modify (mgr_lens id)
                    (λ m, with_sizer (sizer_Record granted (bm_sizer m)) m) ;;;
                  Ret tt ;;; Ret (granted, None)
         end) c' Q).
  { intros [g [e|]] c' Hc'; [by apply HQ|].
    destruct (g =? 0); [by apply HQ|].
    apply lwp_quiet_bind; [lia|apply quiet_sizer_Record|].
    intros _. by apply HQ. }
  destruct shared as [r|]; [by apply Hrest|].
  unfold acquire_leader.
  apply wp_bind, wp_reads; [done|]. intros s Hi _.
  apply wp_bind, wp_reads; [done|]. intros s' Hi' _.
  pose proof (li_mgrs κ L Win s Hi id) as (Hmin & Hmax & _).
  pose proof (li_mgrs κ L Win s' Hi' id) as (_ & _ & Hid).
  set (size := ComputeBorrowSize _).
  assert (Hsize : small (if size <? need then need else size)).
  { destruct (size <? need); [done|]. by apply ComputeBorrowSize_small. }
  apply wp_bind, lwp_RP_Borrow; [done|done|done|].
  intros [g [e|]] c' [Hle Hacq]; cbn in Hle, Hacq; [by apply Hrest|].
  destruct (Hacq eq_refl) as [Hg Hle'].
  destruct (Z.ltb_spec 0 g); [|by apply Hrest].
  apply wp_bind. eapply puts_back_from; [done|lia|exact Hc|exact Hle'|].
  intros c'' Hc''. apply lwp_quiet_bind; [lia|apply quiet_ask|]. intros t1.
  apply lwp_quiet_bind; [lia|apply quiet_ask|]. intros t2.
  apply lwp_quiet_bind; [lia|apply quiet_note_borrow|]. intros _.
  by apply Hrest.
Qed.

(** *** Buckets and the token server *)

Lemma lwp_getOrCreateBucket (o : options W) key c (Q : nat → Z → Prop) :
  0 <= c → (∀ p, Q p c) → lwp (getOrCreateBucket o key) c Q.
Proof.
  intros Hc HQ. unfold getOrCreateBucket.
  apply lwp_quiet_bind; [done|apply quiet_with_shard|]. intros _.
  apply lwp_quiet_bind; [done|apply quiet_with_shard|]. intros hit.
  apply lwp_quiet_bind; [done|apply quiet_with_shard|]. intros _.
  destruct hit as [p|]; [apply HQ|].
  apply lwp_quiet_bind; [done|apply quiet_with_shard|]. intros _.
  apply lwp_quiet_bind; [done|apply quiet_with_shard|]. intros [p|].
  - apply lwp_quiet_bind; [done|apply quiet_with_shard|]. intros _. apply HQ.
  - apply wp_bind, wp_ask. intros now _.
    apply wp_bind, lwp_alloc_bucket; [done|done|]. intros p.
    apply lwp_quiet_bind; [done|apply quiet_with_shard|]. intros _.
    apply lwp_quiet_bind; [done|apply quiet_with_shard|]. intros _. apply HQ.
Qed.

Lemma lwp_token_accessor (o : options W) key n c (Q : Z * option error → Z → Prop) :
  0 <= c → (∀ v, 0 <= v → Q (v, None) c) → lwp (token_accessor o key n) c Q.
Proof.
  intros Hc HQ. unfold token_accessor.
  apply wp_bind, lwp_getOrCreateBucket; [done|]. intros p.
  apply wp_bind, lwp_remaining; [done|]. intros v Hv _. cbv zeta.
  destruct (Z.leb_spec v (f64_to_u64 (f64_mul (f64_of_Z (o_limit o))
    (o_reservedMinimum o)))); apply HQ; lia.
Qed.

Lemma lwp_token_transferer (o : options W) key n c
    (Q : Z * option error → Z → Prop) :
  0 <= c → 0 <= n → (∀ r c', acquired key c r c' → Q r c') →
  lwp (token_transferer o key n) c Q.
Proof.
  intros Hc Hn HQ. unfold token_transferer.
  apply wp_bind, lwp_getOrCreateBucket; [done|]. intros p.
  apply wp_bind, lwp_remaining; [done|]. intros v Hv Hκ. cbv zeta.
  set (t := if v <? n then v else n).
  assert (Ht : 0 <= t ∧ t <= v) by (unfold t; destruct (Z.ltb_spec v n); lia).
  destruct (Z.eqb_spec t 0).
  { apply HQ. split; cbn; [lia|]. rewrite credit_zero. lia. }
  assert (Hnone : Q (0, None) c).
  { apply HQ. split; cbn; [lia|]. rewrite credit_zero. lia. }
  pose proof (credit_nonneg κ key t ltac:(lia)).
  assert (Hsome : Q (t, None) (c + cr key t)).
  { apply HQ. split; cbn; [lia|]. intros _. lia. }
  apply wp_bind. destruct (decide (key = κ)) as [->|Hne].
  - specialize (Hκ eq_refl). by apply lwp_tryConsume; [done|lia|..].
  - rewrite credit_other, Z.add_0_r in Hsome by done.
    apply lwp_quiet; [done|by apply quiet_other_bucket|]. by intros [].
Qed.

Lemma lwp_TransferTokens (o : options W) req c (Q : status + Z → Z → Prop) :
  0 <= c → 0 <= Requested req →
  (∀ st c', c <= c' → Q (inl st) c') →
  (∀ g c', 0 <= g → c + cr (LimitKey req) g <= c' → Q (inr g) c') →
  lwp (TransferTokens (token_server o) req) c Q.
Proof.
  intros Hc Hreq Herr Hok. unfold TransferTokens.
  destruct (ValidateTransferRequest req); [by apply Herr|].
  destruct (decide _); [by apply Herr|]. cbn [tokenAccessor tokenTransferer
    token_server SetGossipHandler SetTokenTransferer SetTokenAccessor].
  apply wp_bind, lwp_token_accessor; [done|]. intros v Hv.
  destruct (Z.eqb_spec v 0).
  { apply Hok; [done|]. rewrite credit_zero. lia. }
  apply wp_bind, lwp_token_transferer; [done| |].
  { destruct (v <? Requested req); lia. }
  intros [g [e|]] c' [Hle Hacq]; cbn in *; [by apply Herr|].
  destruct (Hacq eq_refl). by apply Hok.
Qed.

(** *** Gossip *)

Lemma quiet_UpdatePeer (gl : lens W Gossiper) `{!QuietLens same gl} id cs bs :
  quiet same (UpdatePeer gl id cs bs).
Proof. unfold UpdatePeer. quiet. Qed.

Lemma quiet_RemovePeer (gl : lens W Gossiper) `{!QuietLens same gl} id :
  quiet same (RemovePeer gl id).
Proof. unfold RemovePeer. quiet. Qed.

Lemma quiet_g_EvictKeys (gl : lens W Gossiper) `{!QuietLens same gl} keys :
  quiet same (g_EvictKeys gl keys).
Proof. unfold g_EvictKeys. quiet. Qed.

Lemma quiet_g_TopK (gl : lens W Gossiper) k key : quiet same (g_TopK gl k key).
Proof. unfold g_TopK. quiet. Qed.

Lemma quiet_PeerIDs (gl : lens W Gossiper) : quiet same (PeerIDs gl).
Proof. unfold PeerIDs. quiet. Qed.

Lemma quiet_Gossip (o : options W) origin cs bs :
  quiet same (Gossip (token_server o) origin cs bs).
Proof.
  unfold Gossip. cbn [gossipHandler token_server SetGossipHandler].
  apply quiet_bind; [|intros []; exact I].
  apply quiet_bind; [|intros; exact I].
  apply quiet_UpdatePeer. apply _.
Qed.

(** *** Calls between instances *)

Section peers.
Context (serve : string → option (TokenServer W)).
(** Whoever answers at an address is an instance of the program. *)
Context (serve_ok : ∀ addr srv, serve addr = Some srv →
           ∃ o, srv = token_server o).
Context (o : options W).

Lemma lwp_RequestTokens client origin key need c
    (Q : Z * option error → Z → Prop) :
  0 <= c → 0 <= need → (∀ r c', acquired key c r c' → Q r c') →
  lwp (PC_RequestTokens serve client origin key need) c Q.
Proof.
  intros Hc Hneed HQ. unfold PC_RequestTokens, rpc. apply wp_bind.
  assert (Herr : ∀ e c', c <= c' → Q (0, Some e) c')
    by (intros; apply HQ; split; [cbn; lia|done]).
  apply wp_bind, wp_ask. intros ev _.
  destruct (serve (c_addr client)) as [srv|] eqn:Hs; [|by destruct ev; apply Herr].
  destruct (serve_ok _ _ Hs) as [o' ->].
  destruct ev as [|e|e]; [|by apply Herr|].
  - apply wp_bind, lwp_TransferTokens; [done|done| |].
    + intros st c' Hle. by apply Herr.
    + intros g c' Hg Hle. cbn in Hle. apply HQ. split; cbn; [|lia].
      pose proof (credit_nonneg κ key g Hg). lia.
  - apply wp_bind, wp_fork; [done| |by apply Herr].
    apply wp_bind, lwp_TransferTokens; done.
Qed.

Let lookup := limiter_lookup o.
Let ranker := limiter_ranker o.
Let requester := limiter_requester serve.
#[local] Existing Instances lookup ranker requester.
Let a := limiter_acquirer o.

Lemma puts_back_extra key : puts_back key (extra_tokens o key).
Proof.
  intros g c Hg Hc. pose proof (credit_nonneg κ key g Hg). unfold extra_tokens.
  apply wp_bind, lwp_getOrCreateBucket; [lia|]. intros p.
  apply wp_bind, lwp_refill; [done|lia|].
  apply lwp_quiet; [lia|apply quiet_metric|]. intros _. lia.
Qed.

Lemma onExtraTokens_a : onExtraTokens a = Some (extra_tokens o).
Proof. unfold a, limiter_acquirer. by destruct (o_metrics o). Qed.

Lemma quiet_emit key id result : quiet same (emitProbeResult a key id result).
Proof.
  unfold emitProbeResult, a, limiter_acquirer. destruct (o_metrics o); [|exact I].
  cbn [onProbeResult SetProbeResultCallback]. unfold probe_result. quiet.
Qed.

Lemma quiet_lookup id : quiet same (lookup_client (C:=conn) id).
Proof.
  cbn. apply quiet_await. intros s x s' Hs.
  destruct (mesh_mu _); [done|]. injection Hs as _ <-. apply same_accounts_refl.
Qed.

Lemma lwp_probe id key need surplus c (Q : Z * option error → Z → Prop) :
  0 <= c → 0 <= need → (∀ r c', acquired key c r c' → Q r c') →
  lwp (probe (C:=conn) a id key need surplus) c Q.
Proof.
  intros Hc Hneed HQ. unfold probe.
  assert (Hnone : ∀ c', c <= c' → Q (0, None) c').
  { intros. apply HQ. split; cbn; [lia|]. rewrite credit_zero. lia. }
  apply lwp_quiet_bind; [done|apply quiet_lookup|]. intros [client|].
  - apply wp_bind, lwp_RequestTokens; [done|done|].
    intros [g [e|]] c' [Hle Hacq]; cbn in Hle, Hacq.
    + apply lwp_quiet_bind; [lia|apply quiet_emit|]. intros _.
      by apply HQ.
    + destruct (0 <? g); (apply lwp_quiet_bind; [lia|apply quiet_emit|]);
        intros _; [by apply HQ|by apply Hnone].
  - apply lwp_quiet_bind; [done| |intros _; by apply Hnone].
    destruct (0 <? surplus); [apply quiet_emit|exact I].
Qed.

Lemma lwp_probeSequential l key need c (Q : Z * option error → Z → Prop) :
  0 <= c → 0 <= need → (∀ r c', acquired key c r c' → Q r c') →
  lwp (probeSequential (C:=conn) a l key need) c Q.
Proof.
  intros Hc Hneed. revert c Hc.
  induction l as [|e l IH]; intros c Hc HQ; cbn [probeSequential].
  { apply HQ. split; cbn; [lia|]. rewrite credit_zero. lia. }
  apply wp_bind, wp_ask. intros [err|] _.
  { apply HQ. split; [cbn; lia|done]. }
  assert (Hrest : ∀ c', c <= c' →
            lwp (probeSequential (C:=conn) a l key need) c' Q).
  { intros c' Hle. apply IH; [lia|]. intros r c'' [Hle' Hacq].
    apply HQ. split; [lia|]. intros Hr. destruct (Hacq Hr). lia. }
  apply wp_bind, lwp_probe; [done|done|].
  intros [g [e'|]] c' Hacq; [by apply Hrest, Hacq|].
  destruct (0 <? g); [by apply HQ|by apply Hrest, Hacq].
Qed.

Lemma lwp_drain_late key ch rem c :
  0 <= c → lwp (drain_late chans_lens a key ch rem) c (λ _ c', c <= c').
Proof.
  revert c. induction rem as [|rem IH]; intros c Hc; cbn [drain_late]; [cbn; lia|].
  apply wp_bind, lwp_recv; [done|]. intros [g err] Hg. rewrite onExtraTokens_a.
  unfold msg_credit, msg_tokens. cbn [fst snd].
  destruct err as [e|]; [rewrite credit_zero, Z.add_0_r; by apply IH|].
  destruct (Z.ltb_spec 0 g).
  - apply wp_bind. eapply puts_back_from; [apply puts_back_extra|lia|exact Hc|lia|].
    intros c' Hle. eapply wp_mono; [|apply IH; lia]. cbn. lia.
  - assert (Hz : cr key g = 0 ∨ 0 <= cr key g).
    { unfold credit. destruct (decide (key = κ)); [|by left]. right. by apply Hg. }
    assert (Hnn : 0 <= cr key g) by lia.
    eapply wp_mono; [|apply IH; lia]. cbn. lia.
Qed.

Lemma lwp_collect key ch active c (Q : Z * option error → Z → Prop) :
  0 <= c → (∀ r c', acquired key c r c' → Q r c') →
  lwp (collect chans_lens a key ch active) c Q.
Proof.
  revert c. induction active as [|rest IH]; intros c Hc HQ; cbn [collect].
  { apply HQ. split; cbn; [lia|]. rewrite credit_zero. lia. }
  assert (Hdrain : ∀ n, lwp (drain_late chans_lens a key ch n) 0 (λ _ _, True)).
  { intros n. eapply wp_mono; [|by apply lwp_drain_late]. done. }
  apply wp_bind, wp_ask. intros [e|] _.
  { apply wp_bind, wp_fork; [done|apply (Hdrain (Datatypes.S rest))|]. apply HQ.
    split; [cbn; lia|done]. }
  assert (Hrest : ∀ c', c <= c' → lwp (collect chans_lens a key ch rest) c' Q).
  { intros c' Hle. apply IH; [lia|]. intros r c'' [Hle' Hacq].
    apply HQ. split; [lia|]. intros Hr. destruct (Hacq Hr). lia. }
  apply wp_bind, lwp_recv; [done|]. intros [g err] Hg.
  unfold msg_credit, msg_tokens. cbn [fst snd].
  destruct err as [e|]; [rewrite credit_zero, Z.add_0_r; by apply Hrest|].
  assert (Hnn : 0 <= cr key g).
  { unfold credit. destruct (decide (key = κ)); [by apply Hg|done]. }
  destruct (Z.ltb_spec 0 g); [|apply Hrest; lia].
  apply wp_bind, wp_fork; [lia|apply Hdrain|]. apply HQ.
  split; cbn; lia.
Qed.

Lemma lwp_prober e key need ch c :
  0 <= c → 0 <= need →
  lwp (do! r <- probe (C:=conn) a (pe_ID e) key need (Surplus e);
       send chans_lens key ch r) c (λ _ _, True).
Proof.
  intros Hc Hneed. apply wp_bind, lwp_probe; [done|done|].
  intros [g err] c' [Hle Hacq]. cbn in Hle, Hacq.
  assert (Hm : 0 <= msg_tokens (g, err) ∧ msg_credit κ key (g, err) <= c').
  { unfold msg_credit, msg_tokens. cbn. destruct err as [er|].
    - rewrite credit_zero. lia.
    - destruct (Hacq eq_refl). split; [done|lia]. }
  destruct Hm. by apply lwp_send.
Qed.

Lemma lwp_probeParallel l key need c (Q : Z * option error → Z → Prop) :
  0 <= c → 0 <= need → (∀ r c', acquired key c r c' → Q r c') →
  lwp (probeParallel (C:=conn) chans_lens a l key need) c Q.
Proof.
  intros Hc Hneed HQ. unfold probeParallel.
  apply wp_bind, lwp_make_chan; [done|]. intros ch.
  apply wp_bind, wp_for_each; [|by apply lwp_collect].
  intros e _. apply wp_fork; [done|by apply lwp_prober|done].
Qed.

Lemma lwp_acq_Acquire key need cb c (Q : Z * option error → Z → Prop) :
  0 <= c → 0 <= need → puts_back key cb → (∀ r c', c <= c' → Q r c') →
  lwp (acq_Acquire (C:=conn) chans_lens a key need (Some cb)) c Q.
Proof.
  intros Hc Hneed Hcb HQ. unfold acq_Acquire. apply wp_bind, wp_ask.
  intros shared _. apply wp_bind.
  assert (Hrest : ∀ (r : Z * option error) c', c <= c' →
    lwp (let '(v, err) := r in
         match err with Some e => Ret (0, Some e) | None => Ret (v, None) end)
        c' Q).
  { intros [v [e|]] c' Hle; by apply HQ. }
  destruct shared as [r|]; [by apply Hrest|].
  assert (Hacq : ∀ r c', acquired key c r c' →
    lwp (let '(granted, err) := r in
         (match err, Some cb with
          | None, Some f => if 0 <? granted then f granted else Ret tt
          | _, _ => Ret tt
          end) ;;; Ret (granted, err)) c'
      (λ r c', lwp (let '(v, err) := r in
         match err with Some e => Ret (0, Some e) | None => Ret (v, None) end)
        c' Q)).
  { intros [g [e|]] c' [Hle Hg]; cbn in Hle, Hg; [by apply Hrest|].
    destruct (Hg eq_refl) as [Hg0 Hg1].
    destruct (Z.ltb_spec 0 g); [|by apply Hrest].
    apply wp_bind. eapply puts_back_from; [done|lia|exact Hc|done|].
    intros c'' Hle'. by apply Hrest. }
  apply wp_bind. unfold acquire.
  apply lwp_quiet_bind; [done|apply quiet_g_TopK|]. intros [|e l].
  - apply Hacq. split; cbn; [lia|]. rewrite credit_zero. lia.
  - destruct (mode a); [by apply lwp_probeParallel|by apply lwp_probeSequential].
Qed.
End peers.
End safety.
