(* ===== verification/Admission.v ===== *)
(** * Admission: no key is admitted more than its windows supplied

    The credit rules of [AllowN] and of every background goroutine of an
    instance, and the theorem they give: in every state a cluster can reach,
    under any interleaving of its goroutines, any failure of Redis, of calls
    and of instances, the tokens admitted, held and on their way never exceed
    what the window resets put in the pool. *)

From S2P Require Export Safety.

(** ** Code of an instance that moves no tokens *)

Section background.
Context {R : Type} `{RedisLaws R} `{FloatConv} (κ : string).
Abbreviation W := (world R).
Abbreviation same := (same_accounts κ).

(** A router that keeps to its own state. *)
Record quiet_router (r : Router W) : Prop := {
  qr_Decide rc : quiet same (Decide r rc);
  qr_RemovePeer f id : r_RemovePeer r = Some f → quiet same (f id);
  qr_EvictKeys f ks : r_EvictKeys r = Some f → quiet same (f ks);
}.

Lemma Default_quiet : quiet_router NewDefaultRouter.
Proof. by split. Qed.

Lemma EMA_quiet id : quiet_router (NewEMARouter id).
Proof.
  assert (Hr : QuietLens same (router_lens (R:=R) id))
    by (unfold router_lens; apply _).
  split; cbn [NewEMARouter EMA_router Decide r_RemovePeer r_EvictKeys].
  - intros rc. unfold EMA_Decide. destruct (rc_HasPeers rc); [|exact I].
    apply quiet_bind; [apply quiet_PeerIDs|intros ids].
    apply quiet_bind; [apply quiet_g_TopK|intros [|e top]; [exact I|]].
    apply quiet_bind; [apply quiet_ask|intros now].
    apply quiet_bind; [by apply quiet_zoom|intros; exact I].
  - intros f id' [= <-]. unfold EMA_RemovePeer. by apply quiet_each_shard, _.
  - intros f ks [= <-]. unfold EMA_EvictKeys. by apply quiet_each_shard, _.
Qed.

Lemma quiet_record_allowed (o : options W) key p n b :
  quiet same (record_allowed o key p n b).
Proof.
  unfold record_allowed.
  apply quiet_bind; [apply quiet_bucket_get|intros rem].
  apply quiet_bind; [by apply quiet_bucket_do|intros _].
  apply quiet_bind; [by apply quiet_mgr_modify|intros _].
  destruct b; quiet.
Qed.

(** *** Gossip *)

Lemma scan_shards_mgr id now idxs active :
  quiet same (scan_shards (mgr_lens (R:=R) id) now idxs active).
Proof.
  revert active. induction idxs as [|i idxs IH]; intros active; [exact I|].
  cbn [scan_shards]. apply quiet_bind; [apply quiet_ask|intros order].
  apply quiet_bind; [|intros; apply IH].
  apply quiet_mgr. intros m Hm. destruct (activeKeys m !! i); [|exact Hm].
  by destruct (scan_shard _ _ _ _).
Qed.

Lemma quiet_AllBorrowed id k : quiet same (AllBorrowed (mgr_lens (R:=R) id) k).
Proof.
  unfold AllBorrowed. apply quiet_bind; [apply quiet_ask|intros now].
  apply quiet_bind; [apply scan_shards_mgr|intros active]. quiet.
Qed.

Lemma quiet_consumed_in (o : options W) i keys out :
  quiet same (consumed_in o i keys out).
Proof.
  revert out. induction keys as [|k keys IH]; intros out; [exact I|].
  cbn [consumed_in]. apply quiet_bind; [apply quiet_with_shard|].
  intros [p|]; [|apply IH].
  apply quiet_bind; [apply quiet_bucket_get|intros val; apply IH].
Qed.

Lemma quiet_consumed_shards (o : options W) i groups out :
  quiet same (consumed_shards o i groups out).
Proof.
  revert i out. induction groups as [|[|k keys] groups IH]; intros i out;
    [exact I|apply IH|]. cbn [consumed_shards].
  apply quiet_bind; [apply quiet_with_shard|intros _].
  apply quiet_bind; [apply quiet_consumed_in|intros out'].
  apply quiet_bind; [apply quiet_with_shard|intros _]. apply IH.
Qed.

Section lifecycle.
Context `{GrpcDial} `{NetListen}.
Context (serve : string → option (TokenServer W)).
Context (serve_ok : ∀ addr srv, serve addr = Some srv →
           ∃ o, srv = token_server o).
Context (o : options W).

Lemma quiet_gossip_to b c p : quiet same (gossip_to serve o b c p).
Proof.
  unfold gossip_to. destruct (p_Healthy p), (p_Client p) as [client|];
    [|exact I..].
  apply quiet_bind; [apply quiet_zoom, _|intros [db dc]].
  destruct (decide _); [exact I|]. apply quiet_fork, quiet_bind.
  - unfold rpc. apply quiet_bind; [apply quiet_ask|].
    destruct (serve (c_addr client)) as [srv|] eqn:Hs; [|intros []; exact I].
    destruct (serve_ok _ _ Hs) as [o' ->]. intros [|e|e]; [|exact I|].
    + apply quiet_bind; [apply quiet_Gossip|intros []; exact I].
    + apply quiet_bind; [|intros; exact I].
      apply quiet_fork, quiet_bind; [apply quiet_Gossip|intros; exact I].
  - intros [e|[]]; [exact I|]. apply quiet_zoom_modify, _.
Qed.

Lemma quiet_GetPeers id : quiet same (GetPeers (mesh_lens (R:=R) id)).
Proof.
  apply quiet_bind; [apply quiet_ask|intros order].
  apply quiet_await. intros s x s' Hs. destruct (mesh_mu _); [done|].
  injection Hs as _ <-. apply same_accounts_refl.
Qed.

Lemma quiet_gossipOnce : quiet same (gossipOnce serve o).
Proof.
  unfold gossipOnce. apply quiet_bind; [apply quiet_AllBorrowed|intros b].
  apply quiet_bind; [apply quiet_ask|intros order].
  apply quiet_bind; [apply quiet_consumed_shards|intros c].
  apply quiet_bind; [apply quiet_GetPeers|intros ps].
  apply quiet_for_each, quiet_gossip_to.
Qed.

Lemma quiet_ticker_loop ticks body done :
  quiet same body → quiet same done → quiet same (ticker_loop o ticks body done).
Proof.
  intros Hb Hd. assert (Hw : quiet same (when_cancelled o done)).
  { apply quiet_bind; [|by intros _]. apply quiet_await. intros s x s' Hs.
    destruct (lget _ s); [|done]. injection Hs as _ <-. apply same_accounts_refl. }
  induction ticks as [|ticks IH]; cbn [ticker_loop]; [done|].
  apply quiet_bind; [apply quiet_ask|intros []]; [|done].
  apply quiet_bind; [done|by intros _].
Qed.

(** *** Eviction *)

Lemma quiet_evictable policy key p nowMs :
  quiet same (evictable (R:=R) policy key p nowMs).
Proof.
  unfold evictable. apply quiet_bind; [apply quiet_bucket_get|intros []];
    [|exact I].
  apply quiet_bind; [apply quiet_bucket_get|intros; exact I].
Qed.

Lemma quiet_scan_evictable policy entries nowMs :
  quiet same (scan_evictable (R:=R) policy entries nowMs).
Proof.
  induction entries as [|[k p] entries IH]; [exact I|]. cbn [scan_evictable].
  apply quiet_bind; [apply quiet_evictable|intros e].
  apply quiet_bind; [apply IH|intros; exact I].
Qed.

Lemma quiet_evict_locked policy i keys nowMs :
  quiet same (evict_locked o policy i keys nowMs).
Proof.
  induction keys as [|k keys IH]; [exact I|]. cbn [evict_locked].
  apply quiet_bind; [apply quiet_with_shard|intros hit].
  apply quiet_bind; [|intros gone; apply quiet_bind; [apply IH|intros; exact I]].
  destruct hit as [p|]; [|exact I].
  apply quiet_bind; [apply quiet_evictable|intros []]; [|exact I].
  apply quiet_bind; [apply quiet_with_shard|intros; exact I].
Qed.

Lemma quiet_evict_shards policy idxs nowMs :
  quiet same (evict_shards o policy idxs nowMs).
Proof.
  induction idxs as [|i idxs IH]; [exact I|]. cbn [evict_shards].
  apply quiet_bind; [|intros; apply quiet_bind; [apply IH|intros; exact I]].
  unfold evict_shard. apply quiet_bind; [apply quiet_with_shard|intros _].
  apply quiet_bind; [apply quiet_ask|intros order].
  apply quiet_bind; [apply quiet_with_shard|intros entries].
  apply quiet_bind; [apply quiet_scan_evictable|intros keys].
  apply quiet_bind; [apply quiet_with_shard|intros _].
  destruct keys; [exact I|].
  apply quiet_bind; [apply quiet_with_shard|intros _].
  apply quiet_bind; [apply quiet_evict_locked|intros evicted].
  apply quiet_bind; [apply quiet_with_shard|intros _]. exact I.
Qed.

Context (router_ok : ∀ r, o_router o = Some r → quiet_router r).

Lemma quiet_evictInactiveKeys policy nowMs :
  quiet same (evictInactiveKeys o policy nowMs).
Proof.
  unfold evictInactiveKeys.
  apply quiet_bind; [apply quiet_evict_shards|intros [|k ks]; [exact I|]].
  apply quiet_bind; [by apply quiet_mgr_modify|intros _].
  apply quiet_bind; [apply quiet_g_EvictKeys, _|intros _].
  destruct (o_router o) as [r|]; [|exact I].
  destruct (r_EvictKeys r) as [f|] eqn:Hf; [|exact I].
  by apply (qr_EvictKeys r (router_ok r eq_refl)).
Qed.

(** *** The mesh, the membership and the heartbeat *)

Lemma quiet_peer_removed id : quiet same (peer_removed o id).
Proof.
  unfold peer_removed. apply quiet_bind; [apply quiet_RemovePeer, _|intros _].
  destruct (o_router o) as [r|]; [|exact I].
  destruct (r_RemovePeer r) as [f|] eqn:Hf; [|exact I].
  by apply (qr_RemovePeer r (router_ok r eq_refl)).
Qed.

Lemma quiet_HDEL k fs :
  quiet same (redis_write redis_lens (redis_HDEL (R:=R) k fs)).
Proof. apply quiet_redis_write. intros. apply GET_HDEL. Qed.
Lemma quiet_HSET k fs :
  quiet same (redis_write redis_lens (redis_HSET (R:=R) k fs)).
Proof. apply quiet_redis_write. intros. apply GET_HSET. Qed.

Lemma quiet_Register m info : quiet same (Register (R:=R) redis_lens m info).
Proof.
  unfold Register. apply quiet_bind; [|intros info'].
  { destruct (_ =? _); [|exact I]. quiet. }
  apply quiet_bind; [apply quiet_HSET|intros [e|]; exact I].
Qed.

Lemma quiet_Refresh m info : quiet same (Refresh (R:=R) redis_lens m info).
Proof. apply quiet_bind; [apply quiet_ask|intros t; apply quiet_Register]. Qed.

Lemma quiet_Discover m : quiet same (Discover (R:=R) redis_lens m).
Proof.
  unfold Discover. apply quiet_bind; [apply quiet_ask|intros [| |]];
    [|exact I..].
  apply quiet_bind; [apply quiet_reads|intros vals].
  destruct (decide _); [exact I|].
  apply quiet_bind; [apply quiet_ask|intros t].
  apply quiet_bind; [apply quiet_ask|intros order].
  destruct (foldl _ _ _) as [ms [|d del]]; [exact I|].
  apply quiet_bind; [|intros; exact I].
  apply quiet_fork, quiet_bind; [apply quiet_HDEL|intros; exact I].
Qed.

Lemma quiet_mesh_Lock id : quiet same (mesh_Lock (mesh_lens (R:=R) id)).
Proof.
  apply quiet_await. intros s x s' Hs. destruct (mesh_mu _); [done|].
  injection Hs as _ <-. apply (QuietLens_inst κ id f_mesh).
Qed.

Lemma quiet_mesh_modify id f : quiet same (zoom_modify (mesh_lens (R:=R) id) f).
Proof. apply quiet_zoom_modify, (QuietLens_inst κ id f_mesh). Qed.

Lemma quiet_mesh_refresh : quiet same (mesh_refresh o).
Proof.
  unfold mesh_refresh, refresh.
  apply quiet_bind; [apply quiet_Discover|intros [ms [e|]]; [exact I|]].
  apply quiet_bind; [apply quiet_reads|intros self].
  apply quiet_bind; [apply quiet_mesh_Lock|intros _].
  apply quiet_bind; [apply quiet_ask|intros order].
  apply quiet_bind; [apply quiet_reads|intros ids].
  apply quiet_bind; [|intros _].
  { apply quiet_for_each. intros id. unfold drop_if_gone.
    destruct (_ !! id); [exact I|].
    apply quiet_bind; [apply quiet_mesh_modify|intros _; apply quiet_peer_removed]. }
  apply quiet_bind; [apply quiet_ask|intros order'].
  apply quiet_bind; [|intros _; apply quiet_mesh_modify].
  apply quiet_for_each. intros e.
  apply quiet_bind; [apply quiet_ask|intros now; apply quiet_mesh_modify].
Qed.

Lemma quiet_mesh_Stop id : quiet same (mesh_Stop (mesh_lens (R:=R) id)).
Proof.
  unfold mesh_Stop. apply quiet_bind; [apply quiet_mesh_Lock|intros _].
  apply quiet_bind; [apply quiet_ask|intros order].
  apply quiet_bind; [apply quiet_reads|intros ids].
  apply quiet_bind; [|intros _; apply quiet_mesh_modify].
  apply quiet_for_each. intros id'. apply quiet_mesh_modify.
Qed.

Lemma quiet_hb_loop id m info ticks :
  quiet same (hb_loop (R:=R) redis_lens (heartbeat_lens id) m info None ticks).
Proof.
  assert (Hs : quiet same (hb_stopped (S:=W) (heartbeat_lens id))).
  { apply quiet_bind; [apply quiet_ask|intros cancelled].
    apply quiet_bind; [|intros _; apply quiet_zoom_modify,
                          (QuietLens_inst κ id f_heartbeat)].
    destruct cancelled; [exact I|]. apply quiet_await. intros s x s' Hs.
    destruct (hb_stopCh _); [|done]. injection Hs as _ <-.
    apply same_accounts_refl. }
  induction ticks as [|ticks IH]; cbn [hb_loop]; [done|].
  apply quiet_bind; [apply quiet_ask|intros []]; [|done].
  apply quiet_bind; [apply quiet_Refresh|intros err].
  apply quiet_bind; [by destruct err|by intros _].
Qed.

Lemma quiet_Close : quiet same (Close o).
Proof.
  unfold Close. apply quiet_bind; [apply quiet_zoom, _|intros []; [exact I|]].
  assert (Hwait : ∀ (P : W → Prop) `{∀ s, Decision (P s)},
    quiet same (await (λ s, if decide (P s) then Some (tt, s) else None))).
  { intros P HP. apply quiet_await. intros s x s' Hs.
    destruct (decide _); [|done]. injection Hs as _ <-.
    apply same_accounts_refl. }
  apply quiet_bind; [apply quiet_zoom_modify, _|intros _].
  apply quiet_bind; [apply Hwait|intros _].
  apply quiet_bind; [|intros _].
  { unfold hb_Stop. apply quiet_bind; [apply quiet_zoom_modify, _|intros _].
    apply quiet_await. intros s x s' Hs. destruct (hb_doneCh _); [|done].
    injection Hs as _ <-. apply same_accounts_refl. }
  apply quiet_bind; [|intros _].
  { unfold Deregister. apply quiet_bind; [apply quiet_HDEL|intros [e|]]; [|exact I].
    by destruct (decide _). }
  apply quiet_bind; [apply Hwait|intros _].
  apply quiet_bind; [apply quiet_mesh_Stop|intros _].
  apply quiet_bind; [apply quiet_zoom_modify, _|intros _]. exact I.
Qed.

Context (o_ok : opts_ok o) (oid_ok : id_ok (o_instanceID o)).

Lemma quiet_srv_Start port :
  quiet same (srv_Start (server_lens (o_instanceID o)) port).
Proof.
  unfold srv_Start. destruct (Listen_err port) as [e|]; [exact I|].
  apply quiet_bind; [apply quiet_zoom_modify, _|intros _].
  apply quiet_bind; [apply quiet_zoom_modify, _|intros _].
  apply quiet_bind; [apply quiet_fork|intros _; exact I].
  apply quiet_await. intros s x s' Hs. destruct (ln_stopped _); [|done].
  injection Hs as _ <-. apply same_accounts_refl.
Qed.

Lemma quiet_newLimiter ticks ema : quiet same (newLimiter serve o ticks ema).
Proof.
  unfold newLimiter. apply quiet_bind; [|intros _].
  { apply quiet_atomically. intros s. apply same_accounts_inst. intros _.
    destruct o_ok as (_ & Hmin & Hmax).
    split; [exact Hmin|split; [exact Hmax|exact oid_ok]]. }
  apply quiet_bind; [apply quiet_srv_Start|intros [e|]].
  { apply quiet_bind; [apply quiet_zoom_modify, _|intros; exact I]. }
  apply quiet_bind; [apply quiet_zoom_reads, same_accounts_refl|intros addr].
  apply quiet_bind; [|intros _].
  { unfold hb_Start. apply quiet_bind; [apply quiet_Register|intros err].
    apply quiet_bind; [by destruct err|intros _].
    apply quiet_fork, quiet_bind; [apply quiet_NewTicker|intros _; apply quiet_hb_loop]. }
  apply quiet_bind; [|intros _].
  { unfold mesh_Start. apply quiet_bind; [apply quiet_zoom_modify, _|intros _].
    apply quiet_fork. unfold mesh_loop. apply quiet_bind; [apply quiet_mesh_refresh|intros _].
    apply quiet_bind; [apply quiet_NewTicker|intros _].
    apply quiet_ticker_loop; [apply quiet_mesh_refresh|apply quiet_zoom_modify, _]. }
  apply quiet_bind; [apply quiet_wg_Add|intros _].
  apply quiet_bind; [apply quiet_fork|intros _].
  { apply quiet_bind; [apply quiet_NewTicker|intros _].
    apply quiet_ticker_loop; [apply quiet_gossipOnce|apply quiet_wg_Done]. }
  apply quiet_bind; [|intros; exact I].
  destruct (0 <? _); [|exact I]. destruct (policy_of _); [|exact I].
  apply quiet_bind; [apply quiet_NewTicker|intros _].
  apply quiet_fork, quiet_ticker_loop; [|exact I].
  apply quiet_bind; [apply quiet_ask|intros; apply quiet_evictInactiveKeys].
Qed.
End lifecycle.
End background.

(** ** [AllowN] *)

Section admission.
Context {R : Type} `{RedisLaws R} `{FloatConv} (κ : string) (P0 L : Z) (Win : Z → Prop).
Abbreviation W := (world R).
Abbreviation lwp := (wp (ledger_inv κ L Win) (ledger_lim κ P0) (reserve κ P0)).
Abbreviation same := (same_accounts κ).
Abbreviation cr := (credit κ).

Context (serve : string → option (TokenServer W)).
Context (serve_ok : ∀ addr srv, serve addr = Some srv →
           ∃ o, srv = token_server o).

(** What the accounting needs of an instance. *)
Record instance_ok (o : options W) : Prop := {
  io_opts : opts_ok o;
  io_limit : o_limit o <= L;
  io_id : id_ok (o_instanceID o);
  io_router r : o_router o = Some r → quiet_router κ r;
}.

(** A window an instance opens: the one around a reading of its clock. *)
Definition opened_by (o : options W) (start : Z) : Prop :=
  let windowMs := Milliseconds (o_window o) in
  windowMs ≠ 0 ∧ ∃ t, start = to_i64 (Z.quot (UnixMilli t) windowMs * windowMs).

Context (o : options W) (ok : instance_ok o).
Context (win_ok : ∀ start, opened_by o start → Win start).

Lemma puts_back_cleared key p : puts_back κ P0 L Win key (refill_cleared key p).
Proof.
  intros g c Hg Hc. pose proof (credit_nonneg κ key g Hg). unfold refill_cleared.
  apply lwp_quiet_bind; [lia|by apply quiet_bucket_do|]. intros _.
  apply lwp_refill; lia.
Qed.

Lemma puts_back_received key p : puts_back κ P0 L Win key (refill_received o key p).
Proof.
  intros g c Hg Hc. pose proof (credit_nonneg κ key g Hg). unfold refill_received.
  apply wp_bind, lwp_refill; [done|lia|].
  apply lwp_quiet; [lia|apply quiet_metric|]. intros _. lia.
Qed.

Lemma lwp_resetWindow key t c (Q : option error → Z → Prop) :
  0 <= c → (∀ err c', c <= c' → Q err c') →
  lwp (resetWindow o key (UnixMilli t)) c Q.
Proof.
  intros Hc HQ. unfold resetWindow.
  apply wp_bind, lwp_getOrCreateBucket; [done|]. intros p.
  apply lwp_quiet_bind; [done|apply quiet_bucket_Lock|]. intros _.
  assert (Hend : ∀ err c', c <= c' →
            lwp (bucket_Unlock key p ;;; Ret err) c' Q).
  { intros err c' Hle. apply lwp_quiet_bind; [lia|apply quiet_bucket_Unlock|].
    intros _. by apply HQ. }
  apply wp_bind. unfold reset_locked. cbv zeta.
  destruct (Z.eqb_spec (Milliseconds (o_window o)) 0) as [|Hw]; [exact I|].
  apply lwp_quiet_bind; [done|apply quiet_bucket_get|]. intros start.
  destruct (_ <=? start); [by apply Hend|].
  apply wp_bind, lwp_RP_ResetWindow; [done|apply ok|apply ok| |].
  { apply win_ok. split; [done|by exists t]. }
  intros [e|] c' Hle; [by apply Hend|].
  apply wp_bind, lwp_drain; [lia|]. intros v.
  apply lwp_quiet_bind; [lia|by apply quiet_bucket_do|]. intros _.
  apply lwp_quiet_bind; [lia|by apply quiet_bucket_do|]. intros _.
  apply lwp_quiet_bind; [lia|by apply quiet_bucket_do|]. intros _.
  apply lwp_quiet_bind; [lia|apply quiet_metric|]. intros _.
  apply lwp_quiet_bind; [lia| |intros _; by apply Hend].
  apply quiet_mgr_modify. intros m Hm. unfold bm_Reset.
  by destruct (t_lookup key (activeKeys m)).
Qed.

(** The outcome of a request: the caller holds [n] tokens if it may go on. *)
Definition admitted_ok (key : string) (n c : Z)
    (r : option (bool * option error)) (c' : Z) : Prop :=
  c <= c' ∧ ∀ e, r = Some (true, e) → c + cr key n <= c'.

Lemma admitted_ok_weaken key n c c0 r c' :
  c <= c0 → admitted_ok key n c0 r c' → admitted_ok key n c r c'.
Proof. intros Hle [Hc Hr]. split; [lia|]. intros e He. specialize (Hr e He). lia. Qed.

Lemma lwp_consume_or key p n next c :
  0 <= c → small n → lwp next c (admitted_ok key n c) →
  lwp (consume_or o key p n next) c (admitted_ok key n c).
Proof.
  intros Hc Hn Hnext. pose proof (credit_nonneg κ key n ltac:(unfold small in *; lia)).
  unfold consume_or. apply wp_bind, lwp_tryConsume; [done|done| |exact Hnext].
  cbn iota. apply lwp_quiet_bind; [lia|apply quiet_record_allowed|].
  intros _. split; intros; lia.
Qed.

Lemma quiet_bm_Borrowed id key : quiet same (bm_Borrowed (mgr_lens (R:=R) id) key).
Proof.
  apply quiet_bind; [apply quiet_ask|intros now]. apply quiet_mgr.
  intros m Hm. unfold Borrowed. destruct (t_lookup key (activeKeys m)); [|done].
  by destruct (lease_expired _ _ _).
Qed.

Lemma lwp_from_redis key p n ex again c :
  0 <= c → small n →
  (∀ b c', c <= c' → lwp (again b) c' (admitted_ok key n c')) →
  lwp (from_redis o key p n ex again) c (admitted_ok key n c).
Proof.
  intros Hc Hn Hagain. unfold from_redis.
  apply lwp_quiet_bind; [done|apply quiet_ask|]. intros t0.
  apply wp_bind, lwp_Acquire; [done|done|apply puts_back_cleared|].
  intros [g err] c' Hle. apply lwp_quiet_bind; [lia|apply quiet_ask|]. intros t1.
  eapply wp_mono; [intros r c''; by apply (admitted_ok_weaken key n c c')|].
  apply lwp_quiet_bind; [lia|apply quiet_metric|]. intros _.
  destruct err as [e|]; [by split|].
  destruct (0 <? g).
  - apply lwp_quiet_bind; [lia|apply quiet_metric|]. intros _.
    apply lwp_quiet_bind; [lia|apply quiet_bm_Borrowed|]. intros b.
    apply lwp_quiet_bind; [lia|apply quiet_metric|]. intros _.
    apply lwp_consume_or; [lia|done|by apply Hagain].
  - apply lwp_quiet_bind; [lia|by apply quiet_bucket_do|]. intros _.
    apply lwp_quiet_bind; [lia|apply quiet_metric|]. intros _. by apply Hagain.
Qed.

Lemma lwp_from_peers key p n again c :
  0 <= c → small n →
  (∀ c', c <= c' → lwp again c' (admitted_ok key n c')) →
  lwp (from_peers serve o key p n again) c (admitted_ok key n c).
Proof.
  intros Hc Hn Hagain. unfold from_peers, acquireFromPeers.
  apply lwp_quiet_bind; [done|apply quiet_ask|]. intros t0.
  apply wp_bind, wp_bind.
  apply lwp_acq_Acquire; [exact serve_ok|done|apply Hn|apply puts_back_received|].
  intros r c' Hle.
  assert (Hend : ∀ r : Z * option error,
    lwp (let '(peerTokens, err) := r in
         do! t <- ask QNow;
         metric (o_instanceID o) (ObserveRequestDuration "peer" (time_Sub t t0)) ;;;
         match err with
         | None => if 0 <? peerTokens then consume_or o key p n again else again
         | Some _ => again
         end) c' (admitted_ok key n c)).
  { intros [g err]. eapply wp_mono; [intros r' c''; by apply (admitted_ok_weaken key n c c')|].
    apply lwp_quiet_bind; [lia|apply quiet_ask|]. intros t1.
    apply lwp_quiet_bind; [lia|apply quiet_metric|]. intros _.
    destruct err as [e|]; [by apply Hagain|].
    destruct (0 <? g); [|by apply Hagain].
    apply lwp_consume_or; [lia|done|by apply Hagain]. }
  destruct r as [g [e|]]; apply Hend.
Qed.

Lemma lwp_allow_loop fuel key p n ex checked c :
  0 <= c → small n →
  lwp (allow_loop serve o fuel key p n ex checked) c (admitted_ok key n c).
Proof.
  intros Hc Hn. revert ex checked c Hc.
  induction fuel as [|fuel IH]; intros ex checked c Hc; [by split|].
  cbn [allow_loop]. destruct (o_router o) as [r|] eqn:Hr; [|exact I].
  apply lwp_quiet_bind; [done|apply (qr_Decide κ r (io_router o ok r Hr))|].
  intros [d [e|]]; [by split|]. destruct d.
  - apply lwp_from_redis; [done|done|]. intros b c' Hle. apply IH. lia.
  - apply lwp_from_peers; [done|done|]. intros c' Hle. apply IH. lia.
  - unfold reject. apply lwp_quiet_bind; [done|apply quiet_metric|]. intros _.
    apply lwp_quiet_bind; [done|apply quiet_bucket_get|]. intros rem.
    apply lwp_quiet_bind; [done|apply quiet_metric|]. by split.
Qed.

Lemma lwp_maybePreBorrow key p c (Q : unit → Z → Prop) :
  0 <= c → Q tt c → lwp (maybePreBorrow o key p) c Q.
Proof.
  intros Hc HQ. unfold maybePreBorrow.
  apply lwp_quiet_bind; [done| |intros []; [|exact HQ]].
  { apply quiet_on_bucket. intros b. unfold TryMarkPreBorrowing.
    by destruct (b_preBorrowing b). }
  apply lwp_quiet_bind; [done|apply quiet_metric|]. intros _.
  apply lwp_quiet_bind; [done|apply quiet_wg_Add|]. intros _.
  apply wp_fork; [done| |exact HQ].
  apply wp_bind, lwp_Acquire; [done|unfold small; lia|apply puts_back_cleared|].
  intros [g err] c' Hle. apply lwp_quiet; [done| |done].
  apply quiet_bind; [destruct err; [exact I|]; destruct (0 <? g); quiet|].
  intros _. apply quiet_bind; [by apply quiet_bucket_do|].
  intros _. apply quiet_wg_Done.
Qed.

Lemma lwp_AllowN fuel key n c :
  0 <= c → small n → lwp (AllowN serve o fuel key n) c (admitted_ok key n c).
Proof.
  intros Hc Hn. pose proof (credit_nonneg κ key n ltac:(unfold small in *; lia)).
  unfold AllowN. apply lwp_quiet_bind; [done|apply quiet_reads|].
  intros [|]; [by split|].
  apply lwp_quiet_bind; [done|apply quiet_ask|]. intros start.
  apply wp_bind, lwp_getOrCreateBucket; [done|]. intros p.
  apply lwp_quiet_bind; [done|by apply quiet_bucket_do|]. intros _.
  apply wp_bind, lwp_tryConsume; [done|done| |].
  - cbn iota. unfold allow_local.
    apply lwp_quiet_bind; [lia|apply quiet_record_allowed|]. intros _.
    apply lwp_quiet_bind; [lia|apply quiet_ask|]. intros t.
    apply lwp_quiet_bind; [lia|apply quiet_metric|]. intros _.
    assert (Hend : admitted_ok key n c (Some (true, None)) (c + cr key n))
      by (split; intros; lia).
    apply wp_bind. destruct (o_preBorrowEnabled o); [|exact Hend].
    apply lwp_quiet_bind; [lia|apply quiet_bucket_get|]. intros [|]; [|exact Hend].
    by apply lwp_maybePreBorrow; [lia|].
  - cbn iota. unfold allow_slow. cbv zeta.
    apply lwp_quiet_bind; [done|apply quiet_ask|]. intros t.
    assert (Hrest : ∀ c', 0 <= c' →
      lwp (do! ex <- bucket_get key p IsRedisExhausted;
           (if ex : bool then metric (o_instanceID o) (RecordRedisSkip key)
            else Ret tt) ;;;
           allow_loop serve o fuel key p n ex false) c' (admitted_ok key n c')).
    { intros c' Hc'. apply lwp_quiet_bind; [done|apply quiet_bucket_get|].
      intros ex. apply lwp_quiet_bind; [done|destruct ex; quiet|]. intros _.
      by apply lwp_allow_loop. }
    apply lwp_quiet_bind; [done|apply quiet_bucket_get|]. intros [|]; [|by apply Hrest].
    apply wp_bind, lwp_resetWindow; [done|]. intros err c' Hle.
    eapply wp_mono; [intros r c''; by apply (admitted_ok_weaken key n c c')|].
    apply lwp_consume_or; [lia|done|]. apply Hrest. lia.
Qed.

Lemma lwp_client fuel key n :
  small n → lwp (client serve o fuel key n) 0 (λ _ _, True).
Proof.
  intros Hn. unfold client. apply wp_bind.
  eapply wp_mono; [|by apply lwp_AllowN].
  intros [[[] e]|] c' [Hle Hadm]; cbn beta iota; [|done|done].
  specialize (Hadm e eq_refl). apply wp_atomically. cbn [fst snd].
  intros s Hi _ _ HΦ. set (s' := mkWorld _ _ _ _ _).
  assert (Ha : admitted κ s' = cr key n + admitted κ s) by done.
  pose proof (credit_nonneg κ key n ltac:(unfold small in *; lia)). split.
  - destruct Hi as [Ip Il Ic Ia Im Is Iw Ie It Io]. split; try done.
    rewrite Ha. lia.
  - exists (c' - cr key n). repeat split; [lia|].
    assert (reserve κ P0 s' = P0 + supply κ s - admitted κ s'
      - local_tokens κ s - in_channels κ s - pool_of κ s) as -> by done.
    unfold reserve. lia.
Qed.
End admission.
