(* ===== verification/RateLimit.v ===== *)
(** * RateLimit: the guarantee of a whole cluster

    A cluster is a list of configured instances and a network that says which
    of them listens at an address.  [entry] is everything that can be started
    in it: requests of callers, the start and the close of an instance, and
    transfer and gossip calls from anybody who can reach a token server.
    [redis_drift] is what may happen to the Redis store behind the program's
    back: keys may be lost or shrink, but nobody adds tokens to a pool or
    turns back a window. *)

From Stdlib Require Import Ascii.
From S2P Require Export Admission.

Section cluster.
Context {R : Type} `{RedisStore R} `{FloatConv} `{GrpcDial}
  `{NetListen}.
Abbreviation W := (world R).
Context (cluster : list (options W)) (net : string → option (options W)).

Definition serve (addr : string) : option (TokenServer W) :=
  token_server <$> net addr.

Inductive entry : go W unit → Prop :=
| E_client o fuel key n : o ∈ cluster → small n →
    entry (client serve o fuel key n)
| E_start o ticks ema : o ∈ cluster →
    entry (newLimiter serve o ticks ema ;;; Ret tt)
| E_close o : o ∈ cluster → entry (Close o ;;; Ret tt)
| E_transfer o req : o ∈ cluster → 0 <= Requested req →
    entry (TransferTokens (token_server o) req ;;; Ret tt)
| E_gossip o origin cs bs : o ∈ cluster →
    entry (Gossip (token_server o) origin cs bs ;;; Ret tt).

Definition redis_drift (s s' : W) : Prop :=
  ∃ r, s' = lput redis_lens (mkRW r (rw_log (w_redis s))) s ∧
    ∀ k, (pool_of k s' = pool_of k s ∨ 0 <= pool_of k s' <= pool_of k s) ∧
         window_start k s <= window_start k s' ∧
         (lua_ok (window_start k s) → lua_ok (window_start k s')).

(** Nothing was made, started or admitted yet. *)
Definition fresh (s : W) : Prop :=
  w_heap s = ∅ ∧ w_chans s = ∅ ∧ w_insts s = ∅ ∧ w_admitted s = [] ∧
  rw_log (w_redis s) = [].
End cluster.

(** ** Windows in time *)

(** Multiples of [w] between two bounds, in decreasing order. *)
Lemma spaced_length w a b l :
  0 < w → a <= b → StronglySorted Z.gt l → Forall (λ x, (w | x)) l →
  Forall (λ x, a <= x <= b) l → Z.of_nat (length l) <= (b - a) / w + 1.
Proof.
  intros Hw. revert b. induction l as [|x l IH]; intros b Hab Hs Hd Hin.
  { cbn. pose proof (Z.div_pos (b - a) w). lia. }
  apply StronglySorted_inv in Hs as [Hs Hx]. apply Forall_cons in Hd as [Hdx Hd].
  apply Forall_cons in Hin as [Hax Hin].
  assert (Hle : (x - a) / w <= (b - a) / w) by (apply Z.div_le_mono; lia).
  pose proof (Z.div_pos (x - a) w ltac:(lia) Hw).
  destruct l as [|y l]; [cbn; lia|].
  assert (Hprev : Forall (λ z, a <= z <= x - w) (y :: l)).
  { rewrite Forall_forall in *. intros z Hz. specialize (Hin z Hz).
    specialize (Hx z Hz). destruct (Hd z Hz) as [k ->], Hdx as [k' ->]. cbn in Hx.
    assert (k + 1 <= k') by nia. split; [lia|]. transitivity ((k' - 1) * w); nia. }
  pose proof (Forall_inv Hprev) as Hy. cbn in Hy.
  specialize (IH (x - w) ltac:(lia) Hs Hd Hprev).
  replace (x - w - a) with (x - a + (-1) * w) in IH by lia.
  rewrite Z.div_add in IH by lia. cbn [length] in *. lia.
Qed.

(** The start of the window around a time is a multiple of the window. *)
Lemma window_aligned w t :
  0 < w → (w | to_i64 (Z.quot (UnixMilli t) w * w)).
Proof.
  intros Hw. pose proof (to_i64_range (t / Millisecond)) as Hr.
  change (to_i64 (t / Millisecond)) with (UnixMilli t) in Hr. unfold is_i64 in Hr.
  rewrite to_i64_small; [apply Z.divide_factor_r|]. unfold is_i64.
  rewrite Z.mul_comm. destruct (Z.le_ge_cases 0 (UnixMilli t)).
  - pose proof (Z.mul_quot_le (UnixMilli t) w). lia.
  - pose proof (Z.mul_quot_ge (UnixMilli t) w). lia.
Qed.

Section guarantee.
Context {R : Type} `{RedisLaws R} `{FloatConv} `{GrpcDial}
  `{NetListen}.
Abbreviation W := (world R).
Context (cluster : list (options W)) (net : string → option (options W)).
Context (κ : string) (L : Z).
Context (cluster_ok : ∀ o, o ∈ cluster → instance_ok κ L o).
Abbreviation run P0 := (rtc (lim_step (ledger_lim κ P0) (entry cluster net) redis_drift)).

Section windows.
Context (Win : Z → Prop).
Context (win_ok : ∀ o start, o ∈ cluster → opened_by o start → Win start).

Lemma serve_ok addr srv :
  serve net addr = Some srv → ∃ o, srv = token_server o.
Proof. unfold serve. destruct (net addr) as [o|]; [|done]. intros [= <-]. eauto. Qed.

Lemma no_limiter_ok id (s : W) :
  w_insts s = ∅ → mgr_ok (lget (mgr_lens id) s).
Proof.
  intros Hs. unfold mgr_lens, inst. cbn. rewrite Hs, lookup_empty.
  split; [vm_compute; split; discriminate|].
  split; [vm_compute; split; discriminate|apply id_ok_empty].
Qed.

Lemma fresh_ok s :
  fresh s → 0 <= pool_of κ s → lua_ok (window_start κ s) →
  ledger_inv κ L Win s ∧ reserve κ (pool_of κ s) s = 0.
Proof.
  intros (Hh & Hc & Hin & Ha & Hl) Hp Hw.
  assert (E1 : heap_of κ s = []) by (unfold heap_of; by rewrite Hh, lookup_empty).
  assert (E2 : chans_of κ (w_chans s) = [])
    by (unfold chans_of; by rewrite Hc, lookup_empty).
  assert (E3 : starts κ s = []) by (unfold starts; by rewrite Hl).
  assert (E4 : supply κ s = 0) by (unfold supply; by rewrite Hl).
  assert (E5 : admitted κ s = 0) by (unfold admitted; by rewrite Ha).
  split.
  - split; rewrite ?E1, ?E2, ?E3, ?E4, ?E5; try done; try by constructor.
    + intros id. by apply no_limiter_ok.
    + cbn. lia.
  - unfold reserve, local_tokens, in_channels. rewrite E1, E2, E4, E5. cbn. lia.
Qed.

Lemma entry_wp P0 p :
  entry cluster net p →
  wp (ledger_inv κ L Win) (ledger_lim κ P0) (reserve κ P0) p 0 (λ _ _, True).
Proof.
  destruct 1 as [o fuel key n Ho Hn|o ticks ema Ho|o Ho|o req Ho Hreq|o origin cs bs Ho];
    destruct (cluster_ok o Ho) as [Hopts HL Hid Hr] eqn:E; clear E.
  - apply lwp_client; [apply serve_ok|by apply cluster_ok|by intros; eapply win_ok|done].
  - apply lwp_quiet; [done| |done].
    apply quiet_bind; [|intros; exact I].
    by apply quiet_newLimiter; [apply serve_ok|..].
  - apply lwp_quiet; [done| |done].
    apply quiet_bind; [by apply quiet_Close|intros; exact I].
  - apply wp_bind, lwp_TransferTokens; done.
  - apply lwp_quiet; [done| |done].
    apply quiet_bind; [by apply quiet_Gossip|intros; exact I].
Qed.

Lemma drift_ok P0 s s' :
  ledger_inv κ L Win s → ledger_lim κ P0 s → redis_drift s s' →
  ledger_inv κ L Win s' ∧ reserve κ P0 s <= reserve κ P0 s'.
Proof.
  intros Hi _ (r & Hs' & Hk). destruct (Hk κ) as (Hp & Hw & He).
  assert (E : local_tokens κ s' = local_tokens κ s ∧ in_channels κ s' = in_channels κ s ∧
    supply κ s' = supply κ s ∧ admitted κ s' = admitted κ s ∧ starts κ s' = starts κ s)
    by by subst s'.
  destruct E as (E1 & E2 & E3 & E4 & E5).
  pose proof (li_pool κ L Win s Hi) as Hp0. split.
  - destruct Hi as [Ip Il Ic Ia Im Is Iw Ie It Io].
    split; rewrite ?E3, ?E4, ?E5; try (subst s'; done); [lia| |by apply He].
    eapply Forall_impl; [exact Iw|]. cbn. lia.
  - unfold reserve. rewrite E1, E2, E3, E4. lia.
Qed.

Lemma reachable_ok s0 ts s :
  fresh s0 → 0 <= pool_of κ s0 → lua_ok (window_start κ s0) →
  run (pool_of κ s0) ([], s0) (ts, s) →
  ledger_inv κ L Win s ∧ 0 <= reserve κ (pool_of κ s0) s.
Proof.
  intros Hf Hp Hw Hrun. destruct (fresh_ok s0 Hf Hp Hw) as [Hi HΦ].
  assert (Hok : conf_ok (ledger_inv κ L Win) (ledger_lim κ (pool_of κ s0))
            (reserve κ (pool_of κ s0)) (ts, s)).
  { eapply pool_safe; [apply entry_wp|apply drift_ok| |exact Hrun].
    split; [done|]. exists []. split; [constructor|]. cbn. lia. }
  split; [apply Hok|]. exact (pool_reserve _ _ _ _ Hok).
Qed.
End windows.

(** The limit, in terms of the windows opened. *)
Lemma admitted_windows Win s0 ts s :
  (∀ o start, o ∈ cluster → opened_by o start → Win start) →
  fresh s0 → pool_of κ s0 = 0 → lua_ok (window_start κ s0) →
  run 0 ([], s0) (ts, s) →
  admitted κ s <= L * Z.of_nat (length (starts κ s)) ∧
  StronglySorted Z.gt (starts κ s) ∧ Forall Win (starts κ s).
Proof.
  intros Hwin Hf Hp Hw Hrun.
  destruct (reachable_ok Win Hwin s0 ts s) as [Hi HΦ]; [done|lia|done|by rewrite Hp|].
  unfold reserve in HΦ. rewrite Hp in HΦ.
  pose proof (li_limits κ L Win s Hi). pose proof (li_pool κ L Win s Hi).
  pose proof (local_nonneg κ L Win s Hi). pose proof (in_channels_nonneg κ L Win s Hi).
  split; [lia|]. split; apply Hi.
Qed.

(** C1: tokens are conserved.  In every state a cluster can reach, for
    every interleaving of its goroutines, every failure of Redis commands
    and of calls between instances, every clock and every loss of Redis
    data, the tokens of a key that were admitted, that the instances hold,
    that are on their way between goroutines and that remain in the pool
    are together at most what the executed window resets supplied (and
    what the pool held at the start). *)
Theorem rate_limit_conservation s0 ts s :
  fresh s0 → 0 <= pool_of κ s0 → lua_ok (window_start κ s0) →
  run (pool_of κ s0) ([], s0) (ts, s) →
  admitted κ s + local_tokens κ s + in_channels κ s + pool_of κ s
    <= pool_of κ s0 + supply κ s ∧
  0 <= admitted κ s ∧ 0 <= local_tokens κ s ∧ 0 <= in_channels κ s ∧
  0 <= pool_of κ s.
Proof.
  intros Hf Hp Hw Hrun.
  destruct (reachable_ok (λ _, True) (λ _ _ _ _, I) s0 ts s Hf Hp Hw Hrun) as [Hi HΦ].
  unfold reserve in HΦ. split; [lia|].
  split; [apply Hi|]. split; [by eapply local_nonneg|].
  split; [by eapply in_channels_nonneg|apply Hi].
Qed.

(** C2: the rate limit.  With no instance's limit above [L], a cluster that
    starts with an empty pool admits at most [L] tokens of a key per window
    opened, however many instances it has; and a window is opened at most
    once, the windows being opened in increasing order of their starts. *)
Theorem rate_limit_per_window s0 ts s :
  fresh s0 → pool_of κ s0 = 0 → lua_ok (window_start κ s0) →
  run 0 ([], s0) (ts, s) →
  admitted κ s <= L * Z.of_nat (length (starts κ s)) ∧
  StronglySorted Z.gt (starts κ s).
Proof.
  intros Hf Hp Hw Hrun.
  destruct (admitted_windows (λ _, True) s0 ts s (λ _ _ _ _, I) Hf Hp Hw Hrun) as (? & ? & _).
  done.
Qed.

End guarantee.

(** ** A run, for the witnesses *)

(** Running one goroutine alone, checking every state on the way. *)
Fixpoint checked {S A : Type} (ok : S → bool) (env : environment) (i : nat)
    (p : go S A) (s : S) : option S :=
  match p with
  | Ret _ => if ok s then Some s else None
  | Step f k =>
      if ok s then
        match f s with
        | Some (x, s') => checked ok env i (k x) s'
        | None => None
        end
      else None
  | Ask q k => checked ok env (Datatypes.S i) (k (env _ q i)) s
  | Fork t k => checked ok env i k s
  | Panic _ => None
  end.

Lemma checked_ok {S A} ok env (p : go S A) :
  ∀ i s s', checked ok env i p s = Some s' → ok s = true ∧ ok s' = true.
Proof.
  induction p as [A a|A X f k IH|A X q k IH|A t _ k IH|A m]; intros i s s'; cbn;
    [| |by apply IH|by apply IH|done].
  - destruct (ok s) eqn:E; [|done]. by intros [= <-].
  - destruct (ok s); [|done]. destruct (f s) as [[x s1]|]; [|done].
    intros [_ H]%IH. done.
Qed.

Lemma checked_steps {S A} (Lim : S → Prop) entry env_step (ok : S → bool) env
    (p : go S A) (HA : A = unit) :
  (∀ s, ok s = true → Lim s) →
  (∀ X (q : question X) i, valid_answer q (env X q i)) →
  ∀ i s s' ts n, checked ok env i p s = Some s' →
  ts !! n = Some (eq_rect A (go S) p unit HA) →
  ∃ ts', rtc (lim_step Lim entry env_step) (ts, s) (ts', s').
Proof.
  intros Hok Henv.
  induction p as [A a|A X f k IH|A X q k IH|A t _ k IH|A m]; subst A;
    intros i s s' ts n Hc Hn; cbn in Hc, Hn; [| | | |done].
  - destruct (ok s); [|done]. injection Hc as <-. exists ts. apply rtc_refl.
  - destruct (ok s) eqn:E; [|done]. destruct (f s) as [[x s1]|] eqn:Hf; [|done].
    destruct (IH x eq_refl i s1 s' (<[n:=k x]> ts ++ []) n Hc) as [ts' Hr].
    { rewrite app_nil_r. apply list_lookup_insert_eq. by eapply lookup_lt_Some. }
    exists ts'. eapply rtc_l; [|exact Hr].
    split; [by apply Hok|]. split; [by apply Hok, (checked_ok _ _ _ _ _ _ Hc)|].
    econstructor; [exact Hn|]. by exists x.
  - destruct (IH (env X q i) eq_refl (Datatypes.S i) s s'
      (<[n:=k (env X q i)]> ts ++ []) n Hc) as [ts' Hr].
    { rewrite app_nil_r. apply list_lookup_insert_eq. by eapply lookup_lt_Some. }
    exists ts'. eapply rtc_l; [|exact Hr].
    pose proof (Hok s (proj1 (checked_ok _ _ _ _ _ _ Hc))).
    split; [done|]. split; [done|].
    econstructor; [exact Hn|]. exists (env X q i). repeat split. apply Henv.
  - destruct (IH eq_refl i s s' (<[n:=k]> ts ++ [t]) n Hc) as [ts' Hr].
    { rewrite lookup_app_l by (rewrite length_insert; by eapply lookup_lt_Some).
      apply list_lookup_insert_eq. by eapply lookup_lt_Some. }
    exists ts'. eapply rtc_l; [|exact Hr].
    pose proof (Hok s (proj1 (checked_ok _ _ _ _ _ _ Hc))).
    split; [done|]. split; [done|]. econstructor; [exact Hn|]. by repeat split.
Qed.

Lemma checked_run {S} (Lim : S → Prop) (entry : go S unit → Prop) env_step
    (ok : S → bool) env p s s' :
  (∀ s, ok s = true → Lim s) →
  (∀ X (q : question X) i, valid_answer q (env X q i)) →
  entry p → checked ok env 0 p s = Some s' →
  ∃ ts, rtc (lim_step Lim entry env_step) ([], s) (ts, s').
Proof.
  intros Hok Henv Hp Hc. pose proof (Hok s (proj1 (checked_ok _ _ _ _ _ _ Hc))).
  destruct (checked_steps Lim entry env_step ok env p eq_refl Hok Henv 0 s s' [p] 0 Hc)
    as [ts Hr]; [done|]. exists ts. eapply rtc_l; [|exact Hr].
  split; [done|]. split; [done|]. by apply (PS_spawn _ _ [] s p).
Qed.

(** One instance, "a", with the default options; a caller asks for 5 tokens
    of "k" at minute 1000, when neither the instance nor Redis has any. *)
Definition demo : options (world mem_redis) := WithInstanceID "a" defaultOptions.
Definition demo_start : world mem_redis :=
  mkWorld ∅ ∅ (mkRW (mkMem ∅ ∅) []) ∅ [].
Definition demo_ok (s : world mem_redis) : bool :=
  bool_decide (ledger_lim "k" 0 s).
Definition demo_net : string → option (options (world mem_redis)) := λ _, None.
Definition demo_client : go (world mem_redis) unit :=
  client (serve demo_net) demo 4 "k" 5.

#[export] Instance lua_ok_dec z : Decision (lua_ok z).
Proof. unfold lua_ok. apply _. Defined.

Lemma demo_instance_ok : instance_ok "k" 10000 demo.
Proof.
  split.
  - apply (defaultOptions_ok (S:=world mem_redis)).
  - unfold demo. cbn. lia.
  - by apply (id_ok_last "a" "a"%char).
  - intros r [= <-]. apply Default_quiet.
Qed.

(** The goroutine runs to its end and the caller is admitted. *)
Lemma demo_run :
  ∃ ts s, rtc (lim_step (ledger_lim "k" 0)
            (@entry _ _ _ always_dials
               {| Listen_err _ := None; Listen_addr a := a |} [demo] demo_net)
            redis_drift) ([], demo_start) (ts, s) ∧
    (admitted "k" s, local_tokens "k" s, pool_of "k" s, starts "k" s)
      = (5, 995, 9000, [60000000]).
Proof.
  destruct (checked demo_ok (clock_env (60000 * Second)) 0 demo_client demo_start)
    as [s|] eqn:E; [|exfalso; vm_compute in E; discriminate E].
  destruct (checked_run (ledger_lim "k" 0)
    (@entry _ _ _ always_dials
               {| Listen_err _ := None; Listen_addr a := a |} [demo] demo_net)
    redis_drift demo_ok (clock_env (60000 * Second)) demo_client demo_start s)
    as [ts Hr].
  - intros s' Hs'. by apply bool_decide_eq_true in Hs'.
  - apply clock_env_ok.
  - apply (@E_client _ _ _ always_dials
      {| Listen_err _ := None; Listen_addr a := a |}); [by left|]. unfold small. lia.
  - exact E.
  - exists ts, s. split; [exact Hr|]. revert E. vm_compute.
    intros [= <-]. reflexivity.
Qed.

Lemma demo_fresh :
  fresh demo_start ∧ pool_of "k" demo_start = 0 ∧ lua_ok (window_start "k" demo_start).
Proof. split; [repeat split|]. split; [done|]. vm_compute. split; discriminate. Qed.

Lemma rate_limit_conservation_witness :
  ∃ s : world mem_redis, admitted "k" s = 5 ∧
    admitted "k" s + local_tokens "k" s + in_channels "k" s + pool_of "k" s
      <= 0 + supply "k" s.
Proof.
  destruct demo_run as (ts & s & Hr & Hs). destruct demo_fresh as (Hf & Hp & Hw).
  exists s. split; [congruence|].
  destruct (@rate_limit_conservation _ _ _ _ always_dials
    {| Listen_err _ := None; Listen_addr a := a |} [demo] demo_net "k" 10000
    ltac:(intros o Ho; apply list_elem_of_singleton in Ho; subst o;
          exact demo_instance_ok) demo_start ts s) as [H _].
  - exact Hf.
  - rewrite Hp. reflexivity.
  - exact Hw.
  - rewrite Hp. exact Hr.
  - rewrite Hp in H. exact H.
Defined.

Lemma rate_limit_per_window_witness :
  ∃ s : world mem_redis, starts "k" s = [60000000] ∧ admitted "k" s <= 10000 * 1.
Proof.
  destruct demo_run as (ts & s & Hr & Hs). destruct demo_fresh as (Hf & Hp & Hw).
  exists s. assert (Hst : starts "k" s = [60000000]) by congruence.
  split; [exact Hst|].
  destruct (@rate_limit_per_window _ _ _ _ always_dials
    {| Listen_err _ := None; Listen_addr a := a |} [demo] demo_net "k" 10000
    ltac:(intros o Ho; apply list_elem_of_singleton in Ho; subst o;
          exact demo_instance_ok) demo_start ts s) as [H _].
  - exact Hf.
  - exact Hp.
  - exact Hw.
  - exact Hr.
  - rewrite Hst in H. exact H.
Defined.

