(* ===== verification/WellFormed.v ===== *)
(** * WellFormed: what holds of every state of a cluster, and no panics

    The components' own invariants, put together: in every state any
    interleaving of the program reaches, each instance has its 64 shards, a
    bucket table maps a key, in the shard of that key, to a bucket that
    exists, the loan table and the gossip tables are well-formed, and the mesh
    accounts for every connection.  The theorems about single operations
    assume this of the state they start in.  The same argument shows that no
    goroutine ever panics, under the three conditions on the options that the
    code needs and does not check. *)

From S2P Require Export Rely RateLimit.

Section well_formed.
Context {R : Type} `{RedisStore R} `{FloatConv}.
Abbreviation W := (world R).

(** ** The invariant *)

(** [p] is a bucket of [key]. *)
Definition allocated (key : string) (p : nat) (s : W) : Prop :=
  (p < length (heap_of key s))%nat.

Record limiter_ok (s : W) (l : limiter) : Prop := {
  lo_length : length (l_shards l) = 64%nat;
  lo_tables i sh key p : l_shards l !! i = Some sh → buckets sh !! key = Some p →
    i = shard_of key ∧ allocated key p s;
  lo_mgr : bm_wf (l_borrowMgr l);
  lo_mesh : accounted (l_mesh l);
  lo_gossip : gossiper_wf (l_gossiper l);
}.

Definition well_formed (s : W) : Prop := ∀ id, limiter_ok s (lget (inst_lens id) s).

(** Buckets are never given back; what Redis has executed and what callers
    were told to do is only added to. *)
Record grows (s s' : W) : Prop := {
  gr_heap key : (length (heap_of key s) <= length (heap_of key s'))%nat;
  gr_log : rw_log (w_redis s) `suffix_of` rw_log (w_redis s');
  gr_admitted : ∃ l, w_admitted s' = l ++ w_admitted s ∧ Forall (λ e, 0 <= e.2) l;
}.

#[export] Instance grows_preorder : PreOrder grows.
Proof.
  split; [by intros s; split; [|reflexivity|exists []]|].
  intros s1 s2 s3 [H1 L1 (l1 & A1 & P1)] [H2 L2 (l2 & A2 & P2)]. split.
  - intros key. specialize (H1 key). specialize (H2 key). lia.
  - by etransitivity.
  - exists (l2 ++ l1). rewrite A2, A1, app_assoc. split; [done|]. by apply Forall_app.
Qed.

(** Most code adds nothing to either. *)
Lemma grows_same s s' :
  (∀ key, length (heap_of key s) <= length (heap_of key s'))%nat →
  rw_log (w_redis s) = rw_log (w_redis s') → w_admitted s' = w_admitted s → grows s s'.
Proof. intros H1 H2 H3. split; [done|by rewrite H2|by exists []]. Qed.

Lemma allocated_grows key p s s' : grows s s' → allocated key p s → allocated key p s'.
Proof. intros Hg Hp. pose proof (gr_heap _ _ Hg key). unfold allocated in *. lia. Qed.

Lemma limiter_ok_grows s s' l : grows s s' → limiter_ok s l → limiter_ok s' l.
Proof.
  intros Hg [H1 H2 H3 H4 H5]. split; [done| |done..].
  intros i sh key p Hi Hk. destruct (H2 i sh key p Hi Hk). split; [done|].
  by eapply allocated_grows.
Qed.

(** The instances are what they were. *)
Lemma well_formed_same s s' :
  w_insts s' = w_insts s → grows s s' → well_formed s → well_formed s' ∧ grows s s'.
Proof.
  intros E Hg Hs. split; [|done]. intros id. specialize (Hs id). cbn in *. rewrite E.
  by eapply limiter_ok_grows.
Qed.

Lemma well_formed_put id l s :
  well_formed s → limiter_ok s l →
  well_formed (lput (inst_lens id) l s) ∧ grows s (lput (inst_lens id) l s).
Proof.
  intros Hs Hl. assert (Hg : grows s (lput (inst_lens id) l s)) by by apply grows_same.
  split; [|done]. intros id'. apply (limiter_ok_grows s); [done|]. cbn.
  destruct (decide (id' = id)) as [->|Hne].
  - by rewrite lookup_insert_eq.
  - rewrite lookup_insert_ne by done. apply Hs.
Qed.

Lemma initial_limiter_ok {T} s (o : options T) ema : limiter_ok s (initial_limiter o ema).
Proof.
  split; unfold initial_limiter; cbn [l_shards l_borrowMgr l_mesh l_gossiper].
  - apply length_replicate.
  - intros i sh key p Hi Hk. apply lookup_replicate in Hi as [-> _].
    cbn in Hk. by rewrite lookup_empty in Hk.
  - apply NewBorrowManager_wf.
  - apply NewMesh_accounted.
  - apply length_replicate.
Qed.

(** ** The components behind their lenses *)

(** A field and what is known of it. *)
Class FieldOk {T} (f : lens limiter T) (P : T → Prop) : Prop := {
  field_get s l : limiter_ok s l → P (lget f l);
  field_put s l t : limiter_ok s l → P t → limiter_ok s (lput f t l);
}.

#[export] Instance SafeLens_inst {T} id (f : lens limiter T) P `{!FieldOk f P} :
  SafeLens well_formed grows (inst id f) P.
Proof.
  split.
  - intros s Hs. apply (field_get s), Hs.
  - intros s t Hs Ht. apply (well_formed_put id (lput f t (lget (inst_lens id) s)) s Hs).
    apply field_put; [apply Hs|exact Ht].
Qed.

Ltac field := split; [by intros s l []|by intros s l t [] ?; split].
#[export] Instance FieldOk_metrics : FieldOk f_metrics (λ _, True).
Proof. field. Qed.
#[export] Instance FieldOk_mgr : FieldOk f_mgr bm_wf.
Proof. field. Qed.
#[export] Instance FieldOk_mesh : FieldOk f_mesh accounted.
Proof. field. Qed.
#[export] Instance FieldOk_gossip : FieldOk f_gossip gossiper_wf.
Proof. field. Qed.
#[export] Instance FieldOk_router : FieldOk f_router (λ _, True).
Proof. field. Qed.
#[export] Instance FieldOk_heartbeat : FieldOk f_heartbeat (λ _, True).
Proof. field. Qed.
#[export] Instance FieldOk_peerStates : FieldOk f_peerStates (λ _, True).
Proof. field. Qed.
#[export] Instance FieldOk_closed : FieldOk f_closed (λ _, True).
Proof. field. Qed.
#[export] Instance FieldOk_cancelled : FieldOk f_cancelled (λ _, True).
Proof. field. Qed.
#[export] Instance FieldOk_wg : FieldOk f_wg (λ _, True).
Proof. field. Qed.
#[export] Instance FieldOk_mesh_wg : FieldOk f_mesh_wg (λ _, True).
Proof. field. Qed.
#[export] Instance FieldOk_server : FieldOk f_server (λ _, True).
Proof. field. Qed.

#[export] Instance SafeLens_chans : SafeLens well_formed grows (chans_lens (R:=R)) (λ _, True).
Proof. split; [done|]. intros s t Hs _. by apply well_formed_same; [|apply grows_same|]. Qed.

(** The server, whose record of scripts only grows. *)
Lemma well_formed_redis (s : W) w :
  rw_log (w_redis s) `suffix_of` rw_log w → well_formed s →
  well_formed (lput redis_lens w s) ∧ grows s (lput redis_lens w s).
Proof. intros Hw. apply well_formed_same; [done|]. by split; [|exact Hw|exists []]. Qed.

#[export] Instance SafeLens_gossip_shards id :
  SafeLens well_formed grows (lens_compose (gossip_lens id) shards_lens)
    (λ t : list gossipShard, length t = gossipShardCount).
Proof.
  split.
  - intros s Hs. apply (lo_gossip s _ (Hs id)).
  - intros s t Hs Ht. apply (safe_lput well_formed grows (T:=Gossiper)
      (l:=inst id f_gossip) (P:=gossiper_wf)); [exact Hs|exact Ht].
Qed.

#[export] Instance SafeLens_router_shards id :
  SafeLens well_formed grows (lens_compose (router_lens id) rshards_lens) (λ _, True).
Proof.
  split; [done|]. intros s t Hs _.
  by apply (safe_lput well_formed grows (l:=inst id f_router) (P:=λ _, True)).
Qed.

Abbreviation wsafe := (safe well_formed grows).
Abbreviation wrg := (rg well_formed grows).

Lemma safe_metric id f : wsafe (metric id f).
Proof. unfold metric. safe. Qed.
Lemma safe_wg_Add id : wsafe (wg_Add (R:=R) id).
Proof. unfold wg_Add. safe. Qed.
Lemma safe_wg_Done id : wsafe (wg_Done (R:=R) id).
Proof. unfold wg_Done. safe. Qed.
#[local] Hint Resolve safe_metric safe_wg_Add safe_wg_Done : safe.

(** ** Bucket tables *)

(** Replacing a shard by one with fewer keys. *)
Lemma limiter_ok_shard s l i sh sh' :
  l_shards l !! i = Some sh →
  (∀ key p, buckets sh' !! key = Some p → i = shard_of key ∧ allocated key p s) →
  limiter_ok s l → limiter_ok s (lput f_shards (<[i:=sh']> (l_shards l)) l).
Proof.
  intros Hi Hsh' [H1 H2 H3 H4 H5]. split; cbn; [by rewrite length_insert| |done..].
  intros j sh1 key p Hj Hk. destruct (decide (i = j)) as [<-|Hne].
  - rewrite list_lookup_insert_eq in Hj by (by eapply lookup_lt_Some).
    injection Hj as <-. by apply Hsh'.
  - rewrite list_lookup_insert_ne in Hj by done. by eapply H2.
Qed.

Lemma rg_with_shard {X} id i (f : bucketShard → option (X * bucketShard)) (s : W) :
  (∀ s' sh x sh', grows s s' → f sh = Some (x, sh') →
     ∀ key p, buckets sh' !! key = Some p →
       buckets sh !! key = Some p ∨ i = shard_of key ∧ allocated key p s') →
  wrg (with_shard id i f) s (λ _ _, True).
Proof.
  intros Hf. apply (rg_step well_formed grows). intros s1 x s2 Hg Hs Hstep. cbv zeta in Hstep.
  destruct (lget (inst id f_shards) s1 !! i) as [sh|] eqn:Hi; [|done].
  destruct (f sh) as [[y sh']|] eqn:E; [|done]. injection Hstep as <- <-.
  pose proof (Hs id) as Hok.
  destruct (well_formed_put id (lput f_shards (<[i:=sh']> (lget (inst id f_shards) s1))
    (lget (inst_lens id) s1)) s1 Hs) as [H1 H2];
    [|exact (conj H1 (conj H2 (λ _ _, I)))].
  eapply limiter_ok_shard; [exact Hi| |exact Hok].
  intros key p Hk. destruct (Hf s1 sh y sh' Hg E key p Hk); [|done].
  by eapply (lo_tables s1 _ Hok).
Qed.

Lemma safe_with_shard {X} id i (f : bucketShard → option (X * bucketShard)) :
  (∀ sh x sh', f sh = Some (x, sh') → buckets sh' ⊆ buckets sh) →
  wsafe (with_shard (R:=R) id i f).
Proof.
  intros Hf s. apply rg_with_shard. intros s' sh x sh' _ E key p Hk. left.
  by eapply lookup_weaken, Hf.
Qed.

Lemma safe_shard_RLock id i : wsafe (shard_RLock (R:=R) id i).
Proof.
  apply safe_with_shard. intros sh x sh'. destruct (rw_writer _); [done|].
  intros [= _ <-]. reflexivity.
Qed.
Lemma safe_shard_RUnlock id i : wsafe (shard_RUnlock (R:=R) id i).
Proof. apply safe_with_shard. intros sh x sh' [= _ <-]. reflexivity. Qed.
Lemma safe_shard_Lock id i : wsafe (shard_Lock (R:=R) id i).
Proof.
  apply safe_with_shard. intros sh x sh'. destruct (_ || _); [done|].
  intros [= _ <-]. reflexivity.
Qed.
Lemma safe_shard_Unlock id i : wsafe (shard_Unlock (R:=R) id i).
Proof. apply safe_with_shard. intros sh x sh' [= _ <-]. reflexivity. Qed.
Lemma safe_shard_get {X} id i (f : gmap string nat → X) : wsafe (shard_get (R:=R) id i f).
Proof. apply safe_with_shard. intros sh x sh' [= _ <-]. reflexivity. Qed.
Lemma safe_shard_delete id i key : wsafe (shard_set (R:=R) id i (delete key)).
Proof. apply safe_with_shard. intros sh x sh' [= _ <-]. apply delete_subseteq. Qed.
#[local] Hint Resolve safe_shard_RLock safe_shard_RUnlock safe_shard_Lock
  safe_shard_Unlock safe_shard_get safe_shard_delete : safe.

(** ** Buckets *)

Lemma put_heap_grows key bs s :
  (length (heap_of key s) <= length bs)%nat → grows s (put_heap (R:=R) key bs s).
Proof.
  intros Hl. apply grows_same; [|done..]. intros key'. rewrite heap_of_put.
  by destruct (decide _) as [->|].
Qed.

Lemma well_formed_heap key bs (s : W) :
  (length (heap_of key s) <= length bs)%nat → well_formed s →
  well_formed (put_heap key bs s) ∧ grows s (put_heap key bs s).
Proof. intros Hl. apply well_formed_same; [done|by apply put_heap_grows]. Qed.

Lemma safe_on_bucket {X} key p (f : bucket → X * bucket) : wsafe (on_bucket key p f).
Proof.
  apply safe_await. intros s x s' Hs. destruct (heap_of key s !! p) as [b|]; [|done].
  destruct (f b) as [y b']. intros [= _ <-]. apply well_formed_heap; [|done].
  by rewrite length_insert.
Qed.
Lemma safe_bucket_do key p f : wsafe (bucket_do (R:=R) key p f).
Proof. apply safe_on_bucket. Qed.
Lemma safe_bucket_get {X} key p (f : bucket → X) : wsafe (bucket_get (R:=R) key p f).
Proof. apply safe_on_bucket. Qed.
Lemma safe_bucket_Lock key p : wsafe (bucket_Lock (R:=R) key p).
Proof.
  apply safe_await. intros s x s' Hs. destruct (heap_of key s !! p) as [b|]; [|done].
  destruct (b_mu b); [done|]. intros [= _ <-]. apply well_formed_heap; [|done].
  by rewrite length_insert.
Qed.
Lemma safe_bucket_Unlock key p : wsafe (bucket_Unlock (R:=R) key p).
Proof. apply safe_on_bucket. Qed.
#[local] Hint Resolve safe_on_bucket safe_bucket_do safe_bucket_get safe_bucket_Lock
  safe_bucket_Unlock : safe.

Lemma rg_alloc_bucket key b (s : W) :
  wrg (alloc_bucket key b) s (λ p, allocated key p).
Proof.
  apply (rg_step well_formed grows (λ s, Some _)). intros s1 p s2 _ Hs [= <- <-].
  destruct (well_formed_heap key (heap_of key s1 ++ [b]) s1) as [H1 H2];
    [rewrite length_app; cbn; lia|done|].
  split; [done|]. split; [done|]. intros s3 Hg. eapply allocated_grows; [exact Hg|].
  unfold allocated. rewrite heap_of_put, decide_True, length_app by done. cbn. lia.
Qed.

(** The new bucket exists when the table gets to know it. *)
Lemma safe_insert_bucket {X} id key b (k : nat → go W X) :
  (∀ p, wsafe (k p)) →
  wsafe (do! p <- alloc_bucket key b; shard_set id (shard_of key) <[key:=p]> ;;; k p).
Proof.
  intros Hk s. apply (rg_bind well_formed grows).
  eapply (rg_mono well_formed grows); [|apply rg_alloc_bucket].
  cbn beta. intros p s' Hp. apply (rg_bind well_formed grows).
  eapply (rg_mono well_formed grows); [|apply rg_with_shard].
  - intros _ s1 _. apply Hk.
  - intros s1 sh x sh' Hg [= _ <-] k' q Hq. cbn in Hq.
    apply lookup_insert_Some in Hq as [[<- <-]|[_ Hq]]; [right|by left].
    split; [done|]. by eapply allocated_grows.
Qed.

Lemma safe_getOrCreateBucket (o : options W) key : wsafe (getOrCreateBucket o key).
Proof.
  unfold getOrCreateBucket. repeat (cbv zeta; first [apply safe_insert_bucket; intros ?|safe_step]).
Qed.
#[local] Hint Resolve safe_getOrCreateBucket : safe.

(** ** Redis, the managers, the gossipers and the meshes *)

Lemma run_body_log sc keys args (w : redis_world R) :
  rw_log w `suffix_of` rw_log (run_body sc keys args w).2.
Proof.
  unfold run_body. destruct sc, keys as [|k1 [|k2 ks]], args as [|a1 [|a2 [|a3 l]]];
    try reflexivity.
  - destruct (borrowLua _ _ _ _ _ _) as [g r]. by apply suffix_cons_r.
  - destruct (windowResetLua _ _ _ _ _) as [v r]. cbn. destruct (_ =? 1); [|done].
    by apply suffix_cons_r.
  - destruct (windowResetLua _ _ _ _ _) as [v r]. cbn. destruct (_ =? 1); [|done].
    by apply suffix_cons_r.
Qed.

Lemma safe_run_body sc keys args : wsafe (zoom redis_lens (run_body (R:=R) sc keys args)).
Proof.
  apply safe_atomically. intros s Hs. pose proof (run_body_log sc keys args (w_redis s)).
  cbn [lget redis_lens]. destruct (run_body _ _ _ _) as [v w]. by apply well_formed_redis.
Qed.
#[local] Hint Resolve safe_run_body : safe.

Lemma safe_redis_eval sc keys args : wsafe (redis_eval (R:=R) redis_lens sc keys args).
Proof.
  unfold redis_eval.
  repeat (cbv zeta; first [apply safe_run_body|safe_step]).
Qed.
#[local] Hint Resolve safe_redis_eval : safe.

(** Both scripts are in the pool's map. *)
Lemma safe_runScript name keys args :
  name = "borrow" ∨ name = "reset" →
  wsafe (runScript (R:=R) redis_lens NewRedisPool name keys args).
Proof.
  intros Hname. assert (Hs : is_Some (scripts NewRedisPool !! name))
    by (destruct Hname as [-> | ->]; vm_compute; eauto).
  unfold runScript. destruct Hs as [sc ->]. safe.
Qed.

Lemma safe_RP_Borrow key inst_id n ttl :
  wsafe (RP_Borrow (R:=R) redis_lens NewRedisPool key inst_id n ttl).
Proof.
  unfold RP_Borrow. repeat (cbv zeta; first [apply safe_runScript; by left|safe_step]).
Qed.
Lemma safe_RP_ResetWindow key limit start :
  wsafe (RP_ResetWindow (R:=R) redis_lens NewRedisPool key limit start).
Proof.
  unfold RP_ResetWindow. repeat (cbv zeta; first [apply safe_runScript; by right|safe_step]).
Qed.
#[local] Hint Resolve safe_RP_Borrow safe_RP_ResetWindow : safe.

Lemma safe_redis_write f : wsafe (redis_write (R:=R) redis_lens f).
Proof.
  assert (Hw : wsafe (zoom_modify redis_lens (λ w, mkRW (f (rw_store w)) (rw_log (R:=R) w)))).
  { apply safe_atomically. intros s Hs. by apply well_formed_redis. }
  unfold redis_write. repeat (cbv zeta; first [exact Hw|safe_step]).
Qed.
#[local] Hint Resolve safe_redis_write : safe.

#[local] Existing Instance limiter_pool.
Lemma safe_Acquire id key need cb :
  (∀ g, wsafe (cb g)) → wsafe (Acquire (mgr_lens id) None key need (Some cb)).
Proof.
  intros Hcb. unfold Acquire, acquire_leader. cbn [Borrow limiter_pool redis_pool_client].
  safe; try apply Hcb; try done. by apply note_borrow_wf.
Qed.

Lemma safe_bm_Borrowed id key : wsafe (bm_Borrowed (mgr_lens (R:=R) id) key).
Proof. unfold bm_Borrowed. safe. by apply Borrowed_wf. Qed.

Lemma safe_RecordConsumption id key n : wsafe (RecordConsumption (mgr_lens (R:=R) id) key n).
Proof. unfold RecordConsumption. safe. Qed.
#[local] Hint Resolve safe_bm_Borrowed safe_RecordConsumption : safe.

Lemma length_alter_ok {A} f i (t : list A) n :
  length t = n → length (alter f i t) = n.
Proof. by rewrite length_alter. Qed.
#[local] Hint Resolve length_alter_ok : safe.

Lemma safe_UpdatePeer id peer cs bs : wsafe (UpdatePeer (gossip_lens (R:=R) id) peer cs bs).
Proof. unfold UpdatePeer. safe. by apply length_alter_ok. Qed.
Lemma safe_RemovePeer id peer : wsafe (RemovePeer (gossip_lens (R:=R) id) peer).
Proof. unfold RemovePeer. safe. by apply length_alter_ok. Qed.
Lemma safe_g_EvictKeys id keys : wsafe (g_EvictKeys (gossip_lens (R:=R) id) keys).
Proof. unfold g_EvictKeys. safe. by apply length_alter_ok. Qed.
Lemma safe_PeerIDs id : wsafe (PeerIDs (gossip_lens (R:=R) id)).
Proof. unfold PeerIDs. safe. Qed.

(** A ranking of a number that is not negative. *)
Lemma TopK_some key now sh k (order1 order2 : ∀ A : Type, list A → list A) :
  0 <= k → TopK key now sh k order1 order2 ≠ None.
Proof.
  intros Hk. unfold TopK. destruct (_ && _); [done|].
  destruct (k <? _); [|done]. by rewrite (proj2 (Z.ltb_ge k 0) Hk).
Qed.

Lemma safe_g_TopK id k key : 0 <= k → wsafe (g_TopK (gossip_lens (R:=R) id) k key).
Proof.
  intros Hk. unfold g_TopK. do 3 safe_step. do 3 (try safe_step).
  intros s. apply (rg_bind well_formed grows).
  apply (rg_step well_formed grows (λ s, Some _)). intros s1 r s2 _ Hs [= <- <-].
  split; [done|]. split; [done|]. intros s3 _.
  destruct (match _ !! _ with Some sh => _ | None => _ end) as [es|] eqn:E; [done|].
  destruct (_ !! shard_of key) as [sh|]; [|done]. by apply TopK_some in E.
Qed.
#[local] Hint Resolve safe_UpdatePeer safe_RemovePeer safe_g_EvictKeys safe_PeerIDs
  safe_g_TopK : safe.

Lemma safe_mesh_read {X} id (f : Mesh → X) : wsafe (mesh_read (mesh_lens (R:=R) id) f).
Proof.
  apply safe_await. intros s x s' Hs. destruct (mesh_mu _); [done|].
  by intros [= _ <-].
Qed.
Lemma safe_mesh_Lock id : wsafe (mesh_Lock (mesh_lens (R:=R) id)).
Proof.
  apply safe_await. intros s x s' Hs. destruct (mesh_mu _); [done|]. intros [= _ <-].
  apply (safe_lput well_formed grows (l:=mesh_lens id) (P:=accounted)); [done|].
  apply accounted_mu, (lo_mesh s _ (Hs id)).
Qed.
Lemma safe_mesh_Unlock id : wsafe (mesh_Unlock (mesh_lens (R:=R) id)).
Proof. unfold mesh_Unlock. safe. by apply accounted_mu. Qed.
#[local] Hint Resolve safe_mesh_read safe_mesh_Lock safe_mesh_Unlock : safe.

(** ** The token server *)

Lemma safe_token_accessor o key n : wsafe (token_accessor (R:=R) o key n).
Proof. unfold token_accessor. safe. Qed.
Lemma safe_token_transferer o key n : wsafe (token_transferer (R:=R) o key n).
Proof. unfold token_transferer. safe. Qed.
#[local] Hint Resolve safe_token_accessor safe_token_transferer : safe.

Lemma safe_TransferTokens (o : options W) req :
  wsafe (TransferTokens (token_server o) req).
Proof.
  unfold TransferTokens. cbn [token_server SetGossipHandler SetTokenTransferer
    SetTokenAccessor NewTokenServer tokenAccessor tokenTransferer]. safe.
Qed.

Lemma safe_Gossip (o : options W) origin cs bs :
  wsafe (Gossip (token_server o) origin cs bs).
Proof.
  unfold Gossip. cbn [gossipHandler token_server SetGossipHandler].
  unfold gossip_handler. safe.
Qed.
#[local] Hint Resolve safe_TransferTokens safe_Gossip : safe.

(** ** [AllowN] *)

Section allow.
Context (serve : string → option (TokenServer W)).
(** Whoever answers at an address is an instance of the program. *)
Context (serve_ok : ∀ addr srv, serve addr = Some srv → ∃ o, srv = token_server o).
Context (o : options W).

Lemma safe_rpc {A} addr (handler : TokenServer W → go W (status + A)) :
  (∀ o', wsafe (handler (token_server o'))) → wsafe (rpc serve addr handler).
Proof.
  intros Hh. unfold rpc. safe_step; [safe|].
  destruct (serve addr) as [srv|] eqn:Hs; [|safe].
  destruct (serve_ok _ _ Hs) as [o' ->]. specialize (Hh o'). safe.
Qed.

#[local] Instance wf_lookup : PeerLookup W conn := limiter_lookup o.
#[local] Instance wf_ranker : PeerRanker W := limiter_ranker o.
#[local] Instance wf_requester : TokenRequester W conn := limiter_requester serve.

Lemma safe_RequestTokens client origin key need :
  wsafe (RequestTokens (C:=conn) client origin key need).
Proof.
  cbn [RequestTokens wf_requester limiter_requester grpc_requester].
  unfold PC_RequestTokens. safe_step; [|safe]. apply safe_rpc. intros o'. safe.
Qed.

Lemma safe_emitProbeResult key peer result :
  wsafe (emitProbeResult (limiter_acquirer o) key peer result).
Proof.
  unfold emitProbeResult, limiter_acquirer.
  destruct (o_metrics o); cbn [onProbeResult SetProbeResultCallback
    SetExtraTokensCallback NewAcquirer]; [|safe].
  unfold probe_result. safe.
Qed.
#[local] Hint Resolve safe_RequestTokens safe_emitProbeResult : safe.

Lemma safe_probe peer key need surplus :
  wsafe (probe (limiter_acquirer o) peer key need surplus).
Proof.
  unfold probe. cbn [lookup_client wf_lookup limiter_lookup mesh_lookup].
  unfold GetPeerClient. safe.
Qed.
#[local] Hint Resolve safe_probe : safe.

Lemma safe_extra_tokens key g : wsafe (extra_tokens o key g).
Proof. unfold extra_tokens. safe. Qed.
#[local] Hint Resolve safe_extra_tokens : safe.

Lemma safe_send key ch v : wsafe (send (S:=W) chans_lens key ch v).
Proof.
  apply safe_await. intros s x s' Hs. cbv zeta. destruct (_ !! ch) as [c|]; [|done].
  destruct (_ <? _)%nat; [|done]. intros [= _ <-].
  by apply (safe_lput well_formed grows (l:=chans_lens) (P:=λ _, True)).
Qed.
Lemma safe_recv key ch : wsafe (recv (S:=W) chans_lens key ch).
Proof.
  apply safe_await. intros s x s' Hs. cbv zeta.
  destruct (_ !! ch) as [[cap [|v buf]]|]; [done| |done]. intros [= _ <-].
  by apply (safe_lput well_formed grows (l:=chans_lens) (P:=λ _, True)).
Qed.
#[local] Hint Resolve safe_send safe_recv : safe.

Lemma safe_drain_late key ch rem :
  wsafe (drain_late chans_lens (limiter_acquirer o) key ch rem).
Proof.
  induction rem as [|rem IH]; cbn [drain_late]; [safe|].
  unfold limiter_acquirer at 1. destruct (o_metrics o); cbn [onExtraTokens
    SetProbeResultCallback SetExtraTokensCallback NewAcquirer]; safe.
Qed.
#[local] Hint Resolve safe_drain_late : safe.

Lemma safe_collect key ch active :
  wsafe (collect chans_lens (limiter_acquirer o) key ch active).
Proof. induction active as [|active IH]; cbn [collect]; safe. Qed.

Lemma safe_probeSequential l key need :
  wsafe (probeSequential (limiter_acquirer o) l key need).
Proof. induction l as [|c l IH]; cbn [probeSequential]; safe. Qed.
#[local] Hint Resolve safe_collect safe_probeSequential : safe.

(** A negative [WithProbeK] makes [TopK] slice out of range. *)
Context (probeK_ok : 0 <= o_probeK o).

Lemma safe_acq_Acquire key need cb :
  (∀ g, wsafe (cb g)) →
  wsafe (acq_Acquire chans_lens (limiter_acquirer o) key need (Some cb)).
Proof.
  intros Hcb. unfold acq_Acquire, acquire, probeParallel, make_chan.
  cbn [rank_peers wf_ranker limiter_ranker gossip_ranker].
  assert (Hk : 0 <= probeK (limiter_acquirer o))
    by (unfold limiter_acquirer; by destruct (o_metrics o)).
  safe; apply Hcb.
Qed.

Lemma safe_record_allowed key p n b : wsafe (record_allowed o key p n b).
Proof. unfold record_allowed. safe. Qed.
#[local] Hint Resolve safe_record_allowed : safe.

Lemma safe_consume_or key p n next : wsafe next → wsafe (consume_or o key p n next).
Proof. intros Hn. unfold consume_or. safe. Qed.

Lemma safe_refill_cleared key p g : wsafe (refill_cleared (R:=R) key p g).
Proof. unfold refill_cleared. safe. Qed.

Lemma safe_from_redis key p n ex again :
  (∀ ex', wsafe (again ex')) → wsafe (from_redis o key p n ex again).
Proof.
  intros Ha. unfold from_redis.
  repeat (cbv zeta; first [apply safe_Acquire; intros; apply safe_refill_cleared
                          |apply safe_consume_or|apply Ha|safe_step]).
Qed.

Lemma safe_from_peers key p n again :
  wsafe again → wsafe (from_peers serve o key p n again).
Proof.
  intros Ha. unfold from_peers, acquireFromPeers.
  repeat (cbv zeta; first [apply safe_acq_Acquire; intros; unfold refill_received
                          |apply safe_consume_or|exact Ha|safe_step]).
Qed.

(** A router that neither panics nor touches what it should not. *)
Record safe_router (r : Router W) : Prop := {
  sr_Decide rc : wsafe (Decide r rc);
  sr_RemovePeer f id : r_RemovePeer r = Some f → wsafe (f id);
  sr_EvictKeys f ks : r_EvictKeys r = Some f → wsafe (f ks);
}.

Context (router_ok : ∃ r, o_router o = Some r ∧ safe_router r).

Lemma safe_allow_loop fuel key p n ex checked :
  wsafe (allow_loop serve o fuel key p n ex checked).
Proof.
  destruct router_ok as (r & Hr & Hsafe). pose proof (sr_Decide r Hsafe) as Hd.
  revert ex checked. induction fuel as [|fuel IH]; intros ex checked;
    cbn [allow_loop]; [safe|]. rewrite Hr. unfold reject.
  repeat (cbv zeta; first [apply Hd|apply safe_from_redis; intros; apply IH
                          |apply safe_from_peers, IH|safe_step]).
Qed.

(** [resetWindow] divides by the window in milliseconds. *)
Context (window_ok : Milliseconds (o_window o) ≠ 0).

Lemma safe_resetWindow key nowMs : wsafe (resetWindow o key nowMs).
Proof.
  unfold resetWindow, reset_locked. rewrite (proj2 (Z.eqb_neq _ 0) window_ok). safe.
  by apply bm_Reset_wf.
Qed.
#[local] Hint Resolve safe_allow_loop safe_resetWindow : safe.

Lemma safe_maybePreBorrow key p : wsafe (maybePreBorrow o key p).
Proof.
  unfold maybePreBorrow.
  repeat (cbv zeta; first [apply safe_Acquire; intros; apply safe_refill_cleared
                          |safe_step]).
Qed.
#[local] Hint Resolve safe_maybePreBorrow : safe.

Lemma safe_AllowN fuel key n : wsafe (AllowN serve o fuel key n).
Proof.
  unfold AllowN, allow_local, allow_slow.
  repeat (cbv zeta; first [apply safe_consume_or|safe_step]).
Qed.

(** ** The background goroutines *)

Lemma scan_shard_less ttl now order m : (scan_shard ttl now order m).2 ⊆ m.
Proof.
  unfold scan_shard. generalize (order _ (map_to_list m)). intros l.
  assert (Hl : ∀ acc m', m' ⊆ m → (foldl (scan_entry ttl now) (acc, m') l).2 ⊆ m).
  { induction l as [|[k ks] l IH]; intros acc m' Hm; cbn [foldl]; [done|].
    unfold scan_entry at 2. destruct (lease_expired ttl now ks); [|destruct (_ <? _)];
      apply IH; [|done..].
    etransitivity; [apply delete_subseteq|done]. }
  by apply Hl.
Qed.

Lemma table_wf_less {V} (t : table V) i m m' :
  t !! i = Some m → m' ⊆ m → table_wf t → table_wf (<[i:=m']> t).
Proof.
  intros Hi Hsub [Hl Ht]. split; [by rewrite length_insert|].
  intros j m1 k v Hj Hk. destruct (decide (i = j)) as [<-|Hne].
  - rewrite list_lookup_insert_eq in Hj by (by eapply lookup_lt_Some).
    injection Hj as <-. eapply Ht; [exact Hi|]. by eapply lookup_weaken.
  - rewrite list_lookup_insert_ne in Hj by done. by eapply Ht.
Qed.

Lemma safe_scan_shards id now idxs active :
  wsafe (scan_shards (mgr_lens (R:=R) id) now idxs active).
Proof.
  revert active. induction idxs as [|i idxs IH]; intros active; cbn [scan_shards]; [safe|].
  safe; try apply IH. destruct (activeKeys _ !! i) as [m|] eqn:Hi; [|done].
  match goal with |- context [scan_shard ?ttl now ?order m] =>
    pose proof (scan_shard_less ttl now order m) as Hless end.
  destruct (scan_shard _ _ _ _) as [found m']. by eapply table_wf_less.
Qed.

Lemma safe_AllBorrowed id k : wsafe (AllBorrowed (mgr_lens (R:=R) id) k).
Proof. pose proof safe_scan_shards. unfold AllBorrowed. safe. Qed.

Lemma safe_consumed_in i keys out : wsafe (consumed_in o i keys out).
Proof. revert out. induction keys as [|k keys IH]; intros out; cbn [consumed_in]; safe. Qed.
#[local] Hint Resolve safe_AllBorrowed safe_consumed_in : safe.

Lemma safe_consumed_shards i groups out : wsafe (consumed_shards o i groups out).
Proof.
  revert i out. induction groups as [|[|k keys] groups IH]; intros i out;
    cbn [consumed_shards]; safe.
Qed.
#[local] Hint Resolve safe_consumed_shards : safe.

Lemma safe_gossipOnce : wsafe (gossipOnce serve o).
Proof.
  unfold gossipOnce, getBucketsConsumed, GetPeers, gossip_to.
  repeat (cbv zeta; first [apply safe_rpc; intros|safe_step]).
Qed.

Lemma safe_ticker_loop ticks body done :
  wsafe body → wsafe done → wsafe (ticker_loop o ticks body done).
Proof.
  intros Hb Hd. assert (Hw : wsafe (when_cancelled o done)).
  { unfold when_cancelled. safe. apply safe_await. intros s x s' Hs.
    destruct (lget _ s); [|done]. by intros [= _ <-]. }
  induction ticks as [|ticks IH]; cbn [ticker_loop]; [done|]. safe; done.
Qed.

Lemma safe_evictable policy key p nowMs : wsafe (evictable (R:=R) policy key p nowMs).
Proof. unfold evictable. safe. Qed.
#[local] Hint Resolve safe_evictable : safe.
Lemma safe_scan_evictable policy entries nowMs :
  wsafe (scan_evictable (R:=R) policy entries nowMs).
Proof. induction entries as [|[k p] entries IH]; cbn [scan_evictable]; safe. Qed.
Lemma safe_evict_locked policy i keys nowMs : wsafe (evict_locked o policy i keys nowMs).
Proof. induction keys as [|k keys IH]; cbn [evict_locked]; safe. Qed.
#[local] Hint Resolve safe_scan_evictable safe_evict_locked : safe.
Lemma safe_evict_shards policy idxs nowMs : wsafe (evict_shards o policy idxs nowMs).
Proof.
  induction idxs as [|i idxs IH]; cbn [evict_shards]; [safe|]. unfold evict_shard. safe.
Qed.
#[local] Hint Resolve safe_evict_shards : safe.

Lemma safe_evictInactiveKeys policy nowMs : wsafe (evictInactiveKeys o policy nowMs).
Proof.
  destruct router_ok as (r & Hr & Hsafe). unfold evictInactiveKeys. rewrite Hr.
  destruct (r_EvictKeys r) as [f|] eqn:Hf; [pose proof (sr_EvictKeys r Hsafe f) as Hev|];
    safe; by apply bm_EvictKeys_wf.
Qed.

Lemma safe_peer_removed id : wsafe (peer_removed o id).
Proof.
  destruct router_ok as (r & Hr & Hsafe). unfold peer_removed. rewrite Hr.
  destruct (r_RemovePeer r) as [f|] eqn:Hf; [pose proof (sr_RemovePeer r Hsafe f) as Hrm|];
    safe.
Qed.
#[local] Hint Resolve safe_evictInactiveKeys safe_peer_removed : safe.

(** ** The life of an instance *)

Section lifecycle.
Context `{GrpcDial} `{NetListen}.

Lemma safe_Register m info : wsafe (Register (R:=R) redis_lens m info).
Proof. unfold Register. safe. Qed.
Lemma safe_Discover m : wsafe (Discover (R:=R) redis_lens m).
Proof. unfold Discover. safe. Qed.
#[local] Hint Resolve safe_Register safe_Discover : safe.

Lemma safe_mesh_refresh : wsafe (mesh_refresh o).
Proof.
  unfold mesh_refresh, refresh, drop_if_gone, join_one. safe.
  - by apply drop_peer_accounted.
  - by apply join_peer_accounted.
Qed.

Lemma safe_hb_loop id m info ticks :
  wsafe (hb_loop (R:=R) redis_lens (heartbeat_lens id) m info None ticks).
Proof.
  assert (Hs : wsafe (hb_stopped (S:=W) (heartbeat_lens id))).
  { unfold hb_stopped, close_done. safe. apply safe_await. intros s x s' Hs.
    destruct (hb_stopCh _); [|done]. by intros [= _ <-]. }
  induction ticks as [|ticks IH]; cbn [hb_loop]; [done|].
  unfold Refresh, hb_report. safe; done.
Qed.

Lemma safe_Close : wsafe (Close o).
Proof.
  assert (Hwait : ∀ (P : W → Prop) `{∀ s, Decision (P s)},
    wsafe (await (λ s, if decide (P s) then Some (tt, s) else None))).
  { intros P HP. apply safe_await. intros s x s' Hs. destruct (decide _); [|done].
    by intros [= _ <-]. }
  unfold Close, hb_Stop, Deregister, mesh_Stop, srv_Stop. safe.
  - apply safe_await. intros s x s' Hs. destruct (hb_doneCh _); [|done].
    by intros [= _ <-].
  - by apply close_conn_accounted.
Qed.

Lemma safe_gossipLoop ticks : wsafe (gossipLoop serve o ticks).
Proof.
  unfold gossipLoop. cbv zeta. safe_step.
  { apply safe_NewTicker. destruct (Z.ltb_spec (o_gossipInterval o) (100 * Millisecond)); [done|].
    unfold Millisecond in *. lia. }
  apply safe_ticker_loop; [apply safe_gossipOnce|safe].
Qed.
Lemma safe_mesh_Start ticks : 0 < o_gossipInterval o → wsafe (mesh_Start o ticks).
Proof.
  intros Hgi. pose proof safe_mesh_refresh. unfold mesh_Start, mesh_loop. safe_step; [safe|].
  do 2 safe_step; [done|]. safe_step; [by apply safe_NewTicker|].
  apply safe_ticker_loop; [done|safe].
Qed.
Lemma safe_janitor_loop policy ticks : wsafe (janitor_loop o policy ticks).
Proof. apply safe_ticker_loop; safe. Qed.
#[local] Hint Resolve safe_gossipLoop safe_mesh_Start safe_janitor_loop safe_hb_loop : safe.

Lemma safe_newLimiter ticks ema :
  0 < o_gossipInterval o → 0 < o_heartbeatInterval o → wsafe (newLimiter serve o ticks ema).
Proof.
  intros Hgi Hhi. unfold newLimiter, srv_Start, srv_Addr, srv_Serve, hb_Start, hb_report,
    janitor_Start. safe_step.
  { apply safe_atomically. intros s Hs. apply well_formed_put; [done|].
    apply initial_limiter_ok. }
  repeat (cbv zeta; lazymatch goal with
    | |- wsafe (NewTicker _) => apply safe_NewTicker; unfold NewJanitor_interval;
        first [done|case_match; [done|lia]]
    | _ => safe_step end).
  apply safe_await. intros s x s' Hs. destruct (ln_stopped _); [|done].
  by intros [= _ <-].
Qed.
End lifecycle.
End allow.

(** ** The routers of the library *)

Lemma Default_safe : safe_router NewDefaultRouter.
Proof. by split. Qed.

Lemma EMA_safe id : safe_router (NewEMARouter id).
Proof.
  split; cbn [NewEMARouter EMA_router Decide r_RemovePeer r_EvictKeys].
  - intros rc. unfold EMA_Decide.
    assert (Hk : ∀ ids : list string, 0 <= (if 5 <? Z.of_nat (length ids) + 1 then 3 else 2))
      by (intros ids; by destruct (_ <? _)).
    safe.
  - intros f id' [= <-]. unfold EMA_RemovePeer. safe.
  - intros f ks [= <-]. unfold EMA_EvictKeys. safe.
Qed.
End well_formed.

(** ** Clusters *)

(** What [New] should check of the options: without it, the first request
    that goes to the router, to a window reset or to the peers panics, or the
    goroutine of the mesh or of the heartbeat does. *)
Record options_sound {R} (o : options (world R)) : Prop := {
  os_router : ∃ r, o_router o = Some r ∧ safe_router r;
  os_window : Milliseconds (o_window o) ≠ 0;
  os_probeK : 0 <= o_probeK o;
  os_gossip : 0 < o_gossipInterval o;
  os_heartbeat : 0 < o_heartbeatInterval o;
}.

Section cluster.
Context {R : Type} `{RedisStore R} `{FloatConv} `{GrpcDial} `{NetListen}.
Context (cluster : list (options (world R))) (net : string → option (options (world R))).
Context (cluster_ok : Forall options_sound cluster).

Lemma entry_safe p : entry cluster net p → safe well_formed grows p.
Proof.
  assert (Hs : ∀ addr srv, serve net addr = Some srv → ∃ o, srv = token_server o).
  { unfold serve. intros addr srv. destruct (net addr) as [o|]; [|done].
    intros [= <-]. eauto. }
  rewrite Forall_forall in cluster_ok. destruct 1 as [o fuel key n Ho Hn|o ticks ema Ho|o Ho
    |o req Ho|o origin cs bs Ho]; try destruct (cluster_ok o Ho) as [Hr Hw Hk Hgi Hhi].
  - unfold client. safe_step; [by apply safe_AllowN|]. safe.
    apply safe_atomically. intros s Hwf. apply well_formed_same; [done| |done].
    split; [done|reflexivity|]. exists [(key, n)]. split; [done|].
    constructor; [apply Hn|constructor].
  - safe_step; [by apply safe_newLimiter|safe].
  - safe_step; [by apply safe_Close|safe].
  - safe_step; [by apply safe_TransferTokens|safe].
  - safe_step; [by apply safe_Gossip|safe].
Qed.

Lemma drift_safe (s1 s2 : world R) :
  well_formed s1 → redis_drift s1 s2 → well_formed s2 ∧ grows s1 s2.
Proof. intros Hs (r & -> & _). by apply well_formed_redis. Qed.

Lemma fresh_well_formed (s : world R) : fresh s → well_formed s.
Proof.
  intros (_ & _ & Hi & _) id. cbn. rewrite Hi, lookup_empty. apply initial_limiter_ok.
Qed.

(** C5: in every state a cluster reaches, under every interleaving of
    requests, calls between instances, background loops, starts, stops and
    restarts, whatever fails, each instance is well-formed (its tables have
    their shards, every key is in its shard and has a bucket that exists, the
    loans and the gossip tables are in shape, every open connection is
    accounted for) and no goroutine panics. *)
Theorem cluster_well_formed s0 ts s :
  fresh s0 → rtc (pool_step (entry cluster net) redis_drift) ([], s0) (ts, s) →
  well_formed s ∧ ∀ msg, Panic msg ∉ ts.
Proof.
  intros Hf Hrun.
  assert (Hok : conf_safe well_formed grows (ts, s)).
  { eapply (pool_stays_safe well_formed grows); [apply entry_safe| | |exact Hrun].
    - apply drift_safe.
    - split; [by apply fresh_well_formed|constructor]. }
  split; [apply Hok|]. intros msg. by apply (conf_safe_no_panic _ _ _ msg Hok).
Qed.
End cluster.

Lemma demo_sound : options_sound demo.
Proof.
  split; [|vm_compute; discriminate|vm_compute; discriminate|vm_compute; reflexivity..].
  exists NewDefaultRouter. split; [reflexivity|apply Default_safe].
Qed.

Lemma cluster_well_formed_witness :
  ∃ (ts : list (go (world mem_redis) unit)) (s : world mem_redis),
    admitted "k" s = 5 ∧ well_formed s ∧
    ∀ msg, Panic msg ∉ ts.
Proof.
  destruct demo_run as (ts & s & Hr & Hs). destruct demo_fresh as (Hf & _ & _).
  exists ts, s. split; [congruence|].
  apply (@cluster_well_formed _ _ _ always_dials
    {| Listen_err _ := None; Listen_addr a := a |} [demo] demo_net
    ltac:(constructor; [exact demo_sound|constructor]) demo_start ts s Hf).
  eapply rtc_subrel; [|exact Hr]. intros x y Hxy. apply Hxy.
Defined.

(** The conditions are needed: [New] accepts these options, and the code
    reached panics. *)
Example zero_interval_panics (env : environment) e (s : world mem_redis) :
  env _ QTransport 0%nat = TNotRun e →
  exec env 0 (mesh_loop (H1:=always_dials) (WithGossipInterval 0 demo) 0) s
    = Panicked "non-positive interval for NewTicker".
Proof. intros E. cbn. rewrite E. reflexivity. Qed.
Example nil_router_panics (env : environment) (s : world mem_redis) :
  exec env 0 (allow_loop (serve demo_net) (WithRouter None demo) 1 "k" 0 1 false false) s
    = Panicked "invalid memory address or nil pointer dereference".
Proof. done. Qed.

Example short_window_panics (env : environment) (s : world mem_redis) :
  exec env 0 (reset_locked (WithWindow 999999 demo) "k" 0 0) s
    = Panicked "integer divide by zero".
Proof. done. Qed.
