(* ===== verification/Locks.v ===== *)
(** * Locks: every lock and wait group of an instance does its work

    For each mutex of a bucket, each side of the read-write lock of a shard
    and the mutex of the mesh: only the goroutine that took it gives it back,
    no two hold it together unless both read, what it protects changes only
    while it is held, and a goroutine that has returned holds nothing.  No
    goroutine waits for anything while it holds one of them, and none panics, so
    whoever holds a mutex gives it back.  A wait group is counted the same way:
    [Add] takes, the goroutine started next is handed what was taken, [Done]
    gives it back; that goroutine waits for nothing but mutexes and the end of
    its instance. *)

From S2P Require Export Owns WellFormed.

Inductive lock :=
| BucketMu (key : string) (p : nat)     (* [bucket.mu] *)
| ShardW (id : string) (i : nat)        (* [bucketShard.mu], for writing *)
| ShardR (id : string) (i : nat)        (* for reading *)
| MeshMu (id : string)                  (* [Mesh.mu], for writing *)
| WG (id : string)                      (* [limiter.wg] *)
| MeshWG (id : string).                 (* [Mesh.wg] *)

#[export] Instance lock_eq_dec : EqDecision lock.
Proof. solve_decision. Defined.

Section locks.
Context {R : Type} `{RedisStore R} `{FloatConv}.
Abbreviation W := (world R).

Definition shards_of (id : string) (s : W) : list bucketShard := lget (inst id f_shards) s.
Definition mesh_of (id : string) (s : W) : Mesh := lget (mesh_lens id) s.
Definition wg_of (id : string) (s : W) : nat := lget (inst id f_wg) s.
Definition mesh_wg_of (id : string) (s : W) : nat := lget (inst id f_mesh_wg) s.

(** How often it is held. *)
Definition held (l : lock) (s : W) : Z :=
  match l with
  | BucketMu key p =>
      match heap_of key s !! p with Some b => Z.b2z (b_mu b) | None => 0 end
  | ShardW id i =>
      match shards_of id s !! i with Some sh => Z.b2z (rw_writer (sh_mu sh)) | None => 0 end
  | ShardR id i =>
      match shards_of id s !! i with
      | Some sh => Z.of_nat (rw_readers (sh_mu sh)) | None => 0 end
  | MeshMu id => Z.b2z (mesh_mu (mesh_of id s))
  | WG id => Z.of_nat (wg_of id s)
  | MeshWG id => Z.of_nat (mesh_wg_of id s)
  end.

(** Many may hold it at once. *)
Definition shared (l : lock) : Prop :=
  match l with ShardR _ _ | WG _ | MeshWG _ => True | _ => False end.
(** Nobody is to wait while holding it. *)
Definition mutex (l : lock) : bool :=
  match l with WG _ | MeshWG _ => false | _ => true end.
#[export] Instance shared_dec l : Decision (shared l).
Proof. destruct l; apply _. Defined.

(** What it protects is the same: the window of a bucket, the map of a shard,
    the peers and connections of a mesh. *)
Definition same_data (l : lock) (s s' : W) : Prop :=
  match l with
  | BucketMu key p => ∀ b, heap_of key s !! p = Some b →
      ∃ b', heap_of key s' !! p = Some b' ∧ b_window b' = b_window b
  | ShardW id i => buckets <$> shards_of id s' !! i = buckets <$> shards_of id s !! i
  | ShardR _ _ | WG _ | MeshWG _ => True
  | MeshMu id =>
      peers (mesh_of id s') = peers (mesh_of id s) ∧
      conns (mesh_of id s') = conns (mesh_of id s) ∧
      open_conns (mesh_of id s') = open_conns (mesh_of id s)
  end.

(** A shard that is written is not read. *)
Definition no_readers (s : W) : Prop :=
  ∀ id i sh, shards_of id s !! i = Some sh → rw_writer (sh_mu sh) = true →
    rw_readers (sh_mu sh) = 0%nat.

Lemma same_data_refl l s : same_data l s s.
Proof. destruct l; cbn; eauto. Qed.

(** No mutex is held. *)
Definition free (s : W) : Prop := ∀ l, mutex l = true → held l s = 0.

(** [limiter.cancel] was called. *)
Definition cancelled (id : string) (s : W) : Prop := lget (inst id f_cancelled) s = true.

(** When the goroutines a wait group counts can go on. *)
Definition calm (l : lock) (s : W) : Prop :=
  free s ∧ match l with WG id | MeshWG id => cancelled id s | _ => True end.

(** Instances stay cancelled; but one that is started anew, which for mutexes
    of buckets is allowed, is not. *)
Definition stays (l : lock) (s s' : W) : Prop :=
  match l with
  | BucketMu _ _ => True | _ => ∀ id, cancelled id s → cancelled id s'
  end.

(** What a goroutine that holds it [c] times keeps. *)
Definition kept (l : lock) (c : Z) (s s' : W) : Prop :=
  (c = 0 → same_data l s s') ∧ stays l s s'.

Lemma stays_all l (s s' : W) : (∀ id, cancelled id s → cancelled id s') → stays l s s'.
Proof. by destruct l. Qed.
Lemma kept_refl l c s : kept l c s s.
Proof. split; [intros _; apply same_data_refl|by apply stays_all]. Qed.

Context (l : lock).
Abbreviation owns :=
  (owns well_formed grows no_readers (held l) (kept l) (mutex l) (calm l)).
Abbreviation allowed := (allowed (mutex l)).
(** [w]: for whom the code is; [F]: what it starts from. *)
Abbreviation balF F w :=
  (balanced well_formed grows no_readers (held l) (kept l) (mutex l) (calm l) F w).
Abbreviation bal w := (balF (λ _, True) w).
Abbreviation unl := (unlocking no_readers (held l) (kept l)).

Lemma unl_intro (s s' : W) :
  held l s' = held l s → same_data l s s' → stays l s s' →
  (no_readers s → no_readers s') → unl s s'.
Proof. by repeat split. Qed.

#[export] Instance Stable_allocated key p : Stable grows (allocated (R:=R) key p).
Proof. intros s s'. by apply allocated_grows. Qed.

Lemma mono_owns {A} (p : go W A) c s (Q Q' : A → Z → W → Prop) :
  (∀ a c' s', grows s s' → Q a c' s' → Q' a c' s') → owns p c s Q → owns p c s Q'.
Proof. apply (owns_mono well_formed grows). Qed.
Lemma seq_owns {A B} (p : go W A) (k : A → go W B) c s Q :
  owns p c s (λ a c' s', owns (k a) c' s' Q) → owns (bind p k) c s Q.
Proof. apply (owns_bind well_formed grows). Qed.
Lemma bal_bind F `{!Stable grows F} w {A B} (p : go W A) (q : A → go W B) :
  balF F w p → (∀ a, balF F w (q a)) → balF F w (bind p q).
Proof. by apply (balanced_bind well_formed grows). Qed.

(** Code that may change what lock [k] protects: it runs while [k] is held,
    and does not wait if that is a mutex.  [under_at] is for code that relies
    on what is known of the state it starts in. *)
Definition under_at (w : patience) (k : lock) (s : W) {A} (p : go W A) : Prop :=
  ∀ c, 0 <= c → (l = k → 0 < c) → (l ≠ k → allowed w c) →
    owns p c s (λ _ c' _, c' = c).
Definition under (w : patience) (k : lock) {A} (p : go W A) : Prop :=
  ∀ s, under_at w k s p.

Lemma bal_under_at F w k s {A} (p : go W A) : balF F Prompt p → F s → under_at w k s p.
Proof. intros Hp HF c Hc _ _. by apply Hp. Qed.
Lemma bal_under w k {A} (p : go W A) : bal Prompt p → under w k p.
Proof. intros Hp s. by eapply bal_under_at. Qed.
(** Whoever waits for a group of goroutines lets them wait for mutexes. *)
Lemma wg_under w k {A} (p : go W A) :
  mutex k = false → w ≠ Prompt → bal Locking p → under w k p.
Proof.
  intros Hk Hw Hp s c Hc Hl Hc0. apply Hp; [done..|]. intros Hm.
  assert (l ≠ k) as E by (by intros ->; rewrite Hk in Hm).
  specialize (Hc0 E). destruct w; [done|by apply Hc0|done].
Qed.
Lemma under_at_bind w k s {A B} (p : go W A) (q : A → go W B) :
  under_at w k s p → (∀ a s', grows s s' → under_at w k s' (q a)) →
  under_at w k s (bind p q).
Proof.
  intros Hp Hq c Hc Hk Hl. apply seq_owns. eapply mono_owns; [|by apply Hp].
  intros a c' s' Hg ->. by apply Hq.
Qed.
Lemma under_bind w k {A B} (p : go W A) (q : A → go W B) :
  under w k p → (∀ a, under w k (q a)) → under w k (bind p q).
Proof. intros Hp Hq s. apply under_at_bind; [apply Hp|]. intros a s' _. apply Hq. Qed.
Lemma under_for_each w k {A} (f : A → go W unit) xs :
  (∀ x, under w k (f x)) → under w k (for_each f xs).
Proof.
  intros Hf. induction xs as [|x xs IH]; [by apply bal_under, balanced_ret|].
  by apply under_bind.
Qed.

Definition once (k : lock) : Z := if decide (l = k) then 1 else 0.
Lemma once_nonneg k : 0 <= once k.
Proof. unfold once. case_decide; lia. Qed.

(** Lock, region, unlock. *)
Definition takes (w : patience) (k : lock) (p : go W unit) : Prop :=
  ∀ c s, 0 <= c → allowed w c → owns p c s (λ _ c' _, c' = c + once k).
Definition gives_at (w : patience) (k : lock) (s : W) {A} (p : go W A) : Prop :=
  ∀ c, 0 <= c → allowed w c → owns p (c + once k) s (λ _ c' _, c' = c).
Definition gives (w : patience) (k : lock) {A} (p : go W A) : Prop :=
  ∀ s, gives_at w k s p.

Lemma bal_lock w k {B} (lo : go W unit) (p : go W B) :
  takes w k lo → gives w k p → bal w (lo ;;; p).
Proof.
  intros Hl Hp c s _ Hc Hw. apply seq_owns. eapply mono_owns; [|by apply Hl; auto].
  intros _ c' s' _ ->. by apply Hp.
Qed.
Lemma once_under w k c :
  0 <= c → allowed w c → 0 <= c + once k ∧ (l = k → 0 < c + once k) ∧
  (l ≠ k → allowed w (c + once k)).
Proof.
  intros Hc Hl. unfold once. case_decide as E; [repeat split; [lia|lia|done]|].
  split; [lia|]. split; [done|]. intros _. by rewrite Z.add_0_r.
Qed.
Lemma gives_at_under w k s {A B} (p : go W A) (q : A → go W B) :
  under_at w k s p → (∀ a s', grows s s' → gives_at w k s' (q a)) →
  gives_at w k s (bind p q).
Proof.
  intros Hp Hq c Hc Hl. apply seq_owns.
  destruct (once_under w k c Hc Hl) as (H1' & H2' & H3').
  eapply mono_owns; [|by apply Hp]. intros a c' s' Hg ->. by apply Hq.
Qed.
Lemma gives_under w k {A B} (p : go W A) (q : A → go W B) :
  under w k p → (∀ a, gives w k (q a)) → gives w k (bind p q).
Proof. intros Hp Hq s. apply gives_at_under; [apply Hp|]. intros a s' _. apply Hq. Qed.
(** [Add], and a goroutine started that calls [Done]. *)
Lemma bal_started_then F `{!Stable grows F} w k (lo : go W unit) t {B} (q : go W B) :
  mutex k = false → takes w k lo → (∀ s, F s → gives_at w k s t) → balF F w q →
  balF F w (lo ;;; fork t ;;; q).
Proof.
  intros Hk Hl Ht Hq c s HF Hc Hc0. apply seq_owns. eapply mono_owns; [|by apply Hl; auto].
  intros _ c' s' Hg ->. assert (F s') as HF' by by eapply stable.
  apply seq_owns, (owns_fork _ _ _ _ _ _ _ t (once k)).
  - unfold once. case_decide; lia.
  - unfold once. case_decide as E; [|done]. rewrite E, Hk. done.
  - by apply (Ht s' HF' 0); [|apply allowed_0].
  - intros s2 Hg2. replace (c + once k - once k) with c by lia. apply Hq; [|done..].
    by eapply stable.
Qed.
Lemma bal_started F `{!Stable grows F} w k (lo : go W unit) t :
  mutex k = false → takes w k lo → (∀ s, F s → gives_at w k s t) →
  balF F w (lo ;;; fork t).
Proof.
  intros Hk Hl Ht. apply (bal_started_then F w k lo t (Ret tt)); [done..|].
  apply balanced_ret.
Qed.
Lemma gives_then w k {A B} (p : go W A) (q : A → go W B) :
  gives w k p → (∀ a, bal w (q a)) → gives w k (bind p q).
Proof.
  intros Hp Hq s c Hc Hl. apply seq_owns. eapply mono_owns; [|by apply Hp].
  intros a c' s' _ ->. by apply Hq.
Qed.

(** What an action does that takes or gives back [k]. *)
Definition moves (k : lock) (d : Z) (s s' : W) : Prop :=
  held l s' = held l s + d ∧ same_data l s s' ∧ stays l s s' ∧
  (no_readers s → no_readers s').

Lemma takes_await w k (f : W → option (unit * W)) :
  w ≠ Prompt → (∀ s x s', f s = Some (x, s') → moves k (once k) s s') →
  (w = Locking → ∀ s, well_formed s → free s → is_Some (f s)) →
  takes w k (await f).
Proof.
  intros Hw Hf Hsome c s Hc Hl s1 _ HJ Hi _. split.
  - intros [E|(E & _ & Hfree & _)]%(allowed_not_must _ _ _ _ _ Hl); [done|by apply Hsome].
  - intros x s2 E. destruct (Hf s1 x s2 E) as (-> & HD & Hst & Hi').
    split; [auto|]. split; [done|]. pose proof (once_nonneg k). split; [lia|]. cbn. lia.
Qed.
Lemma gives_await w k (f : W → option (unit * W)) :
  (∀ s, well_formed s → (l ≠ k → w ≠ Waiting) → (l = k → 1 <= held l s) → is_Some (f s)) →
  (∀ s x s', (l = k → 1 <= held l s) → f s = Some (x, s') → moves k (- once k) s s') →
  gives w k (await f).
Proof.
  intros Hsome Hf s c Hc Hl s1 _ HJ Hi Hh.
  assert (Hk : l = k → 1 <= held l s1).
  { intros Hk. unfold once in Hh. rewrite decide_True in Hh by done. lia. }
  split.
  - intros Hm. apply Hsome; [done| |done]. intros E ->. cbn in Hl. unfold once in Hm.
    rewrite decide_False in Hm by done. destruct Hm. lia.
  - intros x s2 E. destruct (Hf s1 x s2) as (-> & HD & Hst & Hi'); [done..|].
    replace (c + once k + (held l s1 + - once k - held l s1)) with c by lia.
    by repeat split; auto.
Qed.
Lemma under_at_await w k s {X} (f : W → option (X * W)) :
  (∀ s1, grows s s1 → well_formed s1 → (l ≠ k → w ≠ Waiting) →
     (l = k → 1 <= held l s1) → is_Some (f s1)) →
  (∀ s x s', f s = Some (x, s') →
     held l s' = held l s ∧ (no_readers s → no_readers s') ∧ stays l s s' ∧
     (l ≠ k → same_data l s s')) →
  under_at w k s (await f).
Proof.
  intros Hsome Hf c Hc Hk Hl s1 Hg HJ Hi Hh. split.
  - intros [Hm _]. apply Hsome; [done..| |intros E; specialize (Hk E); lia].
    intros E ->. specialize (Hl E). cbn in Hl. lia.
  - intros x s2 E. destruct (Hf s1 x s2 E) as (-> & Hi' & Hst & HD).
    rewrite Z.sub_diag, Z.add_0_r. split; [auto|]. split; [|by repeat split; auto].
    split; [|done]. intros Hc0. apply HD. intros E1. specialize (Hk E1). lia.
Qed.

(** ** The world, field by field *)

Lemma unlocking_same (s s' : W) :
  w_heap s' = w_heap s → w_insts s' = w_insts s → unl s s'.
Proof.
  intros Eh Ei. assert (Hs : ∀ id, shards_of id s' = shards_of id s)
    by (intros id; unfold shards_of; cbn; by rewrite Ei).
  assert (Hm : ∀ id, mesh_of id s' = mesh_of id s)
    by (intros id; unfold mesh_of; cbn; by rewrite Ei).
  assert (Hh : ∀ key, heap_of key s' = heap_of key s)
    by (intros key; unfold heap_of; by rewrite Eh).
  assert (Hw : ∀ id, wg_of id s' = wg_of id s)
    by (intros id; unfold wg_of; cbn; by rewrite Ei).
  assert (Hmw : ∀ id, mesh_wg_of id s' = mesh_wg_of id s)
    by (intros id; unfold mesh_wg_of; cbn; by rewrite Ei).
  apply unl_intro.
  - destruct l; cbn [held]; by rewrite ?Hs, ?Hm, ?Hh, ?Hw, ?Hmw.
  - destruct l; cbn [same_data]; rewrite ?Hs, ?Hm, ?Hh; eauto.
  - apply stays_all. intros id. unfold cancelled. cbn. by rewrite Ei.
  - intros Hn id i sh. rewrite Hs. apply Hn.
Qed.

#[export] Instance LockLens_redis :
  LockLens no_readers (held l) (kept l) (redis_lens (R:=R)) (λ _ _, True).
Proof. intros s t _. by apply unlocking_same. Qed.
#[export] Instance LockLens_chans :
  LockLens no_readers (held l) (kept l) (chans_lens (R:=R)) (λ _ _, True).
Proof. intros s t _. by apply unlocking_same. Qed.

(** A field of an instance without locks. *)
Class NoLock {T} (f : lens limiter T) : Prop :=
  no_lock t lim :
    l_shards (lput f t lim) = l_shards lim ∧ l_mesh (lput f t lim) = l_mesh lim ∧
    l_wg (lput f t lim) = l_wg lim ∧ l_mesh_wg (lput f t lim) = l_mesh_wg lim ∧
    l_cancelled (lput f t lim) = l_cancelled lim.

#[export] Instance NoLock_metrics : NoLock f_metrics. Proof. done. Qed.
#[export] Instance NoLock_mgr : NoLock f_mgr. Proof. done. Qed.
#[export] Instance NoLock_gossip : NoLock f_gossip. Proof. done. Qed.
#[export] Instance NoLock_router : NoLock f_router. Proof. done. Qed.
#[export] Instance NoLock_heartbeat : NoLock f_heartbeat. Proof. done. Qed.
#[export] Instance NoLock_peerStates : NoLock f_peerStates. Proof. done. Qed.
#[export] Instance NoLock_closed : NoLock f_closed. Proof. done. Qed.
#[export] Instance NoLock_server : NoLock f_server. Proof. done. Qed.

Lemma inst_put id id' lim (s : W) :
  shards_of id' (lput (inst_lens id) lim s)
    = (if decide (id' = id) then l_shards lim else shards_of id' s) ∧
  mesh_of id' (lput (inst_lens id) lim s)
    = (if decide (id' = id) then l_mesh lim else mesh_of id' s).
Proof.
  unfold shards_of, mesh_of. cbn. destruct (decide (id' = id)) as [->|Hne].
  - by rewrite lookup_insert_eq.
  - by rewrite lookup_insert_ne.
Qed.

Lemma inst_put_wg id id' lim (s : W) :
  wg_of id' (lput (inst_lens id) lim s)
    = (if decide (id' = id) then l_wg lim else wg_of id' s) ∧
  mesh_wg_of id' (lput (inst_lens id) lim s)
    = (if decide (id' = id) then l_mesh_wg lim else mesh_wg_of id' s).
Proof.
  unfold wg_of, mesh_wg_of. cbn. destruct (decide (id' = id)) as [->|Hne].
  - by rewrite lookup_insert_eq.
  - by rewrite lookup_insert_ne.
Qed.

Lemma cancelled_put id id' lim (s : W) :
  (cancelled id s → l_cancelled lim = true) →
  cancelled id' s → cancelled id' (lput (inst_lens id) lim s).
Proof.
  unfold cancelled, inst. cbn [lget lens_compose f_cancelled]. cbn.
  intros Hlim. destruct (decide (id' = id)) as [->|Hne]; [by rewrite lookup_insert_eq|].
  by rewrite lookup_insert_ne.
Qed.

Lemma unlocking_inst id lim (s : W) :
  l_shards lim = shards_of id s → l_mesh lim = mesh_of id s →
  l_wg lim = wg_of id s → l_mesh_wg lim = mesh_wg_of id s →
  (cancelled id s → l_cancelled lim = true) →
  unl s (lput (inst_lens id) lim s).
Proof.
  intros Es Em Ew Emw Ec.
  assert (Hw : ∀ id', wg_of id' (lput (inst_lens id) lim s) = wg_of id' s)
    by (intros id'; rewrite (proj1 (inst_put_wg _ _ _ _)); case_decide; by subst).
  assert (Hmw : ∀ id', mesh_wg_of id' (lput (inst_lens id) lim s) = mesh_wg_of id' s)
    by (intros id'; rewrite (proj2 (inst_put_wg _ _ _ _)); case_decide; by subst).
  assert (Hs : ∀ id', shards_of id' (lput (inst_lens id) lim s) = shards_of id' s)
    by (intros id'; rewrite (proj1 (inst_put _ _ _ _)); case_decide; by subst).
  assert (Hm : ∀ id', mesh_of id' (lput (inst_lens id) lim s) = mesh_of id' s)
    by (intros id'; rewrite (proj2 (inst_put _ _ _ _)); case_decide; by subst).
  apply unl_intro.
  - destruct l; cbn [held]; by rewrite ?Hs, ?Hm, ?Hw, ?Hmw.
  - destruct l; cbn [same_data]; rewrite ?Hs, ?Hm; eauto.
  - apply stays_all. intros id'. by apply cancelled_put.
  - intros Hn id' i sh. rewrite Hs. apply Hn.
Qed.

#[export] Instance LockLens_inst {T} id (f : lens limiter T) `{!NoLock f} :
  LockLens no_readers (held l) (kept l) (inst id f) (λ _ _, True).
Proof.
  intros s t _. destruct (no_lock (f:=f) t (lget (inst_lens id) s)) as (E1 & E2 & E3 & E4 & E5).
  apply unlocking_inst; [done..|]. by rewrite E5.
Qed.
#[export] Instance LockLens_cancelled id :
  LockLens no_readers (held l) (kept l) (inst id f_cancelled) (λ c c', c = true → c' = true).
Proof. intros s t Ht. by apply unlocking_inst. Qed.
#[export] Instance LockLens_gossip_shards id :
  LockLens no_readers (held l) (kept l)
    (lens_compose (gossip_lens (R:=R) id) shards_lens) (λ _ _, True).
Proof. intros s t _. by apply unlocking_inst. Qed.
#[export] Instance LockLens_router_shards id :
  LockLens no_readers (held l) (kept l)
    (lens_compose (router_lens (R:=R) id) rshards_lens) (λ _ _, True).
Proof. intros s t _. by apply unlocking_inst. Qed.

(** ** Shards *)

Definition set_shard (id : string) (i : nat) (sh' : bucketShard) (s : W) : W :=
  lput (inst id f_shards) (<[i:=sh']> (shards_of id s)) s.

Lemma set_shard_lookup id i sh sh' (s : W) id' i' :
  shards_of id s !! i = Some sh →
  shards_of id' (set_shard id i sh' s) !! i'
    = if decide ((id', i') = (id, i)) then Some sh' else shards_of id' s !! i'.
Proof.
  intros Hi. unfold set_shard. cbn [lput inst lens_compose].
  rewrite (proj1 (inst_put _ _ _ _)). destruct (decide (id' = id)) as [->|Hne].
  - cbn [l_shards lput f_shards]. destruct (decide (i' = i)) as [->|Hi'].
    + rewrite decide_True by done. apply list_lookup_insert_eq. by eapply lookup_lt_Some.
    + rewrite decide_False by congruence. by rewrite list_lookup_insert_ne.
  - by rewrite decide_False by congruence.
Qed.

Lemma set_shard_mesh id i sh' (s : W) id' : mesh_of id' (set_shard id i sh' s) = mesh_of id' s.
Proof.
  unfold set_shard. cbn [lput inst lens_compose]. rewrite (proj2 (inst_put _ _ _ _)).
  by case_decide as E; [rewrite E|].
Qed.
Lemma set_shard_wg id i sh' (s : W) id' :
  wg_of id' (set_shard id i sh' s) = wg_of id' s ∧
  mesh_wg_of id' (set_shard id i sh' s) = mesh_wg_of id' s.
Proof.
  unfold set_shard. cbn [lput inst lens_compose].
  rewrite (proj1 (inst_put_wg _ _ _ _)), (proj2 (inst_put_wg _ _ _ _)).
  by case_decide as E; [rewrite E|].
Qed.

(** What replacing a shard does to the locks and to what they protect. *)
Lemma set_shard_held id i sh sh' (s : W) :
  shards_of id s !! i = Some sh →
  held l (set_shard id i sh' s) = held l s
    + (if decide (l = ShardW id i)
       then Z.b2z (rw_writer (sh_mu sh')) - Z.b2z (rw_writer (sh_mu sh)) else 0)
    + (if decide (l = ShardR id i)
       then Z.of_nat (rw_readers (sh_mu sh')) - Z.of_nat (rw_readers (sh_mu sh)) else 0).
Proof.
  intros Hi. destruct l as [key p|id' i'|id' i'|id'|id'|id']; cbn [held].
  - rewrite !decide_False by done. change (heap_of key (set_shard id i sh' s)) with (heap_of key s).
    lia.
  - rewrite (decide_False (P:=ShardW id' i' = ShardR id i)) by done.
    rewrite (set_shard_lookup id i sh) by done.
    destruct (decide ((id', i') = (id, i))) as [[= -> ->]|Hne].
    + rewrite decide_True by done. rewrite Hi. lia.
    + rewrite decide_False by congruence. lia.
  - rewrite (decide_False (P:=ShardR id' i' = ShardW id i)) by done.
    rewrite (set_shard_lookup id i sh) by done.
    destruct (decide ((id', i') = (id, i))) as [[= -> ->]|Hne].
    + rewrite decide_True by done. rewrite Hi. lia.
    + rewrite decide_False by congruence. lia.
  - rewrite !decide_False by done. rewrite set_shard_mesh. lia.
  - rewrite !decide_False by done. rewrite (proj1 (set_shard_wg id i sh' s id')). lia.
  - rewrite !decide_False by done. rewrite (proj2 (set_shard_wg id i sh' s id')). lia.
Qed.

Lemma set_shard_data id i sh sh' (s : W) :
  shards_of id s !! i = Some sh → (l = ShardW id i → buckets sh' = buckets sh) →
  same_data l s (set_shard id i sh' s).
Proof.
  intros Hi Hb. destruct l as [key p|id' i'|id' i'|id'|id'|id']; cbn [same_data]; [| | | |done..].
  - intros b Hp. by exists b.
  - rewrite (set_shard_lookup id i sh) by done.
    destruct (decide ((id', i') = (id, i))) as [[= -> ->]|Hne]; [|done].
    rewrite Hi. cbn. by rewrite Hb.
  - done.
  - by rewrite set_shard_mesh.
Qed.

Lemma set_shard_readers id i sh sh' (s : W) :
  shards_of id s !! i = Some sh →
  ((rw_writer (sh_mu sh) = true → rw_readers (sh_mu sh) = 0%nat) →
   rw_writer (sh_mu sh') = true → rw_readers (sh_mu sh') = 0%nat) →
  no_readers s → no_readers (set_shard id i sh' s).
Proof.
  intros Hi Hsh Hn id' i' sh1. rewrite (set_shard_lookup id i sh) by done.
  destruct (decide ((id', i') = (id, i))) as [[= -> ->]|Hne]; [|apply Hn].
  intros [= <-]. apply Hsh. by apply (Hn id i).
Qed.

Lemma set_shard_stays id i sh' (s : W) : stays l s (set_shard id i sh' s).
Proof. apply stays_all. intros id'. by apply cancelled_put. Qed.

Lemma with_shard_inv {X} id i (f : bucketShard → option (X * bucketShard)) (s : W) x s' :
  (let l := inst id f_shards in
   match lget l s !! i with
   | Some sh => match f sh with
                | Some (x, sh') => Some (x, lput l (<[i:=sh']> (lget l s)) s)
                | None => None end
   | None => None end) = Some (x, s') →
  ∃ sh sh', shards_of id s !! i = Some sh ∧ f sh = Some (x, sh') ∧ s' = set_shard id i sh' s.
Proof.
  cbv zeta. unfold shards_of. destruct (lget _ s !! i) as [sh|] eqn:Hi; [|done].
  destruct (f sh) as [[y sh']|] eqn:E; [|done]. intros [= <- <-]. by exists sh, sh'.
Qed.

(** The rules for an action on one shard, under one of its locks. *)
Section with_shard.
Context (id : string) (i : nat) (Hi : (i < 64)%nat).

Lemma with_shard_some {X} (f : bucketShard → option (X * bucketShard)) s :
  well_formed s → (∀ sh, shards_of id s !! i = Some sh → is_Some (f sh)) →
  is_Some (let l := inst id f_shards in
    match lget l s !! i with
    | Some sh => match f sh with
                 | Some (x, sh') => Some (x, lput l (<[i:=sh']> (lget l s)) s)
                 | None => None end
    | None => None end).
Proof.
  intros Hwf Hf. cbv zeta. change (lget (inst id f_shards) s) with (shards_of id s).
  destruct (lookup_lt_is_Some_2 (shards_of id s) i) as [sh E].
  { change (i < length (l_shards (lget (inst_lens id) s)))%nat.
    by rewrite (lo_length s _ (Hwf id)). }
  rewrite E. destruct (Hf sh E) as [[x sh'] ->]. by eexists.
Qed.

Lemma under_with_shard {X} w k (f : bucketShard → option (X * bucketShard)) :
  (∀ sh, is_Some (f sh)) →
  (∀ s sh x sh', shards_of id s !! i = Some sh → f sh = Some (x, sh') →
     let s' := set_shard id i sh' s in
     held l s' = held l s ∧ (no_readers s → no_readers s') ∧ (l ≠ k → same_data l s s')) →
  under w k (with_shard id i f).
Proof.
  intros Hs Hf s. apply under_at_await; [intros; by apply with_shard_some|].
  intros s1 x s' (sh & sh' & Hsh & E & ->)%(with_shard_inv id i f).
  destruct (Hf s1 sh x sh' Hsh E) as (Eh & Hn & HD). repeat split; auto using set_shard_stays.
Qed.
Lemma takes_with_shard w k (f : bucketShard → option (unit * bucketShard)) :
  w ≠ Prompt → (∀ sh, sh_mu sh = mkMutex false 0 → is_Some (f sh)) →
  (∀ s sh x sh', shards_of id s !! i = Some sh → f sh = Some (x, sh') →
     let s' := set_shard id i sh' s in
     held l s' = held l s + once k ∧ same_data l s s' ∧ (no_readers s → no_readers s')) →
  takes w k (with_shard id i f).
Proof.
  intros Hw Hs Hf. apply takes_await; [done| |].
  - intros s x s' (sh & sh' & Hsh & E & ->)%(with_shard_inv id i f).
    destruct (Hf s sh x sh' Hsh E) as (Eh & HD & Hn). repeat split; auto using set_shard_stays.
  - intros _ s Hwf Hfree. apply with_shard_some; [done|]. intros sh Hsh. apply Hs.
    pose proof (Hfree (ShardW id i) eq_refl) as Hw'. pose proof (Hfree (ShardR id i) eq_refl) as Hr.
    cbn [held] in Hw', Hr. rewrite Hsh in Hw', Hr. destruct (sh_mu sh) as [[] n]; [done|].
    cbn in Hr. f_equal. lia.
Qed.
Lemma gives_with_shard w k (f : bucketShard → option (unit * bucketShard)) :
  (∀ sh, is_Some (f sh)) →
  (∀ s sh x sh', (l = k → 1 <= held l s) →
     shards_of id s !! i = Some sh → f sh = Some (x, sh') →
     let s' := set_shard id i sh' s in
     held l s' = held l s - once k ∧ same_data l s s' ∧ (no_readers s → no_readers s')) →
  gives w k (with_shard id i f).
Proof.
  intros Hs Hf. apply gives_await; [intros; by apply with_shard_some|].
  intros s x s' Hh (sh & sh' & Hsh & E & ->)%(with_shard_inv id i f).
  destruct (Hf s sh x sh' Hh Hsh E) as (Eh & HD & Hn). repeat split; auto using set_shard_stays.
Qed.

(** Reading the map of the shard: every bucket in it exists. *)
Definition known (s : W) (m : gmap string nat) : Prop :=
  map_Forall (λ key p, allocated key p s) m.

Lemma owns_get {X} (f : gmap string nat → X) c s Q :
  0 <= c → (∀ m s', grows s s' → known s' m → Q (f m) c s') → owns (shard_get id i f) c s Q.
Proof.
  intros Hc HQ s1 Hg HJ Hn Hh. split.
  { intros _. apply (with_shard_some (λ sh, Some (f (buckets sh), sh))); [done|by eexists]. }
  intros x s2 (sh & sh' & Hsh & [= <- <-] & ->)%(with_shard_inv id i
    (λ sh, Some (f (buckets sh), sh))).
  assert (Eh : held l (set_shard id i sh s1) = held l s1).
  { rewrite (set_shard_held id i sh) by done. repeat case_decide; lia. }
  rewrite Eh, Z.sub_diag, Z.add_0_r. split; [by apply (set_shard_readers id i sh)|].
  split; [split; [intros _; by apply (set_shard_data id i sh)|apply set_shard_stays]|].
  split; [done|]. intros _ Hg2 s' Hg'. apply HQ.
  { etransitivity; [exact Hg|]. by etransitivity. }
  intros key p Hkey. eapply allocated_grows; [etransitivity; [exact Hg2|exact Hg']|].
  by apply (lo_tables _ _ (HJ id) i sh key p).
Qed.

Lemma under_get {X B} w k (f : gmap string nat → X) (q : X → go W B) :
  (∀ m s, known s m → under_at w k s (q (f m))) → under w k (bind (shard_get id i f) q).
Proof.
  intros Hq s c Hc H1' H2'. apply seq_owns, owns_get; [done..|]. intros m s' _ Hm. by apply Hq.
Qed.
Lemma gives_get {X B} w k (f : gmap string nat → X) (q : X → go W B) :
  (∀ m s, known s m → gives_at w k s (q (f m))) → gives w k (bind (shard_get id i f) q).
Proof.
  intros Hq s c Hc Hl. pose proof (once_nonneg k).
  apply seq_owns, owns_get; [lia|]. intros m s' _ Hm. by apply Hq.
Qed.
Lemma under_shard_get {X} w k (f : gmap string nat → X) : under w k (shard_get id i f).
Proof. intros s c Hc _ Hl. by apply owns_get. Qed.

Lemma under_shard_set w f : under w (ShardW id i) (shard_set (R:=R) id i f).
Proof.
  apply under_with_shard; [by eexists|]. intros s sh x sh' Hsh [= _ <-].
  split; [|split].
  - rewrite (set_shard_held id i sh) by done. cbn. repeat case_decide; lia.
  - by apply (set_shard_readers id i sh).
  - intros Hne. by apply (set_shard_data id i sh).
Qed.

Lemma takes_shard_RLock w : w ≠ Prompt → takes w (ShardR id i) (shard_RLock id i).
Proof.
  intros Hw. apply takes_with_shard; [done|intros sh ->; by eexists|].
  intros s sh x sh' Hsh E.
  destruct (rw_writer (sh_mu sh)) eqn:Ew; [done|]. injection E as _ <-. split; [|split].
  - rewrite (set_shard_held id i sh) by done. unfold once. cbn. rewrite Ew. cbn [Z.b2z].
    repeat case_decide; try congruence; lia.
  - by apply (set_shard_data id i sh).
  - by apply (set_shard_readers id i sh).
Qed.
Lemma gives_shard_RUnlock w : gives w (ShardR id i) (shard_RUnlock id i).
Proof.
  apply gives_with_shard; [by eexists|]. intros s sh x sh' Hh Hsh [= _ <-].
  split; [|split].
  - rewrite (set_shard_held id i sh) by done. unfold once. cbn.
    destruct (decide (l = ShardW id i)) as [E1|], (decide (l = ShardR id i)) as [E2|];
      try congruence; try lia.
    specialize (Hh E2). rewrite E2 in Hh. cbn [held] in Hh. rewrite Hsh in Hh. lia.
  - by apply (set_shard_data id i sh).
  - apply (set_shard_readers id i sh); [done|]. cbn. intros Hr ->%Hr. done.
Qed.
Lemma takes_shard_Lock w : w ≠ Prompt → takes w (ShardW id i) (shard_Lock id i).
Proof.
  intros Hw. apply takes_with_shard; [done|intros sh ->; by eexists|].
  intros s sh x sh' Hsh E.
  destruct (rw_writer (sh_mu sh)) eqn:Ew; [done|]. cbn [orb] in E.
  destruct (Nat.ltb_spec 0 (rw_readers (sh_mu sh))); [done|]. injection E as _ <-.
  split; [|split].
  - rewrite (set_shard_held id i sh) by done. unfold once. cbn. rewrite Ew. cbn [Z.b2z].
    repeat case_decide; try congruence; lia.
  - by apply (set_shard_data id i sh).
  - by apply (set_shard_readers id i sh).
Qed.
Lemma gives_shard_Unlock w : gives w (ShardW id i) (shard_Unlock id i).
Proof.
  apply gives_with_shard; [by eexists|]. intros s sh x sh' Hh Hsh [= _ <-].
  split; [|split].
  - rewrite (set_shard_held id i sh) by done. unfold once. cbn.
    destruct (decide (l = ShardW id i)) as [E1|], (decide (l = ShardR id i)) as [E2|];
      try congruence; try lia.
    specialize (Hh E1). rewrite E1 in Hh. cbn [held] in Hh. rewrite Hsh in Hh.
    destruct (rw_writer (sh_mu sh)); cbn in *; lia.
  - by apply (set_shard_data id i sh).
  - by apply (set_shard_readers id i sh).
Qed.
End with_shard.

(** ** Buckets *)

Lemma put_heap_readers key bs (s : W) : no_readers s → no_readers (put_heap key bs s).
Proof. done. Qed.
Lemma put_heap_stays key bs (s : W) : stays l s (put_heap key bs s).
Proof. by apply stays_all. Qed.

Lemma put_bucket_held key p b b' (s : W) :
  heap_of key s !! p = Some b →
  held l (put_heap key (<[p:=b']> (heap_of key s)) s) = held l s
    + (if decide (l = BucketMu key p) then Z.b2z (b_mu b') - Z.b2z (b_mu b) else 0).
Proof.
  intros Hb. destruct l as [k q|id i|id i|id|id|id]; cbn [held];
    [|rewrite decide_False by done; by rewrite Z.add_0_r..].
  - rewrite heap_of_put. destruct (decide (k = key)) as [->|Hk].
    + destruct (decide (q = p)) as [->|Hq].
      * rewrite decide_True, Hb by done.
        rewrite list_lookup_insert_eq by (by eapply lookup_lt_Some). lia.
      * rewrite decide_False by congruence. rewrite list_lookup_insert_ne by done. lia.
    + rewrite decide_False by congruence. lia.
Qed.

Lemma put_bucket_data key p b b' (s : W) :
  heap_of key s !! p = Some b → (l = BucketMu key p → b_window b' = b_window b) →
  same_data l s (put_heap key (<[p:=b']> (heap_of key s)) s).
Proof.
  intros Hb Hw. destruct l; cbn [same_data]; [|done..]. rename key0 into k, p0 into q.
  intros b0 Hb0. rewrite heap_of_put. destruct (decide (k = key)) as [->|Hk]; [|by exists b0].
  destruct (decide (q = p)) as [->|Hq].
  - rewrite list_lookup_insert_eq by (by eapply lookup_lt_Some). exists b'.
    split; [done|]. simplify_eq. by apply Hw.
  - rewrite list_lookup_insert_ne by done. by exists b0.
Qed.

Section bucket.
Context (key : string) (p : nat).

Lemma on_bucket_unlocking {X} (f : bucket → X * bucket) s x s' :
  (∀ b, b_mu (f b).2 = b_mu b ∧ b_window (f b).2 = b_window b) →
  (match heap_of key s !! p with
   | Some b => let '(x, b') := f b in Some (x, put_heap key (<[p:=b']> (heap_of key s)) s)
   | None => None end) = Some (x, s') → unl s s'.
Proof.
  intros Hf. destruct (heap_of key s !! p) as [b|] eqn:Hb; [|done]. destruct (Hf b) as [Hm Hw].
  destruct (f b) as [y b']. cbn in Hm, Hw. intros [= _ <-]. apply unl_intro.
  - rewrite (put_bucket_held key p b) by done. rewrite Hm. case_decide; lia.
  - by apply (put_bucket_data key p b).
  - apply put_heap_stays.
  - apply put_heap_readers.
Qed.

(** A bucket that exists need not be waited for. *)
Lemma on_bucket_some {X} (f : bucket → X * bucket) s :
  l = BucketMu key p ∧ 1 <= held l s ∨ allocated key p s →
  is_Some (match heap_of key s !! p with
           | Some b => let '(x, b') := f b in
                       Some (x, put_heap key (<[p:=b']> (heap_of key s)) s)
           | None => None end).
Proof.
  intros Hp. assert (∃ b, heap_of key s !! p = Some b) as [b ->].
  { destruct Hp as [[-> Hh]|Hp]; [|by apply lookup_lt_is_Some].
    cbn [held] in Hh. destruct (heap_of key s !! p) as [b|]; [by exists b|lia]. }
  destruct (f b) as [x b']. by eexists.
Qed.

Lemma bal_on_bucket {X} (f : bucket → X * bucket) :
  (∀ b, b_mu (f b).2 = b_mu b ∧ b_window (f b).2 = b_window b) →
  bal Waiting (on_bucket key p f).
Proof.
  intros Hf. apply balanced_await; [apply _| |by intros s _ _ [|[]]].
  intros s x s'. by apply on_bucket_unlocking.
Qed.
Lemma prompt_on_bucket w {X} (f : bucket → X * bucket) :
  (∀ b, b_mu (f b).2 = b_mu b ∧ b_window (f b).2 = b_window b) →
  balF (allocated key p) w (on_bucket key p f).
Proof.
  intros Hf. apply balanced_await; [apply _| |intros s Hp _ _; apply on_bucket_some; by right].
  intros s x s'. by apply on_bucket_unlocking.
Qed.
(** Whoever has read or written it knows that it exists. *)
Lemma bal_on_bucket_then {X B} (f : bucket → X * bucket) (q : X → go W B) :
  (∀ b, b_mu (f b).2 = b_mu b ∧ b_window (f b).2 = b_window b) →
  (∀ x, balF (allocated key p) Waiting (q x)) → bal Waiting (bind (on_bucket key p f) q).
Proof.
  intros Hf Hq c s _ Hc Hw s1 _ _ Hi _. cbn in Hw. subst c.
  split; [intros [Hm _]; lia|]. intros x s2 E.
  assert (allocated key p s2) as Hp.
  { destruct (heap_of key s1 !! p) as [b|] eqn:Hb; [|done]. destruct (f b) as [y b'].
    injection E as _ <-. unfold allocated. rewrite heap_of_put, decide_True by done.
    rewrite length_insert. by eapply lookup_lt_Some. }
  destruct (on_bucket_unlocking f s1 x s2 Hf E) as (-> & HD & Hi2).
  rewrite Z.sub_diag. split; [auto|]. split; [apply HD|]. split; [done|].
  intros _ _. by apply Hq.
Qed.
Lemma under_at_on_bucket {X} w k s (f : bucket → X * bucket) :
  (k = BucketMu key p ∧ w = Waiting) ∨ allocated key p s →
  (∀ b, b_mu (f b).2 = b_mu b ∧ b_window (f b).2 = b_window b) →
  under_at w k s (on_bucket key p f).
Proof.
  intros Hp Hf. apply under_at_await.
  - intros s1 Hg _ Hw Hh. apply on_bucket_some. destruct Hp as [[-> ->] |Hp].
    + left. destruct (decide (l = BucketMu key p)) as [E|E]; [auto|by destruct (Hw E)].
    + right. by eapply allocated_grows.
  - intros s1 x s' E. apply on_bucket_unlocking in E as (Eh & HD & Hn); [|done].
    split; [done|]. split; [done|]. split; [apply (HD 0)|]. intros _. by apply (HD 0).
Qed.
Lemma bal_bucket_get {X} (f : bucket → X) : bal Waiting (bucket_get key p f).
Proof. by apply bal_on_bucket. Qed.
Lemma under_at_bucket_get {X} w k s (f : bucket → X) :
  (k = BucketMu key p ∧ w = Waiting) ∨ allocated key p s →
  under_at w k s (bucket_get key p f).
Proof. intros Hp. by apply under_at_on_bucket. Qed.
Lemma bal_bucket_do f :
  (∀ b, b_mu (f b) = b_mu b ∧ b_window (f b) = b_window b) →
  bal Waiting (bucket_do key p f).
Proof. intros Hf. by apply bal_on_bucket. Qed.
Lemma prompt_bucket_do w f :
  (∀ b, b_mu (f b) = b_mu b ∧ b_window (f b) = b_window b) →
  balF (allocated key p) w (bucket_do key p f).
Proof. intros Hf. by apply prompt_on_bucket. Qed.

(** Code that may move the window, and the mutex itself. *)
Lemma moves_bucket k d b b' (s : W) :
  heap_of key s !! p = Some b → k = BucketMu key p →
  (l = k → Z.b2z (b_mu b') = Z.b2z (b_mu b) + d) → (l ≠ k → d = 0) →
  (b_window b' = b_window b) →
  moves k d s (put_heap key (<[p:=b']> (heap_of key s)) s).
Proof.
  intros Hb -> Hd Hd0 Hw. split; [|split; [|split]].
  - rewrite (put_bucket_held key p b) by done. case_decide as E; [rewrite Hd by done; lia|].
    by rewrite Hd0.
  - by apply (put_bucket_data key p b).
  - apply put_heap_stays.
  - apply put_heap_readers.
Qed.
Lemma under_bucket_do f :
  (∀ b, b_mu (f b) = b_mu b) → under Waiting (BucketMu key p) (bucket_do key p f).
Proof.
  intros Hf s. apply under_at_await.
  { intros s1 _ _ Hw Hh. apply (on_bucket_some (λ b, (tt, f b))). left.
    destruct (decide (l = BucketMu key p)) as [E|E]; [auto|by destruct (Hw E)]. }
  intros s1 x s'. destruct (heap_of key s1 !! p) as [b|] eqn:Hb; [|done].
  intros [= _ <-]. split; [|split; [|split]].
  - rewrite (put_bucket_held key p b) by done. rewrite Hf. case_decide; lia.
  - apply put_heap_readers.
  - apply put_heap_stays.
  - intros Hne. by apply (put_bucket_data key p b).
Qed.
Lemma takes_bucket_Lock : takes Waiting (BucketMu key p) (bucket_Lock key p).
Proof.
  apply takes_await; [done| |done]. intros s x s'.
  destruct (heap_of key s !! p) as [b|] eqn:Hb; [|done].
  destruct (b_mu b) eqn:Hm; [done|]. intros [= _ <-].
  apply (moves_bucket _ _ b); [done|done|..|done]; unfold once; intros E; case_decide; try done.
  by rewrite Hm.
Qed.
Lemma gives_bucket_Unlock : gives Waiting (BucketMu key p) (bucket_Unlock key p).
Proof.
  apply gives_await.
  { intros s _ Hw Hh. apply (on_bucket_some (λ b, (tt, with_mu false b))). left.
    destruct (decide (l = BucketMu key p)) as [E|E]; [auto|by destruct (Hw E)]. }
  intros s x s' Hh. destruct (heap_of key s !! p) as [b|] eqn:Hb; [|done]. intros [= _ <-].
  apply (moves_bucket _ _ b); [done|done|..|done]; unfold once; intros E; case_decide; try done.
  specialize (Hh E). rewrite E in Hh. cbn [held] in Hh. rewrite Hb in Hh.
  destruct (b_mu b); cbn in *; lia.
Qed.
End bucket.

(** A new bucket is not locked. *)
Lemma bal_alloc_bucket w key b : b_mu b = false → bal w (alloc_bucket key b).
Proof.
  intros Hm. apply balanced_atomically. intros s. cbn [snd]. apply unl_intro.
  - destruct l as [k q| | | | |]; cbn [held]; [|done..]. rewrite heap_of_put.
    destruct (decide (k = key)) as [->|Hk]; [|done].
    destruct (heap_of key s !! q) as [b0|] eqn:Hq; [by rewrite (lookup_app_l_Some _ _ _ _ Hq)|].
    rewrite lookup_app_r by (by apply lookup_ge_None_1).
    destruct ([b] !! (q - length (heap_of key s))%nat) as [b0|] eqn:E; [|done].
    apply list_lookup_singleton_Some in E as [_ <-]. by rewrite Hm.
  - destruct l as [k q| | | | |]; cbn [same_data]; [|done..]. intros b0 Hq.
    rewrite heap_of_put. destruct (decide (k = key)) as [->|Hk]; [|by exists b0].
    exists b0. by rewrite (lookup_app_l_Some _ _ _ _ Hq).
  - apply put_heap_stays.
  - apply put_heap_readers.
Qed.

(** ** The mesh *)

Lemma set_mesh_held id m (s : W) :
  held l (lput (mesh_lens id) m s) = held l s
    + (if decide (l = MeshMu id)
       then Z.b2z (mesh_mu m) - Z.b2z (mesh_mu (mesh_of id s)) else 0).
Proof.
  unfold mesh_lens, inst. cbn [lput lens_compose].
  destruct l as [k q|id' i|id' i|id'|id'|id']; cbn [held].
  - rewrite decide_False by done. by rewrite Z.add_0_r.
  - rewrite decide_False by done. rewrite (proj1 (inst_put _ _ _ _)), Z.add_0_r.
    by destruct (decide (id' = id)) as [->|].
  - rewrite decide_False by done. rewrite (proj1 (inst_put _ _ _ _)), Z.add_0_r.
    by destruct (decide (id' = id)) as [->|].
  - rewrite (proj2 (inst_put _ _ _ _)). destruct (decide (id' = id)) as [->|Hne].
    + rewrite decide_True by done. cbn [l_mesh lput f_mesh]. lia.
    + rewrite decide_False by congruence. lia.
  - rewrite decide_False by done. rewrite (proj1 (inst_put_wg _ _ _ _)), Z.add_0_r.
    by destruct (decide (id' = id)) as [->|].
  - rewrite decide_False by done. rewrite (proj2 (inst_put_wg _ _ _ _)), Z.add_0_r.
    by destruct (decide (id' = id)) as [->|].
Qed.

Lemma set_mesh_readers id m (s : W) : no_readers s → no_readers (lput (mesh_lens id) m s).
Proof.
  intros Hn id' i sh. unfold mesh_lens, inst. cbn [lput lens_compose].
  rewrite (proj1 (inst_put _ _ _ _)). destruct (decide (id' = id)) as [->|]; apply Hn.
Qed.

Lemma set_mesh_data id m (s : W) :
  (l = MeshMu id → let m0 := mesh_of id s in
     peers m = peers m0 ∧ conns m = conns m0 ∧ open_conns m = open_conns m0) →
  same_data l s (lput (mesh_lens id) m s).
Proof.
  intros Hm. unfold mesh_lens, inst. cbn [lput lens_compose].
  destruct l as [k q|id' i|id' i|id'|id'|id']; cbn [same_data]; [| | | |done..].
  - intros b Hb. by exists b.
  - rewrite (proj1 (inst_put _ _ _ _)). by destruct (decide (id' = id)) as [->|].
  - done.
  - rewrite (proj2 (inst_put _ _ _ _)). destruct (decide (id' = id)) as [->|Hne]; [|done].
    by apply Hm.
Qed.

Lemma set_mesh_stays id m (s : W) : stays l s (lput (mesh_lens id) m s).
Proof. apply stays_all. intros id'. by apply cancelled_put. Qed.

Lemma under_mesh_modify w id f :
  (∀ m, mesh_mu (f m) = mesh_mu m) → under w (MeshMu id) (zoom_modify (mesh_lens (R:=R) id) f).
Proof.
  intros Hf s0. apply (under_at_await _ _ _ (λ s, Some _)); [by eexists|]. intros s x s' E.
  assert (s' = lput (mesh_lens id) (f (mesh_of id s)) s) as -> by by injection E.
  split; [|split; [|split]].
  - rewrite set_mesh_held, Hf. case_decide; [|lia]. unfold mesh_of. lia.
  - apply set_mesh_readers.
  - apply set_mesh_stays.
  - intros Hne. by apply set_mesh_data.
Qed.
Lemma moves_mesh id b (s : W) :
  moves (MeshMu id) (if decide (l = MeshMu id) then Z.b2z b - Z.b2z (mesh_mu (mesh_of id s)) else 0)
    s (lput (mesh_lens id) (with_mesh_mu b (mesh_of id s)) s).
Proof.
  split; [apply set_mesh_held|]. split; [by apply set_mesh_data|].
  split; [apply set_mesh_stays|apply set_mesh_readers].
Qed.
Lemma takes_mesh_Lock w id :
  w ≠ Prompt → takes w (MeshMu id) (mesh_Lock (mesh_lens (R:=R) id)).
Proof.
  intros Hw. apply takes_await; [done| |].
  - intros s x s'. destruct (mesh_mu _) eqn:Hm; [done|]. intros E.
    assert (s' = lput (mesh_lens id) (with_mesh_mu true (mesh_of id s)) s) as -> by by injection E.
    unfold once. pose proof (moves_mesh id true s) as Hs.
    change (mesh_mu (mesh_of id s) = false) in Hm. by rewrite Hm in Hs.
  - intros _ s _ Hfree. pose proof (Hfree (MeshMu id) eq_refl) as Hm. cbn [held] in Hm.
    change (lget (mesh_lens id) s) with (mesh_of id s).
    destruct (mesh_mu (mesh_of id s)); [done|]. by eexists.
Qed.
Lemma gives_mesh_Unlock w id : gives w (MeshMu id) (mesh_Unlock (mesh_lens (R:=R) id)).
Proof.
  apply (gives_await _ _ (λ s, Some _)); [by eexists|]. intros s x s' Hh E.
  assert (s' = lput (mesh_lens id) (with_mesh_mu false (mesh_of id s)) s) as -> by by injection E.
  pose proof (moves_mesh id false s) as Hs. unfold once. destruct (decide _) as [Hk|]; [|done].
  specialize (Hh Hk). rewrite Hk in Hh. cbn [held] in Hh.
  destruct (mesh_mu (mesh_of id s)); cbn in *; [done|lia].
Qed.
Lemma bal_mesh_read w {X} id (f : Mesh → X) :
  w ≠ Prompt → bal w (mesh_read (mesh_lens (R:=R) id) f).
Proof.
  intros Hw. apply balanced_await; [apply _| |].
  - intros s x s'. destruct (mesh_mu _); [done|].
    intros [= _ <-]. apply unlocking_refl, kept_refl.
  - intros s _ _ [?|(_ & _ & Hfree & _)]; [done|].
    pose proof (Hfree (MeshMu id) eq_refl) as Hm. cbn [held] in Hm.
    change (lget (mesh_lens id) s) with (mesh_of id s).
    destruct (mesh_mu (mesh_of id s)); [done|]. by eexists.
Qed.

(** ** The wait groups *)

(** A counter of an instance, written by nothing but [Add] and [Done]. *)
Definition counts (k : lock) (id : string) (f : lens limiter nat) : Prop :=
  (∀ n (s : W), held l (lput (inst id f) n s)
     = held l s + (if decide (l = k) then Z.of_nat n - Z.of_nat (lget (inst id f) s) else 0)) ∧
  (∀ n (s : W), same_data l s (lput (inst id f) n s)) ∧
  (∀ n (s : W), no_readers s → no_readers (lput (inst id f) n s)) ∧
  (∀ n (s : W), stays l s (lput (inst id f) n s)) ∧
  (∀ s : W, held k s = Z.of_nat (lget (inst id f) s)).

Lemma takes_Add w k id f :
  w ≠ Prompt → counts k id f → takes w k (zoom_modify (inst (R:=R) id f) Datatypes.S).
Proof.
  intros Hw (Hh & Hd & Hn & Hst & _).
  apply (takes_await _ _ (λ s, Some _)); [done| |by eexists]. intros s x s' E.
  assert (s' = lput (inst id f) (Datatypes.S (lget (inst id f) s)) s) as -> by by injection E.
  split; [|split; [apply Hd|split; [apply Hst|apply Hn]]]. rewrite Hh. unfold once.
  case_decide; lia.
Qed.
Lemma gives_Done w k id f :
  counts k id f → gives w k (zoom_modify (inst (R:=R) id f) pred).
Proof.
  intros (Hh & Hd & Hn & Hst & Hk). apply (gives_await _ _ (λ s, Some _)); [by eexists|].
  intros s x s' H1 E.
  assert (s' = lput (inst id f) (pred (lget (inst id f) s)) s) as -> by by injection E.
  split; [|split; [apply Hd|split; [apply Hst|apply Hn]]]. rewrite Hh. unfold once.
  case_decide as El; [|lia]. specialize (H1 El). rewrite El, Hk in H1. lia.
Qed.

Section counter.
Context (id : string) (f : lens limiter nat)
  (other : ∀ n lim, l_shards (lput f n lim) = l_shards lim ∧ l_mesh (lput f n lim) = l_mesh lim)
  (kept_cancelled : ∀ n lim, l_cancelled (lput f n lim) = l_cancelled lim).

Lemma counter_put n (s : W) id' :
  shards_of id' (lput (inst id f) n s) = shards_of id' s ∧
  mesh_of id' (lput (inst id f) n s) = mesh_of id' s.
Proof.
  unfold inst. cbn [lput lens_compose].
  rewrite (proj1 (inst_put _ _ _ _)), (proj2 (inst_put _ _ _ _)).
  destruct (other n (lget (inst_lens id) s)) as [-> ->]. by destruct (decide _) as [->|].
Qed.

Lemma counter_held n (s : W) :
  held l (lput (inst id f) n s)
    = match l with
      | WG id' => Z.of_nat (wg_of id' (lput (inst id f) n s))
      | MeshWG id' => Z.of_nat (mesh_wg_of id' (lput (inst id f) n s))
      | _ => held l s
      end.
Proof.
  destruct l as [k q|id' i|id' i|id'|id'|id']; cbn [held]; [done|..|done|done];
    destruct (counter_put n s id') as [E1 E2]; by rewrite ?E1, ?E2.
Qed.

Lemma counter_counts k :
  (∀ n (s : W), held l (lput (inst id f) n s)
     = held l s + (if decide (l = k) then Z.of_nat n - Z.of_nat (lget (inst id f) s) else 0)) →
  (∀ s : W, held k s = Z.of_nat (lget (inst id f) s)) → counts k id f.
Proof.
  intros Hh Hk. split; [done|]. split; [|split; [|split; [|done]]]; intros n s.
  - destruct l as [k' q|id' i|id' i|id'|id'|id']; cbn [same_data]; [eauto| |done| |done..];
      destruct (counter_put n s id') as [E1 E2]; by rewrite ?E1, ?E2.
  - intros Hn id' i sh. rewrite (proj1 (counter_put n s id')). apply Hn.
  - apply stays_all. intros id'. apply cancelled_put. by rewrite kept_cancelled.
Qed.
End counter.

Lemma wg_counts id : counts (WG id) id f_wg.
Proof.
  apply counter_counts; [done|done| |done]. intros n s. rewrite counter_held by done.
  unfold inst. cbn [lput lens_compose].
  destruct l as [| | | |id'|id']; [rewrite decide_False by done; lia..| |].
  - rewrite (proj1 (inst_put_wg _ _ _ _)). cbn [held]. destruct (decide (id' = id)) as [->|Hne].
    + rewrite decide_True by done. cbn. unfold wg_of. cbn. lia.
    + rewrite decide_False by congruence. lia.
  - rewrite decide_False, Z.add_0_r, (proj2 (inst_put_wg _ _ _ _)) by done. cbn [held].
    by destruct (decide _) as [->|].
Qed.
Lemma mesh_wg_counts id : counts (MeshWG id) id f_mesh_wg.
Proof.
  apply counter_counts; [done|done| |done]. intros n s. rewrite counter_held by done.
  unfold inst. cbn [lput lens_compose].
  destruct l as [| | | |id'|id']; [rewrite decide_False by done; lia..| |].
  - rewrite decide_False, Z.add_0_r, (proj1 (inst_put_wg _ _ _ _)) by done. cbn [held].
    by destruct (decide _) as [->|].
  - rewrite (proj2 (inst_put_wg _ _ _ _)). cbn [held]. destruct (decide (id' = id)) as [->|Hne].
    + rewrite decide_True by done. cbn. unfold mesh_wg_of. cbn. lia.
    + rewrite decide_False by congruence. lia.
Qed.

Lemma takes_wg_Add w id : w ≠ Prompt → takes w (WG id) (wg_Add (R:=R) id).
Proof. intros Hw. by apply takes_Add, wg_counts. Qed.
Lemma gives_wg_Done w id : gives w (WG id) (wg_Done (R:=R) id).
Proof. apply gives_Done, wg_counts. Qed.

#[local] Hint Extern 1 (_ < 64)%nat => first [apply shard_of_lt|assumption|lia] : locks.
#[local] Hint Extern 1 (_ ≠ Prompt) => first [assumption|discriminate] : locks.
#[local] Hint Resolve under_shard_get bal_bucket_get bal_mesh_read takes_shard_RLock
  takes_shard_Lock takes_bucket_Lock takes_mesh_Lock gives_shard_RUnlock
  gives_shard_Unlock gives_bucket_Unlock gives_mesh_Unlock takes_wg_Add gives_wg_Done : locks.
#[local] Hint Extern 1 (bal Waiting (bucket_do _ _ _)) => by apply bal_bucket_do : locks.
#[local] Hint Extern 1 (balF _ _ (bucket_do _ _ _)) => by apply prompt_bucket_do : locks.
#[local] Hint Extern 1 (∀ c s, kept _ c s s) => apply kept_refl : locks.

(** ** The limiter *)

Lemma bal_metric F `{!Stable grows F} w id f : balF F w (metric (R:=R) id f).
Proof. unfold metric. locks. Qed.
#[local] Hint Resolve bal_metric : locks.

Lemma bal_getOrCreateBucket w (o : options W) key :
  w ≠ Prompt → bal w (getOrCreateBucket o key).
Proof.
  intros Hw. unfold getOrCreateBucket. cbv zeta.
  apply (bal_lock w (ShardR (o_instanceID o) (shard_of key))); [eauto with locks|].
  apply gives_under; [eauto with locks|intros hit].
  apply gives_then; [eauto with locks|intros _]. destruct hit as [p|]; [locks|].
  apply (bal_lock w (ShardW (o_instanceID o) (shard_of key))); [eauto with locks|].
  apply gives_under; [eauto with locks|intros [p|]].
  { apply gives_then; [eauto with locks|intros _; locks]. }
  apply gives_under; [apply bal_under; locks|intros now].
  apply gives_under; [by apply bal_under, bal_alloc_bucket|intros p].
  apply gives_under; [apply under_shard_set; eauto with locks|intros _].
  apply gives_then; [eauto with locks|intros _; locks].
Qed.
#[local] Hint Resolve bal_getOrCreateBucket : locks.

Section redis.
Context (F : W → Prop) `{!Stable grows F} (w : patience).

Lemma bal_redis_eval sc keys args : balF F w (redis_eval (R:=R) redis_lens sc keys args).
Proof. unfold redis_eval. locks. Qed.
#[local] Hint Resolve bal_redis_eval : locks.
Lemma bal_runScript rp name keys args :
  balF F w (runScript (R:=R) redis_lens rp name keys args).
Proof. unfold runScript. locks. Qed.
#[local] Hint Resolve bal_runScript : locks.
Lemma bal_RP_Borrow rp key inst_id n ttl :
  balF F w (RP_Borrow (R:=R) redis_lens rp key inst_id n ttl).
Proof. unfold RP_Borrow. locks. Qed.
Lemma bal_RP_ResetWindow rp key limit start :
  balF F w (RP_ResetWindow (R:=R) redis_lens rp key limit start).
Proof. unfold RP_ResetWindow. locks. Qed.
Lemma bal_redis_write f : balF F w (redis_write (R:=R) redis_lens f).
Proof. unfold redis_write. locks. Qed.
#[local] Hint Resolve bal_RP_Borrow bal_redis_write : locks.

#[local] Existing Instance limiter_pool.
Lemma bal_Acquire id key need cb :
  (∀ g, balF F w (cb g)) → balF F w (Acquire (mgr_lens id) None key need (Some cb)).
Proof.
  intros Hcb. unfold Acquire, acquire_leader. cbn [Borrow limiter_pool redis_pool_client].
  locks.
Qed.
End redis.
#[local] Hint Resolve bal_RP_ResetWindow bal_redis_write : locks.

Lemma bal_bm_Borrowed w id key : bal w (bm_Borrowed (mgr_lens (R:=R) id) key).
Proof. unfold bm_Borrowed. locks. Qed.
Lemma bal_RecordConsumption w id key n : bal w (RecordConsumption (mgr_lens (R:=R) id) key n).
Proof. unfold RecordConsumption. locks. Qed.
#[local] Hint Resolve bal_bm_Borrowed bal_RecordConsumption : locks.

Lemma bal_UpdatePeer w id peer cs bs : bal w (UpdatePeer (gossip_lens (R:=R) id) peer cs bs).
Proof. unfold UpdatePeer. locks. Qed.
Lemma bal_RemovePeer w id peer : bal w (RemovePeer (gossip_lens (R:=R) id) peer).
Proof. unfold RemovePeer. locks. Qed.
Lemma bal_g_EvictKeys w id keys : bal w (g_EvictKeys (gossip_lens (R:=R) id) keys).
Proof. unfold g_EvictKeys. locks. Qed.
Lemma bal_PeerIDs w id : bal w (PeerIDs (gossip_lens (R:=R) id)).
Proof. unfold PeerIDs. locks. Qed.
Lemma bal_g_TopK w id k key : bal w (g_TopK (gossip_lens (R:=R) id) k key).
Proof. unfold g_TopK. locks. Qed.
#[local] Hint Resolve bal_UpdatePeer bal_RemovePeer bal_g_EvictKeys bal_PeerIDs
  bal_g_TopK : locks.

(** *** The token server *)

Lemma bal_tryConsume key p n : bal Waiting (on_bucket key p (tryConsume n)).
Proof. apply bal_on_bucket. intros b. unfold tryConsume. by destruct (TryConsume _ _). Qed.
#[local] Hint Resolve bal_tryConsume : locks.

Lemma bal_token_accessor o key n : bal Waiting (token_accessor (R:=R) o key n).
Proof. unfold token_accessor. locks. Qed.
Lemma bal_token_transferer o key n : bal Waiting (token_transferer (R:=R) o key n).
Proof. unfold token_transferer. locks. Qed.
#[local] Hint Resolve bal_token_accessor bal_token_transferer : locks.

Lemma bal_TransferTokens (o : options W) req : bal Waiting (TransferTokens (token_server o) req).
Proof.
  unfold TransferTokens. cbn [token_server SetGossipHandler SetTokenTransferer
    SetTokenAccessor NewTokenServer tokenAccessor tokenTransferer]. locks.
Qed.
Lemma bal_Gossip (o : options W) origin cs bs :
  bal Waiting (Gossip (token_server o) origin cs bs).
Proof.
  unfold Gossip. cbn [gossipHandler token_server SetGossipHandler].
  unfold gossip_handler. locks.
Qed.
#[local] Hint Resolve bal_TransferTokens bal_Gossip : locks.

(** *** [AllowN] *)

Section allow.
Context (serve : string → option (TokenServer W)).
Context (serve_ok : ∀ addr srv, serve addr = Some srv → ∃ o, srv = token_server o).
Context (o : options W).

Lemma bal_rpc {A} addr (handler : TokenServer W → go W (status + A)) :
  (∀ o', bal Waiting (handler (token_server o'))) → bal Waiting (rpc serve addr handler).
Proof.
  intros Hh. unfold rpc. locks_step; [locks|].
  destruct (serve addr) as [srv|] eqn:Hs; [|locks].
  destruct (serve_ok _ _ Hs) as [o' ->]. specialize (Hh o'). locks.
Qed.

#[local] Instance lk_lookup : PeerLookup W conn := limiter_lookup o.
#[local] Instance lk_ranker : PeerRanker W := limiter_ranker o.
#[local] Instance lk_requester : TokenRequester W conn := limiter_requester serve.

Lemma bal_RequestTokens client origin key need :
  bal Waiting (RequestTokens (C:=conn) client origin key need).
Proof.
  cbn [RequestTokens lk_requester limiter_requester grpc_requester].
  unfold PC_RequestTokens. locks_step; [|locks]. apply bal_rpc. intros o'. locks.
Qed.
Lemma bal_emitProbeResult key peer result :
  bal Waiting (emitProbeResult (limiter_acquirer o) key peer result).
Proof.
  unfold emitProbeResult, limiter_acquirer.
  destruct (o_metrics o); cbn [onProbeResult SetProbeResultCallback
    SetExtraTokensCallback NewAcquirer]; [|locks].
  unfold probe_result. locks.
Qed.
#[local] Hint Resolve bal_RequestTokens bal_emitProbeResult : locks.

Lemma bal_probe peer key need surplus :
  bal Waiting (probe (limiter_acquirer o) peer key need surplus).
Proof.
  unfold probe. cbn [lookup_client lk_lookup limiter_lookup mesh_lookup].
  unfold GetPeerClient. locks.
Qed.
Lemma bal_extra_tokens key g : bal Waiting (extra_tokens o key g).
Proof. unfold extra_tokens. locks. Qed.
#[local] Hint Resolve bal_probe bal_extra_tokens : locks.

Lemma bal_send key ch v : bal Waiting (send (S:=W) chans_lens key ch v).
Proof.
  apply balanced_await; [apply _| |by intros s _ _ [|[]]].
  intros s x s'. cbv zeta. destruct (_ !! ch) as [c|]; [|done].
  destruct (_ <? _)%nat; [|done]. intros [= _ <-]. by apply unlocking_same.
Qed.
Lemma bal_recv key ch : bal Waiting (recv (S:=W) chans_lens key ch).
Proof.
  apply balanced_await; [apply _| |by intros s _ _ [|[]]]. intros s x s'. cbv zeta.
  destruct (_ !! ch) as [[cap [|v buf]]|]; [done| |done].
  intros [= _ <-]. by apply unlocking_same.
Qed.
#[local] Hint Resolve bal_send bal_recv : locks.

Lemma bal_drain_late key ch rem :
  bal Waiting (drain_late chans_lens (limiter_acquirer o) key ch rem).
Proof.
  induction rem as [|rem IH]; cbn [drain_late]; [locks|].
  unfold limiter_acquirer at 1. destruct (o_metrics o); cbn [onExtraTokens
    SetProbeResultCallback SetExtraTokensCallback NewAcquirer]; locks.
Qed.
#[local] Hint Resolve bal_drain_late : locks.
Lemma bal_collect key ch active :
  bal Waiting (collect chans_lens (limiter_acquirer o) key ch active).
Proof. induction active as [|active IH]; cbn [collect]; locks. Qed.
Lemma bal_probeSequential xs key need :
  bal Waiting (probeSequential (limiter_acquirer o) xs key need).
Proof. induction xs as [|c xs IH]; cbn [probeSequential]; locks. Qed.
#[local] Hint Resolve bal_collect bal_probeSequential : locks.

Lemma bal_acq_Acquire key need cb :
  (∀ g, bal Waiting (cb g)) →
  bal Waiting (acq_Acquire chans_lens (limiter_acquirer o) key need (Some cb)).
Proof.
  intros Hcb. unfold acq_Acquire, acquire, probeParallel, make_chan.
  cbn [rank_peers lk_ranker limiter_ranker gossip_ranker]. locks.
Qed.

Lemma bal_record_allowed key p n b : bal Waiting (record_allowed o key p n b).
Proof. unfold record_allowed. locks. Qed.
#[local] Hint Resolve bal_record_allowed : locks.
Lemma bal_consume_or key p n next : bal Waiting next → bal Waiting (consume_or o key p n next).
Proof. intros Hn. unfold consume_or. locks. Qed.
Lemma bal_refill_cleared key p g : bal Waiting (refill_cleared (R:=R) key p g).
Proof. unfold refill_cleared. locks. Qed.
Lemma prompt_refill_cleared w key p g :
  balF (allocated key p) w (refill_cleared (R:=R) key p g).
Proof. unfold refill_cleared. locks. Qed.

Lemma bal_from_redis key p n ex again :
  (∀ ex', bal Waiting (again ex')) → bal Waiting (from_redis o key p n ex again).
Proof.
  intros Ha. unfold from_redis.
  repeat (cbv zeta; first [apply bal_Acquire; [apply _|]; intros; apply bal_refill_cleared
                          |apply bal_consume_or, Ha|locks_step]).
Qed.
Lemma bal_from_peers key p n again :
  bal Waiting again → bal Waiting (from_peers serve o key p n again).
Proof.
  intros Ha. unfold from_peers, acquireFromPeers, refill_received.
  repeat (cbv zeta; first [apply bal_acq_Acquire; intros|by apply bal_consume_or|locks_step]).
Qed.

(** A router that keeps to its own state; the mesh calls it with its mutex
    held. *)
Record lock_router (r : Router W) : Prop := {
  lr_Decide rc : bal Waiting (Decide r rc);
  lr_RemovePeer f id : r_RemovePeer r = Some f → bal Prompt (f id);
  lr_EvictKeys f ks : r_EvictKeys r = Some f → bal Waiting (f ks);
}.
Context (router_ok : ∀ r, o_router o = Some r → lock_router r).

Lemma bal_allow_loop fuel key p n ex checked :
  bal Waiting (allow_loop serve o fuel key p n ex checked).
Proof.
  revert ex checked. induction fuel as [|fuel IH]; intros ex checked; cbn [allow_loop]; [locks|].
  destruct (o_router o) as [r|]; [|locks].
  apply bal_bind; [apply _|by apply router_ok|intros [d [e|]]; [locks|]]. destruct d.
  - by apply bal_from_redis.
  - by apply bal_from_peers.
  - unfold reject. locks.
Qed.
#[local] Hint Resolve bal_allow_loop : locks.

(** The locked part of [resetWindow] is the only code that moves a window. *)
Lemma under_reset_locked key p nowMs :
  under Waiting (BucketMu key p) (reset_locked o key p nowMs).
Proof.
  unfold reset_locked. cbv zeta. destruct (_ =? 0); [by apply bal_under, balanced_panic|].
  apply under_bind; [intros s; by apply under_at_bucket_get; left|intros start].
  destruct (_ <=? start); [apply bal_under; locks|].
  apply under_bind;
    [apply bal_under; locks|intros [e|]]; [apply bal_under; locks|].
  apply under_bind; [intros s; by apply under_at_on_bucket; [left|]|intros _].
  do 3 (apply under_bind; [by apply under_bucket_do|intros _]).
  apply bal_under. locks.
Qed.

Lemma bal_resetWindow key nowMs : bal Waiting (resetWindow o key nowMs).
Proof.
  unfold resetWindow. apply bal_bind; [apply _|locks|intros p].
  apply (bal_lock Waiting (BucketMu key p)); [eauto with locks|].
  apply gives_under; [apply under_reset_locked|intros err].
  apply gives_then; [eauto with locks|intros _; locks].
Qed.
#[local] Hint Resolve bal_resetWindow : locks.

Lemma bal_maybePreBorrow key p : bal Waiting (maybePreBorrow o key p).
Proof.
  unfold maybePreBorrow. apply bal_on_bucket_then.
  { intros b. unfold TryMarkPreBorrowing. by destruct (b_preBorrowing b). }
  intros [|]; [|locks]. locks_step; [locks|].
  apply (bal_started _ Waiting (WG (o_instanceID o))); [done|eauto with locks|].
  intros s Hp. apply gives_at_under.
  { apply (bal_under_at (allocated key p)); [|done].
    apply bal_Acquire; [apply _|]. intros g. apply prompt_refill_cleared. }
  intros [granted err] s1 Hg1. assert (allocated key p s1) as Hp1 by by eapply allocated_grows.
  apply gives_at_under; [apply (bal_under_at (allocated key p)); [locks|done]|].
  intros _ s2 Hg2. assert (allocated key p s2) as Hp2 by by eapply allocated_grows.
  apply gives_at_under; [apply (bal_under_at (allocated key p)); [locks|done]|].
  intros _ s3 _. apply gives_wg_Done.
Qed.
#[local] Hint Resolve bal_maybePreBorrow : locks.

Lemma bal_AllowN fuel key n : bal Waiting (AllowN serve o fuel key n).
Proof.
  unfold AllowN, allow_local, allow_slow.
  repeat (cbv zeta; first [apply bal_consume_or|locks_step]).
Qed.

(** *** The background goroutines *)

Lemma bal_scan_shards w id now idxs active :
  bal w (scan_shards (mgr_lens (R:=R) id) now idxs active).
Proof.
  revert active. induction idxs as [|i idxs IH]; intros active; cbn [scan_shards]; locks.
Qed.
#[local] Hint Resolve bal_scan_shards : locks.
Lemma bal_AllBorrowed w id k : bal w (AllBorrowed (mgr_lens (R:=R) id) k).
Proof. unfold AllBorrowed. locks. Qed.
Lemma under_consumed_in w i keys out :
  (i < 64)%nat → under w (ShardR (o_instanceID o) i) (consumed_in o i keys out).
Proof.
  intros Hi. revert out. induction keys as [|k keys IH]; intros out; cbn [consumed_in];
    [apply bal_under; locks|].
  apply under_get; [done|]. intros m s Hm. destruct (m !! k) as [p|] eqn:Hp;
    [|apply IH].
  apply under_at_bind; [by apply under_at_bucket_get; right; apply Hm|]. intros v s' _. apply IH.
Qed.
#[local] Hint Resolve bal_AllBorrowed : locks.

Lemma bal_consumed_shards w i groups out :
  w ≠ Prompt → (i + length groups <= 64)%nat → bal w (consumed_shards o i groups out).
Proof.
  intros Hw. revert i out. induction groups as [|[|k keys] groups IH]; intros i out Hi;
    cbn [consumed_shards length] in *; [locks|apply IH; lia|].
  apply (bal_lock w (ShardR (o_instanceID o) i)); [eauto with locks|].
  apply gives_under; [apply under_consumed_in; lia|intros out'].
  apply gives_then; [eauto with locks|intros _; apply IH; lia].
Qed.

Lemma bal_gossipOnce w : w ≠ Prompt → bal w (gossipOnce serve o).
Proof.
  intros Hw. unfold gossipOnce, getBucketsConsumed, GetPeers, gossip_to.
  repeat (cbv zeta; first [apply bal_rpc; intros|apply bal_consumed_shards; [done|]|locks_step]).
  by rewrite group_keys_length.
Qed.
(** A wait group of the instance is not waited for while its loop runs. *)
Lemma owns_ticker_loop k ticks body done c Q :
  k = WG (o_instanceID o) ∨ k = MeshWG (o_instanceID o) →
  c = once k → bal Locking body → (∀ s, owns done c s Q) →
  ∀ s, owns (ticker_loop o ticks body done) c s Q.
Proof.
  intros Hk -> Hb Hd. pose proof (once_nonneg k) as Hc.
  assert (Hl : allowed Locking (once k)).
  { intros Hm. unfold once. case_decide as E; [|done]. rewrite E in Hm.
    by destruct Hk as [-> | ->]. }
  assert (Hw : ∀ s, owns (when_cancelled o done) (once k) s Q).
  { intros s s1 _ HJ Hi _. split.
    - intros [H1' [Hm|[_ Hcalm]]]; unfold once in *; case_decide as E; try lia.
      { rewrite E in Hm. by destruct Hk as [-> | ->]. }
      rewrite E in Hcalm. assert (cancelled (o_instanceID o) s1) as Hcan
        by by destruct Hk as [-> | ->].
      unfold cancelled in Hcan. rewrite Hcan. by eexists.
    - intros x s2 E. destruct (lget _ s1); [|done]. injection E as _ <-.
      rewrite Z.sub_diag, Z.add_0_r. split; [done|]. split; [apply kept_refl|].
      split; [done|]. intros _ _. apply Hd. }
  induction ticks as [|ticks IH]; cbn [ticker_loop]; [apply Hw|]. intros s.
  apply seq_owns. intros [] _ s1 _; [|apply Hw]. apply seq_owns.
  eapply mono_owns; [|by apply Hb]. by intros _ c' s' _ ->.
Qed.
Lemma gives_ticker_loop k ticks body done :
  k = WG (o_instanceID o) ∨ k = MeshWG (o_instanceID o) →
  bal Locking body → gives Waiting k done →
  gives Waiting k (ticker_loop o ticks body done).
Proof.
  intros Hk Hb Hd s c Hc Hl. cbn in Hl. subst c. apply (owns_ticker_loop k); [done| |done|].
  - lia.
  - intros s'. apply Hd; [done|apply allowed_0].
Qed.
(** The other loops wait as they like. *)
Lemma bal_ticker_loop ticks body done :
  bal Waiting body → bal Waiting done → bal Waiting (ticker_loop o ticks body done).
Proof.
  intros Hb Hd. assert (Hw : bal Waiting (when_cancelled o done)).
  { unfold when_cancelled. locks. apply balanced_await; [apply _| |by intros s _ _ [|[]]].
    intros s x s'. destruct (lget _ s); [|discriminate]. intros [= _ <-].
    apply unlocking_refl, kept_refl. }
  induction ticks as [|ticks IH]; cbn [ticker_loop]; locks.
Qed.
Lemma gives_gossipLoop ticks :
  gives Waiting (WG (o_instanceID o)) (gossipLoop serve o ticks).
Proof.
  apply gives_under; [apply bal_under; locks|intros _].
  apply gives_ticker_loop; [by left|by apply bal_gossipOnce|eauto with locks].
Qed.

Lemma under_at_evictable w k s policy key p nowMs :
  allocated key p s → under_at w k s (evictable (R:=R) policy key p nowMs).
Proof.
  intros Hp. unfold evictable. apply under_at_bind; [by apply under_at_bucket_get; right|].
  intros [] s' Hg; [|by apply bal_under, balanced_ret]. apply under_at_bind.
  - apply under_at_bucket_get. right. by eapply allocated_grows.
  - intros busy s2 _. by apply bal_under, balanced_ret.
Qed.
Lemma under_at_scan_evictable w k policy entries nowMs : ∀ s,
  Forall (λ e, allocated e.1 e.2 s) entries →
  under_at w k s (scan_evictable (R:=R) policy entries nowMs).
Proof.
  induction entries as [|[key p] entries IH]; intros s He; cbn [scan_evictable];
    [by apply bal_under, balanced_ret|].
  apply Forall_cons in He as [Hp He]. apply under_at_bind; [by apply under_at_evictable|].
  intros e s' Hg. apply under_at_bind.
  - apply IH. eapply Forall_impl; [exact He|]. intros x. by apply allocated_grows.
  - intros rest s2 _. by apply bal_under, balanced_ret.
Qed.

Lemma under_evict_locked w policy i keys nowMs :
  (i < 64)%nat → under w (ShardW (o_instanceID o) i) (evict_locked o policy i keys nowMs).
Proof.
  intros Hi. induction keys as [|k keys IH]; cbn [evict_locked]; [apply bal_under; locks|].
  apply under_get; [done|]. intros m s Hm. apply under_at_bind.
  - destruct (m !! k) as [p|] eqn:Hp; [|by apply bal_under, balanced_ret].
    apply under_at_bind; [by apply under_at_evictable, Hm|].
    intros [] s' _; [|by apply bal_under, balanced_ret].
    apply under_at_bind; [by apply under_shard_set|]. intros _ s2 _.
    by apply bal_under, balanced_ret.
  - intros gone s' _. apply under_at_bind; [apply IH|]. intros rest s2 _.
    by apply bal_under, balanced_ret.
Qed.

Lemma gives_ask w k s {X B} (q : question X) (f : X → go W B) :
  (∀ x, valid_answer q x → gives_at w k s (f x)) → gives_at w k s (bind (ask q) f).
Proof. intros Hf c Hc Hl x Hx. by apply Hf. Qed.

Lemma bal_evict_shard w policy i nowMs :
  w ≠ Prompt → (i < 64)%nat → bal w (evict_shard o policy i nowMs).
Proof.
  intros Hw Hi. unfold evict_shard.
  apply (bal_lock w (ShardR (o_instanceID o) i)); [eauto with locks|].
  intros s0. apply gives_ask. intros order Ho. revert s0.
  apply gives_get; [done|]. intros m s Hm.
  apply gives_at_under; [|intros keys s' _; revert s'].
  { apply under_at_scan_evictable, Forall_forall. intros [key p] Hin. cbn in Ho.
    rewrite Ho in Hin. by apply elem_of_map_to_list, Hm in Hin. }
  apply gives_then; [eauto with locks|intros _]. destruct keys; [locks|].
  apply (bal_lock w (ShardW (o_instanceID o) i)); [eauto with locks|].
  apply gives_under; [by apply under_evict_locked|intros evicted].
  apply gives_then; [eauto with locks|intros _; locks].
Qed.
Lemma bal_evict_shards w policy idxs nowMs :
  w ≠ Prompt → Forall (λ i, i < 64)%nat idxs → bal w (evict_shards o policy idxs nowMs).
Proof.
  intros Hw. induction 1 as [|i idxs Hi _ IH]; cbn [evict_shards]; [locks|].
  apply bal_bind; [apply _|by apply bal_evict_shard|intros e]. locks.
Qed.

Lemma bal_evictInactiveKeys policy nowMs : bal Waiting (evictInactiveKeys o policy nowMs).
Proof.
  unfold evictInactiveKeys. apply bal_bind; [apply _| |intros [|k ks]; [locks|]].
  { apply bal_evict_shards; [done|]. apply Forall_forall. intros i Hi%elem_of_seq. lia. }
  locks_step; [locks|]. locks_step; [locks|].
  destruct (o_router o) as [r|]; [|locks]. destruct (r_EvictKeys r) as [f|] eqn:Hf; [|locks].
  by apply (lr_EvictKeys r (router_ok r eq_refl)).
Qed.
Lemma bal_peer_removed id : bal Prompt (peer_removed o id).
Proof.
  unfold peer_removed. locks_step; [locks|].
  destruct (o_router o) as [r|]; [|locks]. destruct (r_RemovePeer r) as [f|] eqn:Hf; [|locks].
  by apply (lr_RemovePeer r (router_ok r eq_refl)).
Qed.

(** *** The life of an instance *)

Section lifecycle.
Context `{GrpcDial} `{NetListen}.

Lemma bal_Register w m info : bal w (Register (R:=R) redis_lens m info).
Proof. unfold Register. locks. Qed.
Lemma bal_Discover w m : bal w (Discover (R:=R) redis_lens m).
Proof. unfold Discover. locks. Qed.
#[local] Hint Resolve bal_Register bal_Discover : locks.

Lemma join_peer_mu now id member m : mesh_mu (join_peer now id member m) = mesh_mu m.
Proof.
  unfold join_peer, dial. destruct (peers m !! id) as [p|]; cbn.
  - destruct (p_Healthy p); [done|]. by destruct (NewClient_err _).
  - by destruct (NewClient_err _).
Qed.

Lemma bal_mesh_refresh w : w ≠ Prompt → bal w (mesh_refresh o).
Proof.
  intros Hw. unfold mesh_refresh, refresh.
  apply bal_bind; [apply _|locks|intros [ms [e|]]; [locks|]].
  apply bal_bind; [apply _|locks|intros self]. cbv zeta.
  apply (bal_lock w (MeshMu (o_instanceID o))); [eauto with locks|].
  apply gives_under; [apply bal_under; locks|intros order].
  apply gives_under; [apply bal_under; locks|intros ids].
  apply gives_under; [|intros _].
  { apply under_for_each. intros id. unfold drop_if_gone. destruct (_ !! id);
      [apply bal_under; locks|].
    apply under_bind; [apply under_mesh_modify, drop_peer_mu|intros _].
    apply bal_under, bal_peer_removed. }
  apply gives_under; [apply bal_under; locks|intros order'].
  apply gives_under; [|intros _; apply gives_mesh_Unlock].
  apply under_for_each. intros e. apply under_bind; [apply bal_under; locks|intros now].
  apply under_mesh_modify. intros m. apply join_peer_mu.
Qed.

Lemma close_conn_mu id m : mesh_mu (close_conn id m) = mesh_mu m.
Proof. unfold close_conn. by destruct (conns m !! id). Qed.

Lemma bal_mesh_Stop id : bal Waiting (mesh_Stop (mesh_lens (R:=R) id)).
Proof.
  unfold mesh_Stop. apply (bal_lock Waiting (MeshMu id)); [eauto with locks|].
  apply gives_under; [apply bal_under; locks|intros order].
  apply gives_under; [apply bal_under; locks|intros ids].
  apply gives_under; [|intros _; apply gives_mesh_Unlock].
  apply under_for_each. intros id'. apply under_mesh_modify. intros m. apply close_conn_mu.
Qed.
#[local] Hint Resolve bal_mesh_Stop : locks.

Lemma bal_hb_loop id m info ticks :
  bal Waiting (hb_loop (R:=R) redis_lens (heartbeat_lens id) m info None ticks).
Proof.
  assert (Hs : bal Waiting (hb_stopped (S:=W) (heartbeat_lens id))).
  { unfold hb_stopped, close_done. locks.
    apply balanced_await; [apply _| |by intros s _ _ [|[]]]. intros s x s'.
    destruct (hb_stopCh _); [|done]. intros [= _ <-]. apply unlocking_refl, kept_refl. }
  induction ticks as [|ticks IH]; cbn [hb_loop]; [done|].
  unfold Refresh, hb_report. locks; done.
Qed.

Lemma bal_mesh_Start ticks : bal Waiting (mesh_Start o ticks).
Proof.
  apply (bal_started _ Waiting (MeshWG (o_instanceID o)));
    [done|by apply takes_Add, mesh_wg_counts|]. intros s _. revert s.
  apply gives_under; [by apply wg_under; [| |apply bal_mesh_refresh]|intros _].
  apply gives_under; [apply bal_under; locks|intros _].
  apply gives_ticker_loop; [by right|by apply bal_mesh_refresh|apply gives_Done, mesh_wg_counts].
Qed.

Lemma bal_Close : bal Waiting (Close o).
Proof.
  assert (Hwait : ∀ (P : W → Prop) `{∀ s, Decision (P s)},
    bal Waiting (await (λ s, if decide (P s) then Some (tt, s) else None))).
  { intros P HP. apply balanced_await; [apply _| |by intros s _ _ [|[]]].
    intros s x s'. destruct (decide _); [|done].
    intros [= _ <-]. apply unlocking_refl, kept_refl. }
  unfold Close, hb_Stop, Deregister, srv_Stop. locks.
  apply balanced_await; [apply _| |by intros s _ _ [|[]]]. intros s x s'.
  destruct (hb_doneCh _); [|done]. intros [= _ <-]. apply unlocking_refl, kept_refl.
Qed.

(** A start makes new shards and a new mesh, but no new bucket. *)
Lemma bal_newLimiter ticks ema key p :
  l = BucketMu key p → bal Waiting (newLimiter serve o ticks ema).
Proof.
  intros Hl. unfold newLimiter, srv_Start, srv_Addr, srv_Serve, hb_Start, hb_report, janitor_Start,
    janitor_loop.
  apply bal_bind; [apply _| |intros _].
  { apply balanced_atomically. intros s. cbn [snd]. apply unl_intro.
    - by rewrite Hl.
    - rewrite Hl. intros b Hb. by exists b.
    - by rewrite Hl.
    - intros Hn id i sh. rewrite (proj1 (inst_put _ _ _ _)). case_decide; [|apply Hn].
      cbn [l_shards initial_limiter]. intros Hi. apply lookup_replicate in Hi as [-> _]. done. }
  pose proof bal_mesh_Start. pose proof bal_hb_loop. pose proof bal_evictInactiveKeys.
  repeat (cbv zeta; lazymatch goal with
    | |- bal Waiting (wg_Add ?id ;;; fork _ ;;; _) =>
        apply (bal_started_then _ Waiting (WG id));
          [done|eauto with locks|intros ? _; apply gives_gossipLoop|]
    | |- bal Waiting (ticker_loop _ _ _ _) => apply bal_ticker_loop
    | _ => locks_step end).
  apply balanced_await; [apply _| |by intros s _ _ [|[]]]. intros s x s'.
  destruct (ln_stopped _); [|done]. intros [= _ <-]. apply unlocking_refl, kept_refl.
Qed.

Lemma bal_client fuel key n : bal Waiting (client serve o fuel key n).
Proof.
  unfold client. apply bal_bind; [apply _|apply bal_AllowN|intros [[[] e]|]]; [|locks..].
  apply balanced_atomically. intros s. by apply unlocking_same.
Qed.
End lifecycle.
End allow.

Lemma Default_lock : lock_router NewDefaultRouter.
Proof. split; [intros rc; cbn|done..]. unfold Default_Decide. locks. Qed.

Lemma EMA_lock id : lock_router (NewEMARouter id).
Proof.
  split; cbn [NewEMARouter EMA_router Decide r_RemovePeer r_EvictKeys].
  - intros rc. unfold EMA_Decide. locks.
  - intros f id' [= <-]. unfold EMA_RemovePeer. locks.
  - intros f ks [= <-]. unfold EMA_EvictKeys. locks.
Qed.
End locks.

(** ** Every goroutine of a cluster *)

Section discipline.
Context {R : Type} `{RedisStore R} `{FloatConv} `{GrpcDial} `{NetListen}.
Abbreviation W := (world R).
Context (cluster : list (options W)) (net : string → option (options W)).

Definition unlock (l : lock) : go W unit :=
  match l with
  | BucketMu key p => bucket_Unlock key p
  | ShardW id i => shard_Unlock id i
  | ShardR id i => shard_RUnlock id i
  | MeshMu id => mesh_Unlock (mesh_lens id)
  | WG id => wg_Done id
  | MeshWG id => zoom_modify (inst id f_mesh_wg) pred
  end.

(** Its next action gives the lock back. *)
Definition about_to_unlock (l : lock) (p : go W unit) : Prop :=
  ∃ k, p = (unlock l ;;; k).

(** Requests, calls of others and the background loops of the instances,
    started as [newLimiter] starts them.  An instance that is started anew has
    new shards, a new mesh and new wait groups, so only for the mutexes of
    buckets are whole starts among them. *)
Inductive working (l : lock) : go W unit → Prop :=
| W_client o fuel key n : o ∈ cluster → small n →
    working l (client (serve net) o fuel key n)
| W_start o ticks ema key p : o ∈ cluster → l = BucketMu key p →
    working l (newLimiter (serve net) o ticks ema ;;; Ret tt)
| W_close o : o ∈ cluster → working l (Close o ;;; Ret tt)
| W_transfer o req : o ∈ cluster → 0 <= Requested req →
    working l (TransferTokens (token_server o) req ;;; Ret tt)
| W_gossip o origin cs bs : o ∈ cluster →
    working l (Gossip (token_server o) origin cs bs ;;; Ret tt)
| W_gossipLoop o ticks : o ∈ cluster →
    working l (wg_Add (o_instanceID o) ;;; fork (gossipLoop (serve net) o ticks))
| W_janitor o policy ticks : o ∈ cluster → working l (janitor_loop o policy ticks)
| W_mesh o ticks : o ∈ cluster → working l (mesh_Start o ticks)
| W_heartbeat id m info ticks :
    working l (hb_loop redis_lens (heartbeat_lens id) m info None ticks).

(** The instances can be started without a panic, and their routers keep to
    their own state. *)
Context (cluster_ok : Forall options_sound cluster).
Context (routers_ok : ∀ l o r, o ∈ cluster → o_router o = Some r → lock_router l r).

Lemma serve_token_server addr srv : serve net addr = Some srv →
  ∃ o : options W, srv = token_server o.
Proof. unfold serve. destruct (net addr) as [o|]; [|done]. intros [= <-]. eauto. Qed.

Lemma working_safe l p : working l p → safe well_formed grows p.
Proof.
  pose proof serve_token_server as Hs.
  assert (Hsound : ∀ o, o ∈ cluster → options_sound o) by (by apply Forall_forall).
  destruct 1 as [o fuel key n Ho Hn|o ticks ema key p Ho Hl|o Ho|o req Ho|o origin cs bs Ho
    |o ticks Ho|o policy ticks Ho|o ticks Ho|id m info ticks].
  - by apply (entry_safe cluster net cluster_ok), E_client.
  - by apply (entry_safe cluster net cluster_ok), E_start.
  - by apply (entry_safe cluster net cluster_ok), E_close.
  - by apply (entry_safe cluster net cluster_ok), E_transfer.
  - by apply (entry_safe cluster net cluster_ok), E_gossip.
  - apply (safe_bind well_formed grows); [apply safe_wg_Add|intros _].
    apply safe_fork, safe_gossipLoop, Hs.
  - apply safe_janitor_loop, (os_router o), Hsound, Ho.
  - apply safe_mesh_Start; [apply (os_router o), Hsound, Ho|apply (os_gossip o), Hsound, Ho].
  - apply safe_hb_loop.
Qed.

Abbreviation owns l :=
  (owns well_formed grows no_readers (held l) (kept l) (mutex l) (calm l)).
Abbreviation holder l :=
  (holder_ok well_formed grows no_readers (held l) (kept l) (mutex l) (calm l)).
Abbreviation bal l :=
  (balanced well_formed grows no_readers (held l) (kept l) (mutex l) (calm l) (λ _, True) Waiting).

Lemma working_owns l p s : working l p → owns l p 0 s (λ _ c' _, c' = 0).
Proof.
  intros Hp. enough (bal l p) as Hb by by apply Hb.
  pose proof serve_token_server as Hs.
  destruct Hp as [o fuel key n Ho Hn|o ticks ema key p Ho Hl|o Ho|o req Ho|o origin cs bs Ho
    |o ticks Ho|o policy ticks Ho|o ticks Ho|id m info ticks].
  - apply bal_client; [exact Hs|]. intros r. by apply routers_ok.
  - apply bal_bind; [apply _| |intros; apply balanced_ret].
    eapply bal_newLimiter; [exact Hs| |exact Hl]. intros r. by apply routers_ok.
  - apply bal_bind; [apply _|apply bal_Close|intros; apply balanced_ret].
  - apply bal_bind; [apply _|apply bal_TransferTokens|intros; apply balanced_ret].
  - apply bal_bind; [apply _|apply bal_Gossip|intros; apply balanced_ret].
  - eapply (bal_started _ _ Waiting); [|by apply takes_wg_Add|intros; by apply gives_gossipLoop].
    done.
  - apply bal_ticker_loop; [|apply balanced_ret]. locks.
    apply bal_evictInactiveKeys. intros r. by apply routers_ok.
  - apply bal_mesh_Start. intros r. by apply routers_ok.
  - apply bal_hb_loop.
Qed.

Lemma drift_unlocking l (s s' : W) :
  redis_drift s s' → unlocking no_readers (held l) (kept l) s s'.
Proof. intros (r & -> & _). by apply unlocking_same. Qed.

(** A state the cluster reaches. *)
Lemma reached l s0 ts s :
  well_formed s0 → no_readers s0 → held l s0 = 0 →
  rtc (pool_step (working l) redis_drift) ([], s0) (ts, s) →
  conf_safe well_formed grows (ts, s) ∧
  conf_held well_formed grows no_readers (held l) (kept l) (mutex l) (calm l) (ts, s).
Proof.
  intros Hwf Hn Hh Hrun.
  assert (Hc0 : conf_safe well_formed grows ([], s0)) by by split; [|constructor].
  split.
  - eapply (pool_stays_safe well_formed grows);
      [apply working_safe|apply drift_safe|exact Hc0|done].
  - eapply (pool_held well_formed grows); [apply working_safe|apply drift_safe|
      intros; by apply working_owns|apply drift_unlocking|apply kept_refl
      |exact Hc0| |exact Hrun].
    split; [done|]. exists []. split; [constructor|done].
Qed.

(** A lock there is: a limiter has 64 shards. *)
Definition real (l : lock) : Prop :=
  match l with ShardW _ i | ShardR _ i => (i < 64)%nat | _ => True end.

(** The state with a shard's mutex as [mu]. *)
Lemma with_mutex id i mu (s : W) :
  well_formed s → no_readers s → (i < 64)%nat → (rw_writer mu = true → rw_readers mu = 0%nat) →
  ∃ sh, let s1 := set_shard id i (mkBShard mu (buckets sh)) s in
    grows s s1 ∧ well_formed s1 ∧ no_readers s1 ∧
    shards_of id s1 !! i = Some (mkBShard mu (buckets sh)).
Proof.
  intros Hwf Hn Hi Hmu. destruct (lookup_lt_is_Some_2 (shards_of id s) i) as [sh Hsh].
  { change (i < length (l_shards (lget (inst_lens id) s)))%nat.
    by rewrite (lo_length s _ (Hwf id)). }
  exists sh. cbv zeta.
  destruct (well_formed_put id (lput f_shards (<[i:=mkBShard mu (buckets sh)]>
    (l_shards (lget (inst_lens id) s))) (lget (inst_lens id) s)) s Hwf) as [Hwf1 Hg].
  { eapply limiter_ok_shard; [exact Hsh| |apply Hwf]. intros key p.
    by apply (lo_tables s _ (Hwf id) i sh). }
  split; [exact Hg|]. split; [exact Hwf1|]. split; [by apply (set_shard_readers id i sh)|].
  rewrite (set_shard_lookup id i sh) by done. by rewrite decide_True.
Qed.

(** Any state can be followed by one in which the lock is held once. *)
Lemma locked_once l (s : W) :
  well_formed s → no_readers s → real l →
  ∃ s1, grows s s1 ∧ well_formed s1 ∧ no_readers s1 ∧ held l s1 = 1.
Proof.
  intros Hwf Hn Hl.
  assert (Hfield : ∀ {T} (f : lens limiter T) (P : T → Prop) `{!FieldOk (R:=R) f P} id t, P t →
    let s1 := lput (inst (R:=R) id f) t s in grows s s1 ∧ well_formed s1).
  { intros T f P Hf id t Ht.
    by destruct (@safe_lput _ well_formed grows _ (inst id f) P _ s t Hwf Ht). }
  destruct l as [key p|id i|id i|id|id|id]; cbn [real] in Hl.
  - set (b := with_mu true (newBucket key 0 Fixed 1 0)).
    set (s1 := put_heap key (<[p:=b]> (heap_of key s ++ replicate (S p) b)) s). exists s1.
    destruct (well_formed_same s s1) as [Hwf1 Hg]; [done| |done|].
    { apply grows_same; [|done..]. intros key'. unfold s1. rewrite heap_of_put.
      case_decide as E; [|done]. rewrite E, length_insert, length_app. lia. }
    split; [done|]. split; [done|]. split; [exact Hn|]. cbn [held]. unfold s1.
    rewrite heap_of_put, decide_True, list_lookup_insert_eq; [done| |done].
    rewrite length_app, length_replicate. lia.
  - destruct (with_mutex id i (mkMutex true 0) s) as (sh & Hg & Hwf1 & Hn1 & Hi); [done..|].
    eexists. split; [exact Hg|]. split; [exact Hwf1|]. split; [exact Hn1|].
    cbn [held]. by rewrite Hi.
  - destruct (with_mutex id i (mkMutex false 1) s) as (sh & Hg & Hwf1 & Hn1 & Hi); [done..|].
    eexists. split; [exact Hg|]. split; [exact Hwf1|]. split; [exact Hn1|].
    cbn [held]. by rewrite Hi.
  - destruct (Hfield _ f_mesh accounted _ id (with_mesh_mu true (mesh_of id s))) as [Hg Hwf1].
    { apply accounted_mu, (lo_mesh s _ (Hwf id)). }
    eexists. split; [exact Hg|]. split; [exact Hwf1|]. split; [by apply set_mesh_readers|].
    cbn [held]. unfold mesh_of, mesh_lens. by rewrite lget_put.
  - destruct (wg_counts (R:=R) (WG id) id) as (_ & _ & Hr & _ & _).
    destruct (Hfield _ f_wg (λ _, True) _ id 1%nat I) as [Hg Hwf1].
    eexists. split; [exact Hg|]. split; [exact Hwf1|]. split; [by apply Hr|].
    cbn [held]. unfold wg_of. by rewrite lget_put.
  - destruct (mesh_wg_counts (R:=R) (MeshWG id) id) as (_ & _ & Hr & _ & _).
    destruct (Hfield _ f_mesh_wg (λ _, True) _ id 1%nat I) as [Hg Hwf1].
    eexists. split; [exact Hg|]. split; [exact Hwf1|]. split; [by apply Hr|].
    cbn [held]. unfold mesh_wg_of. by rewrite lget_put.
Qed.

Lemma gives_unlock l : real l → gives (R:=R) l Waiting l (unlock l).
Proof.
  destruct l; intros Hl; [apply gives_bucket_Unlock|by apply gives_shard_Unlock
    |by apply gives_shard_RUnlock
    |apply gives_mesh_Unlock|apply gives_wg_Done|apply gives_Done, mesh_wg_counts].
Qed.
Lemma safe_unlock l : safe well_formed grows (unlock l).
Proof.
  destruct l as [key p|id i|id i|id|id|id]; cbn [unlock]; [|apply safe_shard_Unlock
    |apply safe_shard_RUnlock|apply safe_mesh_Unlock|apply safe_wg_Done|safe].
  apply safe_bucket_Unlock.
Qed.
Lemma unlock_await l :
  ∃ f, unlock l = await f ∧ (mutex l = false → ∀ s, is_Some (f s)).
Proof. destruct l; (eexists; split; [reflexivity|]); [done..| |]; intros _ s; by eexists. Qed.

(** Giving back what was not taken would leave a state in which it is held by
    nobody; so whoever is about to give it back has it. *)
Lemma unlock_owes l (k : go W unit) c Q (s : W) :
  well_formed s → no_readers s → real l → 0 <= c →
  owns l (unlock l ;;; k) c s Q → 1 <= c.
Proof.
  intros Hwf Hn Hl Hc Hp. destruct (decide (1 <= c)) as [|Hlt]; [done|].
  replace c with 0 in * by lia.
  destruct (locked_once l s Hwf Hn Hl) as (s1 & Hg & Hwf1 & Hn1 & Hh).
  pose proof (gives_unlock l Hl s 0 ltac:(done) ltac:(done)) as Hgive.
  pose proof (safe_unlock l s) as Hsafe. destruct (unlock_await l) as (f & Ef & Hf).
  rewrite Ef in *. unfold once in Hgive. rewrite decide_True in Hgive by done.
  destruct (Hgive s1 Hg Hwf1 Hn1) as [Hsome Hstep]; [lia|].
  assert (is_Some (f s1)) as [[x s2] E].
  { destruct (mutex l) eqn:Hm; [|by apply Hf]. apply Hsome. split; [lia|by left]. }
  destruct (Hsafe s1 x s2 Hg Hwf1 E) as (Hwf2 & Hg2 & _).
  destruct (Hstep x s2 E) as (_ & _ & _ & Hret). specialize (Hret Hwf2 Hg2 s2 ltac:(reflexivity)).
  destruct (Hp s1 Hg Hwf1 Hn1 ltac:(lia)) as [_ Hp']. destruct (Hp' x s2 E) as (_ & _ & H0' & _).
  cbn in Hret. lia.
Qed.

Lemma held_once l (s : W) : ¬ shared l → held l s <= 1.
Proof.
  intros Hl. destruct l as [key p|id i|id i|id|id|id]; cbn [held shared] in *; [..|done|done].
  - destruct (_ !! p) as [b|]; [|lia]. by destruct (b_mu b).
  - destruct (_ !! i) as [sh|]; [|lia]. by destruct (rw_writer _).
  - done.
  - by destruct (mesh_mu _).
Qed.

(** What two goroutines about to give the lock back hold together. *)
Lemma holders_two l (s : W) (ts : list (go W unit)) cs i j p q :
  well_formed s → no_readers s → real l → Forall2 (holder l s) ts cs →
  i ≠ j → ts !! i = Some p → ts !! j = Some q →
  about_to_unlock l p → about_to_unlock l q → 2 <= zsum cs.
Proof.
  intros Hwf Hn Hl Hts Hij Hi Hj [k ->] [k' ->].
  destruct (Forall2_lookup_l _ _ _ _ _ Hts Hi) as (c & Hci & Hc & Hp).
  destruct (Forall2_lookup_l _ _ _ _ _ Hts Hj) as (d & Hdj & Hd & Hq).
  apply (unlock_owes l k c _ s Hwf Hn Hl Hc) in Hp.
  apply (unlock_owes l k' d _ s Hwf Hn Hl Hd) in Hq.
  apply holders_nonneg in Hts. pose proof (zsum_lookup2 cs i j c d Hts Hij Hci Hdj). lia.
Qed.

Lemma holders_done l s (ts : list (go W unit)) cs :
  Forall2 (holder l s) ts cs → Forall (λ p, p = Ret tt) ts → zsum cs = 0.
Proof.
  induction 1 as [|p c ts cs [_ Hp] _ IH]; [done|]. intros [-> Hts]%Forall_cons.
  cbn in Hp |- *. rewrite (Hp s ltac:(reflexivity)). by apply IH.
Qed.


(** C6: the locks and wait groups do their work.  In every state a cluster
    reaches, under every interleaving of requests, calls between instances and
    background loops, and for every lock: a goroutine about to give it back
    holds it; no two goroutines are about to, unless it is shared; what the lock
    protects is changed by no step of anybody while nobody holds it; once all
    have returned nobody holds it; and a shard being written has no reader.  For
    a wait group: [Done] never finds it at zero, and it is at zero when every
    goroutine has returned, so [Close] waits for none that is gone. *)
Theorem lock_discipline l s0 (ts : list (go W unit)) s :
  well_formed s0 → no_readers s0 → real l → held l s0 = 0 →
  rtc (pool_step (working l) redis_drift) ([], s0) (ts, s) →
  (∀ i p, ts !! i = Some p → about_to_unlock l p → 1 <= held l s) ∧
  (∀ i j p q, i ≠ j → ts !! i = Some p → ts !! j = Some q →
     about_to_unlock l p → about_to_unlock l q → shared l) ∧
  (∀ y, pool_step (working l) redis_drift (ts, s) y → held l s = 0 → same_data l s y.2) ∧
  (Forall (λ p, p = Ret tt) ts → held l s = 0) ∧ no_readers s.
Proof.
  intros Hwf0 Hn0 Hl Hh0 Hrun. destruct (reached l s0 ts s Hwf0 Hn0 Hh0 Hrun) as [Hsafe Hc].
  pose proof Hc as [Hn (cs & Hts & Hsum)]. pose proof Hsafe as [Hwf _].
  cbn in Hn, Hts, Hsum, Hwf. split; [|split; [|split; [|split]]].
  - intros i p Hi [k ->]. destruct (Forall2_lookup_l _ _ _ _ _ Hts Hi) as (c & Hci & Hc0 & Hp).
    apply (unlock_owes l k c _ s Hwf Hn Hl Hc0) in Hp. apply holders_nonneg in Hts.
    pose proof (zsum_lookup cs i c Hts Hci). lia.
  - intros i j p q Hij Hi Hj Hp Hq.
    pose proof (holders_two l s ts cs i j p q Hwf Hn Hl Hts Hij Hi Hj Hp Hq).
    destruct (decide (shared l)) as [|Hne]; [done|].
    pose proof (held_once l s Hne). lia.
  - intros y Hy Hh. destruct (pool_step_held well_formed grows no_readers (held l) (kept l)
      (mutex l) (calm l) (working l) redis_drift (working_safe l) drift_safe (working_owns l)
      (drift_unlocking l) (kept_refl l) (ts, s) y Hsafe Hc Hy) as (_ & c & Hc0 & HD & _).
    apply HD. cbn in Hc0. lia.
  - intros Hdone. rewrite <- Hsum. by eapply holders_done.
  - exact Hn.
Qed.

(** C7: nobody keeps a mutex.  In every state a cluster reaches in which a
    mutex of a bucket, a shard or a mesh is held, one of its holders can always
    go on: running alone, it gives the mutex back after finitely many steps,
    whatever Redis, the peers and the clock answer.  So no goroutines deadlock
    on these mutexes. *)
Theorem mutex_given_back l s0 (ts : list (go W unit)) s :
  mutex l = true → well_formed s0 → no_readers s0 → held l s0 = 0 →
  rtc (pool_step (working l) redis_drift) ([], s0) (ts, s) →
  1 <= held l s → ∃ i, inevitably (λ j, j = i) (λ y, held l y.2 < held l s) (ts, s).
Proof.
  intros Hm Hwf0 Hn0 Hh0 Hrun Hh. destruct (reached l s0 ts s Hwf0 Hn0 Hh0 Hrun) as [Hsafe Hc].
  destruct Hc as [Hn (cs & Hts & Hsum)]. cbn in Hn, Hts, Hsum.
  pose proof (holders_nonneg _ _ _ _ _ _ _ _ _ _ Hts) as Hcs.
  destruct (zsum_pos cs Hcs) as (i & c & Hci & Hc1); [lia|].
  destruct (Forall2_lookup_r _ _ _ _ _ Hts Hci) as (p & Hp & Hw). exists i.
  pose proof (zsum_lookup cs i c Hcs Hci).
  by eapply (holder_gives_back well_formed grows); [exact Hm|exact Hsafe|exact Hn|exact Hp
    |exact Hw|cbn; lia].
Qed.
End discipline.

(** ** Runs, for the witnesses *)

Section demonstration.
Abbreviation W := (world mem_redis).
Let net : NetListen := {| Listen_err _ := None; Listen_addr a := a |}.
Abbreviation demo_working l := (@working _ _ _ always_dials net [demo] demo_net l).

Lemma demo_routers l (o : options W) r :
  o ∈ [demo] → o_router o = Some r → lock_router l r.
Proof. intros ->%list_elem_of_singleton [= <-]. apply Default_lock. Qed.

Lemma demo_no_readers : no_readers demo_start.
Proof.
  intros id i sh Hi. change (no_shards !! i = Some sh) in Hi.
  apply lookup_replicate in Hi as [-> _]. discriminate.
Qed.

Lemma demo_cluster_sound : Forall options_sound [demo].
Proof. constructor; [apply demo_sound|constructor]. Qed.

Lemma demo_works l : demo_working l demo_client.
Proof. apply W_client; [by left|]. unfold small. lia. Qed.

(** The first [n] actions of one goroutine that starts no other. *)
Fixpoint first {S : Type} (env : environment) (n : nat) (p : go S unit) (s : S) :
    option (go S unit * S) :=
  match n, p with
  | O, _ => Some (p, s)
  | S n, Step f k =>
      match f s with Some (x, s') => first env n (k x) s' | None => None end
  | S n, Ask q k => first env n (k (env _ q 0%nat)) s
  | S _, _ => None
  end.

Lemma first_run {S} (entry : go S unit → Prop) env_step env n :
  (∀ X (q : question X) i, valid_answer q (env X q i)) → ∀ ts i p s p' s',
  ts !! i = Some p → first env n p s = Some (p', s') →
  rtc (pool_step entry env_step) (ts, s) (<[i:=p']> ts, s').
Proof.
  intros Henv. induction n as [|n IH]; intros ts i p s p' s' Hi.
  - intros [= <- <-]. rewrite list_insert_id by done. apply rtc_refl.
  - assert (Hnext : ∀ q s1, thread_step p s q s1 [] → first env n q s1 = Some (p', s') →
      rtc (pool_step entry env_step) (ts, s) (<[i:=p']> ts, s')).
    { intros q s1 Hstep E. eapply rtc_l; [by eapply (PS_thread _ _ ts s i)|].
      rewrite app_nil_r. rewrite <- (list_insert_insert_eq ts i p' q).
      eapply IH; [|exact E]. apply list_lookup_insert_eq. by eapply lookup_lt_Some. }
    destruct p as [a|X f k|X q k|t k|m]; cbn; [done| | |done|done].
    + destruct (f s) as [[x s1]|] eqn:Hf; [|done]. apply Hnext. by exists x.
    + apply Hnext. exists (env X q 0%nat). by repeat split.
Qed.

(** The one request of the demonstration cluster of RateLimit is answered and
    has left the mutex of its bucket free. *)
Lemma lock_discipline_witness :
  ∃ (ts : list (go W unit)) (s : W),
    admitted "k" s = 5 ∧ (Forall (λ p, p = Ret tt) ts → held (BucketMu "k" 0) s = 0).
Proof.
  destruct (checked demo_ok (clock_env (60000 * Second)) 0 demo_client demo_start)
    as [s|] eqn:E; [|exfalso; vm_compute in E; discriminate E].
  destruct (checked_run (λ _, True) (demo_working (BucketMu "k" 0))
    redis_drift demo_ok (clock_env (60000 * Second)) demo_client demo_start s)
    as [ts Hr]; [done|apply clock_env_ok|apply demo_works|exact E|].
  assert (Hrun : rtc (pool_step (demo_working (BucketMu "k" 0)) redis_drift)
    ([], demo_start) (ts, s)) by (eapply rtc_subrel; [|exact Hr]; by intros ? ? (_ & _ & ?)).
  exists ts, s. split; [revert E; vm_compute; intros [= <-]; reflexivity|].
  eapply (@lock_discipline _ _ _ always_dials net [demo] demo_net); [..|exact Hrun].
  - apply demo_cluster_sound.
  - apply demo_routers.
  - apply fresh_well_formed, demo_fresh.
  - apply demo_no_readers.
  - done.
  - reflexivity.
Defined.

(** The same request three actions later: it reads the map of its shard. *)
Lemma mutex_given_back_witness :
  ∃ (p : go W unit) (s : W), held (ShardR "a" (shard_of "k")) s = 1 ∧
    ∃ i, inevitably (λ j, j = i) (λ y, held (ShardR "a" (shard_of "k")) y.2 < 1) ([p], s).
Proof.
  assert (Hh : match first (clock_env (60000 * Second)) 3 demo_client demo_start with
    | Some (_, s) => held (ShardR "a" (shard_of "k")) s =? 1 | None => false end = true)
    by (vm_compute; reflexivity).
  destruct (first _ _ _ _) as [[p s]|] eqn:E; [|done]. apply Z.eqb_eq in Hh.
  exists p, s. split; [exact Hh|].
  cut (∃ i, inevitably (λ j, j = i) (λ y, held (ShardR "a" (shard_of "k")) y.2
    < held (ShardR "a" (shard_of "k")) s) ([p], s)); [by rewrite Hh|].
  eapply (@mutex_given_back _ _ _ always_dials net [demo] demo_net) with (s0 := demo_start).
  - apply demo_cluster_sound.
  - apply demo_routers.
  - reflexivity.
  - apply fresh_well_formed, demo_fresh.
  - apply demo_no_readers.
  - reflexivity.
  - eapply rtc_l; [apply (PS_spawn _ _ [] demo_start demo_client), demo_works|].
    eapply (first_run _ _ _ _ (clock_env_ok _) [demo_client] 0); [done|exact E].
  - by rewrite Hh.
Defined.
End demonstration.
