(* ===== verification/Termination.v ===== *)
(** * Termination: the loop of [AllowN] ends

    The [for] loop of [AllowN] has no bound of its own.  Every iteration that
    goes round either asks the peers, which happens once, or finds the pool
    exhausted, which a conforming router does not ask again, or was granted
    tokens, which leaves fewer in the pool.  For one goroutine running alone
    this bounds the number of iterations by what the pool holds. *)

From S2P Require Export RateLimit.

(** ** What a goroutine running alone does *)

Section runs.
Context {S : Type} (env : environment).

Definition runs {A} (p : go S A) (s : S) (Q : A → S → Prop) : Prop :=
  ∀ i a s' fs j, exec env i p s = Done a s' fs j → Q a s'.

Lemma runs_ret {A} (a : A) s (Q : A → S → Prop) : Q a s → runs (Ret a) s Q.
Proof. intros HQ i a' s' fs j [= <- <- _ _]. done. Qed.

Lemma runs_bind {A B} (p : go S A) (k : A → go S B) s Q :
  runs p s (λ a s', runs (k a) s' Q) → runs (bind p k) s Q.
Proof.
  intros Hp i b s' fs j. rewrite exec_bind.
  destruct (exec env i p s) as [a s1 fs1 j1| |] eqn:E; [|done..].
  specialize (Hp i a s1 fs1 j1 E).
  destruct (exec env j1 (k a) s1) as [b' s2 fs2 j2| |] eqn:E2; [|done..].
  intros [= <- <- _ _]. by eapply Hp.
Qed.

Lemma runs_mono {A} (p : go S A) s (Q Q' : A → S → Prop) :
  runs p s Q → (∀ a s', Q a s' → Q' a s') → runs p s Q'.
Proof. intros Hp HQ i a s' fs j E. by eapply HQ, Hp. Qed.

Lemma runs_ask {X} (q : question X) s (Q : X → S → Prop) :
  (∀ i, Q (env _ q i) s) → runs (ask q) s Q.
Proof. intros HQ i x s' fs j [= <- <- _ _]. apply HQ. Qed.

Lemma runs_atomically {A} (f : S → A * S) s (Q : A → S → Prop) :
  Q (f s).1 (f s).2 → runs (atomically f) s Q.
Proof.
  intros HQ i a s' fs j. cbn. destruct (f s) as [a0 s0]. intros [= <- <- _ _].
  exact HQ.
Qed.

Lemma runs_panic {A} m s (Q : A → S → Prop) : runs (Panic m) s Q.
Proof. intros i a s' fs j E. done. Qed.

Context (Henv : ∀ X (q : question X) i, valid_answer q (env X q i)).

Lemma runs_quiet {A} (E : S → S → Prop) `{!Reflexive E, !Transitive E}
    (p : go S A) s (Q : A → S → Prop) :
  quiet E p → (∀ a s', E s s' → Q a s') → runs p s Q.
Proof.
  intros Hp HQ i a s' fs j Hex. apply HQ. clear HQ Q.
  revert i s s' fs j a Hp Hex.
  induction p as [A a|A X f k IH|A X q k IH|A t _ k IH|A m];
    intros i s s' fs j a' Hp Hex; cbn in Hp, Hex.
  - injection Hex as _ <- _ _. done.
  - destruct Hp as [Hf Hk]. destruct (f s) as [[x s1]|] eqn:Hs; [|done].
    transitivity s1; [by eapply Hf|by eapply IH].
  - eapply IH; [|done]. by apply Hp.
  - destruct Hp as [_ Hk]. destruct (exec env i k s) as [a1 s1 fs1 j1| |] eqn:E1;
      [|done..]. injection Hex as <- <- _ _. by eapply IH.
  - done.
Qed.

Lemma runs_post {A} (p : go S A) s (P : A → Prop) (Q : A → S → Prop) :
  post p P → runs p s Q → runs p s (λ a s', P a ∧ Q a s').
Proof.
  intros Hp HQ i a s' fs j E. split; [|by eapply HQ].
  by eapply (post_exec env p P Henv Hp).
Qed.
End runs.

(** ** The pool of a key, and who leaves it alone *)

Section termination.
Context {R : Type} `{RedisLaws R} `{FloatConv} (κ : string).
Abbreviation W := (world R).

(** The pool of [κ] and the managers' configurations are as they were. *)
Definition same_pool (s s' : W) : Prop :=
  pool_of κ s' = pool_of κ s ∧ (mgrs_ok s → mgrs_ok s').

#[local] Instance same_pool_refl : Reflexive same_pool.
Proof. done. Qed.
#[local] Instance same_pool_trans : Transitive same_pool.
Proof. intros s1 s2 s3 [E1 M1] [E2 M2]. split; [congruence|auto]. Qed.

Lemma same_accounts_pool s s' : same_accounts κ s s' → same_pool s s'.
Proof. intros Hs. split; [by destruct Hs|apply Hs]. Qed.

Lemma quiet_pool {A} (p : go W A) :
  quiet (same_accounts κ) p → quiet same_pool p.
Proof. apply quiet_mono, same_accounts_pool. Qed.

(** Buckets and channels are not in Redis. *)
Lemma pool_on_bucket {X} key p (f : bucket → X * bucket) :
  quiet same_pool (on_bucket key p f).
Proof.
  apply quiet_await. intros s x s' Hs.
  destruct (heap_of key s !! p) as [b|]; [|done].
  destruct (f b). injection Hs as _ <-. done.
Qed.

Lemma pool_getOrCreateBucket (o : options W) key :
  quiet same_pool (getOrCreateBucket o key).
Proof.
  unfold getOrCreateBucket.
  apply quiet_bind; [apply quiet_pool, quiet_with_shard|intros _].
  apply quiet_bind; [apply quiet_pool, quiet_with_shard|intros hit].
  apply quiet_bind; [apply quiet_pool, quiet_with_shard|intros _].
  destruct hit; [exact I|].
  apply quiet_bind; [apply quiet_pool, quiet_with_shard|intros _].
  apply quiet_bind; [apply quiet_pool, quiet_with_shard|intros [p|]].
  - apply quiet_bind; [apply quiet_pool, quiet_with_shard|intros; exact I].
  - apply quiet_bind; [apply quiet_ask|intros now].
    apply quiet_bind; [by apply quiet_atomically|intros p].
    apply quiet_bind; [apply quiet_pool, quiet_with_shard|intros _].
    apply quiet_bind; [apply quiet_pool, quiet_with_shard|intros; exact I].
Qed.

Lemma pool_make_chan key cap : quiet same_pool (make_chan (S:=W) chans_lens key cap).
Proof. by apply quiet_zoom. Qed.

Lemma pool_send key ch v : quiet same_pool (send (S:=W) chans_lens key ch v).
Proof.
  apply quiet_await. cbv zeta. intros s x s' Hs.
  destruct (chans_of _ _ !! ch) as [c|]; [|done].
  destruct (_ <? _)%nat; [|done]. by injection Hs as _ <-.
Qed.

Lemma pool_recv key ch : quiet same_pool (recv (S:=W) chans_lens key ch).
Proof.
  apply quiet_await. cbv zeta. intros s x s' Hs.
  destruct (chans_of _ _ !! ch) as [[cap [|m buf]]|]; [done| |done].
  by injection Hs as _ <-.
Qed.

Lemma pool_TransferTokens (o : options W) req :
  quiet same_pool (TransferTokens (token_server o) req).
Proof.
  unfold TransferTokens. destruct (ValidateTransferRequest req); [exact I|].
  destruct (decide _); [exact I|].
  cbn [tokenAccessor tokenTransferer token_server SetGossipHandler
    SetTokenTransferer SetTokenAccessor].
  apply quiet_bind; [|intros [surplus [e|]]; [exact I|]].
  { apply quiet_bind; [apply pool_getOrCreateBucket|intros p].
    apply quiet_bind; [apply pool_on_bucket|intros; exact I]. }
  destruct (surplus =? 0); [exact I|].
  apply quiet_bind; [|intros [g [e|]]; exact I].
  apply quiet_bind; [apply pool_getOrCreateBucket|intros p].
  apply quiet_bind; [apply pool_on_bucket|intros rem]. cbv zeta.
  destruct (_ =? 0); [exact I|].
  apply quiet_bind; [apply pool_on_bucket|intros; exact I].
Qed.

Section peers.
Context (serve : string → option (TokenServer W)).
Context (serve_ok : ∀ addr srv, serve addr = Some srv →
           ∃ o, srv = token_server o).
Context (o : options W).
Let lookup := limiter_lookup o.
Let ranker := limiter_ranker o.
Let requester := limiter_requester serve.
#[local] Existing Instances lookup ranker requester.
Let a := limiter_acquirer o.

Lemma pool_probe id key need surplus :
  quiet same_pool (probe (C:=conn) a id key need surplus).
Proof.
  assert (Hemit : ∀ r, quiet same_pool (emitProbeResult a key id r))
    by (intros; apply quiet_pool, quiet_emit).
  unfold probe. apply quiet_bind; [apply quiet_pool, quiet_lookup|].
  intros [client|].
  - apply quiet_bind; [|intros [g [e|]]].
    + cbn [RequestTokens requester limiter_requester grpc_requester].
      unfold PC_RequestTokens, rpc. apply quiet_bind; [|intros []; exact I].
      apply quiet_bind; [apply quiet_ask|].
      destruct (serve (c_addr client)) as [srv|] eqn:Hs; [|intros []; exact I].
      destruct (serve_ok _ _ Hs) as [o' ->]. intros [|e|e]; [|exact I|].
      * apply quiet_bind; [apply pool_TransferTokens|intros []; exact I].
      * apply quiet_bind; [|intros; exact I]. apply quiet_fork.
        apply quiet_bind; [apply pool_TransferTokens|intros; exact I].
    + apply quiet_bind; [apply Hemit|intros; exact I].
    + destruct (0 <? g); (apply quiet_bind; [apply Hemit|intros; exact I]).
  - apply quiet_bind; [|intros; exact I].
    destruct (0 <? surplus); [apply Hemit|exact I].
Qed.

Lemma pool_extra_tokens key g : quiet same_pool (extra_tokens o key g).
Proof.
  apply quiet_bind; [apply pool_getOrCreateBucket|intros p].
  apply quiet_bind; [apply pool_on_bucket|intros _].
  apply quiet_pool, quiet_metric.
Qed.

Lemma pool_drain_late key ch rem :
  quiet same_pool (drain_late chans_lens a key ch rem).
Proof.
  induction rem as [|rem IH]; [exact I|]. cbn [drain_late].
  apply quiet_bind; [apply pool_recv|intros [g err]].
  apply quiet_bind; [|intros _; apply IH]. unfold a. rewrite onExtraTokens_a.
  destruct err; [exact I|]. destruct (0 <? g); [|exact I].
  apply pool_extra_tokens.
Qed.

Lemma pool_collect key ch active :
  quiet same_pool (collect chans_lens a key ch active).
Proof.
  induction active as [|rest IH]; [exact I|]. cbn [collect].
  apply quiet_bind; [apply quiet_ask|intros [e|]].
  - apply quiet_bind; [apply quiet_fork, (pool_drain_late key ch (Datatypes.S rest))|].
    intros _. exact I.
  - apply quiet_bind; [apply pool_recv|intros [g [e|]]; [apply IH|]].
    destruct (0 <? g); [|apply IH].
    apply quiet_bind; [apply quiet_fork, pool_drain_late|intros; exact I].
Qed.

Lemma pool_probeSequential l key need :
  quiet same_pool (probeSequential (C:=conn) a l key need).
Proof.
  induction l as [|e l IH]; [exact I|]. cbn [probeSequential].
  apply quiet_bind; [apply quiet_ask|intros [err|]; [exact I|]].
  apply quiet_bind; [apply pool_probe|intros [g [e'|]]; [apply IH|]].
  destruct (0 <? g); [exact I|apply IH].
Qed.

Lemma pool_acq_Acquire key need cb :
  (∀ g, quiet same_pool (cb g)) →
  quiet same_pool (acq_Acquire (C:=conn) chans_lens a key need (Some cb)).
Proof.
  intros Hcb. unfold acq_Acquire.
  apply quiet_bind; [apply quiet_ask|intros shared].
  apply quiet_bind; [|intros [v [e|]]; exact I].
  destruct shared; [exact I|].
  apply quiet_bind; [|intros [g err]; apply quiet_bind; [|intros; exact I];
    destruct err; [exact I|]; destruct (0 <? g); [apply Hcb|exact I]].
  unfold acquire. apply quiet_bind; [apply quiet_pool, quiet_g_TopK|].
  intros [|e l]; [exact I|]. destruct (mode a); [|apply pool_probeSequential].
  unfold probeParallel. apply quiet_bind; [apply pool_make_chan|intros ch].
  apply quiet_bind; [|intros _; apply pool_collect].
  apply quiet_for_each. intros e'. apply quiet_fork.
  apply quiet_bind; [apply pool_probe|intros r; apply pool_send].
Qed.
End peers.

(** ** Every grant shrinks the pool *)

Context (env : environment).
Context (Henv : ∀ X (q : question X) i, valid_answer q (env X q i)).
(** The goroutine runs alone: it leads its own singleflight calls. *)
Context (Halone : ∀ i, env _ (QShared κ) i = None).

Definition pool_at (m : Z) (s : W) : Prop :=
  pool_of κ s = m ∧ small m ∧ mgrs_ok s.

Lemma pool_at_same m s s' : pool_at m s → same_pool s s' → pool_at m s'.
Proof. intros (Hp & Hm & Hs) [Hp' Hs']. split; [congruence|]. by split; [|auto]. Qed.

Abbreviation eruns := (runs env).

Lemma runs_same {A} (p : go W A) m s (Q : A → W → Prop) :
  pool_at m s → quiet same_pool p → (∀ a s', pool_at m s' → Q a s') →
  eruns p s Q.
Proof.
  intros Hs Hp HQ. apply (runs_quiet env Henv same_pool); [done|].
  intros a s' Hs'. apply HQ. by eapply pool_at_same.
Qed.

Lemma runs_same_bind {A B} (p : go W A) (k : A → go W B) m s Q :
  pool_at m s → quiet same_pool p →
  (∀ a s', pool_at m s' → eruns (k a) s' Q) → eruns (bind p k) s Q.
Proof. intros. apply runs_bind. by eapply runs_same. Qed.

Lemma runs_borrow_script id req ttl now m s :
  id_ok id → small req → pool_at m s →
  eruns (zoom redis_lens (run_body BorrowScript
           [PoolKey κ; BorrowedKey κ id] [req; ttl; now])) s
    (λ v s', ∃ g, v = RInt g ∧ 0 <= g <= req ∧ g <= m ∧ pool_at (m - g) s').
Proof.
  intros Hid Hreq (Hp & Hm & Hs). apply runs_atomically.
  cbn [lget redis_lens run_body].
  destruct (borrowLua (PoolKey κ) (BorrowedKey κ id) req ttl now
              (rw_store (w_redis s))) as [g r] eqn:E. cbn [fst snd].
  unfold pool_of, small in *.
  destruct (borrowLua_spec (PoolKey κ) (BorrowedKey κ id) req ttl now
              (rw_store (w_redis s)) g r) as [Hg Hr]; [| | | | |exact E|].
  - intros Heq. by apply (proj1 (Hid κ κ)).
  - lia.
  - unfold lua_ok. lia.
  - unfold lua_ok. lia.
  - lia.
  - rewrite Hp in Hg, Hr. exists g. split; [done|]. split; [lia|]. split; [lia|].
    split; [exact Hr|]. split; [unfold small; lia|exact Hs].
Qed.

(** What a borrow leaves: a pool that shrank if it granted anything. *)
Definition borrowed_from (m : Z) (r : Z * option error) (s' : W) : Prop :=
  ∃ m', pool_at m' s' ∧ m' <= m ∧ (r.2 = None → 0 < r.1 → m' < m).

Lemma runs_redis_eval_borrow id req ttl now m s :
  id_ok id → small req → pool_at m s →
  eruns (redis_eval redis_lens BorrowScript
           [PoolKey κ; BorrowedKey κ id] [req; ttl; now]) s
    (λ r s', ∃ g, 0 <= g <= req ∧ g <= m ∧ pool_at (m - g) s' ∧
                  (r.2 = None → r.1 = RInt g)).
Proof.
  intros Hid Hreq Hs. pose proof Hs as (_ & Hm & _). unfold redis_eval, small in *.
  apply runs_bind, runs_ask. intros i. destruct (env transport QTransport i).
  - apply runs_bind. eapply runs_mono; [by apply runs_borrow_script|].
    intros v s' (g & -> & Hg & Hgm & Hs'). apply runs_ret. eauto 10.
  - apply runs_ret. exists 0. rewrite Z.sub_0_r. split; [lia|]. split; [lia|].
    by split.
  - apply runs_bind. eapply runs_mono; [by apply runs_borrow_script|].
    intros v s' (g & -> & Hg & Hgm & Hs'). apply runs_ret. exists g. by split.
Qed.

Lemma runs_RP_Borrow id requested ttl m s :
  id_ok id → small requested → pool_at m s →
  eruns (RP_Borrow redis_lens NewRedisPool κ id requested ttl) s (borrowed_from m).
Proof.
  intros Hid Hreq Hs. unfold RP_Borrow. apply runs_bind, runs_ask. intros i.
  rewrite (to_i64_small requested) by (unfold small in *; go_lia).
  apply runs_bind. unfold runScript. cbn [scripts NewRedisPool].
  change ((_ : gmap string Script) !! "borrow") with (Some BorrowScript).
  cbn beta iota. apply runs_bind.
  assert (Hfin : ∀ r g (m1 : Z) s', m1 <= m → 0 <= g <= requested → g <= m1 →
    pool_at (m1 - g) s' → (r.2 = None → r.1 = RInt g) →
    eruns (let '(result, err) := r in
           match err with
           | Some e => Ret (0, Some (ErrWrap "borrow script" e))
           | None => Ret (toUint64 result)
           end) s' (borrowed_from m)).
  { intros [v [e|]] g m1 s' Hm1 Hg Hgm Hs' Hv; cbn in Hv.
    - apply runs_ret. exists (m1 - g). split; [done|]. split; [lia|done].
    - rewrite (Hv eq_refl). apply runs_ret. exists (m1 - g). split; [done|].
      split; [lia|]. cbn. rewrite to_u64_small by (unfold small in *; go_lia).
      lia. }
  eapply runs_mono; [by apply runs_redis_eval_borrow|].
  intros [v err] s1 (g & Hg & Hgm & Hs1 & Hv).
  destruct (isNoScriptErr err);
    [|apply runs_ret; by apply (Hfin (v, err) g m)].
  eapply runs_mono; [by apply runs_redis_eval_borrow|].
  intros r s2 (g2 & Hg2 & Hgm2 & Hs2 & Hv2).
  apply (Hfin r g2 (m - g) s2); [lia|done|lia|done|done].
Qed.

#[local] Existing Instance limiter_pool.

Lemma runs_Acquire id need cb m s :
  small need → (∀ g, quiet same_pool (cb g)) → pool_at m s →
  eruns (Acquire (mgr_lens id) None κ need (Some cb)) s (borrowed_from m).
Proof.
  intros Hneed Hcb Hs. unfold Acquire. apply runs_bind, runs_ask. intros i.
  rewrite Halone. apply runs_bind.
  assert (Hrest : ∀ r s', borrowed_from m r s' →
    eruns (let '(granted, err) := r in
         match err with
         | Some e => Ret (0, Some e)
         | None => if granted =? 0 then Ret (0, None)
             else zoom_modify (mgr_lens id)
                    (λ m, with_sizer (sizer_Record granted (bm_sizer m)) m) ;;;
                  Ret tt ;;; Ret (granted, None)
         end) s' (borrowed_from m)).
  { intros [g [e|]] s' (m' & Hs' & Hm' & Hlt); cbn [fst snd] in Hlt.
    - apply runs_ret. exists m'. by split.
    - destruct (Z.eqb_spec g 0).
      + apply runs_ret. exists m'. split; [done|]. split; [done|]. cbn. lia.
      + eapply (runs_same_bind _ _ m'); [done| |].
        { apply quiet_pool, quiet_sizer_Record. }
        intros _ s2 Hs2. apply runs_ret. exists m'. by split. }
  unfold acquire_leader.
  pose proof Hs as (_ & _ & Hmgrs). pose proof (Hmgrs id) as (Hmin & Hmax & Hid).
  apply runs_bind, runs_atomically. cbn [fst snd].
  apply runs_bind, runs_atomically. cbn [fst snd].
  set (size := ComputeBorrowSize _).
  assert (Hsize : small (if size <? need then need else size)).
  { destruct (size <? need); [done|]. by apply ComputeBorrowSize_small. }
  apply runs_bind. eapply runs_mono; [by apply runs_RP_Borrow|].
  intros [g [e|]] s1 Hb.
  { apply runs_ret. destruct Hb as (m' & Hs1 & Hm' & _).
    apply (Hrest (0, Some e)). exists m'. by split. }
  destruct (0 <? g); [|apply runs_ret; by apply (Hrest (g, None))].
  destruct Hb as (m' & Hs1 & Hm' & Hlt).
  eapply (runs_same_bind _ _ m'); [done|apply Hcb|]. intros _ s2 Hs2.
  eapply (runs_same_bind _ _ m'); [done|apply quiet_ask|]. intros t1 s3 Hs3.
  eapply (runs_same_bind _ _ m'); [done|apply quiet_ask|]. intros t2 s4 Hs4.
  eapply (runs_same_bind _ _ m'); [done|apply quiet_pool, quiet_note_borrow|].
  intros _ s5 Hs5. apply runs_ret. apply (Hrest (g, None)). by exists m'.
Qed.

(** ** The loop *)

Context (serve : string → option (TokenServer W)).
Context (serve_ok : ∀ addr srv, serve addr = Some srv →
           ∃ o, srv = token_server o).
Context (o : options W) (r : Router W).
Context (Hrouter : o_router o = Some r) (Hlaws : RouterLaws r)
  (Hquiet : quiet_router κ r) (Hopts : opts_ok o).

Lemma pool_refill_cleared key p g :
  quiet same_pool (refill_cleared (R:=R) key p g).
Proof.
  apply quiet_bind; [apply pool_on_bucket|intros _; apply pool_on_bucket].
Qed.

Lemma pool_refill_received key p g : quiet same_pool (refill_received o key p g).
Proof.
  apply quiet_bind; [apply pool_on_bucket|intros _].
  apply quiet_pool, quiet_metric.
Qed.

(** "The request is answered." *)
Definition answered (x : option (bool * option error)) (_ : W) : Prop := x ≠ None.

Lemma runs_consume_or p n next m s :
  pool_at m s → (∀ s', pool_at m s' → eruns next s' answered) →
  eruns (consume_or o κ p n next) s answered.
Proof.
  intros Hs Hnext. unfold consume_or.
  eapply (runs_same_bind _ _ m); [done|apply pool_on_bucket|].
  intros [|] s1 Hs1; [|by apply Hnext].
  eapply (runs_same_bind _ _ m); [done|apply quiet_pool, quiet_record_allowed|].
  intros _ s2 _. by apply runs_ret.
Qed.

Lemma runs_from_redis p n ex again m s :
  small n → pool_at m s →
  (∀ m' s', m' < m → pool_at m' s' → eruns (again ex) s' answered) →
  (∀ m' s', m' <= m → pool_at m' s' → eruns (again true) s' answered) →
  eruns (from_redis o κ p n ex again) s answered.
Proof.
  intros Hn Hs Hmore Hempty. unfold from_redis.
  eapply (runs_same_bind _ _ m); [done|apply quiet_ask|]. intros t0 s0 Hs0.
  apply runs_bind. eapply runs_mono;
    [apply runs_Acquire; [done|apply pool_refill_cleared|done]|].
  intros [g err] s1 (m' & Hs1 & Hm' & Hlt). cbn [fst snd] in Hlt.
  eapply (runs_same_bind _ _ m'); [done|apply quiet_ask|]. intros t1 s2 Hs2.
  eapply (runs_same_bind _ _ m'); [done|apply quiet_pool, quiet_metric|].
  intros _ s3 Hs3. destruct err as [e|]; [by apply runs_ret|].
  destruct (Z.ltb_spec 0 g).
  - eapply (runs_same_bind _ _ m'); [done|apply quiet_pool, quiet_metric|].
    intros _ s4 Hs4.
    eapply (runs_same_bind _ _ m'); [done|apply quiet_pool, quiet_bm_Borrowed|].
    intros b s5 Hs5.
    eapply (runs_same_bind _ _ m'); [done|apply quiet_pool, quiet_metric|].
    intros _ s6 Hs6. apply (runs_consume_or _ _ _ m'); [done|].
    intros s7 Hs7. eapply Hmore; [|exact Hs7]. by apply Hlt.
  - eapply (runs_same_bind _ _ m'); [done|apply pool_on_bucket|]. intros _ s4 Hs4.
    eapply (runs_same_bind _ _ m'); [done|apply quiet_pool, quiet_metric|].
    intros _ s5 Hs5. by eapply Hempty.
Qed.

Lemma runs_from_peers p n again m s :
  pool_at m s → (∀ s', pool_at m s' → eruns again s' answered) →
  eruns (from_peers serve o κ p n again) s answered.
Proof.
  intros Hs Hagain. unfold from_peers, acquireFromPeers.
  eapply (runs_same_bind _ _ m); [done|apply quiet_ask|]. intros t0 s0 Hs0.
  eapply (runs_same_bind _ _ m); [done| |].
  { apply quiet_bind; [|intros [g [e|]]; exact I].
    apply pool_acq_Acquire; [exact serve_ok|apply pool_refill_received]. }
  intros [g err] s1 Hs1.
  eapply (runs_same_bind _ _ m); [done|apply quiet_ask|]. intros t1 s2 Hs2.
  eapply (runs_same_bind _ _ m); [done|apply quiet_pool, quiet_metric|].
  intros _ s3 Hs3. destruct err as [e|]; [by apply Hagain|].
  destruct (0 <? g); [|by apply Hagain]. by apply (runs_consume_or _ _ _ m).
Qed.

(** Iterations left: the tokens of the pool, one for finding it empty, one
    for the peers. *)
Definition rounds (m : Z) (ex checked : bool) : Z :=
  m + (if ex then 0 else 1) + (if checked then 0 else 1).

Lemma runs_allow_loop fuel p n ex checked m s :
  small n → pool_at m s → rounds m ex checked < Z.of_nat fuel →
  eruns (allow_loop serve o fuel κ p n ex checked) s answered.
Proof.
  intros Hn. revert ex checked m s.
  induction fuel as [|fuel IH]; intros ex checked m s Hs Hr.
  { destruct Hs as (_ & Hm & _). unfold rounds, small in *.
    destruct ex, checked; lia. }
  cbn [allow_loop]. rewrite Hrouter. apply runs_bind.
  eapply runs_mono; [apply (runs_post _ Henv); [apply (Decide_ok (r:=r))|]|].
  { eapply (runs_same _ m _ (λ _ s', pool_at m s')); [done| |done].
    apply quiet_pool, Hquiet. }
  intros [d [e|]] s1 [Hd Hs1]; [by apply runs_ret|].
  destruct (Hd eq_refl) as [Hredis Hpeer]. cbn in Hredis, Hpeer. destruct d.
  - rewrite Hredis in * by done. apply (runs_from_redis _ _ _ _ m); [done|done| |].
    + intros m' s' Hlt Hs'. apply (IH _ _ m'); [done|].
      unfold rounds in *. destruct checked; lia.
    + intros m' s' Hle Hs'. apply (IH _ _ m'); [done|].
      unfold rounds in *. destruct checked; lia.
  - specialize (Hpeer eq_refl). apply negb_true_iff in Hpeer as ->.
    apply (runs_from_peers _ _ _ m); [done|]. intros s' Hs'.
    apply (IH _ _ m); [done|]. unfold rounds in *. destruct ex; lia.
  - unfold reject.
    eapply (runs_same_bind _ _ m); [done|apply quiet_pool, quiet_metric|].
    intros _ s2 Hs2.
    eapply (runs_same_bind _ _ m); [done|apply pool_on_bucket|]. intros v s3 Hs3.
    eapply (runs_same_bind _ _ m); [done|apply quiet_pool, quiet_metric|].
    intros _ s4 _. by apply runs_ret.
Qed.

(** ** The window reset *)

Definition at_most (m : Z) (s : W) : Prop := ∃ m', m' <= m ∧ pool_at m' s.

Lemma at_most_same m s s' : at_most m s → same_pool s s' → at_most m s'.
Proof. intros (m' & Hm & Hs) He. exists m'. split; [done|]. by eapply pool_at_same. Qed.

Lemma runs_am_bind {A B} (p : go W A) (k : A → go W B) m s Q :
  at_most m s → quiet same_pool p →
  (∀ a s', at_most m s' → eruns (k a) s' Q) → eruns (bind p k) s Q.
Proof.
  intros (m' & Hm & Hs) Hp Hk. eapply (runs_same_bind _ _ m'); [done|done|].
  intros a s' Hs'. apply Hk. by exists m'.
Qed.

Lemma runs_reset_eval limit start m s :
  small limit → limit <= m → at_most m s →
  eruns (redis_eval redis_lens ResetScript
           [PoolKey κ; WindowStartKey κ; ConfigKey κ] [limit; start]) s
    (λ _ s', at_most m s').
Proof.
  intros Hl Hlm Hs. unfold redis_eval.
  assert (Hbody : eruns (zoom redis_lens (run_body ResetScript
    [PoolKey κ; WindowStartKey κ; ConfigKey κ] [limit; start])) s
    (λ _ s', at_most m s')).
  { apply runs_atomically. cbn [lget redis_lens run_body]. unfold windowResetLua.
    unfold small in Hl. rewrite (tonumber_exact limit) by lia.
    destruct Hs as (m' & Hm' & Hp & Hsm & Hmgr).
    destruct (_ <? _); cbn [fst snd].
    - exists limit. split; [done|]. split; [|split; [unfold small; lia|exact Hmgr]].
      unfold pool_of. cbn.
      rewrite GET_SET_ne by apply PoolKey_WindowStartKey. by rewrite GET_SET.
    - exists m'. split; [done|]. split; [exact Hp|]. by split. }
  apply runs_bind, runs_ask. intros i. destruct (env transport QTransport i).
  - apply runs_bind. eapply runs_mono; [exact Hbody|]. intros v s' Hs'.
    by apply runs_ret.
  - by apply runs_ret.
  - apply runs_bind. eapply runs_mono; [exact Hbody|]. intros v s' Hs'.
    by apply runs_ret.
Qed.

Lemma runs_resetWindow nowMs m s :
  o_limit o <= m → at_most m s →
  eruns (resetWindow o κ nowMs) s (λ _ s', at_most m s').
Proof.
  intros Hlm Hs. destruct Hopts as [Hl _]. unfold resetWindow.
  eapply (runs_am_bind _ _ m); [done|apply pool_getOrCreateBucket|].
  intros p s1 Hs1.
  eapply (runs_am_bind _ _ m); [done|apply quiet_pool, quiet_bucket_Lock|].
  intros _ s2 Hs2. apply runs_bind.
  assert (Hend : ∀ (err : option error) s', at_most m s' →
    eruns (bucket_Unlock κ p ;;; Ret err) s' (λ _ s'', at_most m s'')).
  { intros err s' Hs'. eapply (runs_am_bind _ _ m); [done|apply pool_on_bucket|].
    intros _ s'' Hs''. by apply runs_ret. }
  unfold reset_locked. cbv zeta. destruct (_ =? 0); [apply runs_panic|].
  eapply (runs_am_bind _ _ m); [done|apply pool_on_bucket|]. intros start s3 Hs3.
  destruct (_ <=? start); [apply runs_ret; by apply (Hend None)|].
  apply runs_bind. eapply (runs_mono _ _ _ (λ _ s', at_most m s')).
  { unfold RP_ResetWindow. rewrite (to_i64_small (o_limit o)) by go_lia.
    apply runs_bind. unfold runScript.
    change (scripts NewRedisPool !! "reset") with (Some ResetScript).
    cbn beta iota. apply runs_bind.
    eapply runs_mono; [by apply runs_reset_eval|]. intros [v err] s' Hs'.
    destruct (isNoScriptErr err).
    - eapply runs_mono; [by apply runs_reset_eval|]. intros [v' err'] s'' Hs''.
      by apply runs_ret.
    - apply runs_ret. by apply runs_ret. }
  intros [e|] s4 Hs4; [apply runs_ret; by apply (Hend (Some (ErrWrap "reset window" e)))|].
  eapply (runs_am_bind _ _ m); [done|apply pool_on_bucket|]. intros v s5 Hs5.
  eapply (runs_am_bind _ _ m); [done|apply pool_on_bucket|]. intros _ s6 Hs6.
  eapply (runs_am_bind _ _ m); [done|apply pool_on_bucket|]. intros _ s7 Hs7.
  eapply (runs_am_bind _ _ m); [done|apply pool_on_bucket|]. intros _ s8 Hs8.
  eapply (runs_am_bind _ _ m); [done|apply quiet_pool, quiet_metric|].
  intros _ s9 Hs9. eapply (runs_am_bind _ _ m); [done| |].
  { apply quiet_pool, quiet_mgr_modify. intros mm Hmm. unfold bm_Reset.
    by destruct (t_lookup κ (activeKeys mm)). }
  intros _ s10 Hs10. apply runs_ret. by apply (Hend None).
Qed.

Lemma runs_AllowN fuel n m s :
  small n → o_limit o <= m → at_most m s → m + 2 < Z.of_nat fuel →
  eruns (AllowN serve o fuel κ n) s answered.
Proof.
  intros Hn Hlm Hs Hfuel.
  unfold AllowN.
  eapply (runs_am_bind _ _ m); [done|by apply quiet_zoom_reads|].
  intros [|] s1 Hs1; [by apply runs_ret|].
  eapply (runs_am_bind _ _ m); [done|apply quiet_ask|]. intros start s2 Hs2.
  eapply (runs_am_bind _ _ m); [done|apply pool_getOrCreateBucket|].
  intros p s3 Hs3.
  eapply (runs_am_bind _ _ m); [done|apply pool_on_bucket|]. intros _ s4 Hs4.
  eapply (runs_am_bind _ _ m); [done|apply pool_on_bucket|]. intros [|] s5 Hs5.
  - unfold allow_local. intros i a s' fs j. revert i a s' fs j.
    eapply (runs_am_bind _ _ m); [done|apply quiet_pool, quiet_record_allowed|].
    intros _ s6 Hs6.
    eapply (runs_am_bind _ _ m); [done|apply quiet_ask|]. intros t s7 Hs7.
    eapply (runs_am_bind _ _ m); [done|apply quiet_pool, quiet_metric|].
    intros _ s8 Hs8. apply runs_bind. intros i a s' fs j _. by apply runs_ret.
  - unfold allow_slow. cbv zeta.
    eapply (runs_am_bind _ _ m); [done|apply quiet_ask|]. intros t s6 Hs6.
    assert (Hrest : ∀ s', at_most m s' →
      eruns (do! ex <- bucket_get κ p IsRedisExhausted;
           (if ex : bool then metric (o_instanceID o) (RecordRedisSkip κ)
            else Ret tt) ;;;
           allow_loop serve o fuel κ p n ex false) s' answered).
    { intros s' Hs'. eapply (runs_am_bind _ _ m); [done|apply pool_on_bucket|].
      intros ex s'' Hs''. eapply (runs_am_bind _ _ m); [done| |].
      { destruct ex; [apply quiet_pool, quiet_metric|exact I]. }
      intros _ s3' (m' & Hm' & Hs3'). apply (runs_allow_loop _ _ _ _ _ m'); [done|done|].
      unfold rounds. destruct ex; lia. }
    eapply (runs_am_bind _ _ m); [done|apply pool_on_bucket|].
    intros [|] s7 Hs7; [|by apply Hrest].
    apply runs_bind. eapply runs_mono; [by apply runs_resetWindow|].
    intros err s8 (m' & Hm' & Hs8). apply (runs_consume_or _ _ _ m'); [done|].
    intros s9 Hs9. apply Hrest. by exists m'.
Qed.
End termination.

(** C4: the loop of [AllowN] ends.  A goroutine that runs alone, whatever its
    clock, its Redis and its peers answer and however they fail, never goes
    round the loop more often than the larger of the pool and the limit, plus
    three: with that fuel the model of the unbounded loop is never cut
    off. *)
Theorem AllowN_terminates {R} `{RedisLaws R} `{FloatConv} κ env
    (net : string → option (options (world R))) (o : options (world R)) r fuel n s :
  (∀ X (q : question X) i, valid_answer q (env X q i)) →
  (∀ i, env _ (QShared κ) i = None) →
  o_router o = Some r → RouterLaws r → quiet_router κ r → opts_ok o →
  0 <= n <= 2 ^ 53 → 0 <= pool_of κ s <= 2 ^ 53 → mgrs_ok s →
  Z.max (pool_of κ s) (o_limit o) + 2 < Z.of_nat fuel →
  ∀ i a s' fs j,
    exec env i (AllowN (λ addr, token_server <$> net addr) o fuel κ n) s
      = Done a s' fs j → a ≠ None.
Proof.
  intros Henv Halone Hr Hlaws Hq Ho Hn Hp Hm Hfuel.
  assert (Hserve : ∀ addr srv, token_server <$> net addr = Some srv →
            ∃ o' : options (world R), srv = token_server o').
  { intros addr srv. destruct (net addr) as [o'|]; [|done]. intros [= <-]. eauto. }
  apply (runs_AllowN κ env Henv Halone _ Hserve o r Hr Hlaws Hq Ho fuel n
           (Z.max (pool_of κ s) (o_limit o)) s); [done|lia| |done].
  exists (pool_of κ s). split; [lia|]. by split.
Qed.

Definition demo_fuel : nat := Z.to_nat 10003.

Lemma AllowN_terminates_witness :
  ∃ a s' fs j,
    exec (clock_env (60000 * Second)) 0
      (AllowN (λ addr, token_server <$> demo_net addr) demo demo_fuel "k" 5) demo_start
      = Done a s' fs j ∧ a ≠ None.
Proof.
  destruct (exec (clock_env (60000 * Second)) 0
      (AllowN (λ addr, token_server <$> demo_net addr) demo demo_fuel "k" 5) demo_start)
    as [a s' fs j| |msg] eqn:E; [|vm_compute in E; discriminate E..].
  exists a, s', fs, j. split; [reflexivity|].
  refine (AllowN_terminates "k" (clock_env (60000 * Second)) demo_net demo
    NewDefaultRouter demo_fuel 5 demo_start _ _ _ _ _ _ _ _ _ _ 0 a s' fs j E).
  - apply clock_env_ok.
  - reflexivity.
  - reflexivity.
  - apply Default_quiet.
  - apply (io_opts "k" 10000), demo_instance_ok.
  - lia.
  - vm_compute. split; discriminate.
  - intros id. by apply no_limiter_ok.
  - vm_compute. reflexivity.
Defined.
