(* ===== verification/Behaviour.v ===== *)
(** * Behaviour: what the methods of one instance do

    The results of [limiter]'s methods on each branch, for a goroutine running
    alone: the refusal of a closed limiter, the bucket table, the local fast
    path, the window reset and the gossip bookkeeping. *)

From S2P Require Export RateLimit.

(** ** Runs that return *)

Section returns.
Context {S : Type} (env : environment).

(** [p] runs to its end from [s], with a result and a state in [Q]. *)
Definition returns {A} (p : go S A) (s : S) (Q : A → S → Prop) : Prop :=
  ∀ i, ∃ a s' fs j, exec env i p s = Done a s' fs j ∧ Q a s'.

Lemma returns_ret {A} (a : A) s (Q : A → S → Prop) : Q a s → returns (Ret a) s Q.
Proof. intros HQ i. by exists a, s, [], i. Qed.

Lemma returns_bind {A B} (p : go S A) (k : A → go S B) s Q :
  returns p s (λ a s', returns (k a) s' Q) → returns (bind p k) s Q.
Proof.
  intros Hp i. destruct (Hp i) as (a & s1 & fs1 & j1 & E1 & Hk).
  destruct (Hk j1) as (b & s2 & fs2 & j2 & E2 & HQ).
  exists b, s2, (fs1 ++ fs2), j2. by rewrite exec_bind, E1, E2.
Qed.

Lemma returns_mono {A} (p : go S A) s (Q Q' : A → S → Prop) :
  returns p s Q → (∀ a s', Q a s' → Q' a s') → returns p s Q'.
Proof.
  intros Hp HQ i. destruct (Hp i) as (a & s1 & fs1 & j1 & E1 & H1).
  exists a, s1, fs1, j1. eauto.
Qed.

Lemma returns_ask {X} (q : question X) s (Q : X → S → Prop) :
  (∀ i, Q (env _ q i) s) → returns (ask q) s Q.
Proof. intros HQ i. by exists (env _ q i), s, [], (Datatypes.S i). Qed.

Lemma returns_atomically {A} (f : S → A * S) s (Q : A → S → Prop) :
  Q (f s).1 (f s).2 → returns (atomically f) s Q.
Proof.
  intros HQ i. destruct (f s) as [a s'] eqn:E. exists a, s', [], i.
  split; [|done]. cbn. by rewrite E.
Qed.

Lemma returns_await {A} (f : S → option (A * S)) s a s' (Q : A → S → Prop) :
  f s = Some (a, s') → Q a s' → returns (await f) s Q.
Proof. intros E HQ i. exists a, s', [], i. split; [|done]. cbn. by rewrite E. Qed.

Lemma returns_zoom_modify {T} (l : lens S T) f s (Q : unit → S → Prop) :
  Q tt (lput l (f (lget l s)) s) → returns (zoom_modify l f) s Q.
Proof. apply (returns_atomically (λ s, (tt, lput l (f (lget l s)) s))). Qed.

Lemma returns_fork t s (Q : unit → S → Prop) : Q tt s → returns (fork t) s Q.
Proof. intros HQ i. by exists tt, s, [t], i. Qed.
End returns.

Section behaviour.
Context {R : Type} `{RedisStore R} `{FloatConv}.
Abbreviation W := (world R).
Context (env : environment).
Abbreviation ret := (returns env).

(** ** Closed *)

(** A closed limiter refuses every request with [ErrClosed], and that is
    all it does: no state is touched, nothing is asked or started. *)
Theorem AllowN_closed serve (o : options W) fuel key n i s :
  lget (inst (o_instanceID o) f_closed) s = true →
  exec env i (AllowN serve o fuel key n) s
    = Done (Some (false, Some ErrClosed)) s [] i.
Proof. intros Hc. unfold AllowN. cbn in *. by rewrite Hc. Qed.

(** ** The bucket table *)

(** Instance [id] is running and the shard of [key] is not write-locked. *)
Definition shard_at (id key : string) (sh : bucketShard) (s : W) : Prop :=
  is_Some (w_insts s !! id) ∧
  l_shards (lget (inst_lens id) s) !! shard_of key = Some sh ∧
  sh_mu sh = mkMutex false 0.

Lemma put_same_shard id key sh s :
  shard_at id key sh s →
  lput (inst id f_shards)
    (<[shard_of key := sh]> (lget (inst id f_shards) s)) s = s.
Proof.
  intros ([l Hl] & Hsh & _). cbn in *. rewrite Hl in *. cbn in *.
  rewrite list_insert_id by done. destruct s as [h c r ins ad], l. cbn in *.
  by rewrite insert_id.
Qed.

Lemma returns_with_shard {X} id i sh (f : bucketShard → option (X * bucketShard))
    (s : W) x sh' Q :
  l_shards (lget (inst_lens id) s) !! i = Some sh → f sh = Some (x, sh') →
  Q x (lput (inst id f_shards) (<[i:=sh']> (lget (inst id f_shards) s)) s) →
  ret (with_shard id i f) s Q.
Proof.
  intros Hsh Hf HQ. eapply returns_await; [|exact HQ]. cbv zeta.
  change (lget (inst id f_shards) s) with (l_shards (lget (inst_lens id) s)).
  by rewrite Hsh, Hf.
Qed.

Lemma shards_put id i sh' (s : W) :
  l_shards (lget (inst_lens id)
    (lput (inst id f_shards) (<[i:=sh']> (lget (inst id f_shards) s)) s))
    = <[i:=sh']> (l_shards (lget (inst_lens id) s)).
Proof. cbn. by rewrite lookup_insert_eq. Qed.

Lemma put_shard_twice id i sh1 sh2 (s : W) :
  lput (inst id f_shards)
    (<[i:=sh2]> (lget (inst id f_shards)
       (lput (inst id f_shards) (<[i:=sh1]> (lget (inst id f_shards) s)) s)))
    (lput (inst id f_shards) (<[i:=sh1]> (lget (inst id f_shards) s)) s)
  = lput (inst id f_shards) (<[i:=sh2]> (lget (inst id f_shards) s)) s.
Proof.
  cbn. rewrite lookup_insert_eq. cbn. rewrite insert_insert_eq.
  by rewrite list_insert_insert_eq.
Qed.

(** The state with the shard [i] of an instance replaced. *)
Definition put_shard (id : string) (i : nat) (sh : bucketShard) (s : W) : W :=
  lput (inst id f_shards) (<[i:=sh]> (lget (inst id f_shards) s)) s.

(** An action on the shard replaced last. *)
Lemma returns_on_put {X} id i sh0 sh (f : bucketShard → option (X * bucketShard))
    (s : W) x sh' Q :
  l_shards (lget (inst_lens id) s) !! i = Some sh0 →
  f sh = Some (x, sh') → Q x (put_shard id i sh' s) →
  ret (with_shard id i f) (put_shard id i sh s) Q.
Proof.
  intros Hsh Hf HQ. eapply returns_with_shard; [|exact Hf|].
  - unfold put_shard. rewrite shards_put. apply list_lookup_insert_eq.
    by eapply lookup_lt_Some.
  - unfold put_shard in *. by rewrite put_shard_twice.
Qed.

(** Looking up under the read lock leaves the state as it was. *)
Lemma returns_lookup {B} id key sh s (k : option nat → go W B) Q :
  shard_at id key sh s → ret (k (buckets sh !! key)) s Q →
  ret (shard_RLock id (shard_of key) ;;;
       do! hit <- shard_get id (shard_of key) (.!! key);
       shard_RUnlock id (shard_of key) ;;; k hit) s Q.
Proof.
  intros Hsh Hk. pose proof Hsh as (_ & Hl & Hmu).
  assert (E : put_shard id (shard_of key) sh s = s) by by apply put_same_shard.
  rewrite <- E. apply returns_bind.
  eapply returns_on_put; [done|by rewrite Hmu|].
  apply returns_bind. eapply returns_on_put; [done|reflexivity|].
  apply returns_bind. eapply returns_on_put; [done|reflexivity|].
  cbn [rw_writer rw_readers sh_mu buckets pred].
  replace (mkBShard (mkMutex false 0) (buckets sh)) with sh
    by by destruct sh as [mu bs]; cbn in *; subst mu.
  by rewrite E.
Qed.

Lemma returns_getOrCreate_hit (o : options W) key sh p s Q :
  shard_at (o_instanceID o) key sh s → buckets sh !! key = Some p → Q p s →
  ret (getOrCreateBucket o key) s Q.
Proof.
  intros Hsh Hp HQ. apply (returns_lookup (o_instanceID o) key sh); [done|].
  rewrite Hp. by apply returns_ret.
Qed.

(** The bucket a miss creates at time [now]. *)
Definition fresh_bucket (o : options W) (key : string) (now : Z) : bucket :=
  newBucket key (o_limit o) (o_windowType o) (o_window o) now.

Definition after_create (o : options W) (key : string) (sh : bucketShard)
    (now : Z) (s : W) : W :=
  put_shard (o_instanceID o) (shard_of key)
    (mkBShard (mkMutex false 0)
       (<[key := length (heap_of key s)]> (buckets sh)))
    (put_heap key (heap_of key s ++ [fresh_bucket o key now]) s).

Lemma returns_getOrCreate_miss (o : options W) key sh s (Q : nat → W → Prop) :
  shard_at (o_instanceID o) key sh s → buckets sh !! key = None →
  (∀ now, Q (length (heap_of key s)) (after_create o key sh now s)) →
  ret (getOrCreateBucket o key) s Q.
Proof.
  intros Hsh Hp HQ. apply (returns_lookup (o_instanceID o) key sh); [done|].
  rewrite Hp. pose proof Hsh as (_ & Hl & Hmu).
  set (id := o_instanceID o) in *.
  assert (E : put_shard id (shard_of key) sh s = s) by by apply put_same_shard.
  rewrite <- E. apply returns_bind.
  eapply returns_on_put; [done|by rewrite Hmu|].
  apply returns_bind. eapply returns_on_put; [done|reflexivity|]. cbn [buckets].
  rewrite Hp. apply returns_bind, returns_ask. intros i.
  apply returns_bind, returns_atomically. cbn [fst snd].
  set (now := env Z QNow i). set (b := newBucket _ _ _ _ _).
  set (bs := heap_of key (put_shard _ _ _ s) ++ [b]).
  assert (Hcomm : ∀ sh', put_heap key bs (put_shard id (shard_of key) sh' s)
              = put_shard id (shard_of key) sh' (put_heap key bs s)) by done.
  rewrite Hcomm. apply returns_bind. eapply returns_on_put; [exact Hl|reflexivity|].
  apply returns_bind. eapply returns_on_put; [exact Hl|reflexivity|].
  apply returns_ret. apply (HQ now).
Qed.

(** C16: the bucket table.  From an unlocked shard, [getOrCreateBucket]
    returns the bucket of the key: the one the table has, with the state
    untouched, or else a new one, without tokens and with this instance's
    limit and window, which is appended to the buckets made for the key and
    entered in the table without disturbing any other key's entry; and it
    leaves the shard unlocked, so that the next call finds that bucket. *)
Theorem getOrCreateBucket_spec (o : options W) key sh s :
  shard_at (o_instanceID o) key sh s →
  ∀ i, ∃ p s' fs j, exec env i (getOrCreateBucket o key) s = Done p s' fs j ∧
  match buckets sh !! key with
  | Some q => p = q ∧ s' = s
  | None =>
      p = length (heap_of key s) ∧
      (∃ b, heap_of key s' = heap_of key s ++ [b] ∧ b_tokens b = 0 ∧
         Limit (b_window b) = o_limit o ∧ WindowSize (b_window b) = o_window o) ∧
      w_redis s' = w_redis s ∧
      ∃ sh', shard_at (o_instanceID o) key sh' s' ∧
        buckets sh' !! key = Some p ∧
        ∀ k, k ≠ key → buckets sh' !! k = buckets sh !! k
  end.
Proof.
  intros Hsh. destruct (buckets sh !! key) as [q|] eqn:Hp.
  - by apply (returns_getOrCreate_hit o key sh q s (λ p s', p = q ∧ s' = s)).
  - apply (returns_getOrCreate_miss o key sh); [done|done|]. intros now.
    split; [done|]. split; [|split; [done|]].
    + exists (fresh_bucket o key now). split; [|done].
      change (heap_of key (after_create o key sh now s)) with
        (heap_of key (put_heap key (heap_of key s ++ [fresh_bucket o key now]) s)).
      unfold heap_of, put_heap. cbn. by rewrite lookup_insert_eq.
    + destruct Hsh as (Hin & Hl & _). eexists. split; [split; [|split]|].
      * unfold after_create, put_shard. cbn. rewrite lookup_insert_eq. eauto.
      * unfold after_create, put_shard. rewrite shards_put.
        apply list_lookup_insert_eq. by eapply lookup_lt_Some.
      * done.
      * cbn. rewrite lookup_insert_eq. split; [done|]. intros k Hk.
        by rewrite lookup_insert_ne.
Qed.

(** ** The local fast path *)

Lemma returns_bucket {X} key p (f : bucket → X * bucket) (s : W) b x b' Q :
  heap_of key s !! p = Some b → f b = (x, b') →
  Q x (put_heap key (<[p:=b']> (heap_of key s)) s) →
  ret (on_bucket key p f) s Q.
Proof.
  intros Hb Hf HQ. eapply returns_await; [|exact HQ]. cbn. by rewrite Hb, Hf.
Qed.

(** The bucket [p] of [key] is [b], and nothing but instances changed since
    [s0] besides it. *)
Definition bucket_now (key : string) (p : nat) (b : bucket) (s0 s : W) : Prop :=
  heap_of key s !! p = Some b ∧ w_redis s = w_redis s0 ∧ w_chans s = w_chans s0.

Lemma bucket_now_put key p b b' s0 s :
  bucket_now key p b s0 s →
  bucket_now key p b' s0 (put_heap key (<[p:=b']> (heap_of key s)) s).
Proof.
  intros (Hb & Hr & Hc). split; [|by split].
  unfold heap_of, put_heap. cbn. rewrite lookup_insert_eq. cbn.
  apply list_lookup_insert_eq. by eapply lookup_lt_Some.
Qed.

Lemma returns_bucket_bind {X B} key p (f : bucket → X * bucket)
    (k : X → go W B) b s0 s x b' Q :
  bucket_now key p b s0 s → f b = (x, b') →
  (∀ s', bucket_now key p b' s0 s' → ret (k x) s' Q) →
  ret (bind (on_bucket key p f) k) s Q.
Proof.
  intros Hs Hf HQ. apply returns_bind. eapply returns_bucket; [apply Hs|exact Hf|].
  apply HQ. by eapply bucket_now_put.
Qed.

Lemma returns_inst_bind {T B} id (f : lens limiter T) g (k : unit → go W B)
    key p b s0 (s : W) Q :
  bucket_now key p b s0 s →
  (∀ s', bucket_now key p b s0 s' → ret (k tt) s' Q) →
  ret (bind (zoom_modify (inst id f) g) k) s Q.
Proof.
  intros Hs HQ. apply returns_bind, returns_zoom_modify. by apply HQ.
Qed.

Lemma returns_ask_bind {X B} (q : question X) (k : X → go W B) s Q :
  (∀ x, ret (k x) s Q) → ret (bind (ask q) k) s Q.
Proof. intros HQ. apply returns_bind, returns_ask. intros i. apply HQ. Qed.

Lemma returns_record_allowed (o : options W) key p n local b s0 s Q :
  bucket_now key p b s0 s →
  (∀ s', bucket_now key p (recordConsumption n b) s0 s' → Q tt s') →
  ret (record_allowed o key p n local) s Q.
Proof.
  intros Hs HQ. unfold record_allowed.
  eapply returns_bucket_bind; [done|reflexivity|]. intros s1 H1.
  eapply returns_bucket_bind; [done|reflexivity|]. intros s2 H2.
  eapply returns_inst_bind; [done|]. intros s3 H3.
  apply returns_bind. eapply (returns_mono env _ _
    (λ _ s', bucket_now key p (recordConsumption n b) s0 s')).
  { destruct local; [|by apply returns_ret]. by apply returns_zoom_modify. }
  intros [] s4 H4.
  eapply returns_inst_bind; [done|]. intros s5 H5.
  eapply returns_inst_bind; [done|]. intros s6 H6.
  apply returns_zoom_modify. by apply HQ.
Qed.

Lemma returns_maybePreBorrow (o : options W) key p b s0 s (Q : unit → W → Prop) :
  bucket_now key p b s0 s →
  (∀ s' b', bucket_now key p b' s0 s' → b_local b' = b_local b →
     b_consumed b' = b_consumed b → Q tt s') →
  ret (maybePreBorrow o key p) s Q.
Proof.
  intros Hs HQ. unfold maybePreBorrow.
  destruct (TryMarkPreBorrowing b) as [ok b'] eqn:E.
  eapply returns_bucket_bind; [done|exact E|]. intros s1 H1.
  unfold TryMarkPreBorrowing in E.
  destruct (b_preBorrowing b); injection E as <- <-.
  - apply returns_ret. by eapply HQ.
  - eapply returns_inst_bind; [done|]. intros s2 H2.
    eapply returns_inst_bind; [done|]. intros s3 H3.
    apply returns_fork. by eapply HQ.
Qed.

(** C12: the local fast path.  When the instance is open and the bucket of
    the key holds the [n] tokens, the request is admitted, the bucket has
    exactly [n] tokens less and its consumption counter [n] more, and
    neither Redis nor a peer is involved: the pool, the channels and
    everything else in Redis are as before, and no loop iteration is
    used. *)
Theorem AllowN_local_hit serve (o : options W) key n sh p b s :
  shard_at (o_instanceID o) key sh s →
  lget (inst (o_instanceID o) f_closed) s = false →
  buckets sh !! key = Some p → heap_of key s !! p = Some b →
  lb_wf (b_local b) → 0 <= n <= b_tokens b →
  ∀ i, ∃ a s' fs j,
    exec env i (AllowN serve o 0 key n) s = Done a s' fs j ∧
    a = Some (true, None) ∧ w_redis s' = w_redis s ∧ w_chans s' = w_chans s ∧
    ∃ b', heap_of key s' !! p = Some b' ∧ b_tokens b' = b_tokens b - n ∧
      b_consumed b' = to_u64 (b_consumed b + n).
Proof.
  intros Hsh Hcl Hp Hb Hwf Hn. unfold AllowN.
  set (Post := λ (a : option (bool * option error)) s',
    a = Some (true, None) ∧ w_redis s' = w_redis s ∧ w_chans s' = w_chans s ∧
    ∃ b', heap_of key s' !! p = Some b' ∧ b_tokens b' = b_tokens b - n ∧
      b_consumed b' = to_u64 (b_consumed b + n)).
  change (ret (AllowN serve o 0 key n) s Post). unfold AllowN.
  apply returns_bind, returns_atomically. cbn [fst snd]. rewrite Hcl.
  apply returns_ask_bind. intros start. apply returns_bind.
  eapply returns_getOrCreate_hit; [exact Hsh|exact Hp|].
  assert (H0' : bucket_now key p b s s) by by split.
  eapply returns_bucket_bind; [exact H0'|reflexivity|]. intros s1 H1.
  set (b1 := updateAccess (UnixMilli start) b) in *.
  assert (Ht : tryConsume n b1 = (true, with_local (mkLocalBucket (b_tokens b - n)) b1)).
  { unfold tryConsume. change (b_local b1) with (b_local b).
    unfold b_tokens, lb_wf in *. rewrite TryConsume_spec by (done || lia).
    by rewrite (proj2 (Z.ltb_ge (tokens (b_local b)) n)) by lia. }
  eapply returns_bucket_bind; [exact H1|exact Ht|]. intros s2 H2.
  set (b2 := with_local _ b1) in *. cbn iota. unfold allow_local.
  apply returns_bind. eapply returns_record_allowed; [exact H2|]. intros s3 H3.
  set (b3 := recordConsumption n b2) in *.
  apply returns_ask_bind. intros t.
  eapply returns_inst_bind; [exact H3|]. intros s4 H4.
  assert (Hpost : ∀ s' b', bucket_now key p b' s s' → b_local b' = b_local b3 →
    b_consumed b' = b_consumed b3 → ret (Ret (Some (true, None))) s' Post).
  { intros s' b' (Hb' & Hr' & Hc') Hl' Hcons'. apply returns_ret. split; [done|].
    split; [done|]. split; [done|]. exists b'. split; [done|].
    unfold b_tokens. rewrite Hl', Hcons'. done. }
  apply returns_bind. destruct (o_preBorrowEnabled o).
  - eapply returns_bucket_bind; [exact H4|reflexivity|]. intros s5 H5.
    destruct (belowPreBorrowThreshold _ _ b3).
    + eapply returns_maybePreBorrow; [exact H5|]. intros s6 b6 H6 Hl6 Hc6.
      by eapply Hpost.
    + apply returns_ret. by eapply Hpost.
  - apply returns_ret. by eapply Hpost.
Qed.

(** ** The window reset *)

Lemma with_mu_roundtrip b : b_mu b = false → with_mu false (with_mu true b) = b.
Proof. intros Hmu. destruct b. cbn in *. by subst. Qed.

(** The start of the window that contains [nowMs]. *)
Definition window_of (o : options W) (nowMs : Z) : Z :=
  let windowMs := Milliseconds (o_window o) in
  to_i64 (Z.quot nowMs windowMs * windowMs).

(** The body of the lock, from the bucket as it is after [b.mu.Lock()]. *)
Lemma returns_resetWindow (o : options W) key sh p b nowMs s Q :
  shard_at (o_instanceID o) key sh s → buckets sh !! key = Some p →
  heap_of key s !! p = Some b → b_mu b = false →
  (∀ s1, bucket_now key p (with_mu true b) s s1 →
     ret (do! err <- reset_locked o key p nowMs;
          bucket_Unlock key p ;;; Ret err) s1 Q) →
  ret (resetWindow o key nowMs) s Q.
Proof.
  intros Hsh Hp Hb Hmu HQ. unfold resetWindow. apply returns_bind.
  eapply returns_getOrCreate_hit; [exact Hsh|exact Hp|]. apply returns_bind.
  eapply returns_await; [by rewrite Hb, Hmu|]. apply HQ.
  by apply (bucket_now_put key p b).
Qed.

Lemma returns_unlock (err : option error) key p b s0 s
    (Q : option error → W → Prop) :
  bucket_now key p b s0 s →
  (∀ s', bucket_now key p (with_mu false b) s0 s' → Q err s') →
  ret (bucket_Unlock key p ;;; Ret err) s Q.
Proof.
  intros Hs HQ. eapply returns_bucket_bind; [exact Hs|reflexivity|].
  intros s' Hs'. apply returns_ret. by apply HQ.
Qed.

(** What the commands of one call to the server answer. *)
Definition server_ok : Prop := ∀ i, env _ QTransport i = TOk.
Definition server_down (e : error) : Prop :=
  contains_NOSCRIPT (err_Error e) = false ∧ ∀ i, env _ QTransport i = TNotRun e.

Lemma returns_RP_ResetWindow_ok key limit start s Q :
  server_ok →
  Q None (lput redis_lens (run_body ResetScript [PoolKey key; WindowStartKey key;
            ConfigKey key] [to_i64 limit; start] (w_redis s)).2 s) →
  ret (RP_ResetWindow redis_lens NewRedisPool key limit start) s Q.
Proof.
  intros Hok HQ. unfold RP_ResetWindow, runScript.
  change (scripts NewRedisPool !! "reset") with (Some ResetScript). cbn beta iota.
  apply returns_bind, returns_bind. unfold redis_eval.
  apply returns_bind, returns_ask. intros i. rewrite Hok.
  apply returns_bind, returns_atomically. cbn [lget redis_lens].
  destruct (run_body ResetScript _ _ _) as [v r] eqn:E. cbn [fst snd] in *.
  apply returns_ret, returns_ret. by apply returns_ret.
Qed.

Lemma returns_RP_ResetWindow_down e key limit start s Q :
  server_down e → Q (Some e) s →
  ret (RP_ResetWindow redis_lens NewRedisPool key limit start) s Q.
Proof.
  intros [Hno Hdown] HQ. unfold RP_ResetWindow, runScript.
  change (scripts NewRedisPool !! "reset") with (Some ResetScript). cbn beta iota.
  apply returns_bind, returns_bind. unfold redis_eval.
  apply returns_bind, returns_ask. intros i. rewrite Hdown.
  apply returns_ret. cbn beta iota. unfold isNoScriptErr. rewrite Hno.
  apply returns_ret. by apply returns_ret.
Qed.

(** C11: the window reset.  From a bucket nobody holds: within the window it
    already has, a reset does nothing and does not call Redis; into a later
    window, with Redis up, the reset script runs once and the bucket is
    left empty, with a clean "exhausted" flag, a zero consumption counter
    and the new window; with Redis down the error is returned as "reset
    window: ..." and the bucket keeps its tokens and its window, so that
    the next request tries again.  In each case the bucket is unlocked. *)
Theorem resetWindow_spec (o : options W) key sh p b nowMs s :
  shard_at (o_instanceID o) key sh s → buckets sh !! key = Some p →
  heap_of key s !! p = Some b → b_mu b = false →
  Milliseconds (o_window o) ≠ 0 →
  (window_of o nowMs <= WindowStartMs (b_window b) →
   ret (resetWindow o key nowMs) s (λ err s',
     err = None ∧ heap_of key s' !! p = Some b ∧ w_redis s' = w_redis s)) ∧
  (WindowStartMs (b_window b) < window_of o nowMs → server_ok →
   ret (resetWindow o key nowMs) s (λ err s',
     err = None ∧
     w_redis s' = (run_body ResetScript [PoolKey key; WindowStartKey key; ConfigKey key]
                     [to_i64 (o_limit o); window_of o nowMs] (w_redis s)).2 ∧
     ∃ b', heap_of key s' !! p = Some b' ∧ b_mu b' = false ∧ b_tokens b' = 0 ∧
       b_redisExhausted b' = false ∧ b_consumed b' = 0 ∧
       WindowStartMs (b_window b') = window_of o nowMs)) ∧
  (∀ e, WindowStartMs (b_window b) < window_of o nowMs → server_down e →
   ret (resetWindow o key nowMs) s (λ err s',
     err = Some (ErrWrap "reset window" e) ∧ heap_of key s' !! p = Some b ∧
     w_redis s' = w_redis s)).
Proof.
  intros Hsh Hp Hb Hmu Hw. set (bl := with_mu true b).
  assert (Hkeep : ∀ (err : option error) s1 (P : option error → Prop),
    bucket_now key p bl s s1 → P err →
    ret (bucket_Unlock key p ;;; Ret err) s1 (λ err s',
      P err ∧ heap_of key s' !! p = Some b ∧ w_redis s' = w_redis s)).
  { intros err s1 P H1 HP. eapply returns_unlock; [exact H1|].
    intros s' (Hb' & Hr' & _). unfold bl in Hb'.
    rewrite with_mu_roundtrip in Hb' by done. by split. }
  split; [|split]; [intros Hle|intros Hlt Hok|intros e Hlt Hdown];
    (eapply returns_resetWindow; [exact Hsh|exact Hp|exact Hb|exact Hmu|]);
    intros s1 H1; unfold reset_locked; cbv zeta;
    rewrite (proj2 (Z.eqb_neq (Milliseconds (o_window o)) 0)) by done;
    fold (window_of o nowMs); apply returns_bind;
    (eapply returns_bucket_bind; [exact H1|reflexivity|]); intros s2 H2;
    change (WindowStartMs (b_window bl)) with (WindowStartMs (b_window b)).
  - rewrite (proj2 (Z.leb_le _ _)) by done. apply returns_ret.
    by apply (Hkeep None s2 (λ err, err = None)).
  - rewrite (proj2 (Z.leb_gt _ _)) by done. apply returns_bind.
    apply returns_RP_ResetWindow_ok; [done|].
    set (s3 := lput redis_lens _ s2).
    assert (H3 : bucket_now key p bl s3 s3) by (split; [apply H2|by split]).
    assert (Hr3 : w_redis s3 = (run_body ResetScript [PoolKey key; WindowStartKey key;
              ConfigKey key] [to_i64 (o_limit o); window_of o nowMs] (w_redis s)).2).
    { unfold s3. cbn [lput redis_lens w_redis]. by rewrite (proj1 (proj2 H2)). }
    eapply returns_bucket_bind; [exact H3|apply surjective_pairing|]. intros s4 H4.
    eapply returns_bucket_bind; [exact H4|reflexivity|]. intros s5 H5.
    eapply returns_bucket_bind; [exact H5|reflexivity|]. intros s6 H6.
    eapply returns_bucket_bind; [exact H6|reflexivity|]. intros s7 H7.
    eapply returns_inst_bind; [exact H7|]. intros s8 H8.
    eapply returns_inst_bind; [exact H8|]. intros s9 H9.
    apply returns_ret. eapply returns_unlock; [exact H9|].
    intros s' (Hb' & Hr' & _). split; [done|]. split; [congruence|].
    eexists. split; [exact Hb'|done].
  - rewrite (proj2 (Z.leb_gt _ _)) by done. apply returns_bind.
    eapply returns_RP_ResetWindow_down; [done|]. apply returns_ret.
    by apply (Hkeep (Some (ErrWrap "reset window" e)) s2
      (λ err, err = Some (ErrWrap "reset window" e))).
Qed.
End behaviour.

(** ** Gossip bookkeeping *)

Lemma delta_lookup current known k :
  delta current known !! k =
    match current !! k with
    | Some v => if decide (default 0 (known !! k) = v) then None else Some v
    | None => (λ _, 0) <$> known !! k
    end.
Proof.
  unfold delta. rewrite lookup_union, lookup_fmap, !map_lookup_filter.
  destruct (current !! k) as [v|] eqn:E; cbn; rewrite ?E.
  - destruct (decide (default 0 (known !! k) = v)) as [Hd|Hd].
    + rewrite option_guard_False by naive_solver. cbn.
      destruct (known !! k); cbn; [|done].
      by rewrite option_guard_False by (cbn; congruence).
    + rewrite option_guard_True by done. by destruct (_ ≫= _).
  - destruct (known !! k) as [w|] eqn:Ek; cbn; [|done].
    by rewrite option_guard_True by done.
Qed.

(** Gossip catches up.  What is sent to a peer is exactly the keys whose
    value it does not have yet, with a zero for a key that is gone; and once
    the peer acknowledged it, it is known to have exactly the current
    values, so that the next delta is empty.  (Neither map holds zeroes: a
    zero stands for a key that is not there.) *)
Theorem gossip_catches_up current known :
  (∀ k v, current !! k = Some v → v ≠ 0) → (∀ k v, known !! k = Some v → v ≠ 0) →
  (∀ k, is_Some (delta current known !! k) ↔ current !! k ≠ known !! k) ∧
  acknowledge (delta current known) known = current ∧
  delta current (acknowledge (delta current known) known) = ∅.
Proof.
  intros Hc Hk.
  assert (Hack : acknowledge (delta current known) known = current).
  { apply map_eq. intros k. unfold acknowledge.
    rewrite lookup_union, !map_lookup_filter, delta_lookup.
    destruct (current !! k) as [v|] eqn:E.
    - destruct (decide (default 0 (known !! k) = v)) as [Hd|Hd]; cbn.
      + destruct (known !! k) as [w|] eqn:Ek; cbn in *.
        * rewrite delta_lookup, E, Ek. cbn. rewrite decide_True by done.
          rewrite option_guard_True by done. by subst.
        * subst. by destruct (Hc k 0 E).
      + rewrite option_guard_True by (cbn; by apply (Hc k)). by destruct (_ ≫= _).
    - destruct (known !! k) as [w|] eqn:Ek; cbn; [|done].
      rewrite option_guard_False by (cbn; tauto). cbn.
      by rewrite delta_lookup, E, Ek, option_guard_False. }
  split; [|split; [done|]].
  - intros k. rewrite delta_lookup. destruct (current !! k) as [v|] eqn:E.
    + destruct (known !! k) as [w|] eqn:Ek; cbn.
      * destruct (decide (w = v)) as [->|]; [|naive_solver].
        split; [intros [? ?]; done|congruence].
      * rewrite decide_False; [naive_solver|].
        intros <-. by apply (Hc k 0).
    + destruct (known !! k); cbn; split; [done|eauto|by intros [? ?]|done].
  - rewrite Hack. apply map_eq. intros k. rewrite delta_lookup, lookup_empty.
    destruct (current !! k) as [v|] eqn:E; [|done]. cbn. by rewrite decide_True.
Qed.

Lemma gossip_catches_up_witness :
  acknowledge (delta {["a" := 1; "b" := 2]} {["b" := 1; "c" := 3]})
    {["b" := 1; "c" := 3]} = ({["a" := 1; "b" := 2]} : gmap string Z).
Proof.
  refine (proj1 (proj2 (gossip_catches_up {["a" := 1; "b" := 2]}
                          {["b" := 1; "c" := 3]} _ _))).
  - intros k v. rewrite lookup_insert_Some, lookup_singleton_Some. lia.
  - intros k v. rewrite lookup_insert_Some, lookup_singleton_Some. lia.
Defined.

(** ** A live instance, for the witnesses *)

Definition live_bucket : bucket :=
  mkBucket false (mkLocalBucket 7) (NewWindow Fixed (60 * Second) 10000) "k" 3 0
    false false.
Definition live_shard : bucketShard := mkBShard (mkMutex false 0) {["k" := 0%nat]}.
Definition live_limiter (closed : bool) : limiter :=
  lput f_closed closed (lput f_shards (<[shard_of "k" := live_shard]> no_shards)
    (initial_limiter demo (NewEMAPredictiveRouter f64_zero))).
Definition live (closed : bool) : world mem_redis :=
  mkWorld {["k" := [live_bucket]]} ∅ (mkRW (mkMem ∅ ∅) [])
    {["a" := live_limiter closed]} [].

Lemma live_shard_at closed : shard_at "a" "k" live_shard (live closed).
Proof.
  split; [by eexists|]. split; [|done]. by destruct closed; vm_compute.
Qed.

Lemma AllowN_closed_witness :
  exec (clock_env 0) 0 (AllowN (serve demo_net) demo 3 "k" 5) (live true)
    = Done (Some (false, Some ErrClosed)) (live true) [] 0%nat.
Proof. apply (AllowN_closed (clock_env 0)). reflexivity. Defined.

Lemma getOrCreateBucket_spec_witness :
  ∃ p s' fs j, exec (clock_env 0) 0 (getOrCreateBucket demo "k") (live false)
    = Done p s' fs j ∧ p = 0%nat ∧ s' = live false.
Proof.
  destruct (getOrCreateBucket_spec (clock_env 0) demo "k" live_shard (live false)
    (live_shard_at false) 0) as (p & s' & fs & j & E & Hm).
  exists p, s', fs, j. split; [exact E|exact Hm].
Defined.

Lemma AllowN_local_hit_witness :
  ∃ a s' fs j, exec (clock_env 0) 0 (AllowN (serve demo_net) demo 0 "k" 5) (live false)
      = Done a s' fs j ∧ a = Some (true, None) ∧
    ∃ b', heap_of "k" s' !! 0%nat = Some b' ∧ b_tokens b' = 2.
Proof.
  destruct (AllowN_local_hit (clock_env 0) (serve demo_net) demo "k" 5 live_shard 0
    live_bucket (live false)) with (i := 0%nat)
    as (a & s' & fs & j & E & Ha & _ & _ & b' & Hb' & Ht & _).
  - apply live_shard_at.
  - reflexivity.
  - reflexivity.
  - reflexivity.
  - vm_compute. split; [discriminate|reflexivity].
  - vm_compute. split; discriminate.
  - exists a, s', fs, j. split; [exact E|]. split; [exact Ha|].
    exists b'. split; [exact Hb'|exact Ht].
Defined.

Lemma resetWindow_spec_witness :
  returns (clock_env 0) (resetWindow demo "k" 60000000) (live false) (λ err s',
    err = None ∧ ∃ b', heap_of "k" s' !! 0%nat = Some b' ∧ b_tokens b' = 0).
Proof.
  destruct (resetWindow_spec (clock_env 0) demo "k" live_shard 0 live_bucket
    60000000 (live false)) as (_ & Hok & _).
  - apply live_shard_at.
  - reflexivity.
  - reflexivity.
  - reflexivity.
  - vm_compute. discriminate.
  - eapply returns_mono.
    + apply Hok; [vm_compute; reflexivity|]. intros i. reflexivity.
    + intros err s' (He & _ & b' & Hb' & _ & Ht & _). split; [exact He|].
      exists b'. split; [exact Hb'|exact Ht].
Defined.
