(* ===== verification/Eviction.v ===== *)
(** * Eviction: what the janitor removes

    [evictInactiveKeys] (limiter.go) run alone, for any policy: the buckets
    it takes out of the table, and what the other components forget. *)

From S2P Require Export Behaviour.

Section eviction.
Context {R : Type} `{RedisStore R} `{FloatConv}.
Abbreviation W := (world R).
Context (env : environment) (Henv : env_ok env).
Abbreviation ret := (returns env).
Context (o : options W) (policy : EvictionPolicy) (nowMs : Z).
Let id := o_instanceID o.

(** The bucket [p] of [key] may go: the policy says so and nobody is
    borrowing for it. *)
Definition idle (s : W) (key : string) (p : nat) : bool :=
  match heap_of key s !! p with
  | Some b => ShouldEvict b nowMs && negb (isPreBorrowing b)
  | None => false
  end.

Lemma returns_get {X} key p (f : bucket → X) (s : W) b Q :
  heap_of key s !! p = Some b → Q (f b) s → ret (bucket_get key p f) s Q.
Proof.
  intros Hb HQ. eapply returns_bucket; [exact Hb|reflexivity|].
  rewrite list_insert_id by done.
  replace (put_heap key (heap_of key s) s) with s; [done|].
  revert Hb. unfold heap_of, put_heap. destruct s as [h c r ins ad]. cbn.
  destruct (h !! key) as [l|] eqn:E; [|done]. cbn. intros _. by rewrite insert_id.
Qed.

Lemma returns_evictable key p s Q :
  is_Some (heap_of key s !! p) → Q (idle s key p) s →
  ret (evictable policy key p nowMs) s Q.
Proof.
  intros [b Hb]. unfold idle, evictable. rewrite Hb. intros HQ.
  apply returns_bind. eapply returns_get; [exact Hb|].
  destruct (ShouldEvict b nowMs); cbn [andb] in HQ; [|by apply returns_ret].
  apply returns_bind. eapply returns_get; [exact Hb|]. by apply returns_ret.
Qed.

(** Every entry of the map points to a bucket. *)
Definition pointers_ok (m : gmap string nat) (s : W) : Prop :=
  ∀ k p, m !! k = Some p → is_Some (heap_of k s !! p).

Lemma returns_scan_evictable entries s Q :
  (∀ k p, (k, p) ∈ entries → is_Some (heap_of k s !! p)) →
  Q (filter (λ e, idle s e.1 e.2 = true) entries).*1 s →
  ret (scan_evictable policy entries nowMs) s Q.
Proof.
  revert Q. induction entries as [|[k p] entries IH]; intros Q Hp HQ;
    cbn [scan_evictable]; [by apply returns_ret|].
  apply returns_bind, returns_evictable; [apply Hp; by left|].
  apply returns_bind, IH; [intros k' p' Hin; apply Hp; by right|].
  apply returns_ret. revert HQ. rewrite filter_cons. cbn [fst snd].
  by destruct (idle s k p).
Qed.

(** The second pass removes what the first one found. *)
Lemma returns_evict_locked i sh0 mu keys : ∀ m s Q,
  l_shards (lget (inst_lens id) s) !! i = Some sh0 → pointers_ok m s →
  NoDup keys → (∀ k, k ∈ keys → ∃ p, m !! k = Some p ∧ idle s k p = true) →
  Q keys (put_shard id i (mkBShard mu (foldl (λ m k, delete k m) m keys)) s) →
  ret (evict_locked o policy i keys nowMs) (put_shard id i (mkBShard mu m) s) Q.
Proof.
  induction keys as [|k keys IH]; intros m s Q Hsh Hp Hnd Hk HQ;
    cbn [evict_locked]; [by apply returns_ret|].
  apply NoDup_cons in Hnd as [Hn Hnd].
  destruct (Hk k) as (p & Hm & Hidle); [by left|].
  apply returns_bind. eapply returns_on_put; [exact Hsh|reflexivity|].
  cbn [buckets]. rewrite Hm. apply returns_bind, returns_bind.
  apply (returns_evictable k p (put_shard id i (mkBShard mu m) s)); [by eapply Hp|].
  change (idle (put_shard id i (mkBShard mu m) s) k p) with (idle s k p).
  rewrite Hidle. apply returns_bind.
  eapply returns_on_put; [exact Hsh|reflexivity|]. apply returns_ret.
  cbn [sh_mu buckets]. apply returns_bind, IH; [exact Hsh| |exact Hnd| |].
  - intros k' p' Hk'. apply lookup_delete_Some in Hk' as [_ Hk']. by eapply Hp.
  - intros k' Hin. destruct (Hk k') as (p' & Hm' & Hi'); [by right|].
    exists p'. rewrite lookup_delete_ne; [done|]. by intros ->.
  - by apply returns_ret.
Qed.

(** The entries that stay. *)
Definition kept (s : W) (m : gmap string nat) : gmap string nat :=
  filter (λ e, idle s e.1 e.2 = false) m.

Lemma foldl_delete_kept s m keys :
  (∀ k, k ∈ keys ↔ ∃ p, m !! k = Some p ∧ idle s k p = true) →
  foldl (λ m k, delete k m) m keys = kept s m.
Proof.
  intros Hkeys. apply map_eq. intros k.
  rewrite foldl_delete_lookup. unfold kept. rewrite map_lookup_filter.
  destruct (decide (k ∈ keys)) as [Hin|Hin].
  - apply Hkeys in Hin as (p & -> & Hi). cbn. by rewrite Hi.
  - destruct (m !! k) as [p|] eqn:Hm; [|done]. cbn.
    destruct (idle s k p) eqn:Hi; [|done]. exfalso. apply Hin, Hkeys. eauto.
Qed.

Lemma put_same i sh (s : W) :
  is_Some (w_insts s !! id) → l_shards (lget (inst_lens id) s) !! i = Some sh →
  put_shard id i sh s = s.
Proof.
  intros [l Hl] Hsh. unfold put_shard. cbn in *. rewrite Hl in *. cbn in *.
  rewrite list_insert_id by done. destruct s as [h c r ins ad], l. cbn in *.
  by rewrite insert_id.
Qed.

Lemma returns_evict_shard i m s Q :
  is_Some (w_insts s !! id) →
  l_shards (lget (inst_lens id) s) !! i = Some (mkBShard (mkMutex false 0) m) →
  pointers_ok m s →
  (∀ keys, (∀ k, k ∈ keys ↔ ∃ p, m !! k = Some p ∧ idle s k p = true) →
     Q keys (put_shard id i (mkBShard (mkMutex false 0) (kept s m)) s)) →
  ret (evict_shard o policy i nowMs) s Q.
Proof.
  intros Hin Hsh Hp HQ. rewrite <- (put_same i _ s Hin Hsh) at 1.
  unfold evict_shard. apply returns_bind.
  eapply returns_on_put; [exact Hsh|reflexivity|].
  apply returns_bind, returns_ask. intros j.
  apply returns_bind. eapply returns_on_put; [exact Hsh|reflexivity|].
  cbn [sh_mu rw_writer rw_readers buckets].
  set (entries := env _ QOrder j (string * nat)%type (map_to_list m)).
  assert (Hperm : entries ≡ₚ map_to_list m) by exact (Henv _ QOrder j _ _).
  set (s1 := put_shard id i _ s).
  apply returns_bind, returns_scan_evictable.
  { intros k p Hk. rewrite Hperm in Hk. apply elem_of_map_to_list in Hk.
    by apply (Hp k p). }
  change (λ e, idle s1 e.1 e.2 = true) with (λ e, idle s e.1 e.2 = true).
  set (keys := (filter _ entries).*1).
  assert (Hkeys : ∀ k, k ∈ keys ↔ ∃ p, m !! k = Some p ∧ idle s k p = true).
  { intros k. unfold keys. rewrite list_elem_of_fmap. split.
    - intros ([k' p] & -> & [Hi Hin']%list_elem_of_filter).
      rewrite Hperm in Hin'. apply elem_of_map_to_list in Hin'. eauto.
    - intros (p & Hm & Hi). exists (k, p). split; [done|].
      apply list_elem_of_filter. split; [done|]. rewrite Hperm.
      by apply elem_of_map_to_list. }
  assert (Hnd : NoDup keys).
  { unfold keys. eapply sublist_NoDup; [|apply fmap_sublist, sublist_filter].
    rewrite Hperm. apply NoDup_fst_map_to_list. }
  pose proof (foldl_delete_kept s m keys Hkeys) as Hkept.
  apply returns_bind. eapply returns_on_put; [exact Hsh|reflexivity|].
  cbn [sh_mu rw_writer rw_readers buckets pred].
  specialize (HQ keys Hkeys). rewrite <- Hkept in HQ.
  destruct keys as [|k0 ks] eqn:Ek; [by apply returns_ret|].
  apply returns_bind. eapply returns_on_put; [exact Hsh|reflexivity|].
  apply returns_bind. eapply returns_evict_locked; [exact Hsh|exact Hp|exact Hnd| |].
  { intros k Hk. by apply Hkeys. }
  apply returns_bind. eapply returns_on_put; [exact Hsh|reflexivity|].
  by apply returns_ret.
Qed.

(** The shards of the instance. *)
Definition shards_of (s : W) : list bucketShard := l_shards (lget (inst_lens id) s).

Definition in_table (s : W) (k : string) : option nat :=
  shards_of s !! shard_of k ≫= λ sh, buckets sh !! k.

(** The instance runs, no shard is locked, and every entry is in the shard of
    its key and points to a bucket. *)
Record table_ok (s : W) : Prop := {
  tok_inst : is_Some (w_insts s !! id);
  tok_length : length (shards_of s) = 64%nat;
  tok_shard : ∀ i sh, shards_of s !! i = Some sh →
    sh_mu sh = mkMutex false 0 ∧ pointers_ok (buckets sh) s ∧
    ∀ k p, buckets sh !! k = Some p → shard_of k = i;
}.

(** What the passes over the shards [idxs] leave. *)
Record passed (idxs : list nat) (s s' : W) : Prop := {
  pa_heap : w_heap s' = w_heap s;
  pa_redis : w_redis s' = w_redis s;
  pa_mgr : lget (mgr_lens id) s' = lget (mgr_lens id) s;
  pa_inst : is_Some (w_insts s' !! id);
  pa_shards : ∀ i, shards_of s' !! i =
    if decide (i ∈ idxs)
    then (λ sh, mkBShard (sh_mu sh) (kept s (buckets sh))) <$> shards_of s !! i
    else shards_of s !! i;
}.

Lemma passed_put i sh idxs s s' :
  i ∉ idxs → is_Some (w_insts s !! id) → shards_of s !! i = Some sh →
  passed idxs (put_shard id i (mkBShard (sh_mu sh) (kept s (buckets sh))) s) s' →
  passed (i :: idxs) s s'.
Proof.
  intros Hi Hin Hsh [H1 H2 H3 H4 H5]. split; [exact H1|exact H2| |exact H4|].
  - rewrite H3. unfold put_shard, mgr_lens. cbn. by rewrite lookup_insert_eq.
  - intros j. rewrite H5. unfold shards_of, put_shard. rewrite shards_put.
    change (l_shards (lget (inst_lens id) s)) with (shards_of s).
    destruct (decide (j = i)) as [->|Hne].
    + rewrite decide_False by done. rewrite decide_True by (by left).
      rewrite list_lookup_insert_eq by (by eapply lookup_lt_Some). by rewrite Hsh.
    + rewrite list_lookup_insert_ne by done. apply decide_ext.
      rewrite elem_of_cons. naive_solver.
Qed.

Lemma returns_evict_shards idxs : ∀ s Q,
  is_Some (w_insts s !! id) → NoDup idxs →
  (∀ i, i ∈ idxs → ∃ m, shards_of s !! i = Some (mkBShard (mkMutex false 0) m) ∧
                        pointers_ok m s) →
  (∀ evicted s', passed idxs s s' →
     (∀ k, k ∈ evicted ↔ ∃ i sh p, i ∈ idxs ∧ shards_of s !! i = Some sh ∧
        buckets sh !! k = Some p ∧ idle s k p = true) →
     Q evicted s') →
  ret (evict_shards o policy idxs nowMs) s Q.
Proof.
  induction idxs as [|i idxs IH]; intros s Q Hin Hnd Hsh HQ; cbn [evict_shards].
  - apply returns_ret, HQ; [by split|]. intros k. split; [by intros []%not_elem_of_nil|].
    intros (i & sh & p & []%not_elem_of_nil & _).
  - apply NoDup_cons in Hnd as [Hi Hnd].
    destruct (Hsh i) as (m & Hm & Hp); [by left|]. apply returns_bind.
    eapply returns_evict_shard; [exact Hin|exact Hm|exact Hp|]. intros keys Hkeys.
    set (s1 := put_shard id i _ s).
    assert (Hne : ∀ j, j ∈ idxs → shards_of s1 !! j = shards_of s !! j).
    { intros j Hj. unfold s1, shards_of, put_shard. rewrite shards_put.
      apply list_lookup_insert_ne. by intros ->. }
    apply returns_bind, IH; [|exact Hnd| |].
    + unfold s1, put_shard. cbn. rewrite lookup_insert_eq. eauto.
    + intros j Hj. destruct (Hsh j) as (m' & Hm' & Hp'); [by right|].
      exists m'. by rewrite Hne.
    + intros evicted s' Hpass Hev. apply returns_ret, HQ.
      * by apply (passed_put i (mkBShard (mkMutex false 0) m)).
      * intros k. rewrite elem_of_app, Hkeys, Hev. split.
        -- intros [(p & Hk & Hid)|(j & sh & p & Hj & Hs & Hk & Hid)].
           ++ exists i, (mkBShard (mkMutex false 0) m), p. split; [by left|done].
           ++ exists j, sh, p. split; [by right|]. by rewrite <- (Hne j Hj).
        -- intros (j & sh & p & [->|Hj]%elem_of_cons & Hs & Hk & Hid).
           ++ left. exists p. rewrite Hs in Hm. by simplify_eq/=.
           ++ right. exists j, sh, p. by rewrite Hne.
Qed.

(** ** What follows the passes *)

(** The bucket table, the buckets, the loan book and Redis are as before. *)
Definition tail_same (s s' : W) : Prop :=
  w_heap s' = w_heap s ∧ w_redis s' = w_redis s ∧
  is_Some (w_insts s' !! id) ∧ shards_of s' = shards_of s ∧
  lget (mgr_lens id) s' = lget (mgr_lens id) s.

(** The router's hook leaves them alone, if it has one. *)
Context (hook_ok : ∀ r ev keys s,
  o_router o = Some r → r_EvictKeys r = Some ev → is_Some (w_insts s !! id) →
  ret (ev keys) s (λ _, tail_same s)).

Definition tail_rel (s s' : W) : Prop := is_Some (w_insts s !! id) → tail_same s s'.

#[local] Instance tail_rel_refl : Reflexive tail_rel.
Proof. intros s Hs. by split. Qed.
#[local] Instance tail_rel_trans : Transitive tail_rel.
Proof.
  intros s1 s2 s3 H12 H23 Hs. destruct (H12 Hs) as (A1 & A2 & A3 & A4 & A5).
  destruct (H23 A3) as (B1 & B2 & B3 & B4 & B5).
  split; [congruence|]. split; [congruence|]. split; [done|].
  split; congruence.
Qed.
#[local] Instance tail_gossip : QuietLens tail_rel (gossip_lens (R:=R) id).
Proof. intros s t Hs. unfold tail_same, shards_of. cbn. rewrite lookup_insert_eq. eauto. Qed.
#[local] Instance tail_router : QuietLens tail_rel (router_lens (R:=R) id).
Proof. intros s t Hs. unfold tail_same, shards_of. cbn. rewrite lookup_insert_eq. eauto. Qed.

(** A loop over locked shards outside the bucket table. *)
Lemma returns_tail_each {T} (l : lens W (list T)) `{!QuietLens tail_rel l} f idxs s :
  is_Some (w_insts s !! id) → NoDup idxs →
  ret (each_shard l f idxs) s (λ _, tail_same s).
Proof.
  intros Hs Hnd i.
  destruct (exec_each_shard l env f idxs i s Hnd) as (s' & Hex & _).
  exists tt, s', [], i. split; [exact Hex|].
  apply (quiet_exec tail_rel env (each_shard l f idxs) Henv) in Hex; [by apply Hex|].
  by apply quiet_each_shard.
Qed.

Lemma returns_g_EvictKeys keys s :
  is_Some (w_insts s !! id) →
  ret (g_EvictKeys (gossip_lens id) keys) s (λ _, tail_same s).
Proof.
  intros Hs. apply returns_tail_each; [|done|apply NoDup_seq].
  apply QuietLens_compose, tail_gossip.
Qed.

(** Both routers' hooks do. *)
Lemma EMA_hook_ok ev keys s :
  r_EvictKeys (NewEMARouter (R:=R) id) = Some ev → is_Some (w_insts s !! id) →
  ret (ev keys) s (λ _, tail_same s).
Proof.
  intros [= <-] Hs. apply returns_tail_each; [|done|apply NoDup_seq].
  apply QuietLens_compose, tail_router.
Qed.

Lemma Default_hook_ok ev keys s :
  r_EvictKeys (NewDefaultRouter (S:=W)) = Some ev →
  ret (ev keys) s (λ _, tail_same s).
Proof. done. Qed.

Lemma in_table_Some s k p :
  in_table s k = Some p ↔
  ∃ sh, shards_of s !! shard_of k = Some sh ∧ buckets sh !! k = Some p.
Proof.
  unfold in_table. destruct (shards_of s !! shard_of k) as [sh|]; cbn.
  - split; [eauto|]. intros (sh' & E & Hk). by simplify_eq.
  - split; [done|]. by intros (sh' & E & _).
Qed.

(** The table after the passes over all shards. *)
Lemma passed_all s s' :
  table_ok s → passed (seq 0 64) s s' →
  table_ok s' ∧ ∀ k, in_table s' k =
    in_table s k ≫= λ p, if idle s k p then None else Some p.
Proof.
  intros [Hi Hlen Hsh] [P1 P2 P3 P4 P5].
  assert (Hin : ∀ i, is_Some (shards_of s !! i) → i ∈ seq 0 64).
  { intros i Hi'. apply lookup_lt_is_Some in Hi'. apply elem_of_seq. lia. }
  assert (Hget : ∀ i, shards_of s' !! i =
    (λ sh, mkBShard (sh_mu sh) (kept s (buckets sh))) <$> shards_of s !! i).
  { intros i. rewrite P5. destruct (shards_of s !! i) as [sh|] eqn:E.
    - rewrite decide_True; [done|]. apply Hin. by rewrite E.
    - by case_decide. }
  split.
  - split; [exact P4| |].
    + rewrite <- Hlen. apply Nat.le_antisymm; apply Nat.nlt_ge; intros Hlt.
      * apply lookup_lt_is_Some in Hlt as [sh E]. rewrite Hget in E.
        apply fmap_Some in E as (sh0 & E & _). apply lookup_lt_Some in E. lia.
      * apply lookup_lt_is_Some in Hlt as [sh E].
        assert (E' : shards_of s' !! length (shards_of s') = None)
          by (by apply lookup_ge_None_2).
        rewrite Hget, E in E'. done.
    + intros i sh' E. rewrite Hget in E. apply fmap_Some in E as (sh & E & ->).
      destruct (Hsh i sh E) as (H1 & H2 & H3). split; [exact H1|]. split.
      * intros k p Hk. apply map_lookup_filter_Some in Hk as [Hk _].
        unfold heap_of. rewrite P1. by apply (H2 k p).
      * intros k p Hk. apply map_lookup_filter_Some in Hk as [Hk _]. by eapply H3.
  - intros k. unfold in_table. rewrite Hget.
    destruct (shards_of s !! shard_of k) as [sh|]; cbn; [|done].
    unfold kept. rewrite map_lookup_filter.
    destruct (buckets sh !! k) as [p|]; cbn; [|done].
    by destruct (idle s k p).
Qed.

(** The amount on loan for a key, as the manager's table has it. *)
Definition loan (s : W) (k : string) : option keyState :=
  t_lookup k (activeKeys (lget (mgr_lens id) s)).

(** A key whose bucket is idle is gone, with its loan; any other is as it
    was. *)
Definition key_result (s s' : W) (k : string) : Prop :=
  match in_table s k with
  | Some p =>
      if idle s k p then in_table s' k = None ∧ loan s' k = None
      else in_table s' k = Some p ∧ loan s' k = loan s k
  | None => in_table s' k = None ∧ loan s' k = loan s k
  end.

Lemma evicted_keys s (evicted : list string) :
  table_ok s →
  (∀ k, k ∈ evicted ↔ ∃ i sh p, i ∈ seq 0 64 ∧ shards_of s !! i = Some sh ∧
     buckets sh !! k = Some p ∧ idle s k p = true) →
  ∀ k, k ∈ evicted ↔ ∃ p, in_table s k = Some p ∧ idle s k p = true.
Proof.
  intros Hok Hev k. rewrite Hev. split.
  - intros (i & sh & p & _ & Hsh & Hk & Hid). exists p. split; [|done].
    destruct (tok_shard s Hok i sh Hsh) as (_ & _ & Hhome).
    apply in_table_Some. exists sh. by rewrite (Hhome k p Hk).
  - intros (p & Hk & Hid). apply in_table_Some in Hk as (sh & Hsh & Hk).
    exists (shard_of k), sh, p. split; [|done].
    apply elem_of_seq. pose proof (shard_of_lt k). lia.
Qed.

Lemma key_results s s1 s' (evicted : list string) :
  table_ok s → passed (seq 0 64) s s1 → tail_same (lput (mgr_lens id)
    (bm_EvictKeys evicted (lget (mgr_lens id) s1)) s1) s' ∨ (evicted = [] ∧ s' = s1) →
  (∀ k, k ∈ evicted ↔ ∃ p, in_table s k = Some p ∧ idle s k p = true) →
  bm_wf (lget (mgr_lens id) s) →
  w_heap s' = w_heap s ∧ w_redis s' = w_redis s ∧ table_ok s' ∧ ∀ k, key_result s s' k.
Proof.
  intros Hok Hpass Htail Hkey Hwf.
  destruct (passed_all s s1 Hok Hpass) as [Hok1 Htab].
  assert (Hs' : w_heap s' = w_heap s1 ∧ w_redis s' = w_redis s1 ∧
    is_Some (w_insts s' !! id) ∧ shards_of s' = shards_of s1 ∧
    ∀ k, loan s' k = if decide (k ∈ evicted) then None else loan s1 k).
  { destruct Htail as [(H1 & H2 & H3 & H4 & H5)|[-> ->]].
    - split; [done|]. split; [done|]. split; [done|]. split.
      + rewrite H4. unfold shards_of. cbn. by rewrite lookup_insert_eq.
      + intros k. unfold loan. rewrite H5, lget_put. unfold bm_EvictKeys.
        cbn [activeKeys with_activeKeys]. rewrite (t_lookup_evict_keys evicted); [done|].
        destruct Hpass as [_ _ -> _ _]. apply Hwf.
    - split; [done|]. split; [done|]. split; [apply Hok1|]. split; [done|].
      intros k. by rewrite decide_False by apply not_elem_of_nil. }
  destruct Hs' as (H1 & H2 & H3 & H4 & H5). pose proof Hpass as [P1 P2 P3 _ _].
  assert (H6 : ∀ k, in_table s' k = in_table s1 k) by (intros k; unfold in_table; by rewrite H4).
  assert (H7 : ∀ k, loan s1 k = loan s k) by (intros k; unfold loan; by rewrite P3).
  split; [congruence|]. split; [congruence|]. split.
  - destruct Hok1 as [_ T2 T3]. split; [exact H3|by rewrite H4|].
    intros i sh. rewrite H4. intros (A & B & C)%T3. split; [done|]. split; [|done].
    intros k p Hk. unfold heap_of. rewrite H1. by apply (B k p).
  - intros k. unfold key_result. rewrite H5, H6, H7, Htab.
    destruct (in_table s k) as [p|] eqn:Ek; cbn.
    + destruct (idle s k p) eqn:Eid.
      * rewrite decide_True; [done|]. apply Hkey. eauto.
      * rewrite decide_False; [done|]. intros (p' & E1 & E2)%Hkey.
        rewrite Ek in E1. injection E1 as <-. by rewrite Eid in E2.
    + rewrite decide_False; [done|]. intros (p' & E1 & _)%Hkey.
      by rewrite Ek in E1.
Qed.

(** C17: what the janitor evicts.  [evictInactiveKeys] removes from the table
    exactly the keys whose bucket the policy gives up and for which nobody
    is borrowing; the loan book forgets those keys and no others; the
    buckets themselves, which a request may still hold, and Redis are left
    alone; and every shard is unlocked again. *)
Theorem evictInactiveKeys_spec s :
  table_ok s → bm_wf (lget (mgr_lens id) s) →
  ret (evictInactiveKeys o policy nowMs) s (λ _ s',
    w_heap s' = w_heap s ∧ w_redis s' = w_redis s ∧ table_ok s' ∧
    ∀ k, key_result s s' k).
Proof.
  intros Hok Hwf. unfold evictInactiveKeys. apply returns_bind.
  apply returns_evict_shards; [apply Hok|apply NoDup_seq| |].
  { intros i Hi%elem_of_seq.
    destruct (lookup_lt_is_Some_2 (shards_of s) i) as [[mu m] Hsh];
      [rewrite tok_length by done; lia|].
    destruct (tok_shard s Hok i _ Hsh) as (Hmu & Hp & _). cbn in Hmu. subst mu. eauto. }
  intros evicted s1 Hpass Hev. pose proof (evicted_keys s evicted Hok Hev) as Hkey.
  assert (HQ := λ s' Ht, key_results s s1 s' evicted Hok Hpass Ht Hkey Hwf).
  destruct evicted as [|k0 ks]; [apply returns_ret, HQ; by right|].
  set (evicted := k0 :: ks) in *. apply returns_bind, returns_zoom_modify.
  set (s2 := lput (mgr_lens id) _ s1) in *.
  assert (H2 : is_Some (w_insts s2 !! id))
    by (unfold s2; cbn; rewrite lookup_insert_eq; eauto).
  apply returns_bind. eapply returns_mono; [by apply returns_g_EvictKeys|].
  intros [] s3 H3. pose proof H3 as (_ & _ & Hi3 & _).
  destruct (o_router o) as [r|] eqn:Er; [|apply returns_ret, HQ; by left].
  destruct (r_EvictKeys r) as [ev|] eqn:Ee; [|apply returns_ret, HQ; by left].
  eapply returns_mono; [by apply (hook_ok r ev)|].
  intros [] s4 H4. apply HQ. left.
  by apply (tail_rel_trans s2 s3 s4 (λ _, H3) (λ _, H4)).
Qed.
End eviction.

(** ** The witness: a key unused for two minutes *)

Lemma live_table_ok : table_ok demo (live false).
Proof.
  split; [by eexists|reflexivity|].
  intros i sh Hsh. unfold shards_of in Hsh.
  change (l_shards _) with (<[shard_of "k" := live_shard]> no_shards) in Hsh.
  apply list_lookup_insert_Some in Hsh as [(<- & <- & _)|[_ Hsh]].
  - split; [done|]. split.
    + intros k p. cbn. intros [<- <-]%lookup_singleton_Some. by eexists.
    + intros k p. cbn. by intros [<- _]%lookup_singleton_Some.
  - unfold no_shards in Hsh. apply lookup_replicate in Hsh as [-> _].
    split; [done|]. by split.
Qed.

Lemma evictInactiveKeys_spec_witness :
  returns (clock_env 0)
    (evictInactiveKeys demo (idle_policy (mkIdle (60 * Second))) 120000) (live false)
    (λ _ s', heap_of "k" s' = [live_bucket] ∧ in_table demo s' "k" = None).
Proof.
  eapply returns_mono.
  - apply (evictInactiveKeys_spec (clock_env 0) (clock_env_ok 0) demo
      (idle_policy (mkIdle (60 * Second))) 120000).
    + intros r ev keys s [= <-]. discriminate.
    + exact live_table_ok.
    + apply empty_table_wf.
  - intros [] s' (Hh & _ & _ & Hk). split; [unfold heap_of; rewrite Hh; reflexivity|].
    specialize (Hk "k"). unfold key_result in Hk.
    assert (E : in_table demo (live false) "k" = Some 0%nat) by (vm_compute; reflexivity).
    rewrite E in Hk. cbv beta iota in Hk.
    assert (Ei : idle (idle_policy (mkIdle (60 * Second))) 120000 (live false) "k" 0 = true)
      by (vm_compute; reflexivity).
    rewrite Ei in Hk. apply Hk.
Defined.
