(* ===== verification/Probing.v ===== *)
(** * Probing: what becomes of the answers of a parallel probe

    [probeParallel] (internal/peer/acquirer.go) returns with the first grant
    and leaves the answers still to come to a goroutine.  The answers of the
    probes are in the channel here; the goroutines that put them there are
    [Peer.probe]s, each followed by one [send]. *)

From S2P Require Export Behaviour.

Section probing.
Context {S : Type} (env : environment).
Abbreviation ret := (returns env).
Context (cl : lens S chans) (a : Acquirer S) (key : string) (ch : nat).

(** What [onExtraTokens] did so far, which channels are no part of. *)
Context (f : string → Z → go S unit) (given : S → list Z).
Context (a_extra : onExtraTokens a = Some f).
Context (given_chans : ∀ c s, given (lput cl c s) = given s).
Context (f_gives : ∀ g s, ret (f key g) s (λ _ s',
           given s' = given s ++ [g] ∧ lget cl s' = lget cl s)).

(** The answers waiting in the channel. *)
Definition waiting (cap : nat) (rs : list (Z * option error)) (s : S) : Prop :=
  chans_of key (lget cl s) !! ch = Some (mkChan cap rs).

(** The tokens that came with an answer, if it is a grant. *)
Definition grant_of (r : Z * option error) : option Z :=
  match r with (g, None) => if 0 <? g then Some g else None | _ => None end.
Definition grants (rs : list (Z * option error)) : list Z := omap grant_of rs.

Lemma grants_cons r rs : grants (r :: rs) = option_list (grant_of r) ++ grants rs.
Proof. unfold grants. cbn. by destruct (grant_of r). Qed.

Lemma exec_recv {B} cap r rs (k : Z * option error → go S B) i s :
  waiting cap (r :: rs) s →
  ∃ s', waiting cap rs s' ∧ given s' = given s ∧
    exec env i (bind (recv cl key ch) k) s = exec env i (k r) s'.
Proof.
  intros Hs. unfold waiting in *. eexists. split; [|split; [|]]; cycle 2.
  - unfold recv. cbn [await bind exec]. rewrite Hs. done.
  - rewrite lget_put. unfold chans_of at 1. rewrite lookup_insert_eq. cbn.
    apply list_lookup_insert_eq. by eapply lookup_lt_Some.
  - apply given_chans.
Qed.

(** The goroutine hands on every grant it takes from the channel. *)
Lemma returns_drain_late cap rs : ∀ s,
  waiting cap rs s →
  ret (drain_late cl a key ch (length rs)) s (λ _ s',
    given s' = given s ++ grants rs ∧ waiting cap [] s').
Proof.
  induction rs as [|r rs IH]; intros s Hs; cbn [length drain_late].
  - apply returns_ret. by rewrite app_nil_r.
  - intros i. rewrite grants_cons.
    destruct (exec_recv cap r rs (λ '(got, err),
      (match err, onExtraTokens a with
       | None, Some f => if 0 <? got then f key got else Ret tt
       | _, _ => Ret tt
       end) ;;; drain_late cl a key ch (length rs)) i s Hs) as (s1 & Hs1 & Hg1 & ->).
    revert i. change (ret (let '(got, err) := r in
      (match err, onExtraTokens a with
       | None, Some f => if 0 <? got then f key got else Ret tt
       | _, _ => Ret tt
       end) ;;; drain_late cl a key ch (length rs)) s1 (λ _ s',
        given s' = given s ++ option_list (grant_of r) ++ grants rs ∧ waiting cap [] s')).
    destruct r as [g err]. rewrite a_extra. apply returns_bind.
    apply (returns_mono env _ _ (λ _ s2,
      given s2 = given s ++ option_list (grant_of (g, err)) ∧ waiting cap rs s2)).
    + cbn [grant_of]. destruct err as [e|]; [|destruct (0 <? g)]; cbn [option_list].
      * apply returns_ret. by rewrite app_nil_r.
      * eapply returns_mono; [apply f_gives|]. intros _ s2 [E1 E2].
        unfold waiting. rewrite E1, E2, Hg1. by split.
      * apply returns_ret. by rewrite app_nil_r.
    + intros _ s2 [E1 E2]. eapply returns_mono; [by apply IH|].
      intros _ s3 [E3 E4]. split; [|done]. by rewrite E3, E1, app_assoc.
Qed.

(** C30: no grant is lost.  With the answers of all its probes in the channel
    and its context alive, [probeParallel]'s loop returns the first grant
    among them and starts one goroutine; when that has run, every other grant
    was handed to [onExtraTokens], once each and in the order of arrival, and
    the channel is empty.  Without a grant the loop returns 0, no error and
    starts nothing. *)
Theorem collect_keeps_grants cap rs i s :
  (∀ j, env _ QCtxErr j = None) → waiting cap rs s →
  ∃ v s' fs j,
    exec env i (collect cl a key ch (length rs)) s = Done (v, None) s' fs j ∧
    given s' = given s ∧
    match grants rs with
    | [] => v = 0 ∧ fs = []
    | first :: others =>
        v = first ∧
        ∃ late, fs = [late] ∧ ret late s' (λ _ s'',
          given s'' = given s ++ others ∧ waiting cap [] s'')
    end.
Proof.
  intros Hctx. revert i s. induction rs as [|r rs IH]; intros i s Hs; cbn [length collect].
  - by exists 0, s, [], i.
  - cbn [bind ask exec]. rewrite Hctx. cbn beta iota.
    destruct (exec_recv cap r rs (λ '(got, err),
      match err with
      | Some _ => collect cl a key ch (length rs)
      | None =>
          if 0 <? got then
            fork (drain_late cl a key ch (length rs)) ;;; Ret (got, None)
          else collect cl a key ch (length rs)
      end) (Datatypes.S i) s Hs) as (s1 & Hs1 & Hg1 & E). rewrite E. clear E.
    destruct (IH (Datatypes.S i) s1 Hs1) as (v & s' & fs & j & Hex & Hg & Hrest).
    rewrite Hg1 in Hg, Hrest. rewrite grants_cons.
    destruct r as [g [e|]]; cbn [grant_of option_list app].
    + by exists v, s', fs, j.
    + destruct (0 <? g); cbn [option_list app]; [|by exists v, s', fs, j].
      eexists g, s1, _, _. split; [reflexivity|]. split; [done|]. split; [done|].
      eexists. split; [reflexivity|]. rewrite <- Hg1. by apply returns_drain_late.
Qed.
End probing.

(** ** The witness: three answers, two of them grants *)

Definition logged : Type := chans * list Z.
Program Definition logged_chans : lens logged chans :=
  {| lget := fst; lput c s := (c, s.2) |}.
Next Obligation. done. Qed.
Definition log_extra (key : string) (g : Z) : go logged unit :=
  modify (λ s, (s.1, s.2 ++ [g])).
Definition logging_acquirer : Acquirer logged :=
  SetExtraTokensCallback log_extra (NewAcquirer "a" 3 ProbeParallel).

Lemma collect_keeps_grants_witness :
  ∃ v s' fs j,
    exec (clock_env 0) 0 (collect logged_chans logging_acquirer "k" 0 3)
      ({["k" := [mkChan 3 [(0, None); (5, None); (7, None)]]]}, []) = Done (v, None) s' fs j ∧
    v = 5 ∧ ∃ late, fs = [late] ∧
      returns (clock_env 0) late s' (λ _ s'', s''.2 = [7]).
Proof.
  destruct (collect_keeps_grants (clock_env 0) logged_chans logging_acquirer "k" 0
    log_extra snd eq_refl (λ c s, eq_refl)) with (cap := 3%nat) (i := 0%nat)
    (rs := [(0, @None error); (5, None); (7, None)])
    (s := ({["k" := [mkChan 3 [(0, None); (5, None); (7, None)]]]} : chans, @nil Z))
    as (v & s' & fs & j & E & _ & Hv & late & Hl & Hr).
  - intros g s. apply returns_atomically. split; reflexivity.
  - intros j. reflexivity.
  - reflexivity.
  - exists v, s', fs, j. split; [exact E|]. split; [exact Hv|].
    exists late. split; [exact Hl|].
    eapply returns_mono; [exact Hr|]. intros a s'' [H _]. exact H.
Defined.
