(* ===== verification/Borrowing.v ===== *)
(** * Borrowing: [AllowN] when the bucket is short

    The slow path of [AllowN] through Redis, from the caller's request to the
    tokens in the bucket or the refusal, for an instance with the default
    router and no peers: a pool with enough, one that runs dry, and a server
    that cannot be reached. *)

From S2P Require Export Behaviour.

Section borrowing.
Context {R : Type} `{RedisLaws R} `{FloatConv}.
Abbreviation W := (world R).
Context (env : environment) (Henv : env_ok env).
Abbreviation ret := (returns env).
Context (o : options W) (key : string) (p : nat).
Let id := o_instanceID o.

(** What configurations promise of the borrow sizes. *)
Definition sizer_small (sz : AdaptiveSizer) : Prop :=
  small (minBorrow sz) ∧ small (maxBorrow sz).

(** The state as far as a request for [key] depends on it: its bucket, Redis,
    the sizer, and what gossip knows of the key's shard. *)
Record at_now (b : bucket) (w : redis_world R) (sz : AdaptiveSizer)
    (g : gossipShard) (s : W) : Prop := {
  an_bucket : heap_of key s !! p = Some b;
  an_redis : w_redis s = w;
  an_sizer : bm_sizer (lget (mgr_lens id) s) = sz;
  an_gossip : g_shards (lget (gossip_lens id) s) !! shard_of key = Some g;
  an_small : sizer_small sz;
}.

Lemma at_now_put b b' w sz g s :
  at_now b w sz g s →
  at_now b' w sz g (put_heap key (<[p:=b']> (heap_of key s)) s).
Proof.
  intros [E1 E2 E3 E4 E5]. split; [|exact E2|exact E3|exact E4|exact E5].
  unfold heap_of, put_heap. cbn. rewrite lookup_insert_eq. cbn.
  apply list_lookup_insert_eq. by eapply lookup_lt_Some.
Qed.

Lemma at_now_metric f b w sz g s :
  at_now b w sz g s →
  ret (metric id f) s (λ _, at_now b w sz g).
Proof.
  intros [E1 E2 E3 E4 E5]. apply returns_zoom_modify.
  split; [exact E1|exact E2| | |exact E5].
  - rewrite <- E3. unfold mgr_lens, inst. cbn. by rewrite lookup_insert_eq.
  - rewrite <- E4. unfold gossip_lens, inst. cbn. by rewrite lookup_insert_eq.
Qed.

Lemma now_bucket {X B} (f : bucket → X * bucket) (k : X → go W B)
    b w sz g s x b' Q :
  at_now b w sz g s → f b = (x, b') →
  (∀ s', at_now b' w sz g s' → ret (k x) s' Q) →
  ret (bind (on_bucket key p f) k) s Q.
Proof.
  intros Hs Hf HQ. apply returns_bind.
  eapply returns_bucket; [apply Hs|exact Hf|]. by apply HQ, (at_now_put b).
Qed.

Lemma now_metric {B} f (k : unit → go W B) b w sz g s Q :
  at_now b w sz g s → (∀ s', at_now b w sz g s' → ret (k tt) s' Q) →
  ret (bind (metric id f) k) s Q.
Proof.
  intros Hs HQ. apply returns_bind.
  eapply returns_mono; [eapply at_now_metric; eassumption|]. intros []. apply HQ.
Qed.

(** The manager's operations, which may change the sizer. *)
Lemma at_now_mgr {X} (f : BorrowManager → X * BorrowManager) b w sz g s :
  (∀ m, sizer_small (bm_sizer m) → sizer_small (bm_sizer (f m).2)) →
  at_now b w sz g s →
  ret (zoom (mgr_lens id) f) s (λ _ s', ∃ sz', at_now b w sz' g s').
Proof.
  intros Hf [E1 E2 E3 E4 E5]. specialize (Hf (lget (mgr_lens id) s)).
  destruct (f (lget (mgr_lens id) s)) as [x m] eqn:E.
  apply returns_atomically. rewrite E. cbn [fst snd] in *. exists (bm_sizer m).
  split; [exact E1|exact E2|by rewrite lget_put| |by apply Hf; rewrite E3].
  rewrite <- E4. unfold gossip_lens, inst. cbn. by rewrite lookup_insert_eq.
Qed.

Lemma now_mgr {X B} (f : BorrowManager → X * BorrowManager) (k : X → go W B)
    b w sz g s Q :
  (∀ m, sizer_small (bm_sizer m) → sizer_small (bm_sizer (f m).2)) →
  at_now b w sz g s →
  (∀ x sz' s', at_now b w sz' g s' → ret (k x) s' Q) →
  ret (bind (zoom (mgr_lens id) f) k) s Q.
Proof.
  intros Hf Hs HQ. apply returns_bind. eapply returns_mono; [eapply at_now_mgr; eassumption|].
  intros x s' [sz' Hs']. by eapply HQ.
Qed.

Lemma now_mgr_modify {B} (f : BorrowManager → BorrowManager) (k : unit → go W B)
    b w sz g s Q :
  (∀ m, sizer_small (bm_sizer m) → sizer_small (bm_sizer (f m))) →
  at_now b w sz g s →
  (∀ sz' s', at_now b w sz' g s' → ret (k tt) s' Q) →
  ret (bind (zoom_modify (mgr_lens id) f) k) s Q.
Proof.
  intros Hf Hs HQ. apply (now_mgr (λ m, (tt, f m)) k b w sz g s Q Hf Hs).
  intros []. apply HQ.
Qed.

Lemma now_record_allowed {B} n local (k : unit → go W B) b w sz g s Q :
  at_now b w sz g s →
  (∀ sz' s', at_now (recordConsumption n b) w sz' g s' → ret (k tt) s' Q) →
  ret (bind (record_allowed o key p n local) k) s Q.
Proof.
  intros Hs HQ. apply returns_bind. unfold record_allowed.
  eapply now_bucket; [exact Hs|reflexivity|]. intros s1 E1.
  eapply now_bucket; [exact E1|reflexivity|]. intros s2 E2.
  eapply now_mgr_modify; [done|exact E2|]. intros sz' s3 E3.
  apply returns_bind. eapply (returns_mono env _ _
    (λ _, at_now (recordConsumption n b) w sz' g)).
  { destruct local; [eapply at_now_metric; eassumption|by apply returns_ret]. }
  intros [] s4 E4.
  eapply now_metric; [exact E4|]. intros s5 E5.
  eapply now_metric; [exact E5|]. intros s6 E6.
  eapply returns_mono; [eapply at_now_metric; eassumption|]. intros [] s7 E7. by eapply HQ.
Qed.

(** ** Nobody to ask *)

Lemma TopK_nobody now g k (o1 o2 : ∀ A : Type, list A → list A) :
  (∀ A (l : list A), o1 A l ≡ₚ l) → (∀ A (l : list A), o2 A l ≡ₚ l) →
  peerBorrowed g = ∅ → 0 <= k → TopK key now g k o1 o2 = Some [].
Proof.
  intros E1 E2 Hg Hk. unfold TopK. rewrite Hg, map_to_list_empty.
  rewrite (proj1 (Permutation_nil_r (o1 _ [])) (E1 _ [])). cbn [foldl omap list_omap].
  destruct ((k <=? 15) && (0 <? k)); [done|].
  rewrite (proj1 (Permutation_nil_r (o2 _ [])) (E2 _ [])).
  change (Z.of_nat (length (sort_desc Surplus (@nil PeerEntry)))) with 0.
  by destruct (Z.ltb_spec k 0); [lia|].
Qed.

Lemma now_no_peers {B} serve need cb (k : Z * option error → go W B) b w sz g s Q :
  at_now b w sz g s → (∀ i, env _ (QShared key) i = None) →
  peerBorrowed g = ∅ → 0 <= o_probeK o → ret (k (0, None)) s Q →
  ret (bind (acquireFromPeers serve o key need cb) k) s Q.
Proof.
  intros Hs Halone Hg Hk HQ. apply returns_bind. unfold acquireFromPeers, acq_Acquire.
  apply returns_bind, returns_bind, returns_ask. intros i. rewrite Halone.
  apply returns_bind, returns_bind. unfold acquire. apply returns_bind.
  unfold rank_peers, limiter_ranker, gossip_ranker, g_TopK.
  apply returns_bind, returns_ask. intros j1.
  apply returns_bind, returns_ask. intros j2.
  apply returns_bind, returns_ask. intros j3.
  apply returns_bind, returns_atomically. cbn [fst snd].
  pose proof (an_gossip _ _ _ _ _ Hs) as Eg. unfold id in Eg. rewrite Eg.
  rewrite TopK_nobody; [|exact (Henv _ QOrder j2)|exact (Henv _ QOrder j3)|done|].
  - do 2 apply returns_ret. cbn [Z.ltb Z.compare].
    by repeat (apply returns_bind || apply returns_ret).
  - unfold limiter_acquirer. by destruct (o_metrics o).
Qed.

(** ** A borrow that reaches Redis *)

#[local] Existing Instance limiter_pool.

(** What the pool of the key holds. *)
Definition pool_in (w : redis_world R) : Z :=
  default 0 (redis_GET (PoolKey key) (rw_store w)).

Lemma now_Borrow {B} inst_id req ttl (k : Z * option error → go W B) b w sz g s Q :
  at_now b w sz g s → server_ok env → 0 <= req <= 2 ^ 53 → 0 <= pool_in w <= 2 ^ 53 →
  (∀ w' s', at_now b w' sz g s' → pool_in w' = pool_in w - Z.min req (pool_in w) →
     ret (k (Z.min req (pool_in w), None)) s' Q) →
  ret (bind (Borrow key inst_id req ttl) k) s Q.
Proof.
  intros [E1 E2 E3 E4 E5] Hok Hreq Hpool HQ. apply returns_bind.
  unfold Borrow, limiter_pool, redis_pool_client, RP_Borrow.
  apply returns_bind, returns_ask. intros i. apply returns_bind. unfold runScript.
  change (scripts NewRedisPool !! "borrow") with (Some BorrowScript).
  apply returns_bind. unfold redis_eval.
  apply returns_bind, returns_ask. intros j. rewrite Hok.
  apply returns_bind, returns_atomically. cbn [lget redis_lens run_body].
  rewrite (to_i64_small req) by (unfold is_i64; lia). rewrite E2.
  destruct (borrowLua _ _ _ _ _ _) as [g' r'] eqn:El.
  apply borrowLua_spec in El as [-> Hr']; [|apply PoolKey_BorrowedKey|lia|
    unfold lua_ok; lia|unfold lua_ok, pool_in in *; lia|apply Hpool].
  fold (pool_in w) in Hr' |- *. cbn [fst snd].
  do 3 apply returns_ret. cbn [toUint64].
  rewrite to_u64_small by (unfold is_u64; lia).
  apply (HQ (mkRW r' (EvBorrow (PoolKey key) (Z.min req (pool_in w)) :: rw_log w)));
    [|exact Hr']. split; [exact E1|reflexivity|exact E3|exact E4|exact E5].
Qed.

Lemma now_Borrow_down {B} e inst_id req ttl (k : Z * option error → go W B) s Q :
  server_down env e → ret (k (0, Some (ErrWrap "borrow script" e))) s Q →
  ret (bind (Borrow key inst_id req ttl) k) s Q.
Proof.
  intros [Hns Hdown] HQ. apply returns_bind.
  unfold Borrow, limiter_pool, redis_pool_client, RP_Borrow.
  apply returns_bind, returns_ask. intros i. apply returns_bind. unfold runScript.
  change (scripts NewRedisPool !! "borrow") with (Some BorrowScript).
  apply returns_bind. unfold redis_eval.
  apply returns_bind, returns_ask. intros j. rewrite Hdown.
  apply returns_ret. cbn [isNoScriptErr]. rewrite Hns. by do 2 apply returns_ret.
Qed.

(** The size asked for. *)
Lemma returns_acquire_leader n cb b w sz g s Q :
  at_now b w sz g s →
  (∀ inst_id ttl, ret (do! (granted, err) <-
       Borrow key inst_id (Z.max n (ComputeBorrowSize sz)) ttl;
     match err with
     | Some e => Ret (0, Some e)
     | None =>
         if 0 <? granted then
           cb granted ;;;
           do! t1 <- ask QNow;
           do! t2 <- ask QNow;
           zoom_modify (mgr_lens id) (note_borrow key granted t1 t2) ;;;
           Ret (granted, None)
         else Ret (granted, None)
     end) s Q) →
  ret (acquire_leader (mgr_lens id) key n (Some cb)) s Q.
Proof.
  intros Hs HQ. unfold acquire_leader.
  apply returns_bind, returns_atomically. cbn [fst snd]. rewrite (an_sizer _ _ _ _ _ Hs).
  assert (Er : (if ComputeBorrowSize sz <? n then n else ComputeBorrowSize sz)
               = Z.max n (ComputeBorrowSize sz)).
  { destruct (Z.ltb_spec (ComputeBorrowSize sz) n); lia. }
  cbv zeta. rewrite Er. apply returns_bind, returns_atomically. cbn [fst snd]. apply HQ.
Qed.

(** [borrowMgr.Acquire] with the limiter's callback: what the pool grants. *)
Lemma now_Acquire {B} n (k : Z * option error → go W B) b w sz g s Q :
  at_now b w sz g s → server_ok env → (∀ i, env _ (QShared key) i = None) →
  small n → small (pool_in w) →
  let got := Z.min (Z.max n (ComputeBorrowSize sz)) (pool_in w) in
  (∀ w' sz' s',
     at_now (if 0 <? got then refill got (ClearRedisExhausted b) else b) w' sz' g s' →
     pool_in w' = pool_in w - got → ret (k (got, None)) s' Q) →
  ret (bind (Acquire (mgr_lens id) None key n (Some (refill_cleared key p))) k) s Q.
Proof.
  intros Hs Hok Halone Hn Hpool got HQ. apply returns_bind.
  assert (Hsz : small (ComputeBorrowSize sz)) by (apply ComputeBorrowSize_small; apply Hs).
  unfold small in Hn, Hpool, Hsz.
  unfold Acquire. apply returns_bind, returns_ask. intros i. rewrite Halone.
  apply returns_bind. eapply returns_acquire_leader; [exact Hs|]. intros inst_id ttl.
  eapply now_Borrow; [exact Hs|exact Hok|lia|exact Hpool|]. fold got.
  intros w' s1 Hs1 Hw'. cbn beta iota.
  assert (Hgot : 0 <= got) by lia. destruct (Z.ltb_spec 0 got) as [Hpos|Hzero].
  - unfold refill_cleared.
    apply returns_bind, returns_bind. eapply returns_bucket; [apply Hs1|reflexivity|].
    pose proof (at_now_put b (ClearRedisExhausted b) _ _ _ _ Hs1) as Hs2.
    eapply returns_bucket; [apply Hs2|reflexivity|].
    pose proof (at_now_put _ (refill got (ClearRedisExhausted b)) _ _ _ _ Hs2) as Hs3.
    apply returns_bind, returns_ask. intros t1. apply returns_bind, returns_ask. intros t2.
    eapply now_mgr_modify; [done|exact Hs3|]. intros sz1 s4 Hs4. apply returns_ret.
    cbn beta iota. rewrite (proj2 (Z.eqb_neq got 0)) by lia.
    eapply now_mgr_modify; [done|exact Hs4|]. intros sz2 s5 Hs5.
    apply returns_bind, returns_ret, returns_ret. by eapply HQ.
  - apply returns_ret. assert (got = 0) as E by lia. rewrite E in *. cbn beta iota.
    apply returns_ret. by eapply HQ.
Qed.

Lemma now_Acquire_down {B} e n (k : Z * option error → go W B) b w sz g s Q :
  at_now b w sz g s → server_down env e → (∀ i, env _ (QShared key) i = None) →
  ret (k (0, Some (ErrWrap "borrow script" e))) s Q →
  ret (bind (Acquire (mgr_lens id) None key n (Some (refill_cleared key p))) k) s Q.
Proof.
  intros Hs Hdown Halone HQ. apply returns_bind.
  unfold Acquire. apply returns_bind, returns_ask. intros i. rewrite Halone.
  apply returns_bind. eapply returns_acquire_leader; [exact Hs|]. intros inst_id ttl.
  eapply now_Borrow_down; [exact Hdown|]. by do 2 apply returns_ret.
Qed.

(** ** The branch of the loop that goes to Redis *)

Lemma tryConsume_short n b :
  0 <= n < 2 ^ 63 → lb_wf (b_local b) → b_tokens b < n → tryConsume n b = (false, b).
Proof.
  intros Hn Hb Hlt. unfold tryConsume, b_tokens in *.
  rewrite TryConsume_spec, (proj2 (Z.ltb_lt _ _)) by done. by destruct b.
Qed.

Lemma tryConsume_enough n b :
  0 <= n < 2 ^ 63 → lb_wf (b_local b) → n <= b_tokens b →
  tryConsume n b = (true, with_local (mkLocalBucket (b_tokens b - n)) b).
Proof.
  intros Hn Hb Hle. unfold tryConsume, b_tokens in *.
  by rewrite TryConsume_spec, (proj2 (Z.ltb_ge _ _)) by done.
Qed.

Lemma refill_tokens g b :
  0 <= g <= 2 ^ 53 → 0 <= b_tokens b <= 2 ^ 53 →
  b_tokens (refill g (ClearRedisExhausted b)) = b_tokens b + g ∧
  lb_wf (b_local (refill g (ClearRedisExhausted b))).
Proof.
  unfold b_tokens, refill, lb_wf.
  cbn [b_local with_local ClearRedisExhausted with_redisExhausted]. intros Hg Ht.
  rewrite Refill_spec by lia. cbn. lia.
Qed.

(** What it does before it looks at the grant again: [b1] has the grant. *)
Lemma returns_granted n ex (again : bool → go W (option (bool * option error))) b w sz g s Q :
  at_now b w sz g s → server_ok env → (∀ i, env _ (QShared key) i = None) →
  small n → small (pool_in w) →
  let got := Z.min (Z.max n (ComputeBorrowSize sz)) (pool_in w) in
  0 < got →
  (∀ w' sz' s', at_now (refill got (ClearRedisExhausted b)) w' sz' g s' →
     pool_in w' = pool_in w - got → ret (consume_or o key p n (again ex)) s' Q) →
  ret (from_redis o key p n ex again) s Q.
Proof.
  intros Hs Hok Halone Hn Hpool got Hgot HQ. unfold from_redis.
  apply returns_bind, returns_ask. intros i.
  eapply now_Acquire; [exact Hs|exact Hok|exact Halone|exact Hn|exact Hpool|].
  cbv zeta. fold got. apply Z.ltb_lt in Hgot as Hb. intros w1 sz1 s1 Hs1 Hw1.
  rewrite Hb in Hs1 |- *. apply returns_bind, returns_ask. intros j.
  eapply now_metric; [exact Hs1|]. intros s2 Hs2. cbn beta iota.
  eapply now_metric; [exact Hs2|]. intros s3 Hs3.
  apply returns_bind, returns_bind, returns_ask. intros j2.
  eapply returns_mono; [eapply at_now_mgr; [|eassumption]|].
  { intros m Hm. unfold Borrowed. destruct (t_lookup _ _); [|done].
    by destruct (lease_expired _ _ _). }
  intros v s4 [sz4 Hs4]. eapply now_metric; [exact Hs4|]. intros s5 Hs5.
  by eapply HQ.
Qed.

(** Enough: the request is admitted. *)
Lemma returns_from_redis n ex (again : bool → go W (option (bool * option error))) b w sz g s Q :
  at_now b w sz g s → server_ok env → (∀ i, env _ (QShared key) i = None) →
  small n → small (pool_in w) →
  let got := Z.min (Z.max n (ComputeBorrowSize sz)) (pool_in w) in
  n <= pool_in w → 0 <= b_tokens b < n →
  (∀ b' w' sz' s', at_now b' w' sz' g s' → pool_in w' = pool_in w - got →
     b_tokens b' = b_tokens b + got - n →
     b_consumed b' = to_u64 (b_consumed b + n) → Q (Some (true, None)) s') →
  ret (from_redis o key p n ex again) s Q.
Proof.
  intros Hs Hok Halone Hn Hpool got Hle Ht HQ. unfold small in Hn, Hpool.
  eapply returns_granted; [exact Hs|exact Hok|exact Halone|exact Hn|exact Hpool|
    fold got; lia|]. cbv zeta. fold got. intros w5 sz5 s5 Hs5 Hw5.
  set (b1 := refill got (ClearRedisExhausted b)) in *.
  destruct (refill_tokens got b) as [Hb1 Hwf1]; [lia|lia|]. fold b1 in Hb1, Hwf1.
  unfold consume_or. eapply now_bucket; [exact Hs5| |].
  { apply tryConsume_enough; [lia|exact Hwf1|rewrite Hb1; lia]. }
  intros s6 Hs6. eapply now_record_allowed; [exact Hs6|]. intros sz7 s7 Hs7.
  apply returns_ret. eapply HQ; [exact Hs7|exact Hw5| |done].
  change (b_tokens b1 - n = b_tokens b + got - n). by rewrite Hb1.
Qed.

(** Too little: the bucket keeps it, and the loop goes round. *)
Lemma returns_from_redis_short n ex (again : bool → go W (option (bool * option error)))
    b w sz g s Q :
  at_now b w sz g s → server_ok env → (∀ i, env _ (QShared key) i = None) →
  small n → small (pool_in w) → 0 < pool_in w → 0 <= b_tokens b →
  b_tokens b + pool_in w < n →
  (∀ b' w' sz' s', at_now b' w' sz' g s' → pool_in w' = 0 →
     b_tokens b' = b_tokens b + pool_in w → b_consumed b' = b_consumed b →
     ret (again ex) s' Q) →
  ret (from_redis o key p n ex again) s Q.
Proof.
  intros Hs Hok Halone Hn Hpool Hpos Hb Hlt HQ. unfold small in Hn, Hpool.
  assert (E : Z.min (Z.max n (ComputeBorrowSize sz)) (pool_in w) = pool_in w) by lia.
  eapply returns_granted; [exact Hs|exact Hok|exact Halone|exact Hn|exact Hpool|
    by rewrite E|]. cbv zeta. rewrite E. intros w5 sz5 s5 Hs5 Hw5.
  destruct (refill_tokens (pool_in w) b) as [Hb1 Hwf1]; [lia|lia|].
  unfold consume_or. eapply now_bucket; [exact Hs5| |].
  { apply tryConsume_short; [lia|exact Hwf1|rewrite Hb1; lia]. }
  intros s6 Hs6. eapply HQ; [exact Hs6|lia|exact Hb1|done].
Qed.

(** Nothing: the pool is marked exhausted, and the loop goes round. *)
Lemma returns_from_redis_dry n ex (again : bool → go W (option (bool * option error)))
    b w sz g s Q :
  at_now b w sz g s → server_ok env → (∀ i, env _ (QShared key) i = None) →
  small n → pool_in w = 0 →
  (∀ w' sz' s', at_now (MarkRedisExhausted b) w' sz' g s' → pool_in w' = 0 →
     ret (again true) s' Q) →
  ret (from_redis o key p n ex again) s Q.
Proof.
  intros Hs Hok Halone Hn Hpool HQ. unfold from_redis.
  apply returns_bind, returns_ask. intros i.
  eapply now_Acquire; [exact Hs|exact Hok|exact Halone|exact Hn|
    rewrite Hpool; unfold small; lia|].
  assert (E : Z.min (Z.max n (ComputeBorrowSize sz)) (pool_in w) = 0)
    by (unfold small in Hn; lia). cbv zeta. rewrite E, Hpool.
  intros w1 sz1 s1 Hs1 Hw1. apply returns_bind, returns_ask. intros j.
  eapply now_metric; [exact Hs1|]. intros s2 Hs2. cbn beta iota.
  eapply now_bucket; [exact Hs2|reflexivity|]. intros s3 Hs3.
  eapply now_metric; [exact Hs3|]. intros s4 Hs4. by eapply HQ.
Qed.

(** ** The request

    A request for more than the bucket holds, in a window that is not due, at
    a pool not yet known to be exhausted. *)

Record lacking (n : Z) (sh : bucketShard) (b : bucket) (s : W) : Prop := {
  lk_shard : shard_at id key sh s;
  lk_open : lget (inst id f_closed) s = false;
  lk_pointer : buckets sh !! key = Some p;
  lk_local : lb_wf (b_local b);
  lk_exhausted : b_redisExhausted b = false;
  lk_due i : needsReset (UnixMilli (env _ QNow i)) b = false;
  lk_tokens : 0 <= b_tokens b < n;
  lk_small : small n;
}.

(** A description of the state that survives what a request does to its own
    bucket and to the metrics. *)
Record describes (P : bucket → W → Prop) : Prop := {
  ds_bucket b s : P b s → heap_of key s !! p = Some b;
  ds_put b b' s : P b s → P b' (put_heap key (<[p:=b']> (heap_of key s)) s);
  ds_metric f b s : P b s → P b (lput (inst id f_metrics)
                                  (f (lget (inst id f_metrics) s)) s);
}.

Lemma put_other_field {T T'} (f : lens limiter T) (f' : lens limiter T') c (s : W) :
  (∀ l, lget f (lput f' c l) = lget f l) →
  lget (inst id f) (lput (inst id f') c s) = lget (inst id f) s.
Proof. intros Hf. cbn. rewrite lookup_insert_eq. apply Hf. Qed.

Lemma at_now_describes w sz g : describes (λ b, at_now b w sz g).
Proof.
  split; [by intros b s []|intros b b' s; apply at_now_put|].
  intros f b s [E1 E2 E3 E4 E5]. split; [exact E1|exact E2| | |exact E5].
  - rewrite <- E3. f_equal. by apply put_other_field.
  - rewrite <- E4. do 2 f_equal. by apply put_other_field.
Qed.

(** Up to the loop: the access was noted, nothing else. *)
Lemma returns_to_loop P serve fuel n sh b s Q :
  describes P → lacking n sh b s → P b s →
  (∀ t s', P (updateAccess t b) s' →
     ret (allow_loop serve o fuel key p n false false) s' Q) →
  ret (AllowN serve o fuel key n) s Q.
Proof.
  intros [Hbk Hput _] [Hsh Hcl Hp Hb Hex Hdue Ht Hn] Hs HQ. unfold small in Hn.
  assert (Hon : ∀ X B (f : bucket → X * bucket) (k : X → go W B) b x b' s Q,
    P b s → f b = (x, b') → (∀ s', P b' s' → ret (k x) s' Q) →
    ret (bind (on_bucket key p f) k) s Q).
  { intros X B f k b0 x b' s0 Q0 Hs0 Hf HQ0. apply returns_bind.
    eapply returns_bucket; [by apply Hbk|exact Hf|]. by apply HQ0, (Hput b0). }
  unfold AllowN. apply returns_bind, returns_atomically. cbn [fst snd].
  fold id. rewrite Hcl. apply returns_bind, returns_ask. intros i.
  apply returns_bind. eapply returns_getOrCreate_hit; [exact Hsh|exact Hp|].
  eapply Hon; [exact Hs|reflexivity|]. intros s1 Hs1.
  set (b1 := updateAccess _ b) in *.
  eapply Hon; [exact Hs1|apply tryConsume_short; [lia|exact Hb|apply Ht]|].
  intros s2 Hs2. unfold allow_slow. apply returns_bind, returns_ask. intros j.
  cbv zeta. eapply Hon; [exact Hs2|reflexivity|]. intros s3 Hs3.
  change (needsReset (UnixMilli (env Z QNow j)) b1)
    with (needsReset (UnixMilli (env Z QNow j)) b). rewrite Hdue.
  eapply Hon; [exact Hs3|reflexivity|]. intros s4 Hs4.
  change (IsRedisExhausted b1) with (b_redisExhausted b). rewrite Hex.
  apply returns_bind, returns_ret. by eapply HQ.
Qed.

(** What the theorems of this file start from: the default router, and
    nobody known to this instance for the key. *)
Record short_of (n : Z) (sh : bucketShard) (b : bucket) (sz : AdaptiveSizer)
    (g : gossipShard) (s : W) : Prop := {
  sf_router : o_router o = Some NewDefaultRouter;
  sf_probeK : 0 <= o_probeK o;
  sf_lacking : lacking n sh b s;
  sf_now : at_now b (w_redis s) sz g s;
  sf_nobody : peerBorrowed g = ∅;
}.

(** Up to the first question to Redis. *)
Lemma returns_slow_path serve fuel n sh b g sz s Q :
  short_of n sh b sz g s → (∀ i, env _ (QShared key) i = None) →
  (∀ t s', at_now (updateAccess t b) (w_redis s) sz g s' →
     ret (from_redis o key p n false
            (λ ex, allow_loop serve o fuel key p n ex true)) s' Q) →
  ret (AllowN serve o (Datatypes.S (Datatypes.S fuel)) key n) s Q.
Proof.
  intros [Hr Hk Hlack Hs Hg] Halone HQ.
  eapply returns_to_loop; [apply at_now_describes|exact Hlack|exact Hs|].
  intros t s4 Hs4. cbn [allow_loop]. rewrite Hr.
  apply returns_bind, returns_ret. cbn [Default_Decide rc_HasPeers negb].
  unfold from_peers. apply returns_bind, returns_ask. intros j1.
  eapply now_no_peers; [exact Hs4|exact Halone|exact Hg|exact Hk|].
  apply returns_bind, returns_ask. intros j2.
  eapply now_metric; [exact Hs4|]. intros s5 Hs5. cbn beta iota.
  cbn [Z.ltb Z.compare]. apply returns_bind, returns_ret.
  cbn [Default_Decide rc_HasPeers rc_RedisExhausted negb]. by eapply HQ.
Qed.

(** C13: the slow path.  With the default router and no peer known (and no
    window due), a request the bucket cannot serve is admitted if the pool
    holds at least [n]: one borrow of the larger of [n] and the adaptive size,
    cut to what the pool has, leaves the pool and enters the bucket, and
    exactly [n] tokens are then taken and counted. *)
Theorem AllowN_borrows serve fuel n sh b g sz s :
  let w := w_redis s in
  let got := Z.min (Z.max n (ComputeBorrowSize sz)) (pool_in w) in
  short_of n sh b sz g s → server_ok env → (∀ i, env _ (QShared key) i = None) →
  (2 <= fuel)%nat → n <= pool_in w <= 2 ^ 53 →
  ret (AllowN serve o fuel key n) s (λ a s',
    a = Some (true, None) ∧ pool_in (w_redis s') = pool_in w - got ∧
    ∃ b', heap_of key s' !! p = Some b' ∧ b_tokens b' = b_tokens b + got - n ∧
      b_consumed b' = to_u64 (b_consumed b + n)).
Proof.
  intros w got Hshort Hok Halone Hfuel Hpool.
  pose proof (lk_tokens _ _ _ _ (sf_lacking _ _ _ _ _ _ Hshort)) as Ht.
  pose proof (lk_small _ _ _ _ (sf_lacking _ _ _ _ _ _ Hshort)) as Hn.
  destruct fuel as [|[|fuel]]; [lia|lia|].
  eapply returns_slow_path; [exact Hshort|exact Halone|]. intros t s5 Hs5.
  eapply returns_from_redis; [exact Hs5|exact Hok|exact Halone|exact Hn|
    unfold small, w in *; lia|apply Hpool|apply Ht|].
  intros b' w' sz' s' Hs' Hw' Htok Hcons. split; [done|].
  destruct Hs' as [E1 E2 _ _ _]. rewrite E2. split; [exact Hw'|]. eauto.
Qed.

(** *** Refused *)

(** A pool known to be exhausted ends the loop. *)
Lemma returns_denied serve fuel n b w sz g s :
  o_router o = Some NewDefaultRouter → at_now b w sz g s →
  ret (allow_loop serve o (Datatypes.S fuel) key p n true true) s (λ a s',
    a = Some (false, None) ∧ at_now b w sz g s').
Proof.
  intros Hr Hs. cbn [allow_loop]. rewrite Hr. apply returns_bind, returns_ret.
  cbn [Default_Decide rc_HasPeers rc_RedisExhausted negb]. unfold reject.
  eapply now_metric; [exact Hs|]. intros s1 Hs1.
  eapply now_bucket; [exact Hs1|reflexivity|]. intros s2 Hs2.
  eapply now_metric; [exact Hs2|]. intros s3 Hs3. by apply returns_ret.
Qed.

(** The round after a borrow that was not enough goes to Redis again. *)
Lemma returns_again serve fuel n s Q :
  o_router o = Some NewDefaultRouter →
  ret (from_redis o key p n false
         (λ ex, allow_loop serve o fuel key p n ex true)) s Q →
  ret (allow_loop serve o (Datatypes.S fuel) key p n false true) s Q.
Proof.
  intros Hr HQ. cbn [allow_loop]. rewrite Hr. apply returns_bind, returns_ret.
  cbn [Default_Decide rc_HasPeers rc_RedisExhausted negb]. exact HQ.
Qed.

(** An empty pool is found out, and ends the loop one round later. *)
Lemma returns_dry serve fuel n ex b w sz g s :
  o_router o = Some NewDefaultRouter → at_now b w sz g s → server_ok env →
  (∀ i, env _ (QShared key) i = None) → small n → pool_in w = 0 →
  ret (from_redis o key p n ex
         (λ ex', allow_loop serve o (Datatypes.S fuel) key p n ex' true)) s (λ a s',
    a = Some (false, None) ∧ pool_in (w_redis s') = 0 ∧
    ∃ b', heap_of key s' !! p = Some b' ∧ b' = MarkRedisExhausted b).
Proof.
  intros Hr Hs Hok Halone Hn Hpool.
  eapply returns_from_redis_dry; [exact Hs|exact Hok|exact Halone|exact Hn|exact Hpool|].
  intros w1 sz1 s1 Hs1 Hw1.
  eapply returns_mono; [by apply (returns_denied serve fuel n _ _ _ _ _ Hr Hs1)|].
  cbn beta. intros a s2 [-> Hs2]. split; [done|]. destruct Hs2 as [E1 E2 _ _ _].
  rewrite E2. eauto.
Qed.

(** C15: refusals, under the conditions of [short_of].  When pool and bucket together hold less than [n], the
    request is refused without an error, but not without effect: the bucket
    has taken over what the pool held, the pool is empty and marked so, and
    nothing counts as consumed.  When Redis cannot be reached, the caller gets
    the error, and bucket and pool are as they were. *)
Theorem AllowN_refuses serve fuel n sh b g sz s :
  let w := w_redis s in
  short_of n sh b sz g s → (∀ i, env _ (QShared key) i = None) → (4 <= fuel)%nat →
  (server_ok env → 0 <= pool_in w → b_tokens b + pool_in w < n →
   ret (AllowN serve o fuel key n) s (λ a s',
     a = Some (false, None) ∧ pool_in (w_redis s') = 0 ∧
     ∃ b', heap_of key s' !! p = Some b' ∧ b_tokens b' = b_tokens b + pool_in w ∧
       b_consumed b' = b_consumed b ∧ b_redisExhausted b' = true)) ∧
  (∀ e, server_down env e →
   ret (AllowN serve o fuel key n) s (λ a s',
     a = Some (false, Some (ErrWrap "borrow script" e)) ∧ w_redis s' = w ∧
     ∃ t, heap_of key s' !! p = Some (updateAccess t b))).
Proof.
  intros w Hshort Halone Hfuel.
  pose proof (lk_tokens _ _ _ _ (sf_lacking _ _ _ _ _ _ Hshort)) as Ht.
  pose proof (lk_small _ _ _ _ (sf_lacking _ _ _ _ _ _ Hshort)) as Hn.
  pose proof (sf_router _ _ _ _ _ _ Hshort) as Hr.
  destruct fuel as [|[|[|[|fuel]]]]; [lia..|].
  split; [intros Hok Hpool Hlt|intros e Hdown];
    (eapply returns_slow_path; [exact Hshort|exact Halone|]); intros t s5 Hs5.
  - unfold small in Hn. destruct (decide (pool_in w = 0)) as [Hz|Hz].
    + eapply returns_mono; [by eapply (returns_dry serve (Datatypes.S fuel))|].
      cbn beta. intros a s' (Ha & Hp & b' & Hb' & ->). split; [exact Ha|].
      split; [exact Hp|]. eexists. split; [exact Hb'|]. rewrite Hz, Z.add_0_r. done.
    + eapply returns_from_redis_short; [exact Hs5|exact Hok|exact Halone|exact Hn|
        unfold small, w in *; lia|unfold w in *; lia|apply Ht|exact Hlt|].
      intros b1 w1 sz1 s1 Hs1 Hw1 Hb1 Hc1. apply returns_again; [exact Hr|].
      eapply returns_mono; [by eapply (returns_dry serve fuel)|].
      cbn beta. intros a s' (Ha & Hp & b' & Hb' & ->). split; [exact Ha|].
      split; [exact Hp|]. eexists. split; [exact Hb'|]. done.
  - unfold from_redis. apply returns_bind, returns_ask. intros j.
    eapply now_Acquire_down; [exact Hs5|exact Hdown|exact Halone|].
    apply returns_bind, returns_ask. intros j2.
    eapply now_metric; [exact Hs5|]. intros s6 Hs6. apply returns_ret.
    split; [done|]. destruct Hs6 as [E1 E2 _ _ _]. eauto.
Qed.
End borrowing.

(** ** Concrete requests: a bucket with 7 tokens of a window that is not due,
    and a pool with [n] *)

Definition short_bucket : bucket :=
  with_window (UpdateWindowStart 60000000 (b_window live_bucket)) live_bucket.

Definition stocked (n : Z) : world mem_redis :=
  lput redis_lens (mkRW (redis_SET (PoolKey "k") n (mkMem ∅ ∅)) [])
    (put_heap "k" [short_bucket] (live false)).

Lemma stocked_lacking (env : environment) n :
  (∀ i, env _ QNow i = 60000 * Second) →
  lacking env demo "k" 0 20 live_shard short_bucket (stocked n).
Proof.
  intros Hnow. split.
  - split; [by eexists|]. split; [vm_compute; reflexivity|reflexivity].
  - reflexivity.
  - reflexivity.
  - vm_compute. split; [discriminate|reflexivity].
  - reflexivity.
  - intros i. rewrite Hnow. reflexivity.
  - vm_compute. split; [discriminate|reflexivity].
  - vm_compute. split; discriminate.
Qed.

Lemma stocked_short (env : environment) n :
  (∀ i, env _ QNow i = 60000 * Second) →
  short_of env demo "k" 0 20 live_shard short_bucket
    (bm_sizer (lget (mgr_lens "a") (stocked 0))) empty_gshard (stocked n).
Proof.
  intros Hnow. split.
  - reflexivity.
  - vm_compute. discriminate.
  - by apply stocked_lacking.
  - split; [reflexivity|reflexivity|reflexivity|vm_compute; reflexivity|].
    vm_compute. repeat split; discriminate.
  - reflexivity.
Qed.

Lemma AllowN_borrows_witness :
  let env := clock_env (60000 * Second) in
  returns env (AllowN (serve demo_net) demo 2 "k" 20) (stocked 500) (λ a s',
    a = Some (true, None) ∧ pool_in "k" (w_redis s') = 0 ∧
    ∃ b', heap_of "k" s' !! 0%nat = Some b' ∧ b_tokens b' = 487).
Proof.
  intros env. eapply returns_mono.
  - apply (AllowN_borrows env (clock_env_ok _) demo "k" 0 (serve demo_net) 2 20
      _ _ _ _ _ (stocked_short env 500 (λ i, eq_refl))).
    + intros i. reflexivity.
    + intros i. reflexivity.
    + lia.
    + vm_compute. split; discriminate.
  - intros a s' (Ha & Hp & b' & Hb' & Ht & _). split; [exact Ha|].
    split; [rewrite Hp; vm_compute; reflexivity|].
    exists b'. split; [exact Hb'|]. rewrite Ht. vm_compute. reflexivity.
Defined.

(** The same clock, with a server that cannot be reached. *)
Definition down_env (t : Z) (e : error) : environment := λ A q i,
  match q in question A return A with
  | QTransport => TNotRun e
  | q' => clock_env t _ q' i
  end.

Lemma AllowN_refuses_witness :
  returns (clock_env (60000 * Second)) (AllowN (serve demo_net) demo 4 "k" 20)
    (stocked 5) (λ a s',
      a = Some (false, None) ∧ pool_in "k" (w_redis s') = 0 ∧
      ∃ b', heap_of "k" s' !! 0%nat = Some b' ∧ b_tokens b' = 12 ∧
        b_redisExhausted b' = true) ∧
  returns (down_env (60000 * Second) (ErrMsg "refused"))
    (AllowN (serve demo_net) demo 4 "k" 20) (stocked 500) (λ a s',
      a = Some (false, Some (ErrWrap "borrow script" (ErrMsg "refused"))) ∧
      w_redis s' = w_redis (stocked 500)).
Proof.
  assert (Hok : env_ok (down_env (60000 * Second) (ErrMsg "refused"))).
  { intros A q i. destruct q; apply (clock_env_ok (60000 * Second)) || exact I. }
  split; eapply returns_mono.
  - refine (proj1 (AllowN_refuses _ (clock_env_ok (60000 * Second)) demo "k" 0
      (serve demo_net) 4 20 _ _ _ _ _ (stocked_short _ 5 (λ i, eq_refl))
      (λ i, eq_refl) (le_n 4)) _ _ _).
    + intros i. reflexivity.
    + vm_compute. discriminate.
    + vm_compute. reflexivity.
  - intros a s' (Ha & Hp & b' & Hb' & Ht & _ & He). split; [exact Ha|].
    split; [exact Hp|]. exists b'. split; [exact Hb'|]. split; [|exact He].
    rewrite Ht. vm_compute. reflexivity.
  - refine (proj2 (AllowN_refuses _ Hok demo "k" 0
      (serve demo_net) 4 20 _ _ _ _ _ (stocked_short _ 500 (λ i, eq_refl))
      (λ i, eq_refl) (le_n 4)) (ErrMsg "refused") _).
    split; [vm_compute; reflexivity|intros i; reflexivity].
  - intros a s' (Ha & Hw & _). split; [exact Ha|exact Hw].
Defined.
