(* ===== verification/Transfer.v ===== *)
(** * Transfer: one instance lends tokens to another

    The two ends of a transfer put together: what the token server of an
    instance gives away, and the peer branch of [AllowN] of the instance that
    asks, from the ranking of the peers to the tokens in its bucket. *)

From S2P Require Export Borrowing.

Lemma heap_of_put_eq {R} key bs (s : world R) : heap_of key (put_heap key bs s) = bs.
Proof. unfold heap_of, put_heap. cbn. by rewrite lookup_insert_eq. Qed.

(** Writing back a bucket that did not change. *)
Lemma put_heap_same {R} key (q : nat) c (s : world R) :
  heap_of key s !! q = Some c → put_heap key (<[q:=c]> (heap_of key s)) s = s.
Proof.
  intros Hc. destruct s as [h ch r ins ad]. unfold put_heap, heap_of in *. cbn in *.
  destruct (h !! key) as [bs|] eqn:E; [|done]. cbn in *.
  by rewrite list_insert_id, insert_id.
Qed.

Section serving.
Context {R : Type} `{RedisLaws R} `{FloatConv}.
Abbreviation W := (world R).
Context (env : environment).
Abbreviation ret := (returns env).
Context (o : options W) (key : string) (q : nat).
Let id := o_instanceID o.

(** ** What an instance can spare *)

(** What [token_accessor] keeps back of the limit. *)
Definition reserve : Z :=
  f64_to_u64 (f64_mul (f64_of_Z (o_limit o)) (o_reservedMinimum o)).

Definition spare (c : bucket) : Z := Z.max 0 (b_tokens c - reserve).

(** The bucket after it lent [g]. *)
Definition lend (g : Z) (c : bucket) : bucket :=
  with_local (mkLocalBucket (b_tokens c - g)) c.

Definition put_bucket (c : bucket) (s : W) : W :=
  put_heap key (<[q:=c]> (heap_of key s)) s.

(** The instance holds [c] for the key. *)
Record holds (c : bucket) (s : W) : Prop := {
  hd_shard : ∃ sh, shard_at id key sh s ∧ buckets sh !! key = Some q;
  hd_bucket : heap_of key s !! q = Some c;
  hd_local : lb_wf (b_local c);
}.

Lemma put_bucket_same c s : heap_of key s !! q = Some c → put_bucket c s = s.
Proof. apply put_heap_same. Qed.

Lemma lend_nothing c : lend 0 c = c.
Proof. unfold lend, b_tokens. rewrite Z.sub_0_r. by destruct c as [? [] ? ? ? ? ? ?]. Qed.

Lemma returns_pointer {B} c s (k : nat → go W B) Q :
  holds c s → ret (k q) s Q → ret (bind (getOrCreateBucket o key) k) s Q.
Proof.
  intros [(sh & Hsh & Hp) _ _] HQ. apply returns_bind.
  by eapply returns_getOrCreate_hit.
Qed.

Lemma returns_read {X B} (f : bucket → X) c s (k : X → go W B) Q :
  holds c s → ret (k (f c)) s Q → ret (bind (bucket_get key q f) k) s Q.
Proof.
  intros Hc HQ. apply returns_bind. eapply returns_bucket; [apply Hc|reflexivity|].
  change (ret (k (f c)) (put_bucket c s) Q). by rewrite put_bucket_same by apply Hc.
Qed.

Lemma returns_accessor {B} n c s (k : Z * option error → go W B) Q :
  holds c s → ret (k (spare c, None)) s Q →
  ret (bind (token_accessor o key n) k) s Q.
Proof.
  intros Hc HQ. apply returns_bind. unfold token_accessor.
  eapply returns_pointer; [exact Hc|]. eapply returns_read; [exact Hc|].
  apply returns_ret. cbv zeta. fold reserve. unfold remaining.
  rewrite Remaining_wf by apply Hc. fold (b_tokens c). unfold spare in HQ.
  destruct (Z.leb_spec (b_tokens c) reserve);
    [rewrite Z.max_l in HQ by lia|rewrite Z.max_r in HQ by lia]; done.
Qed.

Lemma returns_transferer n c s Q :
  holds c s → 0 <= n <= b_tokens c →
  Q (n, None) (put_bucket (lend n c) s) →
  ret (token_transferer o key n) s Q.
Proof.
  intros Hc Hn HQ. unfold token_transferer. pose proof (hd_local _ _ Hc) as Hwf.
  eapply returns_pointer; [exact Hc|]. eapply returns_read; [exact Hc|].
  unfold remaining. rewrite Remaining_wf by exact Hwf. fold (b_tokens c). cbv zeta.
  rewrite (proj2 (Z.ltb_ge _ _)) by lia. destruct (Z.eqb_spec n 0) as [->|Hz].
  - apply returns_ret. by rewrite lend_nothing, put_bucket_same in HQ by apply Hc.
  - apply returns_bind. eapply (returns_bucket env key q _ _ _ true (lend n c));
      [apply Hc| |apply returns_ret; exact HQ].
    apply tryConsume_enough; [|exact Hwf|lia]. unfold lb_wf, b_tokens in *. lia.
Qed.

Lemma reserve_range : 0 <= reserve < 2 ^ 64.
Proof. apply f64_to_u64_range. Qed.

Lemma spare_bounds c : lb_wf (b_local c) → 0 <= spare c <= b_tokens c.
Proof.
  pose proof reserve_range. unfold spare, lb_wf, b_tokens. lia.
Qed.

(** A proper transfer request for the key. *)
Record proper (req : TransferRequest) : Prop := {
  pr_key : LimitKey req = key;
  pr_named : key ≠ "";
  pr_amount : 0 < Requested req;
  pr_origin : OriginId req ≠ "" ∧ OriginId req ≠ id;
}.

Lemma returns_transfer req c s Q :
  proper req → holds c s →
  let g := Z.min (Requested req) (spare c) in
  Q (inr g) (put_bucket (lend g c) s) →
  ret (TransferTokens (token_server o) req) s Q.
Proof.
  intros [Hk Hne Hreq [Ho1 Ho2]] Hc g HQ. unfold TransferTokens.
  rewrite (proj2 (ValidateTransferRequest_ok req)); [|rewrite Hk; repeat split; lia || done].
  rewrite decide_False by exact Ho2.
  change (tokenAccessor (token_server o)) with (Some (token_accessor o)).
  change (tokenTransferer (token_server o)) with (Some (token_transferer o)).
  cbn beta iota. rewrite Hk. eapply returns_accessor; [exact Hc|]. cbn beta iota.
  pose proof (spare_bounds c (hd_local _ _ Hc)).
  destruct (Z.eqb_spec (spare c) 0) as [Hz|Hz].
  - apply returns_ret. assert (g = 0) as E by lia. rewrite E in HQ.
    by rewrite lend_nothing, put_bucket_same in HQ by apply Hc.
  - cbv zeta. assert (E : (if spare c <? Requested req then spare c else Requested req) = g).
    { destruct (Z.ltb_spec (spare c) (Requested req)); lia. }
    rewrite E. apply returns_bind. eapply returns_transferer; [exact Hc|lia|].
    by apply returns_ret.
Qed.

(** C28: lending.  A proper request for a key the instance has a bucket for
    is granted up to what the bucket holds above the reserve; exactly the
    grant leaves the bucket, which stays at the reserve or above if anything
    was granted, and nothing else of the world changes.  For a key without a
    bucket the grant is zero, and the key has an empty bucket afterwards. *)
Theorem TransferTokens_lends req s :
  proper req →
  (∀ c, holds c s →
   ret (TransferTokens (token_server o) req) s (λ r s',
     ∃ g, r = inr g ∧ 0 <= g <= Requested req ∧
       (g < Requested req → b_tokens c - g <= reserve) ∧
       (0 < g → reserve <= b_tokens c - g) ∧
       s' = put_bucket (lend g c) s)) ∧
  (∀ sh, shard_at id key sh s → buckets sh !! key = None →
   ret (TransferTokens (token_server o) req) s (λ r s',
     r = inr 0 ∧ ∃ now, s' = after_create o key sh now s)).
Proof.
  intros Hreq. pose proof (pr_amount _ Hreq). split.
  - intros c Hc. pose proof (hd_local _ _ Hc) as Hwf.
    eapply returns_transfer; [exact Hreq|exact Hc|].
    exists (Z.min (Requested req) (spare c)). unfold spare, lb_wf, b_tokens in *.
    pose proof reserve_range. repeat split; lia.
  - intros sh Hsh Hmiss. destruct Hreq as [Hk Hne _ [Ho1 Ho2]]. unfold TransferTokens.
    rewrite (proj2 (ValidateTransferRequest_ok req));
      [|rewrite Hk; repeat split; lia || done].
    rewrite decide_False by exact Ho2.
    change (tokenAccessor (token_server o)) with (Some (token_accessor o)).
    change (tokenTransferer (token_server o)) with (Some (token_transferer o)).
    cbn beta iota. rewrite Hk. apply returns_bind, returns_bind.
    eapply returns_getOrCreate_miss; [exact Hsh|exact Hmiss|]. intros now.
    apply returns_bind.
    set (s1 := after_create o key sh now s).
    assert (Hb : heap_of key s1 !! length (heap_of key s) = Some (fresh_bucket o key now)).
    { change (heap_of key s1) with (heap_of key (put_heap key
        (heap_of key s ++ [fresh_bucket o key now]) s)).
      rewrite heap_of_put_eq. by apply list_lookup_middle. }
    eapply returns_bucket; [exact Hb|reflexivity|].
    apply returns_ret. cbn beta iota zeta. fold reserve.
    rewrite (proj2 (Z.leb_le _ _)) by apply reserve_range.
    apply returns_ret. split; [done|]. exists now. fold s1.
    by apply put_heap_same.
Qed.
End serving.

(** ** Asking

    The instance [o] with the bucket [p], the peer [o2] with the bucket [q];
    the asking instance has a connection to the peer, and ranks it first. *)

Section asking.
Context {R : Type} `{RedisLaws R} `{FloatConv}.
Abbreviation W := (world R).
Context (env : environment) (Henv : env_ok env).
Abbreviation ret := (returns env).
Context (serve : string → option (TokenServer W)) (o o2 : options W).
Context (key : string) (p q : nat) (client : conn).
Let id := o_instanceID o.
Let id2 := o_instanceID o2.

Record reaches (g : gossipShard) (m : Mesh) : Prop := {
  rc_serve : serve (c_addr client) = Some (token_server o2);
  rc_client : peer_client id2 m = Some client;
  rc_free : mesh_mu m = false;
  rc_first now (o1 o2 : ∀ A : Type, list A → list A) :
    (∀ A (l : list A), o1 A l ≡ₚ l) → (∀ A (l : list A), o2 A l ≡ₚ l) →
    ∃ e rest, TopK key now g (o_probeK o) o1 o2 = Some (e :: rest) ∧ pe_ID e = id2;
}.

(** The network and the context let the calls through, and no other
    acquisition for the key is running. *)
Record undisturbed : Prop := {
  ud_rpc i : env _ QRpc i = ROk;
  ud_ctx i : env _ QCtxErr i = None;
  ud_alone i : env _ (QShared key) i = None;
}.

Context (Hids : id ≠ id2) (Hid : id ≠ "") (Hkey : key ≠ "") (Hpq : p ≠ q).

(** Both buckets, and what the request reads. *)
Record linked (w : redis_world R) (g : gossipShard) (m : Mesh) (c b : bucket)
    (s : W) : Prop := {
  ln_bucket : heap_of key s !! p = Some b;
  ln_redis : w_redis s = w;
  ln_gossip : g_shards (lget (gossip_lens id) s) !! shard_of key = Some g;
  ln_mesh : lget (mesh_lens id) s = m;
  ln_peer : holds o2 key q c s;
}.

Lemma holds_other {T} (f : lens limiter T) c x s :
  holds o2 key q c s → holds o2 key q c (lput (inst id f) x s).
Proof.
  intros [(sh & (Hin & Hl & Hmu) & Hp) Hc Hwf]. split; [|exact Hc|exact Hwf].
  exists sh. split; [|exact Hp]. split; [|split; [|exact Hmu]].
  - cbn. by rewrite lookup_insert_ne.
  - revert Hl. cbn. by rewrite lookup_insert_ne.
Qed.

(** Fields other than the gossiper and the mesh do not matter. *)
Lemma linked_other {T} (f : lens limiter T) x w g m c b s :
  (∀ l, lget f_gossip (lput f x l) = lget f_gossip l) →
  (∀ l, lget f_mesh (lput f x l) = lget f_mesh l) →
  linked w g m c b s → linked w g m c b (lput (inst id f) x s).
Proof.
  intros Hg Hm [E1 E2 E3 E4 E5]. split; [exact E1|exact E2| | |by apply holds_other].
  - rewrite <- E3. do 2 f_equal. by apply (put_other_field o).
  - rewrite <- E4. by apply (put_other_field o).
Qed.

Lemma linked_put b b' w g m c s :
  linked w g m c b s →
  linked w g m c b' (put_heap key (<[p:=b']> (heap_of key s)) s).
Proof.
  intros [E1 E2 E3 E4 [Hsh Hc Hwf]]. split; [|exact E2|exact E3|exact E4|].
  - rewrite heap_of_put_eq. apply list_lookup_insert_eq. by eapply lookup_lt_Some.
  - split; [exact Hsh| |exact Hwf]. by rewrite heap_of_put_eq, list_lookup_insert_ne.
Qed.

Lemma linked_lend n b w g m c s :
  0 <= n <= b_tokens c → linked w g m c b s →
  linked w g m (lend n c) b (put_bucket key q (lend n c) s).
Proof.
  intros Hn [E1 E2 E3 E4 [Hsh Hc Hwf]]. split; [|exact E2|exact E3|exact E4|split].
  - unfold put_bucket. by rewrite heap_of_put_eq, list_lookup_insert_ne.
  - exact Hsh.
  - unfold put_bucket. rewrite heap_of_put_eq. apply list_lookup_insert_eq.
    by eapply lookup_lt_Some.
  - unfold lb_wf, lend, b_tokens in *. cbn. lia.
Qed.

Lemma linked_describes w g m c : describes o key p (linked w g m c).
Proof.
  split; [by intros b s []|intros b b' s; apply linked_put|].
  intros f b s. by apply linked_other.
Qed.

(** *** Steps *)

Lemma ln_metric {B} f (k : unit → go W B) b c w g m s Q :
  linked w g m c b s → (∀ s', linked w g m c b s' → ret (k tt) s' Q) →
  ret (bind (metric id f) k) s Q.
Proof. intros Hs HQ. apply returns_bind, returns_zoom_modify, HQ. by apply linked_other. Qed.

Lemma ln_bucket_do {X B} (f : bucket → X * bucket) (k : X → go W B) b c w g m s x b' Q :
  linked w g m c b s → f b = (x, b') →
  (∀ s', linked w g m c b' s' → ret (k x) s' Q) →
  ret (bind (on_bucket key p f) k) s Q.
Proof.
  intros Hs Hf HQ. apply returns_bind. eapply returns_bucket; [apply Hs|exact Hf|].
  by apply HQ, (linked_put b).
Qed.

Lemma ln_record_allowed {B} n (k : unit → go W B) b c w g m s Q :
  linked w g m c b s →
  (∀ s', linked w g m c (recordConsumption n b) s' → ret (k tt) s' Q) →
  ret (bind (record_allowed o key p n false) k) s Q.
Proof.
  intros Hs HQ. apply returns_bind. unfold record_allowed.
  eapply ln_bucket_do; [exact Hs|reflexivity|]. intros s1 H1'.
  eapply ln_bucket_do; [exact H1'|reflexivity|]. intros s2 H2'.
  apply returns_bind, returns_zoom_modify.
  apply returns_bind, returns_ret.
  eapply ln_metric; [by apply linked_other, H2'|]. intros s3 H3.
  eapply ln_metric; [exact H3|]. intros s4 H4.
  apply returns_zoom_modify, HQ. by apply linked_other.
Qed.

(** *** One probe *)

#[local] Instance asking_lookup : PeerLookup W conn := limiter_lookup o.
#[local] Instance asking_requester : TokenRequester W conn := limiter_requester serve.

(** What the acquirer is told about a probe goes to the metrics only. *)
Lemma ln_emit {B} key' peer r (k : unit → go W B) b c w g m s Q :
  linked w g m c b s → (∀ s', linked w g m c b s' → ret (k tt) s' Q) →
  ret (bind (emitProbeResult (limiter_acquirer o) key' peer r) k) s Q.
Proof.
  intros Hs HQ. apply returns_bind. unfold emitProbeResult, limiter_acquirer.
  destruct (o_metrics o); [|by apply returns_ret, HQ].
  cbn [onProbeResult SetProbeResultCallback]. unfold probe_result.
  eapply ln_metric; [exact Hs|]. intros s1 Hs1. case_decide.
  - apply returns_zoom_modify, HQ. by apply linked_other.
  - by apply returns_ret, HQ.
Qed.

Lemma ln_probe {B} n surplus (k : Z * option error → go W B) b c w g m s Q :
  linked w g m c b s → reaches g m → undisturbed → 0 < n →
  let got := Z.min n (spare o2 c) in
  (∀ s', linked w g m (lend got c) b s' → ret (k (got, None)) s' Q) →
  ret (bind (probe (limiter_acquirer o) id2 key n surplus) k) s Q.
Proof.
  intros Hs [Hsrv Hcl Hmu _] [Hrpc _ _] Hn got HQ. apply returns_bind. unfold probe.
  apply returns_bind. eapply returns_await.
  { fold id. rewrite (ln_mesh _ _ _ _ _ _ Hs), Hmu. reflexivity. }
  rewrite Hcl. apply returns_bind.
  cbn [RequestTokens asking_requester limiter_requester grpc_requester].
  unfold PC_RequestTokens. apply returns_bind. unfold rpc.
  apply returns_bind, returns_ask. intros i. rewrite Hrpc, Hsrv.
  pose proof (ln_peer _ _ _ _ _ _ Hs) as Hc.
  pose proof (spare_bounds o2 c (hd_local _ _ _ _ _ Hc)).
  apply returns_bind. eapply returns_transfer; [|exact Hc|].
  { split; [reflexivity|exact Hkey|exact Hn|].
    replace (OriginId _) with id by (unfold limiter_acquirer; by destruct (o_metrics o)).
    split; [exact Hid|exact Hids]. }
  cbn [Requested]. fold got. do 2 apply returns_ret. cbn beta iota.
  assert (Hs1 := linked_lend got b w g m c s ltac:(lia) Hs).
  destruct (Z.ltb_spec 0 got) as [Hpos|Hzero].
  - eapply ln_emit; [exact Hs1|]. intros s1 Hs2. by apply returns_ret, HQ.
  - assert (E : got = 0) by lia. rewrite E in *.
    eapply ln_emit; [exact Hs1|]. intros s1 Hs2. by apply returns_ret, HQ.
Qed.

(** *** The peer branch *)

Lemma ln_acquireFromPeers {B} n (k : Z * option error → go W B) b c w g m s Q :
  linked w g m c b s → reaches g m → undisturbed → o_probeMode o = Sequential →
  0 < n → let got := Z.min n (spare o2 c) in 0 < got →
  (∀ s', linked w g m (lend got c) (refill got b) s' → ret (k (got, None)) s' Q) →
  ret (bind (acquireFromPeers serve o key n (refill_received o key p)) k) s Q.
Proof.
  intros Hs Hreach Hud Hmode Hn got Hgot HQ. apply returns_bind.
  unfold acquireFromPeers, acq_Acquire.
  apply returns_bind, returns_bind, returns_ask. intros i. rewrite (ud_alone Hud).
  apply returns_bind, returns_bind. unfold acquire. apply returns_bind.
  unfold rank_peers, limiter_ranker, gossip_ranker, g_TopK.
  apply returns_bind, returns_ask. intros j1.
  apply returns_bind, returns_ask. intros j2.
  apply returns_bind, returns_ask. intros j3.
  apply returns_bind, returns_atomically. cbn [fst snd].
  fold id. rewrite (ln_gossip _ _ _ _ _ _ Hs).
  replace (probeK (limiter_acquirer o)) with (o_probeK o)
    by (unfold limiter_acquirer; by destruct (o_metrics o)).
  destruct (rc_first _ _ Hreach (env _ QNow j1) (env _ QOrder j2) (env _ QOrder j3)
    (Henv _ QOrder j2) (Henv _ QOrder j3)) as (e & rest & -> & He).
  apply returns_ret. cbn beta iota.
  replace (mode (limiter_acquirer o)) with ProbeSequential
    by (unfold limiter_acquirer; rewrite Hmode; by destruct (o_metrics o)).
  cbn [probeSequential]. apply returns_bind, returns_ask. intros j4.
  rewrite (ud_ctx Hud), He. eapply ln_probe; [exact Hs|exact Hreach|exact Hud|exact Hn|].
  fold got. intros s1 Hs1. cbn beta iota.
  rewrite (proj2 (Z.ltb_lt 0 got)) by lia. apply returns_ret. cbn beta iota.
  rewrite (proj2 (Z.ltb_lt 0 got)) by lia. apply returns_bind. unfold refill_received.
  eapply ln_bucket_do; [exact Hs1|reflexivity|]. intros s2 Hs2.
  apply returns_zoom_modify. do 2 apply returns_ret. cbn beta iota.
  apply returns_ret, HQ. by apply linked_other.
Qed.

(** C14: the peer branch, both ends, with the default router and sequential
    probing.  A request that misses [n - t] tokens, at an instance whose
    first-ranked peer can spare at least that much, is admitted without Redis: what the peer can spare, at most [n], moves from
    its bucket to this one, exactly [n] tokens are then taken and counted,
    and the peer keeps its reserve. *)
Theorem AllowN_from_peer fuel n sh b c g m s :
  let got := Z.min n (spare o2 c) in
  o_router o = Some NewDefaultRouter → o_probeMode o = Sequential →
  lacking env o key p n sh b s → linked (w_redis s) g m c b s →
  reaches g m → undisturbed → (1 <= fuel)%nat → n <= b_tokens b + got →
  ret (AllowN serve o fuel key n) s (λ a s',
    a = Some (true, None) ∧ w_redis s' = w_redis s ∧
    ∃ b' c', heap_of key s' !! p = Some b' ∧ heap_of key s' !! q = Some c' ∧
      b_tokens b' = b_tokens b + got - n ∧ b_consumed b' = to_u64 (b_consumed b + n) ∧
      b_tokens c' = b_tokens c - got ∧ reserve o2 <= b_tokens c').
Proof.
  intros got Hr Hmode Hlack Hs Hreach Hud Hfuel Hle.
  pose proof (lk_tokens _ _ _ _ _ _ _ _ Hlack) as Ht.
  pose proof (lk_small _ _ _ _ _ _ _ _ Hlack) as Hn. unfold small in Hn.
  destruct fuel as [|fuel]; [lia|].
  eapply returns_to_loop; [apply linked_describes|exact Hlack|exact Hs|].
  intros t s1 Hs1. cbn [allow_loop]. rewrite Hr. apply returns_bind, returns_ret.
  cbn [Default_Decide rc_HasPeers negb]. unfold from_peers.
  apply returns_bind, returns_ask. intros j1.
  eapply ln_acquireFromPeers; [exact Hs1|exact Hreach|exact Hud|exact Hmode|lia|
    fold got; lia|]. fold got. intros s2 Hs2.
  apply returns_bind, returns_ask. intros j2.
  eapply ln_metric; [exact Hs2|]. intros s3 Hs3. cbn beta iota.
  rewrite (proj2 (Z.ltb_lt 0 got)) by lia. unfold consume_or.
  set (b1 := refill got (updateAccess t b)) in *.
  assert (Hb1 : b_tokens b1 = b_tokens b + got).
  { unfold b1, refill, b_tokens in *. cbn [b_local with_local updateAccess].
    rewrite Refill_spec; [done|lia..]. }
  eapply ln_bucket_do; [exact Hs3|apply tryConsume_enough|].
  { lia. } { unfold lb_wf. fold (b_tokens b1). lia. } { lia. }
  intros s4 Hs4. cbn beta iota.
  eapply ln_record_allowed; [exact Hs4|]. intros s5 [E1 E2 _ _ [_ E3 _]].
  apply returns_ret. split; [done|]. split; [exact E2|]. do 2 eexists.
  split; [exact E1|]. split; [exact E3|]. rewrite Hb1. cbn.
  split; [reflexivity|]. split; [reflexivity|]. split; [reflexivity|].
  change (reserve o2 <= b_tokens c - got).
  assert (0 < got) by lia. subst got. unfold spare in *. lia.
Qed.
End asking.

(** A peer that alone has a surplus is ranked first. *)
Lemma TopK_only `{FloatConv} key g k peer bm now (o1 o2 : ∀ A : Type, list A → list A) :
  0 < k → peerBorrowed g = {[peer := bm]} →
  is_Some (candidate key now g (peer, bm)) →
  (∀ A (l : list A), o1 A l ≡ₚ l) → (∀ A (l : list A), o2 A l ≡ₚ l) →
  ∃ e rest, TopK key now g k o1 o2 = Some (e :: rest) ∧ pe_ID e = peer.
Proof.
  intros Hk Hg [e He] E1 E2.
  destruct (TopK_sort key now g o1 o2 E1 E2 k Hk) as (l & Hl & ->).
  rewrite Hg, map_to_list_singleton in Hl. cbn [omap list_omap] in Hl. rewrite He in Hl.
  apply Permutation_singleton_r in Hl as ->. exists e, [].
  replace (Z.to_nat k) with (Datatypes.S (pred (Z.to_nat k))) by lia.
  split; [by destruct (pred _)|].
  unfold candidate in He. by repeat case_match; simplify_eq/=.
Qed.

(** ** Concrete instances: "a" misses 13 of 20 tokens, "b" has 40 to spare *)

Definition asker : options (world mem_redis) := WithProbeMode Sequential demo.
Definition lender : options (world mem_redis) := WithInstanceID "b" defaultOptions.
Definition lender_conn : conn := mkConn 0 "host:7100".
Definition lender_bucket : bucket := lend (-1033) short_bucket.

Definition knows_lender : gossipShard :=
  mkGShard {["b" := {["k" := 0]}]} {["b" := {["k" := 500]}]} ∅ ∅ ∅ ∅.

Definition lender_mesh : Mesh :=
  with_peers {["b" := mkPeer "b" "host:7100" "" (Some lender_conn)
                             (Some lender_conn) 0 true]} (NewMesh "a").

Definition two_instances : world mem_redis :=
  lput (inst "b" f_shards)
    (<[shard_of "k" := mkBShard (mkMutex false 0) {["k" := 1%nat]}]> no_shards)
    (lput (gossip_lens "a")
       (mkGossiper (f64_const 1 2) (replicate gossipShardCount knows_lender) ∅)
       (lput (mesh_lens "a") lender_mesh
          (put_heap "k" [short_bucket; lender_bucket] (live false)))).

Lemma lender_holds : holds lender "k" 1 lender_bucket two_instances.
Proof.
  split; [|reflexivity|vm_compute; split; [discriminate|reflexivity]].
  eexists. split; [|shelve]. split; [by eexists|]. split; [vm_compute; reflexivity|].
  reflexivity.
  Unshelve. reflexivity.
Qed.

Lemma TransferTokens_lends_witness :
  returns (clock_env 0)
    (TransferTokens (token_server lender) (mkTransfer "k" 20 "a")) two_instances
    (λ r s', r = inr 20 ∧ s' = put_bucket "k" 1 (lend 20 lender_bucket) two_instances).
Proof.
  eapply returns_mono.
  - refine (proj1 (TransferTokens_lends (clock_env 0) lender "k" 1
      (mkTransfer "k" 20 "a") two_instances _) lender_bucket lender_holds).
    split; [reflexivity|discriminate|reflexivity|split; discriminate].
  - intros r s' (g & -> & Hg & Hmax & _ & ->).
    assert (Hr : reserve lender = 1000) by (vm_compute; reflexivity).
    assert (Ht : b_tokens lender_bucket = 1040) by reflexivity.
    rewrite Hr, Ht in Hmax. cbn [Requested] in Hg, Hmax.
    assert (g = 20) as -> by lia. split; reflexivity.
Defined.

Lemma two_reach :
  reaches (serve (λ a, if decide (a = "host:7100") then Some lender else None))
    asker lender "k" lender_conn knows_lender lender_mesh.
Proof.
  split; [reflexivity|reflexivity|reflexivity|].
  intros now o1 o2 H1 H2.
  apply (TopK_only _ _ _ _ {["k" := 500]}); [reflexivity..| |exact H1|exact H2].
  rewrite (candidate_exact _ _ _ _ _ 500 0); [by eexists|reflexivity..| |reflexivity].
  lia.
Qed.

Lemma two_lacking :
  lacking (clock_env (60000 * Second)) asker "k" 0 20 live_shard short_bucket
    two_instances.
Proof.
  split.
  - split; [by eexists|]. split; [vm_compute; reflexivity|reflexivity].
  - reflexivity.
  - reflexivity.
  - vm_compute. split; [discriminate|reflexivity].
  - reflexivity.
  - reflexivity.
  - vm_compute. split; [discriminate|reflexivity].
  - vm_compute. split; discriminate.
Qed.

Lemma AllowN_from_peer_witness :
  returns (clock_env (60000 * Second))
    (AllowN (serve (λ a, if decide (a = "host:7100") then Some lender else None))
       asker 1 "k" 20) two_instances (λ a s',
      a = Some (true, None) ∧
      ∃ b' c', heap_of "k" s' !! 0%nat = Some b' ∧ heap_of "k" s' !! 1%nat = Some c' ∧
        b_tokens b' = 7 ∧ b_tokens c' = 1020).
Proof.
  assert (Hr : reserve lender = 1000) by (vm_compute; reflexivity).
  assert (Hg : 20 `min` spare lender lender_bucket = 20)
    by (unfold spare; rewrite Hr; reflexivity).
  eapply returns_mono.
  - apply (AllowN_from_peer _ (clock_env_ok (60000 * Second)) _ asker lender "k" 0 1
      lender_conn ltac:(discriminate) ltac:(discriminate) ltac:(discriminate)
      ltac:(lia) 1 20 live_shard short_bucket lender_bucket knows_lender lender_mesh
      two_instances);
      [reflexivity|reflexivity|exact two_lacking| |exact two_reach
      |split; reflexivity|lia|rewrite Hg; vm_compute; discriminate].
    split; [reflexivity|reflexivity|vm_compute; reflexivity|reflexivity
           |exact lender_holds].
  - rewrite Hg. intros a s' (Ha & _ & b' & c' & Hb & Hc & Etb & _ & Etc & _).
    split; [exact Ha|]. exists b', c'. split; [exact Hb|]. split; [exact Hc|].
    split; [rewrite Etb|rewrite Etc]; reflexivity.
Defined.
