(* ===== verification/Shutdown.v ===== *)
(** * Shutdown: [Close]

    What [limiter.Close] does once the goroutines it waits for are done, and
    what a second [Close] answers. *)

From S2P Require Export Borrowing.

Section shutdown.
Context {R : Type} `{RedisLaws R} `{FloatConv}.
Abbreviation W := (world R).
Context (env : environment) (Henv : env_ok env).
Abbreviation ret := (returns env).
Context (o : options W).
Let id := o_instanceID o.
Abbreviation the f := (lget (inst id f)).

Lemma the_other {T T'} (f : lens limiter T) (f' : lens limiter T') x (s : W) :
  (∀ l, lget f (lput f' x l) = lget f l) → the f (lput (inst id f') x s) = the f s.
Proof. apply (put_other_field o). Qed.

(** What [Close] announces first and nothing takes back. *)
Definition announced (s : W) : Prop :=
  the f_closed s = true ∧ the f_cancelled s = true.

Lemma announced_other {T} (f : lens limiter T) x s :
  (∀ l, lget f_closed (lput f x l) = lget f_closed l) →
  (∀ l, lget f_cancelled (lput f x l) = lget f_cancelled l) →
  announced s → announced (lput (inst id f) x s).
Proof. intros Hc1 Hc2 [E1 E2]. split; by rewrite the_other. Qed.

(** The state in the loop of [mesh.Stop]: the connections [l] are left. *)
Record stopping (h : gmap string (list bucket)) (r : redis_world R) (v : listener)
    (l : list string) (s : W) : Prop := {
  st_mesh : closing l (the f_mesh s);
  st_announced : announced s;
  st_heartbeat : hb_stopCh (the f_heartbeat s) = true;
  st_server : the f_server s = v;
  st_heap : w_heap s = h;
  st_redis : w_redis s = r;
}.

Lemma stopping_mesh h r v l l' m s :
  stopping h r v l s → closing l' m → stopping h r v l' (lput (mesh_lens id) m s).
Proof.
  unfold mesh_lens. intros [_ Ea Eh Es Ehp Er] Hm.
  split; [|by apply announced_other| | |exact Ehp|exact Er].
  - by rewrite lget_put.
  - by rewrite the_other.
  - by rewrite the_other.
Qed.

Lemma returns_mesh_Stop h r v s (Q : unit → W → Prop) :
  stopping h r v (map_to_list (conns (the f_mesh s))).*1 s →
  mesh_mu (the f_mesh s) = false →
  (∀ s', stopping h r v [] s' → mesh_mu (the f_mesh s') = false → Q tt s') →
  ret (mesh_Stop (mesh_lens id)) s Q.
Proof.
  intros Hs Hmu HQ. unfold mesh_Stop. apply returns_bind.
  eapply returns_await.
  { change (lget (mesh_lens id) s) with (the f_mesh s). rewrite Hmu. reflexivity. }
  apply returns_bind, returns_ask. intros i. apply returns_bind, returns_atomically.
  cbn [fst snd]. rewrite lget_put. cbn [conns with_mesh_mu].
  set (l := env _ QOrder i _ _).
  assert (Hl : stopping h r v l (lput (mesh_lens id) (with_mesh_mu true (the f_mesh s)) s)).
  { eapply stopping_mesh; [exact Hs|]. destruct (st_mesh _ _ _ _ _ Hs) as [Hc Ha].
    split; [|by apply accounted_mu]. intros n c Hn. unfold l.
    rewrite (Henv _ QOrder i). by eapply Hc. }
  apply returns_bind. intros j.
  destruct (exec_for_each env (λ n, zoom_modify (mesh_lens id) (close_conn n))
    (stopping h r v)) with (l := l) (i := j)
    (s := lput (mesh_lens id) (with_mesh_mu true (the f_mesh s)) s)
    as (s1 & fs & k & Hex & Hs1); [|exact Hl|].
  { intros n l' i' s' Hs'. cbn. do 3 eexists. split; [reflexivity|].
    eapply stopping_mesh; [exact Hs'|]. by apply closing_step, (st_mesh _ _ _ _ _ Hs'). }
  exists tt, s1, fs, k. split; [exact Hex|]. apply returns_zoom_modify, HQ.
  - eapply stopping_mesh; [exact Hs1|]. destruct (st_mesh _ _ _ _ _ Hs1) as [Hc Ha].
    split; [exact Hc|by apply accounted_mu].
  - unfold mesh_lens. by rewrite lget_put.
Qed.

(** What is left of the membership entry. *)
Definition entry_of (w : redis_world R) : option string :=
  redis_HGETALL (hashKey (limiter_membership o)) (rw_store w) !! id.

Lemma entry_of_HDEL w log :
  entry_of (mkRW (redis_HDEL (hashKey (limiter_membership o)) [id] (rw_store w)) log)
    = None.
Proof. unfold entry_of. cbn. rewrite HGETALL_HDEL. cbn. by rewrite lookup_delete_eq. Qed.

Lemma returns_Deregister {B} (k : option error → go W B) (s : W) Q :
  (∀ err w, (server_ok env → entry_of w = None) →
     (∀ e, server_down env e → w = w_redis s) → ret (k err) (lput redis_lens w s) Q) →
  ret (bind (Deregister redis_lens (limiter_membership o) id) k) s Q.
Proof.
  intros HQ. apply returns_bind. unfold Deregister. apply returns_bind.
  unfold redis_write. apply returns_bind, returns_ask. intros i.
  set (w1 := mkRW (redis_HDEL (hashKey (limiter_membership o)) [id]
                     (rw_store (w_redis s))) (rw_log (w_redis s))).
  assert (Hsame : lput redis_lens (w_redis s) s = s) by by destruct s.
  destruct (env transport QTransport i) as [|e|e] eqn:E.
  - apply returns_bind, returns_zoom_modify, returns_ret, returns_ret.
    apply (HQ None w1); [intros _; apply entry_of_HDEL|].
    intros e [_ Hd]. by rewrite Hd in E.
  - apply returns_ret. cbn beta iota.
    assert (Hret : ∀ err, ret (k err) s Q).
    { intros err. rewrite <- Hsame. apply HQ; [|done]. intros Hok. by rewrite Hok in E. }
    destruct (decide (e = redis_Nil)); apply returns_ret, Hret.
  - apply returns_bind, returns_zoom_modify, returns_ret. cbn beta iota.
    assert (Hret : ∀ err, ret (k err) (lput redis_lens w1 s) Q).
    { intros err. apply HQ; [intros _; apply entry_of_HDEL|].
      intros e' [_ Hd]. by rewrite Hd in E. }
    destruct (decide (e = redis_Nil)); apply returns_ret, Hret.
Qed.

(** ** [Close] *)

Lemma await_zero {B} (f : lens limiter nat) (k : unit → go W B) (s : W) Q :
  the f s = 0%nat → ret (k tt) s Q →
  ret (bind (await (λ s, if decide (the f s = 0%nat) then Some (tt, s) else None)) k) s Q.
Proof.
  intros Hz HQ. apply returns_bind. eapply returns_await; [|exact HQ].
  by rewrite decide_True.
Qed.

Lemma closed_same (s : W) :
  the f_closed s = true → lput (inst id f_closed) true s = s.
Proof.
  destruct s as [h c r ins ad]. cbn. intros Hc.
  destruct (ins !! id) as [l|] eqn:E; [|done]. cbn in Hc |- *.
  rewrite <- Hc. f_equal. apply insert_id. rewrite E. by destruct l.
Qed.

(** Everything [Close] changes before it turns to Redis. *)
Lemma stopping_start (s : W) :
  accounted (the f_mesh s) →
  let s1 := lput (inst id f_cancelled) true (lput (inst id f_closed) true s) in
  let s2 := lput (inst id f_heartbeat)
              (mkHeartbeat true (hb_doneCh (the f_heartbeat s1))) s1 in
  stopping (w_heap s) (w_redis s) (the f_server s) (map_to_list (conns (the f_mesh s))).*1 s2
  ∧ the f_mesh s2 = the f_mesh s ∧ the f_mesh_wg s2 = the f_mesh_wg s.
Proof.
  intros Hacc s1 s2.
  assert (Hm : the f_mesh s2 = the f_mesh s) by (unfold s2, s1; by rewrite !the_other).
  split; [|split; [exact Hm|unfold s2, s1; by rewrite !the_other]].
  split; [|split| | |reflexivity|reflexivity].
  - rewrite Hm. split; [|exact Hacc]. intros n c Hn. apply elem_of_map_to_list in Hn.
    by apply (list_elem_of_fmap_2 fst) in Hn.
  - unfold s2, s1. rewrite !the_other by done. by rewrite lget_put.
  - unfold s2, s1. rewrite the_other by done. by rewrite lget_put.
  - unfold s2. by rewrite lget_put.
  - unfold s2, s1. by rewrite !the_other.
Qed.

Lemma stopping_redis h r v l w s :
  stopping h r v l s → stopping h w v l (lput redis_lens w s).
Proof. by intros [E1 [E2 E2'] E3 E4 E5 E6]. Qed.

(** C26: closing.  The first [Close] of an instance whose goroutines are done
    returns nil, also when Redis fails: the instance is marked closed and
    cancelled, its heartbeat told to stop, no peer connection is left, a
    server that ran is stopped, and no bucket is touched; its membership entry
    is gone if Redis could be reached, and Redis is untouched if not.  A later
    [Close] answers [ErrClosed] and does nothing. *)
Theorem Close_spec s :
  (the f_closed s = true →
   ∀ i, exec env i (Close o) s = Done (Some ErrClosed) s [] i) ∧
  (the f_closed s = false → the f_wg s = 0%nat → the f_mesh_wg s = 0%nat →
   hb_doneCh (the f_heartbeat s) = true →
   accounted (the f_mesh s) → mesh_mu (the f_mesh s) = false →
   ret (Close o) s (λ a s',
     a = None ∧ announced s' ∧ hb_stopCh (the f_heartbeat s') = true ∧
     conns (the f_mesh s') = ∅ ∧ open_conns (the f_mesh s') = ∅ ∧
     (ln_server (the f_server s) = true → ln_stopped (the f_server s') = true) ∧
     w_heap s' = w_heap s ∧
     (server_ok env → entry_of (w_redis s') = None) ∧
     (∀ e, server_down env e → w_redis s' = w_redis s))).
Proof.
  split.
  { intros Hc i. rewrite <- (closed_same s Hc) at 2. unfold Close. cbn. fold id.
    cbn in Hc. by rewrite Hc. }
  intros Hc Hwg Hmwg Hhb Hacc Hmu. unfold Close.
  apply returns_bind, returns_atomically. cbn [fst snd]. fold id. rewrite Hc.
  apply returns_bind, returns_zoom_modify.
  destruct (stopping_start s Hacc) as (Hs2 & Hm2 & Hw2). cbv zeta in Hs2, Hm2, Hw2.
  set (s1 := lput (inst id f_cancelled) true _) in *.
  apply await_zero; [by unfold s1; rewrite !the_other|].
  apply returns_bind. unfold hb_Stop. apply returns_bind, returns_zoom_modify.
  unfold heartbeat_lens. set (s2 := lput (inst id f_heartbeat) _ s1) in *.
  assert (Hdone : hb_doneCh (the f_heartbeat s2) = true).
  { unfold s2. rewrite lget_put. cbn [hb_doneCh]. unfold s1. by rewrite !the_other. }
  eapply returns_await; [by rewrite Hdone|].
  apply returns_Deregister. intros err w Hok Hdown.
  apply await_zero; [by change (the f_mesh_wg s2 = 0%nat); rewrite Hw2|].
  apply returns_bind.
  eapply (returns_mesh_Stop (w_heap s) w (the f_server s)).
  { change (the f_mesh (lput redis_lens w s2)) with (the f_mesh s2). rewrite Hm2.
    by eapply stopping_redis. }
  { change (mesh_mu (the f_mesh s2) = false). by rewrite Hm2. }
  intros s3 [Hcl [Ea Eb] Eh Es Ehp Er] _.
  apply closing_nil in Hcl as [Hconns Hopen].
  apply returns_bind, returns_zoom_modify, returns_ret. unfold server_lens.
  split; [done|]. split; [by apply announced_other|].
  rewrite !the_other by done. split; [exact Eh|]. split; [exact Hconns|].
  split; [exact Hopen|]. rewrite lget_put, Es. split.
  { intros Hsrv. by rewrite Hsrv. }
  split; [exact Ehp|]. change (w_redis (lput (inst id f_server) _ s3)) with (w_redis s3).
  rewrite Er. split; [exact Hok|]. intros e He. exact (Hdown e He).
Qed.
End shutdown.

(** [Close] does not wait for a request under way: one that has passed the
    check at its start still starts a goroutine that borrows, and counts it in
    the wait group [Close] may have waited for already. *)
Lemma borrows_after_Close {R} `{RedisStore R} `{FloatConv} (o : options (world R))
    (env : environment) i key p b (s : world R) :
  heap_of key s !! p = Some b → b_preBorrowing b = false →
  lget (inst (o_instanceID o) f_closed) s = true →
  ∃ s' t, exec env i (maybePreBorrow o key p) s = Done tt s' [t] i ∧
    lget (inst (o_instanceID o) f_closed) s' = true ∧
    lget (inst (o_instanceID o) f_wg) s' = S (lget (inst (o_instanceID o) f_wg) s).
Proof.
  intros Hb Hp Hc. unfold maybePreBorrow, on_bucket, TryMarkPreBorrowing, metric, wg_Add.
  cbn [exec bind await]. rewrite Hb, Hp. cbn [exec bind zoom_modify atomically fork].
  do 2 eexists. split; [reflexivity|]. rewrite lget_put. split.
  - rewrite !(put_other_field o) by done. exact Hc.
  - by rewrite (put_other_field o).
Qed.

(** A running instance whose goroutines are done, with one peer. *)
Definition winding_down : world mem_redis :=
  lput (heartbeat_lens "a") (mkHeartbeat false true)
    (lput (mesh_lens "a")
       (@join_peer always_dials 1 "b" (mkMember "b" "b:1" "" ∅ 1) (NewMesh "a"))
       (live false)).

Lemma Close_spec_witness :
  returns (clock_env 5) (Close demo) winding_down (λ a s',
    a = None ∧ open_conns (lget (inst "a" f_mesh) s') = ∅ ∧
    lget (inst "a" f_closed) s' = true) ∧
  exec (clock_env 5) 0 (Close demo) (live true)
    = Done (Some ErrClosed) (live true) [] 0%nat.
Proof.
  split.
  - eapply returns_mono.
    + apply (proj2 (Close_spec (clock_env 5) (clock_env_ok 5) demo winding_down));
        [reflexivity..| |reflexivity].
      apply join_peer_accounted, NewMesh_accounted.
    + intros a s' (Ha & [Hc _] & _ & _ & Ho & _). split; [exact Ha|].
      split; [exact Ho|exact Hc].
  - apply (proj1 (Close_spec (clock_env 5) (clock_env_ok 5) demo (live true))).
    reflexivity.
Defined.
