(* ===== verification/Cms.v ===== *)
(** * Cms: the count-min sketch (internal/sketch/cms.go, merge.go)

    A sketch counts per key in [depth] rows of [width] cells.  A Go panic
    (division by a zero width, an index out of range, a dimension mismatch)
    is [None]; bytes are integers below 256. *)

From stdpp Require Import pretty.
From S2P Require Export Prelude.

Record CountMinSketch := mkCMS {
  width : Z; depth : Z;             (* uint32 *)
  cms_table : list (list Z);        (* [][]uint64 *)
  seeds : list Z;                   (* []uint64 *)
  baseSeed : Z;                     (* uint64 *)
}.

Definition goldenRatioMix : Z := 0x9e3779b97f4a7c15.

Definition row_seed (seed : Z) (i : nat) : Z :=
  to_u64 (seed + to_u64 (Z.of_nat i * goldenRatioMix)).

Definition NewCMS (width depth seed : Z) : CountMinSketch :=
  mkCMS width depth (replicate (Z.to_nat depth) (replicate (Z.to_nat width) 0))
    (row_seed seed <$> seq 0 (Z.to_nat depth)) seed.

(** ** Bytes *)

(** [binary.BigEndian]: [n] bytes, the most significant first. *)
Fixpoint be_bytes (n : nat) (z : Z) : list Z :=
  match n with
  | O => []
  | S n => be_bytes n (Z.shiftr z 8) ++ [Z.land z 255]
  end.
Definition be_value (l : list Z) : Z := foldl (λ acc b, acc * 256 + b) 0 l.

Definition string_bytes (s : string) : list Z :=
  (λ c, Z.of_nat (Ascii.nat_of_ascii c)) <$> chars s.

(** [fnv.New64a]. *)
Definition fnv64_step (h b : Z) : Z := to_u64 (Z.lxor h b * 1099511628211).
Definition fnv64a (l : list Z) : Z := foldl fnv64_step 14695981039346656037 l.

(** ** Operations *)

Definition hash64 (key : string) (seed : Z) : Z :=
  fnv64a (be_bytes 8 seed ++ string_bytes key).

(** [hash], as an index; division by zero panics. *)
Definition hash (c : CountMinSketch) (key : string) (seed : Z) : option nat :=
  if width c =? 0 then None
  else Some (Z.to_nat (hash64 key seed mod width c)).

(** The rows with their seeds: [i] runs below [depth]. *)
Definition with_table (t : list (list Z)) (c : CountMinSketch) : CountMinSketch :=
  mkCMS (width c) (depth c) t (seeds c) (baseSeed c).

(** One iteration of [Add]: the index must be in range. *)
Definition add_row (c : CountMinSketch) (key : string) (count : Z)
    (row : list Z) (seed : Z) : option (list Z) :=
  idx ← hash c key seed;
  v ← row !! idx;
  Some (<[idx := to_u64 (v + count)]> row).

Definition read_row (c : CountMinSketch) (key : string) (row : list Z) (seed : Z)
  : option Z :=
  idx ← hash c key seed; row !! idx.

Fixpoint zip_mapM {A B C : Type} (f : A → B → option C) (l : list A) (k : list B)
  : option (list C) :=
  match l, k with
  | x :: l, y :: k => z ← f x y; zs ← zip_mapM f l k; Some (z :: zs)
  | _, _ => Some []
  end.

Definition Add (key : string) (count : Z) (c : CountMinSketch)
  : option CountMinSketch :=
  t ← zip_mapM (add_row c key count) (cms_table c) (seeds c); Some (with_table t c).

Definition Query (key : string) (c : CountMinSketch) : option Z :=
  vs ← zip_mapM (read_row c key) (cms_table c) (seeds c);
  Some (foldl (λ min v, if v <? min then v else min) max_u64 vs).

Definition cms_Reset (c : CountMinSketch) : CountMinSketch :=
  with_table (map (λ row, map (λ _, 0) row) (cms_table c)) c.

Definition Clone (c : CountMinSketch) : CountMinSketch := c.

(** *** merge.go *)

Inductive MergeStrategy := MergeMax | MergeMin | MergeSum | MergeReplace.

Definition merge_cell (strategy : MergeStrategy) (dst src : Z) : Z :=
  match strategy with
  | MergeMax => if dst <? src then src else dst
  | MergeMin => if src <? dst then src else dst
  | MergeSum => to_u64 (dst + src)
  | MergeReplace => src
  end.

Definition mergeTables (dst src : CountMinSketch) (strategy : MergeStrategy)
  : option CountMinSketch :=
  if (width dst =? width src) && (depth dst =? depth src) then
    Some (with_table (zip_with (zip_with (merge_cell strategy))
                        (cms_table dst) (cms_table src)) dst)
  else None.

Definition Merge (c other : CountMinSketch) (strategy : MergeStrategy)
  : option CountMinSketch := mergeTables c other strategy.

(** *** Encoding *)

Definition magicBytes : list Z := [67; 77].     (* "CM" *)
Definition versionByte : Z := 1.
Definition headerSize : Z := 19.

Definition header (w d seed : Z) : list Z :=
  magicBytes ++ [versionByte] ++ be_bytes 4 w ++ be_bytes 4 d ++ be_bytes 8 seed.

Definition Marshal (c : CountMinSketch) : list Z :=
  header (width c) (depth c) (baseSeed c) ++
  concat (map (λ row, concat (map (be_bytes 8) row)) (cms_table c)).

Inductive sketch_error :=
| TooShortHeader (have : Z)
| BadMagic (got : list Z)
| BadVersion (got : Z)
| TooShortTable (have need : Z)
| VarintError (row col : Z) (e : string)
| TrailingBytes (n : Z).

(** A result, an error, or a panic. *)
Inductive result (A : Type) := Ok (a : A) | Err (e : sketch_error) | Panics.
Arguments Ok {A} a.
Arguments Err {A} e.
Arguments Panics {A}.

Definition slice (l : list Z) (i j : nat) : list Z := take (j - i) (drop i l).

(** [width] cells read from the front of the data; a slice beyond its end
    panics. *)
Fixpoint read_cells (n : nat) (data : list Z) : option (list Z * list Z) :=
  match n with
  | O => Some ([], data)
  | S n =>
      if (length data <? 8)%nat then None
      else
        '(row, rest) ← read_cells n (drop 8 data);
        Some (be_value (take 8 data) :: row, rest)
  end.

Fixpoint read_rows (d w : nat) (data : list Z) : option (list (list Z) * list Z) :=
  match d with
  | O => Some ([], data)
  | S d =>
      '(row, rest) ← read_cells w data;
      '(rows, rest) ← read_rows d w rest;
      Some (row :: rows, rest)
  end.

(** [int(headerSize) + int(width)*int(depth)*8], in [int64]. *)
Definition table_size (w d : Z) : Z := to_i64 (headerSize + to_i64 (to_i64 (w * d) * 8)).

Definition Unmarshal (data : list Z) : result CountMinSketch :=
  if Z.of_nat (length data) <? headerSize
  then Err (TooShortHeader (Z.of_nat (length data)))
  else if decide (slice data 0 2 = magicBytes) then
    let version := default 0 (data !! 2%nat) in
    if version =? versionByte then
      let w := be_value (slice data 3 7) in
      let d := be_value (slice data 7 11) in
      let seed := be_value (slice data 11 19) in
      let expected := table_size w d in
      if Z.of_nat (length data) <? expected
      then Err (TooShortTable (Z.of_nat (length data)) expected)
      else
        match read_rows (Z.to_nat d) (Z.to_nat w) (drop 19 data) with
        | Some (rows, _) => Ok (with_table rows (NewCMS w d seed))
        | None => Panics
        end
    else Err (BadVersion version)
  else Err (BadMagic (slice data 0 2)).

(** ** What a sketch counts *)

Fixpoint adds_to (l : list (string * Z)) (c : CountMinSketch)
  : option CountMinSketch :=
  match l with
  | [] => Some c
  | (k, n) :: l => c' ← Add k n c; adds_to l c'
  end.

(** The column of a key in the row of a seed. *)
Definition col (w : Z) (key : string) (seed : Z) : nat :=
  Z.to_nat (hash64 key seed mod w).

(** What was added to a column, and to a key. *)
Fixpoint load (w seed : Z) (j : nat) (l : list (string * Z)) : Z :=
  match l with
  | [] => 0
  | (k, n) :: l => (if decide (col w k seed = j) then n else 0) + load w seed j l
  end.
Fixpoint count_of (key : string) (l : list (string * Z)) : Z :=
  match l with
  | [] => 0
  | (k, n) :: l => (if decide (k = key) then n else 0) + count_of key l
  end.
Definition total (l : list (string * Z)) : Z := foldr (λ e acc, e.2 + acc) 0 l.

Lemma load_app w seed j l1 l2 :
  load w seed j (l1 ++ l2) = load w seed j l1 + load w seed j l2.
Proof. induction l1 as [|[k n] l1 IH]; cbn; [done|]. rewrite IH. lia. Qed.

Lemma load_bounds w seed key l :
  Forall (λ e, 0 <= e.2) l →
  0 <= count_of key l <= load w seed (col w key seed) l ∧
  load w seed (col w key seed) l <= total l.
Proof.
  unfold total. induction 1 as [|[k n] l Hn _ IH]; cbn in *; [done|].
  destruct (decide (k = key)) as [->|].
  - rewrite decide_True by done. lia.
  - destruct (decide (col w k seed = col w key seed)); lia.
Qed.

Definition row_of (w seed : Z) (l : list (string * Z)) : list Z :=
  map (λ j, to_u64 (load w seed j l)) (seq 0 (Z.to_nat w)).

(** The sketch of a stream of additions. *)
Definition sketch (w d seed : Z) (l : list (string * Z)) : CountMinSketch :=
  let c := NewCMS w d seed in
  with_table (map (λ s, row_of w s l) (seeds c)) c.

Lemma col_lt w key seed : 0 < w → (col w key seed < Z.to_nat w)%nat.
Proof.
  intros Hw. unfold col. pose proof (Z.mod_pos_bound (hash64 key seed) w Hw). lia.
Qed.

Lemma row_of_lookup w seed l j :
  (j < Z.to_nat w)%nat → row_of w seed l !! j = Some (to_u64 (load w seed j l)).
Proof.
  intros Hj. unfold row_of. rewrite list_lookup_fmap, lookup_seq_lt by done. done.
Qed.

Lemma row_of_length w seed l : length (row_of w seed l) = Z.to_nat w.
Proof. unfold row_of. by rewrite length_map, length_seq. Qed.

Lemma zip_mapM_map {A C : Type} (f : A → C) (F : C → A → option C) (g : A → C)
    (l : list A) :
  (∀ x, F (f x) x = Some (g x)) → zip_mapM F (map f l) l = Some (map g l).
Proof.
  intros HF. induction l as [|x l IH]; cbn; [done|]. rewrite HF. cbn. by rewrite IH.
Qed.

Lemma hash_col c key seed :
  0 < width c → hash c key seed = Some (col (width c) key seed).
Proof. intros Hw. unfold hash. by rewrite (proj2 (Z.eqb_neq _ _)) by lia. Qed.

Lemma add_row_of c key n seed l :
  0 < width c →
  add_row c key n (row_of (width c) seed l) seed
    = Some (row_of (width c) seed (l ++ [(key, n)])).
Proof.
  intros Hw. unfold add_row. rewrite hash_col by done. cbn.
  pose proof (col_lt (width c) key seed Hw) as Hlt.
  rewrite row_of_lookup by done. cbn. f_equal. apply list_eq_same_length with
    (n := Z.to_nat (width c)).
  - by rewrite row_of_length.
  - by rewrite length_insert, row_of_length.
  - intros j x y Hj Hx Hy. rewrite row_of_lookup in Hy by done.
    injection Hy as <-. rewrite load_app. cbn.
    destruct (decide (j = col (width c) key seed)) as [->|Hne].
    + rewrite list_lookup_insert_eq in Hx by by rewrite row_of_length.
      injection Hx as <-. rewrite decide_True by done. unfold to_u64.
      rewrite Zplus_mod_idemp_l. f_equal. lia.
    + rewrite list_lookup_insert_ne, row_of_lookup in Hx by done.
      injection Hx as <-. rewrite decide_False by done. f_equal. lia.
Qed.

Lemma NewCMS_sketch w d seed : NewCMS w d seed = sketch w d seed [].
Proof.
  unfold sketch, NewCMS, with_table. cbn. f_equal.
  apply list_eq_same_length with (n := Z.to_nat d).
  - by rewrite length_map, length_fmap, length_seq.
  - by rewrite length_replicate.
  - intros i x y Hi Hx Hy. apply lookup_replicate in Hx as [-> _].
    rewrite list_lookup_fmap in Hy. apply fmap_Some in Hy as (s & _ & ->).
    unfold row_of. cbn. clear. induction (Z.to_nat w) as [|n IH] in |- *; [done|].
    rewrite seq_S, map_app, <- IH. apply (replicate_S_end n 0).
Qed.

Lemma Add_sketch w d seed l k n :
  0 < w → Add k n (sketch w d seed l) = Some (sketch w d seed (l ++ [(k, n)])).
Proof.
  intros Hw. unfold Add.
  change (cms_table (sketch w d seed l))
    with (map (λ s, row_of w s l) (seeds (sketch w d seed l))).
  erewrite (zip_mapM_map (λ s, row_of w s l) _ (λ s, row_of w s (l ++ [(k, n)]))).
  - done.
  - intros s. by apply (add_row_of (sketch w d seed l) k n s l).
Qed.

Lemma adds_to_sketch w d seed l1 l2 :
  0 < w → adds_to l2 (sketch w d seed l1) = Some (sketch w d seed (l1 ++ l2)).
Proof.
  intros Hw. revert l1. induction l2 as [|[k n] l2 IH]; intros l1.
  - by rewrite app_nil_r.
  - cbn [adds_to]. rewrite Add_sketch by done. cbn. by rewrite IH, <- app_assoc.
Qed.

Lemma read_row_of c key seed l :
  0 < width c →
  read_row c key (row_of (width c) seed l) seed
    = Some (to_u64 (load (width c) seed (col (width c) key seed) l)).
Proof.
  intros Hw. unfold read_row. rewrite hash_col by done. cbn.
  by apply row_of_lookup, col_lt.
Qed.

Lemma Query_sketch w d seed l key :
  0 < w →
  Query key (sketch w d seed l) =
    Some (foldl (λ min v, if v <? min then v else min) max_u64
            (map (λ s, to_u64 (load w s (col w key s) l))
               (row_seed seed <$> seq 0 (Z.to_nat d)))).
Proof.
  intros Hw. unfold Query.
  assert (E : ∀ ss, zip_mapM (read_row (sketch w d seed l) key)
    (map (λ s, row_of w s l) ss) ss = Some (map (λ s, to_u64 (load w s (col w key s) l)) ss)).
  { induction ss as [|s ss IH]; cbn [zip_mapM map]; [done|].
    pose proof (read_row_of (sketch w d seed l) key s l Hw) as E.
    change (width (sketch w d seed l)) with w in E. rewrite E. cbn. by rewrite IH. }
  cbn [cms_table seeds sketch with_table NewCMS]. rewrite E. done.
Qed.

Lemma foldl_min_spec (vs : list Z) m0 :
  let m := foldl (λ min v, if v <? min then v else min) m0 vs in
  (m = m0 ∨ m ∈ vs) ∧ m <= m0 ∧ Forall (λ v, m <= v) vs.
Proof.
  revert m0. induction vs as [|v vs IH]; intros m0; cbn; [eauto with lia|].
  destruct (IH (if v <? m0 then v else m0)) as (H1 & H2 & H3).
  set (m := foldl _ _ vs) in *. destruct (Z.ltb_spec v m0).
  - split; [right; rewrite elem_of_cons; tauto|]. split; [lia|].
    constructor; [lia|done].
  - split; [rewrite elem_of_cons; tauto|]. split; [lia|]. constructor; [lia|done].
Qed.

(** C33: the count-min guarantee.  After any stream of additions to a new
    sketch with at least one row and one column, whose total fits a uint64,
    no operation panics, and the estimate of a key is at least what was added
    for it and at most what was added in all. *)
Theorem Query_overestimates w d seed l key :
  0 < w → 0 < d → Forall (λ e, 0 <= e.2) l → total l <= max_u64 →
  ∃ c q, adds_to l (NewCMS w d seed) = Some c ∧ Query key c = Some q ∧
    count_of key l <= q <= total l.
Proof.
  intros Hw Hd Hl Htot. exists (sketch w d seed l).
  rewrite NewCMS_sketch, adds_to_sketch, Query_sketch by done.
  eexists. split; [done|]. split; [done|].
  set (vs := map _ _).
  assert (Hvs : Forall (λ v, count_of key l <= v <= total l) vs).
  { subst vs. apply Forall_fmap, Forall_forall. intros s _. cbn.
    destruct (load_bounds w s key l Hl).
    rewrite to_u64_small; [lia|]. go_lia. }
  destruct (foldl_min_spec vs max_u64) as ([Hm|Hm] & H2 & H3).
  - (* there is a row, so the minimum is at most one of its cells *)
    destruct vs as [|v vs'] eqn:E.
    { exfalso. apply (f_equal length) in E. subst vs.
      rewrite length_map, length_fmap, length_seq in E. cbn in E. lia. }
    apply Forall_cons in H3 as [H3 _]. apply Forall_cons in Hvs as [Hv _].
    rewrite Hm in *. lia.
  - rewrite Forall_forall in Hvs. by apply Hvs.
Qed.

Lemma Query_overestimates_witness :
  ∃ c q, adds_to [("a", 3); ("b", 4); ("a", 5)] (NewCMS 16 3 42) = Some c ∧
    Query "a" c = Some q ∧ 8 <= q <= 12.
Proof.
  apply (Query_overestimates 16 3 42 [("a", 3); ("b", 4); ("a", 5)] "a").
  - reflexivity.
  - reflexivity.
  - repeat constructor; discriminate.
  - discriminate.
Defined.

Lemma Merge_sketch w d seed l1 l2 :
  Merge (sketch w d seed l1) (sketch w d seed l2) MergeSum
    = Some (sketch w d seed (l1 ++ l2)).
Proof.
  unfold Merge, mergeTables. cbn [width depth sketch with_table NewCMS].
  rewrite !Z.eqb_refl. cbn [andb]. f_equal. unfold sketch.
  cbn [cms_table with_table seeds NewCMS]. unfold with_table.
  cbn [width depth seeds baseSeed]. f_equal.
  generalize (row_seed seed <$> seq 0 (Z.to_nat d)). intros ss.
  induction ss as [|s ss IH]; [done|]. cbn [map zip_with]. f_equal; [|exact IH].
  unfold row_of. generalize (seq 0 (Z.to_nat w)). intros js.
  induction js as [|j js IHj]; [done|]. cbn [map zip_with]. f_equal; [|exact IHj].
  rewrite load_app. cbn. unfold to_u64. by rewrite <- Zplus_mod.
Qed.

(** C34: merging is counting together.  Summing the sketches of two streams,
    made with the same dimensions and seed, is the sketch of the streams one
    after the other, wrap-around included; sketches of different dimensions
    panic, with every strategy. *)
Theorem Merge_sum w d seed l1 l2 c1 c2 :
  0 < w → adds_to l1 (NewCMS w d seed) = Some c1 →
  adds_to l2 (NewCMS w d seed) = Some c2 →
  Merge c1 c2 MergeSum = adds_to (l1 ++ l2) (NewCMS w d seed) ∧
  (∀ c strategy, width c ≠ w ∨ depth c ≠ d → Merge c1 c strategy = None).
Proof.
  intros Hw. rewrite NewCMS_sketch, !adds_to_sketch by done.
  cbn [app]. intros [= <-] [= <-]. split; [apply Merge_sketch|].
  intros c st Hne. unfold Merge, mergeTables. cbn [width depth sketch with_table NewCMS].
  destruct (Z.eqb_spec w (width c)), (Z.eqb_spec d (depth c)); cbn [andb]; try done.
  exfalso. naive_solver.
Qed.

Lemma Merge_sum_witness :
  ∃ c1 c2, adds_to [("a", 3)] (NewCMS 8 2 42) = Some c1 ∧
    adds_to [("b", 4); ("a", 1)] (NewCMS 8 2 42) = Some c2 ∧
    Merge c1 c2 MergeSum = adds_to [("a", 3); ("b", 4); ("a", 1)] (NewCMS 8 2 42).
Proof.
  destruct (adds_to [("a", 3)] (NewCMS 8 2 42)) as [c1|] eqn:E1;
    [|vm_compute in E1; discriminate E1].
  destruct (adds_to [("b", 4); ("a", 1)] (NewCMS 8 2 42)) as [c2|] eqn:E2;
    [|vm_compute in E2; discriminate E2].
  exists c1, c2. split; [reflexivity|]. split; [reflexivity|].
  exact (proj1 (Merge_sum 8 2 42 [("a", 3)] [("b", 4); ("a", 1)] c1 c2
                  ltac:(lia) E1 E2)).
Defined.

(** ** The encoding *)

Lemma be_bytes_length n z : length (be_bytes n z) = n.
Proof.
  revert z. induction n as [|n IH]; intros z; cbn; [done|].
  rewrite length_app, IH. cbn. lia.
Qed.

Lemma be_value_app l b : be_value (l ++ [b]) = be_value l * 256 + b.
Proof. unfold be_value. by rewrite foldl_app. Qed.

Lemma be_value_bytes n z : 0 <= z < 2 ^ (8 * Z.of_nat n) → be_value (be_bytes n z) = z.
Proof.
  revert z. induction n as [|n IH]; intros z Hz;
    [change (2 ^ (8 * Z.of_nat 0)) with 1 in Hz; cbn; lia|].
  cbn [be_bytes]. rewrite be_value_app, Z.shiftr_div_pow2 by done.
  rewrite (Z.land_ones z 8 ltac:(done) : Z.land z 255 = _).
  replace (8 * Z.of_nat (S n)) with (8 * Z.of_nat n + 8) in Hz by lia.
  rewrite Z.pow_add_r in Hz by lia. change (2 ^ 8) with 256 in *.
  rewrite IH by (split; [apply Z.div_pos; lia | apply Z.div_lt_upper_bound; lia]).
  pose proof (Z.div_mod z 256). lia.
Qed.

(** The cells of a row, and the rows of a table, as they are laid out. *)
Definition row_bytes (row : list Z) : list Z := concat (map (be_bytes 8) row).
Definition table_bytes (t : list (list Z)) : list Z := concat (map row_bytes t).

Lemma row_bytes_length row : length (row_bytes row) = (8 * length row)%nat.
Proof.
  unfold row_bytes. induction row as [|v row IH]; [done|]. cbn [map concat].
  rewrite length_app, be_bytes_length, IH. cbn. lia.
Qed.

Lemma table_bytes_length w t :
  Forall (λ row, length row = w) t → length (table_bytes t) = (8 * w * length t)%nat.
Proof.
  unfold table_bytes. induction 1 as [|row t Hr Ht IH]; [cbn; lia|]. cbn [map concat].
  rewrite length_app, row_bytes_length, IH, Hr. cbn. lia.
Qed.

Lemma read_cells_bytes row rest :
  Forall is_u64 row → read_cells (length row) (row_bytes row ++ rest) = Some (row, rest).
Proof.
  unfold row_bytes. induction 1 as [|v row Hv Hrow IH]; [done|].
  cbn [length read_cells map concat]. rewrite <- app_assoc.
  rewrite (proj2 (Nat.ltb_ge _ _))
    by (rewrite length_app, be_bytes_length; lia).
  rewrite drop_app_length' by by rewrite be_bytes_length.
  rewrite take_app_length' by by rewrite be_bytes_length.
  rewrite IH. cbn [mbind option_bind]. by rewrite be_value_bytes by exact Hv.
Qed.

Lemma read_rows_bytes w t rest :
  Forall (λ row, length row = w ∧ Forall is_u64 row) t →
  read_rows (length t) w (table_bytes t ++ rest) = Some (t, rest).
Proof.
  unfold table_bytes. induction 1 as [|row t [Hw Hr] Ht IH]; [done|].
  cbn [length read_rows map concat]. rewrite <- app_assoc, <- Hw.
  rewrite read_cells_bytes by done. cbn [mbind option_bind]. rewrite Hw, IH. done.
Qed.

(** A sketch as [NewCMS] and the operations leave it, small enough that its
    encoding can be addressed. *)
Record cms_wf (c : CountMinSketch) : Prop := {
  wf_width : 0 <= width c < 2 ^ 32;
  wf_depth : 0 <= depth c < 2 ^ 32;
  wf_seed : is_u64 (baseSeed c);
  wf_seeds : seeds c = row_seed (baseSeed c) <$> seq 0 (Z.to_nat (depth c));
  wf_rows : length (cms_table c) = Z.to_nat (depth c);
  wf_cells : Forall (λ row, length row = Z.to_nat (width c) ∧ Forall is_u64 row)
               (cms_table c);
  wf_size : headerSize + width c * depth c * 8 < 2 ^ 63;
}.

Lemma sketch_wf w d seed l :
  0 <= w < 2 ^ 32 → 0 <= d < 2 ^ 32 → is_u64 seed →
  headerSize + w * d * 8 < 2 ^ 63 → cms_wf (sketch w d seed l).
Proof.
  intros Hw Hd Hs Hsz. constructor; cbn; try done.
  - by rewrite length_map, length_fmap, length_seq.
  - apply Forall_fmap, Forall_forall. intros s _. cbn.
    rewrite row_of_length. split; [done|]. unfold row_of.
    apply Forall_fmap, Forall_forall. intros j _. apply to_u64_range.
Qed.

Lemma table_size_small w d :
  0 <= w → 0 <= d → headerSize + w * d * 8 < 2 ^ 63 →
  table_size w d = headerSize + w * d * 8.
Proof.
  intros Hw Hd Hs. unfold table_size, headerSize in *.
  assert (0 <= w * d) by by apply Z.mul_nonneg_nonneg.
  rewrite (to_i64_small (w * d)) by (unfold is_i64; lia).
  rewrite (to_i64_small (w * d * 8)) by (unfold is_i64; lia).
  apply to_i64_small. unfold is_i64. lia.
Qed.

(** What a decoder reads from a header. *)
Lemma header_fields w d seed rest :
  0 <= w < 2 ^ 32 → 0 <= d < 2 ^ 32 → is_u64 seed →
  let data := header w d seed ++ rest in
  length (header w d seed) = 19%nat ∧ slice data 0 2 = magicBytes ∧
  data !! 2%nat = Some versionByte ∧
  be_value (slice data 3 7) = w ∧ be_value (slice data 7 11) = d ∧
  be_value (slice data 11 19) = seed ∧ drop 19 data = rest ∧ take 19 data = header w d seed.
Proof.
  intros Hw Hd Hs data.
  assert (L : length (header w d seed) = 19%nat).
  { unfold header. rewrite !length_app, !be_bytes_length. done. }
  subst data.
  assert (E : ∀ n z l, 0 <= z < 2 ^ (8 * Z.of_nat n) → l = be_bytes n z → be_value l = z)
    by (intros n z l Hz ->; by apply be_value_bytes).
  repeat apply conj; try done.
  - by apply (E 4%nat).
  - by apply (E 4%nat).
  - by apply (E 8%nat).
Qed.

Lemma unmarshal_marshal c rest :
  cms_wf c → Unmarshal (Marshal c ++ rest) = Ok c.
Proof.
  intros [Hw Hd Hs Hseeds Hr Hc Hsz]. unfold Marshal.
  change (concat (map (λ row, concat (map (be_bytes 8) row)) (cms_table c)))
    with (table_bytes (cms_table c)).
  rewrite <- app_assoc.
  destruct (header_fields (width c) (depth c) (baseSeed c)
    (table_bytes (cms_table c) ++ rest) Hw Hd Hs)
    as (L & E1 & E2 & E3 & E4 & E5 & E6 & _).
  pose proof (table_bytes_length (Z.to_nat (width c)) (cms_table c)
    (Forall_impl _ _ _ Hc (λ _ H, proj1 H))) as TL.
  unfold Unmarshal. rewrite E1, E2, E3, E4, E5, E6.
  rewrite (proj2 (Z.ltb_ge _ _)) by (rewrite length_app, L; unfold headerSize; lia).
  rewrite decide_True by done. cbn [default from_option]. rewrite Z.eqb_refl.
  rewrite table_size_small by lia.
  rewrite (proj2 (Z.ltb_ge _ _))
    by (rewrite !length_app, L, TL, Hr; unfold headerSize; lia).
  rewrite <- Hr, read_rows_bytes by exact Hc.
  f_equal. destruct c; cbn in *. unfold with_table, NewCMS. cbn. by rewrite Hseeds.
Qed.

Lemma Marshal_length c :
  cms_wf c → Z.of_nat (length (Marshal c)) = headerSize + width c * depth c * 8.
Proof.
  intros [Hw Hd Hs _ Hr Hc _]. unfold Marshal.
  change (concat (map (λ row, concat (map (be_bytes 8) row)) (cms_table c)))
    with (table_bytes (cms_table c)).
  rewrite length_app, (table_bytes_length (Z.to_nat (width c)))
    by exact (Forall_impl _ _ _ Hc (λ _ H, proj1 H)).
  unfold header, headerSize. rewrite !length_app, !be_bytes_length, Hr. cbn. lia.
Qed.

(** C35: the encoding loses nothing and its length is checked: [Unmarshal]
    reads the sketch, seeds included, from the bytes of [Marshal], whatever
    follows them, and refuses every strict prefix of them with an error. *)
Theorem Unmarshal_exact c rest :
  cms_wf c →
  Unmarshal (Marshal c ++ rest) = Ok c ∧
  (∀ n, (n < length (Marshal c))%nat → ∃ e, Unmarshal (take n (Marshal c)) = Err e).
Proof.
  intros Hwf. split; [by apply unmarshal_marshal|]. intros n Hn.
  pose proof (Marshal_length c Hwf) as HL.
  pose proof (length_take_le (Marshal c) n ltac:(lia)) as Ln.
  destruct (decide (n < 19)%nat).
  { eexists. unfold Unmarshal. rewrite Ln. rewrite (proj2 (Z.ltb_lt _ _)); [done|].
    unfold headerSize. lia. }
  destruct Hwf as [Hw Hd Hs _ _ _ Hsz].
  unfold Marshal in *. set (t := concat _) in *.
  assert (Hh : length (header (width c) (depth c) (baseSeed c)) = 19%nat) by done.
  rewrite take_app in *. rewrite (take_ge _ n) in * by lia.
  destruct (header_fields (width c) (depth c) (baseSeed c) (take (n - length
    (header (width c) (depth c) (baseSeed c))) t) Hw Hd Hs)
    as (_ & E1 & E2 & E3 & E4 & _).
  eexists. unfold Unmarshal. rewrite E1, E2, E3, E4, Ln.
  rewrite (proj2 (Z.ltb_ge _ _)) by (unfold headerSize; lia).
  rewrite decide_True by done. cbn [default from_option]. rewrite Z.eqb_refl.
  rewrite table_size_small by lia. by rewrite (proj2 (Z.ltb_lt _ _)) by lia.
Qed.

Lemma Unmarshal_exact_witness :
  let c := sketch 4 2 42 [("a", 3); ("b", 4)] in
  Unmarshal (Marshal c ++ [7]) = Ok c ∧
  (∀ n, (n < length (Marshal c))%nat → ∃ e, Unmarshal (take n (Marshal c)) = Err e).
Proof.
  intros c. apply (Unmarshal_exact c [7]).
  apply sketch_wf; unfold is_u64, headerSize; lia.
Defined.

(** The length check of [Unmarshal] is computed in [int], where the size of a
    table of [2^31] by [2^30] cells wraps to 0: a header alone passes the
    check, and reading the first cell is out of range. *)
Theorem Unmarshal_oversized : Unmarshal (header (2 ^ 31) (2 ^ 30) 0) = Panics.
Proof.
  rewrite <- (app_nil_r (header _ _ _)).
  destruct (header_fields (2 ^ 31) (2 ^ 30) 0 []) as (L & E1 & E2 & E3 & E4 & E5 & E6 & _);
    [lia | lia | unfold is_u64; lia |].
  unfold Unmarshal. rewrite E1, E2, E3, E4, E5, E6.
  rewrite app_nil_r, L. cbn [Z.of_nat]. rewrite decide_True by done.
  cbn [default from_option]. rewrite Z.eqb_refl.
  change (table_size (2 ^ 31) (2 ^ 30)) with 19. cbn -[read_rows Z.to_nat].
  destruct (Z.to_nat (2 ^ 30)) as [|d] eqn:Ed; [lia|]. cbn [read_rows].
  destruct (Z.to_nat (2 ^ 31)) as [|w] eqn:Ew; [lia|]. done.
Qed.
