(* ===== verification/Compress.v ===== *)
(** * Compress: the delta encoding of sketches (internal/sketch/compress.go)

    Each row of a marshalled sketch is written as the differences of
    neighbouring cells, zigzag-coded and as varints ([encoding/binary]).  A
    Go panic is [None] in [Compress] and [Panics] in [Decompress]. *)

From S2P Require Export Cms.

(** ** Zigzag codes *)

Definition zigzagEncode (n : Z) : Z :=
  to_u64 (Z.lxor (Z.shiftr n 63) (to_i64 (Z.shiftl n 1))).

Definition zigzagDecode (u : Z) : Z :=
  to_i64 (Z.lxor (Z.shiftr u 1) (to_u64 (- Z.land u 1))).

(** ** Varints, as [encoding/binary] writes and reads them *)

Definition MaxVarintLen64 : nat := 10.

Fixpoint put_uvarint (fuel : nat) (x : Z) : list Z :=
  match fuel with
  | O => []
  | S fuel =>
      if 128 <=? x then Z.lor (Z.land x 127) 128 :: put_uvarint fuel (Z.shiftr x 7)
      else [x]
  end.
Definition PutUvarint (x : Z) : list Z := put_uvarint MaxVarintLen64 x.

(** Having read [i] bytes into [x], the next goes at bit [s]. *)
Fixpoint read_uvarint (fuel i : nat) (s x : Z) (r : list Z)
  : (Z * list Z) + string :=
  match fuel with
  | O => inr "binary: varint overflows a 64-bit integer"
  | S fuel =>
      match r with
      | [] => inr (if (0 <? i)%nat then "unexpected EOF" else "EOF")
      | b :: r =>
          if b <? 128 then
            if (i =? 9)%nat && (1 <? b)
            then inr "binary: varint overflows a 64-bit integer"
            else inl (Z.lor x (to_u64 (Z.shiftl b s)), r)
          else
            read_uvarint fuel (S i) (s + 7)
              (Z.lor x (to_u64 (Z.shiftl (Z.land b 127) s))) r
      end
  end.
Definition ReadUvarint (r : list Z) : (Z * list Z) + string :=
  read_uvarint MaxVarintLen64 0 0 0 r.

(** ** Compress *)

(** [n] more cells of a row, from the front of the data. *)
Fixpoint compress_cells (n : nat) (first : bool) (prev : Z) (data : list Z)
  : option (list Z * list Z) :=
  match n with
  | O => Some ([], data)
  | S n =>
      if (length data <? 8)%nat then None
      else
        let cell := be_value (take 8 data) in
        let delta := if first then to_i64 cell else to_i64 (to_i64 cell - to_i64 prev) in
        '(out, rest) ← compress_cells n false cell (drop 8 data);
        Some (PutUvarint (zigzagEncode delta) ++ out, rest)
  end.

Fixpoint compress_rows (d w : nat) (data : list Z) : option (list Z * list Z) :=
  match d with
  | O => Some ([], data)
  | S d =>
      '(row, rest) ← compress_cells w true 0 data;
      '(out, rest) ← compress_rows d w rest;
      Some (row ++ out, rest)
  end.

(** [buf.Grow] refuses a negative size, which the product can wrap to. *)
Definition Compress (data : list Z) : option (list Z) :=
  if Z.of_nat (length data) <? headerSize then Some data
  else
    let w := be_value (slice data 3 7) in
    let d := be_value (slice data 7 11) in
    if to_i64 (headerSize + to_i64 (w * d)) <? 0 then None
    else
      '(out, _) ← compress_rows (Z.to_nat d) (Z.to_nat w) (drop 19 data);
      Some (take 19 data ++ out).

(** ** Decompress *)

(** [n] more cells of row [i], written at [outOff] of a buffer of [outSize]
    bytes: what is written, what is left to read, and the new offset. *)
Fixpoint decompress_cells (n : nat) (i j outSize outOff prev : Z) (r : list Z)
  : result (list Z * list Z * Z) :=
  match n with
  | O => Ok ([], r, outOff)
  | S n =>
      match ReadUvarint r with
      | inr e => Err (VarintError i j e)
      | inl (zz, r) =>
          let delta := zigzagDecode zz in
          let cell := if j =? 0 then delta else to_i64 (prev + delta) in
          if outSize <? outOff + 8 then Panics
          else
            match decompress_cells n i (j + 1) outSize (outOff + 8) cell r with
            | Ok (out, r, off) => Ok (be_bytes 8 (to_u64 cell) ++ out, r, off)
            | Err e => Err e
            | Panics => Panics
            end
      end
  end.

Fixpoint decompress_rows (d w : nat) (i outSize outOff : Z) (r : list Z)
  : result (list Z * list Z * Z) :=
  match d with
  | O => Ok ([], r, outOff)
  | S d =>
      match decompress_cells w i 0 outSize outOff 0 r with
      | Ok (row, r, off) =>
          match decompress_rows d w (i + 1) outSize off r with
          | Ok (out, r, off) => Ok (row ++ out, r, off)
          | Err e => Err e
          | Panics => Panics
          end
      | Err e => Err e
      | Panics => Panics
      end
  end.

(** The bytes of [out] that no cell is written to stay 0. *)
Definition Decompress (data : list Z) : result (list Z) :=
  if Z.of_nat (length data) <? headerSize
  then Err (TooShortHeader (Z.of_nat (length data)))
  else if decide (slice data 0 2 = magicBytes) then
    let version := default 0 (data !! 2%nat) in
    if version =? versionByte then
      let w := be_value (slice data 3 7) in
      let d := be_value (slice data 7 11) in
      let outSize := table_size w d in
      if outSize <? headerSize then Panics
      else
        match decompress_rows (Z.to_nat d) (Z.to_nat w) 0 outSize headerSize (drop 19 data) with
        | Ok (out, r, off) =>
            if (0 <? length r)%nat then Err (TrailingBytes (Z.of_nat (length r)))
            else Ok (take 19 data ++ out ++ replicate (Z.to_nat (outSize - off)) 0)
        | Err e => Err e
        | Panics => Panics
        end
    else Err (BadVersion version)
  else Err (BadMagic (slice data 0 2)).

(** ** The codes are inverse *)

Lemma to_u64_land z : to_u64 z = Z.land z (Z.ones 64).
Proof. unfold to_u64. by rewrite Z.land_ones. Qed.

Lemma to_u64_lxor_r a b : to_u64 (Z.lxor a (to_u64 b)) = to_u64 (Z.lxor a b).
Proof.
  rewrite !to_u64_land. apply Z.bits_inj'. intros n Hn.
  rewrite !Z.land_spec, !Z.lxor_spec, Z.land_spec.
  by destruct (Z.testbit a n), (Z.testbit b n), (Z.testbit (Z.ones 64) n).
Qed.

Lemma lxor_m1 a : Z.lxor a (-1) = - a - 1.
Proof. rewrite Z.lxor_m1_r. unfold Z.lnot. lia. Qed.

Lemma zigzagEncode_spec n :
  is_i64 n → zigzagEncode n = if decide (0 <= n) then 2 * n else - (2 * n) - 1.
Proof.
  intros Hn. unfold is_i64 in Hn. unfold zigzagEncode.
  rewrite Z.shiftl_mul_pow2, Z.shiftr_div_pow2 by done.
  rewrite <- to_u64_lxor_r, to_u64_to_i64, to_u64_lxor_r, Z.mul_comm.
  change (2 ^ 1) with 2. destruct (decide (0 <= n)).
  - rewrite Z.div_small by lia. rewrite Z.lxor_0_l. apply to_u64_small. unfold is_u64. lia.
  - replace (n `div` 2 ^ 63) with (-1) by (apply (Z.div_unique _ _ _ (n + 2 ^ 63)); lia).
    rewrite Z.lxor_comm, lxor_m1. apply to_u64_small. unfold is_u64. lia.
Qed.

Lemma zigzagDecode_spec u :
  is_u64 u → zigzagDecode u = if Z.even u then u `div` 2 else - (u `div` 2) - 1.
Proof.
  intros Hu. unfold is_u64 in Hu. unfold zigzagDecode.
  rewrite <- to_i64_to_u64, to_u64_lxor_r, to_i64_to_u64.
  rewrite Z.shiftr_div_pow2 by done. change (2 ^ 1) with 2.
  rewrite (Z.land_ones u 1 ltac:(done) : Z.land u 1 = _). change (2 ^ 1) with 2.
  rewrite Zmod_even. pose proof (Z.div_mod u 2). pose proof (Z.mod_pos_bound u 2).
  destruct (Z.even u).
  - rewrite Z.lxor_0_r. apply to_i64_small. unfold is_i64. lia.
  - rewrite lxor_m1. apply to_i64_small. unfold is_i64. lia.
Qed.

Lemma zigzag_roundtrip n : is_i64 n → zigzagDecode (zigzagEncode n) = n.
Proof.
  intros Hn. rewrite zigzagEncode_spec by done. unfold is_i64 in Hn.
  destruct (decide (0 <= n)); rewrite zigzagDecode_spec by (unfold is_u64; lia).
  - rewrite Z.even_mul. cbn [Z.even orb].
    symmetry. apply (Z.div_unique _ _ _ 0); lia.
  - rewrite Z.even_sub, Z.even_opp, Z.even_mul. cbn [Z.even orb Bool.eqb].
    enough ((- (2 * n) - 1) `div` 2 = - n - 1) by lia.
    symmetry. apply (Z.div_unique _ _ _ 1); lia.
Qed.

(** A byte sequence that codes [v] at bit [s] adds [v * 2^s] to what was read
    below it. *)
Lemma lor_add x v s :
  0 <= s → 0 <= x < 2 ^ s → 0 <= v → Z.lor x (v * 2 ^ s) = x + v * 2 ^ s.
Proof.
  intros Hs Hx Hv. rewrite <- Z.lxor_lor, <- Z.add_nocarry_lxor; [done| |].
  all: rewrite <- Z.shiftl_mul_pow2 by done; apply Z.bits_inj'; intros n Hn;
    rewrite Z.land_spec, Z.bits_0, Z.shiftl_spec by done.
  all: destruct (decide (n < s)).
  1,3: rewrite (Z.testbit_neg_r v) by lia; apply andb_false_r.
  all: rewrite <- (Z.mod_small x (2 ^ s)) by done;
    by rewrite Z.mod_pow2_bits_high by lia.
Qed.

Lemma to_u64_shiftl v s :
  0 <= s → 0 <= v → v * 2 ^ s < 2 ^ 64 → to_u64 (Z.shiftl v s) = v * 2 ^ s.
Proof.
  intros Hs Hv Hlt. rewrite Z.shiftl_mul_pow2 by done. apply to_u64_small.
  unfold is_u64. pose proof (Z.pow_nonneg 2 s). nia.
Qed.

Lemma read_put_uvarint fuel i s x v rest :
  (fuel + i = 10)%nat → (i < 10)%nat → s = 7 * Z.of_nat i →
  0 <= x < 2 ^ s → 0 <= v → v * 2 ^ s < 2 ^ 64 →
  read_uvarint fuel i s x (put_uvarint fuel v ++ rest) = inl (x + v * 2 ^ s, rest).
Proof.
  revert i s x v. induction fuel as [|fuel IH]; intros i s x v Hf Hi Hs Hx Hv Hlt; [lia|].
  cbn [put_uvarint]. assert (Hp : 0 < 2 ^ s) by (apply Z.pow_pos_nonneg; lia).
  destruct (Z.leb_spec 128 v) as [Hb|Hb].
  - (* a continued byte; the tenth never is *)
    assert (Hi9 : (i < 9)%nat).
    { destruct (decide (i = 9%nat)) as [->|]; [|lia]. subst s. cbn in Hlt. lia. }
    cbn [app read_uvarint].
    pose proof (Z.mod_pos_bound v (2 ^ 7) ltac:(done)) as Hm.
    assert (Z.lor (Z.land v 127) 128 = v mod 2 ^ 7 + 1 * 2 ^ 7) as ->.
    { rewrite (Z.land_ones v 7 ltac:(done) : Z.land v 127 = _).
      apply (lor_add (v mod 2 ^ 7) 1 7); lia. }
    rewrite (proj2 (Z.ltb_ge _ _)) by lia.
    rewrite (Z.land_ones _ 7 ltac:(done) : Z.land (v mod 2 ^ 7 + 1 * 2 ^ 7) 127 = _).
    rewrite Z.mod_add, Z.mod_mod by done.
    rewrite Z.shiftr_div_pow2 by done.
    pose proof (Z.div_mod v (2 ^ 7) ltac:(done)) as Hdm.
    assert (Hp7 : 2 ^ (s + 7) = 2 ^ s * 2 ^ 7) by (rewrite Z.pow_add_r; lia).
    pose proof (Z.div_pos v (2 ^ 7) Hv ltac:(done)).
    rewrite to_u64_shiftl by nia. rewrite lor_add by lia.
    rewrite IH; try lia; rewrite ?Hp7.
    + f_equal. f_equal. rewrite Hdm at 3. ring.
    + nia.
  - cbn [app read_uvarint]. rewrite (proj2 (Z.ltb_lt _ _)) by lia.
    destruct (Nat.eqb_spec i 9) as [->|]; cbn [andb].
    + subst s. rewrite (proj2 (Z.ltb_ge _ _)) by (cbn in Hlt; lia).
      rewrite to_u64_shiftl, lor_add by lia. done.
    + rewrite to_u64_shiftl, lor_add by lia. done.
Qed.

Lemma ReadUvarint_Put v rest :
  is_u64 v → ReadUvarint (PutUvarint v ++ rest) = inl (v, rest).
Proof.
  intros Hv. unfold is_u64 in Hv. unfold ReadUvarint, PutUvarint, MaxVarintLen64.
  rewrite (read_put_uvarint 10 0 0 0 v rest); try lia. do 2 f_equal. lia.
Qed.

(** ** Round trip *)

(** What is decoded from the code of a cell, given the cell before it. *)
Lemma delta_roundtrip p c :
  is_u64 p → is_u64 c →
  to_u64 (to_i64 (to_i64 p + to_i64 (to_i64 c - to_i64 p))) = c ∧
  to_i64 (to_i64 p + to_i64 (to_i64 c - to_i64 p)) = to_i64 c.
Proof.
  intros Hp Hc.
  assert (E : to_u64 (to_i64 p + to_i64 (to_i64 c - to_i64 p)) = c).
  { unfold to_u64. rewrite <- Zplus_mod_idemp_r. fold (to_u64 (to_i64 (to_i64 c - to_i64 p))).
    rewrite to_u64_to_i64. unfold to_u64. rewrite Zplus_mod_idemp_r.
    replace (to_i64 p + (to_i64 c - to_i64 p)) with (to_i64 c) by lia.
    fold (to_u64 (to_i64 c)). rewrite to_u64_to_i64. by apply to_u64_small. }
  split; [by rewrite to_u64_to_i64|]. by rewrite <- to_i64_to_u64, E.
Qed.

Lemma cells_roundtrip row : ∀ i j outSize off first p rest tail,
  Forall is_u64 row → is_u64 p → first = (j =? 0) → 0 <= j →
  off + 8 * Z.of_nat (length row) <= outSize →
  ∃ out,
    compress_cells (length row) first p (row_bytes row ++ rest) = Some (out, rest) ∧
    decompress_cells (length row) i j outSize off (to_i64 p) (out ++ tail)
      = Ok (row_bytes row, tail, off + 8 * Z.of_nat (length row)).
Proof.
  induction row as [|c row IH]; intros i j outSize off first p rest tail Hrow Hp Hf Hj Hout.
  - exists []. cbn. by rewrite Z.add_0_r.
  - apply Forall_cons in Hrow as [Hc Hrow]. cbn [length] in Hout.
    destruct (IH i (j + 1) outSize (off + 8) false c rest tail Hrow Hc)
      as (out & E1 & E2); [by destruct (Z.eqb_spec (j + 1) 0); [lia|] | lia | lia |].
    set (delta := if first then to_i64 c else to_i64 (to_i64 c - to_i64 p)).
    exists (PutUvarint (zigzagEncode delta) ++ out).
    assert (Hd : is_i64 delta) by (unfold delta; destruct first; apply to_i64_range).
    cbn [length compress_cells decompress_cells].
    change (row_bytes (c :: row)) with (be_bytes 8 c ++ row_bytes row).
    rewrite <- !app_assoc.
    rewrite (proj2 (Nat.ltb_ge _ _)) by (rewrite length_app, be_bytes_length; lia).
    rewrite drop_app_length', take_app_length' by by rewrite be_bytes_length.
    rewrite be_value_bytes by exact Hc. rewrite E1. cbn [mbind option_bind].
    split; [done|]. rewrite ReadUvarint_Put by apply to_u64_range.
    rewrite zigzag_roundtrip by done.
    assert (Hcell : (if j =? 0 then delta else to_i64 (to_i64 p + delta)) = to_i64 c).
    { unfold delta. rewrite Hf. destruct (j =? 0); [done|]. by apply delta_roundtrip. }
    rewrite Hcell, (proj2 (Z.ltb_ge _ _)) by lia. rewrite E2, to_u64_to_i64.
    rewrite to_u64_small by exact Hc. do 2 f_equal. lia.
Qed.

Lemma rows_roundtrip w t : ∀ i outSize off tail,
  Forall (λ row, length row = w ∧ Forall is_u64 row) t →
  off + 8 * Z.of_nat w * Z.of_nat (length t) <= outSize →
  ∃ out,
    compress_rows (length t) w (table_bytes t) = Some (out, []) ∧
    decompress_rows (length t) w i outSize off (out ++ tail)
      = Ok (table_bytes t, tail, off + 8 * Z.of_nat w * Z.of_nat (length t)).
Proof.
  induction t as [|row t IH]; intros i outSize off tail Ht Hout.
  - exists []. cbn. by rewrite Z.mul_0_r, Z.add_0_r.
  - apply Forall_cons in Ht as [[Hw Hrow] Ht]. cbn [length] in Hout.
    destruct (IH (i + 1) outSize (off + 8 * Z.of_nat w) tail Ht) as (out & E1 & E2); [nia|].
    destruct (cells_roundtrip row i 0 outSize off true 0 (table_bytes t) (out ++ tail))
      as (row_out & E3 & E4); [done | unfold is_u64; lia | done | lia | nia |].
    exists (row_out ++ out). cbn [length compress_rows decompress_rows].
    change (table_bytes (row :: t)) with (row_bytes row ++ table_bytes t).
    rewrite Hw in *. rewrite E3. cbn [mbind option_bind]. rewrite E1. cbn [mbind option_bind].
    split; [done|]. rewrite <- app_assoc. change (to_i64 0) with 0 in E4.
    rewrite E4, E2. do 2 f_equal. lia.
Qed.

(** C36: compression loses nothing: [Compress] does not fail on a marshalled
    sketch, and [Decompress] gives the marshalled bytes back, from which
    [Unmarshal] reads the sketch. *)
Theorem Decompress_Compress c :
  cms_wf c →
  ∃ z, Compress (Marshal c) = Some z ∧ Decompress z = Ok (Marshal c) ∧
    Unmarshal (Marshal c) = Ok c.
Proof.
  intros Hwf. pose proof (unmarshal_marshal c [] Hwf) as HU. rewrite app_nil_r in HU.
  destruct Hwf as [Hw Hd Hs Hseeds Hr Hc Hsz].
  change (Marshal c)
    with (header (width c) (depth c) (baseSeed c) ++ table_bytes (cms_table c)) in *.
  pose proof (table_bytes_length (Z.to_nat (width c)) (cms_table c)
    (Forall_impl _ _ _ Hc (λ _ H, proj1 H))) as TL.
  destruct (rows_roundtrip (Z.to_nat (width c)) (cms_table c) 0
    (table_size (width c) (depth c)) headerSize [] Hc) as (out & E1 & E2).
  { rewrite table_size_small, Hr by lia. unfold headerSize. lia. }
  rewrite Hr in E1, E2. rewrite app_nil_r in E2.
  pose proof (header_fields (width c) (depth c) (baseSeed c)) as HF.
  exists (header (width c) (depth c) (baseSeed c) ++ out). split; [|split; [|done]].
  - destruct (HF (table_bytes (cms_table c)) Hw Hd Hs)
      as (L & _ & _ & F3 & F4 & _ & F6 & F7).
    unfold Compress. rewrite F3, F4, F6, F7, E1.
    rewrite (proj2 (Z.ltb_ge _ _)) by (rewrite length_app, L; unfold headerSize; lia).
    rewrite (to_i64_small (_ * _)) by (unfold is_i64, headerSize in *; nia).
    rewrite to_i64_small by (unfold is_i64, headerSize in *; nia).
    by rewrite (proj2 (Z.ltb_ge _ _)) by (unfold headerSize; nia).
  - destruct (HF out Hw Hd Hs) as (L & F1 & F2 & F3 & F4 & _ & F6 & F7).
    unfold Decompress. rewrite F1, F2, F3, F4, F6, F7.
    rewrite (proj2 (Z.ltb_ge _ _)) by (rewrite length_app, L; unfold headerSize; lia).
    rewrite decide_True by done. cbn [default from_option]. rewrite Z.eqb_refl.
    rewrite table_size_small in * by lia.
    rewrite (proj2 (Z.ltb_ge _ _)) by nia.
    rewrite E2. cbn [length Nat.ltb Nat.leb].
    replace (_ - _) with 0 by lia. cbn [Z.to_nat replicate].
    by rewrite app_nil_r.
Qed.

Lemma Decompress_Compress_witness :
  ∃ z, Compress (Marshal (sketch 4 2 42 [("a", 3); ("b", 4)])) = Some z ∧
    Decompress z = Ok (Marshal (sketch 4 2 42 [("a", 3); ("b", 4)])) ∧
    Unmarshal (Marshal (sketch 4 2 42 [("a", 3); ("b", 4)]))
      = Ok (sketch 4 2 42 [("a", 3); ("b", 4)]).
Proof.
  apply (Decompress_Compress (sketch 4 2 42 [("a", 3); ("b", 4)])).
  apply sketch_wf; unfold is_u64, headerSize; lia.
Defined.

(** [Compress] trusts the dimensions in the header: on a marshalled sketch
    that was cut short it is out of range, where [Unmarshal] has an error. *)
Example Compress_truncated :
  let data := take 30 (Marshal (NewCMS 4 2 42)) in
  Compress data = None ∧ Unmarshal data = Err (TooShortTable 30 83).
Proof. by vm_compute. Qed.
