(* ===== verification/Clock.v ===== *)
(** * Clock: the clock the tests drive (internal/clock/clock.go)

    [Clock] is the interface.  The real clock asks the environment for the time
    with [QNow], as the limiter's programs do, and its [After] channels are the
    runtime's.  [FakeClock] is a clock moved by hand; its channels are
    cells of a store, with room for one value. *)

From S2P Require Export Go.

Record waiter := mkWaiter { deadline : Z; w_ch : nat }.

Record FakeClock := mkFakeClock { now : Z; waiters : list waiter }.

Definition NewFakeClock (t : Z) : FakeClock := mkFakeClock t [].

(** The clock and the channels [After] has made. *)
Record clock_world := mkClockWorld { fc : FakeClock; timers : list (list Z) }.

Definition fake_Now : go clock_world Z := reads (λ s, now (fc s)).
Definition fake_Since (t : Z) : go clock_world Z :=
  reads (λ s, time_Sub (now (fc s)) t).
Definition fake_SetNow (t : Z) : go clock_world unit :=
  modify (λ s, mkClockWorld (mkFakeClock t (waiters (fc s))) (timers s)).
Definition fake_Waiters : go clock_world nat := reads (λ s, length (waiters (fc s))).

(** [ch <- t] on a channel with room for one value. *)
Definition timer_send (ch : nat) (t : Z) : go clock_world unit :=
  await (λ s,
    match timers s !! ch with
    | Some [] => Some (tt, mkClockWorld (fc s) (<[ch := [t]]> (timers s)))
    | _ => None
    end).

Definition timer_recv (ch : nat) : go clock_world Z :=
  await (λ s,
    match timers s !! ch with
    | Some (t :: _) => Some (t, mkClockWorld (fc s) (<[ch := []]> (timers s)))
    | _ => None
    end).

(** [!now.Before(w.deadline)] *)
Definition due (now : Z) (w : waiter) : Prop := deadline w <= now.
#[export] Instance due_dec now w : Decision (due now w) := Z_le_dec _ _.

Definition fake_Advance (d : Z) : go clock_world unit :=
  do! (fired, now) <- atomically (λ s,
    let now := now (fc s) + d in
    ((filter (due now) (waiters (fc s)), now),
     mkClockWorld (mkFakeClock now (filter (λ w, ¬ due now w) (waiters (fc s))))
       (timers s)));
  for_each (λ w, fork (timer_send (w_ch w) now)) fired.

Definition fake_After (d : Z) : go clock_world nat :=
  atomically (λ s,
    let ch := length (timers s) in
    let deadline := now (fc s) + d in
    if decide (deadline <= now (fc s)) then
      (ch, mkClockWorld (fc s) (timers s ++ [[now (fc s)]]))
    else
      (ch, mkClockWorld
             (mkFakeClock (now (fc s)) (waiters (fc s) ++ [mkWaiter deadline ch]))
             (timers s ++ [[]]))).

(** ** The interface *)

(** A channel of [After] is a number; a ticker has no state of its own. *)
Record Clock (S : Type) := mkClock {
  Now : go S Z;
  Since : Z → go S Z;
  clock_NewTicker : Z → go S unit;
  After : Z → go S nat;
}.
Arguments mkClock {S}.
Arguments Now {S}.
Arguments Since {S}.
Arguments clock_NewTicker {S}.
Arguments After {S}.

(** [time.After]. *)
Class RuntimeTimers (S : Type) := time_After : Z → go S nat.

Definition NewRealClock {S} `{RuntimeTimers S} : Clock S :=
  mkClock (ask QNow) (λ t, do! now <- ask QNow; Ret (time_Sub now t)) NewTicker time_After.

Definition fake_clock : Clock clock_world :=
  mkClock fake_Now fake_Since NewTicker fake_After.

(** ** What a waiter can rely on *)

(** The waiters' channels are made, distinct and empty, and no waiter is
    late. *)
Record clock_wf (s : clock_world) : Prop := {
  cw_nodup : NoDup (w_ch <$> waiters (fc s));
  cw_empty : Forall (λ w, timers s !! w_ch w = Some []) (waiters (fc s));
  cw_late : Forall (λ w, ¬ due (now (fc s)) w) (waiters (fc s));
}.

Lemma NewFakeClock_wf t : clock_wf (mkClockWorld (NewFakeClock t) []).
Proof. by repeat constructor. Qed.

(** The forked sends of [Advance], run one after the other. *)
Fixpoint run_all (env : environment) (i : nat) (ts : list (go clock_world unit))
    (s : clock_world) : option clock_world :=
  match ts with
  | [] => Some s
  | t :: ts =>
      match exec env i t s with
      | Done _ s' _ j => run_all env j ts s'
      | _ => None
      end
  end.

Definition fill (t : Z) (ws : list waiter) (chs : list (list Z)) : list (list Z) :=
  foldl (λ chs w, <[w_ch w := [t]]> chs) chs ws.

Lemma fill_lookup_ne t ws chs ch :
  ch ∉ w_ch <$> ws → fill t ws chs !! ch = chs !! ch.
Proof.
  unfold fill. revert chs. induction ws as [|w ws IH]; intros chs Hch; [done|].
  apply not_elem_of_cons in Hch as [Hne Hch]. cbn [foldl].
  rewrite IH by done. by rewrite list_lookup_insert_ne.
Qed.

Lemma fill_lookup t ws chs w :
  w ∈ ws → NoDup (w_ch <$> ws) → Forall (λ w, (w_ch w < length chs)%nat) ws →
  fill t ws chs !! w_ch w = Some [t].
Proof.
  revert chs. induction ws as [|w' ws IH]; intros chs Hw Hnd Hl;
    [by apply not_elem_of_nil in Hw|].
  apply NoDup_cons in Hnd as [Hn Hnd]. apply Forall_cons in Hl as [Hl Hls].
  change (fill t (w' :: ws) chs) with (fill t ws (<[w_ch w' := [t]]> chs)).
  apply elem_of_cons in Hw as [->|Hw].
  - rewrite fill_lookup_ne by done. by apply list_lookup_insert_eq.
  - apply IH; [done..|]. eapply Forall_impl; [exact Hls|]. intros v Hv.
    by rewrite length_insert.
Qed.

Lemma exec_fork_all env t ws i s :
  exec env i (for_each (λ w, fork (timer_send (w_ch w) t)) ws) s
    = Done tt s ((λ w, timer_send (w_ch w) t) <$> ws) i.
Proof. induction ws as [|w ws IH]; [done|]. cbn in *. by rewrite IH. Qed.

(** Through the interface, what took as long as the fake clock was moved took
    that long, as far as a duration can hold it. *)
Lemma Since_Advance env i d (s : clock_world) :
  is_i64 d →
  ∃ s' fs, exec env i (do! start <- Now fake_clock; fake_Advance d ;;; Since fake_clock start) s
    = Done d s' fs i.
Proof.
  intros Hd. cbn [Now Since fake_clock]. unfold fake_Now, fake_Since, fake_Advance.
  cbn [exec bind reads atomically]. rewrite exec_bind, exec_fork_all. cbn.
  do 2 eexists. f_equal. unfold time_Sub, is_i64 in *. lia.
Qed.

Lemma run_all_sends env t ws : ∀ i s,
  NoDup (w_ch <$> ws) → Forall (λ w, timers s !! w_ch w = Some []) ws →
  run_all env i ((λ w, timer_send (w_ch w) t) <$> ws) s
    = Some (mkClockWorld (fc s) (fill t ws (timers s))).
Proof.
  induction ws as [|w ws IH]; intros i s Hnd He; [by destruct s|].
  apply NoDup_cons in Hnd as [Hn Hnd]. apply Forall_cons in He as [He Hes].
  cbn. rewrite He. rewrite IH; [done|done|]. cbn.
  apply Forall_forall. intros v Hv. rewrite Forall_forall in Hes.
  rewrite list_lookup_insert_ne; [by apply Hes|].
  intros E. apply Hn. rewrite E. by apply list_elem_of_fmap_2.
Qed.

Lemma NoDup_fmap_filter {A B} (f : A → B) (P : A → Prop) `{∀ x, Decision (P x)} l :
  NoDup (f <$> l) → NoDup (f <$> filter P l).
Proof. intros H1. eapply sublist_NoDup; [exact H1|]. apply fmap_sublist, sublist_filter. Qed.

(** C37: moving the clock.  [Advance] never waits; it starts one send for each
    waiter whose deadline has come, and when these have run, each of those
    waiters' channels holds the new time, every other channel is as it was,
    and exactly the waiters still to come are left, none of them late. *)
Theorem fake_Advance_fires env i d s :
  clock_wf s →
  ∃ s1 fs s2,
    exec env i (fake_Advance d) s = Done tt s1 fs i ∧
    run_all env i fs s1 = Some s2 ∧ clock_wf s2 ∧
    now (fc s2) = now (fc s) + d ∧
    (∀ w, w ∈ waiters (fc s2) ↔ w ∈ waiters (fc s) ∧ now (fc s) + d < deadline w) ∧
    (∀ w, w ∈ waiters (fc s) → deadline w <= now (fc s) + d →
       timers s2 !! w_ch w = Some [now (fc s) + d]) ∧
    (∀ ch, (∀ w, w ∈ waiters (fc s) → w_ch w = ch → now (fc s) + d < deadline w) →
       timers s2 !! ch = timers s !! ch).
Proof.
  intros [Hnd He Hlate]. unfold fake_Advance.
  set (t := now (fc s) + d). set (ws := filter (due t) (waiters (fc s))).
  assert (Hnd' : NoDup (w_ch <$> ws)) by by apply NoDup_fmap_filter.
  assert (He' : Forall (λ w, timers s !! w_ch w = Some []) ws) 
    by (apply Forall_forall; intros w [_ Hw]%list_elem_of_filter;
        by apply (proj1 (Forall_forall _ _) He)).
  rewrite exec_bind. cbn [exec atomically fc]. fold t. fold ws.
  rewrite exec_fork_all. cbn [push_forks app].
  eexists _, _, _. split; [done|]. rewrite run_all_sends by done.
  split; [done|]. cbn [fc now waiters timers].
  assert (Hother : ∀ ch,
    (∀ w, w ∈ waiters (fc s) → w_ch w = ch → t < deadline w) →
    fill t ws (timers s) !! ch = timers s !! ch).
  { intros ch Hch. apply fill_lookup_ne. intros (w & -> & Hw)%list_elem_of_fmap.
    apply list_elem_of_filter in Hw as [Hw1 Hw2]. unfold due in Hw1.
    specialize (Hch w Hw2 eq_refl). lia. }
  repeat apply conj; [constructor; cbn [fc waiters timers now]|..].
  - by apply NoDup_fmap_filter.
  - apply Forall_forall. intros w [Hw1 Hw2]%list_elem_of_filter.
    rewrite Hother; [by rewrite Forall_forall in He; apply He|].
    intros w' Hw' E. enough (w' = w) as -> by (unfold due in Hw1; lia).
    apply list_elem_of_lookup in Hw2 as [k Hk], Hw' as [k' Hk'].
    assert (k = k') as ->; [|congruence].
    eapply NoDup_lookup; [exact Hnd|rewrite list_lookup_fmap, Hk; done|].
    rewrite list_lookup_fmap, Hk'. cbn. by rewrite E.
  - apply Forall_forall. by intros w [Hw _]%list_elem_of_filter.
  - done.
  - intros w. rewrite list_elem_of_filter. unfold due.
    split; intros [? ?]; (split; [done|lia]) || (split; [lia|done]).
  - intros w Hw Hd. apply fill_lookup; [|done|].
    + by apply list_elem_of_filter.
    + eapply Forall_impl; [exact He'|]. intros v Hv. cbn in Hv.
      by apply lookup_lt_Some in Hv.
  - exact Hother.
Qed.

Definition two_waiters : clock_world :=
  mkClockWorld (mkFakeClock 0 [mkWaiter 5 0; mkWaiter 9 1]) [[]; []].

Lemma fake_Advance_fires_witness :
  ∃ s1 fs s2,
    exec (clock_env 0) 0 (fake_Advance 6) two_waiters = Done tt s1 fs 0%nat ∧
    run_all (clock_env 0) 0 fs s1 = Some s2 ∧
    (∀ w, w ∈ waiters (fc s2) ↔
       w ∈ waiters (fc two_waiters) ∧ now (fc two_waiters) + 6 < deadline w).
Proof.
  destruct (fake_Advance_fires (clock_env 0) 0 6 two_waiters)
    as (s1 & fs & s2 & H1 & H2 & _ & _ & H3 & _).
  - constructor.
    + repeat constructor; set_solver.
    + repeat constructor.
    + repeat constructor; unfold due; cbn; lia.
  - by exists s1, fs, s2.
Defined.

(** [After] registers a waiter for a deadline to come, and answers at once
    for one that has. *)
Lemma fake_After_wf env i d s :
  clock_wf s →
  ∃ s', exec env i (fake_After d) s = Done (length (timers s)) s' [] i ∧ clock_wf s' ∧
    timers s' !! length (timers s) = Some (if decide (d <= 0) then [now (fc s)] else []).
Proof.
  intros [Hnd He Hlate].
  assert (Hch : ∀ w, w ∈ waiters (fc s) → (w_ch w < length (timers s))%nat).
  { intros w Hw. rewrite Forall_forall in He. by apply (lookup_lt_Some _ _ []), He. }
  unfold fake_After. cbn [exec atomically].
  destruct (decide (now (fc s) + d <= now (fc s))) as [Hd|Hd].
  - rewrite decide_True by lia. eexists. split; [done|]. cbn.
    split; [|apply list_lookup_middle; done].
    constructor; cbn; [done| |done].
    apply Forall_forall. intros w Hw. rewrite lookup_app_l by auto.
    rewrite Forall_forall in He. auto.
  - rewrite decide_False by lia. eexists. split; [done|]. cbn.
    split; [|apply list_lookup_middle; done].
    constructor; cbn.
    + rewrite fmap_app. apply NoDup_app. split; [done|]. split; [|apply NoDup_singleton].
      intros ch (w & -> & Hw)%list_elem_of_fmap. cbn. apply Hch in Hw.
      intros H1%list_elem_of_singleton. lia.
    + apply Forall_app. split.
      * apply Forall_forall. intros w Hw. rewrite lookup_app_l by auto.
        rewrite Forall_forall in He. auto.
      * repeat constructor. cbn. by apply list_lookup_middle.
    + apply Forall_app. split; [done|]. repeat constructor. unfold due. cbn. lia.
Qed.
