(* ===== verification/Accuracy.v ===== *)
(** * Accuracy: how the benchmark measures the limiter (cmd/krate-bench)

    The accuracy tracker counts, for every key and window, the requests a
    limiter admitted and rejected, in 64 locked shards; [ComputeAccuracy]
    turns the counts into the two numbers the benchmark reports.  The theorem
    of this file says what these numbers are in terms of the requests
    recorded. *)

From S2P Require Export Go Shard.

(** ** The tracker *)

Record windowStats := mkWStats { ws_allowed : Z; ws_rejected : Z }.

Definition trackerShardCount : Z := 64.

(** [stats] is nil until the first [Record]. *)
Record trackerShard := mkTShard {
  ts_stats : option (gmap string (gmap Z windowStats));
}.

Abbreviation accuracyTracker := (list trackerShard).

(** [&accuracyTracker{}]. *)
Definition new_tracker : accuracyTracker :=
  replicate (Z.to_nat trackerShardCount) (mkTShard None).

Definition trackerShardIndex (key : string) : Z :=
  Z.land (fnv1a offset32 key) (trackerShardCount - 1).

(** What [Record] does to the shard it has locked. *)
Definition record_locked (key : string) (windowNum : Z) (allowed : bool)
    (s : trackerShard) : trackerShard :=
  let stats := default ∅ (ts_stats s) in
  let m := default ∅ (stats !! key) in
  let ws := default (mkWStats 0 0) (m !! windowNum) in
  let ws := if allowed
            then mkWStats (to_i64 (ws_allowed ws + 1)) (ws_rejected ws)
            else mkWStats (ws_allowed ws) (to_i64 (ws_rejected ws + 1)) in
  mkTShard (Some (<[key := <[windowNum := ws]> m]> stats)).

(** The body of the inner loop of [ComputeAccuracy]: the two totals so far,
    and those after one window. *)
Definition count_window (limit : Z) (totals : Z * Z) (ws : windowStats) : Z * Z :=
  let '(totalLeakage, totalFalseRejections) := totals in
  let limit := to_i64 limit in
  let totalLeakage :=
    if limit <? ws_allowed ws
    then to_i64 (totalLeakage + to_i64 (ws_allowed ws - limit)) else totalLeakage in
  let totalFalseRejections :=
    if (0 <? ws_rejected ws) && (ws_allowed ws <? limit) then
      let unusedCapacity := to_i64 (limit - ws_allowed ws) in
      if ws_rejected ws <? unusedCapacity
      then to_i64 (totalFalseRejections + ws_rejected ws)
      else to_i64 (totalFalseRejections + unusedCapacity)
    else totalFalseRejections in
  (totalLeakage, totalFalseRejections).

(** The loops over the keys of a shard and the windows of a key, each in the
    order of the map iteration. *)
Definition count_key (order : ∀ A, list A → list A) (limit : Z)
    (totals : Z * Z) (e : string * gmap Z windowStats) : Z * Z :=
  foldl (λ t w, count_window limit t w.2) totals (order _ (map_to_list e.2)).

Definition count_shard (order : ∀ A, list A → list A) (limit : Z)
    (s : trackerShard) (totals : Z * Z) : Z * Z :=
  foldl (count_key order limit) totals
    (order _ (map_to_list (default ∅ (ts_stats s)))).

Section tracker.
Context {S : Type} (tl : lens S accuracyTracker).

(** [Record]. *)
Definition tracker_Record (key : string) (windowNum : Z) (allowed : bool)
  : go S unit :=
  zoom_modify tl (alter (record_locked key windowNum allowed)
                    (Z.to_nat (trackerShardIndex key))).

Fixpoint accuracy_shards (limit : Z) (idxs : list nat) (totals : Z * Z)
  : go S (Z * Z) :=
  match idxs with
  | [] => Ret totals
  | i :: idxs =>
      do! order <- ask QOrder;
      do! totals <- zoom_reads tl (λ t,
        count_shard order limit (default (mkTShard None) (t !! i)) totals);
      accuracy_shards limit idxs totals
  end.

Definition ComputeAccuracy (limit : Z) : go S (Z * Z) :=
  accuracy_shards limit (seq 0 (Z.to_nat trackerShardCount)) (0, 0).
End tracker.

(** ** What was recorded *)

(** A request, as [Record] is told of it: its key, its window and whether it
    was admitted. *)
Abbreviation request := (string * Z * bool)%type.

Definition record_all (evs : list request) (t : accuracyTracker)
  : accuracyTracker :=
  foldl (λ t '(key, w, ok),
    alter (record_locked key w ok) (Z.to_nat (trackerShardIndex key)) t) t evs.

(** The requests of a key and window with one outcome. *)
Definition outcomes (ok : bool) (kw : string * Z) (evs : list request) : Z :=
  Z.of_nat (length (filter (λ e, e = (kw, ok)) evs)).
Definition admissions : string * Z → list request → Z := outcomes true.
Definition rejections : string * Z → list request → Z := outcomes false.

(** The admissions of a window above the limit, and its rejections that the
    limit would have allowed. *)
Definition over_admitted (limit a : Z) : Z := Z.max 0 (a - limit).
Definition falsely_rejected (limit a r : Z) : Z :=
  Z.min r (Z.max 0 (limit - a)).

(** ** The tracker holds the counts *)

(** The shards as a flat table. *)
Definition tab (t : accuracyTracker) : table (gmap Z windowStats) :=
  (λ s, default ∅ (ts_stats s)) <$> t.

(** The statistics of a key and window. *)
Definition stat (t : accuracyTracker) (kw : string * Z) : option windowStats :=
  t_lookup kw.1 (tab t) ≫= (.!! kw.2).

Definition counted (evs : list request) (kw : string * Z) : windowStats :=
  mkWStats (admissions kw evs) (rejections kw evs).

Record tracks (evs : list request) (t : accuracyTracker) : Prop := {
  tr_wf : table_wf (tab t);
  tr_stat kw : stat t kw =
    if decide (kw ∈ evs.*1) then Some (counted evs kw) else None;
}.

Definition bump (ok : bool) (ws : windowStats) : windowStats :=
  if ok then mkWStats (to_i64 (ws_allowed ws + 1)) (ws_rejected ws)
  else mkWStats (ws_allowed ws) (to_i64 (ws_rejected ws + 1)).

Definition bump_key (w : Z) (ok : bool) (key : string)
    (stats : gmap string (gmap Z windowStats)) : gmap string (gmap Z windowStats) :=
  let m := default ∅ (stats !! key) in
  <[key := <[w := bump ok (default (mkWStats 0 0) (m !! w))]> m]> stats.

Abbreviation record_in key w ok :=
  (alter (record_locked key w ok) (Z.to_nat (trackerShardIndex key))).

Lemma tab_record key w ok t :
  tab (record_in key w ok t) = t_alter key (bump_key w ok key) (tab t).
Proof.
  unfold tab, t_alter. apply list_eq. intros i. rewrite list_lookup_fmap.
  change (Z.to_nat (trackerShardIndex key)) with (shard_of key).
  destruct (decide (i = shard_of key)) as [->|Hne].
  - rewrite !list_lookup_alter_eq, list_lookup_fmap.
    destruct (t !! shard_of key) as [[st]|]; reflexivity.
  - by rewrite !list_lookup_alter_ne, list_lookup_fmap by done.
Qed.

Lemma tab_record_wf key w ok t : table_wf (tab t) → table_wf (tab (record_in key w ok t)).
Proof.
  rewrite tab_record. apply t_alter_wf. intros m k' v Hk'. unfold bump_key in Hk'.
  destruct (decide (k' = key)) as [->|Hne]; [by left|].
  rewrite lookup_insert_ne in Hk' by done. right. by eexists.
Qed.

(** [Record] touches one entry. *)
Lemma stat_record k w ok t kw :
  length (tab t) = 64%nat →
  stat (record_in k w ok t) kw =
    if decide (kw = (k, w))
    then Some (bump ok (default (mkWStats 0 0) (stat t (k, w)))) else stat t kw.
Proof.
  intros Hlen. destruct kw as [k' w']. unfold stat. cbn [fst snd].
  rewrite tab_record. unfold t_lookup, t_alter.
  destruct (shard_is_some k (tab t) Hlen) as [m Hm].
  destruct (decide (shard_of k = shard_of k')) as [E|E].
  - rewrite <- E, list_lookup_alter_eq, Hm. cbn. unfold bump_key.
    destruct (decide (k' = k)) as [->|Hk].
    + rewrite lookup_insert_eq. cbn. destruct (decide (w' = w)) as [->|Hw].
      * rewrite lookup_insert_eq, decide_True by done.
        destruct (m !! k) as [m0|]; cbn; [done|]. by rewrite lookup_empty.
      * rewrite lookup_insert_ne, decide_False by congruence.
        destruct (m !! k) as [m0|]; cbn; [done|]. by rewrite lookup_empty.
    + by rewrite lookup_insert_ne, decide_False by congruence.
  - rewrite list_lookup_alter_ne by done. rewrite decide_False; [done|congruence].
Qed.

Lemma new_tracker_tracks : tracks [] new_tracker.
Proof.
  assert (E : tab new_tracker = empty_table) by done. split.
  - rewrite E. apply empty_table_wf.
  - intros [k w]. unfold stat. cbn [fst snd]. rewrite E, t_lookup_empty.
    by rewrite decide_False by apply not_elem_of_nil.
Qed.

Lemma outcomes_app ok kw evs e :
  outcomes ok kw (evs ++ [e]) = outcomes ok kw evs + (if decide (e = (kw, ok)) then 1 else 0).
Proof.
  unfold outcomes. rewrite filter_app, length_app. cbn.
  destruct (decide (e = (kw, ok))); cbn; lia.
Qed.

Lemma outcomes_bound ok kw evs : 0 <= outcomes ok kw evs <= Z.of_nat (length evs).
Proof. unfold outcomes. pose proof (length_filter (λ e, e = (kw, ok)) evs). lia. Qed.

Lemma outcomes_new ok kw evs : kw ∉ evs.*1 → outcomes ok kw evs = 0.
Proof.
  unfold outcomes. induction evs as [|e evs IH]; [done|].
  rewrite fmap_cons, not_elem_of_cons. intros [Hn Hns].
  rewrite filter_cons_False; [by apply IH|]. intros ->. by apply Hn.
Qed.

(** One more request of a key and window. *)
Lemma counted_bump evs kw ok :
  Z.of_nat (length evs) + 1 < 2 ^ 63 →
  bump ok (counted evs kw) = counted (evs ++ [(kw, ok)]) kw.
Proof.
  intros Hl. unfold counted, admissions, rejections, bump.
  rewrite !outcomes_app. cbn [ws_allowed ws_rejected].
  pose proof (outcomes_bound true kw evs). pose proof (outcomes_bound false kw evs).
  destruct ok; rewrite to_i64_small by go_lia;
    [rewrite (decide_True (P := (kw, true) = (kw, true))) by done;
     rewrite (decide_False (P := (kw, true) = (kw, false))) by congruence
    |rewrite (decide_True (P := (kw, false) = (kw, false))) by done;
     rewrite (decide_False (P := (kw, false) = (kw, true))) by congruence];
    f_equal; lia.
Qed.

Lemma counted_other evs kw kw' ok :
  kw' ≠ kw → counted (evs ++ [(kw, ok)]) kw' = counted evs kw'.
Proof.
  intros Hne. unfold counted, admissions, rejections. rewrite !outcomes_app.
  rewrite !decide_False by congruence. f_equal; lia.
Qed.

Lemma counted_new evs kw : kw ∉ evs.*1 → counted evs kw = mkWStats 0 0.
Proof.
  intros Hn. unfold counted, admissions, rejections. by rewrite !outcomes_new.
Qed.

Lemma record_tracks evs t k w ok :
  Z.of_nat (length evs) + 1 < 2 ^ 63 → tracks evs t →
  tracks (evs ++ [((k, w), ok)]) (record_in k w ok t).
Proof.
  intros Hl [Hwf Hst]. split; [by apply tab_record_wf|].
  intros kw. rewrite stat_record by apply Hwf. rewrite !Hst.
  rewrite fmap_app. cbn [fmap list_fmap fst].
  destruct (decide (kw = (k, w))) as [->|Hne].
  - rewrite (decide_True (P := _ ∈ _ ++ _)) by set_solver. f_equal.
    rewrite <- counted_bump by done. f_equal.
    destruct (decide ((k, w) ∈ evs.*1)); [done|]. by rewrite counted_new.
  - rewrite (decide_ext (kw ∈ evs.*1 ++ [(k, w)]) (kw ∈ evs.*1)) by set_solver.
    by rewrite counted_other.
Qed.

Lemma record_all_tracks evs :
  Z.of_nat (length evs) < 2 ^ 63 → tracks evs (record_all evs new_tracker).
Proof.
  induction evs as [|[[k w] ok] evs IH] using rev_ind; intros Hl;
    [apply new_tracker_tracks|].
  rewrite length_app in Hl. cbn [length] in Hl.
  unfold record_all. rewrite foldl_app. apply record_tracks; [lia|]. apply IH. lia.
Qed.

(** ** The totals

    [int64] addition wraps, so a loop that adds to a total modulo [2^64]
    computes the sum whatever the order. *)

Definition adds_up {A} (step : Z * Z → A → Z * Z) (f g : A → Z) (x : A) : Prop :=
  ∀ a b, step (to_i64 a, to_i64 b) x = (to_i64 (a + f x), to_i64 (b + g x)).

Lemma adds_up_foldl {A} (step : Z * Z → A → Z * Z) f g l a b :
  (∀ x, x ∈ l → adds_up step f g x) →
  foldl step (to_i64 a, to_i64 b) l
    = (to_i64 (a + zsum (f <$> l)), to_i64 (b + zsum (g <$> l))).
Proof.
  revert a b. induction l as [|x l IH]; intros a b Hl; cbn [foldl].
  - cbn. by rewrite !Z.add_0_r.
  - rewrite (Hl x) by (by left). rewrite IH by (intros y Hy; apply Hl; by right).
    cbn. by rewrite !Z.add_assoc.
Qed.

Lemma zsum_order {A} (order : ∀ A, list A → list A) (f : A → Z) l :
  (∀ (A : Type) (l : list A), order A l ≡ₚ l) →
  zsum (f <$> order A l) = zsum (f <$> l).
Proof. intros Ho. apply zsum_perm. by rewrite (Ho A l). Qed.

Definition ws_range (ws : windowStats) : Prop :=
  0 <= ws_allowed ws < 2 ^ 63 ∧ 0 <= ws_rejected ws < 2 ^ 63.

Section totals.
Context (limit : Z) (Hlimit : 0 <= limit < 2 ^ 63).

Definition ws_over (ws : windowStats) : Z := over_admitted limit (ws_allowed ws).
Definition ws_false (ws : windowStats) : Z :=
  falsely_rejected limit (ws_allowed ws) (ws_rejected ws).

Lemma count_window_adds ws :
  ws_range ws → adds_up (count_window limit) ws_over ws_false ws.
Proof using Hlimit.
  intros [Ha Hr] a b. unfold count_window, ws_over, ws_false, over_admitted,
    falsely_rejected. rewrite (to_i64_small limit) by go_lia. f_equal.
  - destruct (Z.ltb_spec limit (ws_allowed ws)).
    + rewrite to_i64_add_l, (to_i64_small (_ - _)) by go_lia. f_equal. lia.
    + f_equal. lia.
  - destruct (Z.ltb_spec 0 (ws_rejected ws)), (Z.ltb_spec (ws_allowed ws) limit);
      cbn [andb]; try (f_equal; lia).
    rewrite (to_i64_small (limit - _)) by go_lia.
    destruct (Z.ltb_spec (ws_rejected ws) (limit - ws_allowed ws));
      rewrite to_i64_add_l; f_equal; lia.
Qed.

(** The sum of [f] over the windows of a key, and over the keys of a shard. *)
Definition key_sum (f : windowStats → Z) (e : string * gmap Z windowStats) : Z :=
  zsum ((λ w, f w.2) <$> map_to_list e.2).
Definition shard_sum (f : windowStats → Z) (m : gmap string (gmap Z windowStats)) : Z :=
  zsum (key_sum f <$> map_to_list m).

Definition in_range (m : gmap string (gmap Z windowStats)) : Prop :=
  ∀ k ws w s, m !! k = Some ws → ws !! w = Some s → ws_range s.

Lemma count_key_adds order e :
  (∀ (A : Type) (l : list A), order A l ≡ₚ l) → (∀ w s, e.2 !! w = Some s → ws_range s) →
  adds_up (count_key order limit) (key_sum ws_over) (key_sum ws_false) e.
Proof using Hlimit.
  intros Ho He a b. unfold count_key.
  rewrite (adds_up_foldl _ (λ w, ws_over w.2) (λ w, ws_false w.2)).
  - unfold key_sum. by rewrite !(zsum_order order).
  - intros [w s] Hw. rewrite Ho, elem_of_map_to_list in Hw.
    intros a' b'. by apply count_window_adds, (He w).
Qed.

Lemma count_shard_adds order s a b :
  (∀ (A : Type) (l : list A), order A l ≡ₚ l) → in_range (default ∅ (ts_stats s)) →
  count_shard order limit s (to_i64 a, to_i64 b)
    = (to_i64 (a + shard_sum ws_over (default ∅ (ts_stats s))),
       to_i64 (b + shard_sum ws_false (default ∅ (ts_stats s)))).
Proof using Hlimit.
  intros Ho Hs. unfold count_shard.
  rewrite (adds_up_foldl _ (key_sum ws_over) (key_sum ws_false)).
  - unfold shard_sum. by rewrite !(zsum_order order).
  - intros [k m] Hk. rewrite Ho, elem_of_map_to_list in Hk.
    apply count_key_adds; [done|]. cbn. intros w ws Hw. by apply (Hs k m w).
Qed.
End totals.

Section exec.
Context {S : Type} (tl : lens S accuracyTracker) (env : environment).
Context (Henv : ∀ j, valid_answer QOrder (env _ QOrder j)).
Context (limit : Z) (Hlimit : 0 <= limit < 2 ^ 63).

Lemma exec_accuracy_shards s idxs : ∀ i a b,
  (∀ j m, tab (lget tl s) !! j = Some m → in_range m) →
  let tot f := zsum ((λ j, shard_sum f (default ∅ (tab (lget tl s) !! j))) <$> idxs) in
  exec env i (accuracy_shards tl limit idxs (to_i64 a, to_i64 b)) s
    = Done (to_i64 (a + tot (ws_over limit)), to_i64 (b + tot (ws_false limit)))
        s [] (i + length idxs).
Proof using Henv Hlimit.
  induction idxs as [|n idxs IH]; intros i a b Hr tot.
  - cbn. by rewrite !Z.add_0_r, Nat.add_0_r.
  - cbn [accuracy_shards bind ask exec zoom_reads reads atomically].
    set (sh := default (mkTShard None) (lget tl s !! n)).
    assert (E : default ∅ (ts_stats sh) = default ∅ (tab (lget tl s) !! n)).
    { unfold sh, tab. rewrite list_lookup_fmap. by destruct (lget tl s !! n). }
    rewrite count_shard_adds; [|done|exact (Henv i)|].
    + rewrite IH by done. rewrite E. unfold tot. cbn [fmap list_fmap zsum length].
      rewrite !Z.add_assoc. f_equal. lia.
    + rewrite E. destruct (tab (lget tl s) !! n) as [m|] eqn:Em; cbn; [by eapply Hr|].
      intros k ws w x Hk. by rewrite lookup_empty in Hk.
Qed.
End exec.

(** ** What the benchmark reports *)

(** Every key and window with its statistics, once. *)
Definition rows (t : accuracyTracker) : list (string * Z * windowStats) :=
  t_entries (tab t) ≫= λ '(k, m), (λ '(w, ws), ((k, w), ws)) <$> map_to_list m.

Lemma elem_of_rows t kw ws :
  table_wf (tab t) → (kw, ws) ∈ rows t ↔ stat t kw = Some ws.
Proof.
  intros Hwf. destruct kw as [k w]. unfold rows, stat. cbn [fst snd].
  rewrite list_elem_of_bind. split.
  - intros ([k' m] & Hw & Hk). apply list_elem_of_fmap in Hw as ([w' ws'] & E & Hw). simplify_eq.
    apply elem_of_map_to_list in Hw. apply elem_of_t_entries in Hk; [|done].
    by rewrite Hk.
  - destruct (t_lookup k (tab t)) as [m|] eqn:Hk; [|done]. cbn. intros Hw.
    exists (k, m). split; [|by apply elem_of_t_entries].
    apply list_elem_of_fmap. exists (w, ws). split; [done|]. by apply elem_of_map_to_list.
Qed.

Lemma rows_NoDup t : table_wf (tab t) → NoDup (rows t).
Proof.
  intros Hwf. apply NoDup_bind.
  - intros [k1 m1] [k2 m2] y H1 H2 ([w1 s1] & -> & _)%list_elem_of_fmap
      ([w2 s2] & E & _)%list_elem_of_fmap. simplify_eq.
    apply elem_of_t_entries in H1, H2; [|done..]. congruence.
  - intros [k m] _. apply NoDup_fmap_2; [|apply NoDup_map_to_list].
    intros [w1 s1] [w2 s2]. congruence.
  - eapply NoDup_fmap_1, t_entries_NoDup, Hwf.
Qed.

(** The rows are the keys and windows of the requests, with their counts. *)
Lemma rows_tracks evs t :
  tracks evs t → rows t ≡ₚ (λ kw, (kw, counted evs kw)) <$> remove_dups evs.*1.
Proof.
  intros [Hwf Hst]. apply NoDup_Permutation.
  - by apply rows_NoDup.
  - apply NoDup_fmap_2; [intros x y; congruence|apply NoDup_remove_dups].
  - intros [kw ws]. rewrite elem_of_rows, Hst by done.
    split.
    + case_decide as Hin; [|done]. intros [= <-]. apply list_elem_of_fmap. exists kw.
      split; [done|]. by apply elem_of_remove_dups.
    + intros (kw' & [= -> ->] & Hin)%list_elem_of_fmap.
      rewrite decide_True; [done|]. by apply (elem_of_remove_dups _ kw').
Qed.

Lemma shard_sums f t :
  length (tab t) = 64%nat →
  zsum ((λ j, shard_sum f (default ∅ (tab t !! j))) <$> seq 0 64)
    = zsum ((λ r, f r.2) <$> rows t).
Proof.
  intros Hlen. unfold rows. rewrite zsum_bind. unfold t_entries. rewrite zsum_join.
  rewrite <- list_fmap_compose, <- Hlen.
  replace ((λ j, shard_sum f (default ∅ (tab t !! j))) <$> seq 0 (length (tab t)))
    with ((λ j, shard_sum f (default ∅ (tab t !! (j - 0)%nat))) <$> seq 0 (length (tab t)))
    by (apply list_fmap_ext; intros i j _; by rewrite Nat.sub_0_r).
  rewrite (fmap_lookup_seq (λ m, shard_sum f (default ∅ m)) (λ m, shard_sum f m)
    (tab t) 0) by done.
  f_equal. apply list_fmap_ext. intros i m _. unfold shard_sum, compose. f_equal.
  apply list_fmap_ext. intros j [k ws] _. unfold key_sum. cbn.
  rewrite <- list_fmap_compose. f_equal. apply list_fmap_ext. by intros n [w x] _.
Qed.

(** The outcomes of distinct windows add up to no more than the requests. *)
Lemma outcomes_total ok kws evs :
  NoDup kws → zsum ((λ kw, outcomes ok kw evs) <$> kws) <= Z.of_nat (length evs).
Proof.
  intros Hnd. induction evs as [|e evs IH] using rev_ind.
  - induction kws as [|kw kws IHk]; cbn; [done|]. apply NoDup_cons in Hnd as [_ Hnd].
    specialize (IHk Hnd). cbn in IHk. unfold outcomes at 1. cbn. lia.
  - rewrite length_app. cbn [length].
    enough (zsum ((λ kw, outcomes ok kw (evs ++ [e])) <$> kws)
      <= zsum ((λ kw, outcomes ok kw evs) <$> kws) + 1) by lia. clear IH.
    induction kws as [|kw kws IHk]; cbn; [lia|]. apply NoDup_cons in Hnd as [Hn Hnd].
    rewrite outcomes_app. case_decide as E; [|specialize (IHk Hnd); lia].
    enough (zsum ((λ kw, outcomes ok kw (evs ++ [e])) <$> kws)
      = zsum ((λ kw, outcomes ok kw evs) <$> kws)) by lia.
    f_equal. apply list_fmap_ext. intros i kw' Hi. rewrite outcomes_app.
    rewrite decide_False; [lia|]. intros ->. simplify_eq.
    apply Hn. by eapply list_elem_of_lookup_2.
Qed.

(** The totals of the requests [evs] under a limit. *)
Definition leakage_of (limit : Z) (evs : list request) : Z :=
  zsum ((λ kw, over_admitted limit (admissions kw evs)) <$> remove_dups evs.*1).
Definition false_rejections_of (limit : Z) (evs : list request) : Z :=
  zsum ((λ kw, falsely_rejected limit (admissions kw evs) (rejections kw evs))
          <$> remove_dups evs.*1).

Lemma leakage_bounds limit evs :
  0 <= limit → 0 <= leakage_of limit evs <= Z.of_nat (length evs).
Proof.
  intros Hl. split.
  - apply zsum_nonneg, Forall_fmap, Forall_true. intros kw.
    unfold compose, over_admitted. lia.
  - etrans; [|apply (outcomes_total true), NoDup_remove_dups].
    apply zsum_le. intros kw _. unfold over_admitted, admissions.
    pose proof (outcomes_bound true kw evs). lia.
Qed.

Lemma false_rejections_bounds limit evs :
  0 <= false_rejections_of limit evs <= Z.of_nat (length evs).
Proof.
  split.
  - apply zsum_nonneg, Forall_fmap, Forall_true. intros kw.
    unfold compose, falsely_rejected, rejections.
    pose proof (outcomes_bound false kw evs). lia.
  - etrans; [|apply (outcomes_total false), NoDup_remove_dups].
    apply zsum_le. intros kw _. unfold falsely_rejected, rejections. lia.
Qed.

Lemma zsum_zero {A} (f : A → Z) l :
  (∀ x, 0 <= f x) → zsum (f <$> l) = 0 ↔ ∀ x, x ∈ l → f x = 0.
Proof.
  intros Hf. induction l as [|x l IH]; cbn.
  - split; [|done]. intros _ x Hx. by apply not_elem_of_nil in Hx.
  - assert (0 <= zsum (f <$> l)) by (apply zsum_nonneg, Forall_fmap, Forall_true; auto).
    pose proof (Hf x). split.
    + intros E y [->|Hy]%elem_of_cons; [lia|]. apply IH; [lia|done].
    + intros Hl. rewrite (Hl x) by (by left).
      rewrite (proj2 IH); [done|]. intros y Hy. apply Hl. by right.
Qed.

(** Nothing leaked: every window of every key kept to the limit. *)
Lemma leakage_zero limit evs :
  0 <= limit → leakage_of limit evs = 0 ↔ ∀ kw, admissions kw evs <= limit.
Proof.
  intros Hl. unfold leakage_of. rewrite zsum_zero by (intros kw; unfold over_admitted; lia).
  unfold over_admitted. split.
  - intros H kw. destruct (decide (kw ∈ evs.*1)) as [Hin|Hn].
    + specialize (H kw (proj2 (elem_of_remove_dups _ kw) Hin)). lia.
    + unfold admissions. rewrite outcomes_new by done. lia.
  - intros H kw _. specialize (H kw). lia.
Qed.

(** No false rejection: a window with a rejection had used its limit. *)
Lemma false_rejections_zero limit evs :
  false_rejections_of limit evs = 0 ↔
  ∀ kw, 0 < rejections kw evs → limit <= admissions kw evs.
Proof.
  unfold false_rejections_of.
  rewrite zsum_zero by (intros kw; unfold falsely_rejected, rejections;
    pose proof (outcomes_bound false kw evs); lia).
  unfold falsely_rejected. split.
  - intros H kw Hr. destruct (decide (kw ∈ evs.*1)) as [Hin|Hn].
    + specialize (H kw (proj2 (elem_of_remove_dups _ kw) Hin)). lia.
    + unfold rejections in Hr. rewrite outcomes_new in Hr by done. lia.
  - intros H kw _. specialize (H kw). unfold rejections in *.
    pose proof (outcomes_bound false kw evs). lia.
Qed.

Section report.
Context {S : Type} (tl : lens S accuracyTracker) (env : environment).
Context (Henv : ∀ j, valid_answer QOrder (env _ QOrder j)).

Lemma exec_records evs i s :
  ∃ s', exec env i (for_each (λ '(k, w, ok), tracker_Record tl k w ok) evs) s
          = Done tt s' [] i ∧ lget tl s' = record_all evs (lget tl s).
Proof.
  revert s. induction evs as [|[[k w] ok] evs IH]; intros s; [by exists s|].
  cbn [for_each bind tracker_Record zoom_modify modify atomically exec].
  destruct (IH (lput tl (record_in k w ok (lget tl s)) s)) as (s' & E & Hs').
  exists s'. split; [exact E|]. by rewrite Hs', lget_put.
Qed.

(** C38: what the benchmark reports.  After any requests were recorded, fewer
    than [2^63], [ComputeAccuracy] returns exactly the admissions above the
    limit and the rejections the limit had room for, summed over the windows
    of every key, whatever the order in which Go visits the maps; the first
    is 0 exactly when every window of every key kept to the limit, the second
    exactly when no window with unused capacity rejected a request. *)
Theorem ComputeAccuracy_reports limit evs i s :
  0 <= limit < 2 ^ 63 → Z.of_nat (length evs) < 2 ^ 63 →
  lget tl s = new_tracker →
  ∃ s', exec env i
          (for_each (λ '(k, w, ok), tracker_Record tl k w ok) evs ;;;
           ComputeAccuracy tl limit) s
        = Done (leakage_of limit evs, false_rejections_of limit evs) s' [] (i + 64) ∧
    (leakage_of limit evs = 0 ↔ ∀ kw, admissions kw evs <= limit) ∧
    (false_rejections_of limit evs = 0 ↔
       ∀ kw, 0 < rejections kw evs → limit <= admissions kw evs).
Proof using Henv.
  intros Hl Hn Hs. destruct (exec_records evs i s) as (s' & E & Hs').
  exists s'. split; [|split; [apply leakage_zero, Hl|apply false_rejections_zero]].
  rewrite exec_bind, E. rewrite push_forks_nil.
  pose proof (record_all_tracks evs Hn) as Ht. rewrite Hs in Hs'. rewrite <- Hs' in Ht.
  assert (Hrange : ∀ kw, ws_range (counted evs kw)).
  { intros kw. unfold ws_range, counted. cbn.
    pose proof (outcomes_bound true kw evs). pose proof (outcomes_bound false kw evs).
    unfold admissions, rejections. lia. }
  assert (Hsum : ∀ f, zsum ((λ j, shard_sum f (default ∅ (tab (lget tl s') !! j))) <$> seq 0 64)
    = zsum ((λ kw, f (counted evs kw)) <$> remove_dups evs.*1)).
  { intros f. rewrite shard_sums by apply Ht.
    rewrite (zsum_perm _ _ (fmap_Permutation _ _ _ (rows_tracks evs _ Ht))).
    by rewrite <- list_fmap_compose. }
  pose proof (leakage_bounds limit evs (proj1 Hl)).
  pose proof (false_rejections_bounds limit evs).
  unfold ComputeAccuracy. change (Z.to_nat trackerShardCount) with 64%nat.
  change (0, 0) with (to_i64 0, to_i64 0).
  rewrite (exec_accuracy_shards tl env Henv limit Hl s' (seq 0 64) i 0 0).
  - rewrite !Hsum, !Z.add_0_l, length_seq.
    change (zsum _) with (leakage_of limit evs) at 1.
    change (zsum _) with (false_rejections_of limit evs).
    rewrite !to_i64_small by go_lia. done.
  - intros j m Hj k ws w x Hk Hw.
    assert (Hstat : stat (lget tl s') (k, w) = Some x).
    { unfold stat, t_lookup. cbn [fst snd].
      rewrite <- (proj2 (tr_wf _ _ Ht) j m k ws Hj Hk), Hj. cbn. by rewrite Hk. }
    rewrite (tr_stat _ _ Ht) in Hstat. case_decide; [|done]. injection Hstat as <-.
    apply Hrange.
Qed.
End report.

(** Two admissions of a window with limit 1, and a rejection in a window with
    room. *)
Definition demo_requests : list request :=
  [("a", 7, true); ("a", 7, true); ("b", 7, false); ("a", 8, true); ("a", 8, false)].

Lemma ComputeAccuracy_reports_witness :
  ∃ s', exec (clock_env 0) 0
          (for_each (λ '(k, w, ok), tracker_Record lens_id k w ok) demo_requests ;;;
           ComputeAccuracy lens_id 1) new_tracker
        = Done (1, 1) s' [] 64%nat.
Proof.
  destruct (ComputeAccuracy_reports lens_id (clock_env 0) (λ _ A l, reflexivity l)
    1 demo_requests 0 new_tracker) as (s' & E & _).
  - split; [discriminate|reflexivity].
  - reflexivity.
  - reflexivity.
  - exists s'. exact E.
Defined.
