(* ===== verification/GoFmt.v ===== *)
(** * GoFmt: the verbs of fmt.Sprintf the program prints numbers with

    [%.Nf] prints the exact value of a float rounded to [N] decimals, ties to
    even, as strconv does; a width pads with spaces on the left, counted in
    runes. *)

From Stdlib Require Import Ascii.
From stdpp Require Import pretty.
From S2P Require Export GoFloat.

(** [strings.Repeat(s, n)]. *)
Fixpoint Repeat (s : string) (n : nat) : string :=
  match n with O => "" | S n => s +:+ Repeat s n end.

(** The number of runes: the bytes that do not continue a sequence. *)
Fixpoint rune_count (s : string) : nat :=
  match s with
  | EmptyString => 0
  | String c s =>
      let b := Ascii.nat_of_ascii c in
      ((if (128 <=? b)%nat && (b <? 192)%nat then 0 else 1) + rune_count s)%nat
  end.

(** [%ws]. *)
Definition fmt_width (w : nat) (s : string) : string :=
  Repeat " " (w - rune_count s) +:+ s.

(** [num / den], to the nearest integer, ties to even. *)
Definition div_half_even (num den : Z) : Z :=
  let q := num / den in
  let r := num mod den in
  if (den <? 2 * r) || ((2 * r =? den) && Z.odd q) then q + 1 else q.

(** The value times [10 ^ prec], rounded. *)
Definition scaled_decimal (prec : nat) (m : positive) (e : Z) : Z :=
  let p := 10 ^ Z.of_nat prec in
  if 0 <=? e then Z.pos m * 2 ^ e * p else div_half_even (Z.pos m * p) (2 ^ (- e)).

Definition decimal (prec : nat) (q : Z) : string :=
  let p := 10 ^ Z.of_nat prec in
  match prec with
  | O => pretty q
  | _ =>
      let frac := pretty (q mod p) in
      pretty (q / p) +:+ "." +:+ Repeat "0" (prec - rune_count frac) +:+ frac
  end.

(** [%.Nf]. *)
Definition fmt_f (prec : nat) (f : float64) : string :=
  match f with
  | S754_nan => "NaN"
  | S754_infinity s => if s then "-Inf" else "+Inf"
  | S754_zero s => (if s then "-" else "") +:+ decimal prec 0
  | S754_finite s m e =>
      (if s then "-" else "") +:+ decimal prec (scaled_decimal prec m e)
  end.

Example fmt_f_third : fmt_f 2 (f64_const 1 3) = "0.33".
Proof. vm_compute. reflexivity. Qed.
Example fmt_f_tie : (fmt_f 0 (f64_const 5 2), fmt_f 1 (f64_const 1 20)) = ("2", "0.1").
Proof. vm_compute. reflexivity. Qed.

(** The rounded quotient is within half a unit of the exact one. *)
Lemma div_half_even_near num den :
  0 < den → 2 * Z.abs (num - den * div_half_even num den) <= den.
Proof.
  intros Hd. unfold div_half_even.
  pose proof (Z.div_mod num den ltac:(lia)). pose proof (Z.mod_pos_bound num den Hd).
  destruct (Z.ltb_spec den (2 * (num mod den))); cbn [orb]; [lia|].
  destruct (Z.eqb_spec (2 * (num mod den)) den); cbn [andb]; [|lia].
  destruct (Z.odd (num / den)); lia.
Qed.

(** [%-ws]. *)
Definition fmt_left (w : nat) (s : string) : string :=
  s +:+ Repeat " " (w - rune_count s).

(** [math.Max]. *)
Definition math_Max (x y : float64) : float64 :=
  match x, y with
  | S754_infinity false, _ | _, S754_infinity false => S754_infinity false
  | S754_nan, _ | _, S754_nan => S754_nan
  | S754_zero sx, S754_zero _ => if sx then y else x
  | _, _ => if f64_ltb y x then x else y
  end.

(** [time.Duration.String]: the digits of the fraction without trailing
    zeros, and what is left of the value. *)
Fixpoint fmtFrac_go (prec : nat) (v : Z) (print : bool) (out : string) : string * Z :=
  match prec with
  | O => ((if print then "." +:+ out else out), v)
  | S prec =>
      let digit := v mod 10 in
      let print := print || negb (digit =? 0) in
      fmtFrac_go prec (v / 10) print (if print then pretty digit +:+ out else out)
  end.
Definition fmtFrac (v : Z) (prec : nat) : string * Z := fmtFrac_go prec v false "".

Definition Microsecond : Z := 1000.

Definition Duration_String (d : Z) : string :=
  let u := Z.abs d in
  let sign := if d <? 0 then "-" else "" in
  if u =? 0 then "0s"
  else if u <? Second then
    let '(prec, unit) :=
      if u <? Microsecond then (0%nat, "ns")
      else if u <? Millisecond then (3%nat, "µs") else (6%nat, "ms") in
    let '(frac, v) := fmtFrac u prec in
    sign +:+ pretty v +:+ frac +:+ unit
  else
    let '(frac, v) := fmtFrac u 9 in
    let secs := pretty (v mod 60) +:+ frac +:+ "s" in
    let m := v / 60 in
    if 0 <? m then
      let mins := pretty (m mod 60) +:+ "m" +:+ secs in
      let h := m / 60 in
      if 0 <? h then sign +:+ pretty h +:+ "h" +:+ mins else sign +:+ mins
    else sign +:+ secs.

Example Duration_String_ex :
  Duration_String <$> [0; 60 * Second; 10 * Second; 1500000; -90000 * Millisecond; 7]
    = ["0s"; "1m0s"; "10s"; "1.5ms"; "-1m30s"; "7ns"].
Proof. vm_compute. reflexivity. Qed.

(** ** Widths *)

Lemma rune_count_app s t : rune_count (s +:+ t) = (rune_count s + rune_count t)%nat.
Proof.
  induction s as [|c s IH]; [done|].
  change (String c s +:+ t) with (String c (s +:+ t)). cbn [rune_count]. lia.
Qed.

Lemma rune_count_spaces n : rune_count (Repeat " " n) = n.
Proof.
  induction n as [|n IH]; [done|]. cbn [Repeat]. rewrite rune_count_app, IH. done.
Qed.

Lemma rune_count_width w s : rune_count (fmt_width w s) = Nat.max w (rune_count s).
Proof. unfold fmt_width. rewrite rune_count_app, rune_count_spaces. lia. Qed.

Lemma rune_count_left w s : rune_count (fmt_left w s) = Nat.max w (rune_count s).
Proof. unfold fmt_left. rewrite rune_count_app, rune_count_spaces. lia. Qed.
