(* ===== verification/Bench.v ===== *)
(** * Bench: the measurements of the benchmark (cmd/krate-bench)

    The table of scenarios, the latency reservoir with its percentiles and
    histogram, the reading of the limiter's Prometheus counters, the key
    distribution, and the formatting of results.  The runs themselves are in
    [BenchRun], the accuracy tracker in [Accuracy]. *)

From stdpp Require Import pretty.
From S2P Require Export Go GoFmt.

(** ** Scenarios *)

Record scenarioConfig := mkScenario {
  sc_Name : string;
  sc_Description : string;
  sc_Instances : Z;
  sc_Concurrency : Z;
  sc_Keys : Z;
  sc_Limit : Z;
  sc_Window : Z;
  sc_ZipfS : float64;
  sc_ProbeK : Z;
  sc_ReservedMin : float64;
  sc_SharedHotspot : bool;
  sc_TrafficSkew : bool;
}.

Definition scenario_list : list (string * scenarioConfig) :=
  [ ("api-gateway",
     mkScenario "API Gateway"
       "10K API keys, power-law traffic. Top 1% handles ~50% of requests."
       4 100 10000 10000 (60 * Second) (f64_const 13 10) 3 (f64_const 1 10) false false);
    ("user-limiting",
     mkScenario "Per-User Limiting"
       "10K users, moderate skew, tight per-user limits."
       4 100 10000 200 (60 * Second) (f64_const 13 10) 3 (f64_const 1 10) false false);
    ("ip-throttling",
     mkScenario "IP Throttling"
       "10K unique IPs, heavy bot tail. Small limits force frequent re-borrows."
       4 150 10000 60 (60 * Second) (f64_const 14 10) 3 (f64_const 1 10) false false);
    ("multi-tenant",
     mkScenario "Multi-Tenant SaaS"
       "10K tenants, high throughput per tenant. Tests borrow amortization."
       4 100 10000 5000 (60 * Second) (f64_const 13 10) 3 (f64_const 1 10) false false);
    ("peer",
     mkScenario "Peer Token Flow"
       "2 instances, probeK=3. Tests peer acquisition + redis-zero bypass."
       2 50 10000 500 (60 * Second) (f64_const 13 10) 3 (f64_const 1 10) false false);
    ("peer-transfer",
     mkScenario "Peer Transfer"
       "Uneven traffic + fair borrowing = peer token donations."
       4 50 10000 200 (10 * Second) (f64_const 13 10) 3 (f64_const 5 100) true true) ].

Definition scenarios : gmap string scenarioConfig := list_to_map scenario_list.

(** The names [main] runs for the flag [-scenario]. *)
Definition runNames (scenario : string) : list string :=
  if decide (scenario ≠ "all") then [scenario]
  else ["api-gateway"; "user-limiting"; "ip-throttling"; "multi-tenant"; "peer";
        "peer-transfer"].

(** "all" is every scenario of the table, once. *)
Lemma runNames_all :
  runNames "all" ≡ₚ (map_to_list scenarios).*1.
Proof.
  change (runNames "all") with (scenario_list.*1).
  apply fmap_Permutation. symmetry. apply map_to_list_to_map.
  apply (bool_decide_unpack _). vm_compute. exact I.
Qed.

(** ** Latencies: a reservoir of [n] samples *)

Record latency := mkLatency {
  lat_mu : bool;
  lat_buf : list float64;
  lat_count : Z;
  lat_sum : Z;
  lat_n : Z;
}.

Definition newLatency (n : Z) : latency := mkLatency false [] 0 0 n.

(** [sort.Float64s]: increasing, NaN first. *)
Definition float_less (x y : float64) : bool :=
  f64_ltb x y ||
  match x, y with S754_nan, S754_nan => false | S754_nan, _ => true | _, _ => false end.

Fixpoint float_insert (x : float64) (l : list float64) : list float64 :=
  match l with
  | [] => [x]
  | y :: l' => if float_less x y then x :: l else y :: float_insert x l'
  end.
Definition Float64s (l : list float64) : list float64 := foldr float_insert [] l.

Record histBin := mkBin { bin_label : string; bin_upper : float64; bin_count : Z }.

Definition empty_bins : list histBin :=
  (λ '(l, u), mkBin l (f64_of_Z u) 0) <$>
  [ ("<200ns", 200); ("<500ns", 500); ("<1μs", 1000);
    ("<2μs", 2000); ("<5μs", 5000); ("<10μs", 10000);
    ("<50μs", 50000); ("<100μs", 100000); ("<500μs", 500000);
    ("<1ms", 1000000); ("<5ms", 5000000); ("<10ms", 10000000);
    ("≥10ms", 10 ^ 18) ].

(** [for i := range bs { if v < bs[i].upper { bs[i].count++; break } }]. *)
Fixpoint bin_one (v : float64) (bs : list histBin) : list histBin :=
  match bs with
  | [] => []
  | b :: bs =>
      if f64_ltb v (bin_upper b)
      then mkBin (bin_label b) (bin_upper b) (to_i64 (bin_count b + 1)) :: bs
      else b :: bin_one v bs
  end.

Definition fill_bins (s : list float64) (bs : list histBin) : list histBin :=
  foldl (λ bs v, bin_one v bs) bs s.

Section latency.
Context {S : Type} `{FloatConv} (ll : lens S latency).

Definition with_lat (f : latency → latency) : go S unit := zoom_modify ll f.
Definition lat_Lock : go S unit :=
  await (λ s,
    let l := lget ll s in
    if lat_mu l then None
    else Some (tt, lput ll (mkLatency true (lat_buf l) (lat_count l) (lat_sum l)
                              (lat_n l)) s)).
Definition lat_Unlock : go S unit :=
  with_lat (λ l, mkLatency false (lat_buf l) (lat_count l) (lat_sum l) (lat_n l)).
Definition set_buf (f : list float64 → list float64) : go S unit :=
  with_lat (λ l, mkLatency (lat_mu l) (f (lat_buf l)) (lat_count l) (lat_sum l)
                   (lat_n l)).

(** [rand.Int64N(n)] and [rand.IntN(n)]. *)
Definition rand_N (n : Z) : go S Z :=
  if n <=? 0 then Panic "invalid argument to Int64N" else ask (QRand n).

Definition lat_add (ns : float64) : go S unit :=
  with_lat (λ l, mkLatency (lat_mu l) (lat_buf l) (to_i64 (lat_count l + 1))
                   (lat_sum l) (lat_n l)) ;;;
  with_lat (λ l, mkLatency (lat_mu l) (lat_buf l) (lat_count l)
                   (to_i64 (lat_sum l + f64_to_i64 ns)) (lat_n l)) ;;;
  do! c <- zoom_reads ll lat_count;
  do! n <- zoom_reads ll lat_n;
  do! keep <- (if c <=? n then Ret true
               else do! r <- rand_N c; Ret (r <? n));
  if (keep : bool) then
    lat_Lock ;;;
    do! len <- zoom_reads ll (λ l, Z.of_nat (length (lat_buf l)));
    (if len <? n then set_buf (λ b, b ++ [ns])
     else do! j <- rand_N n; set_buf <[Z.to_nat j := ns]>) ;;;
    lat_Unlock
  else Ret tt.

(** The locked copy of the samples, sorted. *)
Definition sorted_samples : go S (list float64) :=
  lat_Lock ;;;
  do! s <- zoom_reads ll lat_buf;
  lat_Unlock ;;;
  Ret (Float64s s).

(** [s[i]] for the percentile [p]; a negative index is out of range. *)
Definition pct_index (n : Z) (p : float64) : Z :=
  let i := f64_to_i64 (f64_div (f64_mul (f64_of_Z (n - 1)) p) (f64_of_Z 100)) in
  if n <=? i then n - 1 else i.

Fixpoint pick_pcts (s : list float64) (ps : list float64)
    (out : list (float64 * float64)) : go S (list (float64 * float64)) :=
  match ps with
  | [] => Ret out
  | p :: ps =>
      let n := Z.of_nat (length s) in
      if n =? 0 then pick_pcts s ps (out ++ [(p, f64_zero)])
      else
        let i := pct_index n p in
        if i <? 0 then Panic "index out of range"
        else
          match s !! Z.to_nat i with
          | Some v => pick_pcts s ps (out ++ [(p, v)])
          | None => Panic "index out of range"
          end
  end.

Definition pcts (ps : list float64) : go S (list (float64 * float64)) :=
  do! s <- sorted_samples; pick_pcts s ps [].

Definition lat_avg : go S float64 :=
  do! n <- zoom_reads ll lat_count;
  if 0 <? n then
    do! sum <- zoom_reads ll lat_sum;
    Ret (f64_div (f64_of_Z sum) (f64_of_Z n))
  else Ret f64_zero.

Definition bins : go S (list histBin) :=
  do! s <- sorted_samples; Ret (fill_bins s empty_bins).
End latency.

(** ** Reading the limiter's counters

    What [reg.Gather] returns (client_model): metric families, their metrics,
    and the labels of each.  [GetCounter().GetValue()] of a metric that is no
    counter is 0. *)

Record LabelPair := mkLabel { lp_Name : string; lp_Value : string }.
Record Metric := mkMetric { m_Label : list LabelPair; m_Counter : option float64 }.
Record MetricFamily := mkFamily { mf_Name : string; mf_Metric : list Metric }.

Definition counter_value (m : Metric) : float64 := default f64_zero (m_Counter m).

Record pathMetrics := mkPath {
  pm_local : Z;
  pm_redis : Z;
  pm_redisEx : Z;
  pm_redisSkip : Z;
  pm_preBorrows : Z;
  pm_peer : Z;
  pm_peerProbes : Z;
  pm_peerStale : Z;
}.

Definition no_path : pathMetrics := mkPath 0 0 0 0 0 0 0 0.

Section gather.
Context `{FloatConv}.

(** [x += int64(m.GetCounter().GetValue())]. *)
Definition plus_counter (x : Z) (m : Metric) : Z :=
  to_i64 (x + f64_to_i64 (counter_value m)).

Definition add_local (pm : pathMetrics) (m : Metric) : pathMetrics :=
  mkPath (plus_counter (pm_local pm) m) (pm_redis pm) (pm_redisEx pm) (pm_redisSkip pm)
    (pm_preBorrows pm) (pm_peer pm) (pm_peerProbes pm) (pm_peerStale pm).
Definition add_redis (pm : pathMetrics) (m : Metric) : pathMetrics :=
  mkPath (pm_local pm) (plus_counter (pm_redis pm) m) (pm_redisEx pm) (pm_redisSkip pm)
    (pm_preBorrows pm) (pm_peer pm) (pm_peerProbes pm) (pm_peerStale pm).
Definition add_redisEx (pm : pathMetrics) (m : Metric) : pathMetrics :=
  mkPath (pm_local pm) (pm_redis pm) (plus_counter (pm_redisEx pm) m) (pm_redisSkip pm)
    (pm_preBorrows pm) (pm_peer pm) (pm_peerProbes pm) (pm_peerStale pm).
Definition add_redisSkip (pm : pathMetrics) (m : Metric) : pathMetrics :=
  mkPath (pm_local pm) (pm_redis pm) (pm_redisEx pm) (plus_counter (pm_redisSkip pm) m)
    (pm_preBorrows pm) (pm_peer pm) (pm_peerProbes pm) (pm_peerStale pm).
Definition add_preBorrows (pm : pathMetrics) (m : Metric) : pathMetrics :=
  mkPath (pm_local pm) (pm_redis pm) (pm_redisEx pm) (pm_redisSkip pm)
    (plus_counter (pm_preBorrows pm) m) (pm_peer pm) (pm_peerProbes pm) (pm_peerStale pm).
Definition add_peer (pm : pathMetrics) (m : Metric) : pathMetrics :=
  mkPath (pm_local pm) (pm_redis pm) (pm_redisEx pm) (pm_redisSkip pm)
    (pm_preBorrows pm) (plus_counter (pm_peer pm) m) (pm_peerProbes pm) (pm_peerStale pm).
Definition add_peerProbes (pm : pathMetrics) (m : Metric) : pathMetrics :=
  mkPath (pm_local pm) (pm_redis pm) (pm_redisEx pm) (pm_redisSkip pm)
    (pm_preBorrows pm) (pm_peer pm) (plus_counter (pm_peerProbes pm) m) (pm_peerStale pm).
Definition add_peerStale (pm : pathMetrics) (m : Metric) : pathMetrics :=
  mkPath (pm_local pm) (pm_redis pm) (pm_redisEx pm) (pm_redisSkip pm)
    (pm_preBorrows pm) (pm_peer pm) (pm_peerProbes pm) (plus_counter (pm_peerStale pm) m).

(** The loops over the labels of a metric. *)
Definition redis_label (m : Metric) (pm : pathMetrics) (lp : LabelPair) : pathMetrics :=
  if decide (lp_Name lp = "result") then
    if decide (lp_Value lp = "granted") then add_redis pm m else add_redisEx pm m
  else pm.

Definition probe_label (m : Metric) (pm : pathMetrics) (lp : LabelPair) : pathMetrics :=
  if decide (lp_Name lp = "result") then
    if decide (lp_Value lp = "granted") then add_peer pm m
    else if decide (lp_Value lp = "stale") then add_peerStale pm m
    else pm
  else pm.

(** The [switch] on the name of a family. *)
Definition gather_family (pm : pathMetrics) (mf : MetricFamily) : pathMetrics :=
  if decide (mf_Name mf = "krate_local_hits_total") then
    foldl add_local pm (mf_Metric mf)
  else if decide (mf_Name mf = "krate_redis_borrows_total") then
    foldl (λ pm m, foldl (redis_label m) pm (m_Label m)) pm (mf_Metric mf)
  else if decide (mf_Name mf = "krate_redis_skips_total") then
    foldl add_redisSkip pm (mf_Metric mf)
  else if decide (mf_Name mf = "krate_pre_borrows_total") then
    foldl add_preBorrows pm (mf_Metric mf)
  else if decide (mf_Name mf = "krate_peer_probes_total") then
    foldl (λ pm m, foldl (probe_label m) (add_peerProbes pm m) (m_Label m)) pm
      (mf_Metric mf)
  else pm.

(** [gatherPath], given what each registry gathers. *)
Definition gatherPath (regs : list (list MetricFamily)) : pathMetrics :=
  foldl (λ pm mfs, foldl gather_family pm mfs) no_path regs.

(** ** The distribution of the keys *)

Record keyDist := mkDist {
  kd_total : Z;
  kd_keys : Z;
  kd_zipfS : float64;
  kd_topHits : list Z;
  kd_topIdxs : list Z;
  kd_topRanks : list string;
}.

Definition trackedIdxs : list Z := [0; 1; 4; 9; 99; 999; 9999; 49999].
Definition trackedRanks : list string :=
  ["#1"; "#2"; "#5"; "#10"; "#100"; "#1K"; "#10K"; "#50K"].

(** [zipf i] is the [i]-th draw of the generator. *)
Definition count_draws (zipf : nat → Z) (n : nat) : gmap Z Z :=
  foldl (λ counts i, <[zipf i := to_i64 (default 0 (counts !! zipf i) + 1)]> counts) ∅
    (seq 0 n).

Definition sampled (total : Z) : Z := if 10000000 <? total then 10000000 else total.

Definition computeKeyDist (zipf : nat → Z) (total numKeys : Z) (s : float64) : keyDist :=
  let n := sampled total in
  let scale := f64_div (f64_of_Z total) (f64_of_Z n) in
  let counts := count_draws zipf (Z.to_nat n) in
  mkDist total numKeys s
    ((λ idx, f64_to_i64 (f64_mul (f64_of_Z (default 0 (counts !! idx))) scale))
       <$> trackedIdxs)
    trackedIdxs trackedRanks.
End gather.

(** ** Printing *)

Definition fmtNs (ns : float64) : string :=
  if f64_leb (f64_of_Z 1000000) ns then fmt_f 1 (f64_div ns (f64_of_Z 1000000)) +:+ "ms"
  else if f64_leb (f64_of_Z 1000) ns then fmt_f 1 (f64_div ns (f64_of_Z 1000)) +:+ "μs"
  else fmt_f 0 ns +:+ "ns".

Definition fmtN (n : Z) : string :=
  if 1000000000 <=? n then fmt_f 2 (f64_div (f64_of_Z n) (f64_of_Z 1000000000)) +:+ "B"
  else if 1000000 <=? n then fmt_f 2 (f64_div (f64_of_Z n) (f64_of_Z 1000000)) +:+ "M"
  else if 1000 <=? n then fmt_f 1 (f64_div (f64_of_Z n) (f64_of_Z 1000)) +:+ "K"
  else pretty n.

Definition fmtF (f : float64) : string :=
  if f64_leb (f64_of_Z 1000000) f then fmt_f 2 (f64_div f (f64_of_Z 1000000)) +:+ "M"
  else if f64_leb (f64_of_Z 1000) f then fmt_f 1 (f64_div f (f64_of_Z 1000)) +:+ "K"
  else fmt_f 0 f.

Definition pct (part total : Z) : float64 :=
  if total =? 0 then f64_zero
  else f64_mul (f64_div (f64_of_Z part) (f64_of_Z total)) (f64_of_Z 100).

(** A negative count makes [strings.Repeat] panic: [None]. *)
Definition bar_of (n : Z) (empty : string) : option string :=
  if n <? 0 then None
  else
    let bar := Repeat "█" (Z.to_nat n) in
    Some (if decide (bar = "") then empty else bar).

Section print.
Context `{FloatConv}.

(** The line [printPath] prints. *)
Definition printPath (label : string) (count total : Z) : option string :=
  let p := pct count total in
  let n := f64_to_i64 (f64_mul (f64_div p (f64_of_Z 100)) (f64_of_Z 30)) in
  let n := if (n =? 0) && (0 <? count) then 1 else n in
  bar ← bar_of n "·";
  Some ("│  " +:+ label +:+ " " +:+ fmt_width 10 (fmtN count) +:+ "  "
        +:+ fmt_width 5 (fmt_f 1 p) +:+ "% " +:+ bar).

(** The line [printBuckets] prints for a bin; [count] is [l.count]. *)
Definition bucket_line (count : Z) (b : histBin) : option string :=
  let p := f64_mul (f64_div (f64_of_Z (bin_count b)) (f64_of_Z count)) (f64_of_Z 100) in
  let bw := f64_to_i64 (f64_div p (f64_of_Z 2)) in
  let bw := if 30 <? bw then 30 else bw in
  bstr ← bar_of bw (if f64_ltb f64_zero p then "▏" else "");
  Some ("│    " +:+ fmt_width 10 (bin_label b) +:+ "  "
        +:+ fmt_width 8 (pretty (bin_count b)) +:+ "  " +:+ fmt_width 5 (fmt_f 1 p)
        +:+ "% " +:+ bstr).

Definition printBuckets (count : Z) (bs : list histBin) : option (list string) :=
  mapM (bucket_line count) (filter (λ b, bin_count b ≠ 0) bs).
End print.

Example printPath_ex :
  printPath "L" 250 1000 = Some "│  L        250   25.0% ███████".
Proof. vm_compute. reflexivity. Qed.

(** ** What the reservoir holds *)

Section reservoir.
Context {S : Type} `{FloatConv} (ll : lens S latency) (env : environment).
Context (Henv : ∀ n j, valid_answer (QRand n) (env _ (QRand n) j)).

(** The reservoir after the samples [xs]. *)
Record holds (xs : list float64) (n : Z) (l : latency) : Prop := {
  ho_free : lat_mu l = false;
  ho_n : lat_n l = n;
  ho_count : lat_count l = Z.of_nat (length xs);
  ho_length : Z.of_nat (length (lat_buf l)) = Z.min (Z.of_nat (length xs)) n;
  ho_subset : ∀ v, v ∈ lat_buf l → v ∈ xs;
  ho_all : Z.of_nat (length xs) <= n → lat_buf l = xs;
}.

Lemma newLatency_holds n : 0 <= n → holds [] n (newLatency n).
Proof.
  intros Hn. split; cbn; try done. lia.
Qed.

(** The end of [lat_add], for a sample that is kept. *)
Definition keep_sample (n : Z) (ns : float64) : go S unit :=
  lat_Lock ll ;;;
  do! len <- zoom_reads ll (λ l, Z.of_nat (length (lat_buf l)));
  (if len <? n then set_buf ll (λ b, b ++ [ns])
   else do! j <- rand_N n; set_buf ll <[Z.to_nat j := ns]>) ;;;
  lat_Unlock ll.

Lemma exec_keep_sample n ns i s :
  let l := lget ll s in
  lat_mu l = false → 0 < n → Z.of_nat (length (lat_buf l)) <= n →
  ∃ s' j, exec env i (keep_sample n ns) s = Done tt s' [] j ∧
    lget ll s' = mkLatency false
      (if Z.of_nat (length (lat_buf l)) <? n then lat_buf l ++ [ns]
       else <[Z.to_nat (env _ (QRand n) i) := ns]> (lat_buf l))
      (lat_count l) (lat_sum l) (lat_n l).
Proof.
  intros l Hmu Hn Hlen. unfold keep_sample, lat_Lock.
  cbn [bind exec await zoom_reads reads atomically]. fold l. rewrite Hmu.
  rewrite lget_put. cbn [lat_buf].
  destruct (Z.ltb_spec (Z.of_nat (length (lat_buf l))) n).
  - cbn [bind exec set_buf with_lat zoom_modify modify atomically lat_Unlock].
    do 2 eexists. split; [done|]. by rewrite !lget_put.
  - unfold rand_N. rewrite (proj2 (Z.leb_gt n 0)) by lia.
    cbn [bind exec ask set_buf with_lat zoom_modify modify atomically lat_Unlock].
    do 2 eexists. split; [done|]. by rewrite !lget_put.
Qed.

Lemma exec_lat_add xs n ns i s :
  0 < n → Z.of_nat (length xs) + 1 < 2 ^ 63 → holds xs n (lget ll s) →
  ∃ s' j, exec env i (lat_add ll ns) s = Done tt s' [] j ∧
    holds (xs ++ [ns]) n (lget ll s').
Proof using Henv.
  intros Hn Hx [Hf Hnn Hc Hl Hs Ha]. unfold lat_add.
  cbn [bind exec with_lat zoom_modify modify atomically zoom_reads reads].
  rewrite !lget_put. cbn [lat_count lat_n lat_mu lat_buf lat_sum].
  rewrite Hc, Hnn, to_i64_small by go_lia.
  set (s1 := lput ll _ (lput ll _ s)).
  assert (E1 : lget ll s1 = mkLatency false (lat_buf (lget ll s))
    (Z.of_nat (length xs) + 1) (lat_sum (lget ll s1)) n)
    by (unfold s1; rewrite !lget_put; cbn; by rewrite Hf).
  assert (Hkeep : ∀ i, ∃ s' j, exec env i (keep_sample n ns) s1 = Done tt s' [] j ∧
    holds (xs ++ [ns]) n (lget ll s')).
  { intros i'. destruct (exec_keep_sample n ns i' s1) as (s' & j & E & Hs').
    - by rewrite E1.
    - done.
    - rewrite E1. cbn. lia.
    - exists s', j. split; [exact E|]. rewrite Hs', E1. cbn [lat_buf lat_count lat_n].
      pose proof (Henv n i' Hn) as Hr. set (r := env Z (QRand n) i') in *.
      destruct (Z.ltb_spec (Z.of_nat (length (lat_buf (lget ll s)))) n) as [Hlt|Hge];
        split; cbn; try done; rewrite ?length_app, ?length_insert; cbn [length];
        try lia; try (clear -Hs; set_solver).
      + intros Hle. by rewrite Ha by lia.
      + intros v Hv. apply list_elem_of_lookup in Hv as [k Hk].
        destruct (decide (k = Z.to_nat r)) as [->|Hne].
        * rewrite list_lookup_insert_eq in Hk by lia. injection Hk as <-. set_solver.
        * rewrite list_lookup_insert_ne in Hk by done.
          apply elem_of_app. left. apply Hs. by eapply list_elem_of_lookup_2. }
  assert (Hdrop : n < Z.of_nat (length xs) + 1 → holds (xs ++ [ns]) n (lget ll s1)).
  { intros Hlt. rewrite E1. split; cbn; rewrite ?length_app; cbn [length]; try done;
      try lia. set_solver. }
  destruct (Z.leb_spec (Z.of_nat (length xs) + 1) n) as [Hle|Hlt]; [apply Hkeep|].
  unfold rand_N. rewrite (proj2 (Z.leb_gt _ 0)) by lia. cbn [bind exec ask].
  destruct (_ <? n); [apply Hkeep|]. do 2 eexists. split; [done|]. by apply Hdrop.
Qed.
End reservoir.

(** ** What the histogram counts *)

(** The bin of a sample: the first whose upper bound is above it. *)
Fixpoint bin_index (v : float64) (us : list float64) : option nat :=
  match us with
  | [] => None
  | u :: us => if f64_ltb v u then Some 0%nat else Datatypes.S <$> bin_index v us
  end.

Definition incr_bin (b : histBin) : histBin :=
  mkBin (bin_label b) (bin_upper b) (to_i64 (bin_count b + 1)).

Lemma bin_one_alter v bs :
  bin_one v bs = match bin_index v (bin_upper <$> bs) with
                 | Some i => alter incr_bin i bs | None => bs end.
Proof.
  induction bs as [|b bs IH]; [done|]. cbn. destruct (f64_ltb v (bin_upper b)); [done|].
  rewrite IH. by destruct (bin_index v (bin_upper <$> bs)).
Qed.

Lemma bin_one_uppers v bs : bin_upper <$> bin_one v bs = bin_upper <$> bs.
Proof.
  induction bs as [|b bs IH]; [done|]. cbn. destruct (f64_ltb v (bin_upper b)); [done|].
  cbn. by rewrite IH.
Qed.

(** The samples of [s] in bin [i]. *)
Definition in_bin (us : list float64) (i : nat) (s : list float64) : Z :=
  Z.of_nat (length (filter (λ v, bin_index v us = Some i) s)).

Lemma fill_bins_count s bs i b :
  (∀ j b, bs !! j = Some b → 0 <= bin_count b) →
  (∀ j b, bs !! j = Some b → bin_count b + Z.of_nat (length s) < 2 ^ 63) →
  bs !! i = Some b →
  fill_bins s bs !! i =
    Some (mkBin (bin_label b) (bin_upper b)
            (bin_count b + in_bin (bin_upper <$> bs) i s)).
Proof.
  revert bs b. unfold fill_bins, in_bin.
  induction s as [|v s IH]; intros bs b H0 Hmax Hi; cbn [foldl].
  - cbn. rewrite Z.add_0_r, Hi. by destruct b.
  - rewrite <- (bin_one_uppers v bs).
    assert (Hcnt : ∀ j b', bin_one v bs !! j = Some b' →
      0 <= bin_count b' ∧ bin_count b' + Z.of_nat (length s) < 2 ^ 63).
    { intros j b'. rewrite bin_one_alter. cbn [length] in Hmax.
      destruct (bin_index v (bin_upper <$> bs)) as [n|].
      - destruct (decide (n = j)) as [->|Hne].
        + rewrite list_lookup_alter_eq. destruct (bs !! j) as [c|] eqn:Hj; [|done].
          intros [= <-]. pose proof (H0 j c Hj). pose proof (Hmax j c Hj).
          cbn. rewrite to_i64_small by go_lia. lia.
        + rewrite list_lookup_alter_ne by done. intros Hj.
          pose proof (H0 j b' Hj). pose proof (Hmax j b' Hj). lia.
      - intros Hj. pose proof (H0 j b' Hj). pose proof (Hmax j b' Hj). lia. }
    assert (Hb : bin_one v bs !! i =
      Some (mkBin (bin_label b) (bin_upper b)
        (bin_count b + if decide (bin_index v (bin_upper <$> bs) = Some i) then 1 else 0))).
    { rewrite bin_one_alter. pose proof (H0 i b Hi). pose proof (Hmax i b Hi).
      cbn [length] in *.
      destruct (bin_index v (bin_upper <$> bs)) as [n|] eqn:En.
      - destruct (decide (n = i)) as [->|Hne].
        + rewrite list_lookup_alter_eq, Hi. rewrite decide_True by done. unfold incr_bin. cbn.
          by rewrite to_i64_small by go_lia.
        + rewrite list_lookup_alter_ne by done.
          rewrite decide_False by congruence. rewrite Hi, Z.add_0_r. by destruct b.
      - rewrite decide_False by done. rewrite Z.add_0_r, Hi. by destruct b. }
    rewrite (IH (bin_one v bs) _ (λ j b Hj, proj1 (Hcnt j b Hj))
      (λ j b Hj, proj2 (Hcnt j b Hj)) Hb). cbn [bin_label bin_upper bin_count].
    rewrite bin_one_uppers, filter_cons. do 2 f_equal.
    destruct (decide (bin_index v (bin_upper <$> bs) = Some i)); cbn [length]; lia.
Qed.

Lemma float_insert_perm x l : float_insert x l ≡ₚ x :: l.
Proof.
  induction l as [|y l IH]; [done|]. cbn. destruct (float_less x y); [done|].
  rewrite IH. apply perm_swap.
Qed.

(** Sorting does not change what is in a bin. *)
Lemma Float64s_perm l : Float64s l ≡ₚ l.
Proof.
  induction l as [|x l IH]; [done|]. cbn.
  rewrite float_insert_perm. apply perm_skip, IH.
Qed.

Lemma in_bin_perm us i s s' : s ≡ₚ s' → in_bin us i s = in_bin us i s'.
Proof. intros Hs. unfold in_bin. by rewrite Hs. Qed.

Section report.
Context {S : Type} `{FloatConv} (ll : lens S latency) (env : environment).
Context (Henv : ∀ n j, valid_answer (QRand n) (env _ (QRand n) j)).

Lemma exec_lat_adds n ys : ∀ xs i s,
  0 < n → Z.of_nat (length (xs ++ ys)) < 2 ^ 63 → holds xs n (lget ll s) →
  ∃ s' j, exec env i (for_each (lat_add ll) ys) s = Done tt s' [] j ∧
    holds (xs ++ ys) n (lget ll s').
Proof using Henv.
  induction ys as [|y ys IH]; intros xs i s Hn Hlen Hs; cbn [for_each].
  - exists s, i. by rewrite app_nil_r.
  - rewrite length_app in Hlen. cbn [length] in Hlen.
    destruct (exec_lat_add ll env Henv xs n y i s Hn) as (s1 & j1 & E1 & H1); [lia|done|].
    destruct (IH (xs ++ [y]) j1 s1 Hn) as (s2 & j2 & E2 & H2).
    + rewrite !length_app. cbn. lia.
    + done.
    + exists s2, j2. rewrite exec_bind, E1, E2. rewrite <- app_assoc in H2. done.
Qed.

Lemma exec_sorted_samples i s :
  lat_mu (lget ll s) = false →
  ∃ s', exec env i (sorted_samples ll) s
    = Done (Float64s (lat_buf (lget ll s))) s' [] i.
Proof.
  intros Hmu. unfold sorted_samples, lat_Lock.
  cbn [bind exec await zoom_reads reads atomically lat_Unlock with_lat zoom_modify modify].
  rewrite Hmu, lget_put. by eexists.
Qed.

(** The histogram of the samples: it counts, bin by bin, the samples of the
    reservoir, which are all of them, in order, as long as they fit, and [n] of
    them from then on. *)
Theorem latency_histogram n xs i s :
  0 < n → Z.of_nat (length xs) < 2 ^ 63 → lget ll s = newLatency n →
  ∃ kept bs s' j,
    exec env i (for_each (lat_add ll) xs ;;; bins ll) s = Done bs s' [] j ∧
    Z.of_nat (length kept) = Z.min (Z.of_nat (length xs)) n ∧
    (∀ v, v ∈ kept → v ∈ xs) ∧ (Z.of_nat (length xs) <= n → kept = xs) ∧
    ∀ m b, empty_bins !! m = Some b →
      bs !! m = Some (mkBin (bin_label b) (bin_upper b)
                        (in_bin (bin_upper <$> empty_bins) m kept)).
Proof using Henv.
  intros Hn Hlen Hs. destruct (exec_lat_adds n xs [] i s Hn Hlen) as (s1 & j1 & E1 & H1).
  { rewrite Hs. apply newLatency_holds. lia. }
  destruct (exec_sorted_samples j1 s1 (ho_free _ _ _ H1)) as (s2 & E2).
  set (kept := lat_buf (lget ll s1)) in *.
  exists kept, (fill_bins (Float64s kept) empty_bins), s2, j1.
  destruct H1 as [_ _ _ Hl Hsub Hall]. change ([] ++ xs) with xs in *.
  fold kept in Hl, Hsub, Hall. clearbody kept.
  split; [|split; [exact Hl|split; [exact Hsub|split; [exact Hall|]]]].
  - unfold bins. by rewrite exec_bind, E1, exec_bind, E2.
  - assert (Hzero : ∀ m b, empty_bins !! m = Some b → bin_count b = 0).
    { intros m b. unfold empty_bins. rewrite list_lookup_fmap.
      destruct (_ !! m) as [[l u]|]; [|done]. by intros [= <-]. }
    intros m b Hm. rewrite (fill_bins_count _ _ m b); [| | |exact Hm].
    + rewrite (Hzero m b Hm), (in_bin_perm _ _ _ _ (Float64s_perm kept)). done.
    + intros j c Hj. by rewrite (Hzero j c Hj).
    + intros j c Hj. rewrite (Hzero j c Hj), (Permutation_length (Float64s_perm kept)).
      go_lia.
Qed.
End report.

(** With no request the scale is 0/0, and the conversion of NaN to [int64]
    is left to the machine. *)
Example computeKeyDist_nothing zipf :
  kd_topHits (computeKeyDist zipf 0 10000 (f64_const 13 10)) = replicate 8 (- 2 ^ 63).
Proof. vm_compute. reflexivity. Qed.
