(* ===== verification/Api.v ===== *)
(** * Api: the limiter a program sees (krate.go), and the example server

    [Limiter_I] is the [Limiter] interface of krate.go and
    [distributedLimiter] the value [New] returns, which forwards to the
    methods of limiter.go.  [requestHandler] is the HTTP handler of
    cmd/krate-example, written against the interface. *)

From S2P Require Export Limiter WellFormed.

(** ** krate.go *)

Record Limiter_I (S : Type) := mkLimiterI {
  i_Allow : string → go S (bool * option error);
  i_AllowN : string → Z → go S (bool * option error);
  i_Close : go S (option error);
}.
Arguments mkLimiterI {S}.
Arguments i_Allow {S}.
Arguments i_AllowN {S}.
Arguments i_Close {S}.

(** A loop that is never left does not return. *)
Definition returned {S A} (p : go S (option A)) : go S A :=
  do! r <- p;
  match r with
  | Some a => Ret a
  | None => await (λ _, None)
  end.

Section api.
Context {R : Type} `{RedisStore R} `{FloatConv} `{GrpcDial}
  `{NetListen}.
Context (serve : string → option (TokenServer (world R))).

Definition distributedLimiter (o : options (world R)) (fuel : nat)
  : Limiter_I (world R) :=
  mkLimiterI (λ key, returned (Allow serve o fuel key))
    (λ key n, returned (AllowN serve o fuel key n))
    (Close o).

(** [New] with both its results; [host] is [os.Hostname()]. *)
Definition krate_New (host : string) (opts : list (Option (world R)))
    (ticks fuel : nat) (ema : EMARouter)
  : go (world R) (option (Limiter_I (world R)) * option error) :=
  let o := apply_options opts in
  do! o <- (if decide (o_instanceID o = "")
            then do! nanos <- ask QNow; Ret (New_instanceID host nanos o)
            else Ret o);
  do! err <- newLimiter serve o ticks ema;
  match err with
  | Some e => Ret (None, Some e)
  | None => Ret (Some (distributedLimiter o fuel), None)
  end.
End api.

(** ** cmd/krate-example *)

(** [getenv] is [os.Getenv]. *)
Definition envOrDefault (getenv : string → string) (key def : string) : string :=
  let v := getenv key in
  if decide (v ≠ "") then v else def.

Definition example_options {S} (getenv : string → string) : list (Option S) :=
  [ WithInstanceID (envOrDefault getenv "INSTANCE_ID" "instance-1");
    WithLimit 1000;
    WithWindow (60 * Second);
    WithWindowType Fixed;
    WithMinBorrow 50;
    WithMaxBorrow 200;
    WithAdaptiveBorrow true;
    WithPeerListen (envOrDefault getenv "PEER_ADDR" ":7100");
    WithMetrics false ].

(** What the handler reads of a request ([rq_RemoteIP] is
    [ctx.RemoteIP().String()]), and the response it leaves. *)
Record http_request := mkRequest {
  rq_Path : string; rq_XAPIKey : string; rq_RemoteIP : string;
}.
Record http_response := mkResponse { rs_Status : Z; rs_Body : string }.

Definition StatusOK : Z := 200.
Definition StatusNotFound : Z := 404.
Definition StatusTooManyRequests : Z := 429.

Section handler.
Context {S : Type} (lim : Limiter_I S) (metricsHandler : go S http_response).

Definition requestHandler (rq : http_request) : go S http_response :=
  let path := rq_Path rq in
  if decide (path = "/metrics") then metricsHandler
  else if decide (path ≠ "/") then Ret (mkResponse StatusNotFound "Not Found")
  else
    let key := rq_XAPIKey rq in
    let key := if decide (key = "") then rq_RemoteIP rq else key in
    do! (allowed, err) <- i_Allow lim key;
    match err with
    | Some _ => Ret (mkResponse StatusOK "Hello, world!")
    | None =>
        if (allowed : bool) then Ret (mkResponse StatusOK "Hello, world!")
        else Ret (mkResponse StatusTooManyRequests "rate limit exceeded")
    end.
End handler.

(** The example passes no registry, so the limiter has no collector and
    nothing of it appears under /metrics. *)
Lemma example_no_metrics {S} getenv ema :
  l_metrics (initial_limiter (apply_options (S:=S) (example_options getenv)) ema)
    = NoopCollector.
Proof. done. Qed.

Lemma example_opts_ok {S} getenv : opts_ok (apply_options (S:=S) (example_options getenv)).
Proof. unfold opts_ok. cbn. lia. Qed.

(** What the handler answers: 429 exactly when the limiter, without an error,
    refuses; an error lets the request pass. *)
Lemma requestHandler_status {S} (lim : Limiter_I S) mh env i s rq key s' fs j ok err :
  rq_Path rq = "/" →
  key = (if decide (rq_XAPIKey rq = "") then rq_RemoteIP rq else rq_XAPIKey rq) →
  exec env i (i_Allow lim key) s = Done (ok, err) s' fs j →
  ∃ r, exec env i (requestHandler lim mh rq) s = Done r s' fs j ∧
    (rs_Status r = StatusTooManyRequests ↔ ok = false ∧ err = None).
Proof.
  intros Hp Hk E. subst key. unfold requestHandler. rewrite Hp.
  rewrite decide_False by done. rewrite decide_False by tauto.
  rewrite exec_bind, E. destruct err as [e|]; [|destruct ok]; cbn;
    rewrite app_nil_r; (eexists; split; [done|]); cbn;
    unfold StatusOK, StatusTooManyRequests; naive_solver.
Qed.

(** The handler of a closed limiter serves everybody. *)
Lemma closed_limiter_serves {R} `{RedisStore R} `{FloatConv} `{GrpcDial}
    `{NetListen} serve (o : options (world R)) fuel mh env i s rq :
  rq_Path rq = "/" → lget (inst (o_instanceID o) f_closed) s = true →
  exec env i (requestHandler (distributedLimiter serve o fuel) mh rq) s
    = Done (mkResponse StatusOK "Hello, world!") s [] i.
Proof.
  intros Hp Hc. unfold requestHandler. rewrite Hp.
  rewrite decide_False by done. rewrite decide_False by tauto.
  unfold distributedLimiter, returned, Allow, AllowN. cbn in *. by rewrite Hc.
Qed.

(** Nobody reads [WithPeerGRPCAddr], [WithPeerStrategy] and the three options
    of the sketch: an instance configured with them starts, and serves, as one
    without.  In particular it registers the address of its own listener. *)
Lemma peerGRPCAddr_unused {R} `{RedisStore R} `{FloatConv} `{GrpcDial}
    `{NetListen} serve (o : options (world R)) x p w d seed ticks ema :
  let o' := WithPeerGRPCAddr x (WithPeerStrategy p
              (WithCMSWidth w (WithCMSDepth d (WithCMSSeed seed o)))) in
  newLimiter serve o' ticks ema = newLimiter serve o ticks ema ∧
  ∀ fuel, distributedLimiter serve o' fuel = distributedLimiter serve o fuel.
Proof. by destruct o. Qed.

(** The example's options meet what the code needs, so it never panics. *)
Lemma example_sound {R} `{RedisStore R} `{FloatConv} getenv :
  options_sound (apply_options (S:=world R) (example_options getenv)).
Proof.
  split; [|vm_compute; discriminate|vm_compute; discriminate|vm_compute; reflexivity..].
  exists NewDefaultRouter. split; [done|apply Default_safe].
Qed.
