(* ===== verification/BenchRun.v ===== *)
(** * BenchRun: the runs of the benchmark (cmd/krate-bench)

    [runKrate] starts the instances of a scenario, warms them up and drives
    them with workers that measure every request; [baselineLua] is the script
    of the Redis-only run it is compared with.  The state [bench] is the world
    of the limiters and the counters of the run.  The theorems: the script
    admits at most the limit, and the rate limit holds for the cluster every
    scenario starts. *)

From Stdlib Require Import Ascii.
From stdpp Require Import pretty.
From S2P Require Export Accuracy Bench Api RateLimit WellFormed.

(** ** The instances of a scenario *)

Section config.
Context {R : Type} `{FloatConv}.

(** The sizes [runKrate] borrows in. *)
Definition bench_maxBorrow (cfg : scenarioConfig) : Z :=
  let maxBorrow := sc_Limit cfg / to_u64 (2 * sc_Instances cfg) in
  if maxBorrow =? 0 then 1 else maxBorrow.
Definition bench_minBorrow (cfg : scenarioConfig) : Z :=
  let minBorrow := sc_Limit cfg / to_u64 (10 * sc_Instances cfg) in
  if minBorrow =? 0 then 1 else minBorrow.

Definition Hour : Z := 3600 * Second.
Definition bench_gossipInterval (cfg : scenarioConfig) : Z :=
  if 0 <? sc_ProbeK cfg then 1 * Millisecond else Hour.
Definition bench_heartbeatInterval (cfg : scenarioConfig) : Z :=
  if 0 <? sc_ProbeK cfg then 10 * Millisecond else Hour.

Definition bench_id (cfg : scenarioConfig) (i : nat) : string :=
  sc_Name cfg +:+ "-" +:+ pretty i.

(** The router is a fresh object for each instance. *)
Definition bench_ema (cfg : scenarioConfig) : EMARouter :=
  NewEMAPredictiveRouter (f64_const 1 2).
Definition bench_router (cfg : scenarioConfig) (i : nat) : Router (world R) :=
  if 0 <? sc_ProbeK cfg then NewEMARouter (bench_id cfg i) else NewDefaultRouter.

Definition bench_options (cfg : scenarioConfig) (i : nat) : list (Option (world R)) :=
  [ WithInstanceID (bench_id cfg i);
    WithLimit (sc_Limit cfg);
    WithWindow (sc_Window cfg);
    WithMaxBorrow (bench_maxBorrow cfg);
    WithMinBorrow (bench_minBorrow cfg);
    WithAdaptiveBorrow true;
    WithReservedMinimum (sc_ReservedMin cfg);
    WithPreBorrowThreshold (f64_const 2 10);
    WithProbeK (sc_ProbeK cfg);
    WithPeerListen ":0";
    WithGossipInterval (bench_gossipInterval cfg);
    WithHeartbeatInterval (bench_heartbeatInterval cfg);
    WithMetrics true;
    WithRouter (Some (bench_router cfg i)) ].

Definition bench_instance (cfg : scenarioConfig) (i : nat) : options (world R) :=
  apply_options (bench_options cfg i).

(** How many workers drive instance [gi]. *)
Definition bench_workers (cfg : scenarioConfig) (gi : nat) : Z :=
  if sc_TrafficSkew cfg then
    if (gi =? 0)%nat then sc_Concurrency cfg * 2
    else
      let workers := Z.quot (sc_Concurrency cfg) 5 in
      if workers =? 0 then 1 else workers
  else sc_Concurrency cfg.

(** The key a worker of instance [instID] asks for on a draw. *)
Definition key_shift (cfg : scenarioConfig) (instID : nat) : Z :=
  if sc_SharedHotspot cfg then 0
  else Z.of_nat instID * Z.quot (sc_Keys cfg) (sc_Instances cfg).
Definition key_index (cfg : scenarioConfig) (shift raw : Z) : Z :=
  Z.rem (raw + shift) (sc_Keys cfg).

Definition windowMs (cfg : scenarioConfig) : Z := Milliseconds (sc_Window cfg).

(** The start of the next window, where a run begins. *)
Definition nextBoundary (nowMs windowMs : Z) : Z :=
  (Z.quot nowMs windowMs + 1) * windowMs.

(** [time.Sleep]: the other goroutines run meanwhile; how long it took is what
    the next [time.Now] says. *)
Definition Sleep {S} (d : Z) : go S unit := await (λ s, Some (tt, s)).

(** [runKrate] lets the peers find each other before it warms the keys. *)
Definition settle {S} (cfg : scenarioConfig) : go S unit :=
  if 0 <? sc_ProbeK cfg then Sleep (200 * Millisecond) else Ret tt.

(** Waiting for the start of the next window. *)
Definition align {S} (cfg : scenarioConfig) : go S unit :=
  do! now <- ask QNow;
  let nowMs := UnixMilli now in
  if windowMs cfg =? 0 then Panic "integer divide by zero"
  else Sleep (to_i64 ((nextBoundary nowMs (windowMs cfg) - nowMs) * Millisecond)).

Definition warmup_count (cfg : scenarioConfig) (warmupKeys : Z) : Z :=
  if sc_Keys cfg <? warmupKeys then sc_Keys cfg else warmupKeys.
End config.

(** ** The state of a run *)

Record bench (R : Type) := mkBench {
  be_world : world R;
  be_total : Z;
  be_allowed : Z;
  be_rejected : Z;
  be_lat : latency;
  be_tracker : accuracyTracker;
  be_wg : nat;           (* the workers [wg] waits for *)
  be_warmupWg : nat;
}.
Arguments mkBench {R}.
Arguments be_world {R}.
Arguments be_total {R}.
Arguments be_allowed {R}.
Arguments be_rejected {R}.
Arguments be_lat {R}.
Arguments be_tracker {R}.
Arguments be_wg {R}.
Arguments be_warmupWg {R}.

Section lenses.
Context {R : Type}.

Program Definition bl_world : lens (bench R) (world R) :=
  {| lget := be_world;
     lput x b := mkBench x (be_total b) (be_allowed b) (be_rejected b) (be_lat b)
                   (be_tracker b) (be_wg b) (be_warmupWg b) |}.
Next Obligation. done. Qed.
Program Definition bl_total : lens (bench R) Z :=
  {| lget := be_total;
     lput x b := mkBench (be_world b) x (be_allowed b) (be_rejected b) (be_lat b)
                   (be_tracker b) (be_wg b) (be_warmupWg b) |}.
Next Obligation. done. Qed.
Program Definition bl_allowed : lens (bench R) Z :=
  {| lget := be_allowed;
     lput x b := mkBench (be_world b) (be_total b) x (be_rejected b) (be_lat b)
                   (be_tracker b) (be_wg b) (be_warmupWg b) |}.
Next Obligation. done. Qed.
Program Definition bl_rejected : lens (bench R) Z :=
  {| lget := be_rejected;
     lput x b := mkBench (be_world b) (be_total b) (be_allowed b) x (be_lat b)
                   (be_tracker b) (be_wg b) (be_warmupWg b) |}.
Next Obligation. done. Qed.
Program Definition bl_lat : lens (bench R) latency :=
  {| lget := be_lat;
     lput x b := mkBench (be_world b) (be_total b) (be_allowed b) (be_rejected b) x
                   (be_tracker b) (be_wg b) (be_warmupWg b) |}.
Next Obligation. done. Qed.
Program Definition bl_tracker : lens (bench R) accuracyTracker :=
  {| lget := be_tracker;
     lput x b := mkBench (be_world b) (be_total b) (be_allowed b) (be_rejected b)
                   (be_lat b) x (be_wg b) (be_warmupWg b) |}.
Next Obligation. done. Qed.
Program Definition bl_wg : lens (bench R) nat :=
  {| lget := be_wg;
     lput x b := mkBench (be_world b) (be_total b) (be_allowed b) (be_rejected b)
                   (be_lat b) (be_tracker b) x (be_warmupWg b) |}.
Next Obligation. done. Qed.
Program Definition bl_warmupWg : lens (bench R) nat :=
  {| lget := be_warmupWg;
     lput x b := mkBench (be_world b) (be_total b) (be_allowed b) (be_rejected b)
                   (be_lat b) (be_tracker b) (be_wg b) x |}.
Next Obligation. done. Qed.
End lenses.

(** Code over a component, run inside a larger state. *)
Fixpoint lift {S T A : Type} (l : lens S T) (p : go T A) : go S A :=
  match p with
  | Ret a => Ret a
  | Step f k =>
      Step (λ s, match f (lget l s) with
                 | Some (x, t) => Some (x, lput l t s) | None => None end)
        (λ x, lift l (k x))
  | Ask q k => Ask q (λ x, lift l (k x))
  | Fork t k => Fork (lift l t) (lift l k)
  | Panic m => Panic m
  end.

(** Prometheus: what a registry gathers from the calls of a collector. *)
Class Gatherer := { reg_Gather : Collector → list MetricFamily }.

(** ** The workers *)

Section run.
Context {R : Type} `{RedisStore R} `{FloatConv} `{GrpcDial}
  `{NetListen} `{Gatherer}.
Context (serve : string → option (TokenServer (world R))).
Context (cfg : scenarioConfig).

Abbreviation B := (bench R).

Definition bench_key (i : Z) : string := "key:" +:+ pretty i.

(** [x.Add(1)] on an [atomic.Int64]. *)
Definition add_one (l : lens B Z) : go B unit := zoom_modify l (λ x, to_i64 (x + 1)).

(** One turn of a worker's loop; [key_of] is the key of a draw and [allow]
    what asks for it: the answer is whether it was admitted. *)
Definition measured_request (draw : Z → string) (allow : string → go B bool)
  : go B unit :=
  do! raw <- ask (QRand (sc_Keys cfg));
  let key := draw raw in
  do! t0 <- ask QNow;
  do! ok <- allow key;
  do! tAfter <- ask QNow;
  let d := time_Sub tAfter t0 in
  add_one bl_total ;;;
  lat_add bl_lat (f64_of_Z d) ;;;
  let windowNum := Z.quot (UnixMilli tAfter) (windowMs cfg) in
  tracker_Record bl_tracker key windowNum ok ;;;
  if ok then add_one bl_allowed else add_one bl_rejected.

(** The loop, until the run's context is done; [fuel] bounds the requests. *)
Fixpoint worker (fuel : nat) (draw : Z → string) (allow : string → go B bool)
  : go B unit :=
  match fuel with
  | O => zoom_modify bl_wg pred
  | Datatypes.S fuel =>
      do! stop <- ask QSelect;
      if (stop : bool) then zoom_modify bl_wg pred
      else measured_request draw allow ;;; worker fuel draw allow
  end.

(** [ok, _ := lim.Allow(context.Background(), key)]. *)
Definition ask_limiter (lim : Limiter_I (world R)) (key : string) : go B bool :=
  do! (ok, _) <- lift bl_world (i_Allow lim key); Ret ok.

Definition start_workers (fuel : nat) (n : Z) (draw : Z → string)
    (allow : string → go B bool) : go B unit :=
  for_each (λ _, zoom_modify bl_wg Datatypes.S ;;; fork (worker fuel draw allow))
    (seq 0 (Z.to_nat n)).

(** [select] on all workers being done or the deadline. *)
Definition wait_workers : go B unit :=
  do! done <- ask QSelect;
  if (done : bool)
  then await (λ s, if decide (be_wg s = 0%nat) then Some (tt, s) else None)
  else Ret tt.

(** ** [runKrate] *)

Definition new_instance (ticks fuel : nat) (i : nat) : go B (Limiter_I (world R)) :=
  do! (lim, err) <-
    lift bl_world (krate_New serve "" (bench_options cfg i) ticks fuel (bench_ema cfg));
  match lim, err with
  | Some lim, None => Ret lim
  | _, _ => Panic "exit status 1"
  end.

Fixpoint new_instances (ticks fuel : nat) (idxs : list nat)
  : go B (list (nat * Limiter_I (world R))) :=
  match idxs with
  | [] => Ret []
  | i :: idxs =>
      do! lim <- new_instance ticks fuel i;
      do! lims <- new_instances ticks fuel idxs;
      Ret ((i, lim) :: lims)
  end.

Definition warm_instance (lim : Limiter_I (world R)) (warmupN : Z) : go B unit :=
  for_each (λ k, do! _ <- ask_limiter lim (bench_key (Z.of_nat k)); Ret tt)
    (seq 0 (Z.to_nat warmupN)) ;;;
  zoom_modify bl_warmupWg pred.

Definition warmup (lims : list (nat * Limiter_I (world R))) (warmupN : Z) : go B unit :=
  if 0 <? warmupN then
    for_each (λ e, zoom_modify bl_warmupWg Datatypes.S ;;; fork (warm_instance e.2 warmupN))
      lims ;;;
    await (λ s, if decide (be_warmupWg s = 0%nat) then Some (tt, s) else None)
  else Ret tt.

(** The fresh counters of a run. *)
Definition start_counters : go B unit :=
  modify (λ b, mkBench (be_world b) 0 0 0 (newLatency 500000) new_tracker 0 (be_warmupWg b)).

Record result := mkResult {
  res_name : string;
  res_total : Z;
  res_allowed : Z;
  res_rejected : Z;
  res_rps : float64;
  res_elapsed : Z;
  res_pm : pathMetrics;
  res_p50 : float64;
  res_p90 : float64;
  res_p99 : float64;
  res_p999 : float64;
  res_mean : float64;
  res_dist : keyDist;
  res_leakage : Z;
  res_falseRejs : Z;
}.

Definition reported_pcts : list float64 :=
  [f64_of_Z 50; f64_of_Z 90; f64_of_Z 99; f64_const 999 10].

(** Reading the map of percentiles; a missing key is zero. *)
Definition pct_at (p : list (float64 * float64)) (x : float64) : float64 :=
  default f64_zero (snd <$> find (λ e, SFeqb e.1 x) p).

(** From [elapsed] to the end of both runs. *)
Definition report (name : string) (zipf : nat → Z) (start : Z)
    (gathered : B → pathMetrics) : go B result :=
  do! now <- ask QNow;
  let elapsed := time_Sub now start in
  do! p <- pcts bl_lat reported_pcts;
  do! pm <- reads gathered;
  do! total <- zoom_reads bl_total (λ x, x);
  let dist := computeKeyDist zipf total (sc_Keys cfg) (sc_ZipfS cfg) in
  do! (leakage, falseRejs) <- ComputeAccuracy bl_tracker (sc_Limit cfg);
  do! total <- zoom_reads bl_total (λ x, x);
  do! allowed <- zoom_reads bl_allowed (λ x, x);
  do! rejected <- zoom_reads bl_rejected (λ x, x);
  do! mean <- lat_avg bl_lat;
  Ret (mkResult name total allowed rejected
         (f64_div (f64_of_Z total) (duration_Seconds elapsed)) elapsed pm
         (pct_at p (f64_of_Z 50)) (pct_at p (f64_of_Z 90)) (pct_at p (f64_of_Z 99))
         (pct_at p (f64_const 999 10)) mean dist leakage falseRejs).

Definition close_all (lims : list (nat * Limiter_I (world R))) : go B unit :=
  for_each (λ e, do! _ <- lift bl_world (i_Close e.2); Ret tt) lims.

(** The counters of the instances' registries. *)
Definition gather_instances (b : B) : pathMetrics :=
  gatherPath ((λ i, reg_Gather (lget (inst (bench_id cfg i) f_metrics) (be_world b)))
                <$> seq 0 (Z.to_nat (sc_Instances cfg))).

Definition runKrate (ticks fuel : nat) (warmupKeys : Z) (zipf : nat → Z)
  : go B result :=
  do! lims <- new_instances ticks fuel (seq 0 (Z.to_nat (sc_Instances cfg)));
  settle cfg ;;;
  warmup lims (warmup_count cfg warmupKeys) ;;;
  align cfg ;;;
  start_counters ;;;
  do! start <- ask QNow;
  for_each (λ e,
    start_workers fuel (bench_workers cfg e.1)
      (λ raw, bench_key (key_index cfg (key_shift cfg e.1) raw)) (ask_limiter e.2)) lims ;;;
  wait_workers ;;;
  do! r <- report ("krate ×" +:+ pretty (sc_Instances cfg)) zipf start gather_instances;
  close_all lims ;;;
  Ret r.
End run.

(** ** The Redis-only run *)

(** The commands of its script, and their documented effect. *)
Class RedisCounters (R : Type) `{RedisStore R} := {
  redis_INCR : string → R → Z * R;
  redis_DECR : string → R → Z * R;
  redis_EXPIRE : string → Z → R → R;
  redis_FLUSHDB : R → R;
}.

Class CounterLaws (R : Type) `{RedisCounters R} := {
  INCR_reply k r : (redis_INCR k r).1 = default 0 (redis_GET k r) + 1;
  GET_INCR k r : redis_GET k (redis_INCR k r).2 = Some (default 0 (redis_GET k r) + 1);
  GET_DECR k r : redis_GET k (redis_DECR k r).2 = Some (default 0 (redis_GET k r) - 1);
  GET_FLUSHDB k r : redis_GET k (redis_FLUSHDB r) = None;
  GET_EXPIRE k t r : 0 < t → redis_GET k (redis_EXPIRE k t r) = redis_GET k r;
}.

Section baseline.
Context {R : Type} `{RedisCounters R}.

Definition baselineLua (key : string) (limit ttl : Z) (r : R) : Z * R :=
  let c := lua_tonumber (default 0 (redis_GET key r)) in
  let l := lua_tonumber limit in
  if l <=? c then (0, r)
  else
    let '(n, r) := redis_INCR key r in
    let n := lua_tonumber n in
    let r := if n =? 1 then redis_EXPIRE key (lua_tonumber ttl) r else r in
    if l <? n then (0, (redis_DECR key r).2) else (1, r).

(** What happens to a key of the run: its script runs, it expires, and
    commands on other keys; with the expiries and admissions so far. *)
Inductive baseline_steps (key : string) (limit ttl : Z) (r0 : R) : R → Z → Z → Prop :=
| BS_start : baseline_steps key limit ttl r0 r0 0 0
| BS_script r e a v r' :
    baseline_steps key limit ttl r0 r e a → baselineLua key limit ttl r = (v, r') →
    baseline_steps key limit ttl r0 r' e (a + v)
| BS_expire r e a r' :
    baseline_steps key limit ttl r0 r e a → redis_GET key r' = None →
    baseline_steps key limit ttl r0 r' (e + 1) a
| BS_other r e a r' :
    baseline_steps key limit ttl r0 r e a → redis_GET key r' = redis_GET key r →
    baseline_steps key limit ttl r0 r' e a.

Context `{FloatConv} (cfg : scenarioConfig).

(** [script.Run(...).Int64()], and the test [res == 1]. *)
Definition ask_redis (rl : lens (bench R) (redis_world R)) (key : string)
  : go (bench R) bool :=
  let run := zoom rl (λ w,
    let '(v, r) := baselineLua key (to_i64 (sc_Limit cfg))
                     (f64_to_i64 (duration_Seconds (sc_Window cfg))) (rw_store w) in
    (v =? 1, mkRW r (rw_log w))) in
  do! t <- ask QTransport;
  match t with
  | TOk => run
  | TNotRun _ => Ret false
  | TReplyLost _ => do! _ <- run; Ret false
  end.

Definition baseline_key (i : Z) : string := "rb:key:" +:+ pretty i.

(** The shift of worker [id]: the instance it stands for. *)
Definition baseline_shift (id : nat) : Z :=
  Z.rem (Z.of_nat id) (sc_Instances cfg) * Z.quot (sc_Keys cfg) (sc_Instances cfg).

Definition runRedisBaseline (fuel : nat) (zipf : nat → Z) : go (bench R) result :=
  do! _ <- redis_write (lens_compose bl_world redis_lens) redis_FLUSHDB;
  start_counters ;;;
  align cfg ;;;
  do! start <- ask QNow;
  for_each (λ id,
    zoom_modify bl_wg Datatypes.S ;;;
    fork (worker cfg fuel
      (λ raw, baseline_key (key_index cfg (baseline_shift id) raw))
      (ask_redis (lens_compose bl_world redis_lens))))
    (seq 0 (Z.to_nat (sc_Instances cfg * sc_Concurrency cfg))) ;;;
  wait_workers ;;;
  report cfg "Redis-only ×1" zipf start (λ _, no_path).
End baseline.

(** The scenarios [main] runs; [None] when it stops at an unknown name. *)
Definition main_scenarios (scenario : string) : option (list scenarioConfig) :=
  mapM (λ name, scenarios !! name) (runNames scenario).

Section baseline_facts.
Context {R : Type} `{RedisLaws R} `{!RedisCounters R} `{!CounterLaws R}.

(** The script counts up to the limit; its last test never succeeds. *)
Lemma baselineLua_spec key limit ttl (r : R) :
  let c := default 0 (redis_GET key r) in
  0 <= c <= limit → limit <= 2 ^ 53 → 0 < ttl <= 2 ^ 53 →
  ∃ r', baselineLua key limit ttl r = ((if c <? limit then 1 else 0), r') ∧
    default 0 (redis_GET key r') = c + (if c <? limit then 1 else 0).
Proof.
  intros c Hc Hl Ht. unfold baselineLua. fold c.
  rewrite (tonumber_exact limit), (tonumber_exact c), (tonumber_exact ttl) by lia.
  destruct (Z.leb_spec limit c).
  - exists r. rewrite (proj2 (Z.ltb_ge c limit)) by lia. split; [done|].
    unfold c. lia.
  - rewrite (proj2 (Z.ltb_lt c limit)) by lia.
    pose proof (INCR_reply key r) as Hn. pose proof (GET_INCR key r) as Hg.
    destruct (redis_INCR key r) as [n r1]. cbn in Hn, Hg. fold c in Hn, Hg.
    rewrite (tonumber_exact n) by lia. rewrite (proj2 (Z.ltb_ge limit n)) by lia.
    eexists. split; [done|]. destruct (n =? 1); [rewrite GET_EXPIRE by lia|];
      by rewrite Hg.
Qed.

(** C39: the baseline never leaks.  Starting without the key, after any
    sequence of runs of the script by any workers, interleaved with commands
    on other keys and with expiries of the key, at most [limit] requests were
    admitted per life of the key: [limit] times one more than the expiries. *)
Theorem baseline_never_leaks key limit ttl (r0 r : R) e a :
  redis_GET key r0 = None → 0 <= limit <= 2 ^ 53 → 0 < ttl <= 2 ^ 53 →
  baseline_steps key limit ttl r0 r e a →
  0 <= a <= limit * (e + 1) ∧ 0 <= default 0 (redis_GET key r) <= limit.
Proof.
  intros Hnone Hl Ht Hsteps.
  enough (0 <= e ∧ 0 <= a ∧ a <= limit * e + default 0 (redis_GET key r) ∧
    0 <= default 0 (redis_GET key r) <= limit) by nia.
  induction Hsteps as [|r e a v r' _ IH E|r e a r' _ IH E|r e a r' _ IH E].
  - rewrite Hnone. cbn. lia.
  - destruct IH as (He & Ha & Hle & Hc).
    destruct (baselineLua_spec key limit ttl r Hc ltac:(lia) Ht) as (r1 & E1 & Hr1).
    rewrite E in E1. injection E1 as -> <-. rewrite Hr1.
    destruct (Z.ltb_spec (default 0 (redis_GET key r)) limit); lia.
  - rewrite E. cbn. nia.
  - by rewrite E.
Qed.
End baseline_facts.

#[export] Instance mem_counters : RedisCounters mem_redis := {
  redis_INCR k m :=
    let v := default 0 (mem_vals m !! k) + 1 in (v, upd_vals <[k:=v]> m);
  redis_DECR k m :=
    let v := default 0 (mem_vals m !! k) - 1 in (v, upd_vals <[k:=v]> m);
  redis_EXPIRE k t m := m;
  redis_FLUSHDB m := mkMem ∅ ∅;
}.

#[export] Instance mem_counter_laws : CounterLaws mem_redis.
Proof. split; intros; cbn; rewrite ?lookup_insert_eq; done. Qed.

Lemma baseline_never_leaks_witness :
  ∃ r : mem_redis, baseline_steps "k" 1 60 (mkMem ∅ ∅) r 0 1 ∧ 0 <= 1 <= 1 * (0 + 1).
Proof.
  destruct (baselineLua "k" 1 60 (mkMem ∅ ∅)) as [v r1] eqn:E1.
  destruct (baselineLua "k" 1 60 r1) as [v2 r2] eqn:E2.
  assert (Hs : baseline_steps "k" 1 60 (mkMem ∅ ∅) r2 0 (0 + v + v2)).
  { eapply BS_script; [eapply BS_script; [apply BS_start|exact E1]|exact E2]. }
  vm_compute in E1. injection E1 as <- <-. vm_compute in E2. injection E2 as <- <-.
  eexists. split; [exact Hs|].
  apply (baseline_never_leaks "k" 1 60 (mkMem ∅ ∅) _ 0 1) in Hs;
    [apply Hs|vm_compute; reflexivity|lia|lia].
Defined.

(** The two runs of a scenario do not ask for the same keys when it shares
    its hot spot: the baseline shifts the keys all the same. *)
Example baseline_ignores_SharedHotspot cfg :
  scenarios !! "peer-transfer" = Some cfg →
  (key_index cfg (key_shift cfg 1) 0, key_index cfg (baseline_shift cfg 1) 0) = (0, 2500).
Proof. vm_compute. by intros [= <-]. Qed.

Lemma nextBoundary_next now w :
  0 <= now → 0 < w → now < nextBoundary now w <= now + w ∧
  Z.rem (nextBoundary now w) w = 0.
Proof.
  intros Hn Hw. unfold nextBoundary. rewrite Z.quot_div_nonneg by lia.
  pose proof (Z.div_mod now w ltac:(lia)). pose proof (Z.mod_pos_bound now w Hw).
  split; [nia|]. apply Z.rem_mul. lia.
Qed.

(** ** The cluster of a scenario *)

Section guarantee.
Context {R : Type} `{RedisLaws R} `{FloatConv} `{GrpcDial}
  `{NetListen}.

Definition bench_cluster (cfg : scenarioConfig) : list (options (world R)) :=
  bench_instance cfg <$> seq 0 (Z.to_nat (sc_Instances cfg)).

(** The instances' names end in a digit. *)
Definition ids_fine (cfg : scenarioConfig) : bool :=
  forallb (λ i, match str_last (bench_id cfg i) with
                | Some c => bool_decide (c ≠ "l"%char ∧ c ≠ "t"%char)
                | None => false end) (seq 0 (Z.to_nat (sc_Instances cfg))).
Definition sizes_fine (cfg : scenarioConfig) : bool :=
  bool_decide (0 <= sc_Limit cfg <= 2 ^ 53 ∧
    1 <= bench_minBorrow cfg <= bench_maxBorrow cfg ∧ bench_maxBorrow cfg <= 2 ^ 53 ∧
    windowMs cfg ≠ 0 ∧ 0 <= sc_ProbeK cfg).

Lemma scenarios_fine name cfg :
  scenarios !! name = Some cfg → ids_fine cfg = true ∧ sizes_fine cfg = true.
Proof.
  intros Hc. assert (Hall : Forall (λ e, ids_fine e.2 = true ∧ sizes_fine e.2 = true)
    scenario_list) by (apply (bool_decide_unpack _); vm_compute; exact I).
  apply elem_of_list_to_map_2 in Hc. rewrite Forall_forall in Hall.
  exact (Hall _ Hc).
Qed.

Lemma bench_instance_ok name cfg κ o :
  scenarios !! name = Some cfg → o ∈ bench_cluster cfg → instance_ok κ (sc_Limit cfg) o.
Proof.
  intros Hc (i & -> & Hi)%list_elem_of_fmap.
  destruct (scenarios_fine name cfg Hc) as [Hid Hsz].
  unfold sizes_fine in Hsz. apply bool_decide_eq_true in Hsz.
  unfold ids_fine in Hid. rewrite forallb_forall in Hid.
  specialize (Hid i (proj1 (list_elem_of_In _ _) Hi)).
  destruct (str_last (bench_id cfg i)) as [c|] eqn:Hlast; [|done].
  apply bool_decide_eq_true in Hid. split.
  - unfold opts_ok, bench_instance, apply_options, bench_options. cbn. lia.
  - unfold bench_instance, apply_options, bench_options. cbn. lia.
  - apply (id_ok_last (bench_id cfg i) c); [exact Hlast|apply Hid|apply Hid].
  - intros r [= <-]. unfold bench_router.
    destruct (0 <? sc_ProbeK cfg); [apply EMA_quiet|apply Default_quiet].
Qed.

(** The benchmark's instances cannot panic either. *)
Lemma bench_cluster_sound name cfg :
  scenarios !! name = Some cfg → Forall options_sound (bench_cluster cfg).
Proof.
  intros Hc. apply Forall_forall. intros o (i & -> & Hi)%list_elem_of_fmap.
  destruct (scenarios_fine name cfg Hc) as [_ Hsz].
  unfold sizes_fine in Hsz. apply bool_decide_eq_true in Hsz. split; [|apply Hsz..| |].
  - eexists. split; [done|]. unfold bench_router.
    destruct (0 <? sc_ProbeK cfg); [apply EMA_safe|apply Default_safe].
  - change (0 < bench_gossipInterval cfg). unfold bench_gossipInterval. by case_match.
  - change (0 < bench_heartbeatInterval cfg). unfold bench_heartbeatInterval. by case_match.
Qed.

(** Whatever the benchmark measures, the cluster of each of its scenarios
    admits at most the limit of a key per window opened. *)
Corollary bench_rate_limit name cfg net κ (s0 s : world R) ts :
  scenarios !! name = Some cfg → fresh s0 → pool_of κ s0 = 0 →
  lua_ok (window_start κ s0) →
  rtc (lim_step (ledger_lim κ 0) (entry (bench_cluster cfg) net) redis_drift)
    ([], s0) (ts, s) →
  admitted κ s <= sc_Limit cfg * Z.of_nat (length (starts κ s)).
Proof.
  intros Hc Hf Hp Hw Hrun.
  by apply (admitted_windows (bench_cluster cfg) net κ (sc_Limit cfg)
    (λ o Ho, bench_instance_ok name cfg κ o Hc Ho) (λ _, True)
    s0 ts s (λ _ _ _ _, I) Hf Hp Hw Hrun).
Qed.
End guarantee.

(** The counters the benchmark sums are registered under the names it looks
    for, and the two it splits by outcome have the label it splits by. *)
Lemma gather_names :
  Forall (λ '(name, labels),
    ∃ v ls, (v, (Counter, name, ls)) ∈ collector_fields ∧ labels ⊆ ls)
    [ ("krate_local_hits_total", []); ("krate_redis_borrows_total", ["result"]);
      ("krate_redis_skips_total", []); ("krate_pre_borrows_total", []);
      ("krate_peer_probes_total", ["result"]) ].
Proof.
  constructor 2; [exists LocalHitsTotal, ["key"]|].
  2: constructor 2; [exists RedisBorrowsTotal, ["key"; "result"]|].
  3: constructor 2; [exists RedisSkipsTotal, ["key"]|].
  4: constructor 2; [exists PreBorrowsTotal, ["key"]|].
  5: constructor 2; [exists PeerProbesTotal, ["key"; "result"]|].
  6: constructor 1.
  all: split; [apply (bool_decide_unpack _); vm_compute; exact I|set_solver].
Qed.

(** ** The counters of concurrent workers *)

Section counting.
Context {R : Type} `{FloatConv} (cfg : scenarioConfig).
Abbreviation B := (bench R).

(** The counters are not touched. *)
Definition same_counts (s s' : B) : Prop :=
  be_total s' = be_total s ∧ be_allowed s' = be_allowed s ∧
  be_rejected s' = be_rejected s.

#[local] Instance quiet_bl_world : QuietLens same_counts bl_world.
Proof. done. Qed.
#[local] Instance quiet_bl_lat : QuietLens same_counts bl_lat.
Proof. done. Qed.
#[local] Instance quiet_bl_tracker : QuietLens same_counts bl_tracker.
Proof. done. Qed.
#[local] Instance quiet_bl_wg : QuietLens same_counts bl_wg.
Proof. done. Qed.

Lemma quiet_lift {T A} (l : lens B T) `{!QuietLens same_counts l} (p : go T A) :
  quiet same_counts (lift l p).
Proof.
  induction p as [A a|A X f k IH|A X q k IH|A t IHt k IH|A m]; cbn; try done.
  split; [|done]. intros s x s'. destruct (f (lget l s)) as [[y t]|]; [|done].
  intros [= -> <-]. apply QuietLens0.
Qed.

Lemma quiet_lat_add ns : quiet same_counts (lat_add (bl_lat (R:=R)) ns).
Proof.
  assert (Hr : ∀ X (f : latency → X), quiet same_counts (zoom_reads (bl_lat (R:=R)) f))
    by (intros X f; by apply quiet_zoom_reads).
  unfold lat_add, with_lat, lat_Lock, lat_Unlock, rand_N, set_buf, with_lat.
  repeat (apply quiet_bind; [|intros ?]); quiet; try apply Hr.
  apply quiet_await. intros s x s'. destruct (lat_mu _); [done|].
  intros [= <- <-]. done.
Qed.

(** What was counted but not yet as admitted or rejected. *)
Definition pending (b : B) : Z := be_total b - be_allowed b - be_rejected b.
Definition counts_ok (b : B) : Prop :=
  0 <= be_allowed b ∧ 0 <= be_rejected b ∧ 0 <= pending b.
Definition counts_fit (b : B) : Prop := be_total b < 2 ^ 63 - 1.

Abbreviation bwp := (wp counts_ok counts_fit pending).

Lemma bwp_quiet {A} (p : go B A) c (Q : A → Z → Prop) :
  0 <= c → quiet same_counts p → (∀ a, Q a c) → bwp p c Q.
Proof.
  intros Hc Hp HQ. eapply wp_mono; [|apply (wp_quiet same_counts); [|done|exact Hp]].
  - cbn. intros a c' ->. apply HQ.
  - intros s s' (E1 & E2 & E3). unfold counts_ok, pending. by rewrite E1, E2, E3.
Qed.

Lemma count_request s :
  counts_ok s → counts_fit s →
  let s' := lput bl_total (to_i64 (be_total s + 1)) s in
  counts_ok s' ∧ pending s' = pending s + 1.
Proof.
  unfold counts_ok, counts_fit, pending. cbn. intros. rewrite to_i64_small by go_lia. lia.
Qed.

Lemma count_outcome s (ok : bool) :
  counts_ok s → counts_fit s → 1 <= pending s →
  let s' := if ok then lput bl_allowed (to_i64 (be_allowed s + 1)) s
            else lput bl_rejected (to_i64 (be_rejected s + 1)) s in
  counts_ok s' ∧ pending s' = pending s - 1.
Proof.
  unfold counts_ok, counts_fit, pending. destruct ok; cbn; intros;
    rewrite to_i64_small by go_lia; lia.
Qed.

Lemma bwp_request draw allow :
  (∀ k, quiet same_counts (allow k)) →
  bwp (measured_request cfg draw allow) 0 (λ _ c, c = 0).
Proof.
  intros Ha. unfold measured_request.
  apply wp_bind, wp_ask. intros raw _. apply wp_bind, wp_ask. intros t0 _.
  apply wp_bind, bwp_quiet; [done|apply Ha|]. intros ok.
  apply wp_bind, wp_ask. intros t1 _. apply wp_bind, wp_atomically.
  intros s Hi Hl _ _. destruct (count_request s Hi Hl) as [Hi' E].
  split; [exact Hi'|]. exists 1. split; [done|]. split; [cbn in *; lia|].
  apply wp_bind, bwp_quiet; [done|apply quiet_lat_add|]. intros _.
  apply wp_bind, bwp_quiet; [done|by apply quiet_zoom_modify, _|]. intros _.
  clear s Hi Hl Hi' E. destruct ok; apply wp_atomically; intros s Hi Hl _ Hc;
    [destruct (count_outcome s true Hi Hl Hc) as [Hi' E]
    |destruct (count_outcome s false Hi Hl Hc) as [Hi' E]];
    (split; [exact Hi'|]); exists 0; cbn in *; (split; [done|]); (split; [lia|done]).
Qed.

Lemma bwp_worker fuel draw allow :
  (∀ k, quiet same_counts (allow k)) →
  bwp (worker cfg fuel draw allow) 0 (λ _ _, True).
Proof.
  intros Ha. induction fuel as [|fuel IH]; cbn [worker].
  - apply bwp_quiet; [done|by apply quiet_zoom_modify, _|done].
  - apply wp_bind, wp_ask. intros stop _. destruct stop.
    + apply bwp_quiet; [done|by apply quiet_zoom_modify, _|done].
    + apply wp_bind. eapply wp_mono; [|by apply bwp_request]. by intros _ c ->.
Qed.

(** What runs while the workers do: more workers, and code that leaves the
    counters alone, such as everything the limiters start. *)
Inductive bench_entry : go B unit → Prop :=
| BE_worker fuel draw allow :
    (∀ k, quiet same_counts (allow k)) → bench_entry (worker cfg fuel draw allow)
| BE_quiet p : quiet same_counts p → bench_entry p.

(** In every state, of however many workers, at most one of the two outcomes
    was counted for each request counted. *)
Theorem workers_count s0 ts s :
  pending s0 = 0 → 0 <= be_allowed s0 → 0 <= be_rejected s0 →
  rtc (lim_step counts_fit bench_entry same_counts) ([], s0) (ts, s) →
  0 <= be_allowed s ∧ 0 <= be_rejected s ∧
  be_allowed s + be_rejected s <= be_total s.
Proof.
  intros Hp Ha Hr Hrun.
  assert (Hok : conf_ok counts_ok counts_fit pending (ts, s)).
  { eapply pool_safe; [| | |exact Hrun].
    - intros p [fuel draw allow Hq|q Hq]; [by apply bwp_worker|by apply bwp_quiet].
    - intros x y Hx _ (E1 & E2 & E3). unfold counts_ok, pending in *.
      rewrite E1, E2, E3. done.
    - split; [unfold counts_ok; cbn; lia|]. exists []. split; [constructor|].
      cbn. lia. }
  pose proof (pool_reserve _ _ _ _ Hok) as Hres.
  destruct Hok as ((H1 & H2 & _) & _). unfold pending in *. cbn in *. lia.
Qed.

(** The workers of [runKrate]. *)
Lemma quiet_ask_limiter (lim : Limiter_I (world R)) k :
  quiet same_counts (ask_limiter lim k).
Proof. apply quiet_bind; [apply quiet_lift, _|by intros [ok err]]. Qed.
End counting.
