(* ===== verification/Cleaning.v ===== *)
(** * Cleaning: what is left in Redis between two runs (cmd/krate-bench)

    [cleanScenario] empties the database with FLUSHDB, and when that is
    refused deletes the keys of six patterns it finds with SCAN.  The
    iteration of a SCAN is the server's: [ScanLaws] states what Redis
    documents about it.  The theorem says which keys are left, and that the
    next run starts with empty pools and no window opened. *)

From Stdlib Require Import Ascii.
From stdpp Require Import pretty.
From S2P Require Export BenchRun.

#[local] Arguments Ascii.eqb : simpl never.

(** ** Patterns

    Of the special characters of a pattern the program uses only the star,
    which stands for any characters. *)

Fixpoint star_match (p s : string) {struct p} : bool :=
  match p with
  | EmptyString => match s with EmptyString => true | _ => false end
  | String c p =>
      if (c =? "*")%char then
        (fix any (s : string) : bool :=
           star_match p s || match s with String _ s => any s | EmptyString => false end) s
      else
        match s with String d s => (c =? d)%char && star_match p s | EmptyString => false end
  end.

Definition special (c : ascii) : bool :=
  existsb (Ascii.eqb c) ["?"; "["; "]"; "\"; "^"]%char.
Fixpoint plain_pattern (p : string) : bool :=
  match p with EmptyString => true | String c p => negb (special c) && plain_pattern p end.
Fixpoint no_star (p : string) : bool :=
  match p with EmptyString => true | String c p => negb (c =? "*")%char && no_star p end.

Lemma star_match_literal l p s :
  no_star l = true → star_match (l +:+ p) (l +:+ s) = star_match p s.
Proof.
  induction l as [|c l IH]; [done|]. cbn. intros [Hc Hl]%andb_prop.
  apply negb_true_iff in Hc. rewrite !app_cons. cbn.
  rewrite Hc, Ascii.eqb_refl. cbn. by apply IH.
Qed.

Lemma star_match_any x p s :
  star_match p s = true → star_match (String "*" p) (x +:+ s) = true.
Proof.
  intros Hp. induction x as [|c x IH].
  - change ("" +:+ s) with s. cbn. destruct s; by rewrite Hp.
  - rewrite app_cons. cbn in *. apply orb_true_iff. by right.
Qed.

(** ** SCAN and DEL *)

Class RedisKeys (R : Type) := {
  redis_EXISTS : string → R → bool;
  redis_DEL : list string → R → R;
  (** the keys of one step and the next cursor; the hint for their number *)
  redis_SCAN : Z → string → Z → R → list string * Z;
  (** how many steps an iteration over no more than these keys takes *)
  scan_bound : R → nat;
}.

Section traces.
Context {R : Type} `{RedisKeys R} (p : string) (count : Z).

(** The steps of an iteration so far, each with the store it met and what it
    returned, and the cursor it has come to. *)
Inductive scan_calls : list (R * list string) → Z → Prop :=
| SC_start : scan_calls [] 0
| SC_step l c r ks c' : scan_calls l c → (l = [] ∨ c ≠ 0) →
    redis_SCAN c p count r = (ks, c') → scan_calls (l ++ [(r, ks)]) c'.

Definition returned (l : list (R * list string)) : list string := concat l.*2.
End traces.

Class ScanLaws (R : Type) `{RedisStore R, !RedisCounters R, !RedisKeys R} := {
  EXISTS_DEL k ks r :
    redis_EXISTS k (redis_DEL ks r) = true ↔ k ∉ ks ∧ redis_EXISTS k r = true;
  EXISTS_FLUSHDB k r : redis_EXISTS k (redis_FLUSHDB r) = false;
  GET_not_EXISTS k r : redis_EXISTS k r = false → redis_GET k r = None;
  HGETALL_not_EXISTS k r : redis_EXISTS k r = false → redis_HGETALL k r = ∅;
  (** "A full iteration always retrieves all the elements that were present
      in the collection from the start to the end of a full iteration." *)
  SCAN_full p n l k :
    scan_calls p n l 0 → l ≠ [] → plain_pattern p = true →
    Forall (λ e, redis_EXISTS k e.1 = true) l → star_match p k = true → k ∈ returned l;
  SCAN_matches p n l c k :
    scan_calls p n l c → plain_pattern p = true → k ∈ returned l → star_match p k = true;
  (** "The SCAN algorithm is guaranteed to terminate only if the size of the
      iterated collection remains bounded." *)
  SCAN_ends p n l c r0 :
    scan_calls p n l c →
    Forall (λ e, ∀ k, redis_EXISTS k e.1 = true → redis_EXISTS k r0 = true) l →
    (length l <= scan_bound r0)%nat;
}.

(** ** [cleanScenario] *)

Definition cleanPatterns : list string :=
  ["krate:*:pool"; "krate:*:borrowed:*"; "krate:*:window_start"; "krate:*:config";
   "krate:cluster:*"; "rb:*"].

Section cleaning.
Context {S R : Type} `{RedisStore R, !RedisCounters R, !RedisKeys R}
  (rl : lens S (redis_world R)).

(** The loop over the cursor. *)
Fixpoint scan_loop (fuel : nat) (p : string) (cur : Z) : go S unit :=
  match fuel with
  | O => Ret tt
  | Datatypes.S fuel =>
      do! t <- ask QTransport;
      match t with
      | TOk =>
          do! (ks, n) <- zoom_reads rl (λ w, redis_SCAN cur p 1000 (rw_store w));
          (match ks with
           | [] => Ret tt
           | _ => do! _ <- redis_write rl (redis_DEL ks); Ret tt
           end) ;;;
          if n =? 0 then Ret tt else scan_loop fuel p n
      | _ => Ret tt
      end
  end.

Definition cleanByScan (fuel : nat) : go S unit :=
  for_each (λ p, scan_loop fuel p 0) cleanPatterns.

Definition cleanScenario (fuel : nat) : go S unit :=
  do! err <- redis_write rl redis_FLUSHDB;
  match err with Some _ => cleanByScan fuel | None => Ret tt end.
End cleaning.

(** ** What it leaves *)

Section left_over.
Context {S R : Type} `{ScanLaws R} (rl : lens S (redis_world R)).

Definition exists_in (s : S) (k : string) : Prop :=
  redis_EXISTS k (rw_store (lget rl s)) = true.

Lemma exec_redis_write (env : environment) (f : R → R) i s :
  env _ QTransport i = TOk →
  ∃ s', exec env i (redis_write rl f) s = Done None s' [] (Datatypes.S i) ∧
    rw_store (lget rl s') = f (rw_store (lget rl s)).
Proof.
  intros Ht. unfold redis_write. cbn [exec bind ask]. rewrite Ht. eexists.
  split; [reflexivity|]. by rewrite lget_put.
Qed.

Lemma returned_app (l1 l2 : list (R * list string)) :
  returned (l1 ++ l2) = returned l1 ++ returned l2.
Proof. unfold returned. by rewrite fmap_app, concat_app. Qed.

Abbreviation keys_in r r' := (∀ k, redis_EXISTS k r = true → redis_EXISTS k r' = true).

(** An iteration under way that started with the keys of [r0], whose keys so
    far were deleted; [r1] bounds what there is to iterate over. *)
Record scanning (p : string) (r1 r0 : R) (l : list (R * list string)) (cur : Z) (s : S)
  : Prop := {
  sc_calls : scan_calls p 1000 l cur;
  sc_more : l = [] ∨ cur ≠ 0;
  sc_left k : exists_in s k ↔ redis_EXISTS k r0 = true ∧ k ∉ returned l;
  sc_old : Forall (λ e, keys_in e.1 r1) l;
  sc_kept k : exists_in s k → Forall (λ e, redis_EXISTS k e.1 = true) l;
}.

Definition cleaned (p : string) (r0 : R) (s : S) : Prop :=
  ∀ k, exists_in s k ↔ redis_EXISTS k r0 = true ∧ star_match p k = false.

(** One step of it. *)
Lemma scanning_step p r1 r0 l cur s s' ks n :
  keys_in r0 r1 → scanning p r1 r0 l cur s →
  redis_SCAN cur p 1000 (rw_store (lget rl s)) = (ks, n) →
  (∀ k, exists_in s' k ↔ k ∉ ks ∧ exists_in s k) →
  let l' := l ++ [(rw_store (lget rl s), ks)] in
  scan_calls p 1000 l' n ∧
  (∀ k, exists_in s' k ↔ redis_EXISTS k r0 = true ∧ k ∉ returned l') ∧
  Forall (λ e, keys_in e.1 r1) l' ∧
  (∀ k, exists_in s' k → Forall (λ e, redis_EXISTS k e.1 = true) l').
Proof.
  intros H01 [Hc Hm Hl Ho Hk] Hscan Hs' l'. split; [by eapply SC_step|]. split; [|split].
  - intros k. rewrite Hs', Hl. unfold l'. rewrite returned_app. unfold returned at 3. cbn.
    rewrite app_nil_r. set_solver.
  - apply Forall_app. split; [done|]. constructor; [|constructor]. cbn.
    intros k Hex. by apply H01, Hl.
  - intros k [_ Hex]%Hs'. apply Forall_app. split; [by apply Hk|].
    by constructor; [|constructor].
Qed.

Lemma scanning_end p r0 l s :
  plain_pattern p = true → scan_calls p 1000 l 0 → l ≠ [] →
  (∀ k, exists_in s k ↔ redis_EXISTS k r0 = true ∧ k ∉ returned l) →
  (∀ k, exists_in s k → Forall (λ e, redis_EXISTS k e.1 = true) l) →
  cleaned p r0 s.
Proof.
  intros Hp Hc Hne Hl Hk k. split.
  - intros Hex. split; [by apply Hl|]. apply not_true_is_false. intros Hmt.
    apply Hl in Hex as Hex'. destruct Hex' as [_ Hnr]. apply Hnr.
    by eapply SCAN_full; [..|exact Hmt]; [|done|done|apply Hk].
  - intros [Hr0 Hmt]. apply Hl. split; [done|]. intros Hin.
    by rewrite (SCAN_matches p 1000 l 0 k Hc Hp Hin) in Hmt.
Qed.

(** The loop comes to the end of the iteration. *)
Lemma exec_scan_loop (env : environment) p r1 r0 fuel : ∀ l cur i s,
  plain_pattern p = true → keys_in r0 r1 → (∀ j, (i <= j)%nat → env _ QTransport j = TOk) →
  scanning p r1 r0 l cur s → (scan_bound r1 < length l + fuel)%nat →
  ∃ s' j, exec env i (scan_loop rl fuel p cur) s = Done tt s' [] j ∧ (i <= j)%nat ∧
    cleaned p r0 s'.
Proof.
  induction fuel as [|fuel IH]; intros l cur i s Hp H01 Ht Hs Hf.
  { pose proof (SCAN_ends p 1000 l cur r1 (sc_calls _ _ _ _ _ _ Hs) (sc_old _ _ _ _ _ _ Hs)).
    lia. }
  cbn [scan_loop bind ask exec]. rewrite (Ht i) by lia.
  rewrite exec_bind. cbn [exec zoom_reads reads atomically].
  destruct (redis_SCAN cur p 1000 (rw_store (lget rl s))) as [ks n] eqn:Hscan.
  cbn [push_forks app].
  assert (Hdel : ∃ s' j, exec env (Datatypes.S i) (match ks with
      | [] => Ret tt | _ => do! _ <- redis_write rl (redis_DEL ks); Ret tt end) s
        = Done tt s' [] j ∧ (i < j)%nat ∧ ∀ k, exists_in s' k ↔ k ∉ ks ∧ exists_in s k).
  { destruct ks as [|k0 ks'] eqn:Eks.
    - exists s, (Datatypes.S i). repeat split; [lia|set_solver|naive_solver|naive_solver].
    - rewrite <- Eks. destruct (exec_redis_write env (redis_DEL ks) (Datatypes.S i) s)
        as (s' & E & Hst); [apply Ht; lia|].
      exists s', (Datatypes.S (Datatypes.S i)). rewrite exec_bind, E.
      split; [done|]. split; [lia|]. intros k. unfold exists_in. rewrite Hst. apply EXISTS_DEL. }
  destruct Hdel as (s1 & j1 & E1 & Hj1 & Hs1). rewrite exec_bind, E1. cbn [push_forks app].
  destruct (scanning_step p r1 r0 l cur s s1 ks n H01 Hs Hscan Hs1) as (Hc & Hl & Ho & Hk).
  destruct (Z.eqb_spec n 0) as [->|Hn].
  - exists s1, j1. split; [done|]. split; [lia|]. eapply scanning_end; try done.
    by destruct l.
  - destruct (IH _ n j1 s1 Hp H01 ltac:(intros j Hj; apply Ht; lia)
      ltac:(split; [exact Hc|by right|exact Hl|exact Ho|exact Hk]))
      as (s2 & j2 & E2 & Hj2 & Hcl); [rewrite length_app; cbn; lia|].
    exists s2, j2. rewrite E2. cbn. split; [done|]. split; [lia|done].
Qed.
(** *** All patterns *)

Definition spared (k : string) (ps : list string) : Prop :=
  Forall (λ p, star_match p k = false) ps.

Lemma exec_cleanings (env : environment) r1 fuel ps : ∀ i s,
  Forall (λ p, plain_pattern p = true) ps → (∀ j, (i <= j)%nat → env _ QTransport j = TOk) →
  keys_in (rw_store (lget rl s)) r1 → (scan_bound r1 < fuel)%nat →
  ∃ s' j, exec env i (for_each (λ p, scan_loop rl fuel p 0) ps) s = Done tt s' [] j ∧
    ∀ k, exists_in s' k ↔ exists_in s k ∧ spared k ps.
Proof.
  induction ps as [|p ps IH]; intros i s Hps Ht Hr1 Hf.
  { exists s, i. split; [done|]. intros k. split; [|tauto]. split; [done|constructor]. }
  apply Forall_cons in Hps as [Hp Hps]. cbn [for_each].
  destruct (exec_scan_loop env p r1 (rw_store (lget rl s)) fuel [] 0 i s Hp Hr1 Ht)
    as (s1 & j1 & E1 & Hj1 & Hc1); [|cbn; lia|].
  { split; [apply SC_start|by left| |constructor|constructor].
    intros k. unfold returned. cbn. set_solver. }
  destruct (IH j1 s1 Hps ltac:(intros j Hj; apply Ht; lia)
    ltac:(intros k Hk; by apply Hr1, (Hc1 k)) Hf) as (s2 & j2 & E2 & Hs2).
  exists s2, j2. rewrite exec_bind, E1. cbn [push_forks app]. rewrite E2.
  split; [done|]. intros k. rewrite Hs2. unfold spared. rewrite Forall_cons, (Hc1 k).
  unfold exists_in. tauto.
Qed.

(** *** The keys of a run are among them *)

Lemma star_match_end l x : no_star l = true → star_match (l +:+ "*") (l +:+ x) = true.
Proof.
  intros Hl. rewrite star_match_literal by done.
  rewrite <- (str_app_nil x). by apply star_match_any.
Qed.

Lemma star_match_mid l x p s :
  no_star l = true → star_match p s = true →
  star_match (l +:+ String "*" p) (l +:+ (x +:+ s)) = true.
Proof. intros Hl Hp. rewrite star_match_literal by done. by apply star_match_any. Qed.

(** Nothing of an earlier run: no pool, loan, window or configuration of any
    key, no member and no counter of the baseline. *)
Definition no_run_left (r : R) : Prop :=
  (∀ key, redis_GET (PoolKey key) r = None) ∧
  (∀ key id, redis_GET (BorrowedKey key id) r = None) ∧
  (∀ key, redis_GET (WindowStartKey key) r = None) ∧
  (∀ key, redis_HGETALL (ConfigKey key) r = ∅) ∧
  (∀ ttl, redis_HGETALL (hashKey (NewMembership ttl)) r = ∅) ∧
  (∀ n, redis_GET (baseline_key n) r = None).

Lemma spared_no_run (r : R) :
  (∀ k, redis_EXISTS k r = true → spared k cleanPatterns) → no_run_left r.
Proof.
  intros Hr. assert (Hno : ∀ p k, p ∈ cleanPatterns → star_match p k = true →
    redis_EXISTS k r = false).
  { intros p k Hp Hm. apply not_true_is_false. intros Hs%Hr.
    unfold spared in Hs. rewrite Forall_forall in Hs. by rewrite Hs in Hm. }
  assert (Hin : ∀ p, bool_decide (p ∈ cleanPatterns) = true → p ∈ cleanPatterns)
    by (intros p; apply bool_decide_eq_true).
  repeat split.
  - intros key. apply GET_not_EXISTS, (Hno "krate:*:pool"); [by apply Hin|].
    by apply (star_match_mid "krate:").
  - intros key id. apply GET_not_EXISTS, (Hno "krate:*:borrowed:*"); [by apply Hin|].
    apply (star_match_mid "krate:" key ":borrowed:*"); [done|].
    by apply (star_match_end ":borrowed:").
  - intros key. apply GET_not_EXISTS, (Hno "krate:*:window_start"); [by apply Hin|].
    by apply (star_match_mid "krate:").
  - intros key. apply HGETALL_not_EXISTS, (Hno "krate:*:config"); [by apply Hin|].
    by apply (star_match_mid "krate:").
  - intros ttl. apply HGETALL_not_EXISTS, (Hno "krate:cluster:*"); [by apply Hin|].
    by apply (star_match_end "krate:cluster:").
  - intros n. apply GET_not_EXISTS, (Hno "rb:*"); [by apply Hin|].
    by apply (star_match_end "rb:").
Qed.

(** C40: a run starts clean.  Whether FLUSHDB is carried out or refused (then
    provided the commands after it are not), [cleanScenario] returns with
    nothing of an earlier run in Redis; refused, it deletes exactly the keys of
    its six patterns. *)
Theorem cleanScenario_spec (env : environment) i s fuel :
  (∀ j, (i < j)%nat → env _ QTransport j = TOk) →
  (scan_bound (rw_store (lget rl s)) < fuel)%nat →
  ∃ s' j, exec env i (cleanScenario rl fuel) s = Done tt s' [] j ∧
    no_run_left (rw_store (lget rl s')) ∧
    ∀ k, exists_in s' k ↔
      match env _ QTransport i with
      | TNotRun _ => exists_in s k ∧ spared k cleanPatterns
      | _ => False
      end.
Proof.
  intros Ht Hf. set (r1 := rw_store (lget rl s)) in *.
  assert (Hgone : ∀ k, redis_EXISTS k (redis_FLUSHDB r1) = true ↔ False)
    by (intros k; by rewrite EXISTS_FLUSHDB).
  assert (Hps : Forall (λ p, plain_pattern p = true) cleanPatterns)
    by (repeat constructor).
  enough (∃ s' j, exec env i (cleanScenario rl fuel) s = Done tt s' [] j ∧
    ∀ k, exists_in s' k ↔ match env _ QTransport i with
      | TNotRun _ => exists_in s k ∧ spared k cleanPatterns | _ => False end)
    as (s' & j & E & Hk).
  { exists s', j. split; [done|]. split; [|done]. apply spared_no_run. intros k.
    change (exists_in s' k → spared k cleanPatterns). rewrite Hk.
    destruct (env _ QTransport i); [done|tauto|done]. }
  unfold cleanScenario, redis_write. cbn [exec bind ask].
  destruct (env transport QTransport i) as [|e|e]; cbn [exec bind].
  - eexists _, _. split; [reflexivity|]. intros k. unfold exists_in. by rewrite lget_put.
  - apply (exec_cleanings env r1); [done|intros j Hj; apply Ht; lia|done|done].
  - destruct (exec_cleanings env r1 fuel cleanPatterns (Datatypes.S i)
      (lput rl (mkRW (redis_FLUSHDB r1) (rw_log (lget rl s))) s)) as (s' & j & E & Hk);
      [done|intros j Hj; apply Ht; lia| |done|].
    + intros k. rewrite lget_put. cbn. by rewrite Hgone.
    + exists s', j. split; [exact E|]. intros k. rewrite Hk. unfold exists_in.
      rewrite lget_put. cbn. rewrite Hgone. tauto.
Qed.
End left_over.

(** ** A server that returns everything in one step *)

Definition mem_keys (m : mem_redis) : gset string := dom (mem_vals m) ∪ dom (mem_hashes m).

#[export] Instance mem_redis_keys : RedisKeys mem_redis := {
  redis_EXISTS k m := bool_decide (k ∈ mem_keys m);
  redis_DEL ks m :=
    mkMem (filter (λ e, e.1 ∉ ks) (mem_vals m)) (filter (λ e, e.1 ∉ ks) (mem_hashes m));
  redis_SCAN c p n m :=
    (filter (λ k, star_match p k = true) (elements (mem_keys m)), 0);
  scan_bound _ := 1%nat;
}.

Lemma mem_scan_calls p n (l : list (mem_redis * list string)) c :
  scan_calls p n l c → c = 0 ∧
  (l = [] ∨ ∃ m, l = [(m, filter (λ k, star_match p k = true) (elements (mem_keys m)))]).
Proof.
  intros Hc. induction Hc as [|l c r ks c' _ [-> IH] Hm [= <- <-]]; [by split; [|left]|].
  split; [done|]. destruct Hm as [->|?]; [|done]. right. by exists r.
Qed.

#[export] Instance mem_scan_laws : ScanLaws mem_redis.
Proof.
  split.
  - intros k ks r. unfold redis_EXISTS, redis_DEL, mem_redis_keys, mem_keys.
    rewrite !bool_decide_eq_true. cbn [mem_vals mem_hashes].
    rewrite !elem_of_union, !elem_of_dom. unfold is_Some.
    setoid_rewrite map_lookup_filter_Some. cbn. naive_solver.
  - intros k r. unfold redis_EXISTS, mem_redis_keys. apply bool_decide_eq_false.
    unfold mem_keys. cbn. set_solver.
  - intros k r. unfold redis_EXISTS, mem_redis_keys. intros Hk%bool_decide_eq_false. cbn.
    apply not_elem_of_dom. unfold mem_keys in Hk. set_solver.
  - intros k r. unfold redis_EXISTS, mem_redis_keys. intros Hk%bool_decide_eq_false. cbn.
    unfold mem_keys in Hk. by rewrite (not_elem_of_dom_1 (mem_hashes r) k) by set_solver.
  - intros p n l k [_ [->|[m ->]]]%mem_scan_calls Hne _ Hk Hm; [done|].
    rewrite Forall_singleton in Hk. cbn in Hk. apply bool_decide_eq_true in Hk.
    unfold returned. cbn. rewrite app_nil_r, list_elem_of_filter, elem_of_elements. done.
  - intros p n l c k [_ [->|[m ->]]]%mem_scan_calls _; unfold returned; cbn; [set_solver|].
    rewrite app_nil_r, list_elem_of_filter. tauto.
  - intros p n l c r0 [_ [->|[m ->]]]%mem_scan_calls _; cbn; lia.
Qed.

(** A server that refuses FLUSHDB. *)
Definition refusing : environment := λ X q i,
  match q in question X return X with
  | QTransport => if (i =? 0)%nat then TNotRun (ErrMsg "NOPERM") else TOk
  | q => clock_env 0 _ q i
  end.

Lemma cleanScenario_spec_witness :
  let s := mkRW (mkMem {["krate:k:pool" := 7; "other" := 1]}
                   {["krate:cluster:members" := ∅]}) [] in
  ∃ s' j, exec refusing 0 (cleanScenario lens_id 2) s = Done tt s' [] j ∧
    no_run_left (rw_store s') ∧ redis_EXISTS "other" (rw_store s') = true.
Proof.
  intros s. destruct (cleanScenario_spec lens_id refusing 0 s 2)
    as (s' & j & E & Hno & Hk).
  - intros j Hj. destruct j; [lia|reflexivity].
  - cbn. lia.
  - exists s', j. split; [exact E|]. split; [exact Hno|]. apply (Hk "other").
    split; [reflexivity|]. repeat constructor.
Defined.
