(* ===== verification/Report.v ===== *)
(** * Report: the benchmark's program and what it prints (cmd/krate-bench)

    [printScenario] and [printSummary] as the lines they print, [None] when
    [strings.Repeat] panics, and [main]: each scenario is run twice, each
    time on a cleaned Redis.  The lines on standard error are left out.  A
    reservoir is read when its run has reported; the program reads it when it
    prints, which differs only if a worker outlives the deadline of its run.
    The theorems: how wide the rows of the summary are, that an unknown
    scenario ends the program, and that nothing is printed for [-json]. *)

From stdpp Require Import pretty.
From S2P Require Export Cleaning.

(** ** A scenario *)

Definition line (left mid right : string) (ns : list nat) (fill : string) : string :=
  left +:+ String.concat mid ((λ n, Repeat fill n) <$> ns) +:+ right.

Definition frame_top : string := line "┌" "" "┐" [81%nat] "─".
Definition frame_mid : string := line "├" "" "┤" [81%nat] "─".
Definition frame_end : string := line "└" "" "┘" [81%nat] "─".

Section print.
Context `{FloatConv}.

Definition redisPerReq (kr : result) : float64 :=
  f64_div (f64_of_Z (to_i64 (pm_redis (res_pm kr) + pm_redisEx (res_pm kr))))
    (f64_of_Z (res_total kr)).
Definition redisReduction (kr : result) : float64 :=
  f64_mul (f64_sub f64_one (redisPerReq kr)) (f64_of_Z 100).
Definition totalPaths (kr : result) : Z :=
  let pm := res_pm kr in
  to_i64 (pm_local pm + pm_redis pm + pm_peer pm + pm_redisSkip pm).

(** The count of a reservoir and its bins. *)
Abbreviation samples := (Z * list histBin)%type.

Definition latency_row (r : result) : string :=
  "│  │ " +:+ fmt_left 24 (res_name r) +:+ " │ " +:+ fmt_width 10 (fmtNs (res_p50 r))
  +:+ "   │ " +:+ fmt_width 10 (fmtNs (res_p99 r)) +:+ "   │ "
  +:+ fmt_width 10 (fmtNs (res_p999 r)) +:+ "   │".

Definition latency_table (kr rd : result) : list string :=
  [ "│"; "│  Latency";
    line "│  ┌" "┬" "┐" [26; 14; 14; 14]%nat "─";
    "│  │                          │    p50       │    p99       │   p99.9      │";
    line "│  ├" "┼" "┤" [26; 14; 14; 14]%nat "─";
    latency_row kr; latency_row rd;
    line "│  └" "┴" "┘" [26; 14; 14; 14]%nat "─" ] ++
  (if f64_ltb f64_zero (res_p50 rd) then
     [ "│  p50: " +:+ fmt_f 0 (f64_div (res_p50 rd) (math_Max (res_p50 kr) f64_one))
       +:+ "x faster │ p99: "
       +:+ fmt_f 0 (f64_div (res_p99 rd) (math_Max (res_p99 kr) f64_one)) +:+ "x faster" ]
   else []).

Definition path_lines (cfg : scenarioConfig) (kr : result) : option (list string) :=
  let pm := res_pm kr in
  let total := totalPaths kr in
  if 0 <? total then
    local ← printPath "│    Local   (~30ns, zero Redis)     " (pm_local pm) total;
    redis ← printPath "│    Redis   (~1ms, Lua script)      " (pm_redis pm) total;
    skip ← (if 0 <? pm_redisSkip pm then
              l ← printPath "│    RdSkip  (~1ns, bypass flag)     " (pm_redisSkip pm) total;
              Some [l]
            else Some []);
    Some ([local; redis] ++ skip ++
      (if 0 <? sc_ProbeK cfg then
         [ "│    Peer    (~3ms, gRPC loopback)   " +:+ fmt_width 9 (fmtN (pm_peer pm))
           +:+ " (granted) / " +:+ fmtN (pm_peerProbes pm) +:+ " (probes)" ]
       else []))
  else Some [].

(** One line per tracked rank that was hit. *)
Definition key_row (cfg : scenarioConfig) (total : Z) (e : Z * Z * string) : list string :=
  let '(idx, hits, rank) := e in
  if (hits =? 0) || (sc_Keys cfg <=? idx) then []
  else
    let share := f64_mul (f64_div (f64_of_Z hits) (f64_of_Z total)) (f64_of_Z 100) in
    [ "│  │ " +:+ fmt_left 6 rank +:+ " │ " +:+ fmt_left 14 ("key:" +:+ pretty idx)
      +:+ " │ " +:+ fmt_width 11 (fmtN hits) +:+ " │ " +:+ fmt_width 5 (fmt_f 1 share)
      +:+ "%   │" ].

Definition key_table (cfg : scenarioConfig) (kr : result) : list string :=
  let d := res_dist kr in
  let topHits := to_i64 (foldr Z.add 0 (take 3 (kd_topHits d))) in
  let topPct := f64_mul (f64_div (f64_of_Z topHits) (f64_of_Z (res_total kr))) (f64_of_Z 100) in
  [ "│";
    "│  Key hits (Zipf s=" +:+ fmt_f 1 (sc_ZipfS cfg) +:+ ", " +:+ fmtN (sc_Keys cfg)
      +:+ " keys)";
    line "│  ┌" "┬" "┐" [8; 16; 13; 10]%nat "─";
    "│  │  Rank  │  Key           │  Hits       │  Share   │";
    line "│  ├" "┼" "┤" [8; 16; 13; 10]%nat "─" ] ++
  concat (key_row cfg (res_total kr) <$>
    zip (zip (kd_topIdxs d) (kd_topHits d)) (kd_topRanks d)) ++
  [ line "│  └" "┴" "┘" [8; 16; 13; 10]%nat "─";
    "│  Top 3 keys (" +:+ fmt_f 2 (f64_mul (f64_div (f64_of_Z 3) (f64_of_Z (sc_Keys cfg)))
                                  (f64_of_Z 100))
      +:+ "% of keyspace) → " +:+ fmt_f 0 topPct +:+ "% of traffic" ].

Definition accuracy_row (name : string) (r : result) : string :=
  "│    " +:+ name +:+ "  Leakage (Over-admission): " +:+ fmt_width 8 (fmtN (res_leakage r))
  +:+ " (" +:+ fmt_width 5 (fmt_f 2 (pct (res_leakage r) (res_total r)))
  +:+ "%) │ False Rejections: " +:+ fmt_width 8 (fmtN (res_falseRejs r))
  +:+ " (" +:+ fmt_width 5 (fmt_f 2 (pct (res_falseRejs r) (res_total r))) +:+ "%)".

Definition header_lines (cfg : scenarioConfig) (duration : Z) (kr rd : result)
  : list string :=
  [ ""; frame_top; "│  " +:+ sc_Name cfg; "│  " +:+ sc_Description cfg; frame_mid;
    "│  " +:+ pretty (sc_Instances cfg) +:+ " instances │ " +:+ fmtN (sc_Keys cfg)
      +:+ " keys (Zipf s=" +:+ fmt_f 1 (sc_ZipfS cfg) +:+ ") │ limit "
      +:+ fmtN (to_i64 (sc_Limit cfg)) +:+ "/" +:+ Duration_String (sc_Window cfg)
      +:+ " │ " +:+ Duration_String duration;
    "│";
    "│  Throughput: krate " +:+ fmtF (res_rps kr) +:+ "/s  vs  Redis " +:+ fmtF (res_rps rd)
      +:+ "/s  →  " +:+ fmt_f 1 (f64_div (res_rps kr) (math_Max (res_rps rd) f64_one))
      +:+ "x" ].

Definition printScenario (cfg : scenarioConfig) (duration : Z) (kr rd : result)
    (kr_lat rd_lat : samples) : option (list string) :=
  paths ← path_lines cfg kr;
  kr_buckets ← printBuckets kr_lat.1 kr_lat.2;
  rd_buckets ← printBuckets rd_lat.1 rd_lat.2;
  Some (header_lines cfg duration kr rd ++ latency_table kr rd ++
    ["│"; "│  Token path"] ++ paths ++
    (if 0 <? pm_preBorrows (res_pm kr) then
       [ "│    PreBorrow triggers: " +:+ fmtN (pm_preBorrows (res_pm kr))
         +:+ " (async Redis borrow ahead of demand)" ]
     else []) ++
    [ "│";
      "│  Redis load: " +:+ fmt_f 3 (redisPerReq kr) +:+ " calls/req → "
        +:+ fmt_f 0 (redisReduction kr) +:+ "% reduction" ] ++
    key_table cfg kr ++
    [ "│";
      "│  Rejections: krate " +:+ fmtN (res_rejected kr) +:+ " ("
        +:+ fmt_f 1 (pct (res_rejected kr) (res_total kr)) +:+ "%) vs Redis "
        +:+ fmtN (res_rejected rd) +:+ " ("
        +:+ fmt_f 1 (pct (res_rejected rd) (res_total rd)) +:+ "%)";
      "│"; "│  Accuracy & Policy Enforcement";
      accuracy_row "krate" kr; accuracy_row "Redis" rd;
      "│"; "│  Distribution"; "│  krate:" ] ++ kr_buckets ++
    ["│  Redis:"] ++ rd_buckets ++ [frame_end]).

(** ** The summary *)

Record scenarioResult := mkScenarioResult {
  sr_cfg : scenarioConfig; sr_kr : result; sr_rd : result;
}.

Definition summary_frame (left right : string) : string := line left "" right [93%nat] "═".

Definition summary_row (s : scenarioResult) : string :=
  let name := sc_Name (sr_cfg s) in
  let name := if (23 <? String.length name)%nat then String.substring 0 23 name else name in
  let kr := sr_kr s in
  let speedup := f64_div (res_rps kr) (math_Max (res_rps (sr_rd s)) f64_one) in
  "║  " +:+ fmt_left 23 name +:+ " │ " +:+ fmt_width 11 (fmtF (res_rps kr) +:+ "/s")
  +:+ " │ " +:+ fmt_width 9 (fmtF (res_rps (sr_rd s)) +:+ "/s") +:+ " │ "
  +:+ fmt_width 7 (fmt_f 1 speedup +:+ "x") +:+ " │ " +:+ fmt_width 7 (fmtNs (res_p50 kr))
  +:+ " │ " +:+ fmt_width 7 (fmtNs (res_p99 kr)) +:+ " │ "
  +:+ fmt_width 7 (fmtNs (res_p999 kr)) +:+ " ║".

Definition summary_shares (s : scenarioResult) : string :=
  let kr := sr_kr s in
  let localPct :=
    if 0 <? totalPaths kr
    then f64_mul (f64_div (f64_of_Z (pm_local (res_pm kr))) (f64_of_Z (totalPaths kr)))
           (f64_of_Z 100)
    else f64_zero in
  let skipPct :=
    if 0 <? res_total kr
    then f64_mul (f64_div (f64_of_Z (pm_redisSkip (res_pm kr))) (f64_of_Z (res_total kr)))
           (f64_of_Z 100)
    else f64_zero in
  "║  " +:+ sc_Name (sr_cfg s) +:+ ": " +:+ fmt_f 0 localPct +:+ "% local, "
  +:+ fmt_f 0 (redisReduction kr) +:+ "% Redis reduction, " +:+ fmt_f 0 skipPct
  +:+ "% bypass skips".

Definition summary_header : string :=
  "║  Scenario                 │  krate RPS  │ Redis RPS │ Speedup │   p50   │   p99   │"
  +:+ "  p99.9  ║".

Definition printSummary (all : list scenarioResult) : list string :=
  [ ""; summary_frame "╔" "╗";
    "║" +:+ Repeat " " 43 +:+ "Summary" +:+ Repeat " " 43 +:+ "║";
    summary_frame "╠" "╣"; summary_header;
    line "╠" "╪" "╣" [27; 13; 11; 9; 9; 9; 9]%nat "═" ] ++
  (summary_row <$> all) ++ [summary_frame "╠" "╣"; "║"] ++
  (summary_shares <$> all) ++ ["║"; summary_frame "╚" "╝"].
End print.

(** ** [main] *)

Section main.
Context {R : Type} `{RedisStore R} `{FloatConv} `{GrpcDial} `{NetListen} `{Gatherer}
  `{!RedisCounters R} `{!RedisKeys R}.
Context (serve : string → option (TokenServer (world R))).
(** The flags; the draws of the generator of [computeKeyDist]; the bounds on
    the loops. *)
Context (scenario : string) (duration : Z) (jsonOut : bool) (warmupKeys : Z)
  (zipf : nat → Z) (ticks fuel : nat).

Abbreviation B := (bench R).
Definition bench_redis : lens B (redis_world R) := lens_compose bl_world redis_lens.

(** What the tables read of a reservoir. *)
Definition lat_samples : go B (Z * list histBin) :=
  do! bs <- bins bl_lat;
  do! n <- zoom_reads bl_lat lat_count;
  Ret (n, bs).

(** One turn of the loop of [main]: the results and the lines printed. *)
Definition run_scenario (cfg : scenarioConfig) : go B (scenarioResult * list string) :=
  cleanScenario bench_redis fuel ;;;
  do! kr <- runKrate serve cfg ticks fuel warmupKeys zipf;
  do! kr_lat <- lat_samples;
  cleanScenario bench_redis fuel ;;;
  do! rd <- runRedisBaseline cfg fuel zipf;
  do! rd_lat <- lat_samples;
  if jsonOut then Ret (mkScenarioResult cfg kr rd, [])
  else
    match printScenario cfg duration kr rd kr_lat rd_lat with
    | Some ls => Ret (mkScenarioResult cfg kr rd, ls)
    | None => Panic "strings: negative Repeat count"
    end.

Fixpoint run_scenarios (names : list string) (all : list scenarioResult)
    (out : list string) : go B (list scenarioResult * list string) :=
  match names with
  | [] => Ret (all, out)
  | name :: names =>
      match scenarios !! name with
      | None => Panic "exit status 1"
      | Some cfg =>
          do! (r, ls) <- run_scenario cfg;
          run_scenarios names (all ++ [r]) (out ++ ls)
      end
  end.

(** What is printed on standard output. *)
Definition bench_main : go B (list string) :=
  do! ping <- ask QTransport;
  match ping with
  | TOk =>
      do! (all, out) <- run_scenarios (runNames scenario) [] [];
      if negb jsonOut && (1 <? length all)%nat
      then Ret (out ++ printSummary all) else Ret out
  | _ => Panic "exit status 1"
  end.

(** A name that is not in the table ends the program before anything is run
    or deleted. *)
Lemma bench_main_unknown (env : environment) i s :
  scenarios !! scenario = None → scenario ≠ "all" →
  exec env i bench_main s = Panicked "exit status 1".
Proof.
  intros Hn Hne. unfold bench_main, runNames. rewrite decide_True by done.
  cbn [exec bind ask]. destruct (env transport QTransport i); [|done..].
  cbn [run_scenarios]. by rewrite Hn.
Qed.

(** *** Standard output *)

(** What code can return. *)
Fixpoint returns_in {A} (P : A → Prop) (p : go B A) : Prop :=
  match p with
  | Ret a => λ P, P a
  | Step f k => λ P, ∀ x, returns_in P (k x)
  | Ask q k => λ P, ∀ x, returns_in P (k x)
  | Fork _ k => λ P, returns_in P k
  | Panic _ => λ _, True
  end P.

Lemma returns_in_any {A} (p : go B A) : returns_in (λ _, True) p.
Proof. induction p; cbn; auto. Qed.

Lemma returns_in_bind {A} (p : go B A) :
  ∀ C (P : C → Prop) (Q : A → Prop) (k : A → go B C),
  returns_in Q p → (∀ a, Q a → returns_in P (k a)) → returns_in P (bind p k).
Proof.
  induction p as [A a|A X f h IH|A X q h IH|A t _ h IH|A m]; cbn; intros C P Q k Hp Hk;
    eauto.
Qed.

Lemma returns_in_then {A C} (p : go B A) (P : C → Prop) (k : A → go B C) :
  (∀ a, returns_in P (k a)) → returns_in P (bind p k).
Proof. intros Hk. eapply returns_in_bind; [apply returns_in_any|auto]. Qed.

Lemma returns_in_exec {A} env (p : go B A) : ∀ P i s a s' fs j,
  returns_in P p → exec env i p s = Done a s' fs j → P a.
Proof.
  induction p as [A a|A X f h IH|A X q h IH|A t _ h IH|A m]; cbn; intros P i s a' s' fs j Hp.
  - by intros [= <- _ _ _].
  - destruct (f s) as [[x s1]|]; [|done]. by apply IH.
  - by apply IH.
  - destruct (exec env i h s) as [b s1 fs1 j1| |] eqn:E; [|done..].
    intros [= <- _ _ _]. by eapply IH.
  - done.
Qed.

(** Nothing is printed for [-json].  The flag promises JSON; all it does
    is to leave out the tables, whatever was run and however it went. *)
Lemma json_prints_nothing (env : environment) i s out s' fs j :
  jsonOut = true → exec env i bench_main s = Done out s' fs j → out = [].
Proof.
  intros Hj. apply (returns_in_exec env bench_main (λ out, out = [])).
  unfold bench_main. apply returns_in_then. intros [|e|e]; [|done..].
  apply (returns_in_bind _ _ _ (λ r, r.2 = [])).
  - assert (Hs : ∀ cfg, returns_in (λ r, r.2 = []) (run_scenario cfg)).
    { intros cfg. unfold run_scenario. do 6 (apply returns_in_then; intros ?).
      by rewrite Hj. }
    generalize (@nil scenarioResult). induction (runNames scenario) as [|name names IH];
      intros all; cbn [run_scenarios]; [done|]. destruct (scenarios !! name) as [cfg|]; [|done].
    eapply returns_in_bind; [apply Hs|]. intros [r ls] [= ->]. apply IH.
  - intros [all out'] Ho. cbn in Ho. by rewrite Hj.
Qed.
End main.

(** ** The width of a row *)

Lemma rune_count_length s : (rune_count s <= String.length s)%nat.
Proof. induction s as [|c s IH]; [done|].
  cbn [rune_count String.length]. cbv zeta. destruct (_ && _); lia.
Qed.

Lemma length_substring n s : (String.length (String.substring 0 n s) <= n)%nat.
Proof.
  revert n. induction s as [|c s IH]; intros [|n]; [cbn; lia..|].
  change (S (String.length (String.substring 0 n s)) <= S n)%nat. specialize (IH n). lia.
Qed.

(** Counts the runes of the literals. *)
Ltac count_runes :=
  repeat match goal with |- context [rune_count (String ?c ?s)] =>
    let n := eval vm_compute in (rune_count (String c s)) in
    change (rune_count (String c s)) with n end.

Section width.
Context `{FloatConv}.

(** The summary is out of line.  A row whose figures fit their columns is
    94 columns wide, for any name; the header and the rules above and below
    are 95 wide. *)
Lemma summary_row_width (s : scenarioResult) :
  let kr := sr_kr s in let rd := sr_rd s in
  (rune_count (fmtF (res_rps kr)) <= 9)%nat → (rune_count (fmtF (res_rps rd)) <= 7)%nat →
  (rune_count (fmt_f 1 (f64_div (res_rps kr) (math_Max (res_rps rd) f64_one))) <= 6)%nat →
  (rune_count (fmtNs (res_p50 kr)) <= 7)%nat → (rune_count (fmtNs (res_p99 kr)) <= 7)%nat →
  (rune_count (fmtNs (res_p999 kr)) <= 7)%nat →
  rune_count (summary_row s) = 94%nat ∧
  Forall (λ l, rune_count l = 95%nat)
    [summary_header; summary_frame "╔" "╗"; summary_frame "╠" "╣"; summary_frame "╚" "╝"].
Proof.
  intros kr rd H1' H2' H3' H4' H5' H6'. split.
  - unfold summary_row. fold kr rd. set (name := if (_ <? _)%nat then _ else _).
    assert (Hn : (rune_count name <= 23)%nat).
    { unfold name. destruct (Nat.ltb_spec 23 (String.length (sc_Name (sr_cfg s)))).
      - etransitivity; [apply rune_count_length|apply length_substring].
      - pose proof (rune_count_length (sc_Name (sr_cfg s))). lia. }
    rewrite !rune_count_app, rune_count_left, !rune_count_width, !rune_count_app.
    count_runes. lia.
  - repeat constructor.
Qed.
End width.
