(* ===== verification/Liveness.v ===== *)
(** * Liveness: a request is answered

    No lock is forgotten and nothing waits for something that cannot happen: in
    a cluster at rest (no lock held, as between requests) [AllowN] returns an
    answer, whatever Redis, the peers and the clock do, and the cluster is at
    rest again.  [keeps P p] says this of a piece of code: from a state in [P]
    it returns, in a state in [P].  Probes in parallel are other goroutines, so
    for a goroutine alone the peers are asked in sequence, or there is nobody
    to ask. *)

From S2P Require Export WellFormed Termination Behaviour Borrowing.

(** ** States at rest *)

Section at_rest.
Context {R : Type} `{RedisStore R} `{FloatConv}.
Abbreviation W := (world R).

(** [held] is the bucket whose mutex the goroutine under consideration holds. *)
Record at_rest (held : option (string * nat)) (s : W) : Prop := {
  ar_wf : well_formed s;
  ar_shards id sh : sh ∈ l_shards (lget (inst_lens id) s) → sh_mu sh = mkMutex false 0;
  ar_mesh id : mesh_mu (l_mesh (lget (inst_lens id) s)) = false;
  ar_mu key p b : heap_of key s !! p = Some b → b_mu b = true → held = Some (key, p);
}.

(** Nobody reported loans to this gossiper. *)
Definition nobody_known (g : Gossiper) : Prop :=
  ∀ sh, sh ∈ g_shards g → peerBorrowed sh = ∅.

(** What code at rest does not touch. *)
Record same_rest (s s' : W) : Prop := {
  rs_heap : w_heap s' = w_heap s;
  rs_insts id : is_Some (w_insts s !! id) → is_Some (w_insts s' !! id);
  rs_shards id : l_shards (lget (inst_lens id) s') = l_shards (lget (inst_lens id) s);
  rs_mesh id : l_mesh (lget (inst_lens id) s') = l_mesh (lget (inst_lens id) s);
  rs_gossip id : l_gossiper (lget (inst_lens id) s') = l_gossiper (lget (inst_lens id) s);
}.

Lemma same_rest_refl s : same_rest s s.
Proof. by split. Qed.

Lemma same_rest_insts s s' :
  w_heap s' = w_heap s → w_insts s' = w_insts s → same_rest s s'.
Proof. intros E1 E2. split; cbn; rewrite ?E2; done. Qed.

Class RestField {T} (f : lens limiter T) : Prop := {
  rf_shards t l : l_shards (lput f t l) = l_shards l;
  rf_mesh t l : l_mesh (lput f t l) = l_mesh l;
  rf_gossip t l : l_gossiper (lput f t l) = l_gossiper l;
}.

#[export] Instance QuietLens_rest {T} id (f : lens limiter T) `{!RestField f} :
  QuietLens same_rest (inst id f).
Proof.
  intros s t.
  assert (E : ∀ id' {X} (g : limiter → X),
    g (lput f t (lget (inst_lens id) s)) = g (lget (inst_lens id) s) →
    g (lget (inst_lens id') (lput (inst id f) t s)) = g (lget (inst_lens id') s)).
  { intros id' X g Hg. cbn. destruct (decide (id' = id)) as [->|Hne].
    - by rewrite lookup_insert_eq.
    - by rewrite lookup_insert_ne. }
  split; [done| |intros id'; apply E..].
  - intros id' Hid. cbn. apply lookup_insert_is_Some'. by right.
  - apply rf_shards.
  - apply rf_mesh.
  - apply rf_gossip.
Qed.

#[export] Instance RestField_metrics : RestField f_metrics.
Proof. done. Qed.
#[export] Instance RestField_mgr : RestField f_mgr.
Proof. done. Qed.
#[export] Instance RestField_router : RestField f_router.
Proof. done. Qed.
#[export] Instance RestField_wg : RestField f_wg.
Proof. done. Qed.
#[export] Instance QuietLens_redis_rest : QuietLens same_rest (redis_lens (R:=R)).
Proof. intros s t. by apply same_rest_insts. Qed.

(** ** Code that returns *)

Context (env : environment).
Context (Henv : ∀ X (q : question X) i, valid_answer q (env X q i)).

Definition keeps {A} (P : W → Prop) (p : go W A) : Prop :=
  ∀ s, P s → returns env p s (λ _ s', P s').

Lemma keeps_ret {A} P (a : A) : keeps P (Ret a).
Proof. intros s Hs. by apply returns_ret. Qed.
Lemma keeps_bind {A B} P (p : go W A) (k : A → go W B) :
  keeps P p → (∀ a, keeps P (k a)) → keeps P (bind p k).
Proof.
  intros Hp Hk s Hs. apply returns_bind. eapply returns_mono; [by apply Hp|].
  intros a s' Hs'. by apply Hk.
Qed.
Lemma keeps_ask {X} P (q : question X) : keeps P (ask q).
Proof. intros s Hs. by apply returns_ask. Qed.
Lemma keeps_fork P t : keeps P (fork t).
Proof. intros s Hs. by apply returns_fork. Qed.
Lemma keeps_reads {X} P (f : W → X) : keeps P (reads f).
Proof. intros s Hs. by apply (returns_atomically env (λ s, (f s, s))). Qed.

(** The others an instance may be asked by or ask, and the instance itself. *)
Context (started : string → Prop) (o : options W).

(** What the code below keeps: [ps] are the buckets it holds pointers to. *)
Record resting (held : option (string * nat)) (ps : list (string * nat)) (s : W) : Prop := {
  re_rest : at_rest held s;
  re_started id : started id → is_Some (w_insts s !! id);
  re_ptrs key p : (key, p) ∈ ps → allocated key p s;
  re_peers : o_probeMode o = Sequential ∨
             nobody_known (l_gossiper (lget (inst_lens (o_instanceID o)) s));
}.

Lemma resting_same held ps s s' :
  well_formed s' → same_rest s s' → resting held ps s → resting held ps s'.
Proof.
  intros Hwf [Eh Hi Esh Em Eg] [[_ Hsh Hm Hmu] Hst Hp Hn].
  assert (E : ∀ key, heap_of key s' = heap_of key s) by (intros key; unfold heap_of; by rewrite Eh).
  split; [split| | |].
  - done.
  - intros id sh. rewrite Esh. apply Hsh.
  - intros id. by rewrite Em.
  - intros key p b. rewrite E. apply Hmu.
  - auto.
  - intros key p Hin. unfold allocated. rewrite E. by apply Hp.
  - by rewrite Eg.
Qed.

Abbreviation rkeeps held ps := (keeps (resting held ps)).

Lemma keeps_zoom {T X} (l : lens W T) P held ps (f : T → X * T) :
  SafeLens well_formed grows l P → QuietLens same_rest l → (∀ t, P t → P (f t).2) →
  rkeeps held ps (zoom l f).
Proof.
  intros Hl Hq Hf s Hs. apply returns_atomically.
  pose proof (ar_wf _ _ (re_rest _ _ _ Hs)) as Hwf.
  specialize (Hf _ (safe_lget well_formed grows s Hwf)).
  destruct (f (lget l s)) as [x t]. cbn [fst snd] in *.
  eapply resting_same; [by apply (safe_lput well_formed grows s t Hwf)|apply Hq|exact Hs].
Qed.
Lemma keeps_zoom_modify {T} (l : lens W T) P held ps (f : T → T) :
  SafeLens well_formed grows l P → QuietLens same_rest l → (∀ t, P t → P (f t)) →
  rkeeps held ps (zoom_modify l f).
Proof. intros Hl Hq Hf. by apply (keeps_zoom l P held ps (λ t, (tt, f t))). Qed.

(** *** Buckets *)

(** Replacing a bucket; its mutex is the only one that may be held. *)
Lemma resting_bucket held held' ps key p b' (s : W) :
  resting held ps s → allocated key p s →
  (∀ k q, (k, q) ≠ (key, p) → held = Some (k, q) → held' = Some (k, q)) →
  (b_mu b' = true → held' = Some (key, p)) →
  resting held' ps (put_heap key (<[p:=b']> (heap_of key s)) s).
Proof.
  intros [[Hwf Hsh Hm Hmu] Hst Hps Hn] Hp Hother Hb'.
  destruct (well_formed_heap key (<[p:=b']> (heap_of key s)) s) as [Hwf' Hg];
    [by rewrite length_insert|done|].
  split; [split| | |]; [done|exact Hsh|exact Hm| |exact Hst| |exact Hn].
  - intros k q b Hq Hb. rewrite heap_of_put in Hq.
    destruct (decide (k = key)) as [->|Hne]; [|apply Hother; [congruence|by eapply Hmu]].
    destruct (decide (q = p)) as [->|Hne].
    + rewrite list_lookup_insert_eq in Hq by exact Hp. injection Hq as <-. by apply Hb'.
    + rewrite list_lookup_insert_ne in Hq by done.
      apply Hother; [congruence|by eapply Hmu].
  - intros k q Hin. eapply allocated_grows; [exact Hg|by apply Hps].
Qed.

Lemma keeps_on_bucket {X} held ps key p (f : bucket → X * bucket) :
  (key, p) ∈ ps → (∀ b, b_mu (f b).2 = b_mu b) → rkeeps held ps (on_bucket key p f).
Proof.
  intros Hin Hf s Hs. pose proof (re_ptrs _ _ _ Hs key p Hin) as Hp.
  destruct (lookup_lt_is_Some_2 _ _ Hp) as [b Hb]. specialize (Hf b).
  destruct (f b) as [x b'] eqn:E. eapply returns_await; [by rewrite Hb, E|].
  apply (resting_bucket held held); [done|done|done|]. cbn in Hf. rewrite Hf.
  by apply (ar_mu _ _ (re_rest _ _ _ Hs)).
Qed.
Lemma keeps_bucket_do held ps key p f :
  (key, p) ∈ ps → (∀ b, b_mu (f b) = b_mu b) → rkeeps held ps (bucket_do (R:=R) key p f).
Proof. intros Hin Hf. by apply keeps_on_bucket. Qed.
Lemma keeps_bucket_get {X} held ps key p (f : bucket → X) :
  (key, p) ∈ ps → rkeeps held ps (bucket_get (R:=R) key p f).
Proof. intros Hin. by apply keeps_on_bucket. Qed.

(** Locking a bucket for a piece of code that unlocks it. *)
Lemma keeps_locked {X} ps key p (body : go W X) :
  (key, p) ∈ ps → rkeeps (Some (key, p)) ps body →
  rkeeps None ps (bucket_Lock key p ;;; do! x <- body; bucket_Unlock key p ;;; Ret x).
Proof.
  intros Hin Hbody s Hs. pose proof (re_ptrs _ _ _ Hs key p Hin) as Hp.
  destruct (lookup_lt_is_Some_2 _ _ Hp) as [b Hb]. apply returns_bind.
  destruct (b_mu b) eqn:Hmu.
  { by pose proof (ar_mu _ _ (re_rest _ _ _ Hs) key p b Hb Hmu). }
  eapply returns_await; [by rewrite Hb, Hmu|]. apply returns_bind.
  eapply returns_mono; [apply Hbody; by apply (resting_bucket None)|].
  intros x s' Hs'. pose proof (re_ptrs _ _ _ Hs' key p Hin) as Hp'.
  destruct (lookup_lt_is_Some_2 _ _ Hp') as [b' Hb']. apply returns_bind.
  eapply returns_await; [by rewrite Hb'|]. apply returns_ret.
  apply (resting_bucket (Some (key, p))); [done|done| |done]. congruence.
Qed.

(** *** The bucket table *)

Lemma resting_shard held ps id key s :
  resting held ps s → started id → ∃ sh, shard_at id key sh s ∧
    ∀ p, buckets sh !! key = Some p → allocated key p s.
Proof.
  intros [[Hwf Hsh Hm Hmu] Hst Hps Hn] Hid. destruct (Hwf id) as [Hlen Htab _ _ _].
  destruct (lookup_lt_is_Some_2 (l_shards (lget (inst_lens id) s)) (shard_of key))
    as [sh Hl]; [rewrite Hlen; apply shard_of_lt|].
  exists sh. split.
  - split; [by apply Hst|]. split; [exact Hl|]. eapply Hsh, list_elem_of_lookup_2, Hl.
  - intros p Hp. by eapply Htab.
Qed.

Lemma resting_alloc held ps key b s :
  b_mu b = false → resting held ps s →
  resting held ((key, length (heap_of key s)) :: ps) (put_heap key (heap_of key s ++ [b]) s).
Proof.
  intros Hb [[Hwf Hsh Hm Hmu] Hst Hps Hn].
  destruct (well_formed_heap key (heap_of key s ++ [b]) s) as [Hwf1 Hg];
    [rewrite length_app; cbn; lia|done|].
  split; [split| | |]; [done|exact Hsh|exact Hm| |exact Hst| |exact Hn].
  - intros k q b1 Hq Hb1. rewrite heap_of_put in Hq.
    destruct (decide (k = key)) as [->|Hne]; [|by eapply Hmu].
    apply lookup_app_Some in Hq as [Hq|[_ Hq]]; [by eapply Hmu|].
    apply list_lookup_singleton_Some in Hq as [_ <-]. congruence.
  - intros k q [[= -> ->]|Hin]%elem_of_cons.
    + unfold allocated. rewrite heap_of_put, decide_True, length_app by done. cbn. lia.
    + eapply allocated_grows; [exact Hg|auto].
Qed.

Lemma resting_put_shard held ps id i sh sh' s :
  l_shards (lget (inst_lens id) s) !! i = Some sh → sh_mu sh' = mkMutex false 0 →
  (∀ key p, buckets sh' !! key = Some p → i = shard_of key ∧ allocated key p s) →
  resting held ps s → resting held ps (put_shard id i sh' s).
Proof.
  intros Hl Hmu' Htab [[Hwf Hsh Hm Hmu] Hst Hps Hn].
  assert (E : ∀ id' {X} (g : limiter → X),
    (∀ l t, g (lput f_shards t l) = g l) →
    g (lget (inst_lens id') (put_shard id i sh' s)) = g (lget (inst_lens id') s)).
  { intros id' X g Hg. unfold put_shard. cbn. destruct (decide (id' = id)) as [->|Hne].
    - rewrite lookup_insert_eq. apply (Hg (default no_limiter (w_insts s !! id))).
    - by rewrite lookup_insert_ne. }
  split; [split| | |]; [| | |exact Hmu| |exact Hps|by rewrite E].
  - apply (well_formed_put id (lput f_shards (<[i:=sh']>
      (l_shards (lget (inst_lens id) s))) (lget (inst_lens id) s)) s Hwf).
    by eapply limiter_ok_shard.
  - intros id' sh1. unfold put_shard. cbn. destruct (decide (id' = id)) as [->|Hne].
    + rewrite lookup_insert_eq. cbn. intros [j Hj]%list_elem_of_lookup.
      apply list_lookup_insert_Some in Hj as [(_ & <- & _)|[_ Hj]]; [done|].
      eapply (Hsh id), list_elem_of_lookup_2, Hj.
    + rewrite lookup_insert_ne by done. apply (Hsh id').
  - intros id'. by rewrite E.
  - intros id' Hid'. cbn. apply lookup_insert_is_Some'. right. by apply Hst.
Qed.

Lemma resting_create held ps (o' : options W) key sh now s :
  resting held ps s → shard_at (o_instanceID o') key sh s →
  resting held ((key, length (heap_of key s)) :: ps) (after_create o' key sh now s).
Proof.
  intros Hs (_ & Hl & _). unfold after_create.
  pose proof (resting_alloc held ps key (fresh_bucket o' key now) s eq_refl Hs) as Hs1.
  eapply resting_put_shard; [exact Hl|done| |exact Hs1].
  intros k q Hq. cbn in Hq. apply lookup_insert_Some in Hq as [[<- <-]|[_ Hq]].
  - split; [done|]. eapply re_ptrs; [exact Hs1|by left].
  - destruct (lo_tables s _ (ar_wf _ _ (re_rest _ _ _ Hs) (o_instanceID o')) _ _ _ _ Hl Hq)
      as [-> Hq']. split; [done|]. eapply allocated_grows; [|exact Hq'].
    apply put_heap_grows. rewrite length_app. cbn. lia.
Qed.

Lemma resting_drop held e ps s : resting held (e :: ps) s → resting held ps s.
Proof. intros [? ? Hp ?]. split; [done..| |done]. intros k q Hin. apply Hp. by right. Qed.

(** The code after [getOrCreateBucket] has one more pointer. *)
Lemma keeps_getOrCreateBucket {X} (o' : options W) held ps key (k : nat → go W X) :
  started (o_instanceID o') → (∀ p, rkeeps held ((key, p) :: ps) (k p)) →
  rkeeps held ps (do! p <- getOrCreateBucket o' key; k p).
Proof.
  intros Hid Hk s Hs. apply returns_bind.
  assert (Hnext : ∀ p s', resting held ((key, p) :: ps) s' →
    returns env (k p) s' (λ _ s2, resting held ps s2)).
  { intros p s' Hs'. eapply returns_mono; [by apply Hk|]. intros x s2. apply resting_drop. }
  destruct (resting_shard held ps _ key s Hs Hid) as (sh & Hsh & Hptr).
  destruct (buckets sh !! key) as [p|] eqn:Hp.
  - eapply returns_getOrCreate_hit; [exact Hsh|exact Hp|]. apply Hnext.
    destruct Hs as [Hr Hst Hps Hn]. split; [done..| |done].
    intros k' q [[= -> ->]|Hin]%elem_of_cons; [by apply Hptr|by apply Hps].
  - eapply returns_getOrCreate_miss; [exact Hsh|exact Hp|]. intros now.
    apply Hnext. by apply resting_create.
Qed.

Lemma tryConsume_mu n b : b_mu (tryConsume n b).2 = b_mu b.
Proof. unfold tryConsume. by destruct (TryConsume _ _). Qed.

(** Walks over the code. *)
Ltac ptr := first [by left|right; ptr|done].
Create HintDb live.
Ltac live_step :=
  match goal with
  | |- keeps _ (bind (getOrCreateBucket _ _) _) =>
      apply keeps_getOrCreateBucket; [assumption|intros ?]
  | |- keeps _ (bind _ _) => apply keeps_bind; [|intros ?]
  | |- keeps _ (fork _) => apply keeps_fork
  | |- keeps _ (match ?x with _ => _ end) => destruct x
  | |- keeps _ (let '_ := ?x in _) => destruct x
  | |- keeps _ (zoom_reads _ _) => apply keeps_reads
  | |- keeps _ (ask _) => apply keeps_ask
  | |- keeps _ (Ret _) => apply keeps_ret
  | |- keeps _ (zoom_modify _ _) =>
      eapply keeps_zoom_modify; [apply _|apply _|try done; intros ? ?]
  | |- keeps _ (zoom _ _) => eapply keeps_zoom; [apply _|apply _|try done; intros ? ?]
  | |- keeps _ (bucket_get _ _ _) => apply keeps_bucket_get; ptr
  | |- keeps _ (bucket_do _ _ _) => apply keeps_bucket_do; [ptr|try done]
  | |- keeps _ (on_bucket _ _ _) =>
      apply keeps_on_bucket; [ptr|try first [done|apply tryConsume_mu]]
  | |- keeps _ _ => solve [eauto with live]
  end.
Ltac live := repeat (cbv zeta; live_step).

Lemma keeps_metric held ps id f : rkeeps held ps (metric id f).
Proof. unfold metric. live. Qed.
#[local] Hint Resolve keeps_metric : live.

(** ** Redis and the manager *)

Lemma keeps_redis_eval held ps sc keys args :
  rkeeps held ps (redis_eval (R:=R) redis_lens sc keys args).
Proof.
  assert (Hb : rkeeps held ps (zoom (redis_lens (R:=R)) (run_body sc keys args))).
  { intros s Hs. apply returns_atomically.
    pose proof (run_body_log sc keys args (w_redis s)) as Hl. cbn [lget redis_lens].
    destruct (run_body sc keys args (w_redis s)) as [v w]. cbn [fst snd] in *.
    eapply resting_same; [|by apply QuietLens_redis_rest|exact Hs].
    by apply well_formed_redis; [|apply Hs]. }
  unfold redis_eval. repeat (cbv zeta; first [exact Hb|live_step]).
Qed.
#[local] Hint Resolve keeps_redis_eval : live.

Lemma keeps_runScript held ps name keys args :
  name = "borrow" ∨ name = "reset" →
  rkeeps held ps (runScript (R:=R) redis_lens NewRedisPool name keys args).
Proof.
  intros Hname. assert (Hs : is_Some (scripts NewRedisPool !! name))
    by (destruct Hname as [-> | ->]; vm_compute; eauto).
  unfold runScript. destruct Hs as [sc ->]. live.
Qed.
#[local] Hint Resolve keeps_runScript : live.

#[local] Existing Instance limiter_pool.
Lemma keeps_Acquire held ps id key need cb :
  (∀ g, rkeeps held ps (cb g)) →
  rkeeps held ps (Acquire (mgr_lens id) None key need (Some cb)).
Proof.
  intros Hcb. unfold Acquire, acquire_leader. cbn [Borrow limiter_pool redis_pool_client].
  unfold RP_Borrow. live; try done. by apply note_borrow_wf.
Qed.

Lemma keeps_bm_Borrowed held ps id key : rkeeps held ps (bm_Borrowed (mgr_lens (R:=R) id) key).
Proof. unfold bm_Borrowed. live. by apply Borrowed_wf. Qed.
#[local] Hint Resolve keeps_bm_Borrowed : live.

Lemma keeps_record_allowed held ps (o' : options W) key p n b :
  (key, p) ∈ ps → rkeeps held ps (record_allowed o' key p n b).
Proof. intros Hin. unfold record_allowed, RecordConsumption. live. Qed.

Lemma keeps_refill_cleared held ps key p g :
  (key, p) ∈ ps → rkeeps held ps (refill_cleared key p g).
Proof. intros Hin. unfold refill_cleared. live. Qed.

(** ** The peers *)

Context (net : string → option (options W)).
Context (net_ok : ∀ addr o', net addr = Some o' → started (o_instanceID o')).

Lemma keeps_TransferTokens held ps (o' : options W) req :
  started (o_instanceID o') → rkeeps held ps (TransferTokens (token_server o') req).
Proof.
  intros Hid. unfold TransferTokens. cbn [token_server SetGossipHandler SetTokenTransferer
    SetTokenAccessor NewTokenServer tokenAccessor tokenTransferer].
  unfold token_accessor, token_transferer. live.
Qed.
#[local] Hint Resolve keeps_TransferTokens : live.

#[local] Instance live_lookup : PeerLookup W conn := limiter_lookup o.
#[local] Instance live_ranker : PeerRanker W := limiter_ranker o.
#[local] Instance live_requester : TokenRequester W conn :=
  limiter_requester (serve net).

Lemma keeps_RequestTokens held ps client origin key need :
  rkeeps held ps (RequestTokens (C:=conn) client origin key need).
Proof.
  cbn [RequestTokens live_requester limiter_requester grpc_requester].
  unfold PC_RequestTokens, rpc, serve. live_step; [|live]. live_step; [live|].
  destruct (net (c_addr client)) as [o'|] eqn:Hnet; cbn [fmap option_fmap option_map];
    [|live]. apply net_ok in Hnet. live.
Qed.

Lemma keeps_emitProbeResult held ps key peer result :
  rkeeps held ps (emitProbeResult (limiter_acquirer o) key peer result).
Proof.
  unfold emitProbeResult, limiter_acquirer.
  destruct (o_metrics o); cbn [onProbeResult SetProbeResultCallback
    SetExtraTokensCallback NewAcquirer]; [|live].
  unfold probe_result. live.
Qed.
#[local] Hint Resolve keeps_RequestTokens keeps_emitProbeResult : live.

Lemma keeps_GetPeerClient held ps id peer :
  rkeeps held ps (GetPeerClient (mesh_lens (R:=R) id) peer).
Proof.
  intros s Hs. eapply returns_await; [|exact Hs].
  pose proof (ar_mesh _ _ (re_rest _ _ _ Hs) id) as Hm.
  change (mesh_mu (lget (mesh_lens id) s) = false) in Hm. by rewrite Hm.
Qed.
#[local] Hint Resolve keeps_GetPeerClient : live.

Lemma keeps_probe held ps peer key need surplus :
  rkeeps held ps (probe (limiter_acquirer o) peer key need surplus).
Proof. unfold probe. cbn [lookup_client live_lookup limiter_lookup mesh_lookup]. live. Qed.
#[local] Hint Resolve keeps_probe : live.

Lemma keeps_probeSequential held ps l key need :
  rkeeps held ps (probeSequential (limiter_acquirer o) l key need).
Proof. induction l as [|c l IH]; cbn [probeSequential]; live. Qed.

(** A ranking never panics, and ranks nobody if nobody is known. *)
Lemma returns_g_TopK held ps k key s :
  0 <= k → resting held ps s →
  returns env (g_TopK (gossip_lens (o_instanceID o)) k key) s
    (λ es s', resting held ps s' ∧ (o_probeMode o = Sequential ∨ es = [])).
Proof.
  intros Hk Hs. unfold g_TopK.
  apply returns_bind, returns_ask. intros j1. apply returns_bind, returns_ask. intros j2.
  apply returns_bind, returns_ask. intros j3. apply returns_bind, returns_atomically.
  cbn [fst snd]. set (now := env Z QNow j1).
  pose proof (re_peers _ _ _ Hs) as Hn.
  change (l_gossiper (lget (inst_lens (o_instanceID o)) s))
    with (lget (gossip_lens (o_instanceID o)) s) in Hn.
  destruct (g_shards (lget (gossip_lens (o_instanceID o)) s) !! shard_of key)
    as [sh|] eqn:Hsh; [|apply returns_ret; by split; [|right]].
  destruct (TopK key now sh k _ _) as [es|] eqn:E; [|by apply TopK_some in E].
  apply returns_ret. split; [done|]. destruct Hn as [Hn|Hn]; [by left|right].
  rewrite TopK_nobody in E; [congruence|exact (Henv _ QOrder j2)
    |exact (Henv _ QOrder j3)|eapply Hn, list_elem_of_lookup_2, Hsh|done].
Qed.

Context (probeK_ok : 0 <= o_probeK o).

Lemma keeps_acquire held ps key need :
  rkeeps held ps (acquire chans_lens (limiter_acquirer o) key need).
Proof.
  intros s Hs. unfold acquire. cbn [rank_peers live_ranker limiter_ranker gossip_ranker].
  assert (Ha : probeK (limiter_acquirer o) = o_probeK o ∧
    (o_probeMode o = Sequential → mode (limiter_acquirer o) = ProbeSequential)).
  { unfold limiter_acquirer. destruct (o_metrics o); cbn; (split; [done|]);
      by intros ->. }
  destruct Ha as [-> Hmode]. apply returns_bind.
  eapply returns_mono; [by apply (returns_g_TopK held ps)|].
  cbn beta. intros es s' [Hs' [Hm|Hnil]]; [rewrite (Hmode Hm)|subst es].
  - destruct es; [by apply returns_ret|by apply keeps_probeSequential].
  - by apply returns_ret.
Qed.
#[local] Hint Resolve keeps_acquire : live.

Lemma keeps_acquireFromPeers held ps key need cb :
  (∀ g, rkeeps held ps (cb g)) →
  rkeeps held ps (acquireFromPeers (serve net) o key need cb).
Proof. intros Hcb. unfold acquireFromPeers, acq_Acquire. live; apply Hcb. Qed.

(** ** [AllowN] *)

Context (self : started (o_instanceID o)).

Lemma keeps_consume_or ps key p n next :
  (key, p) ∈ ps → rkeeps None ps next → rkeeps None ps (consume_or o key p n next).
Proof.
  intros Hin Hn. pose proof (λ n b, keeps_record_allowed None ps o key p n b Hin).
  unfold consume_or. live.
Qed.

Lemma keeps_from_redis ps key p n ex again :
  (key, p) ∈ ps → (∀ ex', rkeeps None ps (again ex')) →
  rkeeps None ps (from_redis o key p n ex again).
Proof.
  intros Hin Ha. pose proof (λ g, keeps_refill_cleared None ps key p g Hin) as Hcb.
  pose proof (λ id need, keeps_Acquire None ps id key need _ Hcb).
  pose proof (λ next, keeps_consume_or ps key p n next Hin).
  unfold from_redis. live.
Qed.

Lemma keeps_from_peers ps key p n again :
  (key, p) ∈ ps → rkeeps None ps again →
  rkeeps None ps (from_peers (serve net) o key p n again).
Proof.
  intros Hin Ha. unfold from_peers.
  assert (Hcb : ∀ g, rkeeps None ps (refill_received o key p g))
    by (intros g; unfold refill_received; live).
  pose proof (keeps_acquireFromPeers None ps key n _ Hcb).
  pose proof (keeps_consume_or ps key p n again Hin Ha). live.
Qed.

(** A router that waits for nothing. *)
Definition live_router (r : Router W) : Prop :=
  ∀ ps rc, rkeeps None ps (Decide r rc).

Lemma Default_live : live_router NewDefaultRouter.
Proof. intros ps rc. apply keeps_ret. Qed.

Lemma EMA_live : live_router (NewEMARouter (o_instanceID o)).
Proof.
  intros ps rc. cbn [NewEMARouter EMA_router Decide]. unfold EMA_Decide.
  destruct (rc_HasPeers rc); [|live]. unfold PeerIDs.
  live_step; [live|]. live_step; [|live].
  intros s Hs. eapply returns_mono; [apply (returns_g_TopK None ps); [|exact Hs]|].
  - by destruct (_ <? _).
  - by intros es s' [? _].
Qed.

Context (r : Router W) (Hr : o_router o = Some r) (router_live : live_router r).

Lemma keeps_allow_loop fuel ps key p n ex checked :
  (key, p) ∈ ps → rkeeps None ps (allow_loop (serve net) o fuel key p n ex checked).
Proof.
  intros Hin. revert ex checked.
  induction fuel as [|fuel IH]; intros ex checked; cbn [allow_loop]; [live|].
  rewrite Hr. unfold reject. live_step; [apply router_live|].
  destruct a as [d [e|]]; [live|]. destruct d; [|by apply keeps_from_peers|live].
  by apply keeps_from_redis.
Qed.

Context (window_ok : Milliseconds (o_window o) ≠ 0).

Lemma keeps_resetWindow ps key nowMs : rkeeps None ps (resetWindow o key nowMs).
Proof.
  unfold resetWindow. apply keeps_getOrCreateBucket; [done|]. intros p.
  apply keeps_locked; [by left|]. unfold reset_locked, RP_ResetWindow.
  rewrite (proj2 (Z.eqb_neq _ 0) window_ok). live. by apply bm_Reset_wf.
Qed.

Lemma keeps_maybePreBorrow ps key p :
  (key, p) ∈ ps → rkeeps None ps (maybePreBorrow o key p).
Proof. intros Hin. unfold maybePreBorrow, wg_Add. live.
  intros b. unfold TryMarkPreBorrowing. by destruct (b_preBorrowing b).
Qed.

Lemma keeps_AllowN fuel key n : rkeeps None [] (AllowN (serve net) o fuel key n).
Proof.
  unfold AllowN, allow_local, allow_slow. live_step; [live|]. live_step; [live|].
  live_step; [live|]. apply keeps_getOrCreateBucket; [done|]. intros p.
  set (ps := [(key, p)]). assert (Hin : (key, p) ∈ ps) by by left.
  pose proof (keeps_resetWindow ps key) as Hreset.
  pose proof (λ ex, keeps_allow_loop fuel ps key p n ex false Hin) as Hloop.
  pose proof (keeps_maybePreBorrow ps key p Hin).
  pose proof (keeps_record_allowed None ps o key p n true Hin).
  pose proof (λ next, keeps_consume_or ps key p n next Hin) as Hcons.
  repeat (cbv zeta; lazymatch goal with
    | |- keeps _ (consume_or _ _ _ _ _) => apply Hcons
    | _ => live_step end).
Qed.
End at_rest.

(** C9: a request that runs alone is answered.  In a cluster at rest, an
    instance with one of the library's routers and sound options, which asks
    its peers in sequence or knows none, answers every request, within as many rounds of its loop as
    the pool and the limit hold tokens: whatever fails, the call returns, and
    every mutex, of buckets, tables and meshes, is free again. *)
Theorem AllowN_answers {R} `{RedisLaws R} `{FloatConv} κ env
    (net : string → option (options (world R))) (o : options (world R)) fuel n s :
  (∀ X (q : question X) i, valid_answer q (env X q i)) →
  (∀ i, env _ (QShared κ) i = None) →
  o_router o = Some NewDefaultRouter ∨ o_router o = Some (NewEMARouter (o_instanceID o)) →
  options_sound o → opts_ok o →
  o_probeMode o = Sequential ∨
    nobody_known (l_gossiper (lget (inst_lens (o_instanceID o)) s)) →
  0 <= n <= 2 ^ 53 → 0 <= pool_of κ s <= 2 ^ 53 → mgrs_ok s →
  Z.max (pool_of κ s) (o_limit o) + 2 < Z.of_nat fuel →
  is_Some (w_insts s !! o_instanceID o) →
  (∀ addr o', net addr = Some o' → is_Some (w_insts s !! o_instanceID o')) →
  at_rest None s →
  ∀ i, ∃ answer s' fs j,
    exec env i (AllowN (serve net) o fuel κ n) s = Done (Some answer) s' fs j ∧
    at_rest None s'.
Proof.
  intros Henv Halone Hr [_ Hw Hk _ _] Ho Hpeers Hn Hp Hm Hfuel Hself Hnet Hrest i.
  set (started := λ id, is_Some (w_insts s !! id)).
  assert (∃ r, o_router o = Some r ∧ RouterLaws r ∧ quiet_router κ r ∧
            live_router env started o r) as (r & Er & Hlaws & Hq & Hl).
  { destruct Hr as [Hr|Hr]; (eexists; split; [exact Hr|]).
    - split; [apply _|]. split; [apply Default_quiet|apply Default_live].
    - split; [apply _|]. split; [apply EMA_quiet|by apply EMA_live]. }
  destruct (keeps_AllowN env Henv started o net Hnet Hk Hself r Er Hl Hw fuel κ n s)
    with i as (a & s' & fs & j & E & Hs').
  { split; [done|done| |done]. intros key p Hin. by apply elem_of_nil in Hin. }
  destruct a as [a|]; [exists a, s', fs, j; split; [exact E|apply Hs']|exfalso].
  assert (Hserve : ∀ addr srv, serve net addr = Some srv →
            ∃ o' : options (world R), srv = token_server o').
  { unfold serve. intros addr srv. destruct (net addr) as [o'|]; [|done].
    intros [= <-]. eauto. }
  by apply (runs_AllowN κ env Henv Halone _ Hserve o r Er Hlaws Hq Ho fuel n
           (Z.max (pool_of κ s) (o_limit o)) s ltac:(done) ltac:(lia)
           ltac:(by exists (pool_of κ s); split; [lia|split]) Hfuel) in E.
Qed.

(** An instance that was just started is at rest, and knows nobody. *)
Lemma started_at_rest {R} `{RedisStore R} `{FloatConv} (s : world R) :
  w_heap s = ∅ →
  (∀ id, ∃ (o : options (world R)) ema, lget (inst_lens id) s = initial_limiter o ema) →
  at_rest None s.
Proof.
  intros Hh Hi. split.
  - intros id. destruct (Hi id) as (o & ema & ->). apply initial_limiter_ok.
  - intros id sh. destruct (Hi id) as (o & ema & ->). unfold initial_limiter.
    cbn [l_shards]. intros [-> _]%elem_of_replicate. done.
  - intros id. by destruct (Hi id) as (o & ema & ->).
  - intros key p b. unfold heap_of. by rewrite Hh, lookup_empty.
Qed.

Definition demo_started : world mem_redis :=
  mkWorld ∅ ∅ (mkRW (mkMem ∅ ∅) [])
    {["a" := initial_limiter demo (NewEMAPredictiveRouter f64_zero)]} [].

Lemma demo_started_inst id :
  ∃ (o : options (world mem_redis)) ema,
    lget (inst_lens id) demo_started = initial_limiter o ema ∧ id_ok (o_instanceID o) ∧ opts_ok o.
Proof.
  cbn. destruct (decide (id = "a")) as [->|Hne].
  - rewrite lookup_singleton_eq. exists demo, (NewEMAPredictiveRouter f64_zero).
    split; [done|]. split; apply demo_instance_ok.
  - rewrite lookup_singleton_ne by done.
    exists defaultOptions, (NewEMAPredictiveRouter f64_zero).
    split; [done|]. split; [apply id_ok_empty|apply defaultOptions_ok].
Qed.

Lemma AllowN_answers_witness :
  ∃ answer s' fs j,
    exec (clock_env (60000 * Second)) 0 (AllowN (serve demo_net) demo demo_fuel "k" 5)
      demo_started = Done (Some answer) s' fs j ∧ at_rest None s'.
Proof.
  refine (AllowN_answers "k" (clock_env (60000 * Second)) demo_net demo demo_fuel 5
    demo_started _ _ _ _ _ _ _ _ _ _ _ _ _ 0).
  - apply clock_env_ok.
  - reflexivity.
  - by left.
  - apply demo_sound.
  - apply (io_opts "k" 10000), demo_instance_ok.
  - right. intros sh. change (sh ∈ replicate gossipShardCount empty_gshard → peerBorrowed sh = ∅).
    by intros [-> _]%elem_of_replicate.
  - lia.
  - vm_compute. split; discriminate.
  - intros id. destruct (demo_started_inst id) as (o & ema & E & Hid & _ & Hmin & Hmax).
    unfold mgr_lens, inst. cbn [lens_compose lget f_mgr]. rewrite E.
    split; [exact Hmin|]. split; [exact Hmax|exact Hid].
  - vm_compute. reflexivity.
  - by eexists.
  - done.
  - apply started_at_rest; [done|]. intros id.
    destruct (demo_started_inst id) as (o & ema & E & _). eauto.
Defined.
